(* ===== verification/_CoqProject ===== *)
-Q . S2P
Prelude.v
Crypto.v
Model.v
Capability.v
QueueStore.v
QueueInv.v
QueueSpec.v
QueueSteps.v
QueueCharge.v
QueueImport.v
QueueProps.v
QueueOwner.v
QueueWithdraw.v
QueueLimits.v
QueueCursor.v
Attachment.v
AttachmentProps.v
Float64.v
Prekey.v
PrekeyProps.v
Presence.v
PresenceProps.v
Admission.v
AdmissionGate.v
AdmissionProps.v
AdmissionLimits.v
Strconv.v
Code.v
CodeProps.v
GoDuration.v
Config.v
ConfigProps.v
Peer.v
PeerProps.v
Node.v
Server.v
Mesh.v
Boot.v
Process.v
NodeLogic.v
NodeProps.v
NodeCaps.v
RelayProps.v
RelayAdmission.v
ProcessProps.v
ProcessHistory.v
ServerProps.v
MeshProps.v
MeshDelivery.v
Issue.v
IssueProps.v
GoText.v
Admit.v
AdmitText.v
AdmitProps.v
AdmitTextProps.v
ErrorLog.v
ErrorLogProps.v
