(* ===== verification/Prelude.v ===== *)
(** * Verification of dee-relay

    dee-relay is a small store-and-forward relay: it holds sealed messages and their
    acknowledgements, attachment chunks, one-time prekeys and presence leases in memory,
    bounded and for a limited time, admits circles by a challenge-response gate, and
    replicates its queue with the other relays of a pool. A second program issues the
    credentials the gate admits. This library models the relay from its stores up to its
    HTTP routes and its background loops, and the issuance program, and proves what makes
    them correct.

    ** The program and the files

    The stores:

    - [internal/model]: the records on the wire. [Model.v] has them with the source's
      fields; metadata is a finite map, a time a number of nanoseconds.
    - [internal/queue/capability.go]: the queue tags and the authorisation of a request.
      [Capability.v], over SHA-256 and base64url written out in [Crypto.v].
    - [internal/queue/store.go]: messages, acks and purge tombstones with lane and
      credential counters, tag bindings, two indexes and sequence numbers. [QueueStore.v]
      has every operation; a definition named as a method is the whole method, and the
      smaller ones are the stretches of it that its proofs reason about. [QueueInv.v] is
      the invariant of the bookkeeping, [QueueSpec.v] a reference store with no
      bookkeeping at all (three maps and the insertion order) and the refinement of each
      operation, [QueueSteps.v] the runs of both. [QueueCharge.v] follows what a message is
      charged to, [QueueImport.v] what an import delivers and [QueueWithdraw.v] what an imported
      ack takes away. [QueueProps.v], [QueueOwner.v], [QueueLimits.v] and [QueueCursor.v] have
      the theorems.
    - [internal/attachment/relay.go]: windows of chunks in transit. [Attachment.v] is the
      code, with the replay bitmap at its 64-bit words and the transit ring of 24 hourly
      buckets; [AttachmentProps.v] the theorems.
    - [internal/prekey/store.go]: pools of one-time prekeys with a token-bucket limiter.
      [Prekey.v] is the code, its tokens IEEE binary64 values ([Float64.v], over the
      Standard Library's [SpecFloat]); [PrekeyProps.v] the theorems.
    - [internal/presence/store.go]: presence leases with a fair share per caller and
      revocation tombstones. [Presence.v] and [PresenceProps.v].
    - [internal/peer]: the statuses of the peers with the health the relay publishes, and
      the address it advertises. [Peer.v] and [PeerProps.v].

    The gate and its credentials:

    - [internal/admission] and [internal/httpapi/admission.go]: credentials, challenges,
      sessions and the handlers over them. [Admission.v] is the code; [AdmissionGate.v]
      the handlers interleaved at the locks, and the lemmas on the two tables;
      [AdmissionProps.v] and [AdmissionLimits.v] the theorems. The grants that the gate
      hands to the queue and the attachment relay ([queueGrant], [attachmentGrant]) are
      where the components meet ([credential_only_lowers]).
    - The rest of [internal/admission/credential.go]: redemption codes and the keys derived
      from them ([Code.v], [CodeProps.v]), and the text of a retention window
      ([GoDuration.v], which has [time.ParseDuration] and the formatting of a duration).
    - [internal/issue]: the credential file in memory, its edits, its rendering (with the texts
      of the windows) and its replacement on disk, and the tier presets. [Issue.v] and
      [IssueProps.v].
    - [cmd/dee-admit]: the subcommands over issuance and the session exchange. [Admit.v] and
      [AdmitProps.v] have what they do, [AdmitText.v] and [AdmitTextProps.v] what they print, over
      the formatting of [GoText.v] with its calendar.

    The relay as a whole:

    - [internal/config]: the configuration from the environment and the boot check.
      [Config.v] and [ConfigProps.v], over the integer, boolean and list readers of
      [Strconv.v].
    - [Node.v] has the state of a relay, all stores together, and the language its
      goroutines are written in: a [Prog] is a sequence of atomic calls on the stores, and
      [sysStep] lets any number of programs interleave at the calls.
    - [internal/httpapi/server.go] and [body_limit.go]: every handler, the routes of the two
      listeners and the body limits as programs. [Server.v].
    - [internal/mesh/syncer.go]: the pull of a peer's snapshot, page by page. [Mesh.v].
    - [cmd/dee-relay]: the epoch, the construction of the server, the boot, the reload, the cleanup
      tick and the sync tick of [main.go] are in [Boot.v]; the life of the process, from its start
      through signals, requests, turns of its loops and the shutdown to its exit, is in
      [Process.v], with its theorems in [ProcessProps.v] and [ProcessHistory.v]; the writer of
      [errorlog.go] that keeps addresses out of the error log, with its regular expression as a
      value and a matcher, in [ErrorLog.v] and [ErrorLogProps.v].
    - [NodeProps.v] shows that every atomic call of every program is an operation of the
      store it works on, [NodeCaps.v] that no operation changes a cap and what caps an
      environment gives. [NodeLogic.v] is a program logic for interleaved programs whose assertions
      speak of the states that earlier calls found; [RelayAdmission.v] uses it for what the
      gate guarantees over the life of the process. Its [takes] is what one program answers when
      each of its calls finds whatever the others left, and the theorems of [ServerProps.v] on
      handlers are over it. [RelayProps.v], [ServerProps.v], [MeshProps.v]
      and [MeshDelivery.v] have the other theorems on the process, the routes and replication.

    This file is the prelude of all of them: Go's scalars and times, [strings.TrimSpace]
    on UTF-8 bytes, the interface of the runtime's unspecified choices, and the lemmas on
    maps, counts, folds and sums that the components share.

    ** How the code is modelled

    A method is a function of the store, the clock readings it takes, and its arguments,
    to its answer and the new store; every early return is a branch. A store operation
    runs under its lock, so an operation is one step and a run is a sequence of
    operations in any order, with clock readings as the callers choose them unless a theorem
    says otherwise. A handler or a background loop takes several locks in turn, and is a
    [Prog]; a theorem on [sysStep] (or, for the gate alone, on [AdmissionGate.step]) holds
    for every interleaving, one on [takes] for a program that others disturb in any way, one on
    [run] for a program in a given sequence of environments that nothing disturbs. The process
    is a function [fire] from an event and a state to the next state, where the event can
    happen: signals, arrivals, the calls of its goroutines and the passing of time are events,
    in any order.

    A Go map is a [gmap]. The order of [range] over a map and of equal elements in
    [sort.Slice] is unspecified: [GoRuntime] is the class of the orders the language
    allows, every operation that ranges or sorts takes an instance, and the theorems hold
    for all of them; [list_runtime] is an instance that can be evaluated. Errors are
    values. Sizes and counters are integers of [Z]: the maps are capped far below the
    64-bit range. Where width matters it is kept: sequence numbers wrap at 2^64 and
    credential indexes at 2^32 (the theorems that need it assume fewer insertions), the
    replay bitmap is made of 64-bit words, durations saturate in [Sub] and wrap in products,
    sizes derived from the configuration wrap, claim tokens are binary64.
    Fuel is in loops over the bytes of a string, where it is the length, in the printing of a
    number, where it is twenty digits, and in the hash, where it is the number of words; all
    are enough by construction, and the digests of two published test vectors are checked.
    A pull asks for at most the source's twenty pages; a long poll has the patience of its
    client, and [long_poll_ends] shows when it is not needed.

    Parameters: Ed25519 key derivation, signing and verification, the bytes [crypto/rand]
    gives, [net.ParseIP], [net.SplitHostPort] and [url.Parse] ([NetParsers]), the text of JSON in
    a credential file ([Codec], whose laws say that what is rendered is decoded again, with
    every entry that JSON can say; the windows in it are rendered and read back by the relay's
    own code), Unicode case folding ([Folding]), the answers of a peer and the length of its
    pages, and what system calls answer. A call of the session command that is not answered
    within its twenty seconds is one that failed. JSON decoding of a request happens before the
    definitions start: they take decoded values or the way decoding failed.

    ** What the theorems show

    - Queue: the store answers as the reference store does in every run
      ([queue_refines_reference]), its counters and indexes are exact
      ([queue_bookkeeping_exact]), a post is accepted exactly when it should be and stores exactly
      what it should ([post_accepted_iff], [post_effect]), reads and snapshot pages are
      exact ([read_exact], [snapshot_page_exact]); tagged mail and acks need the
      secret ([tagged_mail_needs_secret], [ack_needs_secret], [tag_stays_bound]); purges
      and terminal acks are final ([purge_exact], [purge_is_final],
      [import_never_redelivers]); capacity and retention are bounded ([acks_never_refuse_posts],
      [retention_bounded], [lane_key_injective]). Four theorems show where a guarantee the
      code's comments give stops: [read_lets_acks_refuse_posts], [lane_key_collides],
      [stale_binding_takes_over], [receipt_id_can_be_squatted].
    - Attachments: memory is bounded, chunks are delivered in order and at most once, the
      ring is the rolling total, a push does what it says, and the daily ceiling starts
      with the second push ([first_push_passes_ceiling]).
    - Prekeys: pools are bounded, an entry is issued at most once, a claim and a publish
      do exactly what they say, and the burst is a hard limit in floating point.
    - Presence: tables are bounded and the shares exact, a good lease is never evicted, a
      heartbeat is accepted exactly when it should be, and a revocation holds against
      heartbeats that say when they were sent ([revocation_holds]); but a refused heartbeat lifts
      it ([refused_heartbeat_lifts_revocation]), and so does a late one without a time
      ([unstamped_heartbeat_returns]).
    - Peers: the published health is what the history of syncs says ([health_exact]), except
      that a peer never synced hides the reachable ones after it
      ([unsynced_peer_hides_reachable]); a derived address is one the host has
      ([advertised_address_held]).
    - The process and the gate together: whoever an enforcing relay serves has proved itself,
      and every message is charged to the circle that came with a live session
      ([relay_serves_proved_circles]); the relay never runs without a credential
      ([enforcing_relay_holds_credentials]).
    - Gate: no admission without a proof over an issued nonce, one session per proof,
      tables bounded and in agreement, circles isolated from each other, indexes that name one circle
      for the whole boot, and credentials that only lower caps.
    - Issuance: the file is replaced in one step and only by one the relay loads, with the
      terms of the set ([save_atomic]); what the tool holds after any edits is such a file, unless
      a tier with a negative number was granted, and then it is refused ([edited_file_loads]); a renewal and a
      revocation do what they say ([renewal_exact], [revocation_exact]), a code survives being
      copied by hand ([minted_code_survives]) and a window its text ([window_roundtrip]); a
      minted code opens the gate ([minted_code_opens_gate]). Two lemmas show where tiers and
      windows go wrong: [tier_shadowed], [long_window_wraps].
    - Configuration: the boot check passes exactly the configurations it should
      ([validate_exact]).
    - Routes: the gate guards every route it should ([gate_guards_routes]), the snapshot and
      the mail of an enforcing relay need their secrets ([snapshot_needs_secret],
      [enforced_fetch_needs_secret], [publish_needs_secret]), the reply to a post is true
      ([post_reply_truthful]), a long poll ends with the chunks that are there, whatever
      others do meanwhile ([long_poll_ends]); a tag of blanks loses its
      mail ([blank_tag_is_a_black_hole]).
    - Replication: a pull from an honest peer, restarted or not, that is at most twenty pages
      ahead and whose pages fit under the puller's ceiling, catches up ([sync_catches_up]),
      delivers what was posted there ([replicated_delivery]) and withdraws what was
      acknowledged there ([replicated_withdrawal]); a page over the ceiling stops every pull at
      the same cursor ([oversized_page_stops]); a pull from any peer is contained
      ([sync_contained]). A queue that restarts has another epoch ([newEpoch_inj]).
    - The texts: no address is left in the error log ([log_line_redacted]); the listing of
      a credential file says what the gate does, an empty file on an enforcing relay apart
      ([list_agrees_with_gate]), but a window too far
      off for a duration reads as short ([far_window_reads_short]).
    - The process: under every interleaving a run of the relay is a run of each of its stores
      ([relay_runs_are_store_runs]), so the theorems on the stores hold of it, and its memory
      is bounded by the configuration ([relay_memory_bounded]). The process with its signals and
      listeners is that relay at every moment, its goroutines are those that its events started,
      and every event is one its past allows ([process_is_relay]); its exit status says why
      it ended ([exit_says_why]), and a stop needs nobody's help
      ([stop_waits_for_no_client]); but it cuts off the requests of clients that the shutdown
      means to wait for ([stop_cuts_post]).

    Bounds chosen: [claim_burst_limit] is for bursts up to 4096, the range checked by
    evaluation ([Float64.f_checked]); the default burst is far below it.

    ** What is not modelled

    Matching a path to a route, reading bodies under their limit and deadline and rendering
    JSON are the work of [net/http] and [encoding/json], and so are connections that carry no
    request and the idle timeout that closes them. The log lines of the relay's own are left
    out, and so are flag parsing and the wording of the errors [dee-admit] prints. [internal/audit] is a test of the source itself. *)

From stdpp Require Export gmap strings list fin_maps sorting.
From Stdlib Require Export ZArith Lia.

(** ** Notation scope and hint databases *)

Declare Scope relay_scope.
Delimit Scope relay_scope with relay.
Open Scope Z_scope.

Create HintDb relay.
Create Rewrite HintDb relay.

(** ** Go scalars

    [time.Time] is a number of nanoseconds since Go's zero instant and
    [time.Duration] a number of nanoseconds. [int] and [int64] are the 64-bit
    two's complement integers; [uint64] and [uint32] are the unsigned ones. *)

Abbreviation Time := Z (only parsing).
Abbreviation Duration := Z (only parsing).

Definition int64_min : Z := - 2 ^ 63.
Definition int64_max : Z := 2 ^ 63 - 1.

(** The wrap-around of [int]/[int64], [uint64] and [uint32] arithmetic. *)
Definition wrap_int64 (z : Z) : Z := (z + 2 ^ 63) mod 2 ^ 64 - 2 ^ 63.
Definition wrap_uint64 (z : Z) : Z := z mod 2 ^ 64.
Definition wrap_uint32 (z : Z) : Z := z mod 2 ^ 32.

(** [t.IsZero()], [t.After(u)], [t.Before(u)], [t.Add(d)]; [t.Sub(u)] saturates
    at the bounds of [Duration], as documented. *)
Definition IsZero (t : Time) : bool := t =? 0.
Definition After (t u : Time) : bool := u <? t.
Definition Before (t u : Time) : bool := t <? u.
Definition Add (t : Time) (d : Duration) : Time := t + d.
Definition Sub (t u : Time) : Duration :=
  Z.max int64_min (Z.min int64_max (t - u)).

Definition Second : Duration := 1000000000.
Definition Minute : Duration := 60 * Second.
Definition Hour : Duration := 60 * Minute.

(** The length in bytes of a Go string, [len(s)]. *)
Definition len (s : string) : Z := Z.of_nat (String.length s).

(** The comparison [s == ""] of the source. *)
Definition is_empty (s : string) : bool := bool_decide (s = ""%string).

(** The string of one NUL byte, which the stores join composite keys with. *)
Definition NUL : string := String (Ascii.ascii_of_nat 0) EmptyString.

(** [make([]T, n)] and reading a map at a missing key give the zero value of the
    type; [counter_get] is the read [m[k]] of a Go [map[K]int]. *)
Definition counter_get {K} `{Countable K} (m : gmap K Z) (k : K) : Z :=
  default 0 (m !! k).

(** [m[k]++], and the "drop the key with its last unit" decrement that the
    stores use: [if m[k] <= 1 { delete(m, k) } else { m[k]-- }]. *)
Definition counter_inc {K} `{Countable K} (m : gmap K Z) (k : K) : gmap K Z :=
  <[k := counter_get m k + 1]> m.

Definition counter_dec {K} `{Countable K} (m : gmap K Z) (k : K) : gmap K Z :=
  if counter_get m k <=? 1 then delete k m else <[k := counter_get m k - 1]> m.

(** ** The Go runtime's unspecified choices

    A [range] over a map visits the entries in an order the language leaves open,
    and [sort.Slice] orders equal elements as it likes. Both are the operations of
    an interface whose laws are what the language specification and the package
    documentation promise; every operation that ranges over a map or sorts takes
    the interface, so its theorems hold for every order the runtime may pick. *)

Definition weak_order {A} (less : A → A → bool) : Prop :=
  (∀ x, less x x = false) ∧
  (∀ x y z, less x y = true → less y z = true → less x z = true) ∧
  (∀ x y z, less x y = true → less x z = true ∨ less z y = true).

Class GoRuntime := {
  range : ∀ {K A} `{Countable K}, gmap K A → list (K * A);
  range_perm : ∀ {K A} `{Countable K} (m : gmap K A), range m ≡ₚ map_to_list m;
  sort_slice : ∀ {A}, (A → A → bool) → list A → list A;
  sort_slice_perm : ∀ {A} (less : A → A → bool) l, sort_slice less l ≡ₚ l;
  sort_slice_sorted : ∀ {A} (less : A → A → bool) l,
    weak_order less → StronglySorted (λ x y, less y x = false) (sort_slice less l);
}.

(** A runtime that can be evaluated: the order of [map_to_list], and insertion
    sort. It shows the interface is inhabited and is what the witnesses run on. *)

Fixpoint insert_slice {A} (less : A → A → bool) (x : A) (l : list A) : list A :=
  match l with
  | [] => [x]
  | y :: l' => if less y x then y :: insert_slice less x l' else x :: y :: l'
  end.

Definition insertion_sort {A} (less : A → A → bool) (l : list A) : list A :=
  foldr (insert_slice less) [] l.

Lemma insert_slice_perm {A} (less : A → A → bool) x l :
  insert_slice less x l ≡ₚ x :: l.
Proof.
  induction l as [|y l IH]; simpl; [done|].
  destruct (less y x); [rewrite IH; constructor | done].
Qed.

Lemma insertion_sort_perm {A} (less : A → A → bool) l : insertion_sort less l ≡ₚ l.
Proof.
  induction l as [|x l IH]; simpl; [done|]. by rewrite insert_slice_perm, IH.
Qed.

Lemma insert_slice_sorted {A} (less : A → A → bool) x l :
  weak_order less →
  StronglySorted (λ x y, less y x = false) l →
  StronglySorted (λ x y, less y x = false) (insert_slice less x l).
Proof.
  intros (Hirr & Htr & Hwk) Hs. induction Hs as [|y l Hs IH Hy]; simpl.
  { repeat constructor. }
  destruct (less y x) eqn:Hyx.
  - constructor; [done|].
    rewrite (insert_slice_perm less x l). constructor; [|done].
    destruct (less x y) eqn:Hxy; [|done].
    pose proof (Htr _ _ _ Hyx Hxy) as H. by rewrite Hirr in H.
  - constructor; [by constructor|]. constructor; [done|].
    eapply Forall_impl; [exact Hy|]. intros z Hz. simpl in *.
    destruct (less z x) eqn:Hzx; [|done].
    destruct (Hwk _ _ y Hzx) as [H|H]; congruence.
Qed.

#[export, refine] Instance list_runtime : GoRuntime := {
  range K A _ _ m := map_to_list m;
  sort_slice A less l := insertion_sort less l;
}.
Proof.
  - done.
  - intros. apply insertion_sort_perm.
  - intros A less l Hw. induction l as [|x l IH]; simpl; [constructor|].
    by apply insert_slice_sorted.
Defined.

(** ** [strings.TrimSpace]

    On the bytes of a string: the white-space runes are the six ASCII ones, U+0085,
    U+00A0, U+1680, U+2000 to U+200A, U+2028, U+2029, U+202F, U+205F and U+3000, and
    UTF-8 is self-synchronising, so trimming runes at the two ends is trimming their
    encodings there. [space_prefix] gives the bytes of the space rune a byte list
    begins with; [space_suffix] reads a reversed list. *)

Definition ascii_space (b : Z) : bool := ((9 <=? b) && (b <=? 13)) || (b =? 32).

Definition space2 (b1 b2 : Z) : bool :=
  (b1 =? 0xC2) && ((b2 =? 0x85) || (b2 =? 0xA0)).

Definition space3 (b1 b2 b3 : Z) : bool :=
  ((b1 =? 0xE1) && (b2 =? 0x9A) && (b3 =? 0x80))
  || ((b1 =? 0xE2) && (b2 =? 0x80)
      && (((0x80 <=? b3) && (b3 <=? 0x8A)) || (b3 =? 0xA8) || (b3 =? 0xA9) || (b3 =? 0xAF)))
  || ((b1 =? 0xE2) && (b2 =? 0x81) && (b3 =? 0x9F))
  || ((b1 =? 0xE3) && (b2 =? 0x80) && (b3 =? 0x80)).

Definition space_prefix (l : list Z) : nat :=
  match l with
  | b1 :: r1 =>
      if ascii_space b1 then 1%nat else
      match r1 with
      | b2 :: r2 =>
          if space2 b1 b2 then 2%nat else
          match r2 with
          | b3 :: _ => if space3 b1 b2 b3 then 3%nat else 0%nat
          | [] => 0%nat
          end
      | [] => 0%nat
      end
  | [] => 0%nat
  end.

Definition space_suffix (l : list Z) : nat :=
  match l with
  | b1 :: r1 =>
      if ascii_space b1 then 1%nat else
      match r1 with
      | b2 :: r2 =>
          if space2 b2 b1 then 2%nat else
          match r2 with
          | b3 :: _ => if space3 b3 b2 b1 then 3%nat else 0%nat
          | [] => 0%nat
          end
      | [] => 0%nat
      end
  | [] => 0%nat
  end.

(** Drop runes as long as there is one; the length is enough fuel, since each turn
    drops a byte. *)
Fixpoint drop_spaces (span : list Z → nat) (fuel : nat) (l : list Z) : list Z :=
  match fuel with
  | O => l
  | S fuel => match span l with O => l | n => drop_spaces span fuel (drop n l) end
  end.

Definition trim_left (l : list Z) : list Z := drop_spaces space_prefix (length l) l.
Definition trim_right (l : list Z) : list Z :=
  reverse (drop_spaces space_suffix (length l) (reverse l)).

Definition bytes_of_string (s : string) : list Z :=
  (λ a, Z.of_N (Ascii.N_of_ascii a)) <$> String.list_ascii_of_string s.
Definition string_of_bytes (l : list Z) : string :=
  String.string_of_list_ascii ((λ b, Ascii.ascii_of_N (Z.to_N b)) <$> l).

(** [utf8.Valid]: no encoding that is too long, no surrogate, nothing past U+10FFFF. *)
Definition continues (b : Z) : bool := (0x80 <=? b) && (b <=? 0xBF).

Fixpoint validUTF8 (l : list Z) : bool :=
  match l with
  | [] => true
  | a :: l =>
      if a <? 0x80 then validUTF8 l else
      match l with
      | [] => false
      | b :: l =>
          if (0xC2 <=? a) && (a <=? 0xDF) then continues b && validUTF8 l else
          match l with
          | [] => false
          | c :: l =>
              if (0xE0 <=? a) && (a <=? 0xEF) then
                continues b && continues c && implb (a =? 0xE0) (0xA0 <=? b) &&
                implb (a =? 0xED) (b <=? 0x9F) && validUTF8 l
              else
                match l with
                | [] => false
                | d :: l =>
                    (0xF0 <=? a) && (a <=? 0xF4) && continues b && continues c && continues d &&
                    implb (a =? 0xF0) (0x90 <=? b) && implb (a =? 0xF4) (b <=? 0x8F) && validUTF8 l
                end
          end
      end
  end.

Definition TrimSpace (s : string) : string :=
  string_of_bytes (trim_right (trim_left (bytes_of_string s))).

Lemma space_prefix_le l : (space_prefix l ≤ length l)%nat.
Proof. destruct l as [|b1 [|b2 [|b3 l]]]; simpl; repeat case_match; simpl; lia. Qed.

Lemma space_suffix_le l : (space_suffix l ≤ length l)%nat.
Proof. destruct l as [|b1 [|b2 [|b3 l]]]; simpl; repeat case_match; simpl; lia. Qed.

Lemma drop_spaces_done span fuel l :
  (∀ k, span k ≤ length k)%nat → (length l ≤ fuel)%nat →
  span (drop_spaces span fuel l) = 0%nat.
Proof.
  intros Hspan. revert l. induction fuel as [|fuel IH]; intros l Hl; simpl.
  - specialize (Hspan l). lia.
  - destruct (span l) as [|n] eqn:Hs; [done|]. apply IH.
    rewrite length_drop. lia.
Qed.

Lemma drop_spaces_suffix span fuel l :
  ∃ n, drop_spaces span fuel l = drop n l.
Proof.
  revert l. induction fuel as [|fuel IH]; intros l; simpl; [by exists 0%nat|].
  destruct (span l) as [|n]; [by exists 0%nat|].
  destruct (IH (drop (S n) l)) as [m ->]. exists (S n + m)%nat. by rewrite drop_drop.
Qed.

Lemma drop_spaces_nospace span fuel l : span l = 0%nat → drop_spaces span fuel l = l.
Proof. destruct fuel; simpl; [done|]. by intros ->. Qed.

Lemma space_prefix_take n l : space_prefix l = 0%nat → space_prefix (take n l) = 0%nat.
Proof.
  destruct l as [|b1 [|b2 [|b3 l]]], n as [|[|[|n]]]; simpl; repeat case_match; done.
Qed.

Lemma trim_right_take l : ∃ n, trim_right l = take n l.
Proof.
  unfold trim_right. destruct (drop_spaces_suffix space_suffix (length l) (reverse l)) as [n ->].
  exists (length l - n)%nat. by rewrite drop_reverse, reverse_involutive.
Qed.

Lemma trim_idemp l :
  trim_right (trim_left (trim_right (trim_left l))) = trim_right (trim_left l).
Proof.
  assert (space_prefix (trim_left l) = 0%nat) as Hl.
  { apply drop_spaces_done; [apply space_prefix_le | done]. }
  set (k := trim_left l) in *.
  assert (trim_left (trim_right k) = trim_right k) as ->.
  { apply drop_spaces_nospace. destruct (trim_right_take k) as [n ->].
    by apply space_prefix_take. }
  unfold trim_right at 1. rewrite drop_spaces_nospace; [by rewrite reverse_involutive|].
  unfold trim_right. rewrite reverse_involutive.
  apply drop_spaces_done; [apply space_suffix_le | by rewrite length_reverse].
Qed.

Lemma string_of_bytes_of_string s : string_of_bytes (bytes_of_string s) = s.
Proof.
  unfold string_of_bytes, bytes_of_string. rewrite <-list_fmap_compose.
  rewrite <-(String.string_of_list_ascii_of_string s) at 2. f_equal.
  rewrite <-(list_fmap_id (String.list_ascii_of_string s)) at 2.
  apply list_fmap_ext. intros _ a _. unfold compose.
  by rewrite N2Z.id, Ascii.ascii_N_embedding.
Qed.

Lemma bytes_of_string_of_bytes l :
  Forall (λ b, 0 ≤ b < 256) l → bytes_of_string (string_of_bytes l) = l.
Proof.
  intros Hl. unfold string_of_bytes, bytes_of_string.
  rewrite String.list_ascii_of_string_of_list_ascii, <-list_fmap_compose.
  rewrite <-(list_fmap_id l) at 2. apply list_fmap_ext. intros i b Hb. unfold compose.
  rewrite Forall_lookup in Hl. specialize (Hl i b Hb).
  rewrite Ascii.N_ascii_embedding by lia. simpl. lia.
Qed.

Lemma bytes_of_string_range s : Forall (λ b, 0 ≤ b < 256) (bytes_of_string s).
Proof.
  apply Forall_fmap, Forall_true. intros a. simpl.
  pose proof (Ascii.N_ascii_bounded a). lia.
Qed.

Lemma ascii_valid l : Forall (λ b, b < 128) l → validUTF8 l = true.
Proof.
  induction 1 as [|b l Hb _ IH]; [done|]. cbn [validUTF8]. by rewrite (proj2 (Z.ltb_lt b 0x80)).
Qed.

(** Trimming is idempotent: an id that a store trimmed on the way in is its own
    trimmed form on the way out. *)
Lemma TrimSpace_idemp s : TrimSpace (TrimSpace s) = TrimSpace s.
Proof.
  unfold TrimSpace. rewrite bytes_of_string_of_bytes; [by rewrite trim_idemp|].
  destruct (trim_right_take (trim_left (bytes_of_string s))) as [n ->].
  unfold trim_left. destruct (drop_spaces_suffix space_prefix
    (length (bytes_of_string s)) (bytes_of_string s)) as [m ->].
  apply Forall_take, Forall_drop, bytes_of_string_range.
Qed.

(** ** Counting in finite maps

    [map_count P m] is the number of entries of [m] that satisfy [P]: what the
    O(1) counters of the stores are kept equal to. *)

Section map_count.
Context {K A : Type} `{Countable K}.
Implicit Types (P : K → A → bool) (m : gmap K A).

Definition map_count P m : nat := size (filter (λ kv, P kv.1 kv.2 = true) m).

Lemma map_count_empty P : map_count P ∅ = 0%nat.
Proof. unfold map_count. by rewrite map_filter_empty, map_size_empty. Qed.

Lemma map_count_insert P m k v :
  m !! k = None →
  map_count P (<[k:=v]> m) = ((if P k v then 1 else 0) + map_count P m)%nat.
Proof.
  intros Hk. unfold map_count. destruct (P k v) eqn:HP.
  - rewrite map_filter_insert_True by done.
    rewrite map_size_insert_None; [done|]. apply map_lookup_filter_None. by left.
  - rewrite map_filter_insert_False by (simpl; by rewrite HP).
    rewrite delete_id by done. done.
Qed.

Lemma map_count_delete P m k v :
  m !! k = Some v →
  map_count P m = ((if P k v then 1 else 0) + map_count P (delete k m))%nat.
Proof.
  intros Hk. rewrite <-(insert_id m k v Hk) at 1. rewrite <-insert_delete_eq.
  apply map_count_insert. by rewrite lookup_delete_eq.
Qed.

Lemma map_count_pos P m k v : m !! k = Some v → P k v = true → (0 < map_count P m)%nat.
Proof. intros Hk HP. rewrite (map_count_delete P m k v Hk), HP. lia. Qed.

Lemma map_count_pos_inv P m :
  (0 < map_count P m)%nat → ∃ k v, m !! k = Some v ∧ P k v = true.
Proof.
  intros Hpos. unfold map_count in Hpos.
  destruct (map_choose (filter (λ kv, P kv.1 kv.2 = true) m)) as (k & v & Hkv).
  { intros He. rewrite He, map_size_empty in Hpos. lia. }
  apply map_lookup_filter_Some in Hkv as [? ?]. eauto.
Qed.

Lemma map_count_none P m :
  (∀ k v, m !! k = Some v → P k v = false) → map_count P m = 0%nat.
Proof.
  intros HP. apply Nat.le_0_r, Nat.nlt_ge. intros (k & v & Hk & Hv)%map_count_pos_inv.
  rewrite (HP k v Hk) in Hv. done.
Qed.

Lemma map_count_le P Q m :
  (∀ k v, m !! k = Some v → P k v = true → Q k v = true) →
  (map_count P m ≤ map_count Q m)%nat.
Proof.
  intros HPQ. apply map_subseteq_size, map_subseteq_spec. intros k v.
  rewrite !map_lookup_filter_Some. intros [Hk HP]. eauto.
Qed.

Lemma map_count_ext P Q m :
  (∀ k v, m !! k = Some v → P k v = Q k v) → map_count P m = map_count Q m.
Proof.
  intros HPQ. apply Nat.le_antisymm; apply map_count_le; intros k v Hk;
    rewrite (HPQ k v Hk); done.
Qed.

Lemma map_count_split P Q R m :
  (∀ k v, m !! k = Some v → P k v = Q k v || R k v ∧ Q k v && R k v = false) →
  map_count P m = (map_count Q m + map_count R m)%nat.
Proof.
  induction m as [|k v m Hk IH] using map_ind; intros HPQ.
  { by rewrite !map_count_empty. }
  rewrite !map_count_insert by done. rewrite IH.
  2:{ intros j w Hj. apply HPQ. rewrite lookup_insert_ne; [done | congruence]. }
  destruct (HPQ k v) as [-> Hd]; [apply lookup_insert_eq|].
  destruct (Q k v), (R k v); simpl in *; try done; lia.
Qed.

Lemma map_count_size P m : (map_count P m ≤ size m)%nat.
Proof. apply map_subseteq_size, map_filter_subseteq. Qed.
End map_count.

(** ** Keeping the entries of a map that satisfy a test

    What a loop that deletes entries of a map leaves of it. *)

Section keep.
Context {K A : Type} `{Countable K}.
Implicit Types (f g : K → A → bool) (m : gmap K A).

Definition keep f m : gmap K A := map_imap (λ k v, if f k v then Some v else None) m.

Lemma keep_lookup f m k :
  keep f m !! k = match m !! k with
                  | Some v => if f k v then Some v else None
                  | None => None
                  end.
Proof. unfold keep. rewrite map_lookup_imap. by destruct (m !! k). Qed.

Lemma keep_Some f m k v : keep f m !! k = Some v ↔ m !! k = Some v ∧ f k v = true.
Proof.
  rewrite keep_lookup. destruct (m !! k) as [w|]; [|by split; [|intros []]].
  destruct (f k w) eqn:Hf; split; [intros [= ->] | intros [[= ->] ?] | | intros [[= ->] ?]];
    congruence || done.
Qed.

Lemma keep_subseteq f m : keep f m ⊆ m.
Proof. apply map_subseteq_spec. intros k v [? _]%keep_Some. done. Qed.

Lemma keep_ext f g m :
  (∀ k v, m !! k = Some v → f k v = g k v) → keep f m = keep g m.
Proof.
  intros Hfg. apply map_eq. intros k. rewrite !keep_lookup.
  destruct (m !! k) eqn:Hk; [by rewrite (Hfg _ _ Hk) | done].
Qed.

Lemma keep_all f m : (∀ k v, m !! k = Some v → f k v = true) → keep f m = m.
Proof.
  intros Hf. apply map_eq. intros k. rewrite keep_lookup.
  destruct (m !! k) eqn:Hk; [by rewrite (Hf _ _ Hk) | done].
Qed.

Lemma keep_keep f g m : keep f (keep g m) = keep (λ k v, g k v && f k v) m.
Proof.
  apply map_eq. intros k. rewrite !keep_lookup. destruct (m !! k); [|done].
  by destruct (g k a).
Qed.

Lemma keep_delete m k : delete k m = keep (λ j _, negb (bool_decide (j = k))) m.
Proof.
  apply map_eq. intros j. rewrite keep_lookup. case_bool_decide as Hjk.
  - subst. rewrite lookup_delete_eq. by case_match.
  - rewrite lookup_delete_ne by done. by case_match.
Qed.

(** A part of a map is what is kept of it by a test that holds on its keys alone. *)
Lemma keep_part f m m' :
  m' ⊆ m → (∀ k v, m !! k = Some v → f k v = true ↔ is_Some (m' !! k)) → m' = keep f m.
Proof.
  intros Hsub Hf. apply map_eq. intros k. rewrite keep_lookup.
  destruct (m !! k) as [v|] eqn:Hk.
  - specialize (Hf k v Hk). destruct (m' !! k) as [w|] eqn:Hw.
    + rewrite (lookup_weaken _ _ _ _ Hw Hsub) in Hk. simplify_eq.
      destruct (f k v); [done|]. destruct Hf as [_ Hf]. by discriminate Hf.
    + destruct (f k v); [|done]. destruct Hf as [Hf _]. destruct (Hf eq_refl). done.
  - by apply (lookup_weaken_None _ m).
Qed.

Lemma keep_count f g m : map_count g (keep f m) = map_count (λ k v, f k v && g k v) m.
Proof.
  unfold map_count. f_equal. apply map_eq. intros k.
  apply option_eq. intros v. rewrite !map_lookup_filter_Some, keep_Some, andb_true_iff. simpl.
  tauto.
Qed.

Lemma keep_size f m : size (keep f m) = map_count f m.
Proof.
  unfold map_count. f_equal. apply map_eq. intros k. rewrite keep_lookup.
  destruct (m !! k) as [v|] eqn:Hk.
  - destruct (f k v) eqn:Hf; symmetry.
    + by apply map_lookup_filter_Some.
    + apply map_lookup_filter_None. right. intros w Hw. simplify_eq. simpl. congruence.
  - symmetry. apply map_lookup_filter_None. by left.
Qed.
End keep.

Lemma keep_to_list_perm {K A} `{Countable K} (f : K → A → bool) (m : gmap K A) :
  filter (λ kv, f kv.1 kv.2 = true) (map_to_list m) ≡ₚ map_to_list (keep f m).
Proof.
  apply NoDup_Permutation.
  - apply NoDup_filter, NoDup_map_to_list.
  - apply NoDup_map_to_list.
  - intros [k v]. rewrite list_elem_of_filter, !elem_of_map_to_list, keep_Some. simpl. naive_solver.
Qed.

(** A Go counter map holds the positive counts only: [tallies cnt f] says it holds
    [f k] for every key with [0 < f k] and no other key. *)
Definition pos_count (n : nat) : option Z :=
  match n with O => None | S _ => Some (Z.of_nat n) end.

Definition tallies {K} `{Countable K} (cnt : gmap K Z) (f : K → nat) : Prop :=
  ∀ k, cnt !! k = pos_count (f k).

Lemma pos_count_get n : default 0 (pos_count n) = Z.of_nat n.
Proof. by destruct n. Qed.

Section tallies.
Context {K : Type} `{Countable K}.
Implicit Types (cnt : gmap K Z) (f g : K → nat).

Lemma tallies_get cnt f k : tallies cnt f → counter_get cnt k = Z.of_nat (f k).
Proof. intros Hf. unfold counter_get. by rewrite (Hf k), pos_count_get. Qed.

Lemma tallies_ext cnt f g : (∀ k, f k = g k) → tallies cnt f → tallies cnt g.
Proof. intros Hfg Hf k. by rewrite <-Hfg. Qed.

Lemma tallies_inc cnt f k :
  tallies cnt f →
  tallies (counter_inc cnt k) (λ j, (if decide (j = k) then 1 else 0) + f j)%nat.
Proof.
  intros Hf j. unfold counter_inc. rewrite (tallies_get _ _ _ Hf).
  destruct (decide (j = k)) as [->|Hne].
  - rewrite lookup_insert_eq. simpl. f_equal. lia.
  - rewrite lookup_insert_ne by done. apply Hf.
Qed.

Lemma tallies_dec cnt f g k :
  tallies cnt f →
  (∀ j, f j = (if decide (j = k) then 1 else 0) + g j)%nat →
  tallies (counter_dec cnt k) g.
Proof.
  intros Hf Hfg j. unfold counter_dec. rewrite (tallies_get _ _ _ Hf).
  pose proof (Hfg k) as Hk. rewrite decide_True in Hk by done.
  pose proof (Hfg j) as Hj.
  destruct (decide (j = k)) as [->|Hne].
  - case_match eqn:Hle; rewrite ?lookup_delete_eq, ?lookup_insert_eq.
    + apply Z.leb_le in Hle. assert (g k = 0%nat) as -> by lia. done.
    + apply Z.leb_gt in Hle. destruct (g k); simpl; [lia | f_equal; lia].
  - case_match; rewrite ?lookup_delete_ne, ?lookup_insert_ne by done;
      rewrite (Hf j), Hj; done.
Qed.
End tallies.

(** ** Folds

    A loop of the source over a slice or a map is a left fold with the state as
    accumulator. *)

Lemma foldl_inv {A B} (Q : A → Prop) (f : A → B → A) l a :
  Q a → (∀ a b, b ∈ l → Q a → Q (f a b)) → Q (foldl f a l).
Proof.
  revert a. induction l as [|b l IH]; intros a Ha Hstep; simpl; [done|].
  apply IH; [apply Hstep; [left|done]|].
  intros a' b' Hb'. apply Hstep. by right.
Qed.

(** A loop that acts on the entries that fail a test acts on their keys. *)
Lemma foldl_filter_fst {K A S} (test : A → bool) (act : S → K → S) (l : list (K * A)) s :
  foldl (λ s '(k, v), if test v then act s k else s) s l =
  foldl act s (filter (λ kv, test kv.2 = true) l).*1.
Proof.
  revert s. induction l as [|[k v] l IH]; intros s; simpl; [done|].
  rewrite filter_cons. simpl. destruct (test v); [rewrite decide_True by done | rewrite decide_False by done];
    apply IH.
Qed.

Lemma range_lookup `{!GoRuntime} {K A} `{Countable K} (m : gmap K A) k v :
  (k, v) ∈ range m ↔ m !! k = Some v.
Proof. rewrite range_perm. apply elem_of_map_to_list. Qed.

Lemma range_NoDup_fst `{!GoRuntime} {K A} `{Countable K} (m : gmap K A) :
  NoDup (range m).*1.
Proof. rewrite range_perm. apply NoDup_fst_map_to_list. Qed.

(** The keys a [range] finds failing a test are the keys of the entries that fail it. *)
Lemma range_failing `{!GoRuntime} {K A} `{Countable K} (test : A → bool) (m : gmap K A) i v :
  m !! i = Some v →
  negb (bool_decide (i ∈ (filter (λ kv, negb (test kv.2) = true) (range m)).*1)) = test v.
Proof.
  intros Hi. destruct (test v) eqn:Ht.
  - rewrite negb_true_iff, bool_decide_eq_false, list_elem_of_fmap.
    intros ([j w] & -> & [Hw Hj]%list_elem_of_filter). apply range_lookup in Hj.
    simpl in *. rewrite Hj in Hi. simplify_eq. by rewrite Ht in Hw.
  - rewrite negb_false_iff, bool_decide_eq_true, list_elem_of_fmap.
    exists (i, v). split; [done|]. apply list_elem_of_filter. simpl. rewrite Ht.
    split; [done|]. by apply range_lookup.
Qed.

Lemma foldl_delete {K A} `{Countable K} (ks : list K) (m : gmap K A) :
  foldl (λ m k, delete k m) m ks = keep (λ i _, negb (bool_decide (i ∈ ks))) m.
Proof.
  revert m. induction ks as [|k ks IH]; intros m; simpl.
  { rewrite keep_all; [done|]. intros i v _. done. }
  rewrite IH, keep_delete, keep_keep. apply keep_ext. intros i v _.
  rewrite <-negb_orb, <-bool_decide_or. f_equal. apply bool_decide_ext. set_solver.
Qed.

(** The sweep loop of every store: delete, while ranging over a map, the entries that
    are gone. *)
Lemma foldl_sweep `{!GoRuntime} {K A} `{Countable K} (gone : A → bool) (m : gmap K A) :
  foldl (λ m '(k, v), if gone v then delete k m else m) m (range m) =
  keep (λ _ v, negb (gone v)) m.
Proof.
  rewrite (foldl_filter_fst gone (λ m k, delete k m)), foldl_delete.
  apply keep_ext. intros i v Hi.
  rewrite <-(range_failing (λ v, negb (gone v)) m i v Hi). f_equal.
  apply bool_decide_ext. rewrite !list_elem_of_fmap.
  setoid_rewrite list_elem_of_filter. by setoid_rewrite negb_involutive.
Qed.

(** A loop that, while ranging over a map, replaces or deletes each entry by what a
    function of the entry says. *)
Definition rewrite_entry {K A} `{Countable K} (f : K → A → option A) (m : gmap K A) (kv : K * A)
  : gmap K A :=
  match f kv.1 kv.2 with Some w => <[kv.1 := w]> m | None => delete kv.1 m end.

Lemma foldl_rewrite_lookup {K A} `{Countable K} (f : K → A → option A) (l : list (K * A)) m i :
  NoDup l.*1 →
  foldl (rewrite_entry f) m l !! i =
  match (list_to_map l : gmap K A) !! i with Some v => f i v | None => m !! i end.
Proof.
  revert m. induction l as [|[k v] l IH]; intros m Hnd; simpl.
  { by rewrite lookup_empty. }
  apply NoDup_cons in Hnd as [Hk Hnd]. rewrite IH by done.
  destruct (decide (i = k)) as [->|Hne].
  - rewrite lookup_insert_eq. rewrite (not_elem_of_list_to_map_1 l k) by done.
    unfold rewrite_entry. simpl. destruct (f k v); [apply lookup_insert_eq | apply lookup_delete_eq].
  - rewrite lookup_insert_ne by done. case_match; [done|].
    unfold rewrite_entry. simpl. destruct (f k v); [by apply lookup_insert_ne | by apply lookup_delete_ne].
Qed.

Lemma foldl_rewrite `{!GoRuntime} {K A} `{Countable K} (f : K → A → option A) (m : gmap K A) :
  foldl (rewrite_entry f) m (range m) = map_imap f m.
Proof.
  apply map_eq. intros i. rewrite foldl_rewrite_lookup by apply range_NoDup_fst.
  rewrite (list_to_map_proper _ _ (range_NoDup_fst m) (range_perm m)), list_to_map_to_list.
  rewrite map_lookup_imap. by destruct (m !! i).
Qed.

(** ** Sums over lists *)

Definition zsum {A} (f : A → Z) (l : list A) : Z := foldr (λ x n, f x + n) 0 l.

Section zsum.
Context {A : Type}.
Implicit Types (f g : A → Z) (l : list A).

Lemma zsum_app f l l' : zsum f (l ++ l') = zsum f l + zsum f l'.
Proof. induction l as [|x l IH]; simpl; [done|]. rewrite IH. lia. Qed.

Lemma zsum_nonneg f l : (∀ x, 0 ≤ f x) → 0 ≤ zsum f l.
Proof. intros Hf. induction l as [|x l IH]; simpl; [done|]. specialize (Hf x). lia. Qed.

Lemma zsum_bound f l b : Forall (λ x, f x ≤ b) l → zsum f l ≤ b * Z.of_nat (length l).
Proof. induction 1; simpl; lia. Qed.

Lemma zsum_ext f g l : (∀ x, x ∈ l → f x = g x) → zsum f l = zsum g l.
Proof.
  intros Hfg. induction l as [|x l IH]; simpl; [done|].
  rewrite Hfg by left. rewrite IH; [done|]. intros y Hy. apply Hfg. by right.
Qed.

Lemma zsum_zero f l : (∀ x, x ∈ l → f x = 0) → zsum f l = 0.
Proof.
  intros Hf. induction l as [|x l IH]; simpl; [done|].
  rewrite Hf by left. rewrite IH; [done|]. intros y Hy. apply Hf. by right.
Qed.

Lemma zsum_add f g l : zsum (λ x, f x + g x) l = zsum f l + zsum g l.
Proof. induction l as [|x l IH]; simpl; [done|]. rewrite IH. lia. Qed.

(** One element alone contributes. *)
Lemma zsum_single f l x :
  NoDup l → x ∈ l → (∀ y, y ∈ l → y ≠ x → f y = 0) → zsum f l = f x.
Proof.
  intros Hnd. induction Hnd as [|y l Hy Hnd IH]; intros Hx Hf; [set_solver|]. simpl.
  apply elem_of_cons in Hx as [->|Hx].
  - rewrite zsum_zero; [lia|]. intros z Hz. apply Hf; [by right|]. by intros ->.
  - rewrite Hf, IH; [done|done| |by left|by intros ->].
    intros z Hz. apply Hf. by right.
Qed.

(** A loop that adds up the elements that pass a test. *)
Lemma foldl_zsum (test : A → bool) f l n :
  foldl (λ sum x, if test x then sum + f x else sum) n l =
  n + zsum (λ x, if test x then f x else 0) l.
Proof.
  revert n. induction l as [|x l IH]; intros n; simpl; [lia|]. rewrite IH. destruct (test x); lia.
Qed.
End zsum.

Lemma zsum_swap {A B} (g : A → B → Z) (ks : list A) (es : list B) :
  zsum (λ k, zsum (g k) es) ks = zsum (λ e, zsum (λ k, g k e) ks) es.
Proof.
  induction ks as [|k ks IH]; simpl.
  - symmetry. by apply zsum_zero.
  - rewrite IH. symmetry. apply zsum_add.
Qed.

(** ** Tactics *)

(** Split every guard of a translated function: booleans first turned into the
    comparisons they stand for. *)
Ltac guards :=
  repeat match goal with
  | H : context [if ?b then _ else _] |- _ => destruct b eqn:?
  | |- context [if ?b then _ else _] => destruct b eqn:?
  end.

Ltac reflect_bools :=
  repeat match goal with
  | H : _ || _ = false |- _ => apply orb_false_elim in H as [? ?]
  | H : _ && _ = true |- _ => apply andb_true_iff in H as [? ?]
  | H : negb _ = true |- _ => apply negb_true_iff in H
  | H : negb _ = false |- _ => apply negb_false_iff in H
  | H : is_empty _ = _ |- _ => unfold is_empty in H
  | H : bool_decide _ = true |- _ => apply bool_decide_eq_true in H
  | H : bool_decide _ = false |- _ => apply bool_decide_eq_false in H
  | H : After _ _ = _ |- _ => unfold After in H
  | H : Before _ _ = _ |- _ => unfold Before in H
  | H : IsZero _ = _ |- _ => unfold IsZero in H
  | H : (_ <? _) = true |- _ => apply Z.ltb_lt in H
  | H : (_ <? _) = false |- _ => apply Z.ltb_ge in H
  | H : (_ <=? _) = true |- _ => apply Z.leb_le in H
  | H : (_ <=? _) = false |- _ => apply Z.leb_gt in H
  | H : (_ =? _) = true |- _ => apply Z.eqb_eq in H
  | H : (_ =? _) = false |- _ => apply Z.eqb_neq in H
  end.

#[export] Hint Rewrite @map_count_empty @map_size_empty : relay.
