(* ===== verification/Crypto.v ===== *)
(** * The standard-library encodings the relay uses

    [crypto/sha256.Sum256] and [base64.RawURLEncoding]'s [EncodeToString] and
    [DecodeString], executable on lists of byte values. The queue tag of [internal/queue/capability.go] is the one
    composed with the other. *)

From S2P Require Import Prelude.

Open Scope Z_scope.

Module Sha256.
Definition word (z : Z) : Z := z mod 2 ^ 32.
Definition rotr (n x : Z) : Z :=
  Z.lor (Z.shiftr x n) (word (Z.shiftl x (32 - n))).
Definition lnot32 (x : Z) : Z := Z.lxor x (2 ^ 32 - 1).

(** The constants of FIPS 180-4, by their derivation: the first 32 bits of the fractional
    parts of the cube roots of the first 64 primes, and of the square roots of the first
    eight. *)
Definition primes (bound : Z) : list Z :=
  filter (λ p, forallb (λ d, negb (p mod d =? 0)) (seqZ 2 (Z.max 0 (p - 2))) = true)
    (seqZ 2 (bound - 2)).

(** The integer cube root below [2 ^ n], bit by bit from the highest. *)
Fixpoint cubeRoot (n : nat) (root x : Z) : Z :=
  match n with
  | O => root
  | S n => let next := root + 2 ^ Z.of_nat n in
           cubeRoot n (if next * next * next <=? x then next else root) x
  end.

Definition K : list Z :=
  Eval vm_compute in map (λ p, word (cubeRoot 36 0 (p * 2 ^ 96))) (primes 312).

Definition H0 : list Z :=
  Eval vm_compute in map (λ p, word (Z.sqrt (p * 2 ^ 64))) (primes 20).

(** The message schedule, newest word first. *)
Fixpoint schedule (n : nat) (w : list Z) : list Z :=
  match n with
  | O => w
  | S n =>
      let w2 := nth 1 w 0 in let w7 := nth 6 w 0 in
      let w15 := nth 14 w 0 in let w16 := nth 15 w 0 in
      let s0 := Z.lxor (Z.lxor (rotr 7 w15) (rotr 18 w15)) (Z.shiftr w15 3) in
      let s1 := Z.lxor (Z.lxor (rotr 17 w2) (rotr 19 w2)) (Z.shiftr w2 10) in
      schedule n (word (w16 + s0 + w7 + s1) :: w)
  end.

Definition round (st : list Z) (kw : Z * Z) : list Z :=
  match st with
  | [a; b; c; d; e; f; g; h] =>
      let s1 := Z.lxor (Z.lxor (rotr 6 e) (rotr 11 e)) (rotr 25 e) in
      let ch := Z.lxor (Z.land e f) (Z.land (lnot32 e) g) in
      let t1 := h + s1 + ch + kw.1 + kw.2 in
      let s0 := Z.lxor (Z.lxor (rotr 2 a) (rotr 13 a)) (rotr 22 a) in
      let maj := Z.lxor (Z.lxor (Z.land a b) (Z.land a c)) (Z.land b c) in
      [word (t1 + s0 + maj); a; b; c; word (d + t1); e; f; g]
  | _ => st
  end.

Definition compress (st : list Z) (block : list Z) : list Z :=
  let w := reverse (schedule 48 (reverse block)) in
  zip_with (λ x y, word (x + y)) st (foldl round st (zip K w)).

(** Big-endian 32-bit words, sixteen to a block. *)
Fixpoint words (l : list Z) : list Z :=
  match l with
  | a :: b :: c :: d :: l' => (a * 2 ^ 24 + b * 2 ^ 16 + c * 2 ^ 8 + d) :: words l'
  | _ => []
  end.

Fixpoint blocks (fuel : nat) (st : list Z) (w : list Z) : list Z :=
  match fuel with
  | O => st
  | S fuel => match w with [] => st | _ => blocks fuel (compress st (take 16 w)) (drop 16 w) end
  end.

Definition bytes_of_word (n : nat) (x : Z) : list Z :=
  (λ i, Z.shiftr x (8 * Z.of_nat i) mod 256) <$> reverse (seq 0 n).

(** The message, a one bit, zeros up to 56 modulo 64 bytes, the bit length. *)
Definition pad (l : list Z) : list Z :=
  let n := Z.of_nat (length l) in
  l ++ [0x80] ++ replicate (Z.to_nat ((55 - n) mod 64)) 0
    ++ bytes_of_word 8 (n * 8).

Definition Sum256 (l : list Z) : list Z :=
  let w := words (pad l) in
  mjoin (bytes_of_word 4 <$> blocks (length w) H0 w).
End Sha256.

Module Base64.
Definition urlAlphabet : string :=
  "ABCDEFGHIJKLMNOPQRSTUVWXYZabcdefghijklmnopqrstuvwxyz0123456789-_".

Definition digit (z : Z) : Z :=
  nth (Z.to_nat z) (bytes_of_string urlAlphabet) 0.

(** Three bytes are four digits; a last group of one or two bytes gives two or
    three digits and, in the raw variant, no padding. *)
Fixpoint encode (l : list Z) : list Z :=
  match l with
  | a :: b :: c :: l' =>
      digit (a / 4) :: digit (a mod 4 * 16 + b / 16)
        :: digit (b mod 16 * 4 + c / 64) :: digit (c mod 64) :: encode l'
  | [a; b] => [digit (a / 4); digit (a mod 4 * 16 + b / 16); digit (b mod 16 * 4)]
  | [a] => [digit (a / 4); digit (a mod 4 * 16)]
  | [] => []
  end.

Definition RawURLEncodeToString (l : list Z) : string := string_of_bytes (encode l).

(** The digit a byte stands for. *)
Definition value (b : Z) : option Z :=
  if (65 <=? b) && (b <=? 90) then Some (b - 65) else
  if (97 <=? b) && (b <=? 122) then Some (b - 71) else
  if (48 <=? b) && (b <=? 57) then Some (b + 4) else
  if b =? 45 then Some 62 else if b =? 95 then Some 63 else None.

(** Four digits are three bytes; a last group of two or three digits gives one or two
    bytes, its unused low bits ignored, and a last group of one digit is an error. *)
Fixpoint decode (l : list Z) : option (list Z) :=
  match l with
  | a :: b :: c :: d :: l' =>
      (λ r, (a * 4 + b / 16) :: (b mod 16 * 16 + c / 4) :: (c mod 4 * 64 + d) :: r) <$> decode l'
  | [a; b; c] => Some [a * 4 + b / 16; b mod 16 * 16 + c / 4]
  | [a; b] => Some [a * 4 + b / 16]
  | [_] => None
  | [] => Some []
  end.

(** Line breaks are skipped wherever they are; any other byte outside the alphabet,
    padding included, is an error. *)
Definition RawURLDecodeString (s : string) : option (list Z) :=
  digits ← mapM value (filter (λ b, b ≠ 10 ∧ b ≠ 13) (bytes_of_string s)); decode digits.
End Base64.

(** The digest of "abc" is the one FIPS 180-4 gives, and a digest of a message of
    two blocks is the one of the same appendix. *)
Example sum256_abc :
  Sha256.words (Sha256.Sum256 (bytes_of_string "abc")) =
  [0xba7816bf; 0x8f01cfea; 0x414140de; 0x5dae2223; 0xb00361a3; 0x96177a9c; 0xb410ff61; 0xf20015ad].
Proof. vm_compute. reflexivity. Qed.

Example sum256_two_blocks :
  Sha256.words (Sha256.Sum256 (bytes_of_string
    "abcdbcdecdefdefgefghfghighijhijkijkljklmklmnlmnomnopnopq")) =
  [0x248d6a61; 0xd20638b8; 0xe5c02693; 0x0c3e6039; 0xa33ce459; 0x64ff2167; 0xf6ecedd4; 0x19db06c1].
Proof. vm_compute. reflexivity. Qed.

Example encode_raw_url :
  Base64.RawURLEncodeToString [0xfb; 0xff; 0xbf; 0x00] = "-_-_AA"%string.
Proof. vm_compute. reflexivity. Qed.

Example decode_raw_url :
  Base64.RawURLDecodeString "-_-_AA" = Some [0xfb; 0xff; 0xbf; 0x00].
Proof. vm_compute. reflexivity. Qed.

(** A digest is never empty, so neither is its encoding. *)
Lemma foldl_round_length kws st :
  length st = 8%nat → length (foldl Sha256.round st kws) = 8%nat.
Proof.
  intros Hst. apply foldl_inv; [done|]. intros st' [k w] _ Hst'.
  do 9 (destruct st' as [|? st']; try done).
Qed.

Lemma blocks_length fuel st w :
  length st = 8%nat → length (Sha256.blocks fuel st w) = 8%nat.
Proof.
  revert st w. induction fuel as [|fuel IH]; intros st w Hst; simpl; [done|].
  destruct w; [done|]. apply IH. unfold Sha256.compress.
  rewrite length_zip_with, foldl_round_length by done. lia.
Qed.

Lemma Sum256_length l : length (Sha256.Sum256 l) = 32%nat.
Proof.
  unfold Sha256.Sum256.
  pose proof (blocks_length (length (Sha256.words (Sha256.pad l))) Sha256.H0
    (Sha256.words (Sha256.pad l)) eq_refl) as Hb.
  destruct (Sha256.blocks _ _ _) as [|a [|b [|c [|d [|e [|f [|g [|h [|]]]]]]]]];
    try done.
Qed.

Lemma RawURLEncodeToString_nonempty a l : Base64.RawURLEncodeToString (a :: l) ≠ ""%string.
Proof. destruct l as [|b [|c l]]; done. Qed.

(** ** Encoding and decoding *)

Lemma digits_checked :
  forallb (λ z, bool_decide (Base64.value (Base64.digit z) = Some z) && (13 <? Base64.digit z)
                && (Base64.digit z <? 256)) (seqZ 0 64) = true.
Proof. vm_compute. reflexivity. Qed.

Lemma digit_value z : 0 ≤ z < 64 →
  Base64.value (Base64.digit z) = Some z ∧ 13 < Base64.digit z < 256.
Proof.
  intros Hz. pose proof digits_checked as H. rewrite forallb_forall in H.
  assert (In z (seqZ 0 64)) as Hin by (apply list_elem_of_In, elem_of_seqZ; lia). specialize (H z Hin).
  apply andb_true_iff in H as [[H1%bool_decide_eq_true H2]%andb_true_iff H3]. split; [done|lia].
Qed.

Lemma encode_digits l : Forall (λ b, 0 ≤ b < 256) l →
  ∃ vs, Forall (λ z, 0 ≤ z < 64) vs ∧ Base64.encode l = Base64.digit <$> vs ∧ Base64.decode vs = Some l.
Proof.
  revert l. fix IH 1. intros [|a [|b [|c l]]] Hl; rewrite ?Forall_cons in Hl.
  - by exists [].
  - exists [a / 4; a mod 4 * 16]. destruct Hl as [Ha _]. split; [|split; [done|]].
    + rewrite !Forall_cons. split_and!; [Z.to_euclidean_division_equations; lia..|done].
    + cbn [Base64.decode]. do 2 f_equal. Z.to_euclidean_division_equations; lia.
  - exists [a / 4; a mod 4 * 16 + b / 16; b mod 16 * 4]. destruct Hl as (Ha & Hb & _).
    split; [|split; [done|]].
    + rewrite !Forall_cons. split_and!; [Z.to_euclidean_division_equations; lia..|done].
    + cbn [Base64.decode]. do 2 f_equal; [|f_equal]; Z.to_euclidean_division_equations; lia.
  - destruct Hl as (Ha & Hb & Hc & Hl). destruct (IH l Hl) as (vs & Hvs & He & Hd).
    exists (a / 4 :: a mod 4 * 16 + b / 16 :: b mod 16 * 4 + c / 64 :: c mod 64 :: vs).
    split; [|split].
    + rewrite !Forall_cons. split_and!; [Z.to_euclidean_division_equations; lia..|done].
    + cbn [Base64.encode]. by rewrite He.
    + cbn [Base64.decode]. rewrite Hd. cbn. f_equal.
      f_equal; [|f_equal; [|f_equal]]; Z.to_euclidean_division_equations; lia.
Qed.

Lemma filter_all {A} (P : A → Prop) `{!∀ x, Decision (P x)} l : Forall P l → filter P l = l.
Proof. induction 1; [done|]. rewrite filter_cons_True by done. by f_equal. Qed.

(** What is encoded is decoded as it was. *)
Lemma RawURLDecode_encode l : Forall (λ b, 0 ≤ b < 256) l →
  Base64.RawURLDecodeString (Base64.RawURLEncodeToString l) = Some l.
Proof.
  intros (vs & Hvs & He & Hd)%encode_digits.
  unfold Base64.RawURLDecodeString, Base64.RawURLEncodeToString. rewrite He.
  assert (Forall (λ b, 13 < b < 256) (Base64.digit <$> vs)) as Hb.
  { apply Forall_fmap. eapply Forall_impl; [exact Hvs|]. intros z Hz. apply (digit_value z Hz). }
  rewrite bytes_of_string_of_bytes by (eapply Forall_impl; [exact Hb|]; simpl; lia).
  rewrite filter_all by (eapply Forall_impl; [exact Hb|]; simpl; lia).
  rewrite (mapM_fmap_Forall_Some Base64.value Base64.digit); [by cbn|].
  eapply Forall_impl; [exact Hvs|]. intros z Hz. apply (digit_value z Hz).
Qed.

Lemma Sum256_bytes l : Forall (λ b, 0 ≤ b < 256) (Sha256.Sum256 l).
Proof.
  unfold Sha256.Sum256. apply Forall_forall. intros b Hb.
  apply list_elem_of_join in Hb as (w & Hb & (x & -> & _)%list_elem_of_fmap).
  unfold Sha256.bytes_of_word in Hb. apply list_elem_of_fmap in Hb as (i & -> & _).
  apply Z.mod_pos_bound. lia.
Qed.
