(* ===== verification/Model.v ===== *)
(** * Wire records ([internal/model/model.go])

    The structs the stores and the peers exchange, field for field. A field keeps its
    Go name behind a prefix for its struct, since two structs may share one. A setter
    [with_f x r] is the assignment [r.f = x] on a copy. *)

From S2P Require Import Prelude.

Open Scope Z_scope.

Record MessageEnvelope := mkMessageEnvelope {
  m_ID : string;
  m_Sender : string;
  m_Recipient : string;
  m_CreatedAt : Time;
  m_ExpiresAt : Time;
  m_EncryptedPayload : string;
  m_ContentType : string;
  m_KeyID : string;
  m_Signature : string;
  m_Metadata : gmap string string;
  m_RecipientTag : string;
  m_SenderTag : string;
}.

#[export] Instance MessageEnvelope_eq_dec : EqDecision MessageEnvelope.
Proof. solve_decision. Defined.

Definition with_m_CreatedAt (t : Time) (e : MessageEnvelope) : MessageEnvelope :=
  mkMessageEnvelope (m_ID e) (m_Sender e) (m_Recipient e) t (m_ExpiresAt e)
    (m_EncryptedPayload e) (m_ContentType e) (m_KeyID e) (m_Signature e) (m_Metadata e)
    (m_RecipientTag e) (m_SenderTag e).

Definition with_m_ExpiresAt (t : Time) (e : MessageEnvelope) : MessageEnvelope :=
  mkMessageEnvelope (m_ID e) (m_Sender e) (m_Recipient e) (m_CreatedAt e) t
    (m_EncryptedPayload e) (m_ContentType e) (m_KeyID e) (m_Signature e) (m_Metadata e)
    (m_RecipientTag e) (m_SenderTag e).

(** [envelope.Metadata["purgeHash"]]: a missing key reads as the empty string. *)
Definition purgeHashOf (e : MessageEnvelope) : string :=
  default ""%string (m_Metadata e !! "purgeHash"%string).

(** [AckType] is a string type; the constants are the values the relay knows. *)
Abbreviation AckType := string (only parsing).
Definition AckNodeReceived : AckType := "node_received_ack".
Definition AckRecipientDeviceReceived : AckType := "recipient_device_received_ack".
Definition AckRecipientRead : AckType := "recipient_read_ack".
Definition AckExpired : AckType := "expired_ack".
Definition AckRejected : AckType := "rejected_ack".
Definition AckRetractionApplied : AckType := "retraction_applied_ack".

Record AckRecord := mkAckRecord {
  a_ID : string;
  a_MessageID : string;
  a_Sender : string;
  a_Recipient : string;
  a_Type : AckType;
  a_CreatedAt : Time;
  a_ExpiresAt : Time;
  a_NodeID : string;
  a_Signature : string;
  a_SenderTag : string;
  a_RecipientTag : string;
  a_Reason : string;
}.

#[export] Instance AckRecord_eq_dec : EqDecision AckRecord.
Proof. solve_decision. Defined.

(** [model.AckRecord{}]. *)
Definition zeroAckRecord : AckRecord :=
  mkAckRecord "" "" "" "" "" 0 0 "" "" "" "" "".

Definition with_a_CreatedAt (t : Time) (a : AckRecord) : AckRecord :=
  mkAckRecord (a_ID a) (a_MessageID a) (a_Sender a) (a_Recipient a) (a_Type a) t
    (a_ExpiresAt a) (a_NodeID a) (a_Signature a) (a_SenderTag a) (a_RecipientTag a)
    (a_Reason a).

Definition with_a_ExpiresAt (t : Time) (a : AckRecord) : AckRecord :=
  mkAckRecord (a_ID a) (a_MessageID a) (a_Sender a) (a_Recipient a) (a_Type a)
    (a_CreatedAt a) t (a_NodeID a) (a_Signature a) (a_SenderTag a) (a_RecipientTag a)
    (a_Reason a).

Definition with_a_NodeID (n : string) (a : AckRecord) : AckRecord :=
  mkAckRecord (a_ID a) (a_MessageID a) (a_Sender a) (a_Recipient a) (a_Type a)
    (a_CreatedAt a) (a_ExpiresAt a) n (a_Signature a) (a_SenderTag a) (a_RecipientTag a)
    (a_Reason a).

Definition with_a_RecipientTag (t : string) (a : AckRecord) : AckRecord :=
  mkAckRecord (a_ID a) (a_MessageID a) (a_Sender a) (a_Recipient a) (a_Type a)
    (a_CreatedAt a) (a_ExpiresAt a) (a_NodeID a) (a_Signature a) (a_SenderTag a) t
    (a_Reason a).

Record PurgeRecord := mkPurgeRecord { p_PurgeHash : string; p_ExpiresAt : Time }.

Record PresenceHeartbeat := mkPresenceHeartbeat {
  h_OwnerHash : string;
  h_GrantHash : string;
  h_UpdatedAt : Time;
  h_ExpiresAt : Time;
}.

Record PresenceStatus := mkPresenceStatus {
  s_GrantHash : string;
  s_Online : bool;
  s_LastSeen : Time;
}.

Record PresenceRevocation := mkPresenceRevocation {
  r_OwnerHash : string;
  r_UpdatedAt : Time;
  r_ExpiresAt : Time;
}.

(** One page of a peer's queue, with its paging cursor. *)
Record SyncPayload := mkSyncPayload {
  y_NodeID : string;
  y_Epoch : string;
  y_NextSeq : Z;
  y_More : bool;
  y_Messages : list MessageEnvelope;
  y_Acks : list AckRecord;
  y_Presence : list PresenceHeartbeat;
  y_PresenceRevocations : list PresenceRevocation;
  y_Purges : list PurgeRecord;
}.

Record PrekeyEntry := mkPrekeyEntry {
  k_OpkID : string;
  k_PublicKey : string;
  k_Signature : string;
  k_LastResort : bool;
}.

#[export] Instance PrekeyEntry_eq_dec : EqDecision PrekeyEntry.
Proof. solve_decision. Defined.

Record PrekeyPublish := mkPrekeyPublish {
  k_DeviceKey : string;
  k_Entries : list PrekeyEntry;
  k_LastResortEntry : option PrekeyEntry;
}.
