(* ===== verification/Capability.v ===== *)
(** * Queue-read authorization ([internal/queue/capability.go])

    The tag of a queue is the encoded digest of its secret behind a domain prefix; an
    [Auth] is what one request proved about itself. *)

From S2P Require Import Prelude Crypto.

Open Scope Z_scope.

Definition tagDomain : string := "deechat.queue-tag.v1|".
Definition maxCapabilities : nat := 4.

Definition TagForSecret (secret : string) : string :=
  if is_empty secret then ""%string else
  Base64.RawURLEncodeToString
    (Sha256.Sum256 (bytes_of_string tagDomain ++ bytes_of_string secret)).

Record Auth := mkAuth {
  tags : list string;
  allowUntagged : bool;
  trusted : bool;
}.

(** The zero [Auth], the one a forgotten parameter produces. *)
Definition zeroAuth : Auth := mkAuth [] false false.

Definition TrustedAuth : Auth := mkAuth [] true true.

(** The loop of [NewAuth]: blank secrets are skipped, and the loop stops when
    [maxCapabilities] tags have been collected. *)
Fixpoint newAuthTags (secrets tags : list string) : list string :=
  match secrets with
  | [] => tags
  | secret :: rest =>
      let secret := TrimSpace secret in
      if is_empty secret then newAuthTags rest tags else
      let tags := tags ++ [TagForSecret secret] in
      if bool_decide (length tags = maxCapabilities) then tags else newAuthTags rest tags
  end.

Definition NewAuth (secrets : list string) (allowUntagged : bool) : Auth :=
  mkAuth (newAuthTags secrets []) allowUntagged false.

Definition AuthorizesUntagged (a : Auth) : bool := allowUntagged a.

Definition Subject (a : Auth) : string :=
  match tags a with [] => ""%string | t :: _ => t end.

Definition permits (a : Auth) (tag : string) : bool :=
  if trusted a then true else
  if is_empty tag then allowUntagged a else
  existsb (λ candidate, bool_decide (candidate = tag)) (tags a).

(** ** Lemmas *)

Lemma TagForSecret_nonempty secret : secret ≠ ""%string → TagForSecret secret ≠ ""%string.
Proof.
  intros Hs. unfold TagForSecret, is_empty. rewrite bool_decide_eq_false_2 by done.
  pose proof (Sum256_length (bytes_of_string tagDomain ++ bytes_of_string secret)) as Hl.
  destruct (Sha256.Sum256 _) as [|b l]; [done|]. apply RawURLEncodeToString_nonempty.
Qed.

Lemma permits_tagged a tag :
  trusted a = false → tag ≠ ""%string → permits a tag = true ↔ tag ∈ tags a.
Proof.
  intros Ht Htag. unfold permits, is_empty. rewrite Ht, bool_decide_eq_false_2 by done.
  rewrite existsb_exists. setoid_rewrite <-list_elem_of_In.
  setoid_rewrite bool_decide_eq_true. split; [intros (? & ? & ->) | exists tag]; done.
Qed.

(** What the loop collects: the tags of the first four non-blank secrets. *)
Definition presentedTags (secrets : list string) : list string :=
  take maxCapabilities
    (TagForSecret <$> filter (λ s, s ≠ ""%string) (TrimSpace <$> secrets)).

Lemma newAuthTags_spec secrets acc :
  (length acc < maxCapabilities)%nat →
  newAuthTags secrets acc =
  acc ++ take (maxCapabilities - length acc)
    (TagForSecret <$> filter (λ s, s ≠ ""%string) (TrimSpace <$> secrets)).
Proof.
  revert acc. induction secrets as [|s secrets IH]; intros acc Hl; simpl.
  { by rewrite take_nil, app_nil_r. }
  rewrite filter_cons. destruct (is_empty (TrimSpace s)) eqn:He; reflect_bools.
  - rewrite decide_False by naive_solver. by apply IH.
  - rewrite decide_True by done. rewrite length_app. simpl.
    destruct (maxCapabilities - length acc)%nat as [|n] eqn:Hn; [lia|]. simpl.
    case_match; reflect_bools.
    + assert (n = 0%nat) as -> by lia. by rewrite take_0.
    + rewrite IH by (rewrite length_app; simpl; lia).
      rewrite length_app. simpl. rewrite <-app_assoc. simpl.
      by replace (maxCapabilities - (length acc + 1))%nat with n by lia.
Qed.

Lemma NewAuth_tags secrets untagged : tags (NewAuth secrets untagged) = presentedTags secrets.
Proof. simpl. rewrite newAuthTags_spec by (simpl; unfold maxCapabilities; lia). done. Qed.

Lemma NewAuth_tags_nonempty secrets untagged t :
  t ∈ tags (NewAuth secrets untagged) → t ≠ ""%string.
Proof.
  rewrite NewAuth_tags. unfold presentedTags.
  intros (i & Hi & _)%elem_of_take. apply list_elem_of_lookup_2 in Hi.
  apply list_elem_of_fmap in Hi as (s & -> & [? ?]%list_elem_of_filter).
  by apply TagForSecret_nonempty.
Qed.
