(* ===== verification/QueueStore.v ===== *)
(** * The message and ack queue ([internal/queue/store.go]): the code

    The store's state is one record: the three record maps and the bookkeeping maps the
    source keeps in lock-step with them. An operation takes the store and the time its
    [s.now().UTC()] returned, and gives back its results and the store it leaves; every
    operation of the source runs under one mutex, so it is one atomic step. *)

From S2P Require Import Prelude Model Capability.

Open Scope Z_scope.

Inductive QueueError :=
  | ErrDuplicate
  | ErrExpired
  | ErrQueueFull
  | ErrPairQuotaFull
  | ErrSlotsFull
  | ErrPayloadTooLarge
  | ErrInvalid
  | ErrNotOwned.

#[export] Instance QueueError_eq_dec : EqDecision QueueError.
Proof. solve_decision. Defined.

(** The credential's authority over one write; the zero value is an unattributed one. *)
Record Grant := mkGrant {
  g_Credential : Z;
  g_Slots : Z;
  g_MaxPerPair : Z;
  g_Retention : Duration;
}.

Definition zeroGrant : Grant := mkGrant 0 0 0 0.

Definition lowerOf (box credential : Z) : Z :=
  if (credential <=? 0) || (box <? credential) then box else credential.

Definition lowerOfDuration (box credential : Duration) : Duration :=
  if (credential <=? 0) || (box <? credential) then box else credential.

Record StoreConfig := mkStoreConfig {
  MaxMessages : Z;
  MaxAcks : Z;
  MaxPurges : Z;
  MaxPerPair : Z;
  MaxPayloadBytes : Z;
  MaxTTL : Duration;
  DefaultTTL : Duration;
}.

Record Stats := mkStats { st_Messages : Z; st_Acks : Z; st_Purges : Z }.

Record ImportResult := mkImportResult {
  AcceptedMessages : Z;
  DuplicateMessages : Z;
  AcceptedAcks : Z;
  DuplicateAcks : Z;
  Rejected : Z;
}.

(** One message id's write authorization: the tag records naming it are proved
    against, and how many live records name it. *)
Record tagBinding := mkTagBinding { b_tag : string; b_records : Z }.

(** [cfg] holds the seven caps as [NewStore] resolved them. A [map[string]struct{}] is a
    map to [()]. *)
Record Store := mkStore {
  cfg : StoreConfig;
  epoch : string;
  messages : gmap string MessageEnvelope;
  acks : gmap string AckRecord;
  purges : gmap string PurgeRecord;
  pairCounts : gmap string Z;
  credentialCounts : gmap Z Z;
  messageCredential : gmap string Z;
  storeSeq : Z;
  messageSeq : gmap string Z;
  ackSeq : gmap string Z;
  messageTags : gmap string tagBinding;
  messagesByPurge : gmap string (gmap string ());
  acksByMessage : gmap string (gmap string ());
}.

(** Assignments to one field of the store. *)
Definition with_messages m s := mkStore (cfg s) (epoch s) m (acks s) (purges s) (pairCounts s)
  (credentialCounts s) (messageCredential s) (storeSeq s) (messageSeq s) (ackSeq s)
  (messageTags s) (messagesByPurge s) (acksByMessage s).
Definition with_acks m s := mkStore (cfg s) (epoch s) (messages s) m (purges s) (pairCounts s)
  (credentialCounts s) (messageCredential s) (storeSeq s) (messageSeq s) (ackSeq s)
  (messageTags s) (messagesByPurge s) (acksByMessage s).
Definition with_purges m s := mkStore (cfg s) (epoch s) (messages s) (acks s) m (pairCounts s)
  (credentialCounts s) (messageCredential s) (storeSeq s) (messageSeq s) (ackSeq s)
  (messageTags s) (messagesByPurge s) (acksByMessage s).
Definition with_pairCounts m s := mkStore (cfg s) (epoch s) (messages s) (acks s) (purges s) m
  (credentialCounts s) (messageCredential s) (storeSeq s) (messageSeq s) (ackSeq s)
  (messageTags s) (messagesByPurge s) (acksByMessage s).
Definition with_credentialCounts m s := mkStore (cfg s) (epoch s) (messages s) (acks s) (purges s)
  (pairCounts s) m (messageCredential s) (storeSeq s) (messageSeq s) (ackSeq s)
  (messageTags s) (messagesByPurge s) (acksByMessage s).
Definition with_messageCredential m s := mkStore (cfg s) (epoch s) (messages s) (acks s) (purges s)
  (pairCounts s) (credentialCounts s) m (storeSeq s) (messageSeq s) (ackSeq s)
  (messageTags s) (messagesByPurge s) (acksByMessage s).
Definition with_storeSeq n s := mkStore (cfg s) (epoch s) (messages s) (acks s) (purges s)
  (pairCounts s) (credentialCounts s) (messageCredential s) n (messageSeq s) (ackSeq s)
  (messageTags s) (messagesByPurge s) (acksByMessage s).
Definition with_messageSeq m s := mkStore (cfg s) (epoch s) (messages s) (acks s) (purges s)
  (pairCounts s) (credentialCounts s) (messageCredential s) (storeSeq s) m (ackSeq s)
  (messageTags s) (messagesByPurge s) (acksByMessage s).
Definition with_ackSeq m s := mkStore (cfg s) (epoch s) (messages s) (acks s) (purges s)
  (pairCounts s) (credentialCounts s) (messageCredential s) (storeSeq s) (messageSeq s) m
  (messageTags s) (messagesByPurge s) (acksByMessage s).
Definition with_messageTags m s := mkStore (cfg s) (epoch s) (messages s) (acks s) (purges s)
  (pairCounts s) (credentialCounts s) (messageCredential s) (storeSeq s) (messageSeq s) (ackSeq s)
  m (messagesByPurge s) (acksByMessage s).
Definition with_messagesByPurge m s := mkStore (cfg s) (epoch s) (messages s) (acks s) (purges s)
  (pairCounts s) (credentialCounts s) (messageCredential s) (storeSeq s) (messageSeq s) (ackSeq s)
  (messageTags s) m (acksByMessage s).
Definition with_acksByMessage m s := mkStore (cfg s) (epoch s) (messages s) (acks s) (purges s)
  (pairCounts s) (credentialCounts s) (messageCredential s) (storeSeq s) (messageSeq s) (ackSeq s)
  (messageTags s) (messagesByPurge s) m.

(** [len(m)]. *)
Definition map_len {K A} `{Countable K} (m : gmap K A) : Z := Z.of_nat (size m).

(** ** Construction *)

(** The defaults of [NewStore]: an unset cap takes the package default, and an ack lane
    that leaves callers no budget is doubled from the message cap. *)
Definition resolveConfig (c : StoreConfig) : StoreConfig :=
  let maxMessages := if MaxMessages c <=? 0 then 1000 else MaxMessages c in
  let maxAcks := if MaxAcks c <=? maxMessages then wrap_int64 (2 * maxMessages) else MaxAcks c in
  let maxPurges := if MaxPurges c <=? 0 then 1000 else MaxPurges c in
  let maxPerPair := if MaxPerPair c <=? 0 then 10 else MaxPerPair c in
  let maxPayloadBytes := if MaxPayloadBytes c <=? 0 then 8192 else MaxPayloadBytes c in
  let maxTTL := if MaxTTL c <=? 0 then 72 * Hour else MaxTTL c in
  let defaultTTL := if DefaultTTL c <=? 0 then 24 * Hour else DefaultTTL c in
  mkStoreConfig maxMessages maxAcks maxPurges maxPerPair maxPayloadBytes maxTTL defaultTTL.

(** [newEpoch] is a random string: the caller's argument. *)
Definition NewStore (c : StoreConfig) (newEpoch : string) : Store :=
  mkStore (resolveConfig c) newEpoch ∅ ∅ ∅ ∅ ∅ ∅ 0 ∅ ∅ ∅ ∅ ∅.

Definition Epoch (s : Store) : string := epoch s.

(** ** Helpers *)

(** [pairKey] joins the lane's two ids with a NUL byte. *)
Definition pairKey (sender recipient : string) : string := sender +:+ NUL +:+ recipient.

Definition laneOf (e : MessageEnvelope) : string := pairKey (m_Sender e) (m_Recipient e).

Definition MaxAckReasonBytes : Z := 64.

Definition boundedAckReason (reason : string) : string :=
  let reason := TrimSpace reason in
  if MaxAckReasonBytes <? len reason then ""%string else reason.

Definition validAckType (t : AckType) : bool :=
  bool_decide (t = AckNodeReceived) || bool_decide (t = AckRecipientDeviceReceived)
  || bool_decide (t = AckRecipientRead) || bool_decide (t = AckExpired)
  || bool_decide (t = AckRejected) || bool_decide (t = AckRetractionApplied).

Definition deletesQueuedMessage (t : AckType) : bool :=
  bool_decide (t = AckRecipientDeviceReceived)
  || bool_decide (t = AckRecipientRead) || bool_decide (t = AckExpired)
  || bool_decide (t = AckRejected) || bool_decide (t = AckRetractionApplied).

Definition nodeReceivedAck (e : MessageEnvelope) (nodeID : string) (now : Time) : AckRecord :=
  mkAckRecord (m_ID e +:+ ":node_received") (m_ID e) (m_Sender e) (m_Recipient e)
    AckNodeReceived now (m_ExpiresAt e) nodeID "" (m_SenderTag e) (m_RecipientTag e) "".

Definition indexAddLocked (index : gmap string (gmap string ())) (key id : string)
  : gmap string (gmap string ()) :=
  if is_empty key || is_empty id then index else
  let ids := default ∅ (index !! key) in
  <[key := <[id := ()]> ids]> index.

Definition indexRemoveLocked (index : gmap string (gmap string ())) (key id : string)
  : gmap string (gmap string ()) :=
  match index !! key with
  | None => index
  | Some ids =>
      let ids := delete id ids in
      if map_len ids =? 0 then delete key index else <[key := ids]> index
  end.

(** The two tag-binding helpers, on the [messageTags] map. *)
Definition bindMessageTagLocked (tags : gmap string tagBinding) (messageID tag : string)
  : gmap string tagBinding :=
  if is_empty messageID then tags else
  let binding := default (mkTagBinding "" 0) (tags !! messageID) in
  let records := b_records binding + 1 in
  let tag := if is_empty (b_tag binding) then tag else b_tag binding in
  <[messageID := mkTagBinding tag records]> tags.

Definition releaseMessageTagLocked (tags : gmap string tagBinding) (messageID : string)
  : gmap string tagBinding :=
  match tags !! messageID with
  | None => tags
  | Some binding =>
      if b_records binding <=? 1 then delete messageID tags
      else <[messageID := mkTagBinding (b_tag binding) (b_records binding - 1)]> tags
  end.

Definition recipientTagForMessageLocked (s : Store) (messageID : string) : option string :=
  b_tag <$> messageTags s !! messageID.

(** ** The four writers of the record maps *)

Definition addMessageLocked (s : Store) (e : MessageEnvelope) (credential : Z) : Store :=
  let s := with_messages (<[m_ID e := e]> (messages s)) s in
  let s := with_pairCounts (counter_inc (pairCounts s) (laneOf e)) s in
  let s :=
    if negb (credential =? 0) then
      let s := with_credentialCounts (counter_inc (credentialCounts s) credential) s in
      with_messageCredential (<[m_ID e := credential]> (messageCredential s)) s
    else s in
  let s := with_storeSeq (wrap_uint64 (storeSeq s + 1)) s in
  let s := with_messageSeq (<[m_ID e := storeSeq s]> (messageSeq s)) s in
  let s := with_messageTags (bindMessageTagLocked (messageTags s) (m_ID e) (m_RecipientTag e)) s in
  with_messagesByPurge (indexAddLocked (messagesByPurge s) (purgeHashOf e) (m_ID e)) s.

Definition deleteMessageLocked (s : Store) (id : string) : Store :=
  match messages s !! id with
  | None => s
  | Some e =>
      let s := with_messages (delete id (messages s)) s in
      let s := with_messageSeq (delete id (messageSeq s)) s in
      let s := with_messageTags (releaseMessageTagLocked (messageTags s) id) s in
      let s := with_messagesByPurge (indexRemoveLocked (messagesByPurge s) (purgeHashOf e) id) s in
      let s := with_pairCounts (counter_dec (pairCounts s) (laneOf e)) s in
      match messageCredential s !! id with
      | None => s
      | Some credential =>
          let s := with_messageCredential (delete id (messageCredential s)) s in
          with_credentialCounts (counter_dec (credentialCounts s) credential) s
      end
  end.

(** The insertion at the end of [addAckWithinLocked]. *)
Definition insertAck (s : Store) (ack : AckRecord) : Store :=
  let s := with_acks (<[a_ID ack := ack]> (acks s)) s in
  let s := with_storeSeq (wrap_uint64 (storeSeq s + 1)) s in
  let s := with_ackSeq (<[a_ID ack := storeSeq s]> (ackSeq s)) s in
  let s := with_messageTags
             (bindMessageTagLocked (messageTags s) (a_MessageID ack) (a_RecipientTag ack)) s in
  with_acksByMessage (indexAddLocked (acksByMessage s) (a_MessageID ack) (a_ID ack)) s.

Definition addAckWithinLocked (s : Store) (ack : AckRecord) (now : Time) (capacity : Z)
  : option QueueError * Store :=
  match acks s !! a_ID ack with
  | Some _ => (Some ErrDuplicate, s)
  | None =>
      if capacity <=? map_len (acks s) then (Some ErrQueueFull, s) else
      let ack := if IsZero (a_ExpiresAt ack)
                 then with_a_ExpiresAt (Add now (DefaultTTL (cfg s))) ack else ack in
      if negb (After (a_ExpiresAt ack) now) then (Some ErrExpired, s) else
      (None, insertAck s ack)
  end.

Definition deleteAckLocked (s : Store) (id : string) : Store :=
  match acks s !! id with
  | None => s
  | Some ack =>
      let s := with_acks (delete id (acks s)) s in
      let s := with_ackSeq (delete id (ackSeq s)) s in
      let s := with_messageTags (releaseMessageTagLocked (messageTags s) (a_MessageID ack)) s in
      with_acksByMessage (indexRemoveLocked (acksByMessage s) (a_MessageID ack) id) s
  end.

Definition externalAckCapacity (s : Store) : Z := MaxAcks (cfg s) - MaxMessages (cfg s).

Definition addAckLocked (s : Store) (ack : AckRecord) (now : Time) : option QueueError * Store :=
  addAckWithinLocked s ack now (MaxAcks (cfg s)).

Definition addExternalAckLocked (s : Store) (ack : AckRecord) (now : Time)
  : option QueueError * Store :=
  addAckWithinLocked s ack now (externalAckCapacity s).

Definition storePurgeLocked (s : Store) (purge : PurgeRecord) : Store :=
  match purges s !! p_PurgeHash purge with
  | None => if MaxPurges (cfg s) <=? map_len (purges s) then s
            else with_purges (<[p_PurgeHash purge := purge]> (purges s)) s
  | Some _ => with_purges (<[p_PurgeHash purge := purge]> (purges s)) s
  end.

(** The guard both insertion paths share: the envelope carries a purge hash whose
    tombstone is held and not expired. *)
Definition purged (s : Store) (e : MessageEnvelope) (now : Time) : bool :=
  let purgeHash := purgeHashOf e in
  if is_empty purgeHash then false else
  match purges s !! purgeHash with
  | Some purge => After (p_ExpiresAt purge) now
  | None => false
  end.

(** ** Posting a message *)

Definition trimEnvelope (e : MessageEnvelope) : MessageEnvelope :=
  mkMessageEnvelope (TrimSpace (m_ID e)) (TrimSpace (m_Sender e)) (TrimSpace (m_Recipient e))
    (m_CreatedAt e) (m_ExpiresAt e) (TrimSpace (m_EncryptedPayload e)) (m_ContentType e)
    (m_KeyID e) (m_Signature e) (m_Metadata e)
    (TrimSpace (m_RecipientTag e)) (TrimSpace (m_SenderTag e)).

Definition envelopeIncomplete (e : MessageEnvelope) : bool :=
  is_empty (m_ID e) || is_empty (m_Sender e) || is_empty (m_Recipient e)
  || is_empty (m_EncryptedPayload e).

(** The checks on a trimmed envelope before the lock is taken: required fields, the
    payload cap, the default times, the clamp of the expiry to [maxExpiry], and an
    expiry that has not passed. *)
Definition checkEnvelope (c : StoreConfig) (now maxExpiry : Time) (e : MessageEnvelope)
  : QueueError + MessageEnvelope :=
  if envelopeIncomplete e then inl ErrInvalid else
  if MaxPayloadBytes c <? len (m_EncryptedPayload e) then inl ErrPayloadTooLarge else
  let e := if IsZero (m_CreatedAt e) then with_m_CreatedAt now e else e in
  let e := if IsZero (m_ExpiresAt e) then with_m_ExpiresAt (Add now (DefaultTTL c)) e else e in
  let e := if After (m_ExpiresAt e) maxExpiry then with_m_ExpiresAt maxExpiry e else e in
  if negb (After (m_ExpiresAt e) now) then inl ErrExpired else inr e.

Definition AddMessageWithGrant (s : Store) (now : Time) (envelope : MessageEnvelope)
    (nodeID : string) (grant : Grant) : (AckRecord * option QueueError) * Store :=
  let refuse err := ((zeroAckRecord, Some err), s) in
  let maxExpiry := Add now (lowerOfDuration (MaxTTL (cfg s)) (g_Retention grant)) in
  match checkEnvelope (cfg s) now maxExpiry (trimEnvelope envelope) with
  | inl err => refuse err
  | inr envelope =>
      match messages s !! m_ID envelope with
      | Some _ => ((nodeReceivedAck envelope nodeID now, Some ErrDuplicate), s)
      | None =>
          if purged s envelope now then refuse ErrDuplicate else
          if lowerOf (MaxPerPair (cfg s)) (g_MaxPerPair grant)
             <=? counter_get (pairCounts s) (laneOf envelope) then refuse ErrPairQuotaFull else
          if negb (g_Credential grant =? 0)
             && (lowerOf (MaxMessages (cfg s)) (g_Slots grant)
                 <=? counter_get (credentialCounts s) (g_Credential grant))
          then refuse ErrSlotsFull else
          if MaxMessages (cfg s) <=? map_len (messages s) then refuse ErrQueueFull else
          let ack := nodeReceivedAck envelope nodeID now in
          match addAckLocked s ack now with
          | (Some err, s) => ((zeroAckRecord, Some err), s)
          | (None, s) => ((ack, None), addMessageLocked s envelope (g_Credential grant))
          end
      end
  end.

Definition AddMessage (s : Store) (now : Time) (envelope : MessageEnvelope) (nodeID : string)
  : (AckRecord * option QueueError) * Store :=
  AddMessageWithGrant s now envelope nodeID zeroGrant.

(** ** Posting an ack *)

Definition trimAck (a : AckRecord) : AckRecord :=
  mkAckRecord (TrimSpace (a_ID a)) (TrimSpace (a_MessageID a)) (TrimSpace (a_Sender a))
    (TrimSpace (a_Recipient a)) (a_Type a) (a_CreatedAt a) (a_ExpiresAt a) (a_NodeID a)
    (a_Signature a) (TrimSpace (a_SenderTag a)) (a_RecipientTag a)
    (boundedAckReason (a_Reason a)).

Definition ackIncomplete (a : AckRecord) : bool :=
  is_empty (a_ID a) || is_empty (a_MessageID a) || is_empty (a_Sender a)
  || is_empty (a_Recipient a) || negb (validAckType (a_Type a)).

(** The default times and the clamp an ack gets. *)
Definition ackTimes (c : StoreConfig) (now maxExpiry : Time) (a : AckRecord) : AckRecord :=
  let a := if IsZero (a_CreatedAt a) then with_a_CreatedAt now a else a in
  let a := if IsZero (a_ExpiresAt a) then with_a_ExpiresAt (Add now (DefaultTTL c)) a else a in
  if After (a_ExpiresAt a) maxExpiry then with_a_ExpiresAt maxExpiry a else a.

Definition AddAckWithGrant (s : Store) (now : Time) (ack : AckRecord) (nodeID : string)
    (grant : Grant) (auth : Auth) : option QueueError * Store :=
  let ack := trimAck ack in
  if ackIncomplete ack then (Some ErrInvalid, s) else
  let maxExpiry := Add now (lowerOfDuration (MaxTTL (cfg s)) (g_Retention grant)) in
  let ack := ackTimes (cfg s) now maxExpiry ack in
  let ack := if is_empty (a_NodeID ack) then with_a_NodeID nodeID ack else ack in
  if negb (After (a_ExpiresAt ack) now) then (Some ErrExpired, s) else
  let ack := with_a_RecipientTag "" ack in
  let post ack :=
    match acks s !! a_ID ack with
    | Some _ => (Some ErrDuplicate, s)
    | None =>
        match addExternalAckLocked s ack now with
        | (Some err, s) => (Some err, s)
        | (None, s) =>
            (None, if deletesQueuedMessage (a_Type ack)
                   then deleteMessageLocked s (a_MessageID ack) else s)
        end
    end in
  match recipientTagForMessageLocked s (a_MessageID ack) with
  | Some tag =>
      if negb (permits auth tag) then (Some ErrNotOwned, s)
      else post (with_a_RecipientTag tag ack)
  | None => post ack
  end.

Definition AddAck (s : Store) (now : Time) (ack : AckRecord) (nodeID : string)
  : option QueueError * Store :=
  AddAckWithGrant s now ack nodeID zeroGrant TrustedAuth.

(** ** Purging, replication and reads *)

Section runtime.
Context `{!GoRuntime}.

Definition hasTerminalAckLocked (s : Store) (messageID : string) : bool :=
  existsb (λ id, deletesQueuedMessage (a_Type (default zeroAckRecord (acks s !! id))))
    (range (default ∅ (acksByMessage s !! messageID))).*1.

Definition ackIDsForMessageLocked (s : Store) (messageID : string) : list string :=
  (range (default ∅ (acksByMessage s !! messageID))).*1.

(** One turn of the purge loop, with the two counters: the message, then every ack that
    names it. *)
Definition purgeMessage (st : (Z * Z) * Store) (id : string) : (Z * Z) * Store :=
  let '((nm, na), s) := st in
  let s := deleteMessageLocked s id in
  foldl (λ '((nm, na), s) ackID, ((nm, na + 1), deleteAckLocked s ackID))
    ((nm + 1, na), s) (ackIDsForMessageLocked s id).

Definition purgeOwnerLocked (s : Store) (purgeHash : string) : (Z * Z) * Store :=
  let owned := default ∅ (messagesByPurge s !! purgeHash) in
  if map_len owned =? 0 then ((0, 0), s) else
  foldl purgeMessage ((0, 0), s) (range owned).*1.

Definition PurgeOwner (s : Store) (now : Time) (purgeHash : string) : (Z * Z) * Store :=
  let purgeHash := TrimSpace purgeHash in
  let s := storePurgeLocked s (mkPurgeRecord purgeHash (Add now (DefaultTTL (cfg s)))) in
  purgeOwnerLocked s purgeHash.

(** The three expiry loops. *)
Definition sweepMessages (s : Store) (now : Time) : Store :=
  foldl (λ s '(id, e), if negb (After (m_ExpiresAt e) now) then deleteMessageLocked s id else s)
    s (range (messages s)).

Definition sweepAcks (s : Store) (now : Time) : Store :=
  foldl (λ s '(id, a), if negb (After (a_ExpiresAt a) now) then deleteAckLocked s id else s)
    s (range (acks s)).

Definition sweepPurges (s : Store) (now : Time) : Store :=
  foldl (λ s '(hash, p), if negb (After (p_ExpiresAt p) now)
                         then with_purges (delete hash (purges s)) s else s)
    s (range (purges s)).

Definition statsLocked (s : Store) : Stats :=
  mkStats (map_len (messages s)) (map_len (acks s)) (map_len (purges s)).

Definition StatsOf (s : Store) : Stats := statsLocked s.

Definition PruneExpired (s : Store) (now : Time) : Stats * Store :=
  let s := sweepMessages s now in
  let s := sweepAcks s now in
  let s := sweepPurges s now in
  (statsLocked s, s).

Definition MessagesForRecipient (s : Store) (now : Time) (recipient : string) (limit : Z)
    (auth : Auth) : list MessageEnvelope * Store :=
  let recipient := TrimSpace recipient in
  if is_empty recipient then ([], s) else
  let limit := if limit <=? 0 then 100 else limit in
  let '(found, s) :=
    foldl (λ '(found, s) '(id, e),
             if negb (After (m_ExpiresAt e) now) then (found, deleteMessageLocked s id)
             else if bool_decide (m_Recipient e = recipient) && permits auth (m_RecipientTag e)
             then (found ++ [e], s) else (found, s))
      ([], s) (range (messages s)) in
  let found := sort_slice (λ x y, Before (m_CreatedAt x) (m_CreatedAt y)) found in
  (if limit <? Z.of_nat (length found) then take (Z.to_nat limit) found else found, s).

Definition AcksForSender (s : Store) (now : Time) (sender : string) (limit : Z) (auth : Auth)
  : list AckRecord * Store :=
  let sender := TrimSpace sender in
  if is_empty sender then ([], s) else
  let limit := if limit <=? 0 then 100 else limit in
  let '(found, s) :=
    foldl (λ '(found, s) '(id, a),
             if negb (After (a_ExpiresAt a) now) then (found, deleteAckLocked s id)
             else if bool_decide (a_Sender a = sender) && permits auth (a_SenderTag a)
             then (found ++ [a], s) else (found, s))
      ([], s) (range (acks s)) in
  let found := sort_slice (λ x y, Before (a_CreatedAt x) (a_CreatedAt y)) found in
  (if limit <? Z.of_nat (length found) then take (Z.to_nat limit) found else found, s).

(** A pending record of a page: its sequence number, its id, and which map it is in. *)
Record ref := mkRef { r_seq : Z; r_id : string; r_isAck : bool }.

Definition pendingRefs (s : Store) (since : Z) : list ref :=
  foldl (λ acc '(id, n), if since <? n then acc ++ [mkRef n id true] else acc)
    (foldl (λ acc '(id, n), if since <? n then acc ++ [mkRef n id false] else acc)
       [] (range (messageSeq s)))
    (range (ackSeq s)).

Definition zeroMessageEnvelope : MessageEnvelope :=
  mkMessageEnvelope "" "" "" 0 0 "" "" "" "" ∅ "" "".

Definition addToPage (s : Store) (p : SyncPayload) (item : ref) : SyncPayload :=
  let p :=
    if r_isAck item
    then mkSyncPayload (y_NodeID p) (y_Epoch p) (y_NextSeq p) (y_More p) (y_Messages p)
           (y_Acks p ++ [default zeroAckRecord (acks s !! r_id item)])
           (y_Presence p) (y_PresenceRevocations p) (y_Purges p)
    else mkSyncPayload (y_NodeID p) (y_Epoch p) (y_NextSeq p) (y_More p)
           (y_Messages p ++ [default zeroMessageEnvelope (messages s !! r_id item)])
           (y_Acks p) (y_Presence p) (y_PresenceRevocations p) (y_Purges p) in
  mkSyncPayload (y_NodeID p) (y_Epoch p) (r_seq item) (y_More p) (y_Messages p)
    (y_Acks p) (y_Presence p) (y_PresenceRevocations p) (y_Purges p).

Definition SnapshotSince (s : Store) (now : Time) (since : Z) (limit : Z) : SyncPayload * Store :=
  let limit := if limit <=? 0 then 500 else limit in
  let s := sweepMessages s now in
  let s := sweepAcks s now in
  let s := sweepPurges s now in
  let pending := sort_slice (λ x y, r_seq x <? r_seq y) (pendingRefs s since) in
  let more := limit <? Z.of_nat (length pending) in
  let pending := if more then take (Z.to_nat limit) pending else pending in
  let payload := mkSyncPayload "" (epoch s) since more [] [] [] [] [] in
  let payload := foldl (addToPage s) payload pending in
  let payload := mkSyncPayload (y_NodeID payload) (y_Epoch payload) (y_NextSeq payload)
    (y_More payload) (y_Messages payload) (y_Acks payload) (y_Presence payload)
    (y_PresenceRevocations payload) (range (purges s)).*2 in
  (payload, s).

Definition Snapshot (s : Store) (now : Time) (limit : Z) : SyncPayload * Store :=
  SnapshotSince s now 0 limit.

(** A replicated envelope keeps its tags as the peer served them. *)
Definition trimImportedEnvelope (e : MessageEnvelope) : MessageEnvelope :=
  mkMessageEnvelope (TrimSpace (m_ID e)) (TrimSpace (m_Sender e)) (TrimSpace (m_Recipient e))
    (m_CreatedAt e) (m_ExpiresAt e) (TrimSpace (m_EncryptedPayload e)) (m_ContentType e)
    (m_KeyID e) (m_Signature e) (m_Metadata e) (m_RecipientTag e) (m_SenderTag e).

Definition importMessageLocked (s : Store) (now : Time) (envelope : MessageEnvelope)
  : option QueueError * Store :=
  let maxExpiry := Add now (MaxTTL (cfg s)) in
  match checkEnvelope (cfg s) now maxExpiry (trimImportedEnvelope envelope) with
  | inl err => (Some err, s)
  | inr envelope =>
      match messages s !! m_ID envelope with
      | Some _ => (Some ErrDuplicate, s)
      | None =>
          if purged s envelope now then (Some ErrDuplicate, s) else
          if hasTerminalAckLocked s (m_ID envelope) then (Some ErrDuplicate, s) else
          if MaxMessages (cfg s) <=? map_len (messages s) then (Some ErrQueueFull, s) else
          (None, addMessageLocked s envelope 0)
      end
  end.

Definition trimImportedAck (a : AckRecord) : AckRecord :=
  mkAckRecord (TrimSpace (a_ID a)) (TrimSpace (a_MessageID a)) (TrimSpace (a_Sender a))
    (TrimSpace (a_Recipient a)) (a_Type a) (a_CreatedAt a) (a_ExpiresAt a) (a_NodeID a)
    (a_Signature a) (a_SenderTag a) (a_RecipientTag a) (boundedAckReason (a_Reason a)).

Definition importAckLocked (s : Store) (now : Time) (ack : AckRecord)
  : option QueueError * Store :=
  let ack := trimImportedAck ack in
  if ackIncomplete ack then (Some ErrInvalid, s) else
  let ack := ackTimes (cfg s) now (Add now (MaxTTL (cfg s))) ack in
  if negb (After (a_ExpiresAt ack) now) then (Some ErrExpired, s) else
  match acks s !! a_ID ack with
  | Some _ => (Some ErrDuplicate, s)
  | None =>
      match addExternalAckLocked s ack now with
      | (Some err, s) => (Some err, s)
      | (None, s) =>
          (None, if deletesQueuedMessage (a_Type ack)
                 then deleteMessageLocked s (a_MessageID ack) else s)
      end
  end.

(** The three loops of [ImportSnapshot], over the result counters and the store. *)
Definition importPurge (now : Time) (st : ImportResult * Store) (purge : PurgeRecord)
  : ImportResult * Store :=
  let '(r, s) := st in
  if is_empty (p_PurgeHash purge) || negb (After (p_ExpiresAt purge) now)
  then (mkImportResult (AcceptedMessages r) (DuplicateMessages r) (AcceptedAcks r)
          (DuplicateAcks r) (Rejected r + 1), s)
  else (r, (purgeOwnerLocked (storePurgeLocked s purge) (p_PurgeHash purge)).2).

Definition importMessage (now : Time) (st : ImportResult * Store) (e : MessageEnvelope)
  : ImportResult * Store :=
  let '(r, s) := st in
  match importMessageLocked s now e with
  | (None, s) => (mkImportResult (AcceptedMessages r + 1) (DuplicateMessages r)
                    (AcceptedAcks r) (DuplicateAcks r) (Rejected r), s)
  | (Some ErrDuplicate, s) => (mkImportResult (AcceptedMessages r) (DuplicateMessages r + 1)
                    (AcceptedAcks r) (DuplicateAcks r) (Rejected r), s)
  | (Some _, s) => (mkImportResult (AcceptedMessages r) (DuplicateMessages r)
                    (AcceptedAcks r) (DuplicateAcks r) (Rejected r + 1), s)
  end.

Definition importAck (now : Time) (st : ImportResult * Store) (a : AckRecord)
  : ImportResult * Store :=
  let '(r, s) := st in
  match importAckLocked s now a with
  | (None, s) => (mkImportResult (AcceptedMessages r) (DuplicateMessages r)
                    (AcceptedAcks r + 1) (DuplicateAcks r) (Rejected r), s)
  | (Some ErrDuplicate, s) => (mkImportResult (AcceptedMessages r) (DuplicateMessages r)
                    (AcceptedAcks r) (DuplicateAcks r + 1) (Rejected r), s)
  | (Some _, s) => (mkImportResult (AcceptedMessages r) (DuplicateMessages r)
                    (AcceptedAcks r) (DuplicateAcks r) (Rejected r + 1), s)
  end.

Definition ImportSnapshot (s : Store) (now : Time) (payload : SyncPayload)
  : ImportResult * Store :=
  let st := (mkImportResult 0 0 0 0 0, s) in
  let st := foldl (importPurge now) st (y_Purges payload) in
  let st := foldl (importMessage now) st (y_Messages payload) in
  foldl (importAck now) st (y_Acks payload).

Definition Occupancy (s : Store) (credential : Z) : Z :=
  counter_get (credentialCounts s) credential.

End runtime.
