(* ===== verification/QueueInv.v ===== *)
(** * The message and ack queue: the lock-step invariant

    [store.go] keeps nine bookkeeping maps beside its record maps, and says of them that
    they are "kept in lock-step" by the four add/delete helpers. [Inv] states what that
    means; this file proves that every operation of the store preserves it, whatever
    order the runtime visits maps in. *)

From S2P Require Import Prelude Model Capability QueueStore.

Open Scope Z_scope.

(** ** What the bookkeeping maps are equal to *)

Definition laneCount (ms : gmap string MessageEnvelope) (lane : string) : nat :=
  map_count (λ _ e, bool_decide (laneOf e = lane)) ms.

Definition chargedCount (mc : gmap string Z) (credential : Z) : nat :=
  map_count (λ _ c, bool_decide (c = credential)) mc.

Definition naming (messageID : string) (_ : string) (a : AckRecord) : bool :=
  bool_decide (a_MessageID a = messageID).

Definition recordsNaming (ms : gmap string MessageEnvelope) (ks : gmap string AckRecord)
    (messageID : string) : nat :=
  ((if decide (is_Some (ms !! messageID)) then 1 else 0)
   + map_count (naming messageID) ks)%nat.

(** [index] holds, under every non-empty key, exactly the ids of the records with that
    key, and no empty set. *)
Definition indexes {A} (index : gmap string (gmap string ())) (key : A → string)
    (m : gmap string A) : Prop :=
  (∀ k id, is_Some (default ∅ (index !! k) !! id) ↔
           k ≠ ""%string ∧ ∃ v, m !! id = Some v ∧ key v = k) ∧
  (∀ k ids, index !! k = Some ids → ids ≠ ∅).

Record Inv (s : Store) : Prop := {
  inv_config : 0 < MaxMessages (cfg s) < MaxAcks (cfg s) ∧ 0 < MaxPurges (cfg s)
               ∧ 0 < MaxPerPair (cfg s) ∧ 0 < MaxTTL (cfg s);
  inv_message_ids : map_Forall (λ id e, m_ID e = id ∧ id ≠ ""%string) (messages s);
  inv_ack_ids : map_Forall (λ id a, a_ID a = id ∧ id ≠ ""%string
                                    ∧ a_MessageID a ≠ ""%string) (acks s);
  inv_pairCounts : tallies (pairCounts s) (laneCount (messages s));
  inv_messageCredential : ∀ id c, messageCredential s !! id = Some c →
                                  c ≠ 0 ∧ is_Some (messages s !! id);
  inv_credentialCounts : tallies (credentialCounts s) (chargedCount (messageCredential s));
  inv_messageSeq : dom (messageSeq s) = dom (messages s);
  inv_ackSeq : dom (ackSeq s) = dom (acks s);
  inv_messageTags : tallies (b_records <$> messageTags s)
                            (recordsNaming (messages s) (acks s));
  inv_messagesByPurge : indexes (messagesByPurge s) purgeHashOf (messages s);
  inv_acksByMessage : indexes (acksByMessage s) a_MessageID (acks s);
  inv_messages_cap : map_len (messages s) ≤ MaxMessages (cfg s);
  inv_acks_cap : map_len (acks s) ≤ MaxAcks (cfg s);
  inv_purges_cap : map_len (purges s) ≤ MaxPurges (cfg s);
}.

(** ** The two index helpers *)

Section indexes.
Context {A : Type} (key : A → string).
Implicit Types (index : gmap string (gmap string ())) (m : gmap string A).

Lemma indexes_empty : indexes ∅ key (∅ : gmap string A).
Proof.
  split; [|by intros k ids; rewrite lookup_empty].
  intros k id. rewrite lookup_empty. simpl. rewrite !lookup_empty. split.
  - by intros [? ?].
  - by intros (_ & v & ? & _).
Qed.

Lemma indexes_add index m id v :
  m !! id = None → id ≠ ""%string →
  indexes index key m → indexes (indexAddLocked index (key v) id) key (<[id:=v]> m).
Proof.
  intros Hid Hne [Hin Hemp]. unfold indexAddLocked, is_empty.
  rewrite (bool_decide_eq_false_2 (id = _)), orb_false_r by done.
  destruct (bool_decide_reflect (key v = ""%string)) as [Hk|Hk].
  - split; [|done]. intros k i. rewrite Hin. split; intros [Hkne (w & Hw & Hkw)];
      (split; [done|]); exists w; (split; [|done]); revert Hw;
      destruct (decide (i = id)) as [->|]; simplify_map_eq; try done; congruence.
  - split.
    + intros k i. destruct (decide (k = key v)) as [->|Hkk].
      * rewrite lookup_insert_eq. simpl.
        destruct (decide (i = id)) as [->|Hi].
        -- rewrite lookup_insert_eq. split; [|done]. intros _. split; [done|].
           exists v. by rewrite lookup_insert_eq.
        -- rewrite lookup_insert_ne, Hin by done. by rewrite lookup_insert_ne.
      * rewrite lookup_insert_ne, Hin by done.
        destruct (decide (i = id)) as [->|Hi]; [|by rewrite lookup_insert_ne].
        rewrite Hid, lookup_insert_eq. naive_solver.
    + intros k ids. rewrite lookup_insert. case_decide; [|apply Hemp].
      intros [= <-]. apply insert_non_empty.
Qed.

Lemma indexes_remove index m id v :
  m !! id = Some v →
  indexes index key m → indexes (indexRemoveLocked index (key v) id) key (delete id m).
Proof.
  intros Hid [Hin Hemp]. unfold indexRemoveLocked.
  assert (∀ k i, k ≠ key v ∨ i ≠ id →
    (k ≠ ""%string ∧ (∃ w, m !! i = Some w ∧ key w = k)) ↔
    (k ≠ ""%string ∧ (∃ w, delete id m !! i = Some w ∧ key w = k))) as Hother.
  { intros k i Hki. destruct (decide (i = id)) as [->|Hi].
    - rewrite lookup_delete_eq, Hid. naive_solver.
    - by rewrite lookup_delete_ne. }
  destruct (index !! key v) as [ids|] eqn:Hids.
  2:{ split; [|done]. intros k i. rewrite Hin.
      destruct (decide (k = key v)) as [->|]; [|auto]. destruct (decide (i = id)) as [->|]; [|auto].
      specialize (Hin (key v) id). rewrite Hids in Hin. simpl in Hin.
      rewrite lookup_empty in Hin. rewrite lookup_delete_eq.
      split; [intros Hx; by apply Hin in Hx as [? ?] | by intros (_ & ? & ? & _)]. }
  assert (∀ k i, is_Some (default ∅ (<[key v := delete id ids]> index !! k) !! i) ↔
    k ≠ ""%string ∧ ∃ w, delete id m !! i = Some w ∧ key w = k) as Hmain.
  { intros k i. destruct (decide (k = key v)) as [->|Hk].
    - rewrite lookup_insert_eq. simpl. destruct (decide (i = id)) as [->|Hi].
      + rewrite !lookup_delete_eq. split; [by intros [? ?] | by intros (_ & ? & ? & _)].
      + rewrite lookup_delete_ne by done. rewrite <-Hother by auto.
        rewrite <-Hin, Hids. done.
    - rewrite lookup_insert_ne, Hin by done. auto. }
  case_match eqn:Hlen.
  - apply Z.eqb_eq in Hlen. unfold map_len in Hlen.
    assert (delete id ids = ∅) as He by (apply map_size_empty_iff; lia).
    split.
    + intros k i. rewrite <-Hmain. destruct (decide (k = key v)) as [->|].
      * by rewrite lookup_delete_eq, lookup_insert_eq, He.
      * by rewrite lookup_delete_ne, lookup_insert_ne.
    + intros k ids' [_ Hk]%lookup_delete_Some. eauto.
  - apply Z.eqb_neq in Hlen. split; [done|].
    intros k ids'. rewrite lookup_insert. case_decide; [|apply Hemp].
    intros [= <-] He. apply Hlen. unfold map_len. by rewrite He, map_size_empty.
Qed.
End indexes.

(** ** The tag binding counts records *)

Lemma bind_records tags id t :
  id ≠ ""%string →
  b_records <$> bindMessageTagLocked tags id t = counter_inc (b_records <$> tags) id.
Proof.
  intros Hid. unfold bindMessageTagLocked, counter_inc, counter_get, is_empty.
  rewrite bool_decide_eq_false_2 by done. rewrite fmap_insert, lookup_fmap. simpl.
  by destruct (tags !! id).
Qed.

Lemma release_records tags id :
  b_records <$> releaseMessageTagLocked tags id = counter_dec (b_records <$> tags) id.
Proof.
  unfold releaseMessageTagLocked, counter_dec, counter_get. rewrite lookup_fmap.
  destruct (tags !! id) as [[t n]|] eqn:Hid; simpl.
  - case_match; [by rewrite fmap_delete | by rewrite fmap_insert].
  - rewrite delete_id; [done|]. by rewrite lookup_fmap, Hid.
Qed.

(** A binding's tag changes only from empty, and a release never changes it. *)
Lemma bind_tag_mono tags id id' t b :
  tags !! id = Some b → b_tag b ≠ ""%string →
  ∃ b', bindMessageTagLocked tags id' t !! id = Some b' ∧ b_tag b' = b_tag b.
Proof.
  intros Hid Hb. unfold bindMessageTagLocked. case_match; [eauto|].
  destruct (decide (id' = id)) as [->|Hne].
  - rewrite lookup_insert_eq, Hid. simpl. eexists. split; [done|]. simpl.
    unfold is_empty. by rewrite bool_decide_eq_false_2.
  - rewrite lookup_insert_ne by done. eauto.
Qed.

Lemma release_tag_lookup tags id id' b' :
  releaseMessageTagLocked tags id !! id' = Some b' →
  ∃ b, tags !! id' = Some b ∧ b_tag b' = b_tag b.
Proof.
  unfold releaseMessageTagLocked. destruct (tags !! id) as [b|] eqn:Hb; [|eauto].
  case_match.
  - intros [_ ?]%lookup_delete_Some. eauto.
  - rewrite lookup_insert. case_decide as Heq; [|eauto]. subst id'.
    intros [= <-]. rewrite Hb. eauto.
Qed.

(** ** The four writers preserve the invariant *)

Lemma recordsNaming_addMessage ms ks e i :
  ms !! m_ID e = None →
  recordsNaming (<[m_ID e := e]> ms) ks i =
  ((if decide (i = m_ID e) then 1 else 0) + recordsNaming ms ks i)%nat.
Proof.
  intros Hnone. unfold recordsNaming. destruct (decide (i = m_ID e)) as [->|Hne].
  - rewrite lookup_insert_eq, Hnone. rewrite decide_True by eauto.
    rewrite decide_False by (by intros [? ?]). done.
  - by rewrite lookup_insert_ne.
Qed.

Lemma recordsNaming_deleteMessage ms ks e id i :
  ms !! id = Some e →
  recordsNaming ms ks i =
  ((if decide (i = id) then 1 else 0) + recordsNaming (delete id ms) ks i)%nat.
Proof.
  intros He. unfold recordsNaming. destruct (decide (i = id)) as [->|Hne].
  - rewrite lookup_delete_eq, He. rewrite decide_True by eauto.
    rewrite decide_False by (by intros [? ?]). done.
  - by rewrite lookup_delete_ne.
Qed.

Lemma if_decide_eq {K} `{EqDecision K} (x y : K) :
  (if bool_decide (x = y) then 1 else 0)%nat = (if decide (y = x) then 1 else 0)%nat.
Proof. case_bool_decide; case_decide; congruence. Qed.

Lemma recordsNaming_addAck ms ks id a i :
  ks !! id = None →
  recordsNaming ms (<[id := a]> ks) i =
  ((if decide (i = a_MessageID a) then 1 else 0) + recordsNaming ms ks i)%nat.
Proof.
  intros Hnone. unfold recordsNaming.
  rewrite map_count_insert by done. unfold naming at 1. rewrite if_decide_eq. lia.
Qed.

Lemma recordsNaming_deleteAck ms ks a id i :
  ks !! id = Some a →
  recordsNaming ms ks i =
  ((if decide (i = a_MessageID a) then 1 else 0) + recordsNaming ms (delete id ks) i)%nat.
Proof.
  intros Ha. unfold recordsNaming. rewrite (map_count_delete _ ks id a) by done.
  unfold naming at 1. rewrite if_decide_eq. lia.
Qed.

Lemma laneCount_insert ms id e lane :
  ms !! id = None →
  laneCount (<[id := e]> ms) lane =
  ((if decide (lane = laneOf e) then 1 else 0) + laneCount ms lane)%nat.
Proof. intros Hn. unfold laneCount. by rewrite map_count_insert, if_decide_eq. Qed.

Lemma laneCount_delete ms id e lane :
  ms !! id = Some e →
  laneCount ms lane =
  ((if decide (lane = laneOf e) then 1 else 0) + laneCount (delete id ms) lane)%nat.
Proof.
  intros He. unfold laneCount. by rewrite (map_count_delete _ ms id e), if_decide_eq.
Qed.

Lemma chargedCount_insert mc id c credential :
  mc !! id = None →
  chargedCount (<[id := c]> mc) credential =
  ((if decide (credential = c) then 1 else 0) + chargedCount mc credential)%nat.
Proof. intros Hn. unfold chargedCount. by rewrite map_count_insert, if_decide_eq. Qed.

Lemma chargedCount_delete mc id c credential :
  mc !! id = Some c →
  chargedCount mc credential =
  ((if decide (credential = c) then 1 else 0) + chargedCount (delete id mc) credential)%nat.
Proof.
  intros He. unfold chargedCount. by rewrite (map_count_delete _ mc id c), if_decide_eq.
Qed.

Lemma map_len_insert {K A} `{Countable K} (m : gmap K A) k v :
  m !! k = None → map_len (<[k:=v]> m) = map_len m + 1.
Proof. intros Hk. unfold map_len. rewrite map_size_insert_None by done. lia. Qed.

Lemma map_len_delete_le {K A} `{Countable K} (m : gmap K A) k :
  map_len (delete k m) ≤ map_len m.
Proof. unfold map_len. apply inj_le, map_subseteq_size, delete_subseteq. Qed.

#[local] Hint Resolve indexes_add indexes_remove : relay.

(** Close a goal about a counter after a decrement, given the lemma that says what the
    count loses. *)
Ltac tally_dec lem := eapply tallies_dec; [eassumption | intros ?; by eapply lem].

Lemma addMessageLocked_inv s e credential :
  Inv s → messages s !! m_ID e = None → m_ID e ≠ ""%string →
  map_len (messages s) < MaxMessages (cfg s) →
  Inv (addMessageLocked s e credential).
Proof.
  intros [] Hnone Hne Hcap.
  assert (messageCredential s !! m_ID e = None) as Huncharged.
  { destruct (messageCredential s !! m_ID e) as [c|] eqn:Hc; [|done].
    apply inv_messageCredential0 in Hc as [_ [? ?]]. congruence. }
  assert (∀ id c, messageCredential s !! id = Some c →
            c ≠ 0 ∧ is_Some (<[m_ID e := e]> (messages s) !! id)) as Hcharged.
  { intros id c [? ?]%inv_messageCredential0. split; [done|].
    rewrite lookup_insert. case_decide; eauto. }
  unfold addMessageLocked. destruct (negb (credential =? 0)) eqn:Hz.
  all: constructor; simpl; auto with relay.
  all: try (eapply tallies_ext, tallies_inc, inv_pairCounts0;
            intros k; by rewrite laneCount_insert).
  all: try (by rewrite !dom_insert_L, inv_messageSeq0).
  all: try (rewrite bind_records by done; eapply tallies_ext, tallies_inc, inv_messageTags0;
            intros k; by rewrite recordsNaming_addMessage).
  all: try (rewrite map_len_insert by done; lia).
  all: try by apply map_Forall_insert_2.
  - intros id c. rewrite (lookup_insert (messageCredential s)). case_decide as Heq; [|apply Hcharged].
    intros [= <-]. subst id. rewrite lookup_insert_eq. reflect_bools. eauto.
  - eapply tallies_ext, tallies_inc, inv_credentialCounts0. intros k.
    by rewrite chargedCount_insert.
Qed.

Lemma deleteMessageLocked_inv s id : Inv s → Inv (deleteMessageLocked s id).
Proof.
  intros HI. pose proof HI as []. unfold deleteMessageLocked.
  destruct (messages s !! id) as [e|] eqn:He; [|done].
  assert (m_ID e = id) as Hid by (by apply inv_message_ids0 in He as [? _]).
  simpl. destruct (messageCredential s !! id) as [c|] eqn:Hc.
  all: constructor; simpl; eauto with relay.
  all: try (tally_dec laneCount_delete).
  all: try (by rewrite !dom_delete_L, inv_messageSeq0).
  all: try (rewrite release_records; tally_dec recordsNaming_deleteMessage).
  all: try (pose proof (map_len_delete_le (messages s) id); lia).
  all: try by apply map_Forall_delete.
  - intros i c' [Hne Hi]%lookup_delete_Some. rewrite lookup_delete_ne by done. eauto.
  - tally_dec chargedCount_delete.
  - intros i c' Hi. rewrite lookup_delete_ne; [by eauto | congruence].
Qed.

Lemma deleteAckLocked_inv s id : Inv s → Inv (deleteAckLocked s id).
Proof.
  intros HI. pose proof HI as []. unfold deleteAckLocked.
  destruct (acks s !! id) as [a|] eqn:Ha; [|done].
  constructor; simpl; eauto with relay.
  - by apply map_Forall_delete.
  - by rewrite !dom_delete_L, inv_ackSeq0.
  - rewrite release_records. tally_dec recordsNaming_deleteAck.
  - pose proof (map_len_delete_le (acks s) id). lia.
Qed.

Lemma insertAck_inv s a :
  Inv s → acks s !! a_ID a = None → a_ID a ≠ ""%string → a_MessageID a ≠ ""%string →
  map_len (acks s) < MaxAcks (cfg s) → Inv (insertAck s a).
Proof.
  intros [] Hnone Hid Hmid Hcap.
  constructor; simpl; eauto with relay.
  - by apply map_Forall_insert_2.
  - by rewrite !dom_insert_L, inv_ackSeq0.
  - rewrite bind_records by done. eapply tallies_ext, tallies_inc, inv_messageTags0.
    intros k. by rewrite recordsNaming_addAck.
  - rewrite map_len_insert by done. lia.
Qed.

(** [addAckWithinLocked] either refuses and leaves the store as it was, or inserts the
    ack, with its default expiry if it had none. *)
Definition withDefaultExpiry (s : Store) (now : Time) (a : AckRecord) : AckRecord :=
  if IsZero (a_ExpiresAt a) then with_a_ExpiresAt (Add now (DefaultTTL (cfg s))) a else a.

Lemma withDefaultExpiry_ids s now a :
  a_ID (withDefaultExpiry s now a) = a_ID a ∧
  a_MessageID (withDefaultExpiry s now a) = a_MessageID a ∧
  a_Type (withDefaultExpiry s now a) = a_Type a ∧
  a_RecipientTag (withDefaultExpiry s now a) = a_RecipientTag a.
Proof. unfold withDefaultExpiry. by case_match. Qed.

Lemma addAckWithinLocked_cases s a now capacity :
  (∃ err, addAckWithinLocked s a now capacity = (Some err, s)) ∨
  (addAckWithinLocked s a now capacity = (None, insertAck s (withDefaultExpiry s now a)) ∧
   acks s !! a_ID a = None ∧ map_len (acks s) < capacity ∧
   now < a_ExpiresAt (withDefaultExpiry s now a)).
Proof.
  unfold addAckWithinLocked. fold (withDefaultExpiry s now a).
  destruct (acks s !! a_ID a) eqn:Hid; [eauto|]. guards; eauto.
  right. reflect_bools. auto with lia.
Qed.

Lemma addAckWithinLocked_inv s a now capacity :
  Inv s → a_ID a ≠ ""%string → a_MessageID a ≠ ""%string → capacity ≤ MaxAcks (cfg s) →
  Inv (addAckWithinLocked s a now capacity).2.
Proof.
  intros HI Hid Hmid Hcap.
  destruct (addAckWithinLocked_cases s a now capacity) as [[err ->]|(-> & Hn & Hl & _)]; [done|].
  destruct (withDefaultExpiry_ids s now a) as (Hi & Hm & _).
  apply insertAck_inv; rewrite ?Hi, ?Hm; try done. lia.
Qed.

Lemma storePurgeLocked_inv s p : Inv s → Inv (storePurgeLocked s p).
Proof.
  intros HI. pose proof HI as []. unfold storePurgeLocked.
  destruct (purges s !! p_PurgeHash p) as [q|] eqn:Hp; [|case_match; [done|]].
  all: constructor; simpl; auto.
  - unfold map_len in *. by rewrite map_size_insert_Some by eauto.
  - reflect_bools. rewrite map_len_insert by done. lia.
Qed.

Lemma sweepPurge_inv s hash : Inv s → Inv (with_purges (delete hash (purges s)) s).
Proof.
  intros []. constructor; simpl; auto.
  pose proof (map_len_delete_le (purges s) hash). lia.
Qed.

Create HintDb queue_inv.
#[export] Hint Resolve addMessageLocked_inv deleteMessageLocked_inv deleteAckLocked_inv
  insertAck_inv addAckWithinLocked_inv storePurgeLocked_inv sweepPurge_inv : queue_inv.

(** ** Every operation preserves the invariant *)

Lemma resolveConfig_caps c :
  MaxMessages c < 2 ^ 62 →
  0 < MaxMessages (resolveConfig c) < MaxAcks (resolveConfig c) ∧ 0 < MaxPurges (resolveConfig c)
  ∧ 0 < MaxPerPair (resolveConfig c) ∧ 0 < MaxTTL (resolveConfig c).
Proof.
  intros Hc. unfold resolveConfig; simpl.
  assert (∀ z, 0 < z < 2 ^ 62 → wrap_int64 (2 * z) = 2 * z) as Hw.
  { intros z Hz. unfold wrap_int64. rewrite Z.mod_small; lia. }
  assert (0 < 72 * Hour) by (vm_compute; done).
  destruct (MaxMessages c <=? 0) eqn:?; repeat case_match; reflect_bools;
    rewrite ?Hw in * by lia; lia.
Qed.

Lemma NewStore_inv c e : MaxMessages c < 2 ^ 62 → Inv (NewStore c e).
Proof.
  intros Hcaps%resolveConfig_caps. unfold NewStore. generalize dependent (resolveConfig c).
  intros rc Hcaps. constructor; simpl; try apply indexes_empty; try done;
    unfold map_len; rewrite map_size_empty; lia.
Qed.

Lemma checkEnvelope_ok c now maxExpiry e e' :
  checkEnvelope c now maxExpiry e = inr e' →
  m_ID e' = m_ID e ∧ m_ID e ≠ ""%string ∧ now < m_ExpiresAt e' ≤ maxExpiry ∧
  m_Sender e' = m_Sender e ∧ m_Recipient e' = m_Recipient e ∧
  m_RecipientTag e' = m_RecipientTag e ∧ m_SenderTag e' = m_SenderTag e ∧
  m_EncryptedPayload e' = m_EncryptedPayload e ∧
  len (m_EncryptedPayload e) ≤ MaxPayloadBytes c ∧
  m_Metadata e' = m_Metadata e.
Proof.
  unfold checkEnvelope, envelopeIncomplete.
  destruct (_ || _) eqn:Hinc; [done|]. case_match eqn:Hlen; [done|].
  destruct (IsZero (m_CreatedAt e)); cbv zeta;
    destruct (IsZero _); destruct (After _ maxExpiry) eqn:Ha;
    destruct (negb _) eqn:Hexp; intros [= <-]; simpl in *; reflect_bools;
    repeat split; try done; lia.
Qed.

Lemma AddMessageWithGrant_inv s now e nodeID grant :
  Inv s → Inv (AddMessageWithGrant s now e nodeID grant).2.
Proof.
  intros HI. unfold AddMessageWithGrant.
  destruct (checkEnvelope _ _ _ _) as [err|e'] eqn:Hchk; [done|].
  apply checkEnvelope_ok in Hchk as (Hid & Hne & _).
  destruct (messages s !! m_ID e') eqn:Hm; [done|]. rewrite <-Hid in Hne.
  guards; simpl; try done. reflect_bools. unfold addAckLocked.
  destruct (addAckWithinLocked_cases s (nodeReceivedAck e' nodeID now) now (MaxAcks (cfg s)))
    as [[err ->]|(-> & Hn & Hl & _)]; simpl; [done|].
  destruct (withDefaultExpiry_ids s now (nodeReceivedAck e' nodeID now)) as (Hi & Hmi & _).
  apply addMessageLocked_inv; try done.
  apply insertAck_inv; rewrite ?Hi, ?Hmi; try done. simpl. by destruct (m_ID e').
Qed.

(** What the times pass leaves alone. *)
Lemma ackTimes_ids c now maxExpiry a :
  a_ID (ackTimes c now maxExpiry a) = a_ID a ∧
  a_MessageID (ackTimes c now maxExpiry a) = a_MessageID a ∧
  a_Type (ackTimes c now maxExpiry a) = a_Type a ∧
  a_RecipientTag (ackTimes c now maxExpiry a) = a_RecipientTag a ∧
  a_ExpiresAt (ackTimes c now maxExpiry a) ≤ maxExpiry.
Proof.
  unfold ackTimes. destruct (IsZero (a_CreatedAt a)); cbv zeta; destruct (IsZero _);
    destruct (After _ maxExpiry) eqn:Ha; simpl in *; reflect_bools; repeat split; try done; lia.
Qed.

Lemma ackIncomplete_false a :
  ackIncomplete a = false →
  a_ID a ≠ ""%string ∧ a_MessageID a ≠ ""%string ∧ validAckType (a_Type a) = true.
Proof. unfold ackIncomplete. intros. reflect_bools. done. Qed.

(** The tail [AddAckWithGrant] and [importAckLocked] share: insert against the external
    budget, then delete the message if the ack is terminal. *)
Definition postAck (s : Store) (now : Time) (a : AckRecord) : option QueueError * Store :=
  match acks s !! a_ID a with
  | Some _ => (Some ErrDuplicate, s)
  | None =>
      match addExternalAckLocked s a now with
      | (Some err, s) => (Some err, s)
      | (None, s) => (None, if deletesQueuedMessage (a_Type a)
                            then deleteMessageLocked s (a_MessageID a) else s)
      end
  end.

Lemma postAck_inv s now a :
  Inv s → a_ID a ≠ ""%string → a_MessageID a ≠ ""%string → Inv (postAck s now a).2.
Proof.
  intros HI Hid Hmid. unfold postAck, addExternalAckLocked.
  destruct (acks s !! a_ID a); [done|].
  assert (externalAckCapacity s ≤ MaxAcks (cfg s)) as Hcap.
  { pose proof (inv_config s HI). unfold externalAckCapacity. lia. }
  pose proof (addAckWithinLocked_inv s a now _ HI Hid Hmid Hcap) as HI'.
  destruct (addAckWithinLocked s a now (externalAckCapacity s)) as [[err|] s']; simpl in *; [done|].
  case_match; auto with queue_inv.
Qed.

(** What [AddAckWithGrant] stores: the fields trimmed, the times resolved, the node id
    filled in. *)
Definition preparedAck (s : Store) (now : Time) (a : AckRecord) (nodeID : string) (grant : Grant)
  : AckRecord :=
  let maxExpiry := Add now (lowerOfDuration (MaxTTL (cfg s)) (g_Retention grant)) in
  let a := ackTimes (cfg s) now maxExpiry (trimAck a) in
  if is_empty (a_NodeID a) then with_a_NodeID nodeID a else a.

Lemma preparedAck_fields s now a nodeID grant :
  a_ID (preparedAck s now a nodeID grant) = TrimSpace (a_ID a) ∧
  a_MessageID (preparedAck s now a nodeID grant) = TrimSpace (a_MessageID a) ∧
  a_Type (preparedAck s now a nodeID grant) = a_Type a ∧
  a_ExpiresAt (preparedAck s now a nodeID grant)
    ≤ Add now (lowerOfDuration (MaxTTL (cfg s)) (g_Retention grant)).
Proof.
  unfold preparedAck. destruct (ackTimes_ids (cfg s) now
    (Add now (lowerOfDuration (MaxTTL (cfg s)) (g_Retention grant))) (trimAck a))
    as (? & ? & ? & ? & ?).
  cbv zeta. case_match; simpl; auto.
Qed.

Lemma AddAckWithGrant_eq s now a nodeID grant auth :
  AddAckWithGrant s now a nodeID grant auth =
  if ackIncomplete (trimAck a) then (Some ErrInvalid, s) else
  let a' := preparedAck s now a nodeID grant in
  if negb (After (a_ExpiresAt a') now) then (Some ErrExpired, s) else
  match recipientTagForMessageLocked s (TrimSpace (a_MessageID a)) with
  | Some tag => if permits auth tag then postAck s now (with_a_RecipientTag tag a')
                else (Some ErrNotOwned, s)
  | None => postAck s now (with_a_RecipientTag "" a')
  end.
Proof.
  unfold AddAckWithGrant. case_match; [done|].
  destruct (preparedAck_fields s now a nodeID grant) as (_ & Hm & _).
  cbv zeta. fold (preparedAck s now a nodeID grant). case_match; [done|].
  unfold postAck. simpl. rewrite !Hm.
  destruct (recipientTagForMessageLocked _ _); [by destruct (permits auth _) | done].
Qed.

Lemma AddAckWithGrant_inv s now a nodeID grant auth :
  Inv s → Inv (AddAckWithGrant s now a nodeID grant auth).2.
Proof.
  intros HI. rewrite AddAckWithGrant_eq.
  destruct (ackIncomplete (trimAck a)) eqn:Hinc; [done|].
  apply ackIncomplete_false in Hinc as (Hid & Hmid & _). simpl in Hid, Hmid.
  destruct (preparedAck_fields s now a nodeID grant) as (Hi & Hm & _).
  rewrite <-Hi in Hid. rewrite <-Hm in Hmid.
  cbv zeta. repeat case_match; try done; by apply postAck_inv.
Qed.

Section runtime.
Context `{!GoRuntime}.

Lemma importMessageLocked_inv s now e : Inv s → Inv (importMessageLocked s now e).2.
Proof.
  intros HI. unfold importMessageLocked.
  destruct (checkEnvelope _ _ _ _) as [err|e'] eqn:Hchk; [done|].
  apply checkEnvelope_ok in Hchk as (Hid & Hne & _). rewrite <-Hid in Hne.
  destruct (messages s !! m_ID e') eqn:Hm; [done|].
  guards; simpl; try done. reflect_bools. by apply addMessageLocked_inv.
Qed.

Lemma importAckLocked_eq s now a :
  importAckLocked s now a =
  if ackIncomplete (trimImportedAck a) then (Some ErrInvalid, s) else
  let a' := ackTimes (cfg s) now (Add now (MaxTTL (cfg s))) (trimImportedAck a) in
  if negb (After (a_ExpiresAt a') now) then (Some ErrExpired, s) else postAck s now a'.
Proof. done. Qed.

Lemma importAckLocked_inv s now a : Inv s → Inv (importAckLocked s now a).2.
Proof.
  intros HI. rewrite importAckLocked_eq.
  destruct (ackIncomplete (trimImportedAck a)) eqn:Hinc; [done|].
  apply ackIncomplete_false in Hinc as (Hid & Hmid & _).
  cbv zeta. case_match; [done|].
  destruct (ackTimes_ids (cfg s) now (Add now (MaxTTL (cfg s))) (trimImportedAck a)) as (Hi & Hm & _).
  apply postAck_inv; rewrite ?Hi, ?Hm; done.
Qed.

Lemma sweepMessages_inv s now : Inv s → Inv (sweepMessages s now).
Proof.
  intros HI. apply (foldl_inv Inv); [done|]. intros s' [id e] _ HI'.
  case_match; auto with queue_inv.
Qed.

Lemma sweepAcks_inv s now : Inv s → Inv (sweepAcks s now).
Proof.
  intros HI. apply (foldl_inv Inv); [done|]. intros s' [id a] _ HI'.
  case_match; auto with queue_inv.
Qed.

Lemma sweepPurges_inv s now : Inv s → Inv (sweepPurges s now).
Proof.
  intros HI. apply (foldl_inv Inv); [done|]. intros s' [hash p] _ HI'.
  case_match; auto with queue_inv.
Qed.

Lemma purgeMessage_inv st id : Inv st.2 → Inv (purgeMessage st id).2.
Proof.
  destruct st as [[nm na] s]. intros HI. unfold purgeMessage. cbv zeta.
  apply (foldl_inv (λ st, Inv st.2)); [by apply deleteMessageLocked_inv|].
  intros [[n n'] s'] ackID _ HI'. by apply deleteAckLocked_inv.
Qed.

Lemma purgeOwnerLocked_inv s h : Inv s → Inv (purgeOwnerLocked s h).2.
Proof.
  intros HI. unfold purgeOwnerLocked. case_match; [done|].
  apply (foldl_inv (λ st, Inv st.2)); [done|]. intros st id _. apply purgeMessage_inv.
Qed.

Lemma MessagesForRecipient_inv s now r limit auth :
  Inv s → Inv (MessagesForRecipient s now r limit auth).2.
Proof.
  intros HI. unfold MessagesForRecipient. case_match; [done|].
  match goal with |- context [foldl ?f ?a ?l] =>
    assert (Inv (foldl f a l).2) as Hf; [|destruct (foldl f a l); done] end.
  apply (foldl_inv (λ st, Inv st.2)); [done|]. intros [found s'] [id e] _ HI'.
  simpl. guards; simpl; auto with queue_inv.
Qed.

Lemma AcksForSender_inv s now r limit auth :
  Inv s → Inv (AcksForSender s now r limit auth).2.
Proof.
  intros HI. unfold AcksForSender. case_match; [done|].
  match goal with |- context [foldl ?f ?a ?l] =>
    assert (Inv (foldl f a l).2) as Hf; [|destruct (foldl f a l); done] end.
  apply (foldl_inv (λ st, Inv st.2)); [done|]. intros [found s'] [id e] _ HI'.
  simpl. guards; simpl; auto with queue_inv.
Qed.

Lemma ImportSnapshot_inv s now payload : Inv s → Inv (ImportSnapshot s now payload).2.
Proof.
  intros HI. unfold ImportSnapshot. cbv zeta.
  apply (foldl_inv (λ st, Inv st.2)).
  1: apply (foldl_inv (λ st, Inv st.2)).
  1: apply (foldl_inv (λ st, Inv st.2)); [done|].
  - intros [r s'] p _ HI'. unfold importPurge. case_match; [done|].
    apply purgeOwnerLocked_inv. auto with queue_inv.
  - intros [r s'] e _ HI'. unfold importMessage.
    pose proof (importMessageLocked_inv s' now e HI') as HI''.
    destruct (importMessageLocked s' now e) as [[[]|] s'']; done.
  - intros [r s'] a _ HI'. unfold importAck.
    pose proof (importAckLocked_inv s' now a HI') as HI''.
    destruct (importAckLocked s' now a) as [[[]|] s'']; done.
Qed.

End runtime.

#[export] Hint Resolve AddMessageWithGrant_inv AddAckWithGrant_inv purgeOwnerLocked_inv
  sweepMessages_inv sweepAcks_inv sweepPurges_inv MessagesForRecipient_inv AcksForSender_inv
  ImportSnapshot_inv : queue_inv.
