(* ===== verification/QueueSpec.v ===== *)
(** * The message and ack queue: a reference specification and the refinement

    The reference store holds the records and nothing else: no counter, no index. What
    the code reads off a bookkeeping map in O(1), the reference computes by scanning the
    records; what the code deletes through an index, the reference deletes by a filter.
    [simulation] shows that the code, whatever order its runtime visits maps in, does
    step for step what the reference does. *)

From S2P Require Import Prelude Model Capability QueueStore QueueInv.

Open Scope Z_scope.

(** ** The reference store *)

Record RefStore := mkRefStore {
  R_cfg : StoreConfig;
  R_epoch : string;
  R_messages : gmap string MessageEnvelope;
  R_acks : gmap string AckRecord;
  R_purges : gmap string PurgeRecord;
  R_charge : gmap string Z;          (* the credential a message was charged to *)
  R_seq : Z;
  R_messageSeq : gmap string Z;      (* arrival numbers *)
  R_ackSeq : gmap string Z;
  R_tags : gmap string string;       (* the tag acks of a message are proved against *)
}.

(** The records of a store, its bookkeeping forgotten. *)
Definition abs (s : Store) : RefStore :=
  mkRefStore (cfg s) (epoch s) (messages s) (acks s) (purges s) (messageCredential s)
    (storeSeq s) (messageSeq s) (ackSeq s) (b_tag <$> messageTags s).

Definition named (ms : gmap string MessageEnvelope) (ks : gmap string AckRecord) (id : string)
  : bool := negb (bool_decide (recordsNaming ms ks id = 0%nat)).

Definition present {A} (m : gmap string A) (id : string) : bool :=
  bool_decide (is_Some (m !! id)).

(** Every deletion of the store is one of these: keep the messages and the acks that
    pass a test; a charge and an arrival number live as long as their record, and a
    tag as long as some record names its message. *)
Definition retain (keepM : string → MessageEnvelope → bool) (keepA : string → AckRecord → bool)
    (r : RefStore) : RefStore :=
  let ms := keep keepM (R_messages r) in
  let ks := keep keepA (R_acks r) in
  mkRefStore (R_cfg r) (R_epoch r) ms ks (R_purges r)
    (keep (λ id _, present ms id) (R_charge r)) (R_seq r)
    (keep (λ id _, present ms id) (R_messageSeq r))
    (keep (λ id _, present ks id) (R_ackSeq r))
    (keep (λ id _, named ms ks id) (R_tags r)).

Definition R_with_purges (ps : gmap string PurgeRecord) (r : RefStore) : RefStore :=
  mkRefStore (R_cfg r) (R_epoch r) (R_messages r) (R_acks r) ps (R_charge r) (R_seq r)
    (R_messageSeq r) (R_ackSeq r) (R_tags r).

(** The first non-empty tag among the records naming a message stays its tag. *)
Definition bindTag (tags : gmap string string) (id tag : string) : gmap string string :=
  let current := default ""%string (tags !! id) in
  <[id := if is_empty current then tag else current]> tags.

Definition insertMessage (r : RefStore) (e : MessageEnvelope) (credential : Z) : RefStore :=
  let n := wrap_uint64 (R_seq r + 1) in
  mkRefStore (R_cfg r) (R_epoch r) (<[m_ID e := e]> (R_messages r)) (R_acks r) (R_purges r)
    (if credential =? 0 then R_charge r else <[m_ID e := credential]> (R_charge r)) n
    (<[m_ID e := n]> (R_messageSeq r)) (R_ackSeq r)
    (bindTag (R_tags r) (m_ID e) (m_RecipientTag e)).

Definition insertAckRecord (r : RefStore) (a : AckRecord) : RefStore :=
  let n := wrap_uint64 (R_seq r + 1) in
  mkRefStore (R_cfg r) (R_epoch r) (R_messages r) (<[a_ID a := a]> (R_acks r)) (R_purges r)
    (R_charge r) n (R_messageSeq r) (<[a_ID a := n]> (R_ackSeq r))
    (bindTag (R_tags r) (a_MessageID a) (a_RecipientTag a)).

Definition dropMessage (id : string) : RefStore → RefStore :=
  retain (λ i _, negb (bool_decide (i = id))) (λ _ _, true).

Definition dropAck (id : string) : RefStore → RefStore :=
  retain (λ _ _, true) (λ i _, negb (bool_decide (i = id))).

(** ** The reference operations *)

Definition live_message (now : Time) (_ : string) (e : MessageEnvelope) : bool :=
  After (m_ExpiresAt e) now.
Definition live_ack (now : Time) (_ : string) (a : AckRecord) : bool :=
  After (a_ExpiresAt a) now.
Definition live_purge (now : Time) (_ : string) (p : PurgeRecord) : bool :=
  After (p_ExpiresAt p) now.

Definition spec_expire (now : Time) (r : RefStore) : RefStore :=
  R_with_purges (keep (live_purge now) (R_purges r))
    (retain (live_message now) (live_ack now) r).

(** The owner's messages, and every ack naming one of them. *)
Definition owned (h : string) (_ : string) (e : MessageEnvelope) : bool :=
  negb (is_empty h) && bool_decide (purgeHashOf e = h).

Definition ownedAck (h : string) (ms : gmap string MessageEnvelope) (_ : string) (a : AckRecord)
  : bool :=
  match ms !! a_MessageID a with Some e => owned h "" e | None => false end.

Definition spec_purge (h : string) (r : RefStore) : (Z * Z) * RefStore :=
  ((Z.of_nat (map_count (owned h) (R_messages r)),
    Z.of_nat (map_count (ownedAck h (R_messages r)) (R_acks r))),
   retain (λ i e, negb (owned h i e)) (λ i a, negb (ownedAck h (R_messages r) i a)) r).

Definition spec_storePurge (p : PurgeRecord) (r : RefStore) : RefStore :=
  if negb (present (R_purges r) (p_PurgeHash p)) && (MaxPurges (R_cfg r) <=? map_len (R_purges r))
  then r else R_with_purges (<[p_PurgeHash p := p]> (R_purges r)) r.

Definition spec_purged (r : RefStore) (e : MessageEnvelope) (now : Time) : bool :=
  negb (is_empty (purgeHashOf e)) &&
  match R_purges r !! purgeHashOf e with Some p => After (p_ExpiresAt p) now | None => false end.

(** Some ack held for the message is terminal. *)
Definition spec_terminal (r : RefStore) (messageID : string) : bool :=
  (0 <? Z.of_nat (map_count (λ k a, naming messageID k a && deletesQueuedMessage (a_Type a))
                    (R_acks r))).

Definition spec_insertAckWithin (r : RefStore) (a : AckRecord) (now : Time) (capacity : Z)
  : option QueueError * RefStore :=
  if present (R_acks r) (a_ID a) then (Some ErrDuplicate, r) else
  if capacity <=? map_len (R_acks r) then (Some ErrQueueFull, r) else
  let a := if IsZero (a_ExpiresAt a)
           then with_a_ExpiresAt (Add now (DefaultTTL (R_cfg r))) a else a in
  if negb (After (a_ExpiresAt a) now) then (Some ErrExpired, r) else
  (None, insertAckRecord r a).

Definition spec_AddMessage (r : RefStore) (now : Time) (envelope : MessageEnvelope)
    (nodeID : string) (grant : Grant) : (AckRecord * option QueueError) * RefStore :=
  let maxExpiry := Add now (lowerOfDuration (MaxTTL (R_cfg r)) (g_Retention grant)) in
  match checkEnvelope (R_cfg r) now maxExpiry (trimEnvelope envelope) with
  | inl err => ((zeroAckRecord, Some err), r)
  | inr e =>
      if present (R_messages r) (m_ID e)
      then ((nodeReceivedAck e nodeID now, Some ErrDuplicate), r) else
      if spec_purged r e now then ((zeroAckRecord, Some ErrDuplicate), r) else
      if lowerOf (MaxPerPair (R_cfg r)) (g_MaxPerPair grant)
         <=? Z.of_nat (laneCount (R_messages r) (laneOf e))
      then ((zeroAckRecord, Some ErrPairQuotaFull), r) else
      if negb (g_Credential grant =? 0)
         && (lowerOf (MaxMessages (R_cfg r)) (g_Slots grant)
             <=? Z.of_nat (chargedCount (R_charge r) (g_Credential grant)))
      then ((zeroAckRecord, Some ErrSlotsFull), r) else
      if MaxMessages (R_cfg r) <=? map_len (R_messages r)
      then ((zeroAckRecord, Some ErrQueueFull), r) else
      match spec_insertAckWithin r (nodeReceivedAck e nodeID now) now (MaxAcks (R_cfg r)) with
      | (Some err, r) => ((zeroAckRecord, Some err), r)
      | (None, r) => ((nodeReceivedAck e nodeID now, None), insertMessage r e (g_Credential grant))
      end
  end.

Definition spec_postAck (r : RefStore) (now : Time) (a : AckRecord) : option QueueError * RefStore :=
  match spec_insertAckWithin r a now (MaxAcks (R_cfg r) - MaxMessages (R_cfg r)) with
  | (Some err, r) => (Some err, r)
  | (None, r) => (None, if deletesQueuedMessage (a_Type a) then dropMessage (a_MessageID a) r else r)
  end.

Definition spec_preparedAck (c : StoreConfig) (now : Time) (a : AckRecord) (nodeID : string)
    (grant : Grant) : AckRecord :=
  let maxExpiry := Add now (lowerOfDuration (MaxTTL c) (g_Retention grant)) in
  let a := ackTimes c now maxExpiry (trimAck a) in
  if is_empty (a_NodeID a) then with_a_NodeID nodeID a else a.

Definition spec_AddAck (r : RefStore) (now : Time) (a : AckRecord) (nodeID : string)
    (grant : Grant) (auth : Auth) : option QueueError * RefStore :=
  if ackIncomplete (trimAck a) then (Some ErrInvalid, r) else
  let a := spec_preparedAck (R_cfg r) now a nodeID grant in
  if negb (After (a_ExpiresAt a) now) then (Some ErrExpired, r) else
  match R_tags r !! a_MessageID a with
  | Some tag => if permits auth tag then spec_postAck r now (with_a_RecipientTag tag a)
                else (Some ErrNotOwned, r)
  | None => spec_postAck r now (with_a_RecipientTag "" a)
  end.

Definition spec_importMessage (r : RefStore) (now : Time) (envelope : MessageEnvelope)
  : option QueueError * RefStore :=
  match checkEnvelope (R_cfg r) now (Add now (MaxTTL (R_cfg r))) (trimImportedEnvelope envelope) with
  | inl err => (Some err, r)
  | inr e =>
      if present (R_messages r) (m_ID e) then (Some ErrDuplicate, r) else
      if spec_purged r e now then (Some ErrDuplicate, r) else
      if spec_terminal r (m_ID e) then (Some ErrDuplicate, r) else
      if MaxMessages (R_cfg r) <=? map_len (R_messages r) then (Some ErrQueueFull, r) else
      (None, insertMessage r e 0)
  end.

Definition spec_importAck (r : RefStore) (now : Time) (a : AckRecord) : option QueueError * RefStore :=
  if ackIncomplete (trimImportedAck a) then (Some ErrInvalid, r) else
  let a := ackTimes (R_cfg r) now (Add now (MaxTTL (R_cfg r))) (trimImportedAck a) in
  if negb (After (a_ExpiresAt a) now) then (Some ErrExpired, r) else spec_postAck r now a.

Definition tally_message (res : ImportResult) (err : option QueueError) : ImportResult :=
  match err with
  | None => mkImportResult (AcceptedMessages res + 1) (DuplicateMessages res) (AcceptedAcks res)
              (DuplicateAcks res) (Rejected res)
  | Some ErrDuplicate => mkImportResult (AcceptedMessages res) (DuplicateMessages res + 1)
              (AcceptedAcks res) (DuplicateAcks res) (Rejected res)
  | Some _ => mkImportResult (AcceptedMessages res) (DuplicateMessages res) (AcceptedAcks res)
              (DuplicateAcks res) (Rejected res + 1)
  end.

Definition tally_ack (res : ImportResult) (err : option QueueError) : ImportResult :=
  match err with
  | None => mkImportResult (AcceptedMessages res) (DuplicateMessages res) (AcceptedAcks res + 1)
              (DuplicateAcks res) (Rejected res)
  | Some ErrDuplicate => mkImportResult (AcceptedMessages res) (DuplicateMessages res)
              (AcceptedAcks res) (DuplicateAcks res + 1) (Rejected res)
  | Some _ => mkImportResult (AcceptedMessages res) (DuplicateMessages res) (AcceptedAcks res)
              (DuplicateAcks res) (Rejected res + 1)
  end.

Definition spec_Import (r : RefStore) (now : Time) (p : SyncPayload) : ImportResult * RefStore :=
  let st := foldl (λ '(res, r) (q : PurgeRecord),
      if is_empty (p_PurgeHash q) || negb (After (p_ExpiresAt q) now)
      then (mkImportResult (AcceptedMessages res) (DuplicateMessages res) (AcceptedAcks res)
              (DuplicateAcks res) (Rejected res + 1), r)
      else (res, (spec_purge (p_PurgeHash q) (spec_storePurge q r)).2))
    (mkImportResult 0 0 0 0 0, r) (y_Purges p) in
  let st := foldl (λ '(res, r) e, let '(err, r) := spec_importMessage r now e in
                                   (tally_message res err, r)) st (y_Messages p) in
  foldl (λ '(res, r) a, let '(err, r) := spec_importAck r now a in
                        (tally_ack res err, r)) st (y_Acks p).

(** ** Algebra of [retain] *)

Lemma retain_ext kM kM' kA kA' r :
  (∀ i e, R_messages r !! i = Some e → kM i e = kM' i e) →
  (∀ i a, R_acks r !! i = Some a → kA i a = kA' i a) →
  retain kM kA r = retain kM' kA' r.
Proof.
  intros HM HA. unfold retain. by rewrite (keep_ext kM kM'), (keep_ext kA kA').
Qed.

Lemma present_keep {A} (f : string → A → bool) m i :
  present (keep f m) i = true → present m i = true.
Proof.
  unfold present. rewrite !bool_decide_eq_true. intros [v Hv].
  apply keep_Some in Hv as [? _]. eauto.
Qed.

Lemma named_pos ms ks i :
  named ms ks i = true ↔
  is_Some (ms !! i) ∨ ∃ k a, ks !! k = Some a ∧ a_MessageID a = i.
Proof.
  unfold named, recordsNaming. rewrite negb_true_iff, bool_decide_eq_false.
  split.
  - intros Hn. destruct (decide (is_Some (ms !! i))); [by left|right].
    destruct (map_count_pos_inv (naming i) ks) as (k & a & Ha & Hna); [lia|].
    unfold naming in Hna. reflect_bools. eauto.
  - intros [Hs|(k & a & Ha & Hi)].
    + rewrite decide_True by done. lia.
    + pose proof (map_count_pos (naming i) ks k a Ha) as Hp. unfold naming in Hp at 1.
      rewrite bool_decide_eq_true_2 in Hp by done. specialize (Hp eq_refl). lia.
Qed.

Lemma named_keep f g ms ks i :
  named (keep f ms) (keep g ks) i = true → named ms ks i = true.
Proof.
  rewrite !named_pos. intros [[e He]|(k & a & Ha & Hi)].
  - apply keep_Some in He as [? _]. eauto.
  - apply keep_Some in Ha as [? _]. eauto.
Qed.

(** [b1] is implied by [b2]: keeping by both is keeping by the stronger. *)
Lemma andb_absorb (b1 b2 : bool) : (b2 = true → b1 = true) → b1 && b2 = b2.
Proof. destruct b1, b2; auto. Qed.

Lemma retain_retain kM kM' kA kA' r :
  retain kM kA (retain kM' kA' r) =
  retain (λ i e, kM' i e && kM i e) (λ i a, kA' i a && kA i a) r.
Proof.
  unfold retain. simpl. rewrite !keep_keep, <-!(keep_keep kM kM'), <-!(keep_keep kA kA').
  f_equal; apply keep_ext; intros i v _; apply andb_absorb;
    (apply present_keep || apply named_keep).
Qed.

Lemma retain_cfg kM kA r : R_cfg (retain kM kA r) = R_cfg r.
Proof. done. Qed.

(** Keeping everything changes nothing of a store in lock-step. *)
Lemma tags_named s i b :
  Inv s → messageTags s !! i = Some b → named (messages s) (acks s) i = true.
Proof.
  intros HI Hb. pose proof (inv_messageTags s HI i) as Ht. rewrite lookup_fmap, Hb in Ht.
  unfold named. rewrite negb_true_iff, bool_decide_eq_false. intros Hz. by rewrite Hz in Ht.
Qed.

Lemma retain_all s kM kA :
  Inv s →
  (∀ i e, messages s !! i = Some e → kM i e = true) →
  (∀ i a, acks s !! i = Some a → kA i a = true) →
  retain kM kA (abs s) = abs s.
Proof.
  intros HI HM HA. unfold retain, abs. simpl.
  rewrite (keep_all kM), (keep_all kA) by done.
  f_equal; apply keep_all; intros i v Hi; unfold present; rewrite ?bool_decide_eq_true.
  - by apply (inv_messageCredential s HI) in Hi as [_ ?].
  - apply elem_of_dom. rewrite <-(inv_messageSeq s HI). apply elem_of_dom. eauto.
  - apply elem_of_dom. rewrite <-(inv_ackSeq s HI). apply elem_of_dom. eauto.
  - apply lookup_fmap_Some in Hi as (b & _ & Hb). by eapply tags_named.
Qed.

(** ** The writers, through the abstraction *)

Lemma bind_tags tags id t :
  id ≠ ""%string → b_tag <$> bindMessageTagLocked tags id t = bindTag (b_tag <$> tags) id t.
Proof.
  intros Hid. unfold bindMessageTagLocked, bindTag, is_empty.
  rewrite (bool_decide_eq_false_2 (id = _)) by done.
  rewrite fmap_insert, lookup_fmap. simpl. f_equal. by destruct (tags !! id).
Qed.

Lemma abs_addMessageLocked s e c :
  m_ID e ≠ ""%string → abs (addMessageLocked s e c) = insertMessage (abs s) e c.
Proof.
  intros Hid. unfold addMessageLocked, insertMessage, abs. simpl.
  destruct (c =? 0); simpl; by rewrite bind_tags.
Qed.

Lemma abs_insertAck s a :
  a_MessageID a ≠ ""%string → abs (insertAck s a) = insertAckRecord (abs s) a.
Proof. intros Hid. unfold insertAck, insertAckRecord, abs. simpl. by rewrite bind_tags. Qed.

(** Releasing records drops exactly the tags of messages nothing names any more. *)
Lemma tags_kept s s' :
  Inv s → Inv s' →
  (∀ i b', messageTags s' !! i = Some b' → ∃ b, messageTags s !! i = Some b ∧ b_tag b' = b_tag b) →
  b_tag <$> messageTags s' =
  keep (λ i _, named (messages s') (acks s') i) (b_tag <$> messageTags s).
Proof.
  intros HI HI' Hsub. apply keep_part.
  - apply map_subseteq_spec. intros i t. rewrite !lookup_fmap_Some.
    intros (b' & <- & (b & Hb & ->)%Hsub). eauto.
  - intros i t _. rewrite lookup_fmap, fmap_is_Some. split.
    + unfold named. rewrite negb_true_iff, bool_decide_eq_false. intros Hn.
      pose proof (inv_messageTags s' HI' i) as Ht. rewrite lookup_fmap in Ht.
      destruct (messageTags s' !! i); [eauto|]. by destruct (recordsNaming _ _ i).
    + intros [b Hb]. by eapply tags_named.
Qed.

Lemma dom_present {A B} (m : gmap string A) (m' : gmap string B) i :
  dom m = dom m' → is_Some (m !! i) ↔ present m' i = true.
Proof.
  intros Hd. unfold present. by rewrite bool_decide_eq_true, <-!elem_of_dom, Hd.
Qed.

(** A step of the store that deletes records and keeps its bookkeeping in lock-step is
    a [retain]. *)
Lemma abs_retain s s' kM kA :
  Inv s → Inv s' → cfg s' = cfg s → epoch s' = epoch s → purges s' = purges s →
  storeSeq s' = storeSeq s →
  messages s' = keep kM (messages s) → acks s' = keep kA (acks s) →
  messageSeq s' ⊆ messageSeq s → ackSeq s' ⊆ ackSeq s →
  messageCredential s' ⊆ messageCredential s →
  (∀ i, is_Some (messageCredential s !! i) → is_Some (messages s' !! i) →
        is_Some (messageCredential s' !! i)) →
  (∀ i b', messageTags s' !! i = Some b' → ∃ b, messageTags s !! i = Some b ∧ b_tag b' = b_tag b) →
  abs s' = retain kM kA (abs s).
Proof.
  intros HI HI' Hc He Hp Hs Hm Ha Hms Has Hmc Hcharged Htags.
  unfold abs, retain. simpl. rewrite <-Hm, <-Ha, Hc, He, Hp, Hs.
  rewrite <-(tags_kept s s') by done. f_equal; apply keep_part; try done.
  - intros i c Hi. unfold present. rewrite bool_decide_eq_true. split; [eauto|].
    by intros [? [_ ?]%(inv_messageCredential s' HI')].
  - intros i n _. symmetry. apply dom_present, (inv_messageSeq s' HI').
  - intros i n _. symmetry. apply dom_present, (inv_ackSeq s' HI').
Qed.

Lemma abs_deleteMessageLocked s id :
  Inv s → abs (deleteMessageLocked s id) = dropMessage id (abs s).
Proof.
  intros HI. pose proof (deleteMessageLocked_inv s id HI) as HI'.
  destruct (messages s !! id) as [e|] eqn:He.
  2:{ unfold deleteMessageLocked. rewrite He. symmetry. apply retain_all; try done.
      intros i e Hi. rewrite bool_decide_eq_false_2; [done|congruence]. }
  apply abs_retain; try done; unfold deleteMessageLocked; rewrite He;
    simpl; destruct (messageCredential s !! id) as [c|] eqn:Hc; simpl; try done.
  all: try apply keep_delete.
  all: try (symmetry; by apply keep_all).
  all: try apply delete_subseteq.
  all: try (intros i b'; apply release_tag_lookup).
  intros i [c' Hc'] [e' [Hne _]%lookup_delete_Some]. rewrite lookup_delete_ne by done. eauto.
Qed.

Lemma abs_deleteAckLocked s id :
  Inv s → abs (deleteAckLocked s id) = dropAck id (abs s).
Proof.
  intros HI. pose proof (deleteAckLocked_inv s id HI) as HI'.
  destruct (acks s !! id) as [a|] eqn:Ha.
  2:{ unfold deleteAckLocked. rewrite Ha. symmetry. apply retain_all; try done.
      intros i a Hi. rewrite bool_decide_eq_false_2; [done|congruence]. }
  apply abs_retain; try done; unfold deleteAckLocked; rewrite Ha; simpl; try done.
  - symmetry. by apply keep_all.
  - apply keep_delete.
  - apply delete_subseteq.
  - intros i b'. apply release_tag_lookup.
Qed.

(** ** The loops *)

Lemma abs_deleteMessages s ids :
  Inv s →
  Inv (foldl deleteMessageLocked s ids) ∧
  abs (foldl deleteMessageLocked s ids) =
  retain (λ i _, negb (bool_decide (i ∈ ids))) (λ _ _, true) (abs s).
Proof.
  revert s. induction ids as [|id ids IH]; intros s HI; simpl.
  { split; [done|]. symmetry. apply retain_all; [done| |done].
    intros i e _. done. }
  destruct (IH (deleteMessageLocked s id)) as [HI' ->]; [by apply deleteMessageLocked_inv|].
  split; [done|]. rewrite abs_deleteMessageLocked by done. unfold dropMessage.
  rewrite retain_retain. apply retain_ext; [|done]. intros i e _.
  rewrite <-negb_orb, <-bool_decide_or. f_equal. apply bool_decide_ext. set_solver.
Qed.

Lemma abs_deleteAcks s ids :
  Inv s →
  Inv (foldl deleteAckLocked s ids) ∧
  abs (foldl deleteAckLocked s ids) =
  retain (λ _ _, true) (λ i _, negb (bool_decide (i ∈ ids))) (abs s).
Proof.
  revert s. induction ids as [|id ids IH]; intros s HI; simpl.
  { split; [done|]. symmetry. apply retain_all; [done|done|].
    intros i e _. done. }
  destruct (IH (deleteAckLocked s id)) as [HI' ->]; [by apply deleteAckLocked_inv|].
  split; [done|]. rewrite abs_deleteAckLocked by done. unfold dropAck.
  rewrite retain_retain. apply retain_ext; [done|]. intros i e _.
  rewrite <-negb_orb, <-bool_decide_or. f_equal. apply bool_decide_ext. set_solver.
Qed.

Section runtime.
Context `{!GoRuntime}.

Lemma abs_sweepMessages s now :
  Inv s → abs (sweepMessages s now) = retain (live_message now) (λ _ _, true) (abs s).
Proof.
  intros HI. unfold sweepMessages.
  rewrite (foldl_filter_fst (λ e, negb (After (m_ExpiresAt e) now)) deleteMessageLocked).
  destruct (abs_deleteMessages s (filter (λ kv, negb (After (m_ExpiresAt kv.2) now) = true)
    (range (messages s))).*1 HI) as [_ ->].
  apply retain_ext; [|done]. intros i e Hi.
  exact (range_failing (λ e, After (m_ExpiresAt e) now) (messages s) i e Hi).
Qed.

Lemma abs_sweepAcks s now :
  Inv s → abs (sweepAcks s now) = retain (λ _ _, true) (live_ack now) (abs s).
Proof.
  intros HI. unfold sweepAcks.
  rewrite (foldl_filter_fst (λ e, negb (After (a_ExpiresAt e) now)) deleteAckLocked).
  destruct (abs_deleteAcks s (filter (λ kv, negb (After (a_ExpiresAt kv.2) now) = true)
    (range (acks s))).*1 HI) as [_ ->].
  apply retain_ext; [done|]. intros i e Hi.
  exact (range_failing (λ e, After (a_ExpiresAt e) now) (acks s) i e Hi).
Qed.

Lemma foldl_delete_purges s (hashes : list string) :
  abs (foldl (λ s hash, with_purges (delete hash (purges s)) s) s hashes) =
  R_with_purges (keep (λ i _, negb (bool_decide (i ∈ hashes))) (purges s)) (abs s).
Proof.
  revert s. induction hashes as [|h hashes IH]; intros s; simpl.
  { unfold R_with_purges. rewrite keep_all; [done|].
    intros i p _. done. }
  rewrite IH. unfold R_with_purges, abs. simpl. f_equal.
  rewrite keep_delete, keep_keep. apply keep_ext. intros i p _.
  rewrite <-negb_orb, <-bool_decide_or. f_equal. apply bool_decide_ext. set_solver.
Qed.

Lemma abs_sweepPurges s now :
  abs (sweepPurges s now) = R_with_purges (keep (live_purge now) (purges s)) (abs s).
Proof.
  unfold sweepPurges.
  rewrite (foldl_filter_fst (λ p, negb (After (p_ExpiresAt p) now))
    (λ s hash, with_purges (delete hash (purges s)) s)), foldl_delete_purges.
  f_equal. apply keep_ext. intros i p Hi.
  exact (range_failing (λ p, After (p_ExpiresAt p) now) (purges s) i p Hi).
Qed.

Lemma abs_sweeps s now :
  Inv s → abs (sweepPurges (sweepAcks (sweepMessages s now) now) now) = spec_expire now (abs s).
Proof.
  intros HI. rewrite abs_sweepPurges. unfold spec_expire.
  assert (Inv (sweepMessages s now)) as HI' by auto with queue_inv.
  change (purges ?x) with (R_purges (abs x)).
  rewrite abs_sweepAcks, abs_sweepMessages, retain_retain by done.
  f_equal. apply retain_ext; [|done]. intros i e _. by rewrite andb_true_r.
Qed.

(** ** The indexes, read as scans *)

Lemma indexes_dom {A} index (key : A → string) m k :
  indexes index key m → k ≠ ""%string →
  dom (default ∅ (index !! k)) = dom (keep (λ _ v, bool_decide (key v = k)) m).
Proof.
  intros [Hin _] Hk. apply set_eq. intros i. rewrite !elem_of_dom, Hin.
  unfold is_Some. setoid_rewrite keep_Some. setoid_rewrite bool_decide_eq_true. naive_solver.
Qed.

Lemma indexes_size {A} index (key : A → string) m k :
  indexes index key m → k ≠ ""%string →
  size (default ∅ (index !! k)) = map_count (λ _ v, bool_decide (key v = k)) m.
Proof.
  intros Hi Hk. by rewrite <-keep_size, <-!size_dom, (indexes_dom _ _ _ _ Hi Hk).
Qed.

Lemma range_keys {A} (m : gmap string A) i : i ∈ (range m).*1 ↔ is_Some (m !! i).
Proof.
  rewrite list_elem_of_fmap. split.
  - intros ([j v] & -> & Hj%range_lookup). eauto.
  - intros [v Hv]. exists (i, v). split; [done|]. by apply range_lookup.
Qed.

Lemma range_length {A} (m : gmap string A) : length (range m).*1 = size m.
Proof. by rewrite length_fmap, range_perm, length_map_to_list. Qed.

(** [hasTerminalAckLocked] finds a terminal ack exactly when a scan of the acks would. *)
Lemma hasTerminalAck_scan s messageID :
  Inv s → hasTerminalAckLocked s messageID = spec_terminal (abs s) messageID.
Proof.
  intros HI. unfold hasTerminalAckLocked, spec_terminal.
  apply eq_true_iff_eq. rewrite existsb_exists, Z.ltb_lt. setoid_rewrite <-list_elem_of_In.
  destruct (inv_acksByMessage s HI) as [Hin _]. split.
  - intros (i & Hi & Hd). apply range_keys, Hin in Hi as (_ & a & Ha & Hm).
    rewrite Ha in Hd. simpl in Hd.
    enough (0 < map_count (λ k a, naming messageID k a && deletesQueuedMessage (a_Type a)) (acks s))%nat
      by (simpl; lia).
    eapply map_count_pos; [exact Ha|]. unfold naming. by rewrite bool_decide_eq_true_2, Hd.
  - intros Hpos. destruct (map_count_pos_inv (λ k a, naming messageID k a
      && deletesQueuedMessage (a_Type a)) (acks s)) as (i & a & Ha & Hn); [simpl in Hpos; lia|].
    unfold naming in Hn. reflect_bools. subst. exists i. rewrite Ha. split; [|done].
    apply range_keys, Hin. split; [|eauto]. by apply (inv_ack_ids s HI) in Ha as (_ & _ & ?).
Qed.

(** ** Purging an owner *)

Lemma purgeAcks_fold (st : (Z * Z) * Store) (l : list string) :
  foldl (λ '((nm, na), s) ackID, ((nm, na + 1), deleteAckLocked s ackID)) st l =
  ((st.1.1, st.1.2 + Z.of_nat (length l)), foldl deleteAckLocked st.2 l).
Proof.
  revert st. induction l as [|k l IH]; intros [[nm na] s]; simpl.
  - by rewrite Z.add_0_r.
  - rewrite IH. simpl. do 2 f_equal. lia.
Qed.

Lemma deleteMessageLocked_acksByMessage s id :
  acksByMessage (deleteMessageLocked s id) = acksByMessage s ∧
  acks (deleteMessageLocked s id) = acks s.
Proof. unfold deleteMessageLocked. repeat case_match; done. Qed.

Lemma abs_purgeMessage (st : (Z * Z) * Store) id :
  Inv st.2 → id ≠ ""%string →
  abs (purgeMessage st id).2 =
    retain (λ i _, negb (bool_decide (i = id))) (λ i a, negb (naming id i a)) (abs st.2) ∧
  (purgeMessage st id).1 =
    (st.1.1 + 1, st.1.2 + Z.of_nat (map_count (naming id) (acks st.2))).
Proof.
  destruct st as [[nm na] s]. intros HI Hid. unfold purgeMessage, ackIDsForMessageLocked.
  cbv zeta. rewrite purgeAcks_fold.
  destruct (deleteMessageLocked_acksByMessage s id) as [-> Hacks].
  assert (Inv (deleteMessageLocked s id)) as HI' by auto with queue_inv.
  simpl. split.
  - destruct (abs_deleteAcks (deleteMessageLocked s id)
      (range (default ∅ (acksByMessage s !! id))).*1 HI') as [_ ->].
    rewrite abs_deleteMessageLocked by done. unfold dropMessage. rewrite retain_retain.
    apply retain_ext; intros i v Hi; [by rewrite andb_true_r|]. simpl in Hi |- *. f_equal.
    unfold naming. apply bool_decide_ext. rewrite range_keys.
    destruct (inv_acksByMessage s HI) as [-> _]. naive_solver.
  - rewrite range_length, (indexes_size _ _ _ _ (inv_acksByMessage s HI) Hid). done.
Qed.

Lemma abs_purgeMessages (st : (Z * Z) * Store) ids :
  Inv st.2 → NoDup ids → ""%string ∉ ids →
  abs (foldl purgeMessage st ids).2 =
    retain (λ i _, negb (bool_decide (i ∈ ids)))
           (λ _ a, negb (bool_decide (a_MessageID a ∈ ids))) (abs st.2) ∧
  (foldl purgeMessage st ids).1 =
    (st.1.1 + Z.of_nat (length ids),
     st.1.2 + Z.of_nat (map_count (λ _ a, bool_decide (a_MessageID a ∈ ids)) (acks st.2))).
Proof.
  revert st. induction ids as [|id ids IH]; intros st HI Hnd Hne; simpl.
  { split; [symmetry; by apply retain_all|].
    rewrite map_count_none by done. destruct st as [[? ?] ?]. simpl. by rewrite !Z.add_0_r. }
  apply NoDup_cons in Hnd as [Hnin Hnd]. apply not_elem_of_cons in Hne as [Hid Hne].
  destruct (abs_purgeMessage st id) as [Habs Hcnt]; [done|done|].
  destruct (IH (purgeMessage st id)) as [-> ->]; [by apply purgeMessage_inv|done|done|].
  rewrite Habs, Hcnt, retain_retain. split.
  - apply retain_ext; intros i v _; unfold naming; rewrite <-negb_orb, <-bool_decide_or;
      f_equal; apply bool_decide_ext; set_solver.
  - change (acks (purgeMessage st id).2) with (R_acks (abs (purgeMessage st id).2)).
    rewrite Habs. simpl. rewrite keep_count. f_equal; [lia|].
    rewrite (map_count_split (λ _ a, bool_decide (a_MessageID a ∈ id :: ids)) (naming id)
      (λ i a, negb (naming id i a) && bool_decide (a_MessageID a ∈ ids))); [lia|].
    intros k a _. unfold naming. do 3 case_bool_decide; set_solver.
Qed.

Lemma purgeOwnerLocked_fold s h :
  purgeOwnerLocked s h =
  foldl purgeMessage ((0, 0), s) (range (default ∅ (messagesByPurge s !! h))).*1.
Proof.
  unfold purgeOwnerLocked. set (ids := default ∅ (messagesByPurge s !! h)).
  case_match eqn:Hlen; [|done]. apply Z.eqb_eq in Hlen. unfold map_len in Hlen.
  destruct (range ids).*1 eqn:Hr; [done|].
  apply (f_equal length) in Hr. rewrite range_length in Hr. simpl in Hr. lia.
Qed.

(** The index set of a hash is the set of ids a scan for the hash finds. *)
Lemma owned_index s h i e :
  Inv s → messages s !! i = Some e →
  bool_decide (i ∈ (range (default ∅ (messagesByPurge s !! h))).*1) = owned h i e.
Proof.
  intros HI He. unfold owned, is_empty. rewrite <-bool_decide_not, <-bool_decide_and.
  apply bool_decide_ext. rewrite range_keys. destruct (inv_messagesByPurge s HI) as [-> _].
  naive_solver.
Qed.

Lemma owned_index_size s h :
  Inv s → size (default ∅ (messagesByPurge s !! h)) = map_count (owned h) (messages s).
Proof.
  intros HI. rewrite <-keep_size, <-!size_dom. f_equal. apply set_eq. intros i.
  rewrite !elem_of_dom. rewrite <-range_keys. unfold is_Some. setoid_rewrite keep_Some.
  split.
  - intros Hi. pose proof Hi as Hi'. apply range_keys in Hi'.
    destruct (inv_messagesByPurge s HI) as [Hin _]. apply Hin in Hi' as (_ & e & He & _).
    exists e. split; [done|]. rewrite <-(owned_index s h i e HI He). by apply bool_decide_eq_true.
  - intros (e & He & Hown). rewrite <-(owned_index s h i e HI He) in Hown. by reflect_bools.
Qed.

Lemma abs_purgeOwnerLocked s h :
  Inv s →
  abs (purgeOwnerLocked s h).2 = (spec_purge h (abs s)).2 ∧
  (purgeOwnerLocked s h).1 = (spec_purge h (abs s)).1.
Proof.
  intros HI. rewrite purgeOwnerLocked_fold. pose proof (inv_messagesByPurge s HI) as [Hin _].
  set (ids := (range (default ∅ (messagesByPurge s !! h))).*1).
  assert (∀ i, i ∈ ids → is_Some (messages s !! i)) as Hmsg.
  { intros i (_ & e & ? & _)%range_keys%Hin. eauto. }
  assert (∀ a : AckRecord, bool_decide (a_MessageID a ∈ ids) = ownedAck h (messages s) "" a) as Hack.
  { intros a. unfold ownedAck. destruct (messages s !! a_MessageID a) as [e|] eqn:He.
    - exact (owned_index s h _ e HI He).
    - apply bool_decide_eq_false. intros [? ?]%Hmsg. congruence. }
  destruct (abs_purgeMessages ((0, 0), s) ids) as [-> ->]; [done|apply range_NoDup_fst| |].
  { intros [e He]%Hmsg. by apply (inv_message_ids s HI) in He as [_ ?]. }
  simpl. split.
  - apply retain_ext; intros i v Hi; f_equal; [by apply owned_index | apply Hack].
  - unfold ids. rewrite range_length, owned_index_size by done. rewrite !Z.add_0_l.
    do 2 f_equal. apply map_count_ext. intros i a _. apply Hack.
Qed.

(** ** Each operation, through the abstraction *)

Lemma present_lookup {A} (m : gmap string A) i :
  present m i = match m !! i with Some _ => true | None => false end.
Proof.
  unfold present. destruct (m !! i).
  - by rewrite bool_decide_eq_true_2 by eauto.
  - by rewrite bool_decide_eq_false_2 by (by intros [? ?]).
Qed.

Lemma abs_addAckWithinLocked s a now capacity :
  a_MessageID a ≠ ""%string →
  spec_insertAckWithin (abs s) a now capacity =
  ((addAckWithinLocked s a now capacity).1, abs (addAckWithinLocked s a now capacity).2).
Proof.
  intros Hm. unfold addAckWithinLocked, spec_insertAckWithin. rewrite present_lookup. simpl.
  destruct (acks s !! a_ID a); [done|]. case_match; [done|].
  fold (withDefaultExpiry s now a). case_match; [done|]. simpl.
  destruct (withDefaultExpiry_ids s now a) as (_ & Hm' & _).
  by rewrite abs_insertAck by (by rewrite Hm').
Qed.

Lemma abs_storePurgeLocked s p : abs (storePurgeLocked s p) = spec_storePurge p (abs s).
Proof.
  unfold storePurgeLocked, spec_storePurge. rewrite present_lookup. simpl.
  destruct (purges s !! p_PurgeHash p); simpl; [done|]. by case_match.
Qed.

Lemma purged_scan s e now : purged s e now = spec_purged (abs s) e now.
Proof. unfold purged, spec_purged. simpl. by destruct (is_empty (purgeHashOf e)). Qed.

Lemma abs_AddMessageWithGrant s now e nodeID grant :
  Inv s →
  spec_AddMessage (abs s) now e nodeID grant =
  ((AddMessageWithGrant s now e nodeID grant).1, abs (AddMessageWithGrant s now e nodeID grant).2).
Proof.
  intros HI. unfold AddMessageWithGrant, spec_AddMessage. simpl.
  destruct (checkEnvelope _ _ _ _) as [err|e'] eqn:Hchk; [done|].
  apply checkEnvelope_ok in Hchk as (Hid & Hne & _). rewrite <-Hid in Hne.
  rewrite present_lookup. destruct (messages s !! m_ID e'); [done|].
  rewrite <-purged_scan, (tallies_get _ _ _ (inv_pairCounts s HI)),
    (tallies_get _ _ _ (inv_credentialCounts s HI)).
  repeat (case_match; [done|]). unfold addAckLocked.
  rewrite abs_addAckWithinLocked by done.
  destruct (addAckWithinLocked _ _ _ _) as [[err|] s']; simpl; [done|].
  by rewrite abs_addMessageLocked.
Qed.

Lemma abs_postAck s now a :
  Inv s → a_ID a ≠ ""%string → a_MessageID a ≠ ""%string →
  spec_postAck (abs s) now a = ((postAck s now a).1, abs (postAck s now a).2).
Proof.
  intros HI Hid Hm. unfold postAck, spec_postAck, addExternalAckLocked.
  change (MaxAcks (R_cfg (abs s)) - MaxMessages (R_cfg (abs s))) with (externalAckCapacity s).
  rewrite abs_addAckWithinLocked by done.
  assert (externalAckCapacity s ≤ MaxAcks (cfg s)) as Hcap.
  { pose proof (inv_config s HI). unfold externalAckCapacity. lia. }
  pose proof (addAckWithinLocked_inv s a now _ HI Hid Hm Hcap) as HI'.
  destruct (acks s !! a_ID a) eqn:Ha.
  { unfold addAckWithinLocked. by rewrite Ha. }
  destruct (addAckWithinLocked _ _ _ _) as [[err|] s']; simpl in *; [done|].
  case_match; [|done]. by rewrite abs_deleteMessageLocked.
Qed.

Lemma abs_AddAckWithGrant s now a nodeID grant auth :
  Inv s →
  spec_AddAck (abs s) now a nodeID grant auth =
  ((AddAckWithGrant s now a nodeID grant auth).1,
   abs (AddAckWithGrant s now a nodeID grant auth).2).
Proof.
  intros HI. rewrite AddAckWithGrant_eq. unfold spec_AddAck.
  destruct (ackIncomplete (trimAck a)) eqn:Hinc; [done|].
  apply ackIncomplete_false in Hinc as (Hid & Hmid & _). simpl in Hid, Hmid.
  change (spec_preparedAck (R_cfg (abs s)) now a nodeID grant) with (preparedAck s now a nodeID grant).
  destruct (preparedAck_fields s now a nodeID grant) as (Hi & Hm & _).
  cbv zeta. case_match; [done|]. rewrite Hm. simpl. rewrite lookup_fmap.
  unfold recipientTagForMessageLocked.
  destruct (b_tag <$> messageTags s !! TrimSpace (a_MessageID a)); [case_match; [|done]|];
    apply abs_postAck; simpl; rewrite ?Hi, ?Hm; done.
Qed.

Lemma abs_importMessageLocked s now e :
  Inv s →
  spec_importMessage (abs s) now e =
  ((importMessageLocked s now e).1, abs (importMessageLocked s now e).2).
Proof.
  intros HI. unfold importMessageLocked, spec_importMessage. simpl.
  destruct (checkEnvelope _ _ _ _) as [err|e'] eqn:Hchk; [done|].
  apply checkEnvelope_ok in Hchk as (Hid & Hne & _). rewrite <-Hid in Hne.
  rewrite present_lookup. destruct (messages s !! m_ID e'); [done|].
  rewrite <-purged_scan, <-hasTerminalAck_scan by done.
  repeat (case_match; [done|]). simpl. by rewrite abs_addMessageLocked.
Qed.

Lemma abs_importAckLocked s now a :
  Inv s →
  spec_importAck (abs s) now a = ((importAckLocked s now a).1, abs (importAckLocked s now a).2).
Proof.
  intros HI. rewrite importAckLocked_eq. unfold spec_importAck.
  destruct (ackIncomplete (trimImportedAck a)) eqn:Hinc; [done|].
  apply ackIncomplete_false in Hinc as (Hid & Hmid & _).
  cbv zeta. simpl. case_match; [done|].
  destruct (ackTimes_ids (cfg s) now (Add now (MaxTTL (cfg s))) (trimImportedAck a)) as (Hi & Hm & _).
  apply abs_postAck; rewrite ?Hi, ?Hm; done.
Qed.

(** Two loops over one list, in step. *)
Lemma foldl_sim {A B C} (R : A → B → Prop) (f : A → C → A) (g : B → C → B) l a b :
  R a b → (∀ a b c, R a b → R (f a c) (g b c)) → R (foldl f a l) (foldl g b l).
Proof. revert a b. induction l; simpl; auto. Qed.

Lemma abs_ImportSnapshot s now p :
  Inv s →
  spec_Import (abs s) now p = ((ImportSnapshot s now p).1, abs (ImportSnapshot s now p).2).
Proof.
  intros HI. unfold ImportSnapshot, spec_Import. cbv zeta.
  set (R (x : ImportResult * Store) (y : ImportResult * RefStore) :=
    Inv x.2 ∧ y = (x.1, abs x.2)).
  match goal with |- ?y = (?x.1, abs ?x.2) => enough (R x y) by (unfold R in *; naive_solver) end.
  apply foldl_sim; [apply foldl_sim; [apply foldl_sim|]|].
  - done.
  - intros [res s'] y q [HI' ->]. unfold importPurge. simpl. case_match; [done|].
    assert (Inv (storePurgeLocked s' q)) as HI'' by auto with queue_inv.
    split; [by apply purgeOwnerLocked_inv|]. simpl.
    destruct (abs_purgeOwnerLocked (storePurgeLocked s' q) (p_PurgeHash q) HI'') as [-> _].
    by rewrite abs_storePurgeLocked.
  - intros [res s'] y e [HI' ->]. unfold importMessage. simpl.
    rewrite abs_importMessageLocked by done. pose proof (importMessageLocked_inv s' now e HI') as HI''.
    destruct (importMessageLocked s' now e) as [[[]|] s'']; done.
  - intros [res s'] y a [HI' ->]. unfold importAck. simpl.
    rewrite abs_importAckLocked by done. pose proof (importAckLocked_inv s' now a HI') as HI''.
    destruct (importAckLocked s' now a) as [[[]|] s'']; done.
Qed.
End runtime.
