(* ===== verification/QueueSteps.v ===== *)
(** * The message and ack queue: steps, reachability and the simulation

    Every operation of the store takes the store's mutex for its whole body, so a run of
    the relay's queue is a sequence of whole operations. [Op] has one constructor per
    exported operation that reads or changes the records, [exec] runs one on the code's
    store, and [spec_step] says what the reference store may answer: where the code
    ranges over a map or sorts, the reference allows every order the language allows. *)

From S2P Require Import Prelude Model Capability QueueStore QueueInv QueueSpec.

Open Scope Z_scope.

(** ** Operations *)

Inductive Op :=
  | OAddMessage (now : Time) (e : MessageEnvelope) (nodeID : string) (grant : Grant)
  | OAddAck (now : Time) (a : AckRecord) (nodeID : string) (grant : Grant) (auth : Auth)
  | OMessagesFor (now : Time) (recipient : string) (limit : Z) (auth : Auth)
  | OAcksFor (now : Time) (sender : string) (limit : Z) (auth : Auth)
  | OSnapshot (now : Time) (since limit : Z)
  | OImport (now : Time) (payload : SyncPayload)
  | OPrune (now : Time)
  | OPurge (now : Time) (purgeHash : string).

Inductive Response :=
  | RMessage (ack : AckRecord) (err : option QueueError)
  | RAck (err : option QueueError)
  | RMessages (l : list MessageEnvelope)
  | RAcks (l : list AckRecord)
  | RSnapshot (p : SyncPayload)
  | RImport (res : ImportResult)
  | RStats (st : Stats)
  | RPurged (messages acks : Z).

Definition op_now (o : Op) : Time :=
  match o with
  | OAddMessage now _ _ _ | OAddAck now _ _ _ _ | OMessagesFor now _ _ _ | OAcksFor now _ _ _
  | OSnapshot now _ _ | OImport now _ | OPrune now | OPurge now _ => now
  end.

Definition exec `{!GoRuntime} (s : Store) (o : Op) : Response * Store :=
  match o with
  | OAddMessage now e nodeID grant =>
      let '((ack, err), s) := AddMessageWithGrant s now e nodeID grant in (RMessage ack err, s)
  | OAddAck now a nodeID grant auth =>
      let '(err, s) := AddAckWithGrant s now a nodeID grant auth in (RAck err, s)
  | OMessagesFor now recipient limit auth =>
      let '(l, s) := MessagesForRecipient s now recipient limit auth in (RMessages l, s)
  | OAcksFor now sender limit auth =>
      let '(l, s) := AcksForSender s now sender limit auth in (RAcks l, s)
  | OSnapshot now since limit =>
      let '(p, s) := SnapshotSince s now since limit in (RSnapshot p, s)
  | OImport now payload =>
      let '(res, s) := ImportSnapshot s now payload in (RImport res, s)
  | OPrune now => let '(st, s) := PruneExpired s now in (RStats st, s)
  | OPurge now h => let '((nm, na), s) := PurgeOwner s now h in (RPurged nm na, s)
  end.

(** A run: the runtime may choose its orders afresh at every step. *)
Inductive steps : Store → list (Op * Response) → Store → Prop :=
  | steps_nil s : steps s [] s
  | steps_cons (rt : GoRuntime) s o tr s' :
      steps (exec s o).2 tr s' → steps s ((o, (exec s o).1) :: tr) s'.

Definition reachable (c : StoreConfig) (e : string) (s : Store) : Prop :=
  ∃ tr, steps (NewStore c e) tr s.

(** ** The reference's answers *)

(** The values of the entries that pass a test. *)
Definition candidates {A} (f : string → A → bool) (m : gmap string A) : list A :=
  (map_to_list (keep f m)).*2.

(** [out] is the first [limit] of some ordering of [l] that [less] never contradicts. *)
Definition firstOf {A} (less : A → A → bool) (limit : Z) (l out : list A) : Prop :=
  ∃ l', l' ≡ₚ l ∧ StronglySorted (λ x y, less y x = false) l' ∧ out = take (Z.to_nat limit) l'.

Definition limitOr (d limit : Z) : Z := if limit <=? 0 then d else limit.

Definition deliverable (now : Time) (recipient : string) (auth : Auth) (_ : string)
    (e : MessageEnvelope) : bool :=
  After (m_ExpiresAt e) now
  && (bool_decide (m_Recipient e = recipient) && permits auth (m_RecipientTag e)).

Definition readableAck (now : Time) (sender : string) (auth : Auth) (_ : string)
    (a : AckRecord) : bool :=
  After (a_ExpiresAt a) now
  && (bool_decide (a_Sender a = sender) && permits auth (a_SenderTag a)).

(** The records numbered above a cursor. *)
Definition above (since : Z) (_ : string) (n : Z) : bool := since <? n.

Definition spec_refs (r : RefStore) (since : Z) : list ref :=
  ((λ '(id, n), mkRef n id false) <$> map_to_list (keep (above since) (R_messageSeq r)))
  ++ ((λ '(id, n), mkRef n id true) <$> map_to_list (keep (above since) (R_ackSeq r))).

Definition pageMessages (ms : gmap string MessageEnvelope) (l : list ref) : list MessageEnvelope :=
  omap (λ x, if r_isAck x then None else ms !! r_id x) l.
Definition pageAcks (ks : gmap string AckRecord) (l : list ref) : list AckRecord :=
  omap (λ x, if r_isAck x then ks !! r_id x else None) l.

Definition spec_page (r : RefStore) (since limit : Z) (p : SyncPayload) : Prop :=
  ∃ sel, firstOf (λ x y, r_seq x <? r_seq y) limit (spec_refs r since) sel ∧
    y_NodeID p = ""%string ∧ y_Epoch p = R_epoch r ∧
    y_NextSeq p = default since (r_seq <$> last sel) ∧
    y_More p = (limit <? Z.of_nat (length (spec_refs r since))) ∧
    y_Messages p = pageMessages (R_messages r) sel ∧ y_Acks p = pageAcks (R_acks r) sel ∧
    y_Presence p = [] ∧ y_PresenceRevocations p = [] ∧
    y_Purges p ≡ₚ (map_to_list (R_purges r)).*2.

Inductive spec_step (r : RefStore) : Op → Response → RefStore → Prop :=
  | SAddMessage now e nodeID grant ack err r' :
      spec_AddMessage r now e nodeID grant = ((ack, err), r') →
      spec_step r (OAddMessage now e nodeID grant) (RMessage ack err) r'
  | SAddAck now a nodeID grant auth err r' :
      spec_AddAck r now a nodeID grant auth = (err, r') →
      spec_step r (OAddAck now a nodeID grant auth) (RAck err) r'
  | SMessagesFor_none now recipient limit auth :
      TrimSpace recipient = ""%string →
      spec_step r (OMessagesFor now recipient limit auth) (RMessages []) r
  | SMessagesFor now recipient limit auth out :
      TrimSpace recipient ≠ ""%string →
      firstOf (λ x y, Before (m_CreatedAt x) (m_CreatedAt y)) (limitOr 100 limit)
        (candidates (deliverable now (TrimSpace recipient) auth) (R_messages r)) out →
      spec_step r (OMessagesFor now recipient limit auth) (RMessages out)
        (retain (live_message now) (λ _ _, true) r)
  | SAcksFor_none now sender limit auth :
      TrimSpace sender = ""%string →
      spec_step r (OAcksFor now sender limit auth) (RAcks []) r
  | SAcksFor now sender limit auth out :
      TrimSpace sender ≠ ""%string →
      firstOf (λ x y, Before (a_CreatedAt x) (a_CreatedAt y)) (limitOr 100 limit)
        (candidates (readableAck now (TrimSpace sender) auth) (R_acks r)) out →
      spec_step r (OAcksFor now sender limit auth) (RAcks out)
        (retain (λ _ _, true) (live_ack now) r)
  | SSnapshot now since limit p :
      spec_page (spec_expire now r) since (limitOr 500 limit) p →
      spec_step r (OSnapshot now since limit) (RSnapshot p) (spec_expire now r)
  | SImport now payload res r' :
      spec_Import r now payload = (res, r') →
      spec_step r (OImport now payload) (RImport res) r'
  | SPrune now :
      let r' := spec_expire now r in
      spec_step r (OPrune now)
        (RStats (mkStats (map_len (R_messages r')) (map_len (R_acks r')) (map_len (R_purges r')))) r'
  | SPurge now h nm na r' :
      let h' := TrimSpace h in
      spec_purge h' (spec_storePurge (mkPurgeRecord h' (Add now (DefaultTTL (R_cfg r)))) r)
        = ((nm, na), r') →
      spec_step r (OPurge now h) (RPurged nm na) r'.

Inductive spec_steps : RefStore → list (Op * Response) → RefStore → Prop :=
  | spec_steps_nil r : spec_steps r [] r
  | spec_steps_cons r o resp r' tr r'' :
      spec_step r o resp r' → spec_steps r' tr r'' → spec_steps r ((o, resp) :: tr) r''.

(** ** The reading loops *)

(** One loop that deletes what is gone and collects what is wanted does both jobs of two
    loops. *)
Lemma foldl_collect {A S} (gone wanted : A → bool) (act : S → string → S)
    (l : list (string * A)) found s :
  foldl (λ '(found, s) '(id, e), if gone e then (found, act s id)
                                 else if wanted e then (found ++ [e], s) else (found, s))
    (found, s) l =
  (found ++ (filter (λ kv, negb (gone kv.2) && wanted kv.2 = true) l).*2,
   foldl (λ s '(id, e), if gone e then act s id else s) s l).
Proof.
  revert found s. induction l as [|[id e] l IH]; intros found s; simpl.
  { by rewrite app_nil_r. }
  rewrite filter_cons. simpl. destruct (gone e); simpl; [apply IH|].
  destruct (wanted e); [|apply IH]. rewrite IH. simpl. by rewrite <-app_assoc.
Qed.

Lemma take_limit {A} (limit : Z) (l : list A) :
  0 < limit →
  (if limit <? Z.of_nat (length l) then take (Z.to_nat limit) l else l) = take (Z.to_nat limit) l.
Proof. intros Hl. case_match; reflect_bools; [done|]. rewrite take_ge; [done|lia]. Qed.

Lemma limitOr_pos d limit : 0 < d → 0 < limitOr d limit.
Proof. unfold limitOr. intros. case_match; reflect_bools; lia. Qed.

(** Times order records: [Before] on a time of the record is a strict weak order, and
    so is [<] on its number. *)
Lemma Before_weak {A} (key : A → Time) : weak_order (λ x y, Before (key x) (key y)).
Proof.
  unfold weak_order, Before. split_and!; intros; rewrite ?Z.ltb_lt in *; [|lia|lia].
  apply Z.ltb_irrefl.
Qed.

Lemma seq_weak : weak_order (λ x y, r_seq x <? r_seq y).
Proof. exact (Before_weak r_seq). Qed.

Section runtime.
Context `{!GoRuntime}.

Lemma range_candidates {A} (f : A → bool) (m : gmap string A) :
  (filter (λ kv, f kv.2 = true) (range m)).*2 ≡ₚ candidates (λ _ v, f v) m.
Proof. unfold candidates. by rewrite range_perm, (keep_to_list_perm (λ _ v, f v)). Qed.

Lemma MessagesForRecipient_eq s now recipient limit auth :
  TrimSpace recipient ≠ ""%string →
  MessagesForRecipient s now recipient limit auth =
  (take (Z.to_nat (limitOr 100 limit))
     (sort_slice (λ x y, Before (m_CreatedAt x) (m_CreatedAt y))
        (filter (λ kv, deliverable now (TrimSpace recipient) auth "" kv.2 = true)
           (range (messages s))).*2),
   sweepMessages s now).
Proof.
  intros Hr. unfold MessagesForRecipient, is_empty.
  rewrite (bool_decide_eq_false_2 (TrimSpace _ = _)) by done. cbv zeta.
  rewrite (foldl_collect (λ e, negb (After (m_ExpiresAt e) now))
    (λ e, bool_decide (m_Recipient e = TrimSpace recipient) && permits auth (m_RecipientTag e))
    deleteMessageLocked).
  fold (limitOr 100 limit). rewrite take_limit by (by apply limitOr_pos).
  unfold deliverable. rewrite app_nil_l. do 4 f_equal.
  apply list_filter_iff. intros [i e]. simpl. by rewrite negb_involutive.
Qed.

Lemma AcksForSender_eq s now sender limit auth :
  TrimSpace sender ≠ ""%string →
  AcksForSender s now sender limit auth =
  (take (Z.to_nat (limitOr 100 limit))
     (sort_slice (λ x y, Before (a_CreatedAt x) (a_CreatedAt y))
        (filter (λ kv, readableAck now (TrimSpace sender) auth "" kv.2 = true)
           (range (acks s))).*2),
   sweepAcks s now).
Proof.
  intros Hr. unfold AcksForSender, is_empty.
  rewrite (bool_decide_eq_false_2 (TrimSpace _ = _)) by done. cbv zeta.
  rewrite (foldl_collect (λ e, negb (After (a_ExpiresAt e) now))
    (λ e, bool_decide (a_Sender e = TrimSpace sender) && permits auth (a_SenderTag e))
    deleteAckLocked).
  fold (limitOr 100 limit). rewrite take_limit by (by apply limitOr_pos).
  unfold readableAck. rewrite app_nil_l. do 4 f_equal.
  apply list_filter_iff. intros [i e]. simpl. by rewrite negb_involutive.
Qed.

Lemma sorted_first {A} (less : A → A → bool) limit (l l' : list A) :
  weak_order less → l ≡ₚ l' → firstOf less limit l' (take (Z.to_nat limit) (sort_slice less l)).
Proof.
  intros Hw Hp. eexists. split_and!; [|by apply sort_slice_sorted|done].
  by rewrite sort_slice_perm.
Qed.

(** ** Snapshot pages *)

Lemma foldl_refs (since : Z) (isAck : bool) (l : list (string * Z)) acc :
  foldl (λ acc '(id, n), if since <? n then acc ++ [mkRef n id isAck] else acc) acc l =
  acc ++ ((λ '(id, n), mkRef n id isAck) <$> filter (λ kv, above since kv.1 kv.2 = true) l).
Proof.
  revert acc. induction l as [|[id n] l IH]; intros acc; simpl; [by rewrite app_nil_r|].
  rewrite filter_cons, IH. simpl. unfold above. destruct (since <? n); [|done].
  simpl. by rewrite <-app_assoc.
Qed.

Lemma pendingRefs_perm s since : pendingRefs s since ≡ₚ spec_refs (abs s) since.
Proof.
  unfold pendingRefs, spec_refs. rewrite !foldl_refs, app_nil_l. simpl.
  by rewrite !range_perm, !keep_to_list_perm.
Qed.

(** A reference of the page names a record that is held. *)
Definition ref_held (s : Store) (x : ref) : Prop :=
  if r_isAck x then is_Some (acks s !! r_id x) else is_Some (messages s !! r_id x).

Lemma spec_refs_spec r since x :
  x ∈ spec_refs r since ↔
  since < r_seq x ∧
  (if r_isAck x then R_ackSeq r else R_messageSeq r) !! r_id x = Some (r_seq x).
Proof.
  unfold spec_refs. rewrite elem_of_app, !list_elem_of_fmap. split.
  - intros [([i n] & -> & [Hl Ha]%elem_of_map_to_list%keep_Some)
           |([i n] & -> & [Hl Ha]%elem_of_map_to_list%keep_Some)];
      simpl; unfold above in Ha; reflect_bools; done.
  - destruct x as [n i []]; simpl; intros [Hn Hl]; [right|left];
      exists (i, n); (split; [done|]); apply elem_of_map_to_list, keep_Some;
      split; try done; unfold above; by apply Z.ltb_lt.
Qed.

Lemma refs_held s since x : Inv s → x ∈ spec_refs (abs s) since → ref_held s x.
Proof.
  intros HI [_ Hx]%spec_refs_spec. unfold ref_held. destruct (r_isAck x).
  - apply elem_of_dom. rewrite <-(inv_ackSeq s HI). apply elem_of_dom. eauto.
  - apply elem_of_dom. rewrite <-(inv_messageSeq s HI). apply elem_of_dom. eauto.
Qed.

(** The page-building loop. *)
Lemma foldl_addToPage s (p : SyncPayload) l :
  Forall (ref_held s) l →
  foldl (addToPage s) p l =
  mkSyncPayload (y_NodeID p) (y_Epoch p) (default (y_NextSeq p) (r_seq <$> last l)) (y_More p)
    (y_Messages p ++ pageMessages (messages s) l) (y_Acks p ++ pageAcks (acks s) l)
    (y_Presence p) (y_PresenceRevocations p) (y_Purges p).
Proof.
  intros Hl. revert p. induction Hl as [|x l Hx Hl IH]; intros p; simpl.
  { rewrite !app_nil_r. by destruct p. }
  rewrite IH. unfold addToPage. rewrite last_cons. unfold ref_held in Hx.
  destruct (r_isAck x), Hx as [v ->]; simpl; rewrite <-?app_assoc; destruct (last l); done.
Qed.

Lemma SnapshotSince_page s now since limit :
  Inv s →
  let '(p, s') := SnapshotSince s now since limit in
  abs s' = spec_expire now (abs s) ∧ spec_page (abs s') since (limitOr 500 limit) p.
Proof.
  intros HI. unfold SnapshotSince. fold (limitOr 500 limit).
  set (s' := sweepPurges (sweepAcks (sweepMessages s now) now) now).
  assert (Inv s') as HI' by (unfold s'; auto with queue_inv).
  split; [by apply abs_sweeps|]. rewrite take_limit by (by apply limitOr_pos).
  set (pending := sort_slice _ (pendingRefs s' since)).
  exists (take (Z.to_nat (limitOr 500 limit)) pending).
  rewrite foldl_addToPage.
  - simpl. split_and!; try done; [apply sorted_first; [apply seq_weak|apply pendingRefs_perm]| |].
    + unfold pending. by rewrite sort_slice_perm, pendingRefs_perm.
    + by rewrite range_perm.
  - apply Forall_take. unfold pending. rewrite sort_slice_perm, pendingRefs_perm.
    apply Forall_forall. intros x. by apply refs_held.
Qed.

(** ** One step of the code is one step of the reference *)

Lemma exec_inv s o : Inv s → Inv (exec s o).2.
Proof.
  intros HI. destruct o; simpl.
  - pose proof (AddMessageWithGrant_inv s now e nodeID grant HI). by repeat case_match.
  - pose proof (AddAckWithGrant_inv s now a nodeID grant auth HI). by repeat case_match.
  - pose proof (MessagesForRecipient_inv s now recipient limit auth HI). by repeat case_match.
  - pose proof (AcksForSender_inv s now sender limit auth HI). by repeat case_match.
  - auto with queue_inv.
  - pose proof (ImportSnapshot_inv s now payload HI). by repeat case_match.
  - auto with queue_inv.
  - unfold PurgeOwner. cbv zeta.
    match goal with |- context [purgeOwnerLocked ?x ?h] =>
      assert (Inv (purgeOwnerLocked x h).2) as HI' by auto with queue_inv end.
    by repeat case_match.
Qed.

Lemma exec_spec_step s o : Inv s → spec_step (abs s) o (exec s o).1 (abs (exec s o).2).
Proof.
  intros HI. destruct o; unfold exec.
  - pose proof (abs_AddMessageWithGrant s now e nodeID grant HI) as H0.
    destruct (AddMessageWithGrant _ _ _ _ _) as [[ack err] s']. by constructor.
  - pose proof (abs_AddAckWithGrant s now a nodeID grant auth HI) as H0.
    destruct (AddAckWithGrant _ _ _ _ _ _) as [err s']. by constructor.
  - destruct (decide (TrimSpace recipient = ""%string)) as [Hr|Hr].
    + unfold MessagesForRecipient, is_empty. rewrite Hr. by constructor.
    + rewrite MessagesForRecipient_eq by done. simpl. rewrite abs_sweepMessages by done.
      constructor; [done|]. apply sorted_first; [apply (Before_weak m_CreatedAt)|].
      apply (range_candidates (deliverable now (TrimSpace recipient) auth "")).
  - destruct (decide (TrimSpace sender = ""%string)) as [Hr|Hr].
    + unfold AcksForSender, is_empty. rewrite Hr. by constructor.
    + rewrite AcksForSender_eq by done. simpl. rewrite abs_sweepAcks by done.
      constructor; [done|]. apply sorted_first; [apply (Before_weak a_CreatedAt)|].
      apply (range_candidates (readableAck now (TrimSpace sender) auth "")).
  - pose proof (SnapshotSince_page s now since limit HI) as H0.
    destruct (SnapshotSince _ _ _ _) as [p s']. destruct H0 as [Habs Hp].
    simpl. rewrite Habs in *. by constructor.
  - pose proof (abs_ImportSnapshot s now payload HI) as H0.
    destruct (ImportSnapshot _ _ _) as [res s']. by constructor.
  - simpl. rewrite abs_sweeps by done.
    change (statsLocked ?x) with (mkStats (map_len (R_messages (abs x)))
      (map_len (R_acks (abs x))) (map_len (R_purges (abs x)))).
    rewrite abs_sweeps by done. constructor.
  - unfold PurgeOwner. cbv zeta.
    set (s1 := storePurgeLocked s _). assert (Inv s1) as HI1 by (unfold s1; auto with queue_inv).
    destruct (abs_purgeOwnerLocked s1 (TrimSpace purgeHash) HI1) as [Habs Hcnt].
    destruct (purgeOwnerLocked s1 _) as [[nm na] s']. constructor.
    change (DefaultTTL (R_cfg (abs s))) with (DefaultTTL (cfg s)).
    rewrite <-abs_storePurgeLocked. fold s1. cbn [fst snd] in *.
    by rewrite Habs, Hcnt, <-surjective_pairing.
Qed.
End runtime.

Lemma steps_inv s tr s' : steps s tr s' → Inv s → Inv s'.
Proof. induction 1; [done|]. intros HI. apply IHsteps. by apply exec_inv. Qed.

Lemma reachable_inv c e s : MaxMessages c < 2 ^ 62 → reachable c e s → Inv s.
Proof. intros Hc [tr Htr]. eapply steps_inv; [exact Htr|]. by apply NewStore_inv. Qed.

(** ** The reference over runs *)

(** A loop of an import, with a property of the store it keeps. *)
Lemma spec_Import_inv (P : RefStore → Prop) r now p :
  (∀ r q, q ∈ y_Purges p → now < p_ExpiresAt q →
          P r → P (spec_purge (p_PurgeHash q) (spec_storePurge q r)).2) →
  (∀ r e, P r → P (spec_importMessage r now e).2) →
  (∀ r a, P r → P (spec_importAck r now a).2) →
  P r → P (spec_Import r now p).2.
Proof.
  intros Hq He Ha HP. unfold spec_Import. cbv zeta.
  apply (foldl_inv (λ st, P st.2)); [apply (foldl_inv (λ st, P st.2));
    [apply (foldl_inv (λ st, P st.2))|]|]; [done| | |].
  - intros [res r'] q Hin HP'. simpl. case_match eqn:Hb; [done|]. reflect_bools. by apply Hq.
  - intros [res r'] e _ HP'. specialize (He r' e HP'). simpl. by destruct (spec_importMessage _ _ _).
  - intros [res r'] a _ HP'. specialize (Ha r' a HP'). simpl. by destruct (spec_importAck _ _ _).
Qed.

(** No step changes the caps. *)
Lemma spec_insertAckWithin_cfg r a now cap : R_cfg (spec_insertAckWithin r a now cap).2 = R_cfg r.
Proof. unfold spec_insertAckWithin. by repeat (case_match; [done|]). Qed.

Lemma spec_postAck_cfg r now a : R_cfg (spec_postAck r now a).2 = R_cfg r.
Proof.
  unfold spec_postAck.
  pose proof (spec_insertAckWithin_cfg r a now (MaxAcks (R_cfg r) - MaxMessages (R_cfg r))) as Hc.
  destruct (spec_insertAckWithin _ _ _ _) as [[err|] r']; [done|]. by case_match.
Qed.

Lemma spec_importMessage_cfg r now e : R_cfg (spec_importMessage r now e).2 = R_cfg r.
Proof. unfold spec_importMessage. by repeat (case_match; try done). Qed.

Lemma spec_importAck_cfg r now a : R_cfg (spec_importAck r now a).2 = R_cfg r.
Proof. unfold spec_importAck. do 2 (case_match; [done|]). apply spec_postAck_cfg. Qed.

Lemma spec_storePurge_cfg p r : R_cfg (spec_storePurge p r) = R_cfg r.
Proof. unfold spec_storePurge. by case_match. Qed.

Lemma spec_AddMessage_cfg r now e nodeID grant :
  R_cfg (spec_AddMessage r now e nodeID grant).2 = R_cfg r.
Proof.
  unfold spec_AddMessage. destruct (checkEnvelope _ _ _ _) as [|m]; [done|].
  destruct (present _ _); [done|]. do 4 (case_match; [done|]).
  pose proof (spec_insertAckWithin_cfg r (nodeReceivedAck m nodeID now) now (MaxAcks (R_cfg r))) as Hc.
  by destruct (spec_insertAckWithin _ _ _ _) as [[err|] r'].
Qed.

Lemma spec_AddAck_cfg r now a nodeID grant auth :
  R_cfg (spec_AddAck r now a nodeID grant auth).2 = R_cfg r.
Proof.
  unfold spec_AddAck. destruct (ackIncomplete _); [done|]. cbv zeta. destruct (negb _); [done|].
  destruct (R_tags r !! _); [destruct (permits _ _); [|done]|]; apply spec_postAck_cfg.
Qed.

Lemma spec_Import_cfg r now p : R_cfg (spec_Import r now p).2 = R_cfg r.
Proof.
  apply (spec_Import_inv (λ r', R_cfg r' = R_cfg r)); [| | |done].
  - intros r' q _ _ <-. apply spec_storePurge_cfg.
  - intros r' e <-. apply spec_importMessage_cfg.
  - intros r' a <-. apply spec_importAck_cfg.
Qed.

Lemma spec_step_cfg r o resp r' : spec_step r o resp r' → R_cfg r' = R_cfg r.
Proof.
  destruct 1 as [?????? ? E|??????? E| | | | | | ???? E| |???? ? ? E]; try done.
  - rewrite <-(spec_AddMessage_cfg r now e nodeID grant). by rewrite E.
  - rewrite <-(spec_AddAck_cfg r now a nodeID grant auth). by rewrite E.
  - rewrite <-(spec_Import_cfg r now payload). by rewrite E.
  - rewrite <-(spec_storePurge_cfg (mkPurgeRecord h' (Add now (DefaultTTL (R_cfg r)))) r).
    apply (f_equal (λ x, R_cfg x.2)) in E. done.
Qed.

(** What the reference keeps over its steps, the code keeps over a run. *)
Lemma steps_spec_inv (P : RefStore → Prop) (ok : Op → Prop) s tr s' :
  (∀ r o resp r', spec_step r o resp r' → ok o → P r → P r') →
  steps s tr s' → Inv s → P (abs s) → Forall (λ x, ok x.1) tr → P (abs s').
Proof.
  intros Hstep Hsteps. induction Hsteps as [|rt s o tr s' _ IH]; intros HI HP Hok; [done|].
  apply Forall_cons in Hok as [Ho Hok]. apply IH; [by apply exec_inv| |done].
  eapply Hstep; [by apply exec_spec_step|done|done].
Qed.

(** ** Runs that can be evaluated *)

Fixpoint run `{!GoRuntime} (s : Store) (ops : list Op) : list (Op * Response) * Store :=
  match ops with
  | [] => ([], s)
  | o :: ops =>
      let rest := run (exec s o).2 ops in
      ((o, (exec s o).1) :: rest.1, rest.2)
  end.

Lemma run_steps `{!GoRuntime} s ops : steps s (run s ops).1 (run s ops).2.
Proof. revert s. induction ops; intros s; simpl; econstructor; eauto. Qed.

Lemma run_inv `{!GoRuntime} s ops : Inv s → Inv (run s ops).2.
Proof. eapply steps_inv, run_steps. Qed.

#[export] Hint Resolve exec_inv run_inv : queue_inv.

(** ** Small stores the witnesses run on *)

Module Sample.
Definition T0 : Time := 1000.
Definition config : StoreConfig := mkStoreConfig 2 4 2 2 100 (72 * Hour) (24 * Hour).
Definition empty : Store := NewStore config "epoch".
Definition envelope (id tag hash : string) : MessageEnvelope :=
  mkMessageEnvelope id "alice" "bob" 0 0 "payload" "" "" ""
    (if is_empty hash then ∅ else {["purgeHash" := hash]}) tag "".
Definition ack (id messageID : string) (t : AckType) (expires : Time) : AckRecord :=
  mkAckRecord id messageID "alice" "bob" t 0 expires "" "" "" "" "".
Definition post (now : Time) (id tag hash : string) : Op :=
  OAddMessage now (envelope id tag hash) "node" zeroGrant.
(** One message held, tagged ["tagV"] and carrying the purge hash ["hash"]. *)
Definition one : Store := (run empty [post T0 "m1" "tagV" "hash"]).2.

Lemma empty_inv : Inv empty.
Proof. by apply NewStore_inv. Qed.

Lemma one_inv : Inv one.
Proof. apply run_inv, empty_inv. Qed.
End Sample.
