(* ===== verification/QueueCharge.v ===== *)
(** * What a message is charged to

    Every message of the queue is charged to the credential of the request that posted it,
    for as long as it is there; what came over the mesh is charged to nobody. *)

From Stdlib Require Import Strings.String.
From S2P Require Import Prelude Model Capability QueueStore QueueInv QueueSpec QueueSteps.

Open Scope Z_scope.

(** The credential a message is charged to, 0 where it is none. *)
Definition chargeOf (s : Store) (id : string) : Z := default 0 (messageCredential s !! id).

Definition R_chargeOf (r : RefStore) (id : string) : Z := default 0 (R_charge r !! id).

(** Only messages that are there are charged. *)
Definition chargesHeld (r : RefStore) : Prop := ∀ id, is_Some (R_charge r !! id) → is_Some (R_messages r !! id).

Lemma abs_chargesHeld s : Inv s → chargesHeld (abs s).
Proof. intros HI id [k Hk]. by apply (inv_messageCredential _ HI) in Hk as [_ ?]. Qed.

(** From one store to another a message stays with its charge, or is new with a charge of [K]. *)
Definition charging (K : Z → Prop) (r r' : RefStore) : Prop :=
  ∀ id, is_Some (R_messages r' !! id) →
    (is_Some (R_messages r !! id) ∧ R_chargeOf r' id = R_chargeOf r id) ∨ K (R_chargeOf r' id).

Lemma charging_refl K r : charging K r r.
Proof. intros id Hid. by left. Qed.

Lemma charging_trans K r1 r2 r3 : charging K r1 r2 → charging K r2 r3 → charging K r1 r3.
Proof.
  intros H12 H23 id [[Hid Heq]|HK]%H23; [|by right]. rewrite Heq.
  destruct (H12 id Hid) as [[Hid' Heq']|HK]; [left; split; [done|congruence]|by right].
Qed.

Lemma retain_charging K kM kA r : charging K r (retain kM kA r).
Proof.
  intros id [m Hm]. left. cbn in Hm. pose proof Hm as Hk. apply keep_Some in Hk as [Hk _].
  split; [by exists m|]. unfold R_chargeOf. cbn [retain R_charge]. f_equal. rewrite keep_lookup.
  destruct (R_charge r !! id) as [k|]; [|done]. cbn. unfold present.
  by rewrite bool_decide_eq_true_2 by (by exists m).
Qed.

Lemma retain_chargesHeld kM kA r : chargesHeld r → chargesHeld (retain kM kA r).
Proof.
  intros _ id [k Hk]. cbn in Hk. apply keep_Some in Hk as [_ Hk]. by apply bool_decide_eq_true in Hk.
Qed.

(** Inserting a message charges it, and nothing else. *)
Lemma insertMessage_charging r e k :
  chargesHeld r → R_messages r !! m_ID e = None →
  charging (λ k', k' = k) r (insertMessage r e k) ∧ chargesHeld (insertMessage r e k).
Proof.
  intros Hh Hnone. assert (R_charge r !! m_ID e = None) as Hc.
  { apply eq_None_not_Some. intros Hc%Hh. by rewrite Hnone in Hc; destruct Hc. }
  split.
  - intros id Hid. cbn in Hid. unfold R_chargeOf. cbn [insertMessage R_charge].
    destruct (decide (id = m_ID e)) as [->|Hne].
    + right. destruct (k =? 0) eqn:Hk; [rewrite Hc; cbn; lia|by rewrite lookup_insert_eq].
    + rewrite lookup_insert_ne in Hid by done. left. split; [done|].
      by destruct (k =? 0); rewrite ?lookup_insert_ne by done.
  - intros id Hid. cbn in *. destruct (decide (id = m_ID e)) as [->|Hne]; [by rewrite lookup_insert_eq|].
    rewrite lookup_insert_ne by done. apply Hh. by destruct (k =? 0); rewrite ?lookup_insert_ne in Hid by done.
Qed.

(** Neither an ack nor a tombstone changes a charge but by deleting messages. *)
Lemma insertAckWithin_charge r a now cap :
  let r' := (spec_insertAckWithin r a now cap).2 in R_messages r' = R_messages r ∧ R_charge r' = R_charge r.
Proof. unfold spec_insertAckWithin. cbv zeta. by repeat case_match. Qed.

Lemma same_charging K r r' :
  R_messages r' = R_messages r → R_charge r' = R_charge r → charging K r r'.
Proof. intros Hm Hc id Hid. left. rewrite <-Hm. unfold R_chargeOf. by rewrite Hc. Qed.

Lemma same_chargesHeld r r' :
  R_messages r' = R_messages r → R_charge r' = R_charge r → chargesHeld r → chargesHeld r'.
Proof. unfold chargesHeld. by intros -> ->. Qed.

Lemma postAck_charging K r now a :
  charging K r (spec_postAck r now a).2 ∧ (chargesHeld r → chargesHeld (spec_postAck r now a).2).
Proof.
  unfold spec_postAck.
  pose proof (insertAckWithin_charge r a now (MaxAcks (R_cfg r) - MaxMessages (R_cfg r))) as [Hm Hc].
  destruct (spec_insertAckWithin _ _ _ _) as [[err|] r']; cbn in Hm, Hc |- *.
  - split; [by apply same_charging|by apply same_chargesHeld].
  - destruct (deletesQueuedMessage _).
    + split; [eapply charging_trans; [by apply same_charging|apply retain_charging]|].
      intros Hh. apply retain_chargesHeld. by apply (same_chargesHeld r).
    + split; [by apply same_charging|by apply same_chargesHeld].
Qed.

Lemma storePurge_charge p r :
  R_messages (spec_storePurge p r) = R_messages r ∧ R_charge (spec_storePurge p r) = R_charge r.
Proof. unfold spec_storePurge. by case_match. Qed.

Lemma spec_purge_charging K h p r : charging K r (spec_purge h (spec_storePurge p r)).2.
Proof.
  destruct (storePurge_charge p r). eapply charging_trans; [by apply same_charging|]. apply retain_charging.
Qed.

(** The operations that store no message. *)
Definition storesNothing (o : Op) : Prop :=
  match o with OAddMessage _ _ _ _ | OImport _ _ => False | _ => True end.

Lemma quiet_step r o resp r' : storesNothing o → spec_step r o resp r' → charging (λ _, False) r r'.
Proof.
  intros Hq. destruct 1 as [| ? ? ? ? ? ? ? E| | | | | | | |? ? ? ? ? ? E];
    try done; try apply charging_refl; try apply retain_charging.
  - change r' with (err, r').2. rewrite <-E. unfold spec_AddAck. cbv zeta.
    repeat (case_match; try apply charging_refl); apply postAck_charging.
  - change r' with ((nm, na), r').2. rewrite <-E. apply spec_purge_charging.
Qed.

Lemma post_charging r now e nodeID g :
  chargesHeld r → charging (λ k, k = g_Credential g) r (spec_AddMessage r now e nodeID g).2.
Proof.
  intros Hh. unfold spec_AddMessage. destruct (checkEnvelope _ _ _ _) as [err|m]; [apply charging_refl|].
  destruct (present _ _) eqn:Hp; [apply charging_refl|]. apply bool_decide_eq_false in Hp.
  do 4 (case_match; [apply charging_refl|]).
  pose proof (insertAckWithin_charge r (nodeReceivedAck m nodeID now) now (MaxAcks (R_cfg r))) as [Hm Hc].
  destruct (spec_insertAckWithin _ _ _ _) as [[err|] r']; cbn in Hm, Hc |- *; [by apply same_charging|].
  eapply charging_trans; [by apply same_charging|]. apply insertMessage_charging.
  - by apply (same_chargesHeld r).
  - rewrite Hm. by apply eq_None_not_Some.
Qed.

Lemma import_charging r now p : chargesHeld r → charging (λ k, k = 0) r (spec_Import r now p).2.
Proof.
  intros Hh. enough (chargesHeld (spec_Import r now p).2 ∧ charging (λ k, k = 0) r (spec_Import r now p).2) by tauto.
  apply (spec_Import_inv (λ r', chargesHeld r' ∧ charging (λ k, k = 0) r r')).
  - intros r' q _ _ [Hh' Hc]. destruct (storePurge_charge q r'). split.
    + apply retain_chargesHeld. by apply (same_chargesHeld r').
    + eapply charging_trans; [exact Hc|]. apply spec_purge_charging.
  - intros r' e [Hh' Hc]. unfold spec_importMessage. destruct (checkEnvelope _ _ _ _) as [err|m]; [done|].
    destruct (present _ _) eqn:Hp; [done|]. apply bool_decide_eq_false in Hp.
    do 3 (case_match; [done|]). destruct (insertMessage_charging r' m 0 Hh') as [Hi Hh'']; [by apply eq_None_not_Some|].
    split; [done|]. by eapply charging_trans.
  - intros r' a [Hh' Hc]. unfold spec_importAck. do 2 (case_match; [done|]).
    destruct (postAck_charging (λ k, k = 0) r' now (ackTimes (R_cfg r') now (Add now (MaxTTL (R_cfg r'))) (trimImportedAck a)))
      as [Hp Hh'']. split; [by apply Hh''|]. by eapply charging_trans.
  - split; [done|apply charging_refl].
Qed.
