(* ===== verification/QueueImport.v ===== *)
(** * What an import delivers

    A message that a peer offers is in the queue afterwards, unless the queue has no room
    for it or the message was withdrawn: by a tombstone of its owner or by a terminal ack. *)

From Stdlib Require Import Strings.String.
From S2P Require Import Prelude Model Capability QueueStore QueueInv QueueSpec QueueSteps.

Open Scope Z_scope.

(** The message as a reader gets it: what it says, who it is for, and under which tags. *)
Definition sameMail (e m : MessageEnvelope) : Prop :=
  m_ID m = TrimSpace (m_ID e) ∧ m_Sender m = TrimSpace (m_Sender e) ∧
  m_Recipient m = TrimSpace (m_Recipient e) ∧ m_Recipient m ≠ ""%string ∧ m_EncryptedPayload m = TrimSpace (m_EncryptedPayload e) ∧
  m_RecipientTag m = m_RecipientTag e ∧ m_SenderTag m = m_SenderTag e ∧ m_Metadata m = m_Metadata e.

Lemma checked_sameMail c now maxExpiry e m :
  checkEnvelope c now maxExpiry (trimImportedEnvelope e) = inr m → sameMail e m.
Proof.
  intros Hc. pose proof Hc as (Hid & _ & _ & Hs & Hr & Hrt & Hst & Hp & _ & Hm)%checkEnvelope_ok.
  assert (m_Recipient m ≠ ""%string) as Hne.
  { unfold checkEnvelope, envelopeIncomplete in Hc. destruct (_ || _) eqn:Hinc; [done|]. rewrite Hr.
    reflect_bools. naive_solver. }
  by split_and!.
Qed.

Section delivery.
(** The caps of the queue, the ids that it and its peers may hold, and a message. *)
Context (c : StoreConfig) (X : gset string) (e0 : MessageEnvelope).
Context (Hroom : Z.of_nat (size X) ≤ MaxMessages c).

Abbreviation id := (TrimSpace (m_ID e0)).
Abbreviation h := (purgeHashOf e0).

(** Nothing in the store withdraws the message, and what has its id is the message. *)
Record Clear (r : RefStore) : Prop := {
  cl_cfg : R_cfg r = c;
  cl_ids : ∀ i, is_Some (R_messages r !! i) → i ∈ X;
  cl_purges : h ≠ ""%string → R_purges r !! h = None;
  cl_acks : ∀ k a, R_acks r !! k = Some a → a_MessageID a = id → deletesQueuedMessage (a_Type a) = false;
  cl_mail : ∀ m, R_messages r !! id = Some m → sameMail e0 m;
}.

Definition Held (r : RefStore) : Prop := is_Some (R_messages r !! id).

(** A page that does not withdraw it either. *)
Record Fits (p : SyncPayload) : Prop := {
  ft_purges : ∀ q, q ∈ y_Purges p → h ≠ ""%string → p_PurgeHash q ≠ h;
  ft_messages : ∀ e, e ∈ y_Messages p → TrimSpace (m_ID e) ∈ X ∧ (TrimSpace (m_ID e) = id → e = e0);
  ft_acks : ∀ a, a ∈ y_Acks p → TrimSpace (a_MessageID a) = id → deletesQueuedMessage (a_Type a) = false;
}.

Lemma clear_retain kM kA r : Clear r → Clear (retain kM kA r).
Proof.
  intros [H1 H2 H3 H4 H5]. split; cbn; [done| |done| |].
  - intros i [m [Hm _]%keep_Some]. apply H2. by exists m.
  - intros k a [Ha _]%keep_Some. by eapply H4.
  - intros m [Hm _]%keep_Some. by apply H5.
Qed.

(** *** Tombstones *)

Lemma clear_purge q r :
  (h ≠ ""%string → p_PurgeHash q ≠ h) → Clear r →
  Clear (spec_purge (p_PurgeHash q) (spec_storePurge q r)).2 ∧
  (Held r → Held (spec_purge (p_PurgeHash q) (spec_storePurge q r)).2).
Proof.
  intros Hq Hc. assert (Clear (spec_storePurge q r)) as Hc'.
  { unfold spec_storePurge. case_match; [done|]. destruct Hc as [H1 H2 H3 H4 H5]. split; cbn; try done.
    intros Hh. rewrite lookup_insert_ne by auto. by apply H3. }
  split; [by apply clear_retain|]. intros [m Hm].
  assert (R_messages (spec_storePurge q r) = R_messages r) as Hs by (unfold spec_storePurge; by case_match).
  exists m. cbn. apply keep_Some. rewrite Hs. split; [done|].
  destruct (cl_mail _ Hc m Hm) as (_ & _ & _ & _ & _ & _ & _ & Hmeta). unfold owned, purgeHashOf.
  rewrite Hmeta. fold (purgeHashOf e0). unfold is_empty.
  destruct (decide (p_PurgeHash q = ""%string)) as [->|Hne]; [done|].
  rewrite bool_decide_eq_false_2 by done. cbn. rewrite bool_decide_eq_false_2; [done|].
  intros Heq. rewrite <-Heq in Hne. by apply Hq.
Qed.

(** *** Messages *)

Lemma clear_room r i :
  Clear r → i ∈ X → R_messages r !! i = None → map_len (R_messages r) < MaxMessages c.
Proof.
  intros Hc Hi Hn. unfold map_len. rewrite <-size_dom. set (D := dom (R_messages r)).
  enough (size D < size X)%nat by lia. apply subset_size. split.
  - intros j Hj%elem_of_dom. by apply (cl_ids _ Hc).
  - intros Hsub. apply Hsub in Hi. apply elem_of_dom in Hi as [m Hm]. by rewrite Hn in Hm.
Qed.

Lemma clear_not_terminal r : Clear r → spec_terminal r id = false.
Proof.
  intros Hc. unfold spec_terminal. rewrite map_count_none; [done|]. intros k a Ha.
  unfold naming. case_bool_decide as Hid; [|done]. by apply (cl_acks _ Hc k).
Qed.

Lemma clear_insert r e m now :
  Clear r → TrimSpace (m_ID e) ∈ X → (TrimSpace (m_ID e) = id → e = e0) →
  checkEnvelope c now (Add now (MaxTTL c)) (trimImportedEnvelope e) = inr m →
  Clear (insertMessage r m 0).
Proof.
  intros [H1 H2 H3 H4 H5] HX Hsame Hm. apply checked_sameMail in Hm. pose proof Hm as (Hid & _).
  split; cbn; [done| |done|done|].
  - intros i Hi. destruct (decide (i = m_ID m)) as [->|Hne]; [by rewrite Hid|].
    rewrite lookup_insert_ne in Hi by done. by apply H2.
  - intros m' [[Hi <-]|[_ Hm']]%lookup_insert_Some; [|by apply H5].
    assert (e = e0) as -> by (apply Hsame; congruence). done.
Qed.

Lemma clear_importMessage r e now :
  Clear r → TrimSpace (m_ID e) ∈ X → (TrimSpace (m_ID e) = id → e = e0) →
  Clear (spec_importMessage r now e).2 ∧ (Held r → Held (spec_importMessage r now e).2).
Proof.
  intros Hc HX Hsame. unfold spec_importMessage. rewrite (cl_cfg _ Hc).
  destruct (checkEnvelope _ _ _ _) as [err|m] eqn:Hm; [done|].
  do 4 (case_match; [done|]). split; [by eapply clear_insert|].
  intros [m' Hm']. unfold Held. cbn. destruct (decide (id = m_ID m)) as [->|Hne].
  - by rewrite lookup_insert_eq.
  - rewrite lookup_insert_ne by done. by exists m'.
Qed.

Lemma import_delivers r now :
  Clear r → id ∈ X → (∃ m, checkEnvelope c now (Add now (MaxTTL c)) (trimImportedEnvelope e0) = inr m) →
  Held (spec_importMessage r now e0).2.
Proof.
  intros Hc HX [m Hm]. unfold spec_importMessage. rewrite (cl_cfg _ Hc), Hm.
  destruct (checked_sameMail _ _ _ _ _ Hm) as (Hid & _ & _ & _ & _ & _ & _ & Hmeta). rewrite Hid. unfold present.
  case_bool_decide as Hp; [done|]. apply eq_None_not_Some in Hp.
  assert (spec_purged r m now = false) as ->.
  { unfold spec_purged, purgeHashOf. rewrite Hmeta. fold (purgeHashOf e0). unfold is_empty.
    case_bool_decide as Hh; [done|]. by rewrite (cl_purges _ Hc Hh). }
  rewrite (clear_not_terminal r Hc).
  pose proof (clear_room r id Hc HX Hp). rewrite (proj2 (Z.leb_gt _ _)) by lia.
  unfold Held. cbn. by rewrite Hid, lookup_insert_eq.
Qed.

(** *** Acks *)

Lemma clear_importAck r a now :
  Clear r → (TrimSpace (a_MessageID a) = id → deletesQueuedMessage (a_Type a) = false) →
  Clear (spec_importAck r now a).2 ∧ (Held r → Held (spec_importAck r now a).2).
Proof.
  intros Hc Ha. unfold spec_importAck. case_match; [done|]. cbv zeta. rewrite (cl_cfg _ Hc).
  destruct (ackTimes_ids c now (Add now (MaxTTL c)) (trimImportedAck a)) as (_ & Hmi & Hty & _).
  set (a1 := ackTimes _ _ _ _) in *. cbn [trimImportedAck a_MessageID a_Type] in Hmi, Hty. clearbody a1.
  destruct (negb (After (a_ExpiresAt a1) now)); [done|]. unfold spec_postAck, spec_insertAckWithin.
  destruct (present _ _); [done|]. destruct (_ <=? _); [done|]. cbv zeta.
  set (a2 := if IsZero _ then _ else _).
  assert (a_MessageID a2 = a_MessageID a1 ∧ a_Type a2 = a_Type a1) as [Hmi2 Hty2] by (unfold a2; by case_match).
  clearbody a2. destruct (negb (After (a_ExpiresAt a2) now)); [done|].
  assert (Clear (insertAckRecord r a2)) as Hc'.
  { destruct Hc as [H1 H2 H3 H4 H5]. split; cbn; try done.
    intros k b [[_ <-]|[_ Hb]]%lookup_insert_Some; [|by eapply H4]. rewrite Hmi2, Hty2, Hmi, Hty. exact Ha. }
  destruct (deletesQueuedMessage (a_Type a1)) eqn:Hd; [|done].
  split; [by apply clear_retain|]. intros [m Hm]. exists m. cbn. apply keep_Some. split; [done|].
  rewrite bool_decide_eq_false_2; [done|]. intros Heq. rewrite Hmi in Heq. rewrite Hty in Hd.
  rewrite Ha in Hd; [done|congruence].
Qed.

(** *** A whole page *)

Lemma deliver_messages now l (st : ImportResult * RefStore) :
  (∀ e, e ∈ l → TrimSpace (m_ID e) ∈ X ∧ (TrimSpace (m_ID e) = id → e = e0)) → Clear st.2 →
  let st' := foldl (λ '(res, r) e, let '(err, r) := spec_importMessage r now e in
                                   (tally_message res err, r)) st l in
  Clear st'.2 ∧
  (Held st.2 ∨ e0 ∈ l ∧ (∃ m, checkEnvelope c now (Add now (MaxTTL c)) (trimImportedEnvelope e0) = inr m) → Held st'.2).
Proof.
  revert st. induction l as [|e l IH]; intros [res r] Hl Hc; cbn [foldl].
  { split; [done|]. by intros [?|[?%not_elem_of_nil _]]. }
  destruct (Hl e) as [HX Hsame]; [by left|].
  destruct (clear_importMessage r e now Hc HX Hsame) as [Hc' Hh'].
  pose proof (λ He : e = e0, import_delivers r now Hc ltac:(by rewrite <-He)) as Hd.
  destruct (spec_importMessage r now e) as [err r'] eqn:Hi. cbn [snd] in *.
  destruct (IH (tally_message res err, r')) as [Hc'' Hh'']; [intros e' He'; apply Hl; by right|done|].
  split; [exact Hc''|]. intros Hor. apply Hh''. cbn [snd].
  destruct Hor as [Hheld|[[<-|Hin]%elem_of_cons Hok]]; [left; by apply Hh'| |by right].
  left. specialize (Hd eq_refl Hok). by rewrite Hi in Hd.
Qed.

Lemma clear_Import r now p :
  Fits p → Clear r →
  Clear (spec_Import r now p).2 ∧
  (Held r ∨ e0 ∈ y_Messages p ∧
     (∃ m, checkEnvelope c now (Add now (MaxTTL c)) (trimImportedEnvelope e0) = inr m) →
   Held (spec_Import r now p).2).
Proof.
  intros [Hq He Ha] Hc. unfold spec_Import. cbv zeta.
  set (st1 := foldl _ (_, r) (y_Purges p)).
  assert (Clear st1.2 ∧ (Held r → Held st1.2)) as [Hc1 Hh1].
  { apply (foldl_inv (λ st, Clear st.2 ∧ (Held r → Held st.2))); [done|].
    intros [res r'] q Hin [Hc' Hh']. cbn in *. case_match; [done|].
    destruct (clear_purge q r' (Hq q Hin) Hc'). auto. }
  destruct (deliver_messages now (y_Messages p) st1 He Hc1) as [Hc2 Hh2]. cbv zeta in *.
  set (st2 := foldl _ st1 (y_Messages p)) in *. clearbody st1 st2.
  enough (Clear (foldl (λ '(res, r) a, let '(err, r) := spec_importAck r now a in (tally_ack res err, r)) st2 (y_Acks p)).2 ∧
          (Held st2.2 → Held (foldl (λ '(res, r) a, let '(err, r) := spec_importAck r now a in (tally_ack res err, r)) st2 (y_Acks p)).2))
    as [Hc3 Hh3] by (split; [exact Hc3|]; intros Hor; apply Hh3, Hh2; destruct Hor; auto).
  apply (foldl_inv (λ st, Clear st.2 ∧ (Held st2.2 → Held st.2))); [done|].
  intros [res r'] a Hin [Hc' Hh']. destruct (clear_importAck r' a now Hc' (Ha a Hin)).
  destruct (spec_importAck r' now a). cbn in *. auto.
Qed.

(** *** A run of imports *)

Definition fittingImport (T : Time → Prop) (x : Op * Response) : Prop :=
  ∃ now p, x.1 = OImport now p ∧ T now ∧ Fits p.

Lemma imports_deliver (T : Time → Prop) s tr s' :
  (∀ now, T now → ∃ m, checkEnvelope c now (Add now (MaxTTL c)) (trimImportedEnvelope e0) = inr m) →
  steps s tr s' → Inv s → Clear (abs s) → Forall (fittingImport T) tr →
  Clear (abs s') ∧
  (Held (abs s) ∨ Exists (λ x, ∃ now p, x.1 = OImport now p ∧ e0 ∈ y_Messages p) tr → Held (abs s')).
Proof.
  intros Hok. induction 1 as [s|rt s o tr s' _ IH]; intros HI Hc Htr.
  { split; [done|]. intros [?|Hex]; [done|]. by apply Exists_nil in Hex. }
  apply Forall_cons in Htr as [(now & p & Ho & HT & Hfit) Htr]. cbn in Ho. subst o.
  pose proof (abs_ImportSnapshot s now p HI) as Habs. pose proof (exec_inv s (OImport now p) HI) as HI'.
  destruct (clear_Import (abs s) now p Hfit Hc) as [Hc' Hh']. rewrite Habs in Hc', Hh'. cbn [exec] in *.
  destruct (ImportSnapshot s now p) as [res s1]. cbn [fst snd] in *. destruct (IH HI' Hc' Htr) as [Hc'' Hh''].
  split; [done|]. intros Hor. apply Hh''.
  destruct Hor as [Hheld|[(now' & p' & Heq & Hin)|Hex]%Exists_cons]; [auto| |by right].
  left. apply Hh'. right. cbn in Heq. injection Heq as <- <-. auto.
Qed.
End delivery.

(** ** The ids of a queue are trimmed *)

Definition trimmedIds (r : RefStore) : Prop := ∀ i, is_Some (R_messages r !! i) → TrimSpace i = i.

Lemma trimmed_subset r r' : R_messages r' ⊆ R_messages r → trimmedIds r → trimmedIds r'.
Proof. intros Hsub Ht i [m Hm]. apply Ht. exists m. by eapply lookup_weaken. Qed.

Lemma trimmed_retain kM kA r : trimmedIds r → trimmedIds (retain kM kA r).
Proof. apply trimmed_subset, keep_subseteq. Qed.

Lemma trimmed_insert r m k : TrimSpace (m_ID m) = m_ID m → trimmedIds r → trimmedIds (insertMessage r m k).
Proof.
  intros Hm Ht i Hi. cbn in Hi. destruct (decide (i = m_ID m)) as [->|Hne]; [done|].
  rewrite lookup_insert_ne in Hi by done. by apply Ht.
Qed.

Lemma insertAckWithin_messages r a now cap :
  R_messages (spec_insertAckWithin r a now cap).2 = R_messages r.
Proof. unfold spec_insertAckWithin. by repeat case_match. Qed.

Lemma trimmed_postAck r now a : trimmedIds r → trimmedIds (spec_postAck r now a).2.
Proof.
  intros Ht. apply (trimmed_subset r); [|done]. unfold spec_postAck.
  pose proof (insertAckWithin_messages r a now (MaxAcks (R_cfg r) - MaxMessages (R_cfg r))) as Hm.
  destruct (spec_insertAckWithin _ _ _ _) as [[err|] r']; cbn in *; [by rewrite Hm|].
  rewrite <-Hm. case_match; [apply keep_subseteq|done].
Qed.

Lemma trimmed_Import r now p : trimmedIds r → trimmedIds (spec_Import r now p).2.
Proof.
  apply spec_Import_inv.
  - intros r' q _ _ Ht. apply trimmed_retain. unfold spec_storePurge. by case_match.
  - intros r' e Ht. unfold spec_importMessage. destruct (checkEnvelope _ _ _ _) as [|m] eqn:Hm; [done|].
    apply checkEnvelope_ok in Hm as (Hid & _). do 4 (case_match; [done|]).
    apply trimmed_insert; [|done]. rewrite Hid. apply TrimSpace_idemp.
  - intros r' a Ht. unfold spec_importAck. do 2 (case_match; [done|]). by apply trimmed_postAck.
Qed.

Lemma trimmed_AddMessage r now e nodeID g : trimmedIds r → trimmedIds (spec_AddMessage r now e nodeID g).2.
Proof.
  intros Ht. unfold spec_AddMessage. destruct (checkEnvelope _ _ _ _) as [|m] eqn:Hm; [done|].
  apply checkEnvelope_ok in Hm as (Hid & _). destruct (present _ _); [done|]. do 4 (case_match; [done|]).
  pose proof (insertAckWithin_messages r (nodeReceivedAck m nodeID now) now (MaxAcks (R_cfg r))) as Hms.
  destruct (spec_insertAckWithin _ _ _ _) as [[err|] r']; cbn in Hms |- *.
  - by apply (trimmed_subset r); [rewrite Hms|].
  - apply trimmed_insert; [rewrite Hid; apply TrimSpace_idemp|]. by apply (trimmed_subset r); [rewrite Hms|].
Qed.

Lemma trimmed_step r o resp r' : spec_step r o resp r' → trimmedIds r → trimmedIds r'.
Proof.
  intros Hstep Ht. destruct Hstep as [?????? ? E|??????? E| | | | | | ???? E| |???? ? ? E];
    try done; try by apply trimmed_retain.
  - change r' with ((ack, err), r').2. rewrite <-E. by apply trimmed_AddMessage.
  - change r' with (err, r').2. rewrite <-E. unfold spec_AddAck. cbv zeta.
    repeat (case_match; try done); by apply trimmed_postAck.
  - change r' with (res, r').2. rewrite <-E. by apply trimmed_Import.
  - change r' with ((nm, na), r').2. rewrite <-E. apply trimmed_retain.
    unfold spec_storePurge. by case_match.
Qed.

Lemma steps_trimmed s tr s' : steps s tr s' → Inv s → trimmedIds (abs s) → trimmedIds (abs s').
Proof.
  induction 1 as [|rt s o tr s' _ IH]; [done|]. intros HI Ht.
  apply IH; [by apply exec_inv|]. eapply trimmed_step; [|exact Ht]. by apply exec_spec_step.
Qed.

Lemma reachable_trimmed cfg e tr s :
  MaxMessages cfg < 2 ^ 62 → steps (NewStore cfg e) tr s → trimmedIds (abs s).
Proof.
  intros Hm Hst. eapply steps_trimmed; [exact Hst|by apply NewStore_inv|]. intros i. cbn.
  rewrite lookup_empty. by intros [].
Qed.
