(* ===== verification/QueueProps.v ===== *)
(** * The message and ack queue: what it promises

    The simulation over whole runs, the exactness of the bookkeeping, what a post stores
    and when it is refused, and what a read hands out and to whom. *)

From S2P Require Import Prelude Model Capability QueueStore QueueInv QueueSpec QueueSteps.

Open Scope Z_scope.

(** ** The simulation *)

(** C1: Every run of the queue, under every order its runtime may range over maps and
    sort in, is a run of the reference store with the same operations and the same
    answers: the counters, the indexes and the reference counts that the code maintains
    incrementally never make it answer otherwise than scanning the records would. *)
Theorem queue_refines_reference c e tr s :
  MaxMessages c < 2 ^ 62 →
  steps (NewStore c e) tr s → spec_steps (abs (NewStore c e)) tr (abs s).
Proof.
  intros Hc%(NewStore_inv c e) Hsteps. generalize dependent (NewStore c e).
  intros s0 HI Hsteps. induction Hsteps as [|rt s o tr s' _ IH]; [constructor|].
  econstructor; [by apply exec_spec_step|]. apply IH. by apply exec_inv.
Qed.

Lemma queue_refines_reference_witness :
  let ops := [Sample.post 5 "m1" "" ""; OMessagesFor 6 "bob" 0 TrustedAuth; OPrune (100 * Hour)] in
  length (run Sample.empty ops).1 = 3%nat ∧
  spec_steps (abs Sample.empty) (run Sample.empty ops).1 (abs (run Sample.empty ops).2).
Proof.
  intros ops. split; [done|].
  apply (queue_refines_reference Sample.config "epoch"); [done|].
  apply (run_steps Sample.empty ops).
Defined.

(** C18: In every reachable store the bookkeeping is exact: the lane counter of a pair is
    the number of messages held in that lane, the occupancy of a credential is the number
    of messages held and charged to it, the owner index lists exactly the messages that
    carry the hash, the ack index exactly the acks that name the message, and the three
    maps stay within their caps. *)
Theorem queue_bookkeeping_exact c e s :
  MaxMessages c < 2 ^ 62 → reachable c e s →
  (∀ lane, counter_get (pairCounts s) lane = Z.of_nat (laneCount (messages s) lane)) ∧
  (∀ cred, Occupancy s cred = Z.of_nat (chargedCount (messageCredential s) cred)) ∧
  (∀ h id, is_Some (default ∅ (messagesByPurge s !! h) !! id) ↔
           h ≠ ""%string ∧ ∃ m, messages s !! id = Some m ∧ purgeHashOf m = h) ∧
  (∀ m id, is_Some (default ∅ (acksByMessage s !! m) !! id) ↔
           m ≠ ""%string ∧ ∃ a, acks s !! id = Some a ∧ a_MessageID a = m) ∧
  map_len (messages s) ≤ MaxMessages (cfg s) ∧ map_len (acks s) ≤ MaxAcks (cfg s) ∧
  map_len (purges s) ≤ MaxPurges (cfg s).
Proof.
  intros Hc HI%reachable_inv; [|done]. split_and!.
  - intros lane. apply tallies_get, (inv_pairCounts s HI).
  - intros cred. apply tallies_get, (inv_credentialCounts s HI).
  - apply (inv_messagesByPurge s HI).
  - apply (inv_acksByMessage s HI).
  - apply (inv_messages_cap s HI).
  - apply (inv_acks_cap s HI).
  - apply (inv_purges_cap s HI).
Qed.

Lemma queue_bookkeeping_exact_witness :
  counter_get (pairCounts Sample.one) (pairKey "alice" "bob") = 1 ∧
  counter_get (pairCounts Sample.one) (pairKey "alice" "bob")
  = Z.of_nat (laneCount (messages Sample.one) (pairKey "alice" "bob")).
Proof.
  split; [by vm_compute|].
  apply (queue_bookkeeping_exact Sample.config "epoch"); [done|]. eexists. apply run_steps.
Defined.

(** ** Posting *)

(** When the coupled receipt is accepted; its expiry is the message's. *)
Lemma addReceipt_iff s m nodeID now :
  0 ≤ now → now < m_ExpiresAt m →
  let receipt := nodeReceivedAck m nodeID now in
  addAckLocked s receipt now =
  if bool_decide (acks s !! a_ID receipt = None ∧ map_len (acks s) < MaxAcks (cfg s))
  then (None, insertAck s receipt) else
  (Some (if present (acks s) (a_ID receipt) then ErrDuplicate else ErrQueueFull), s).
Proof.
  intros Hnow Hexp receipt. unfold addAckLocked, addAckWithinLocked. rewrite present_lookup.
  destruct (acks s !! a_ID receipt); [by rewrite bool_decide_eq_false_2 by naive_solver|].
  assert (IsZero (a_ExpiresAt receipt) = false) as ->.
  { unfold IsZero. apply Z.eqb_neq. simpl. lia. }
  assert (After (a_ExpiresAt receipt) now = true) as -> by (by apply Z.ltb_lt).
  case_match; reflect_bools; simpl.
  - rewrite bool_decide_eq_false_2; [done|]. intros [_ ?]. lia.
  - rewrite bool_decide_eq_true_2; done.
Qed.

(** What a post must satisfy to be stored, over the records of the store. *)
Definition postable (s : Store) (now : Time) (grant : Grant) (m : MessageEnvelope) : Prop :=
  messages s !! m_ID m = None ∧
  spec_purged (abs s) m now = false ∧
  Z.of_nat (laneCount (messages s) (laneOf m))
    < lowerOf (MaxPerPair (cfg s)) (g_MaxPerPair grant) ∧
  (g_Credential grant = 0 ∨
   Z.of_nat (chargedCount (messageCredential s) (g_Credential grant))
     < lowerOf (MaxMessages (cfg s)) (g_Slots grant)) ∧
  map_len (messages s) < MaxMessages (cfg s) ∧
  acks s !! (m_ID m +:+ ":node_received") = None ∧
  map_len (acks s) < MaxAcks (cfg s).

(** The envelope a post would store: trimmed, completed and clamped. *)
Definition prepared (s : Store) (now : Time) (e : MessageEnvelope) (grant : Grant)
  : QueueError + MessageEnvelope :=
  checkEnvelope (cfg s) now (Add now (lowerOfDuration (MaxTTL (cfg s)) (g_Retention grant)))
    (trimEnvelope e).

Lemma post_cases s now e nodeID grant :
  Inv s → 0 ≤ now →
  match prepared s now e grant with
  | inl err => AddMessageWithGrant s now e nodeID grant = ((zeroAckRecord, Some err), s)
  | inr m =>
      (postable s now grant m ∧
       AddMessageWithGrant s now e nodeID grant =
       ((nodeReceivedAck m nodeID now, None),
        addMessageLocked (insertAck s (nodeReceivedAck m nodeID now)) m (g_Credential grant))) ∨
      (¬ postable s now grant m ∧
       ∃ ack err, AddMessageWithGrant s now e nodeID grant = ((ack, Some err), s))
  end.
Proof.
  intros HI Hnow. unfold AddMessageWithGrant. fold (prepared s now e grant).
  destruct (prepared s now e grant) as [err|m] eqn:Hchk; [done|].
  apply checkEnvelope_ok in Hchk as (_ & _ & Hexp & _). unfold postable.
  destruct (messages s !! m_ID m); [right; naive_solver|].
  rewrite <-purged_scan, <-(tallies_get _ _ _ (inv_pairCounts s HI)),
    <-(tallies_get _ _ _ (inv_credentialCounts s HI)).
  destruct (purged s m now) eqn:?; [right; split; [naive_solver | eauto]|].
  destruct (lowerOf (MaxPerPair _) _ <=? _) eqn:?; [right; split; [reflect_bools; lia | eauto]|].
  destruct (negb _ && _) eqn:Hslots; [right; split; [reflect_bools; lia | eauto]|].
  destruct (MaxMessages _ <=? _) eqn:?; [right; split; [reflect_bools; lia | eauto]|].
  rewrite addReceipt_iff by lia. case_bool_decide as Hack.
  - left. split; [|done]. simpl in Hack. apply andb_false_iff in Hslots.
    rewrite negb_false_iff in Hslots. destruct Hslots; reflect_bools; split_and!; naive_solver.
  - right. split; [|eauto]. simpl in Hack. naive_solver.
Qed.

(** The envelope that is stored, said without the code that computes it: trimmed, created
    now unless it says when, and expiring when it says or after the default time, but no later
    than the lower of the relay's and the credential's retention. *)
Definition postExpiry (s : Store) (now : Time) (e : MessageEnvelope) (grant : Grant) : Time :=
  Z.min (if m_ExpiresAt e =? 0 then now + DefaultTTL (cfg s) else m_ExpiresAt e)
        (now + lowerOfDuration (MaxTTL (cfg s)) (g_Retention grant)).

Definition postEnvelope (s : Store) (now : Time) (e : MessageEnvelope) (grant : Grant)
  : MessageEnvelope :=
  mkMessageEnvelope (TrimSpace (m_ID e)) (TrimSpace (m_Sender e)) (TrimSpace (m_Recipient e))
    (if m_CreatedAt e =? 0 then now else m_CreatedAt e) (postExpiry s now e grant)
    (TrimSpace (m_EncryptedPayload e)) (m_ContentType e) (m_KeyID e) (m_Signature e) (m_Metadata e)
    (TrimSpace (m_RecipientTag e)) (TrimSpace (m_SenderTag e)).

Lemma prepared_iff s now e grant m :
  prepared s now e grant = inr m ↔
  (TrimSpace (m_ID e) ≠ "" ∧ TrimSpace (m_Sender e) ≠ "" ∧ TrimSpace (m_Recipient e) ≠ "" ∧
   TrimSpace (m_EncryptedPayload e) ≠ "")%string ∧
  len (TrimSpace (m_EncryptedPayload e)) ≤ MaxPayloadBytes (cfg s) ∧
  now < postExpiry s now e grant ∧ m = postEnvelope s now e grant.
Proof.
  unfold prepared, checkEnvelope, envelopeIncomplete, is_empty. cbn [trimEnvelope m_ID m_Sender m_Recipient m_EncryptedPayload].
  do 4 (case_bool_decide; cbn [orb]; [by split; [done|naive_solver]|]).
  destruct (Z.ltb_spec (MaxPayloadBytes (cfg s)) (len (TrimSpace (m_EncryptedPayload e))));
    [by split; [done|lia]|].
  unfold postEnvelope. set (x := postExpiry s now e grant).
  match goal with |- (if negb (After (m_ExpiresAt ?m') now) then _ else _) = _ ↔ _ =>
    assert (m' = postEnvelope s now e grant) as -> end.
  { unfold postEnvelope, postExpiry, IsZero, After, Add, trimEnvelope. cbn [m_CreatedAt].
    destruct (m_CreatedAt e =? 0); unfold with_m_CreatedAt; cbn [m_ExpiresAt];
      (destruct (m_ExpiresAt e =? 0); unfold with_m_ExpiresAt; cbn [m_ExpiresAt];
       match goal with |- context [?a <? ?b] => destruct (Z.ltb_spec a b) end; cbn; f_equal; lia). }
  cbn [m_ExpiresAt postEnvelope]. fold x. unfold After. destruct (Z.ltb_spec now x); cbn [negb].
  - split; [intros [= <-]; by split_and!|]. intros (_ & _ & _ & ->). done.
  - split; [done|lia].
Qed.

(** C19: A post is accepted exactly when, its fields trimmed, it names an id, a sender and a
    recipient and carries a payload within the cap, its expiry (the one it asks for or the
    default, clamped to the lower of the relay's and the credential's retention) has not
    passed, its id is not held, no live tombstone covers its purge hash, its lane and its
    credential's slots have room as counted over the records themselves, the message cap has
    room, and its receipt's id and the ack cap have room. *)
Theorem post_accepted_iff s now e nodeID grant :
  Inv s → 0 ≤ now →
  (AddMessageWithGrant s now e nodeID grant).1.2 = None ↔
  (TrimSpace (m_ID e) ≠ "" ∧ TrimSpace (m_Sender e) ≠ "" ∧ TrimSpace (m_Recipient e) ≠ "" ∧
   TrimSpace (m_EncryptedPayload e) ≠ "")%string ∧
  len (TrimSpace (m_EncryptedPayload e)) ≤ MaxPayloadBytes (cfg s) ∧
  now < postExpiry s now e grant ∧ postable s now grant (postEnvelope s now e grant).
Proof.
  intros HI Hnow. pose proof (post_cases s now e nodeID grant HI Hnow) as Hc.
  pose proof (prepared_iff s now e grant) as Hp.
  destruct (prepared s now e grant) as [err|m].
  - rewrite Hc. split; [done|]. intros (Hf & Hl & Hx & _).
    discriminate (proj2 (Hp (postEnvelope s now e grant)) (conj Hf (conj Hl (conj Hx eq_refl)))).
  - destruct (proj1 (Hp m) eq_refl) as (Hf & Hl & Hx & ->).
    destruct Hc as [[Hpost ->]|[Hpost (ack & err & ->)]]; simpl; naive_solver.
Qed.

Lemma post_accepted_iff_witness :
  let e := Sample.envelope "m2" "" "" in
  (AddMessageWithGrant Sample.one 2000 e "node" zeroGrant).1.2 = None ∧
  postable Sample.one 2000 zeroGrant (postEnvelope Sample.one 2000 e zeroGrant).
Proof.
  assert ((AddMessageWithGrant Sample.one 2000 (Sample.envelope "m2" "" "") "node" zeroGrant).1.2
          = None) as H by (by vm_compute).
  split; [exact H|].
  apply (post_accepted_iff Sample.one 2000 _ "node"); [apply Sample.one_inv | lia | exact H].
Defined.

(** The receipt of a stored message. *)
Definition postReceipt (nodeID : string) (now : Time) (m : MessageEnvelope) : AckRecord :=
  mkAckRecord (m_ID m +:+ ":node_received") (m_ID m) (m_Sender m) (m_Recipient m) AckNodeReceived
    now (m_ExpiresAt m) nodeID "" (m_SenderTag m) (m_RecipientTag m) "".

(** C20: An accepted post stores exactly one message and its one receipt and touches no other
    record. The message is the envelope with its ids, addresses, payload and tags trimmed and
    everything else as it came, created when it says or now, and expiring when it says or after
    the default time, but no later than the lower of the relay's and the credential's
    retention; its payload is within the cap and it is live; and the answer is the receipt that
    was stored, which says so to the sender until the message expires. *)
Theorem post_effect s now e nodeID grant ack s' :
  Inv s → 0 ≤ now →
  AddMessageWithGrant s now e nodeID grant = ((ack, None), s') →
  let m := postEnvelope s now e grant in
  messages s' = <[TrimSpace (m_ID e) := m]> (messages s) ∧
  acks s' = <[TrimSpace (m_ID e) +:+ ":node_received" := ack]> (acks s) ∧
  purges s' = purges s ∧ ack = postReceipt nodeID now m ∧
  len (m_EncryptedPayload m) ≤ MaxPayloadBytes (cfg s) ∧
  now < m_ExpiresAt m ≤ now + lowerOfDuration (MaxTTL (cfg s)) (g_Retention grant).
Proof.
  intros HI Hnow Hadd m. pose proof (post_cases s now e nodeID grant HI Hnow) as Hc.
  rewrite Hadd in Hc. destruct (prepared s now e grant) as [err|m'] eqn:Hp; [naive_solver|].
  apply prepared_iff in Hp as (_ & Hlen & Hexp & ->). fold m in Hc.
  destruct Hc as [[_ [= -> ->]]|[_ (? & ? & ?)]]; [|naive_solver].
  assert (m_ExpiresAt m = postExpiry s now e grant) as -> by done. unfold postExpiry in *.
  unfold addMessageLocked. destruct (negb _); simpl; split_and!; try done; lia.
Qed.

Lemma post_effect_witness :
  let e := Sample.envelope "m1" "tagV" "hash" in
  ∃ ack s', AddMessageWithGrant Sample.empty Sample.T0 e "node" zeroGrant = ((ack, None), s') ∧
    messages s' = <[TrimSpace (m_ID e) := postEnvelope Sample.empty Sample.T0 e zeroGrant]> (messages Sample.empty).
Proof.
  intros e.
  destruct (AddMessageWithGrant Sample.empty Sample.T0 e "node" zeroGrant)
    as [[ack [err|]] s'] eqn:H; [by vm_compute in H|].
  destruct (post_effect Sample.empty Sample.T0 e "node" zeroGrant ack s' Sample.empty_inv
    ltac:(by vm_compute) H) as (Hm & _).
  exists ack, s'. split; [done|exact Hm].
Defined.

(** ** Reading *)

Lemma candidates_elem {A} (f : string → A → bool) (m : gmap string A) v :
  v ∈ candidates f m ↔ ∃ id, m !! id = Some v ∧ f id v = true.
Proof.
  unfold candidates. rewrite list_elem_of_fmap. split.
  - intros ([id w] & -> & [? ?]%elem_of_map_to_list%keep_Some). eauto.
  - intros (id & Hv & Hf). exists (id, v). split; [done|]. by apply elem_of_map_to_list, keep_Some.
Qed.

Lemma StronglySorted_take {A} (R : A → A → Prop) n l :
  StronglySorted R l → StronglySorted R (take n l).
Proof.
  intros Hl. revert n. induction Hl as [|x l Hl IH Hx]; intros [|n]; simpl; constructor; auto.
  by apply Forall_take.
Qed.

Lemma StronglySorted_weaken {A} (R R' : A → A → Prop) l :
  (∀ x y, R x y → R' x y) → StronglySorted R l → StronglySorted R' l.
Proof.
  intros HR Hl. induction Hl as [|x l Hl IH Hx]; constructor; [done|].
  eapply Forall_impl; [exact Hx|]. eauto.
Qed.

Lemma firstOf_spec {A} (less : A → A → bool) limit (l out : list A) :
  firstOf less limit l out →
  out ⊆ l ∧ StronglySorted (λ x y, less y x = false) out ∧
  (Z.of_nat (length out) < limit → out ≡ₚ l) ∧ Z.of_nat (length out) ≤ Z.max 0 limit.
Proof.
  intros (l' & Hp & Hs & ->). split_and!.
  - intros x (i & Hi & _)%elem_of_take. rewrite <-Hp. by eapply list_elem_of_lookup_2.
  - by apply StronglySorted_take.
  - rewrite length_take. intros Hlt. rewrite take_ge; [done|lia].
  - rewrite length_take. lia.
Qed.

(** A read that hands out fewer than the limit leaves none of the recipient's out. *)
Lemma read_all `{!GoRuntime} s now recipient limit auth id m :
  Inv s → TrimSpace recipient ≠ ""%string → messages s !! id = Some m → now < m_ExpiresAt m →
  m_Recipient m = TrimSpace recipient → permits auth (m_RecipientTag m) = true →
  let out := (MessagesForRecipient s now recipient limit auth).1 in
  Z.of_nat (length out) < limitOr 100 limit → m ∈ out.
Proof.
  intros HI Hr Hm Hlive Hrec Hperm. rewrite MessagesForRecipient_eq by done. cbn [fst].
  destruct (firstOf_spec _ _ _ _ (sorted_first _ (limitOr 100 limit) _ _ (Before_weak m_CreatedAt)
    (range_candidates (deliverable now (TrimSpace recipient) auth "") (messages s))))
    as (_ & _ & Hall & _).
  intros Hlt. rewrite (Hall Hlt). apply candidates_elem.
  exists id. split; [done|]. unfold deliverable, After.
  by rewrite (proj2 (Z.ltb_lt _ _) Hlive), bool_decide_eq_true_2, Hperm.
Qed.

Lemma read_all_acks `{!GoRuntime} s now sender limit auth id a :
  TrimSpace sender ≠ ""%string → acks s !! id = Some a → now < a_ExpiresAt a →
  a_Sender a = TrimSpace sender → permits auth (a_SenderTag a) = true →
  let out := (AcksForSender s now sender limit auth).1 in
  Z.of_nat (length out) < limitOr 100 limit → a ∈ out.
Proof.
  intros Hr Ha Hlive Hsend Hperm. rewrite AcksForSender_eq by done. cbn [fst].
  destruct (firstOf_spec _ _ _ _ (sorted_first _ (limitOr 100 limit) _ _ (Before_weak a_CreatedAt)
    (range_candidates (readableAck now (TrimSpace sender) auth "") (acks s))))
    as (_ & _ & Hall & _).
  intros Hlt. rewrite (Hall Hlt). apply candidates_elem.
  exists id. split; [done|]. unfold readableAck, After.
  by rewrite (proj2 (Z.ltb_lt _ _) Hlive), bool_decide_eq_true_2, Hperm.
Qed.

(** C21: A read hands out only live messages of that recipient that the request is entitled
    to, oldest first and at most the limit; when it hands out fewer than the limit it has
    handed out all of them; and the only messages it removes are the expired ones. *)
Theorem read_exact `{!GoRuntime} s now recipient limit auth :
  Inv s → TrimSpace recipient ≠ ""%string →
  let '(out, s') := MessagesForRecipient s now recipient limit auth in
  (∀ m, m ∈ out → messages s !! m_ID m = Some m ∧ now < m_ExpiresAt m ∧
        m_Recipient m = TrimSpace recipient ∧ permits auth (m_RecipientTag m) = true) ∧
  StronglySorted (λ x y, m_CreatedAt x ≤ m_CreatedAt y) out ∧
  Z.of_nat (length out) ≤ limitOr 100 limit ∧
  (Z.of_nat (length out) < limitOr 100 limit →
   ∀ id m, messages s !! id = Some m → now < m_ExpiresAt m →
     m_Recipient m = TrimSpace recipient → permits auth (m_RecipientTag m) = true → m ∈ out) ∧
  (∀ id m, messages s' !! id = Some m ↔ messages s !! id = Some m ∧ now < m_ExpiresAt m).
Proof.
  intros HI Hr. pose proof (λ id m, read_all s now recipient limit auth id m HI Hr) as Hread.
  rewrite MessagesForRecipient_eq in * by done.
  pose proof (f_equal R_messages (abs_sweepMessages s now HI)) as Hms. simpl in Hms.
  destruct (firstOf_spec _ _ _ _ (sorted_first _ (limitOr 100 limit) _ _ (Before_weak m_CreatedAt)
    (range_candidates (deliverable now (TrimSpace recipient) auth "") (messages s))))
    as (Hsub & Hsort & Hall & Hlen).
  pose proof (limitOr_pos 100 limit ltac:(done)). split_and!.
  - intros m (id & Hm & Hd)%Hsub%candidates_elem. unfold deliverable in Hd. reflect_bools.
    destruct (inv_message_ids s HI id m Hm) as [-> _]. done.
  - eapply StronglySorted_weaken; [|exact Hsort]. intros x y. unfold Before. simpl. lia.
  - lia.
  - intros Hlt id m ????. by apply (Hread id m).
  - intros id m. rewrite Hms, keep_Some. unfold live_message, After. by rewrite Z.ltb_lt.
Qed.

Lemma read_exact_witness :
  ∃ m, (MessagesForRecipient Sample.one 2000 " bob " 1 TrustedAuth).1 = [m] ∧
       messages Sample.one !! m_ID m = Some m ∧ 2000 < m_ExpiresAt m.
Proof.
  pose proof (read_exact Sample.one 2000 " bob " 1 TrustedAuth Sample.one_inv
    ltac:(by vm_compute)) as H.
  destruct (MessagesForRecipient Sample.one 2000 " bob " 1 TrustedAuth) as [[|m [|m' out]] s'] eqn:E;
    [by vm_compute in E | | by vm_compute in E].
  destruct H as [H _]. destruct (H m) as (Hm & Hx & _); [left|].
  exists m. split; [reflexivity|]. split; [exact Hm | exact Hx].
Defined.

(** The secrets of a request that open a tag. *)
Definition opens (tag secret : string) : Prop :=
  TrimSpace secret ≠ ""%string ∧ TagForSecret (TrimSpace secret) = tag.

Lemma NewAuth_permits secrets untagged tag :
  tag ≠ ""%string → permits (NewAuth secrets untagged) tag = true → Exists (opens tag) secrets.
Proof.
  intros Htag. rewrite permits_tagged by done. rewrite NewAuth_tags. unfold presentedTags.
  intros (i & Hi & _)%elem_of_take. apply list_elem_of_lookup_2 in Hi.
  apply list_elem_of_fmap in Hi as (x & -> & [Hx (y & -> & Hy)%list_elem_of_fmap]%list_elem_of_filter).
  apply Exists_exists. exists y. done.
Qed.

(** What a read answers is held, live, the recipient's and what the request may read. *)
Lemma read_sound `{!GoRuntime} s now recipient limit auth m :
  Inv s → m ∈ (MessagesForRecipient s now recipient limit auth).1 →
  messages s !! m_ID m = Some m ∧ now < m_ExpiresAt m ∧ m_Recipient m = TrimSpace recipient ∧
  permits auth (m_RecipientTag m) = true.
Proof.
  intros HI Hm. destruct (decide (TrimSpace recipient = ""%string)) as [Hr|Hr].
  { unfold MessagesForRecipient in Hm. rewrite Hr in Hm. simpl in Hm. set_solver. }
  rewrite MessagesForRecipient_eq in Hm by done. simpl in Hm.
  apply elem_of_take in Hm as (i & Hi & _). apply list_elem_of_lookup_2 in Hi.
  rewrite sort_slice_perm, (range_candidates (deliverable now (TrimSpace recipient) _ "")) in Hi.
  apply candidates_elem in Hi as (id & Hid & Hd). unfold deliverable in Hd. reflect_bools.
  destruct (inv_message_ids s HI id m Hid) as [-> _]. done.
Qed.

(** Mail addressed under a tag is never handed to a request that did not present a
    secret whose tag it is: whatever secrets a request shows, and whether or not it may
    read untagged mail, every tagged message in the answer is opened by one of them. *)
Theorem tagged_mail_needs_secret `{!GoRuntime} s now recipient limit secrets untagged m :
  Inv s →
  m ∈ (MessagesForRecipient s now recipient limit (NewAuth secrets untagged)).1 →
  m_RecipientTag m ≠ ""%string → Exists (opens (m_RecipientTag m)) secrets.
Proof.
  intros HI Hm Htag. apply (NewAuth_permits _ untagged); [done|]. by eapply (read_sound s now recipient limit).
Qed.

Lemma tagged_mail_needs_secret_witness :
  let s := (run Sample.empty [Sample.post 5 "m1" (TagForSecret "k1") ""]).2 in
  ∃ m, m ∈ (MessagesForRecipient s 6 "bob" 0 (NewAuth [" k1"] false)).1 ∧
       m_RecipientTag m ≠ ""%string ∧ Exists (opens (m_RecipientTag m)) [" k1"%string].
Proof.
  intros s.
  destruct (MessagesForRecipient s 6 "bob" 0 (NewAuth [" k1"%string] false)) as [[|m out] s'] eqn:E;
    [by vm_compute in E|].
  assert (m_RecipientTag m ≠ ""%string) as Ht.
  { assert (from_option (λ m, is_empty (m_RecipientTag m)) true
      (head (MessagesForRecipient s 6 "bob" 0 (NewAuth [" k1"%string] false)).1) = false) as Hh
      by (by vm_compute).
    rewrite E in Hh. by apply bool_decide_eq_false in Hh. }
  exists m. split; [left|]. split; [exact Ht|].
  apply (tagged_mail_needs_secret s 6 "bob" 0 [" k1"%string] false m).
  - apply run_inv, Sample.empty_inv.
  - rewrite E. left.
  - exact Ht.
Defined.
