(* ===== verification/QueueOwner.v ===== *)
(** * The message and ack queue: acks, ownership and purges

    Who may acknowledge a message, how long a tag stays in force, what an owner's purge
    removes and that neither a replicated message nor a fresh post brings it back. *)

From S2P Require Import Prelude Model Capability QueueStore QueueInv QueueSpec QueueSteps QueueProps.

Open Scope Z_scope.

(** ** Acknowledging *)

(** C22: While some held record binds a message id to a non-empty tag, an ack for that id
    from a request that presented no secret opening the tag is refused and changes
    nothing: it can neither delete the message nor occupy the ack lane. *)
Theorem ack_needs_secret s now a nodeID grant secrets untagged tag :
  recipientTagForMessageLocked s (TrimSpace (a_MessageID a)) = Some tag → tag ≠ ""%string →
  Forall (λ x, ¬ opens tag x) secrets →
  ∃ err, AddAckWithGrant s now a nodeID grant (NewAuth secrets untagged) = (Some err, s) ∧
         (err = ErrInvalid ∨ err = ErrExpired ∨ err = ErrNotOwned).
Proof.
  intros Htag Hne Hno. rewrite AddAckWithGrant_eq, Htag.
  destruct (ackIncomplete (trimAck a)); [eauto|]. cbv zeta.
  destruct (negb _); [eauto 6|]. destruct (permits _ tag) eqn:Hp; [|eauto 6].
  apply NewAuth_permits, Exists_exists in Hp as (x & Hx & Ho); [|done].
  rewrite Forall_forall in Hno. by destruct (Hno x Hx).
Qed.

Lemma ack_needs_secret_witness :
  ∃ err, AddAckWithGrant Sample.one 2000 (Sample.ack "a1" "m1" AckRecipientRead 0) "node" zeroGrant
           (NewAuth [] true) = (Some err, Sample.one) ∧
         (err = ErrInvalid ∨ err = ErrExpired ∨ err = ErrNotOwned).
Proof.
  apply (ack_needs_secret _ _ _ _ _ [] true "tagV"); [by vm_compute | done | constructor].
Defined.

(** An import without tombstones, and every other operation. *)
Definition no_import_purges (o : Op) : Prop :=
  match o with OImport _ p => y_Purges p = [] | _ => True end.

(** The tag bound to [id] is [t]. *)
Definition bound (s : Store) (id t : string) : Prop :=
  recipientTagForMessageLocked s id = Some t.

Lemma bound_abs s id t : bound s id t ↔ R_tags (abs s) !! id = Some t.
Proof. unfold bound, recipientTagForMessageLocked. simpl. by rewrite lookup_fmap. Qed.

(** Inserting a record keeps a non-empty binding. *)
Lemma bindTag_keeps (tags : gmap string string) id t i t' :
  t ≠ ""%string → tags !! id = Some t → bindTag tags i t' !! id = Some t.
Proof.
  intros Hne Ht. unfold bindTag. destruct (decide (i = id)) as [->|].
  - rewrite lookup_insert_eq, Ht. simpl. unfold is_empty. by rewrite bool_decide_eq_false_2.
  - by rewrite lookup_insert_ne.
Qed.

Lemma insertAck_bound s a id t :
  a_MessageID a ≠ ""%string → t ≠ ""%string → bound s id t → bound (insertAck s a) id t.
Proof. intros Hm Hne. rewrite !bound_abs, abs_insertAck by done. by apply bindTag_keeps. Qed.

Lemma addMessage_bound s e c id t :
  m_ID e ≠ ""%string → t ≠ ""%string → bound s id t → bound (addMessageLocked s e c) id t.
Proof. intros Hm Hne. rewrite !bound_abs, abs_addMessageLocked by done. by apply bindTag_keeps. Qed.

(** A retained store keeps the tags of the ids that some retained record names. *)
Lemma retain_tag kM kA r id t :
  R_tags r !! id = Some t →
  R_tags (retain kM kA r) !! id
  = if named (keep kM (R_messages r)) (keep kA (R_acks r)) id then Some t else None.
Proof. intros Ht. unfold retain. simpl. by rewrite keep_lookup, Ht. Qed.

(** Deleting a message that a held ack names keeps every binding. *)
Lemma deleteMessage_bound s i id t :
  Inv s → (∃ k a, acks s !! k = Some a ∧ a_MessageID a = i) →
  bound s id t → bound (deleteMessageLocked s i) id t.
Proof.
  intros HI (k & a & Ha & Hi). rewrite !bound_abs, abs_deleteMessageLocked by done. intros Ht.
  unfold dropMessage. rewrite (retain_tag _ _ _ _ _ Ht).
  assert (named (keep (λ j _, negb (bool_decide (j = i))) (messages s))
    (keep (λ _ _, true) (acks s)) id = true) as Hn; [|simpl; by rewrite Hn].
  simpl in Ht. apply lookup_fmap_Some in Ht as (b & _ & Hb).
  pose proof (tags_named s id b HI Hb) as Hn. rewrite named_pos in Hn |- *.
  destruct (decide (id = i)) as [->|Hne].
  - right. exists k, a. split; [|done]. by rewrite keep_all.
  - destruct Hn as [[e He]|(k' & a' & Ha' & Hi')].
    + left. exists e. apply keep_Some. split; [done|]. by rewrite bool_decide_eq_false_2.
    + right. exists k', a'. split; [|done]. by rewrite keep_all.
Qed.

Lemma postAck_bound s now a id t :
  Inv s → a_ID a ≠ ""%string → a_MessageID a ≠ ""%string → t ≠ ""%string →
  bound s id t → bound (postAck s now a).2 id t.
Proof.
  intros HI Hid Hm Hne Hb. unfold postAck, addExternalAckLocked.
  destruct (acks s !! a_ID a) eqn:Ha; [done|].
  pose proof (inv_config s HI) as Hcfg.
  assert (Inv (addAckWithinLocked s a now (externalAckCapacity s)).2) as HI'.
  { apply addAckWithinLocked_inv; try done. unfold externalAckCapacity. lia. }
  destruct (addAckWithinLocked_cases s a now (externalAckCapacity s))
    as [[err ->]|(E & _)]; [done|]. rewrite E in HI' |- *. simpl in HI' |- *.
  destruct (withDefaultExpiry_ids s now a) as (Hi' & Hm' & _).
  assert (bound (insertAck s (withDefaultExpiry s now a)) id t) by (apply insertAck_bound; congruence).
  case_match; [|done]. apply deleteMessage_bound; [done| |done].
  exists (a_ID a), (withDefaultExpiry s now a). split; [|done]. simpl. rewrite Hi'. apply lookup_insert_eq.
Qed.

Lemma AddMessage_bound s now e nodeID grant id t :
  t ≠ ""%string → bound s id t → bound (AddMessageWithGrant s now e nodeID grant).2 id t.
Proof.
  intros Hne Hb. unfold AddMessageWithGrant.
  destruct (checkEnvelope _ _ _ _) as [err|e'] eqn:Hchk; [done|].
  apply checkEnvelope_ok in Hchk as (Hid & Hid' & _). rewrite <-Hid in Hid'.
  destruct (messages s !! m_ID e'); [done|]. guards; try done. unfold addAckLocked.
  destruct (addAckWithinLocked_cases s (nodeReceivedAck e' nodeID now) now (MaxAcks (cfg s)))
    as [[err ->]|(-> & _)]; [done|]. simpl.
  destruct (withDefaultExpiry_ids s now (nodeReceivedAck e' nodeID now)) as (_ & Hm & _).
  apply addMessage_bound; [done..|]. apply insertAck_bound; [by rewrite Hm|done..].
Qed.

Lemma AddAck_bound s now a nodeID grant auth id t :
  Inv s → t ≠ ""%string → bound s id t →
  bound (AddAckWithGrant s now a nodeID grant auth).2 id t.
Proof.
  intros HI Hne Hb. rewrite AddAckWithGrant_eq.
  destruct (ackIncomplete (trimAck a)) eqn:Hinc; [done|].
  apply ackIncomplete_false in Hinc as (Hid & Hm & _). simpl in Hid, Hm.
  destruct (preparedAck_fields s now a nodeID grant) as (Hi' & Hm' & _).
  cbv zeta. repeat case_match; try done; apply postAck_bound; simpl; congruence.
Qed.

Lemma retained_bound s s' kM kA id t :
  R_tags (abs s') = R_tags (retain kM kA (abs s)) → bound s id t →
  bound s' id t ∨ recipientTagForMessageLocked s' id = None.
Proof.
  intros Habs Ht. apply bound_abs in Ht. apply (retain_tag kM kA) in Ht.
  rewrite <-Habs in Ht. unfold bound, recipientTagForMessageLocked.
  simpl in Ht. rewrite lookup_fmap in Ht. case_match; auto.
Qed.

Section runtime.
Context `{!GoRuntime}.

Lemma ImportSnapshot_bound s now p id t :
  Inv s → t ≠ ""%string → y_Purges p = [] → bound s id t → bound (ImportSnapshot s now p).2 id t.
Proof.
  intros HI Hne Hp Hb. unfold ImportSnapshot. rewrite Hp. simpl.
  pose (Q (st : ImportResult * Store) := Inv st.2 ∧ bound st.2 id t).
  enough (Q (foldl (importAck now) (foldl (importMessage now) (mkImportResult 0 0 0 0 0, s)
    (y_Messages p)) (y_Acks p))) as [_ ?] by done.
  apply (foldl_inv Q); [apply (foldl_inv Q); [done|]|].
  - intros [r s'] e _ [HI' Hb']. unfold importMessage.
    assert (bound (importMessageLocked s' now e).2 id t ∧ Inv (importMessageLocked s' now e).2)
      as [? ?]; [|destruct (importMessageLocked s' now e) as [[[]|] ?]; done].
    split; [|by apply importMessageLocked_inv]. unfold importMessageLocked.
    destruct (checkEnvelope _ _ _ _) as [err|e'] eqn:Hchk; [done|].
    apply checkEnvelope_ok in Hchk as (Hid & Hid' & _).
    destruct (messages s' !! m_ID e'); [done|]. guards; try done.
    apply addMessage_bound; [congruence|done..].
  - intros [r s'] a _ [HI' Hb']. unfold importAck.
    assert (bound (importAckLocked s' now a).2 id t ∧ Inv (importAckLocked s' now a).2)
      as [? ?]; [|destruct (importAckLocked s' now a) as [[[]|] ?]; done].
    split; [|by apply importAckLocked_inv]. rewrite importAckLocked_eq.
    destruct (ackIncomplete (trimImportedAck a)) eqn:Hinc; [done|].
    apply ackIncomplete_false in Hinc as (Hid & Hm & _). cbv zeta. case_match; [done|].
    destruct (ackTimes_ids (cfg s') now (Add now (MaxTTL (cfg s'))) (trimImportedAck a)) as (Hi & Hm' & _).
    apply postAck_bound; [done|congruence|congruence|done..].
Qed.

(** The tag a message id is bound to stays in force: whatever operation runs next (an
    import that carries no tombstone included), a non-empty binding is unchanged after it
    unless no record at all names the id any more. A later message or ack for the same
    id, posted or replicated, cannot rebind it, and deleting the message by an ack does
    not unbind it. *)
Theorem tag_stays_bound s o id t :
  Inv s → no_import_purges o → t ≠ ""%string →
  recipientTagForMessageLocked s id = Some t →
  recipientTagForMessageLocked (exec s o).2 id = Some t ∨
  recipientTagForMessageLocked (exec s o).2 id = None.
Proof.
  intros HI Ho Hne Hb.
  pose proof (AddMessage_bound s) as HM. pose proof (AddAck_bound s) as HA.
  pose proof (ImportSnapshot_bound s) as HIm. unfold bound in *.
  destruct o; unfold exec.
  - specialize (HM now e nodeID grant id t). repeat case_match. simpl in *. auto.
  - specialize (HA now a nodeID grant auth id t). repeat case_match. simpl in *. auto.
  - destruct (decide (TrimSpace recipient = ""%string)) as [Hr|Hr].
    + unfold MessagesForRecipient. rewrite Hr. simpl. auto.
    + rewrite MessagesForRecipient_eq by done. eapply retained_bound; [|done].
      cbn [snd]. by rewrite abs_sweepMessages.
  - destruct (decide (TrimSpace sender = ""%string)) as [Hr|Hr].
    + unfold AcksForSender. rewrite Hr. simpl. auto.
    + rewrite AcksForSender_eq by done. eapply retained_bound; [|done].
      cbn [snd]. by rewrite abs_sweepAcks.
  - eapply retained_bound; [|done]. unfold SnapshotSince. cbn [snd]. by rewrite abs_sweeps.
  - specialize (HIm now payload id t). repeat case_match. simpl in *. auto.
  - eapply retained_bound; [|done]. unfold PruneExpired. cbn [snd]. by rewrite abs_sweeps.
  - unfold PurgeOwner. cbv zeta. set (s1 := storePurgeLocked s _).
    assert (Inv s1) as HI1 by (unfold s1; auto with queue_inv).
    destruct (abs_purgeOwnerLocked s1 (TrimSpace purgeHash) HI1) as [Habs _].
    destruct (purgeOwnerLocked s1 _) as [[nm na] s']. cbn [fst snd] in *.
    assert (bound s1 id t) as Hb1.
    { unfold bound, recipientTagForMessageLocked, s1, storePurgeLocked. by repeat case_match. }
    eapply retained_bound; [|exact Hb1]. by rewrite Habs.
Qed.

End runtime.

Lemma tag_stays_bound_witness :
  let o := OAddMessage 2000 (Sample.envelope "m1" "tagX" "") "node" zeroGrant in
  recipientTagForMessageLocked (exec Sample.one o).2 "m1" = Some "tagV"%string ∨
  recipientTagForMessageLocked (exec Sample.one o).2 "m1" = None.
Proof.
  intros o. apply (tag_stays_bound Sample.one o "m1" "tagV");
    [apply Sample.one_inv | done | done | by vm_compute].
Defined.

(** ** Purging an owner *)

Lemma map_len_part {A} (f : string → A → bool) (m m' : gmap string A) :
  m' = keep (λ i v, negb (f i v)) m → Z.of_nat (map_count f m) = map_len m - map_len m'.
Proof.
  intros ->. unfold map_len. rewrite keep_size.
  enough (size m = map_count f m + map_count (λ i v, negb (f i v)) m)%nat by lia.
  rewrite <-(keep_all (λ _ _, true) m) at 1 by done. rewrite keep_size.
  apply map_count_split. intros i v _. by destruct (f i v).
Qed.

(** C23: An owner's purge removes, through the two indexes, exactly the messages that carry
    the hash and exactly the acks that name one of those messages; every other record is
    kept as it was, and the two counts it answers are the numbers of records removed. *)
Theorem purge_exact `{!GoRuntime} s now h :
  Inv s →
  let hash := TrimSpace h in
  let theirs m := hash ≠ ""%string ∧ purgeHashOf m = hash in
  let '((nm, na), s') := PurgeOwner s now h in
  (∀ id m, messages s' !! id = Some m ↔ messages s !! id = Some m ∧ ¬ theirs m) ∧
  (∀ id a, acks s' !! id = Some a ↔
           acks s !! id = Some a ∧ ¬ ∃ m, messages s !! a_MessageID a = Some m ∧ theirs m) ∧
  nm = map_len (messages s) - map_len (messages s') ∧ na = map_len (acks s) - map_len (acks s').
Proof.
  intros HI hash theirs. unfold PurgeOwner. fold hash. set (s1 := storePurgeLocked s _).
  assert (Inv s1) as HI1 by (unfold s1; auto with queue_inv).
  assert (messages s1 = messages s ∧ acks s1 = acks s) as [Hm1 Ha1].
  { unfold s1, storePurgeLocked. by repeat case_match. }
  destruct (abs_purgeOwnerLocked s1 hash HI1) as [Habs Hcnt].
  destruct (purgeOwnerLocked s1 hash) as [[nm na] s']. simpl in Habs, Hcnt.
  pose proof (f_equal R_messages Habs) as Hm. pose proof (f_equal R_acks Habs) as Ha.
  simpl in Hm, Ha. rewrite Hm1 in *. rewrite Ha1 in *.
  assert (∀ i m, owned hash i m = true ↔ theirs m) as Howned.
  { intros i m. unfold owned, theirs, is_empty.
    by rewrite andb_true_iff, negb_true_iff, bool_decide_eq_false, bool_decide_eq_true. }
  injection Hcnt as -> ->. split_and!; [| |by apply map_len_part..].
  - intros id m. rewrite Hm, keep_Some, negb_true_iff, <-not_true_iff_false. by rewrite Howned.
  - intros id a. rewrite Ha, keep_Some, negb_true_iff, <-not_true_iff_false.
    unfold ownedAck. destruct (messages s !! a_MessageID a) as [m|] eqn:E; [rewrite Howned|];
      split; intros [? Hn]; (split; [done|]); naive_solver.
Qed.

Lemma purge_exact_witness :
  let '((nm, na), s') := PurgeOwner Sample.one 2000 "hash" in
  messages Sample.one !! "m1" ≠ None ∧
  nm = map_len (messages Sample.one) - map_len (messages s') ∧ nm = 1 ∧ na = 1.
Proof.
  pose proof (purge_exact Sample.one 2000 "hash" Sample.one_inv) as H. cbv zeta in H.
  assert ((PurgeOwner Sample.one 2000 "hash").1 = (1, 1)) as E by (by vm_compute).
  destruct (PurgeOwner Sample.one 2000 "hash") as [[nm na] s'].
  destruct H as (_ & _ & Hm & _). injection E as -> ->.
  split; [by vm_compute|]. split; [exact Hm|]. split; reflexivity.
Defined.

(** ** No resurrection *)

(** A message that is gone, and its terminal ack, held under that id. *)
Definition settled (r : RefStore) (id k : string) (a : AckRecord) : Prop :=
  R_messages r !! id = None ∧
  R_acks r !! k = Some a ∧ a_MessageID a = id ∧ deletesQueuedMessage (a_Type a) = true.

Lemma settled_terminal r id k a : settled r id k a → spec_terminal r id = true.
Proof.
  intros (_ & Ha & Hi & Ht). unfold spec_terminal. apply Z.ltb_lt.
  pose proof (map_count_pos (λ k a, naming id k a && deletesQueuedMessage (a_Type a))
    (R_acks r) k a Ha) as Hp.
  unfold naming in Hp at 1. rewrite bool_decide_eq_true_2, Ht in Hp by done.
  specialize (Hp eq_refl). lia.
Qed.

Lemma settled_purge r h id k a : settled r id k a → settled (spec_purge h r).2 id k a.
Proof.
  intros (Hm & Ha & Hi & Ht). split; simpl.
  - by rewrite keep_lookup, Hm.
  - split; [|done]. apply keep_Some. split; [done|]. unfold ownedAck. by rewrite Hi, Hm.
Qed.

Lemma settled_storePurge r q id k a : settled r id k a → settled (spec_storePurge q r) id k a.
Proof. unfold spec_storePurge. by case_match. Qed.

Lemma settled_importMessage r now e id k a :
  settled r id k a → settled (spec_importMessage r now e).2 id k a.
Proof.
  intros Hd. unfold spec_importMessage. destruct (checkEnvelope _ _ _ _) as [|e']; [done|].
  destruct (present _ _); [done|]. destruct (spec_purged _ _ _); [done|].
  destruct (spec_terminal r (m_ID e')) eqn:Ht; [done|]. case_match; [done|].
  assert (m_ID e' ≠ id) by (intros <-; erewrite settled_terminal in Ht; done).
  destruct Hd as [Hm Ha]. split; simpl; [by rewrite lookup_insert_ne | done].
Qed.

Lemma settled_postAck r now b id k a : settled r id k a → settled (spec_postAck r now b).2 id k a.
Proof.
  intros Hd. pose proof Hd as (Hm & Ha & Hi & Ht). unfold spec_postAck, spec_insertAckWithin.
  rewrite present_lookup. destruct (R_acks r !! a_ID b) eqn:Eb; [done|].
  destruct (_ <=? _); [done|]. cbv zeta. set (b' := if IsZero _ then _ else _).
  assert (a_ID b' = a_ID b) as Hid by (unfold b'; by case_match).
  destruct (negb _); [done|]. simpl. case_match; (split; simpl; [by rewrite ?keep_lookup, Hm|]); (split; [|done]);
    rewrite ?keep_all, Hid, lookup_insert_ne; congruence.
Qed.

Lemma settled_importAck r now b id k a : settled r id k a → settled (spec_importAck r now b).2 id k a.
Proof.
  intros Hd. unfold spec_importAck. do 2 (case_match; [done|]). by apply settled_postAck.
Qed.

Lemma settled_Import r now p id k a : settled r id k a → settled (spec_Import r now p).2 id k a.
Proof.
  apply (spec_Import_inv (λ r, settled r id k a)).
  - intros r' q _ _ Hd. by apply settled_purge, settled_storePurge.
  - intros r' e. apply settled_importMessage.
  - intros r' b. apply settled_importAck.
Qed.

(** C24: Replication never brings back a message that was delivered, rejected or
    retracted: while a terminal ack of the message is held and the message is not, no
    page a peer can serve makes an import store it again. *)
Theorem import_never_redelivers `{!GoRuntime} s now p id :
  Inv s → messages s !! id = None →
  (∃ k a, acks s !! k = Some a ∧ a_MessageID a = id ∧ deletesQueuedMessage (a_Type a) = true) →
  messages (ImportSnapshot s now p).2 !! id = None.
Proof.
  intros HI Hm (k & a & Ha). pose proof (abs_ImportSnapshot s now p HI) as Habs.
  enough (settled (spec_Import (abs s) now p).2 id k a) as [Hd _] by (by rewrite Habs in Hd).
  by apply settled_Import.
Qed.

Lemma import_never_redelivers_witness :
  let s := (AddAck Sample.one 2000 (Sample.ack "a1" "m1" AckRecipientRead 0) "node").2 in
  let p := mkSyncPayload "peer" "e" 1 false [Sample.envelope "m1" "" ""] [] [] [] [] in
  messages (ImportSnapshot s 3000 p).2 !! "m1" = None.
Proof.
  intros s p. apply (import_never_redelivers s 3000 p "m1").
  - apply AddAckWithGrant_inv, Sample.one_inv.
  - by vm_compute.
  - destruct (acks s !! "a1") as [a|] eqn:E; [|by vm_compute in E].
    exists "a1", a. split; [exact E|].
    assert (from_option (λ a, bool_decide (a_MessageID a = "m1"%string)
      && deletesQueuedMessage (a_Type a)) false (acks s !! "a1") = true) as H by (by vm_compute).
    rewrite E in H. cbn [from_option] in H. apply andb_true_iff in H as [H1 H2].
    split; [exact (bool_decide_eq_true_1 _ H1) | exact H2].
Defined.

(** The tombstone of [h] is held until [T] at least and no message with the hash is. *)
Definition buried (h : string) (T : Time) (ttl : Duration) (r : RefStore) : Prop :=
  DefaultTTL (R_cfg r) = ttl ∧
  (∃ p, R_purges r !! h = Some p ∧ T ≤ p_ExpiresAt p) ∧
  (∀ id m, R_messages r !! id = Some m → purgeHashOf m ≠ h).

(** What runs after the purge: operations from the time of the purge on and before [T],
    and no page with a tombstone of the same hash that ends earlier. *)
Definition within (h : string) (t T : Time) (o : Op) : Prop :=
  t ≤ op_now o < T ∧
  match o with
  | OImport _ p => ∀ q, q ∈ y_Purges p → p_PurgeHash q = h → T ≤ p_ExpiresAt q
  | _ => True
  end.

Section buried.
Context (h : string) (t T : Time) (ttl : Duration) (Hh : h ≠ ""%string) (HT : T ≤ t + ttl).
Abbreviation B := (buried h T ttl).
Implicit Types (r : RefStore).

Lemma buried_retain kM kA r : B r → B (retain kM kA r).
Proof.
  intros (Hc & Hp & Hm). split_and!; [done..|]. simpl. intros id m [? _]%keep_Some. eauto.
Qed.

Lemma buried_expire now r : now < T → B r → B (spec_expire now r).
Proof.
  intros Hnow HB. apply (buried_retain (live_message now) (live_ack now)) in HB as (Hc & (p & Hp & HpT) & Hm).
  split_and!; [done| |done]. exists p. split; [|done]. simpl. apply keep_Some. split; [done|].
  unfold live_purge, After. apply Z.ltb_lt. lia.
Qed.

Lemma buried_storePurge p r : (p_PurgeHash p = h → T ≤ p_ExpiresAt p) → B r → B (spec_storePurge p r).
Proof.
  intros Hpe (Hc & (q & Hq & HqT) & Hm). unfold spec_storePurge. case_match; [by split; eauto|].
  split_and!; [done| |done]. simpl. destruct (decide (p_PurgeHash p = h)) as [<-|Hne].
  - exists p. rewrite lookup_insert_eq. auto.
  - exists q. by rewrite lookup_insert_ne.
Qed.

Lemma buried_purged r e now :
  B r → now < T → spec_purged r e now = false → purgeHashOf e ≠ h.
Proof.
  intros (_ & (p & Hp & HpT) & _) Hnow Hpd He. unfold spec_purged, is_empty in Hpd.
  rewrite He, Hp, (bool_decide_eq_false_2 (h = _)) in Hpd by done. simpl in Hpd.
  reflect_bools. lia.
Qed.

Lemma buried_insertMessage r e c : purgeHashOf e ≠ h → B r → B (insertMessage r e c).
Proof.
  intros He (Hc & Hp & Hm). split_and!; [done..|]. simpl. intros id m [[_ <-]|[_ ?]]%lookup_insert_Some;
    [done|eauto].
Qed.

Lemma buried_insertAck r a now cap : B r → B (spec_insertAckWithin r a now cap).2.
Proof. intros HB. unfold spec_insertAckWithin. repeat (case_match; [done|]). exact HB. Qed.

Lemma buried_postAck r now a : B r → B (spec_postAck r now a).2.
Proof.
  intros HB. unfold spec_postAck.
  pose proof (buried_insertAck r a now (MaxAcks (R_cfg r) - MaxMessages (R_cfg r)) HB) as HB'.
  destruct (spec_insertAckWithin _ _ _ _) as [[err|] r']; [done|]. simpl in *.
  case_match; [by apply buried_retain | done].
Qed.

Lemma buried_AddMessage r now e nodeID grant :
  now < T → B r → B (spec_AddMessage r now e nodeID grant).2.
Proof.
  intros Hnow HB. unfold spec_AddMessage. destruct (checkEnvelope _ _ _ _) as [|m]; [done|].
  destruct (present _ _); [done|]. destruct (spec_purged r m now) eqn:Hpd; [done|].
  do 3 (case_match; [done|]).
  pose proof (buried_insertAck r (nodeReceivedAck m nodeID now) now (MaxAcks (R_cfg r)) HB) as HB'.
  destruct (spec_insertAckWithin _ _ _ _) as [[err|] r']; [done|].
  apply buried_insertMessage; [exact (buried_purged r m now HB Hnow Hpd) | done].
Qed.

Lemma buried_AddAck r now a nodeID grant auth : B r → B (spec_AddAck r now a nodeID grant auth).2.
Proof.
  intros HB. unfold spec_AddAck. destruct (ackIncomplete _); [done|]. cbv zeta.
  destruct (negb _); [done|]. destruct (R_tags r !! _); [destruct (permits _ _); [|done]|];
    by apply buried_postAck.
Qed.

Lemma buried_importMessage r now e : now < T → B r → B (spec_importMessage r now e).2.
Proof.
  intros Hnow HB. unfold spec_importMessage. destruct (checkEnvelope _ _ _ _) as [|m]; [done|].
  destruct (present _ _); [done|]. destruct (spec_purged r m now) eqn:Hpd; [done|].
  do 2 (case_match; [done|]). apply buried_insertMessage; [exact (buried_purged r m now HB Hnow Hpd) | done].
Qed.

Lemma buried_importAck r now a : B r → B (spec_importAck r now a).2.
Proof. intros HB. unfold spec_importAck. do 2 (case_match; [done|]). by apply buried_postAck. Qed.

Lemma buried_Import r now p : within h t T (OImport now p) → B r → B (spec_Import r now p).2.
Proof.
  intros [[_ Hnow] Hq] HB. simpl in Hnow, Hq. apply spec_Import_inv; [| | |done].
  - intros r' q Hin _ HB'. apply buried_retain, buried_storePurge; auto.
  - intros r' e. by apply buried_importMessage.
  - intros r' a. apply buried_importAck.
Qed.

Lemma buried_step r o resp r' : spec_step r o resp r' → within h t T o → B r → B r'.
Proof.
  intros Hstep Hw HB. pose proof Hw as [[Ht HTo] _].
  destruct Hstep as [?????? ? E|??????? E| | | | | | ???? E| |???? ? ? E]; simpl in Ht, HTo; try done.
  - change r' with ((ack, err), r').2. rewrite <-E. by apply buried_AddMessage.
  - change r' with (err, r').2. rewrite <-E. by apply buried_AddAck.
  - by apply buried_retain.
  - by apply buried_retain.
  - by apply buried_expire.
  - change r' with (res, r').2. rewrite <-E. by apply buried_Import.
  - by apply buried_expire.
  - change r' with ((nm, na), r').2. rewrite <-E. apply buried_retain, buried_storePurge; [|done].
    destruct HB as (Hc & _). rewrite Hc. simpl. unfold Add. lia.
Qed.
End buried.

(** An owner's purge is final for as long as its tombstone lasts: from the purge on,
    over every run of operations within [DefaultTTL] of it, no message carrying the hash
    is ever held, whether it is posted again, replicated by a peer or was held before;
    provided the tombstone found room, and no peer replaces it by a shorter one. *)
Theorem purge_is_final `{!GoRuntime} s t h tr s' :
  Inv s → 0 ≤ DefaultTTL (cfg s) → TrimSpace h ≠ ""%string →
  map_len (purges s) < MaxPurges (cfg s) ∨ is_Some (purges s !! TrimSpace h) →
  steps (PurgeOwner s t h).2 tr s' →
  Forall (λ x, within (TrimSpace h) t (t + DefaultTTL (cfg s)) x.1) tr →
  ∀ id m, messages s' !! id = Some m → purgeHashOf m ≠ TrimSpace h.
Proof.
  intros HI Httl Hh Hroom Hsteps Hw.
  assert (buried (TrimSpace h) (t + DefaultTTL (cfg s)) (DefaultTTL (cfg s))
    (abs (PurgeOwner s t h).2)) as HB.
  2:{ apply (steps_spec_inv (buried (TrimSpace h) (t + DefaultTTL (cfg s)) (DefaultTTL (cfg s)))
        (within (TrimSpace h) t (t + DefaultTTL (cfg s))) _ tr s') in HB as (_ & _ & Hm);
        [exact Hm| |done| |done].
      - intros. by eapply (buried_step _ t).
      - unfold PurgeOwner. auto with queue_inv. }
  unfold PurgeOwner. cbv zeta. set (p := mkPurgeRecord _ _).
  assert (Inv (storePurgeLocked s p)) as HI' by auto with queue_inv.
  destruct (abs_purgeOwnerLocked (storePurgeLocked s p) (TrimSpace h) HI') as [-> _].
  rewrite abs_storePurgeLocked. unfold spec_storePurge. rewrite present_lookup. simpl.
  destruct (negb _ && _) eqn:Hfull.
  { exfalso. destruct Hroom as [?|[q Hq]]; [|by rewrite Hq in Hfull]. reflect_bools. lia. }
  split_and!; [done| |]; simpl.
  - exists p. rewrite lookup_insert_eq. done.
  - intros id m [_ Hm]%keep_Some Heq. unfold owned, is_empty in Hm.
    by rewrite (bool_decide_eq_false_2 (TrimSpace h = _)), Heq, bool_decide_eq_true_2 in Hm.
Qed.

Lemma purge_is_final_witness :
  let ops := [Sample.post 3000 "m1" "" "hash"; Sample.post 4000 "m2" "" "other"] in
  let s' := (run (PurgeOwner Sample.one 2000 "hash").2 ops).2 in
  is_Some (messages s' !! "m2") ∧
  ∀ id m, messages s' !! id = Some m → purgeHashOf m ≠ TrimSpace "hash".
Proof.
  intros ops s'. split; [apply (bool_decide_unpack (is_Some _)); by vm_compute|].
  apply (purge_is_final Sample.one 2000 "hash" (run (PurgeOwner Sample.one 2000 "hash").2 ops).1 s').
  - apply Sample.one_inv.
  - by vm_compute.
  - by vm_compute.
  - left. by vm_compute.
  - exact (run_steps (PurgeOwner Sample.one 2000 "hash").2 ops).
  - apply Forall_cons. split; [by vm_compute|]. apply Forall_cons. split; [by vm_compute|]. constructor.
Defined.
