(* ===== verification/QueueWithdraw.v ===== *)
(** * What an import withdraws

    A terminal ack that a peer offers is taken, and held with what it says, and its message is
    gone from then on, unless the caller lane of the ack map has no room for it or another ack
    has its id. *)

From Stdlib Require Import Strings.String.
From S2P Require Import Prelude Model Capability QueueStore QueueInv QueueSpec QueueSteps QueueOwner.

Open Scope Z_scope.

(** The ack as its sender gets it: what it says of which message, for whom, under which tags. *)
Definition sameAck (e a : AckRecord) : Prop :=
  a_ID a = TrimSpace (a_ID e) ∧ a_MessageID a = TrimSpace (a_MessageID e) ∧
  a_Sender a = TrimSpace (a_Sender e) ∧ a_Recipient a = TrimSpace (a_Recipient e) ∧
  a_Type a = a_Type e ∧ a_SenderTag a = a_SenderTag e ∧ a_RecipientTag a = a_RecipientTag e.

Lemma imported_sameAck c now maxExpiry e : sameAck e (ackTimes c now maxExpiry (trimImportedAck e)).
Proof. unfold ackTimes. cbv zeta. by repeat case_match. Qed.

Section withdrawal.
(** The caps of the queue, the ids of the acks that it and its peers may hold, and a
    terminal ack. *)
Context (c : StoreConfig) (Y : gset string) (a0 : AckRecord).
Context (Hroom : Z.of_nat (size Y) ≤ MaxAcks c - MaxMessages c).
Context (Hterm : deletesQueuedMessage (a_Type a0) = true).

Abbreviation aid := (TrimSpace (a_ID a0)).
Abbreviation mid := (TrimSpace (a_MessageID a0)).

(** The ack is not held yet. *)
Record Awaiting (r : RefStore) : Prop := {
  aw_cfg : R_cfg r = c;
  aw_ids : ∀ k, is_Some (R_acks r !! k) → k ∈ Y;
  aw_new : R_acks r !! aid = None;
}.

(** The store takes the ack at that time. *)
Definition takesAck (now : Time) : Prop :=
  ackIncomplete (trimImportedAck a0) = false ∧ 0 ≤ now ∧
  now < a_ExpiresAt (ackTimes c now (Add now (MaxTTL c)) (trimImportedAck a0)).

(** An ack that does not take its id. *)
Definition fitsAck (a : AckRecord) : Prop := TrimSpace (a_ID a) ∈ Y ∧ (TrimSpace (a_ID a) = aid → a = a0).

Lemma awaiting_same r r' : R_cfg r' = R_cfg r → R_acks r' ⊆ R_acks r → Awaiting r → Awaiting r'.
Proof.
  intros Hc Hk [H1 H2 H3]. split; [by rewrite Hc| |].
  - intros k [a Ha]. apply H2. exists a. by eapply lookup_weaken.
  - destruct (R_acks r' !! aid) as [a|] eqn:Ha; [|done]. eapply lookup_weaken in Ha; [|exact Hk]. congruence.
Qed.

Lemma awaiting_room r : Awaiting r → aid ∈ Y → map_len (R_acks r) < MaxAcks c - MaxMessages c.
Proof.
  intros [_ Hids Hnew] HY. unfold map_len. rewrite <-size_dom.
  enough (size (dom (R_acks r)) < size Y)%nat by lia. apply subset_size. split.
  - intros k Hk%elem_of_dom. by apply Hids.
  - intros Hsub. apply Hsub, elem_of_dom in HY as [a Ha]. congruence.
Qed.

(** *** The three kinds of records *)

Lemma awaiting_purge q h r : Awaiting r → Awaiting (spec_purge h (spec_storePurge q r)).2.
Proof.
  apply awaiting_same; cbn; [unfold spec_storePurge; by case_match|].
  transitivity (R_acks (spec_storePurge q r)); [apply keep_subseteq|]. unfold spec_storePurge. by case_match.
Qed.

Lemma awaiting_importMessage r now e : Awaiting r → Awaiting (spec_importMessage r now e).2.
Proof.
  unfold spec_importMessage. destruct (checkEnvelope _ _ _ _); [done|]. do 4 (case_match; [done|]). by apply awaiting_same.
Qed.

(** It is held, and its message is gone. *)
Definition Withdrawn (r : RefStore) : Prop := ∃ b, settled r mid aid b ∧ sameAck a0 b.

(** What an ack leaves in the store when it is taken. *)
Lemma postAck_taken r now a :
  let r' := (spec_postAck r now a).2 in
  r' = r ∨ ∃ a', (∀ e, sameAck e a → sameAck e a') ∧ R_acks r !! a_ID a = None ∧
    R_cfg r' = R_cfg r ∧ R_acks r' = <[a_ID a := a']> (R_acks r) ∧
    (deletesQueuedMessage (a_Type a) = true → R_messages r' !! a_MessageID a = None).
Proof.
  cbv zeta. unfold spec_postAck, spec_insertAckWithin. rewrite present_lookup.
  destruct (R_acks r !! a_ID a) eqn:Hnew; [by left|]. destruct (_ <=? _); [by left|].
  cbv zeta. set (a' := if IsZero _ then _ else _).
  assert (a_ID a' = a_ID a ∧ ∀ e, sameAck e a → sameAck e a') as (H1 & H2) by (unfold a'; by case_match).
  clearbody a'. destruct (negb (After (a_ExpiresAt a') now)); [by left|]. right. exists a'.
  destruct (deletesQueuedMessage (a_Type a)) eqn:Hd; cbn; rewrite <-H1.
  - split_and!; [done..|by rewrite keep_all|]. intros _. rewrite keep_lookup.
    destruct (R_messages r !! a_MessageID a); cbn; [|done]. by rewrite bool_decide_eq_true_2.
  - by split_and!.
Qed.

(** The pulled ack, once it is in. *)
Lemma taken_withdrawn r now :
  let a := ackTimes (R_cfg r) now (Add now (MaxTTL (R_cfg r))) (trimImportedAck a0) in
  let r' := (spec_postAck r now a).2 in
  r' = r ∨ Withdrawn r'.
Proof.
  intros a r'. pose proof (imported_sameAck (R_cfg r) now (Add now (MaxTTL (R_cfg r))) a0) as Hsame.
  fold a in Hsame. clearbody a. pose proof Hsame as (Hi & Hmi & _ & _ & Hty & _).
  destruct (postAck_taken r now a) as [?|(a' & Hs & _ & _ & Hk & Hm)]; [by left|right].
  specialize (Hs a0 Hsame). exists a'. split; [|done]. fold r' in Hk, Hm.
  destruct Hs as (H1 & H2 & _ & _ & H5 & _). split; [rewrite <-Hmi; apply Hm; by rewrite Hty|].
  split; [by rewrite Hk, Hi, lookup_insert_eq|]. split; [done|by rewrite H5].
Qed.

Lemma withdraw_importAck r now a :
  fitsAck a → Awaiting r →
  let r' := (spec_importAck r now a).2 in Awaiting r' ∨ Withdrawn r'.
Proof.
  intros [HY Hid] Hw. cbv zeta. unfold spec_importAck. destruct (ackIncomplete _); [by left|]. cbv zeta.
  case_match; [by left|]. destruct (decide (TrimSpace (a_ID a) = aid)) as [Heq|Hne].
  - rewrite (Hid Heq). destruct (taken_withdrawn r now) as [->|?]; [by left|by right].
  - pose proof (imported_sameAck (R_cfg r) now (Add now (MaxTTL (R_cfg r))) a) as (Hi & _).
    left. destruct (postAck_taken r now (ackTimes (R_cfg r) now (Add now (MaxTTL (R_cfg r))) (trimImportedAck a)))
      as [->|(a' & _ & _ & Hc & Hk & _)]; [done|].
    destruct Hw as [W1 W2 W3]. split; [congruence| |].
    + intros k. rewrite Hk, Hi. intros [b [[<- _]|[_ Hb]]%lookup_insert_Some]; [done|by apply W2].
    + by rewrite Hk, Hi, lookup_insert_ne.
Qed.

Lemma takes_importAck r now :
  aid ∈ Y → takesAck now → Awaiting r → Withdrawn (spec_importAck r now a0).2.
Proof.
  intros HY (Hinc & Hnow & Hexp) Hw. pose proof (awaiting_room r Hw HY) as Hlen. destruct Hw as [Hc _ Hnew].
  unfold spec_importAck. rewrite Hinc. cbv zeta. rewrite <-Hc in Hexp, Hlen.
  pose proof (taken_withdrawn r now) as Ht. cbv zeta in Ht.
  pose proof (imported_sameAck (R_cfg r) now (Add now (MaxTTL (R_cfg r))) a0) as (Hi & _).
  set (a1 := ackTimes _ _ _ _) in *. clearbody a1.
  assert (After (a_ExpiresAt a1) now = true) as Haf by (by apply Z.ltb_lt). rewrite Haf. cbn [negb].
  destruct Ht as [Hsame|]; [|done].
  exfalso. revert Hsame. unfold spec_postAck, spec_insertAckWithin. rewrite present_lookup, Hi, Hnew.
  rewrite (proj2 (Z.leb_gt _ _)) by lia. cbv zeta. set (a' := if IsZero _ then _ else _).
  assert (a_ID a' = aid ∧ After (a_ExpiresAt a') now = true) as [Hia ->].
  { unfold a', IsZero. rewrite (proj2 (Z.eqb_neq _ _)) by lia. done. }
  intros Hsame%(f_equal R_acks).
  assert (<[a_ID a' := a']> (R_acks r) = R_acks r) as Heq.
  { destruct (deletesQueuedMessage (a_Type a1)); cbn in Hsame; by rewrite ?keep_all in Hsame. }
  rewrite Hia in Heq. rewrite <-Heq, lookup_insert_eq in Hnew. done.
Qed.

(** *** A whole page, and a run of imports *)

Definition Withdrawing (r : RefStore) : Prop := Awaiting r ∨ Withdrawn r.

Lemma withdrawn_by (f : RefStore → RefStore) r :
  (∀ b, settled r mid aid b → settled (f r) mid aid b) → Withdrawn r → Withdrawn (f r).
Proof. intros Hf (b & Hb & Hs). exists b. auto. Qed.

Lemma withdrawn_importAck r now a : Withdrawn r → Withdrawn (spec_importAck r now a).2.
Proof. apply (withdrawn_by (λ r, (spec_importAck r now a).2)). intros b. apply settled_importAck. Qed.

Lemma withdraw_acks now l (st : ImportResult * RefStore) :
  (∀ a, a ∈ l → fitsAck a) → Withdrawing st.2 →
  let st' := foldl (λ '(res, r) a, let '(err, r) := spec_importAck r now a in (tally_ack res err, r)) st l in
  Withdrawing st'.2 ∧ (Withdrawn st.2 ∨ a0 ∈ l ∧ takesAck now → Withdrawn st'.2).
Proof.
  revert st. induction l as [|a l IH]; intros [res r] Hl Hw; cbn [foldl].
  { split; [done|]. by intros [?|[?%not_elem_of_nil _]]. }
  assert (Withdrawing (spec_importAck r now a).2 ∧
    (Withdrawn r ∨ a = a0 ∧ takesAck now → Withdrawn (spec_importAck r now a).2)) as [Hw' Hd].
  { destruct (Hl a) as [HY Hid]; [by left|]. cbn in Hw. destruct Hw as [Hw|Hg].
    - split; [by apply withdraw_importAck|]. intros [Hg|[-> Ht]]; [by apply withdrawn_importAck|].
      by apply takes_importAck.
    - pose proof (withdrawn_importAck r now a Hg). split; [by right|done]. }
  destruct (spec_importAck r now a) as [err r']. cbn [snd] in *.
  destruct (IH (tally_ack res err, r')) as [Hw'' Hd'']; [intros a' Ha'; apply Hl; by right|done|].
  split; [exact Hw''|]. intros Hor. apply Hd''. cbn [snd].
  destruct Hor as [Hg|[[<-|Hin]%elem_of_cons Ht]]; [left; auto|left; auto|by right].
Qed.

Lemma withdraw_Import r now p :
  (∀ a, a ∈ y_Acks p → fitsAck a) → Withdrawing r →
  Withdrawing (spec_Import r now p).2 ∧
  (Withdrawn r ∨ a0 ∈ y_Acks p ∧ takesAck now → Withdrawn (spec_Import r now p).2).
Proof.
  intros Ha Hw. unfold spec_Import. cbv zeta.
  set (st1 := foldl _ (_, r) (y_Purges p)).
  assert (Withdrawing st1.2 ∧ (Withdrawn r → Withdrawn st1.2)) as [Hw1 Hd1].
  { apply (foldl_inv (λ st, Withdrawing st.2 ∧ (Withdrawn r → Withdrawn st.2))); [done|].
    intros [res r'] q _ [Hw' Hd']. cbn in *. case_match; [done|].
    assert (Withdrawn r' → Withdrawn (spec_purge (p_PurgeHash q) (spec_storePurge q r')).2) as Hp.
    { apply (withdrawn_by (λ r, (spec_purge (p_PurgeHash q) (spec_storePurge q r)).2)).
      intros b Hb. by apply settled_purge, settled_storePurge. }
    split; [|by auto]. destruct Hw' as [Hw'|Hg]; [left; by apply awaiting_purge|right; auto]. }
  set (st2 := foldl _ st1 (y_Messages p)).
  assert (Withdrawing st2.2 ∧ (Withdrawn r → Withdrawn st2.2)) as [Hw2 Hd2].
  { apply (foldl_inv (λ st, Withdrawing st.2 ∧ (Withdrawn r → Withdrawn st.2))); [done|].
    intros [res r'] e _ [Hw' Hd']. cbn in Hw', Hd'.
    pose proof (awaiting_importMessage r' now e) as Hx.
    pose proof (withdrawn_by (λ r, (spec_importMessage r now e).2) r'
      (λ b, settled_importMessage r' now e mid aid b)) as Hy. cbv beta in Hy.
    destruct (spec_importMessage r' now e) as [err r'']. cbn in *. split; [|auto]. destruct Hw'; [left|right]; auto. }
  destruct (withdraw_acks now (y_Acks p) st2 Ha Hw2) as [Hw3 Hd3]. split; [exact Hw3|].
  intros [Hg|Hin]; apply Hd3; auto.
Qed.

Definition fittingAcks (T : Time → Prop) (x : Op * Response) : Prop :=
  ∃ now p, x.1 = OImport now p ∧ T now ∧ ∀ a, a ∈ y_Acks p → fitsAck a.

Lemma imports_withdraw (T : Time → Prop) s tr s' :
  (∀ now, T now → takesAck now) → steps s tr s' → Inv s → Withdrawing (abs s) → Forall (fittingAcks T) tr →
  Withdrawn (abs s) ∨ Exists (λ x, ∃ now p, x.1 = OImport now p ∧ a0 ∈ y_Acks p) tr →
  Withdrawn (abs s').
Proof.
  intros HT. induction 1 as [s|rt s o tr s' _ IH]; intros HI Hw Htr Hor.
  { destruct Hor as [?|Hex]; [done|]. by apply Exists_nil in Hex. }
  apply Forall_cons in Htr as [(now & p & Ho & Hnow & Hfit) Htr]. cbn in Ho. subst o.
  pose proof (abs_ImportSnapshot s now p HI) as Habs. pose proof (exec_inv s (OImport now p) HI) as HI'.
  destruct (withdraw_Import (abs s) now p Hfit Hw) as [Hw' Hd']. rewrite Habs in Hw', Hd'. cbn [exec] in *.
  destruct (ImportSnapshot s now p) as [res s1]. cbn [fst snd] in *. apply (IH HI' Hw' Htr).
  destruct Hor as [Hg|[(now' & p' & Heq & Hin)|Hex]%Exists_cons]; [by auto| |by right].
  left. apply Hd'. right. cbn in Heq. injection Heq as <- <-. auto.
Qed.
End withdrawal.
