(* ===== verification/QueueLimits.v ===== *)
(** * The message and ack queue: capacity and retention

    The two budgets of the ack lane, the bound on how long a record is held, and the
    lane key. Three theorems show where the code does less than its comments say. *)

From S2P Require Import Prelude Model Capability QueueStore QueueInv QueueSpec QueueSteps QueueProps.

Open Scope Z_scope.

(** ** The ack lane *)

(** An ack is coupled when it is the receipt of a message that is held and expires with
    it: the part of the lane that is sized by the message cap. *)
Definition coupled (ms : gmap string MessageEnvelope) (k : string) (a : AckRecord) : bool :=
  bool_decide (k = a_MessageID a +:+ ":node_received")
  && match ms !! a_MessageID a with
     | Some m => bool_decide (m_ExpiresAt m = a_ExpiresAt a)
     | None => false
     end.

(** The acks that callers' budget pays for. *)
Definition loose (r : RefStore) : nat :=
  map_count (λ k a, negb (coupled (R_messages r) k a)) (R_acks r).

Definition lane_ok (r : RefStore) : Prop :=
  Z.of_nat (loose r) ≤ MaxAcks (R_cfg r) - MaxMessages (R_cfg r).

Lemma map_count_mono {A} (P P' : string → A → bool) (m m' : gmap string A) :
  (∀ k v, m' !! k = Some v → P' k v = true → m !! k = Some v ∧ P k v = true) →
  (map_count P' m' ≤ map_count P m)%nat.
Proof.
  intros HPQ. apply map_subseteq_size, map_subseteq_spec. intros k v.
  rewrite !map_lookup_filter_Some. intros [Hk HP]. auto.
Qed.

(** Coupling is a matter of two records: an ack that stays loose was loose. *)
Lemma loose_mono r r' :
  R_cfg r' = R_cfg r →
  (∀ k a, R_acks r' !! k = Some a → coupled (R_messages r') k a = false →
          R_acks r !! k = Some a ∧ coupled (R_messages r) k a = false) →
  lane_ok r → lane_ok r'.
Proof.
  intros Hc Hmono Hok. unfold lane_ok in *. rewrite Hc.
  enough (loose r' ≤ loose r)%nat by lia. apply map_count_mono.
  intros k a Ha. rewrite !negb_true_iff. auto.
Qed.

Lemma coupled_split ms k a :
  coupled ms k a = true ↔
  k = a_MessageID a +:+ ":node_received" ∧
  ∃ m, ms !! a_MessageID a = Some m ∧ m_ExpiresAt m = a_ExpiresAt a.
Proof.
  unfold coupled. rewrite andb_true_iff, bool_decide_eq_true.
  destruct (ms !! a_MessageID a); [rewrite bool_decide_eq_true|]; naive_solver.
Qed.

(** Deletions that keep the message of every coupled ack they keep. *)
Lemma lane_retain kM kA r :
  (∀ k a m, R_acks r !! k = Some a → kA k a = true → R_messages r !! a_MessageID a = Some m →
            m_ExpiresAt m = a_ExpiresAt a → kM (a_MessageID a) m = true) →
  lane_ok r → lane_ok (retain kM kA r).
Proof.
  intros Hkeep. apply loose_mono; [done|]. simpl. intros k a [Ha HkA]%keep_Some Hc. split; [done|].
  apply not_true_iff_false in Hc. apply not_true_iff_false. contradict Hc.
  apply coupled_split in Hc as (Hk & m & Hm & He). apply coupled_split. split; [done|].
  exists m. split; [|done]. apply keep_Some. eauto.
Qed.

Lemma lane_insertMessage r m c :
  R_messages r !! m_ID m = None → lane_ok r → lane_ok (insertMessage r m c).
Proof.
  intros Hm. apply loose_mono; [done|]. simpl. intros k a Ha Hc. split; [done|].
  apply not_true_iff_false in Hc. apply not_true_iff_false. contradict Hc.
  apply coupled_split in Hc as (Hk & m' & Hm' & He). apply coupled_split. split; [done|].
  exists m'. split; [|done]. rewrite lookup_insert_ne; [done|congruence].
Qed.

Lemma lane_postAck r now a : 0 ≤ MaxMessages (R_cfg r) → lane_ok r → lane_ok (spec_postAck r now a).2.
Proof.
  intros Hpos Hok. unfold spec_postAck, spec_insertAckWithin. rewrite present_lookup.
  destruct (R_acks r !! a_ID a) eqn:Ha; [done|]. destruct (_ <=? _) eqn:Hcap; [done|]. cbv zeta.
  set (a' := if IsZero _ then _ else _).
  assert (a_ID a' = a_ID a) as Hid by (unfold a'; by case_match).
  destruct (negb (After _ _)); [done|]. reflect_bools. cbn [snd].
  assert (∀ r', R_cfg r' = R_cfg r → (size (R_acks r') ≤ S (size (R_acks r)))%nat → lane_ok r') as Hsz.
  { intros r' Hc Hs. unfold lane_ok, loose. rewrite Hc.
    pose proof (map_count_size (λ k a, negb (coupled (R_messages r') k a)) (R_acks r')).
    unfold map_len in Hcap. lia. }
  case_match; apply Hsz; simpl; try done.
  - rewrite keep_all by done. rewrite Hid, map_size_insert_None by done. lia.
  - rewrite Hid, map_size_insert_None by done. lia.
Qed.

Lemma lane_AddMessage r now e nodeID grant :
  0 ≤ now → lane_ok r → lane_ok (spec_AddMessage r now e nodeID grant).2.
Proof.
  intros Hnow Hok. unfold spec_AddMessage. destruct (checkEnvelope _ _ _ _) as [|m] eqn:Hchk; [done|].
  apply checkEnvelope_ok in Hchk as (_ & _ & Hexp & _).
  destruct (present _ (m_ID m)) eqn:Hp; [done|].
  do 4 (case_match; [done|]). rewrite present_lookup in Hp. unfold spec_insertAckWithin. set (a := nodeReceivedAck m nodeID now).
  rewrite present_lookup. destruct (R_acks r !! a_ID a) eqn:Ha; [done|].
  destruct (MaxAcks _ <=? _); [done|]. cbv zeta.
  assert (IsZero (a_ExpiresAt a) = false) as -> by (apply Z.eqb_neq; simpl; lia).
  destruct (negb (After _ _)); [done|]. cbn [snd]. revert Hok. apply loose_mono; [done|].
  intros k b Hb Hc. simpl in Hb. apply not_true_iff_false in Hc.
  destruct (decide (a_ID a = k)) as [<-|Hne].
  - rewrite lookup_insert_eq in Hb. simplify_eq. destruct Hc. apply coupled_split.
    split; [done|]. exists m. simpl. by rewrite lookup_insert_eq.
  - rewrite lookup_insert_ne in Hb by done. split; [done|]. apply not_true_iff_false.
    contradict Hc. apply coupled_split in Hc as (Hk & m' & Hm' & He). apply coupled_split.
    split; [done|]. exists m'. split; [|done]. simpl. rewrite lookup_insert_ne; [done|].
    intros Heq. by rewrite Heq, Hm' in Hp.
Qed.

Lemma lane_expire now r : lane_ok r → lane_ok (spec_expire now r).
Proof.
  intros Hok. assert (lane_ok (retain (live_message now) (live_ack now) r)); [|done].
  apply lane_retain; [|done]. unfold live_message, live_ack. by intros k a m _ Hl _ ->.
Qed.

Lemma lane_purge h r : lane_ok r → lane_ok (spec_purge h r).2.
Proof.
  apply lane_retain. intros k a m _ Hl Hm _. unfold ownedAck in Hl. by rewrite Hm in Hl.
Qed.

Lemma lane_storePurge p r : lane_ok r → lane_ok (spec_storePurge p r).
Proof. intros Hok. unfold spec_storePurge. by case_match. Qed.

Lemma lane_importMessage r now e : lane_ok r → lane_ok (spec_importMessage r now e).2.
Proof.
  intros Hok. unfold spec_importMessage. destruct (checkEnvelope _ _ _ _) as [|m]; [done|].
  destruct (present _ (m_ID m)) eqn:Hp; [done|]. do 3 (case_match; [done|]).
  apply lane_insertMessage; [|done]. rewrite present_lookup in Hp. by case_match.
Qed.

Lemma lane_importAck r now a :
  0 ≤ MaxMessages (R_cfg r) → lane_ok r → lane_ok (spec_importAck r now a).2.
Proof.
  intros Hpos Hok. unfold spec_importAck. do 2 (case_match; [done|]). by apply lane_postAck.
Qed.

Definition capped (r : RefStore) : Prop := 0 ≤ MaxMessages (R_cfg r) ∧ lane_ok r.

Lemma capped_Import r now p : capped r → capped (spec_Import r now p).2.
Proof.
  apply spec_Import_inv.
  - intros r' q _ _ [Hpos Hok]. split; simpl; [by rewrite spec_storePurge_cfg|].
    by apply lane_purge, lane_storePurge.
  - intros r' e [Hpos Hok]. split; [by rewrite spec_importMessage_cfg | by apply lane_importMessage].
  - intros r' a [Hpos Hok]. split; [by rewrite spec_importAck_cfg | by apply lane_importAck].
Qed.

(** Every operation but the recipient's read keeps the lane's books. *)
Definition not_a_read (o : Op) : Prop :=
  0 ≤ op_now o ∧ match o with OMessagesFor _ _ _ _ => False | _ => True end.

Lemma lane_step r o resp r' : spec_step r o resp r' → not_a_read o → capped r → capped r'.
Proof.
  intros Hstep [Hnow Hread] [Hpos Hok].
  split; [by rewrite (spec_step_cfg _ _ _ _ Hstep)|].
  destruct Hstep as [?????? ? E|??????? E| | | | | | ???? E| |???? ? ? E]; try done; simpl in Hnow.
  - change r' with ((ack, err), r').2. rewrite <-E. by apply lane_AddMessage.
  - change r' with (err, r').2. rewrite <-E. unfold spec_AddAck.
    destruct (ackIncomplete _); [done|]. cbv zeta. destruct (negb _); [done|].
    destruct (R_tags r !! _); [destruct (permits _ _); [|done]|]; by apply lane_postAck.
  - apply lane_retain; [|done]. done.
  - by apply lane_expire.
  - change r' with (res, r').2. rewrite <-E. by apply capped_Import.
  - by apply lane_expire.
  - change r' with ((nm, na), r').2. rewrite <-E. by apply lane_purge, lane_storePurge.
Qed.

(** A coupled ack's id determines its message, so there are at most as many coupled acks
    as messages. *)
Lemma coupled_le ms (ks : gmap string AckRecord) : (map_count (coupled ms) ks ≤ size ms)%nat.
Proof.
  rewrite <-keep_size, <-!length_map_to_list.
  rewrite <-(length_fmap fst (map_to_list (keep _ _))).
  rewrite <-(length_fmap (λ x, x.1 +:+ ":node_received"%string) (map_to_list ms)).
  apply submseteq_length, NoDup_submseteq; [apply NoDup_fst_map_to_list|].
  intros k (x & -> & Hx)%list_elem_of_fmap. destruct x as [k a]. simpl.
  apply elem_of_map_to_list, keep_Some in Hx as [_ (-> & m & Hm & _)%coupled_split].
  apply list_elem_of_fmap. exists (a_MessageID a, m). split; [done|]. by apply elem_of_map_to_list.
Qed.

Lemma lane_room r :
  lane_ok r → map_len (R_messages r) < MaxMessages (R_cfg r) → map_len (R_acks r) < MaxAcks (R_cfg r).
Proof.
  unfold lane_ok, loose, map_len. intros Hok Hm.
  pose proof (coupled_le (R_messages r) (R_acks r)) as Hc.
  rewrite <-(keep_all (λ _ _, true) (R_acks r)) by done. rewrite keep_size.
  rewrite (map_count_split _ (coupled (R_messages r))
    (λ k a, negb (coupled (R_messages r) k a))); [lia|].
  intros k a _. by destruct (coupled _ _ _).
Qed.

(** C25: Acks cannot crowd out messages: in every run from an empty store that does no
    recipient read, as long as the message map has room a post is never refused with
    [ErrQueueFull], however many acks callers and peers have posted. *)
Theorem acks_never_refuse_posts c epoch tr s now e nodeID grant :
  MaxMessages c < 2 ^ 62 → steps (NewStore c epoch) tr s →
  Forall (λ x, not_a_read x.1) tr → 0 ≤ now →
  map_len (messages s) < MaxMessages (cfg s) →
  (AddMessageWithGrant s now e nodeID grant).1.2 ≠ Some ErrQueueFull.
Proof.
  intros Hc Hsteps Hok Hnow Hroom.
  assert (Inv (NewStore c epoch)) as HI0 by (by apply NewStore_inv).
  assert (capped (abs s)) as [_ Hlane].
  { apply (steps_spec_inv capped not_a_read (NewStore c epoch) tr); try done; [apply lane_step|].
    pose proof (inv_config _ HI0). split; [simpl in *; lia|]. unfold lane_ok, loose. simpl in *.
    rewrite map_count_empty. lia. }
  apply lane_room in Hlane; [|done]. simpl in Hlane.
  unfold AddMessageWithGrant. destruct (checkEnvelope _ _ _ _) as [err|m] eqn:Hchk.
  { unfold checkEnvelope in Hchk. simpl in Hchk. repeat case_match; naive_solver. }
  apply checkEnvelope_ok in Hchk as (_ & _ & Hexp & _).
  destruct (messages s !! m_ID m); [done|]. do 3 (case_match; [done|]).
  destruct (MaxMessages (cfg s) <=? map_len (messages s)) eqn:Hfull; [reflect_bools; lia|].
  rewrite addReceipt_iff by lia. rewrite present_lookup.
  destruct (acks s !! _) eqn:Ha; [by rewrite bool_decide_eq_false_2 by naive_solver|].
  by rewrite bool_decide_eq_true_2.
Qed.

(** Two lanes of one: an external budget of one ack and one message. *)
Definition tightConfig : StoreConfig := mkStoreConfig 1 2 2 2 100 (72 * Hour) (24 * Hour).
Definition shortLived (id : string) (expires : Time) : MessageEnvelope :=
  with_m_ExpiresAt expires (Sample.envelope id "" "").

Definition tightRun : list Op :=
  [OAddAck 1000 (Sample.ack "a1" "elsewhere" AckRecipientRead 0) "node" zeroGrant TrustedAuth;
   OAddMessage 1000 (shortLived "m1" 2000) "node" zeroGrant].

Lemma acks_never_refuse_posts_witness :
  let s := (run (NewStore tightConfig "e") (tightRun ++ [OPrune 3000])).2 in
  map_len (acks s) = 1 ∧
  (AddMessageWithGrant s 3000 (Sample.envelope "m2" "" "") "node" zeroGrant).1.2 ≠ Some ErrQueueFull.
Proof.
  intros s. split; [by vm_compute|].
  apply (acks_never_refuse_posts tightConfig "e"
    (run (NewStore tightConfig "e") (tightRun ++ [OPrune 3000])).1 s).
  - done.
  - exact (run_steps (NewStore tightConfig "e") (tightRun ++ [OPrune 3000])).
  - repeat (apply Forall_cons; split; [by vm_compute|]). constructor.
  - done.
  - by vm_compute.
Defined.

(** The exception is real. A recipient's read deletes the messages that have expired
    and leaves their receipts, so after it a post is refused with [ErrQueueFull] by a
    store that holds no message at all. *)
Theorem read_lets_acks_refuse_posts :
  let s := (run (NewStore tightConfig "e") (tightRun ++ [OMessagesFor 3000 "bob" 0 TrustedAuth])).2 in
  map_len (messages s) = 0 ∧ MaxMessages (cfg s) = 1 ∧
  (AddMessageWithGrant s 3000 (Sample.envelope "m2" "" "") "node" zeroGrant).1.2 = Some ErrQueueFull.
Proof. by vm_compute. Qed.

(** ** Retention *)

(** Every record expires by [T + MaxTTL]. *)
Definition retained_until (c : StoreConfig) (T : Time) (r : RefStore) : Prop :=
  R_cfg r = c ∧
  map_Forall (λ _ m, m_ExpiresAt m ≤ T + MaxTTL c) (R_messages r) ∧
  map_Forall (λ _ a, a_ExpiresAt a ≤ T + MaxTTL c) (R_acks r).

Lemma lowerOfDuration_le box credential : lowerOfDuration box credential ≤ box.
Proof. unfold lowerOfDuration. case_match eqn:E; [done|]. apply orb_false_elim in E. reflect_bools. lia. Qed.

Section retention.
Context (c : StoreConfig) (T : Time).
Abbreviation P := (retained_until c T).
Implicit Types (r : RefStore).

Lemma until_retain kM kA r : P r → P (retain kM kA r).
Proof.
  intros (Hc & Hm & Ha). split_and!; [done| |]; simpl; intros i v [Hi _]%keep_Some; eauto.
Qed.

Lemma until_insertAck r a now cap :
  0 ≤ now ≤ T → now < a_ExpiresAt a ≤ T + MaxTTL c → P r → P (spec_insertAckWithin r a now cap).2.
Proof.
  intros Hnow Hexp HP. unfold spec_insertAckWithin. do 2 (case_match; [done|]).
  assert (IsZero (a_ExpiresAt a) = false) as -> by (apply Z.eqb_neq; lia).
  cbv zeta. case_match; [done|]. destruct HP as (Hc & Hm & Ha). split_and!; [done..|].
  simpl. apply map_Forall_insert_2; [lia|done].
Qed.

Lemma until_postAck r a now :
  0 ≤ now ≤ T → now < a_ExpiresAt a ≤ T + MaxTTL c → P r → P (spec_postAck r now a).2.
Proof.
  intros Hnow Hexp HP. unfold spec_postAck.
  pose proof (until_insertAck r a now (MaxAcks (R_cfg r) - MaxMessages (R_cfg r)) Hnow Hexp HP) as HP'.
  destruct (spec_insertAckWithin _ _ _ _) as [[err|] r']; [done|]. cbn [snd] in *.
  case_match; [by apply until_retain | done].
Qed.

Lemma until_insertMessage r m cr : m_ExpiresAt m ≤ T + MaxTTL c → P r → P (insertMessage r m cr).
Proof.
  intros Hm (Hc & Hms & Ha). split_and!; [done| |done]. simpl. by apply map_Forall_insert_2.
Qed.

Lemma until_AddMessage r now e nodeID grant :
  0 ≤ now ≤ T → P r → P (spec_AddMessage r now e nodeID grant).2.
Proof.
  intros Hnow HP. pose proof HP as (Hc & _). unfold spec_AddMessage. rewrite Hc.
  destruct (checkEnvelope _ _ _ _) as [|m] eqn:Hchk; [done|].
  apply checkEnvelope_ok in Hchk as (_ & _ & Hexp & _). unfold Add in Hexp.
  pose proof (lowerOfDuration_le (MaxTTL c) (g_Retention grant)).
  destruct (present _ _); [done|]. do 4 (case_match; [done|]).
  pose proof (until_insertAck r (nodeReceivedAck m nodeID now) now (MaxAcks c) Hnow
    ltac:(simpl; lia) HP) as HP'.
  destruct (spec_insertAckWithin _ _ _ _) as [[err|] r']; [done|].
  apply until_insertMessage; [lia|done].
Qed.

Lemma until_AddAck r now a nodeID grant auth :
  0 ≤ now ≤ T → P r → P (spec_AddAck r now a nodeID grant auth).2.
Proof.
  intros Hnow HP. pose proof HP as (Hc & _). unfold spec_AddAck.
  destruct (ackIncomplete _); [done|]. cbv zeta.
  set (a' := spec_preparedAck _ _ _ _ _). destruct (negb _) eqn:Hexp; [done|]. reflect_bools.
  assert (a_ExpiresAt a' ≤ T + MaxTTL c).
  { unfold a', spec_preparedAck. cbv zeta. rewrite Hc.
    destruct (ackTimes_ids c now (Add now (lowerOfDuration (MaxTTL c) (g_Retention grant)))
      (trimAck a)) as (_ & _ & _ & _ & Hle).
    pose proof (lowerOfDuration_le (MaxTTL c) (g_Retention grant)). unfold Add in *.
    case_match; simpl; lia. }
  destruct (R_tags r !! _); [destruct (permits _ _); [|done]|];
    (apply until_postAck; [done|simpl; lia|done]).
Qed.

Lemma until_Import r now p : 0 ≤ now ≤ T → P r → P (spec_Import r now p).2.
Proof.
  intros Hnow. apply spec_Import_inv.
  - intros r' q _ _ HP. apply until_retain. unfold spec_storePurge. by case_match.
  - intros r' e HP. pose proof HP as (Hc & _). unfold spec_importMessage. rewrite Hc.
    destruct (checkEnvelope _ _ _ _) as [|m] eqn:Hchk; [done|].
    apply checkEnvelope_ok in Hchk as (_ & _ & Hexp & _). unfold Add in Hexp.
    do 4 (case_match; [done|]). apply until_insertMessage; [lia|done].
  - intros r' a HP. pose proof HP as (Hc & _). unfold spec_importAck. rewrite Hc.
    case_match; [done|]. cbv zeta. destruct (negb _) eqn:Hexp; [done|]. reflect_bools.
    destruct (ackTimes_ids c now (Add now (MaxTTL c)) (trimImportedAck a)) as (_ & _ & _ & _ & Hle).
    unfold Add in *. apply until_postAck; [done|lia|done].
Qed.

Lemma until_step r o resp r' : spec_step r o resp r' → 0 ≤ op_now o ≤ T → P r → P r'.
Proof.
  intros Hstep Hnow HP.
  destruct Hstep as [?????? ? E|??????? E| | | | | | ???? E| |???? ? ? E];
    simpl in Hnow; try done; try by apply until_retain.
  - change r' with ((ack, err), r').2. rewrite <-E. by apply until_AddMessage.
  - change r' with (err, r').2. rewrite <-E. by apply until_AddAck.
  - change r' with (res, r').2. rewrite <-E. by apply until_Import.
  - change r' with ((nm, na), r').2. rewrite <-E. apply until_retain.
    unfold spec_storePurge. by case_match.
Qed.
End retention.

(** C26: Nothing outlives the relay's retention: in every run whose operations happen no
    later than [T], every message and every ack held at the end expires by [T + MaxTTL],
    whatever expiry clients, credentials and peers asked for. *)
Theorem retention_bounded c epoch T tr s :
  MaxMessages c < 2 ^ 62 → steps (NewStore c epoch) tr s →
  Forall (λ x, 0 ≤ op_now x.1 ≤ T) tr →
  (∀ id m, messages s !! id = Some m → m_ExpiresAt m ≤ T + MaxTTL (cfg s)) ∧
  (∀ id a, acks s !! id = Some a → a_ExpiresAt a ≤ T + MaxTTL (cfg s)).
Proof.
  intros Hc Hsteps Hok.
  assert (retained_until (resolveConfig c) T (abs s)) as (Hcfg & Hm & Ha).
  { apply (steps_spec_inv (retained_until (resolveConfig c) T) (λ o, 0 ≤ op_now o ≤ T)
      (NewStore c epoch) tr); [|done|by apply NewStore_inv| |done].
    - intros. by eapply until_step.
    - split_and!; [done| |]; apply map_Forall_empty. }
  simpl in *. rewrite Hcfg. done.
Qed.

Lemma retention_bounded_witness :
  let s := (run Sample.empty [OAddMessage 1000 (shortLived "m1" (10 ^ 18)) "node" zeroGrant]).2 in
  map_len (messages s) = 1 ∧
  ∀ id m, messages s !! id = Some m → m_ExpiresAt m ≤ 1000 + MaxTTL (cfg s).
Proof.
  intros s. split; [by vm_compute|].
  apply (retention_bounded Sample.config "epoch" 1000
    (run Sample.empty [OAddMessage 1000 (shortLived "m1" (10 ^ 18)) "node" zeroGrant]).1 s).
  - done.
  - exact (run_steps Sample.empty [OAddMessage 1000 (shortLived "m1" (10 ^ 18)) "node" zeroGrant]).
  - repeat (apply Forall_cons; split; [by vm_compute|]). constructor.
Defined.

(** ** The lane key *)

Definition has_nul (s : string) : bool :=
  existsb (λ c, bool_decide (c = Ascii.ascii_of_nat 0)) (String.list_ascii_of_string s).

Lemma has_nul_cons c s : has_nul (String c s) = bool_decide (c = Ascii.ascii_of_nat 0) || has_nul s.
Proof. done. Qed.

(** The key of a lane separates the pairs: two pairs whose sender ids contain no NUL
    byte share a key only if they are the same pair, so the quota of one pair is never
    spent by another. *)
Theorem lane_key_injective a b a' b' :
  has_nul a = false → has_nul a' = false → pairKey a b = pairKey a' b' → a = a' ∧ b = b'.
Proof.
  revert a'. induction a as [|c a IH]; intros [|c' a'] Hn Hn' Heq;
    rewrite ?has_nul_cons in *; simpl in Heq.
  - by injection Heq.
  - injection Heq as <- _. done.
  - injection Heq as -> _. done.
  - injection Heq as -> Heq. apply orb_false_elim in Hn as [_ Hn]. apply orb_false_elim in Hn' as [_ Hn'].
    by destruct (IH a' Hn Hn' Heq) as [-> ->].
Qed.

Lemma lane_key_injective_witness :
  pairKey "alice" "bob" = pairKey "alice" "bob" ∧ "alice"%string = "alice"%string ∧ "bob"%string = "bob"%string.
Proof.
  split; [done|]. apply (lane_key_injective "alice" "bob" "alice" "bob"); by vm_compute.
Defined.

Definition between (id sender recipient : string) : MessageEnvelope :=
  mkMessageEnvelope id sender recipient 0 0 "payload" "" "" "" ∅ "" "".

(** An id may contain a NUL byte, since trimming removes none: with a quota of one
    message per pair, a post between ["a"] and ["b\0c"] makes the relay refuse the first
    post between ["a\0b"] and ["c"] as over its pair's quota. *)
Theorem lane_key_collides :
  let c := mkStoreConfig 4 8 2 1 100 (72 * Hour) (24 * Hour) in
  let s := (run (NewStore c "e") [OAddMessage 1000
    (between "m1" "a" ("b" +:+ NUL +:+ "c")) "node" zeroGrant]).2 in
  map_Forall (λ _ m, m_Sender m ≠ ("a" +:+ NUL +:+ "b")%string) (messages s) ∧
  (AddMessageWithGrant s 1000 (between "m2" ("a" +:+ NUL +:+ "b") "c") "node" zeroGrant).1.2
  = Some ErrPairQuotaFull.
Proof.
  split; [|by vm_compute]. apply map_Forall_to_list.
  match goal with |- Forall ?P ?l =>
    assert (Forall P l ↔ Forall (λ kv, bool_decide (m_Sender kv.2 = "a" +:+ NUL +:+ "b")%string = false) l)
      as -> end.
  { apply Forall_iff. intros [k m]. by rewrite bool_decide_eq_false. }
  apply (bool_decide_unpack (Forall _ _)). by vm_compute.
Qed.

(** ** Identifiers that outlive their message *)

Definition wideConfig : StoreConfig := mkStoreConfig 4 16 2 2 100 (72 * Hour) (24 * Hour).

(** A message id bound by somebody else's ack: ["tagA"] posts [m1] to itself with a short
    life and acknowledges it with a long-lived ack. *)
Definition squattedRun : list Op :=
  [OAddMessage 1000 (with_m_ExpiresAt 2000 (Sample.envelope "m1" "tagA" "")) "node" zeroGrant;
   OAddAck 1000 (Sample.ack "keep" "m1" AckNodeReceived 0) "node" zeroGrant
     (mkAuth ["tagA"%string] false false);
   OPrune 3000;
   Sample.post 3000 "m1" "tagV" ""].

(** The tag a new message brings is not always the tag its acks are proved against: a
    long-lived ack left by an earlier, expired message of the same id keeps the earlier
    tag in force, so the holder of ["tagA"] deletes the message addressed under ["tagV"],
    which it may not read, and the holder of ["tagV"] may not acknowledge it. *)
Theorem stale_binding_takes_over :
  let s := (run (NewStore wideConfig "e") squattedRun).2 in
  let ack := Sample.ack "read" "m1" AckRecipientRead 0 in
  let A := mkAuth ["tagA"%string] false false in
  let V := mkAuth ["tagV"%string] false false in
  (m_RecipientTag <$> messages s !! "m1") = Some "tagV"%string ∧
  (MessagesForRecipient s 3000 "bob" 0 A).1 = [] ∧
  (AddAckWithGrant s 3000 ack "node" zeroGrant V).1 = Some ErrNotOwned ∧
  (AddAckWithGrant s 3000 ack "node" zeroGrant A).1 = None ∧
  messages (AddAckWithGrant s 3000 ack "node" zeroGrant A).2 !! "m1" = None.
Proof. by vm_compute. Qed.

(** A post can be answered as a duplicate of a message the relay never held: an ack
    whose id is the receipt id of [m2], posted for an unrelated message, makes the first
    post of [m2] fail with [ErrDuplicate] and no receipt. *)
Theorem receipt_id_can_be_squatted :
  let s := (run Sample.empty [OAddAck 1000 (Sample.ack "m2:node_received" "other" AckNodeReceived 0)
              "node" zeroGrant zeroAuth]).2 in
  messages s !! "m2" = None ∧ purges s = ∅ ∧
  (AddMessageWithGrant s 1000 (Sample.envelope "m2" "" "") "node" zeroGrant).1
  = (zeroAckRecord, Some ErrDuplicate).
Proof. by vm_compute. Qed.
