(* ===== verification/QueueCursor.v ===== *)
(** * The message and ack queue: the replication cursor

    A peer pulls a store page by page, with the number of the last record it has seen as
    its cursor. The numbers are distinct and grow, so a page holds exactly the records
    between the two cursors, every page makes progress, and the last one is complete. *)

From S2P Require Import Prelude Model Capability QueueStore QueueInv QueueSpec QueueSteps QueueProps.

Open Scope Z_scope.

(** ** Distinct, growing numbers *)

(** The number of a record: of the ack or of the message with an id. *)
Definition seqOf (r : RefStore) (x : bool * string) : option Z :=
  (if x.1 then R_ackSeq r else R_messageSeq r) !! x.2.

Definition numbered (B : Z) (r : RefStore) : Prop :=
  0 ≤ R_seq r ≤ B ∧
  (∀ x n, seqOf r x = Some n → 1 ≤ n ≤ R_seq r) ∧
  (∀ x y n, seqOf r x = Some n → seqOf r y = Some n → x = y).

Lemma numbered_mono B B' r : B ≤ B' → numbered B r → numbered B' r.
Proof. intros HB (? & ? & ?). split_and!; [lia..|done|done]. Qed.

(** Dropping records, and giving one record the next number. *)
Lemma numbered_sub B r r' :
  R_seq r' = R_seq r → (∀ x n, seqOf r' x = Some n → seqOf r x = Some n) →
  numbered B r → numbered B r'.
Proof. intros Hs Hsub (HB & Hr & Hi). rewrite <-Hs in *. split_and!; eauto; lia. Qed.

Lemma numbered_next B r r' x0 :
  B + 1 < 2 ^ 64 → R_seq r' = wrap_uint64 (R_seq r + 1) →
  (∀ x, seqOf r' x = if decide (x = x0) then Some (R_seq r') else seqOf r x) →
  numbered B r → numbered (B + 1) r'.
Proof.
  intros HB Hs Hx (Hrange & Hr & Hi).
  assert (R_seq r' = R_seq r + 1) as Hs'.
  { rewrite Hs. unfold wrap_uint64. rewrite Z.mod_small; lia. }
  split_and!; [lia..| |].
  - intros x n. rewrite Hx. case_decide; [naive_solver lia|]. intros ?%Hr. lia.
  - intros x y n. rewrite !Hx. do 2 case_decide; simplify_eq; try done; eauto.
    + intros [= <-] ?%Hr. lia.
    + intros ?%Hr [= <-]. lia.
Qed.

Lemma numbered_retain B kM kA r : numbered B r → numbered B (retain kM kA r).
Proof.
  apply numbered_sub; [done|]. intros [[] i] n; unfold seqOf; simpl;
    rewrite keep_Some; tauto.
Qed.

Lemma numbered_insertMessage B r e c :
  B + 1 < 2 ^ 64 → numbered B r → numbered (B + 1) (insertMessage r e c).
Proof.
  intros HB. apply (numbered_next _ _ _ (false, m_ID e)); [done|done|].
  intros [b i]. case_decide as Hx; unfold seqOf.
  - injection Hx as -> ->. apply lookup_insert_eq.
  - destruct b; [done|]. simpl. rewrite lookup_insert_ne; congruence.
Qed.

Lemma numbered_insertAckRecord B r a :
  B + 1 < 2 ^ 64 → numbered B r → numbered (B + 1) (insertAckRecord r a).
Proof.
  intros HB. apply (numbered_next _ _ _ (true, a_ID a)); [done|done|].
  intros [b i]. case_decide as Hx; unfold seqOf.
  - injection Hx as -> ->. apply lookup_insert_eq.
  - destruct b; [|done]. simpl. rewrite lookup_insert_ne; congruence.
Qed.

Lemma numbered_insertAckWithin B r a now cap :
  B + 1 < 2 ^ 64 → numbered B r → numbered (B + 1) (spec_insertAckWithin r a now cap).2.
Proof.
  intros HB Hn. assert (numbered (B + 1) r) by (eapply numbered_mono; [|done]; lia).
  unfold spec_insertAckWithin. do 2 (case_match; [done|]). cbv zeta. case_match; [done|].
  by apply numbered_insertAckRecord.
Qed.

Lemma numbered_postAck B r now a :
  B + 1 < 2 ^ 64 → numbered B r → numbered (B + 1) (spec_postAck r now a).2.
Proof.
  intros HB Hn. unfold spec_postAck.
  pose proof (numbered_insertAckWithin B r a now (MaxAcks (R_cfg r) - MaxMessages (R_cfg r)) HB Hn) as Hn'.
  destruct (spec_insertAckWithin _ _ _ _) as [[err|] r']; [done|]. cbn [snd] in *.
  case_match; [by apply numbered_retain | done].
Qed.

(** ** The numbers over a run *)

(** How many records an operation can insert. *)
Definition op_inserts (o : Op) : Z :=
  match o with
  | OAddMessage _ _ _ _ => 2
  | OAddAck _ _ _ _ _ => 1
  | OImport _ p => Z.of_nat (length (y_Messages p)) + Z.of_nat (length (y_Acks p))
  | _ => 0
  end.

Fixpoint run_inserts (tr : list (Op * Response)) : Z :=
  match tr with [] => 0 | x :: tr => op_inserts x.1 + run_inserts tr end.

Lemma op_inserts_nonneg o : 0 ≤ op_inserts o.
Proof. destruct o; simpl; lia. Qed.

Lemma run_inserts_nonneg tr : 0 ≤ run_inserts tr.
Proof. induction tr as [|x tr IH]; simpl; [done|]. pose proof (op_inserts_nonneg x.1). lia. Qed.

Lemma foldl_numbered {C} (f : ImportResult * RefStore → C → ImportResult * RefStore) l st B :
  B + Z.of_nat (length l) < 2 ^ 64 →
  (∀ B st x, B + 1 < 2 ^ 64 → numbered B st.2 → numbered (B + 1) (f st x).2) →
  numbered B st.2 → numbered (B + Z.of_nat (length l)) (foldl f st l).2.
Proof.
  intros HB Hf. revert B st HB. induction l as [|x l IH]; intros B st HB Hn; simpl in *.
  { by rewrite Z.add_0_r. }
  replace (B + Z.of_nat (S (length l))) with ((B + 1) + Z.of_nat (length l)) by lia.
  apply IH; [lia|]. apply Hf; [lia|done].
Qed.

Lemma numbered_Import B r now p :
  B + op_inserts (OImport now p) < 2 ^ 64 → numbered B r →
  numbered (B + op_inserts (OImport now p)) (spec_Import r now p).2.
Proof.
  intros HB Hn. simpl in *. unfold spec_Import. cbv zeta. rewrite Z.add_assoc.
  apply foldl_numbered; [lia| |apply foldl_numbered; [lia| |]].
  - intros B' [res r'] a HB' Hn'. simpl in *.
    assert (numbered (B' + 1) (spec_importAck r' now a).2) as Hi.
    { assert (numbered (B' + 1) r') by (eapply numbered_mono; [|done]; lia).
      unfold spec_importAck. do 2 (case_match; [done|]). by apply numbered_postAck. }
    by destruct (spec_importAck r' now a).
  - intros B' [res r'] e HB' Hn'. simpl in *.
    assert (numbered (B' + 1) (spec_importMessage r' now e).2) as Hi.
    { assert (numbered (B' + 1) r') by (eapply numbered_mono; [|done]; lia).
      unfold spec_importMessage. do 5 (case_match; [done|]). by apply numbered_insertMessage. }
    by destruct (spec_importMessage r' now e).
  - apply (foldl_inv (λ st, numbered B st.2)); [done|]. intros [res r'] q _ Hn'. simpl in *.
    case_match; [done|]. apply numbered_retain. unfold spec_storePurge. by case_match.
Qed.

Lemma numbered_AddMessage B r now e nodeID grant :
  B + 2 < 2 ^ 64 → numbered B r → numbered (B + 2) (spec_AddMessage r now e nodeID grant).2.
Proof.
  intros HB Hn. assert (numbered (B + 2) r) by (eapply numbered_mono; [|done]; lia).
  unfold spec_AddMessage. destruct (checkEnvelope _ _ _ _) as [|m]; [done|].
  destruct (present _ _); [done|]. do 4 (case_match; [done|]).
  pose proof (numbered_insertAckWithin B r (nodeReceivedAck m nodeID now) now (MaxAcks (R_cfg r))
    ltac:(lia) Hn) as Hn'.
  destruct (spec_insertAckWithin _ _ _ _) as [[err|] r']; cbn [snd] in *.
  - eapply numbered_mono; [|done]. lia.
  - replace (B + 2) with (B + 1 + 1) by lia. apply numbered_insertMessage; [lia|done].
Qed.

Lemma numbered_step B r o resp r' :
  spec_step r o resp r' → B + op_inserts o < 2 ^ 64 → numbered B r → numbered (B + op_inserts o) r'.
Proof.
  intros Hstep HB Hn.
  destruct Hstep as [?????? ? E|??????? E| | | | | | ???? E| |???? ? ? E];
    cbn [op_inserts] in *; rewrite ?Z.add_0_r; try done; try by apply numbered_retain.
  - change r' with ((ack, err), r').2. rewrite <-E. by apply numbered_AddMessage.
  - change r' with (err, r').2. rewrite <-E.
    assert (numbered (B + 1) r) by (eapply numbered_mono; [|done]; lia). unfold spec_AddAck.
    destruct (ackIncomplete _); [done|]. cbv zeta. destruct (negb _); [done|].
    destruct (R_tags r !! _); [destruct (permits _ _); [|done]|]; by apply numbered_postAck.
  - change r' with (res, r').2. rewrite <-E. by apply numbered_Import.
  - change r' with ((nm, na), r').2. rewrite <-E. apply numbered_retain.
    unfold spec_storePurge. by case_match.
Qed.

Lemma numbered_steps B s tr s' :
  steps s tr s' → Inv s → B + run_inserts tr < 2 ^ 64 → numbered B (abs s) →
  numbered (B + run_inserts tr) (abs s').
Proof.
  intros Hsteps. revert B. induction Hsteps as [|rt s o tr s' _ IH]; intros B HI HB Hn; simpl in *.
  { by rewrite Z.add_0_r. }
  pose proof (run_inserts_nonneg tr). rewrite Z.add_assoc. apply IH; [by apply exec_inv|lia|].
  eapply numbered_step; [by apply exec_spec_step|lia|done].
Qed.

Lemma numbered_new c e : numbered 0 (abs (NewStore c e)).
Proof. by split_and!; [done..| |]; intros [[] i]; unfold seqOf; simpl. Qed.

(** ** Pages *)

Lemma last_max {A} (key : A → Z) l y :
  StronglySorted (λ x y, key x ≤ key y) l → last l = Some y → ∀ x, x ∈ l → key x ≤ key y.
Proof.
  intros Hs. induction Hs as [|z l Hs IH Hz]; intros Hl x Hx; [done|].
  rewrite last_cons in Hl. destruct (last l) as [w|] eqn:Hw.
  - injection Hl as <-. apply elem_of_cons in Hx as [->|Hx]; [|by apply IH].
    rewrite Forall_forall in Hz. apply Hz. apply last_Some in Hw as [l' ->]. set_solver.
  - apply last_None in Hw as ->. set_solver.
Qed.

(** The elements a sorted list's first page holds are the ones up to its last. *)
Lemma page_elements {A} (key : A → Z) (n : nat) (l : list A) (d : Z) x :
  StronglySorted (λ x y, key x ≤ key y) l →
  (∀ x y, x ∈ l → y ∈ l → key x = key y → x = y) →
  (∀ x, x ∈ l → d < key x) →
  x ∈ take n l ↔ x ∈ l ∧ key x ≤ default d (key <$> last (take n l)).
Proof.
  intros Hs Hinj Hd.
  assert (take n l ⊆ l) as Hsub by (intros y (i & Hi & _)%elem_of_take; by eapply list_elem_of_lookup_2).
  split.
  - intros Hx. split; [by apply Hsub|]. destruct (last (take n l)) as [y|] eqn:Hl.
    + simpl. eapply last_max; [by apply StronglySorted_take|done|done].
    + apply last_None in Hl. rewrite Hl in Hx. set_solver.
  - intros [Hx Hle]. pose proof Hx as Hx'. rewrite <-(take_drop n l) in Hx'.
    apply elem_of_app in Hx' as [?|Hdrop]; [done|].
    destruct (last (take n l)) as [y|] eqn:Hl; simpl in Hle.
    + apply last_Some in Hl as [l' Hl].
      assert (y ∈ take n l) as Hy by (rewrite Hl; set_solver).
      rewrite <-(take_drop n l) in Hs.
      assert (key y ≤ key x) by exact (StronglySorted_app_1_elem_of _ _ _ _ _ Hs Hy Hdrop).
      rewrite (Hinj x y); [done|done|by apply Hsub|lia].
    + specialize (Hd x Hx). lia.
Qed.

(** What a page selects, in a numbered store. *)
Lemma page_selects B r since limit p :
  numbered B r → 0 < limit → spec_page r since limit p →
  ∃ sel, y_Messages p = pageMessages (R_messages r) sel ∧ y_Acks p = pageAcks (R_acks r) sel ∧
    (∀ x, x ∈ sel ↔ seqOf r (r_isAck x, r_id x) = Some (r_seq x) ∧ since < r_seq x ≤ y_NextSeq p) ∧
    (y_More p = true → since < y_NextSeq p) ∧
    (y_More p = false → ∀ x n, seqOf r x = Some n → since < n → n ≤ y_NextSeq p) ∧
    since ≤ y_NextSeq p ≤ Z.max since (R_seq r).
Proof.
  intros (HB & Hr & Hi) Hlim (sel & (l & Hp & Hs & Hsel) & _ & _ & Hnext & Hmore & Hm & Ha & _).
  exists sel. rewrite Hnext.
  assert (∀ x, x ∈ l ↔ since < r_seq x ∧ seqOf r (r_isAck x, r_id x) = Some (r_seq x)) as Hl.
  { intros x. rewrite Hp, spec_refs_spec. done. }
  assert (∀ x, x ∈ sel ↔ x ∈ l ∧ r_seq x ≤ default since (r_seq <$> last sel)) as Hin.
  { intros x. rewrite Hsel. apply (page_elements r_seq).
    - eapply StronglySorted_weaken; [|exact Hs]. simpl. lia.
    - intros [n i b] [n' i' b'] [_ Hx]%Hl [_ Hy]%Hl Heq. simpl in *. subst n'.
      by injection (Hi (b, i) (b', i') n Hx Hy) as -> ->.
    - intros y Hy%Hl. tauto. }
  assert (Z.of_nat (length l) = Z.of_nat (length (spec_refs r since))) as Hlen by (by rewrite Hp).
  split_and!; [done..| | | | |].
  - intros x. rewrite Hin, Hl. tauto.
  - rewrite Hmore, Z.ltb_lt. intros Hlt. destruct (last sel) as [y|] eqn:Hlast.
    + simpl. apply last_Some in Hlast as [l' Hlast].
      assert (y ∈ sel) as [Hy _]%Hin by (rewrite Hlast; set_solver). apply Hl in Hy. tauto.
    + apply last_None in Hlast. apply (f_equal length) in Hlast.
      rewrite Hsel, length_take in Hlast. simpl in Hlast. lia.
  - rewrite Hmore, Z.ltb_ge. intros Hle [b i] n Hn Hsn.
    assert (mkRef n i b ∈ sel) as [_ Hx]%Hin; [|done].
    rewrite Hsel, take_ge by lia. by apply Hl.
  - destruct (last sel) as [y|] eqn:Hlast; [|simpl; lia].
    apply last_Some in Hlast as [l' Hlast].
    assert (y ∈ sel) as [[Hy _]%Hl _]%Hin by (rewrite Hlast; set_solver). simpl. lia.
  - destruct (last sel) as [y|] eqn:Hlast; [|simpl; lia].
    apply last_Some in Hlast as [l' Hlast].
    assert (y ∈ sel) as [[_ Hy%Hr]%Hl _]%Hin by (rewrite Hlast; set_solver). simpl. lia.
Qed.

Lemma pageMessages_elem ms sel m :
  m ∈ pageMessages ms sel ↔ ∃ x, x ∈ sel ∧ r_isAck x = false ∧ ms !! r_id x = Some m.
Proof.
  unfold pageMessages. rewrite list_elem_of_omap.
  split; intros (x & Hx & H); exists x; destruct (r_isAck x); naive_solver.
Qed.

Lemma pageAcks_elem ks sel a :
  a ∈ pageAcks ks sel ↔ ∃ x, x ∈ sel ∧ r_isAck x = true ∧ ks !! r_id x = Some a.
Proof.
  unfold pageAcks. rewrite list_elem_of_omap.
  split; intros (x & Hx & H); exists x; destruct (r_isAck x); naive_solver.
Qed.

Lemma present_keep_iff {A} (f : string → A → bool) m i v :
  m !! i = Some v → present (keep f m) i = f i v.
Proof. intros Hv. rewrite present_lookup, keep_lookup, Hv. by destruct (f i v). Qed.

(** A record and its number, after the expired ones are gone. *)
Lemma live_message_seq s now id m n :
  keep (live_message now) (messages s) !! id = Some m ∧
  keep (λ i (_ : Z), present (keep (live_message now) (messages s)) i) (messageSeq s) !! id = Some n ↔
  messages s !! id = Some m ∧ now < m_ExpiresAt m ∧ messageSeq s !! id = Some n.
Proof.
  rewrite !keep_Some. unfold live_message at 1, After. rewrite Z.ltb_lt. split; [tauto|].
  intros (Hm & Hl & Hn). split_and!; [done..|]. rewrite (present_keep_iff _ _ _ _ Hm).
  unfold live_message, After. by apply Z.ltb_lt.
Qed.

Lemma live_ack_seq s now id a n :
  keep (live_ack now) (acks s) !! id = Some a ∧
  keep (λ i (_ : Z), present (keep (live_ack now) (acks s)) i) (ackSeq s) !! id = Some n ↔
  acks s !! id = Some a ∧ now < a_ExpiresAt a ∧ ackSeq s !! id = Some n.
Proof.
  rewrite !keep_Some. unfold live_ack at 1, After. rewrite Z.ltb_lt. split; [tauto|].
  intros (Hm & Hl & Hn). split_and!; [done..|]. rewrite (present_keep_iff _ _ _ _ Hm).
  unfold live_ack, After. by apply Z.ltb_lt.
Qed.

(** The refs of a numbered store are distinct, even by their numbers. *)
Lemma spec_refs_NoDup B r since : numbered B r → NoDup (r_seq <$> spec_refs r since).
Proof.
  intros (_ & _ & Hi).
  assert (NoDup (spec_refs r since)) as Hnd.
  { unfold spec_refs. apply NoDup_app. split_and!.
    - apply NoDup_fmap_2; [intros [??] [??] [= -> ->]; done|apply NoDup_map_to_list].
    - intros x ([??] & -> & _)%list_elem_of_fmap ([??] & Hx & _)%list_elem_of_fmap. done.
    - apply NoDup_fmap_2; [intros [??] [??] [= -> ->]; done|apply NoDup_map_to_list]. }
  apply NoDup_fmap_2_strong; [|done].
  intros [n i b] [n' i' b'] [_ Hx]%spec_refs_spec [_ Hy]%spec_refs_spec Heq. simpl in *. subst n'.
  by injection (Hi (b, i) (b', i') n Hx Hy) as -> ->.
Qed.

Lemma NoDup_range_length (l : list Z) a b :
  a ≤ b → NoDup l → (∀ x, x ∈ l → a < x ≤ b) → Z.of_nat (length l) ≤ b - a.
Proof.
  intros Hab Hnd Hl.
  assert (l ⊆+ seqZ (a + 1) (b - a)) as Hsub.
  { apply NoDup_submseteq; [done|]. intros x Hx%Hl. apply elem_of_seqZ. lia. }
  apply submseteq_length in Hsub. rewrite length_seqZ in Hsub. lia.
Qed.

(** A page that says there is more is full: the cursor moves by its size at least. *)
Lemma page_full B r since limit p :
  numbered B r → 0 < limit → spec_page r since limit p → y_More p = true →
  since + limit ≤ y_NextSeq p.
Proof.
  intros Hn Hlim Hpage Hmore. pose proof (page_selects _ _ _ _ _ Hn Hlim Hpage) as (_ & _ & _ & _ & _ & _ & Hnext).
  destruct Hpage as (sel & (l & Hp & Hs & Hsel) & _ & _ & Hns & Hm & _).
  rewrite Hmore in Hm. symmetry in Hm. apply Z.ltb_lt in Hm.
  assert (length sel = Z.to_nat limit) as Hlen by (rewrite Hsel, length_take, Hp; lia).
  enough (Z.of_nat (length (r_seq <$> sel)) ≤ y_NextSeq p - since) by (rewrite length_fmap in *; lia).
  apply NoDup_range_length; [lia| |].
  - eapply sublist_NoDup; [|apply fmap_sublist; rewrite Hsel; apply sublist_take].
    rewrite Hp. by eapply spec_refs_NoDup.
  - intros x (y & -> & Hy)%list_elem_of_fmap. split.
    + rewrite Hsel in Hy. apply elem_of_take in Hy as (k & Hk & _). apply list_elem_of_lookup_2 in Hk.
      rewrite Hp in Hk. by apply spec_refs_spec in Hk as [? _].
    + rewrite Hns. destruct (last sel) as [z|] eqn:Hz; [|by apply last_None in Hz as ->; set_solver].
      simpl. eapply (last_max r_seq); [|done|done]. rewrite Hsel. apply StronglySorted_take.
      eapply StronglySorted_weaken; [|exact Hs]. simpl. lia.
Qed.

(** Every number has its record, so a page has as many records as it selects. *)
Lemma resolved_length ms ks sel :
  (∀ x, x ∈ sel → if r_isAck x then is_Some (ks !! r_id x) else is_Some (ms !! r_id x)) →
  (length (pageMessages ms sel) + length (pageAcks ks sel) = length sel)%nat.
Proof.
  induction sel as [|x sel IH]; intros Hx; [done|].
  specialize (IH (λ y Hy, Hx y (list_elem_of_further _ _ _ Hy))). specialize (Hx x (list_elem_of_here _ _)).
  unfold pageMessages, pageAcks in *. cbn. destruct (r_isAck x), Hx as [v Hv]; rewrite Hv; cbn; lia.
Qed.

Lemma page_count r since limit p :
  dom (R_messageSeq r) ⊆ dom (R_messages r) → dom (R_ackSeq r) ⊆ dom (R_acks r) → 0 < limit →
  spec_page r since limit p →
  let k := Z.of_nat (length (y_Messages p) + length (y_Acks p)) in
  k ≤ limit ∧ (y_More p = true → k = limit).
Proof.
  intros HM HK Hlim (sel & (l & Hp & _ & Hsel) & _ & _ & _ & Hmore & -> & -> & _). cbv zeta.
  rewrite resolved_length.
  - rewrite Hmore, Z.ltb_lt, <-Hp, Hsel, length_take. lia.
  - intros [n i b]. rewrite Hsel. intros (j & Hj & _)%elem_of_take. apply list_elem_of_lookup_2 in Hj.
    rewrite Hp in Hj. apply spec_refs_spec in Hj as [_ Hs]. unfold seqOf in Hs. cbn in *.
    destruct b; apply elem_of_dom; [apply HK|apply HM]; apply elem_of_dom; eauto.
Qed.

Section runtime.
Context `{!GoRuntime}.

(** How many records a page has, whose it is, and the tombstones that ride on it. *)
Lemma page_extent s now since limit :
  Inv s →
  let '(p, _) := SnapshotSince s now since limit in
  let k := Z.of_nat (length (y_Messages p) + length (y_Acks p)) in
  (k ≤ limitOr 500 limit ∧ (y_More p = true → k = limitOr 500 limit)) ∧ y_Epoch p = epoch s ∧
  (∀ q, q ∈ y_Purges p ↔ ∃ h, purges s !! h = Some q ∧ now < p_ExpiresAt q).
Proof.
  intros HI. pose proof (SnapshotSince_page s now since limit HI) as Hpage.
  destruct (SnapshotSince s now since limit) as [p s']. destruct Hpage as [Habs Hpage].
  rewrite Habs in Hpage. split; [|split].
  - eapply page_count; [| |by apply limitOr_pos|exact Hpage];
      intros i [n Hi]%elem_of_dom; cbn in Hi; apply keep_Some in Hi as [_ Hi];
      rewrite present_lookup in Hi; apply elem_of_dom; by destruct (_ !! i).
  - by destruct Hpage as (? & _ & _ & -> & _).
  - destruct Hpage as (_ & _ & _ & _ & _ & _ & _ & _ & _ & _ & Hq). intros q. rewrite Hq, list_elem_of_fmap. split.
    + intros ([h q'] & -> & [Hh Hl]%elem_of_map_to_list%keep_Some). exists h. split; [done|]. by apply Z.ltb_lt.
    + intros (h & Hh & Hl). exists (h, q). split; [done|]. apply elem_of_map_to_list, keep_Some.
      split; [done|]. by apply Z.ltb_lt.
Qed.

(** A page names the tombstones of the store. *)
Lemma page_purges s now since limit q :
  Inv s → q ∈ y_Purges (SnapshotSince s now since limit).1 → ∃ k, purges s !! k = Some q.
Proof.
  intros HI Hq. pose proof (SnapshotSince_page s now since limit HI) as Hpage.
  destruct (SnapshotSince s now since limit) as [p s']. destruct Hpage as [Habs (sel & Hpage)].
  rewrite Habs in Hpage. destruct Hpage as (_ & _ & _ & _ & _ & _ & _ & _ & _ & Hp). cbn [fst] in Hq.
  rewrite Hp in Hq. apply list_elem_of_fmap in Hq as ([k q'] & -> & Hin%elem_of_map_to_list).
  cbn in Hin. apply keep_Some in Hin as [Hin _]. by exists k.
Qed.


(** What a page holds, in a store whose records are numbered. *)
Lemma page_exact B s now since limit :
  Inv s → numbered B (abs s) →
  let '(p, s') := SnapshotSince s now since limit in
  (∀ m, m ∈ y_Messages p ↔ ∃ id n, messages s !! id = Some m ∧ now < m_ExpiresAt m ∧
        messageSeq s !! id = Some n ∧ since < n ≤ y_NextSeq p) ∧
  (∀ a, a ∈ y_Acks p ↔ ∃ id n, acks s !! id = Some a ∧ now < a_ExpiresAt a ∧
        ackSeq s !! id = Some n ∧ since < n ≤ y_NextSeq p) ∧
  (y_More p = true → since < y_NextSeq p) ∧
  (y_More p = false →
     (∀ id m n, messages s !! id = Some m → now < m_ExpiresAt m →
                messageSeq s !! id = Some n → since < n → m ∈ y_Messages p) ∧
     (∀ id a n, acks s !! id = Some a → now < a_ExpiresAt a →
                ackSeq s !! id = Some n → since < n → a ∈ y_Acks p)) ∧
  since ≤ y_NextSeq p ≤ Z.max since (storeSeq s) ∧
  y_Epoch p = epoch s ∧ (y_More p = true → since + limitOr 500 limit ≤ y_NextSeq p).
Proof.
  intros HI Hn.
  pose proof (SnapshotSince_page s now since limit HI) as Hpage.
  destruct (SnapshotSince s now since limit) as [p s']. destruct Hpage as [Habs Hpage].
  rewrite Habs in Hpage.
  assert (numbered (B) (spec_expire now (abs s))) as Hn'.
  { by apply (numbered_retain _ (live_message now) (live_ack now)) in Hn. }
  destruct (page_selects _ _ _ _ _ Hn' (limitOr_pos 500 limit ltac:(done)) Hpage)
    as (sel & Hm & Ha & Hsel & Hmore & Hdone & Hnext).
  assert (∀ m, m ∈ y_Messages p ↔ ∃ id n, messages s !! id = Some m ∧ now < m_ExpiresAt m ∧
        messageSeq s !! id = Some n ∧ since < n ≤ y_NextSeq p) as Hmsgs.
  { intros m. rewrite Hm, pageMessages_elem. split.
    - intros ([n i b] & [Hs Hr]%Hsel & Hb & Hi). simpl in *. subst b.
      destruct (proj1 (live_message_seq s now i m n) (conj Hi Hs)) as (? & ? & ?). eauto 10.
    - intros (i & n & H1 & H2 & H3 & Hr).
      destruct (proj2 (live_message_seq s now i m n)) as [Hi Hs]; [done|].
      exists (mkRef n i false). split_and!; [|done|done]. by apply Hsel. }
  assert (∀ a, a ∈ y_Acks p ↔ ∃ id n, acks s !! id = Some a ∧ now < a_ExpiresAt a ∧
        ackSeq s !! id = Some n ∧ since < n ≤ y_NextSeq p) as Hacks.
  { intros a. rewrite Ha, pageAcks_elem. split.
    - intros ([n i b] & [Hs Hr]%Hsel & Hb & Hi). simpl in *. subst b.
      destruct (proj1 (live_ack_seq s now i a n) (conj Hi Hs)) as (? & ? & ?). eauto 10.
    - intros (i & n & H1 & H2 & H3 & Hr).
      destruct (proj2 (live_ack_seq s now i a n)) as [Hi Hs]; [done|].
      exists (mkRef n i true). split_and!; [|done|done]. by apply Hsel. }
  split_and!; [done..| | | | |].
  - intros Hf. split; [intros id m n|intros id a n]; intros H1 H2 H3 Hs;
      [apply Hmsgs|apply Hacks]; exists id, n; split_and!; try done.
    + destruct (proj2 (live_message_seq s now id m n)) as [_ Hq]; [done|].
      by apply (Hdone Hf (false, id)).
    + destruct (proj2 (live_ack_seq s now id a n)) as [_ Hq]; [done|].
      by apply (Hdone Hf (true, id)).
  - apply Hnext.
  - apply Hnext.
  - by destruct Hpage as (? & _ & _ & -> & _).
  - intros Hf. eapply page_full; [exact Hn'|by apply limitOr_pos|exact Hpage|exact Hf].
Qed.

(** C27: A page of the snapshot is exact. In every run that has inserted fewer than 2^64
    records, the page served at a cursor holds exactly the live messages and acks whose numbers
    lie above the cursor and up to the cursor it hands back, no more of them than the limit it
    was asked for, or 500, and every live tombstone, under the epoch of the store. If it says
    there is more, it holds as many as the limit and the cursor has moved; if not, no live
    record lies beyond the cursor it was asked at. The cursor never moves back, and never
    passes the newest number unless it was past it before: so, of a store whose numbers it has
    not passed, a record stored later is on a later page. A cursor that has, kept over a
    restart, is the case that the epoch is for. *)
Theorem snapshot_page_exact c e tr s now since limit :
  MaxMessages c < 2 ^ 62 → steps (NewStore c e) tr s → run_inserts tr < 2 ^ 64 →
  let '(p, s') := SnapshotSince s now since limit in
  let k := Z.of_nat (length (y_Messages p) + length (y_Acks p)) in
  (∀ m, m ∈ y_Messages p ↔ ∃ id n, messages s !! id = Some m ∧ now < m_ExpiresAt m ∧
        messageSeq s !! id = Some n ∧ since < n ≤ y_NextSeq p) ∧
  (∀ a, a ∈ y_Acks p ↔ ∃ id n, acks s !! id = Some a ∧ now < a_ExpiresAt a ∧
        ackSeq s !! id = Some n ∧ since < n ≤ y_NextSeq p) ∧
  (∀ q, q ∈ y_Purges p ↔ ∃ h, purges s !! h = Some q ∧ now < p_ExpiresAt q) ∧
  k ≤ limitOr 500 limit ∧ y_Epoch p = epoch s ∧
  (y_More p = true → since < y_NextSeq p ∧ k = limitOr 500 limit) ∧
  (y_More p = false →
     (∀ id m n, messages s !! id = Some m → now < m_ExpiresAt m →
                messageSeq s !! id = Some n → since < n → m ∈ y_Messages p) ∧
     (∀ id a n, acks s !! id = Some a → now < a_ExpiresAt a →
                ackSeq s !! id = Some n → since < n → a ∈ y_Acks p)) ∧
  since ≤ y_NextSeq p ≤ Z.max since (storeSeq s).
Proof.
  intros Hc Hsteps Hins. assert (Inv s) as HI by (eapply reachable_inv; [done|by eexists]).
  assert (numbered (0 + run_inserts tr) (abs s)) as Hn.
  { eapply numbered_steps; [done|by apply NewStore_inv|lia|apply numbered_new]. }
  pose proof (page_exact _ s now since limit HI Hn) as Hx.
  pose proof (page_extent s now since limit HI) as Hy.
  destruct (SnapshotSince s now since limit) as [p s']. destruct Hx as (? & ? & Hmore & ? & [? ?] & _).
  destruct Hy as ([? Hk] & ? & ?). split_and!; auto.
Qed.
End runtime.

Lemma snapshot_page_exact_witness :
  let ops := [Sample.post 1000 "m1" "" ""; Sample.post 1000 "m2" "" ""] in
  let s := (run Sample.empty ops).2 in
  let p := (SnapshotSince s 2000 1 2).1 in
  y_NextSeq p = 3 ∧ y_More p = true ∧ 1 < y_NextSeq p.
Proof.
  intros ops s p. assert (y_More p = true) as Hm by (by vm_compute).
  split; [by vm_compute|]. split; [exact Hm|].
  pose proof (snapshot_page_exact Sample.config "epoch" (run Sample.empty ops).1 s 2000 1 2
    ltac:(done) (run_steps Sample.empty ops) ltac:(by vm_compute)) as H.
  unfold p in *. destruct (SnapshotSince s 2000 1 2) as [p' s'].
  destruct H as (_ & _ & _ & _ & _ & H & _). exact (proj1 (H Hm)).
Defined.
