(* ===== verification/Attachment.v ===== *)
(** * The attachment relay ([internal/attachment/relay.go]): the code

    A live pass-through of encrypted chunks. A session is held by pointer in one map and
    nowhere else, so an in-place update of a session is an update of the map's entry; the
    same holds of the transit windows. An operation takes the times its calls of
    [r.now().UTC()] returned and runs under the relay's mutex, as one step. *)

From S2P Require Import Prelude.

Open Scope Z_scope.

Inductive RelayError :=
  | ErrDuplicate
  | ErrWindowFull
  | ErrTooManySessions
  | ErrInvalid
  | ErrTooLarge
  | ErrTransitExhausted
  | ErrTooManyChunks.

#[export] Instance RelayError_eq_dec : EqDecision RelayError.
Proof. solve_decision. Defined.

Definition maxChunksPerTransfer : Z := 8192.

Record Grant := mkGrant {
  g_Credential : Z;
  g_AttachmentBytes : Z;
  g_ConcurrentTransfers : Z;
  g_TransitBytesPerDay : Z;
}.

Definition zeroGrant : Grant := mkGrant 0 0 0 0.

Definition lowerOf (box credential : Z) : Z :=
  if (credential <=? 0) || (box <? credential) then box else credential.

Record Chunk := mkChunk {
  c_ID : string;
  c_TransferID : string;
  c_Capability : string;
  c_Recipient : string;
  c_Index : Z;
  c_TotalChunks : Z;
  c_EncryptedPayload : string;
  c_SizeBytes : Z;
  c_CreatedAt : Time;
  c_ExpiresAt : Time;
}.

Record Stats := mkStats { st_Sessions : Z; st_Chunks : Z; st_Bytes : Z }.

(** [seen] is a bitmap of 64-bit words over the transfer's indices. *)
Record session := mkSession {
  s_transferID : string;
  s_capability : string;
  s_recipient : string;
  s_window : list Chunk;
  s_bytes : Z;
  s_totalChunks : Z;
  s_seen : list Z;
  s_lastActivity : Time;
  s_credential : Z;
  s_pushedBytes : Z;
}.

(** Two arrays of 24 hourly buckets. *)
Record transitWindow := mkTransitWindow { w_bytes : list Z; w_hour : list Z }.

Definition zeroTransitWindow : transitWindow := mkTransitWindow (replicate 24 0) (replicate 24 0).

Record Relay := mkRelay {
  maxWindow : Z;
  maxChunkBytes : Z;
  maxAttachmentBytes : Z;
  maxSessions : Z;
  idleTimeout : Duration;
  sessions : gmap string session;
  transit : gmap Z transitWindow;
}.

Definition with_sessions (m : gmap string session) (r : Relay) : Relay :=
  mkRelay (maxWindow r) (maxChunkBytes r) (maxAttachmentBytes r) (maxSessions r) (idleTimeout r)
    m (transit r).
Definition with_transit (m : gmap Z transitWindow) (r : Relay) : Relay :=
  mkRelay (maxWindow r) (maxChunkBytes r) (maxAttachmentBytes r) (maxSessions r) (idleTimeout r)
    (sessions r) m.

(** [t.Unix()]: whole seconds since 1970, which is 62135596800 s after Go's zero time. *)
Definition Unix (t : Time) : Z := t / Second - 62135596800.

(** Integer division and remainder truncate. From 1970 on the slot is an index of the
    arrays; before, the source would panic, and the list update here does nothing. *)
Definition hourOf (now : Time) : Z := Z.quot (Unix now) 3600.

Definition slotOf (hour : Z) : nat := Z.to_nat (Z.rem hour 24).

Definition transit_add (w : transitWindow) (now : Time) (n : Z) : transitWindow :=
  let hour := hourOf now in
  let slot := slotOf hour in
  let w := if negb (default 0 (w_hour w !! slot) =? hour)
           then mkTransitWindow (<[slot := 0]> (w_bytes w)) (<[slot := hour]> (w_hour w))
           else w in
  mkTransitWindow (<[slot := default 0 (w_bytes w !! slot) + n]> (w_bytes w)) (w_hour w).

Definition transit_total (w : transitWindow) (now : Time) : Z :=
  let oldest := hourOf now - 23 in
  foldl (λ sum slot, if oldest <=? default 0 (w_hour w !! slot)
                     then sum + default 0 (w_bytes w !! slot) else sum)
    0 (seq 0 24).

#[global] Arguments transit_total : simpl never.
#[global] Arguments transit_add : simpl never.

Definition NewRelay (maxWindow maxChunkBytes maxAttachmentBytes maxSessions : Z)
    (idleTimeout : Duration) : Relay :=
  let maxWindow := if maxWindow <=? 0 then 8 else maxWindow in
  let maxChunkBytes := if maxChunkBytes <=? 0 then 1024 * 1024 else maxChunkBytes in
  let maxAttachmentBytes := if maxAttachmentBytes <=? 0 then 50 * 1024 * 1024
                            else maxAttachmentBytes in
  let maxSessions := if maxSessions <=? 0 then 256 else maxSessions in
  let idleTimeout := if idleTimeout <=? 0 then 30 * Second else idleTimeout in
  mkRelay maxWindow maxChunkBytes maxAttachmentBytes maxSessions idleTimeout ∅ ∅.

Definition MaxAttachmentBytes (r : Relay) : Z := maxAttachmentBytes r.

(** ** Pushing a chunk *)

Definition trimChunk (c : Chunk) : Chunk :=
  mkChunk (TrimSpace (c_ID c)) (TrimSpace (c_TransferID c)) (TrimSpace (c_Capability c))
    (TrimSpace (c_Recipient c)) (c_Index c) (c_TotalChunks c) (TrimSpace (c_EncryptedPayload c))
    (c_SizeBytes c) (c_CreatedAt c) (c_ExpiresAt c).

(** The checks before the lock. *)
Definition checkChunk (r : Relay) (c : Chunk) : option RelayError :=
  if is_empty (c_ID c) || is_empty (c_TransferID c) || is_empty (c_Capability c)
     || is_empty (c_Recipient c) || is_empty (c_EncryptedPayload c)
     || (c_Index c <? 0) || (c_TotalChunks c <=? 0) || (c_TotalChunks c <=? c_Index c)
     || (c_SizeBytes c <=? 0) || (maxChunkBytes r <? c_SizeBytes c)
  then Some ErrInvalid else
  if maxChunkBytes r <? len (c_EncryptedPayload c) then Some ErrInvalid else
  if maxChunksPerTransfer <? c_TotalChunks c then Some ErrTooManyChunks else None.

Definition newSession (c : Chunk) (now : Time) (credential : Z) : session :=
  mkSession (c_TransferID c) (c_Capability c) (c_Recipient c) [] 0 (c_TotalChunks c)
    (replicate (Z.to_nat ((c_TotalChunks c + 63) / 64)) 0) now credential 0.

(** [sess.seen[word] & (1 << bit) != 0] and [sess.seen[word] |= 1 << bit]. *)
Definition seenBit (seen : list Z) (index : Z) : bool :=
  negb (Z.land (default 0 (seen !! Z.to_nat (index / 64))) (Z.shiftl 1 (index mod 64)) =? 0).

Definition markSeen (seen : list Z) (index : Z) : list Z :=
  let word := Z.to_nat (index / 64) in
  <[word := Z.lor (default 0 (seen !! word)) (Z.shiftl 1 (index mod 64))]> seen.

(** The checks against the session, and its update. *)
Definition checkSession (r : Relay) (sess : session) (now : Time) (c : Chunk) (grant : Grant)
  : option RelayError :=
  let payloadBytes := len (c_EncryptedPayload c) in
  if negb (bool_decide (s_transferID sess = c_TransferID c))
     || negb (bool_decide (s_recipient sess = c_Recipient c))
     || negb (s_totalChunks sess =? c_TotalChunks c) then Some ErrInvalid else
  if seenBit (s_seen sess) (c_Index c) then Some ErrDuplicate else
  if maxWindow r <=? Z.of_nat (length (s_window sess)) then Some ErrWindowFull else
  if negb (s_credential sess =? 0) && (0 <? g_TransitBytesPerDay grant)
     && match transit r !! s_credential sess with
        | Some window => g_TransitBytesPerDay grant <? transit_total window now + payloadBytes
        | None => false
        end then Some ErrTransitExhausted else
  if lowerOf (maxAttachmentBytes r) (g_AttachmentBytes grant) <? s_pushedBytes sess + payloadBytes
  then Some ErrTooLarge else None.

Definition pushSession (sess : session) (now : Time) (c : Chunk) : session :=
  let payloadBytes := len (c_EncryptedPayload c) in
  mkSession (s_transferID sess) (s_capability sess) (s_recipient sess) (s_window sess ++ [c])
    (s_bytes sess + payloadBytes) (s_totalChunks sess) (markSeen (s_seen sess) (c_Index c)) now
    (s_credential sess) (s_pushedBytes sess + payloadBytes).

Definition chargeTransit (r : Relay) (credential : Z) (now : Time) (n : Z) : Relay :=
  if negb (credential =? 0) then
    let window := default zeroTransitWindow (transit r !! credential) in
    with_transit (<[credential := transit_add window now n]> (transit r)) r
  else r.

Section runtime.
Context `{!GoRuntime}.

Definition sweepLocked (r : Relay) (now : Time) : Relay :=
  with_sessions
    (foldl (λ m '(key, sess), if idleTimeout r <? Sub now (s_lastActivity sess)
                              then delete key m else m)
       (sessions r) (range (sessions r))) r.

Definition sessionsForLocked (r : Relay) (credential : Z) : Z :=
  foldl (λ count '(_, sess), if s_credential sess =? credential then count + 1 else count)
    0 (range (sessions r)).

(** The session a push goes to: the live one, or a new one if both allowances have
    room. *)
Definition openSession (r : Relay) (now : Time) (c : Chunk) (grant : Grant)
  : RelayError + (session * Relay) :=
  match sessions r !! c_Capability c with
  | Some sess => inr (sess, r)
  | None =>
      if maxSessions r <=? Z.of_nat (size (sessions r)) then inl ErrTooManySessions else
      if negb (g_Credential grant =? 0) && (0 <? g_ConcurrentTransfers grant)
         && (lowerOf (maxSessions r) (g_ConcurrentTransfers grant)
             <=? sessionsForLocked r (g_Credential grant)) then inl ErrTooManySessions else
      let sess := newSession c now (g_Credential grant) in
      inr (sess, with_sessions (<[c_Capability c := sess]> (sessions r)) r)
  end.

Definition PushWithGrant (r : Relay) (now : Time) (chunk : Chunk) (grant : Grant)
  : option RelayError * Relay :=
  let chunk := trimChunk chunk in
  match checkChunk r chunk with
  | Some err => (Some err, r)
  | None =>
      let r := sweepLocked r now in
      match openSession r now chunk grant with
      | inl err => (Some err, r)
      | inr (sess, r) =>
          match checkSession r sess now chunk grant with
          | Some err => (Some err, r)
          | None =>
              let r := with_sessions
                         (<[c_Capability chunk := pushSession sess now chunk]> (sessions r)) r in
              (None, chargeTransit r (s_credential sess) now (len (c_EncryptedPayload chunk)))
          end
      end
  end.

Definition Push (r : Relay) (now : Time) (chunk : Chunk) : option RelayError * Relay :=
  PushWithGrant r now chunk zeroGrant.

Definition TransitToday (r : Relay) (now : Time) (credential : Z) : Z :=
  match transit r !! credential with
  | None => 0
  | Some window => transit_total window now
  end.

(** ** Draining, completing and pruning *)

(** [now] is the sweep's reading of the clock, [now'] the one taken after it. *)
Definition Drain (r : Relay) (now now' : Time) (recipient capability : string)
  : list Chunk * Relay :=
  let recipient := TrimSpace recipient in
  let capability := TrimSpace capability in
  if is_empty recipient || is_empty capability then ([], r) else
  let r := sweepLocked r now in
  match sessions r !! capability with
  | None => ([], r)
  | Some sess =>
      if negb (bool_decide (s_recipient sess = recipient)) || bool_decide (s_window sess = [])
      then ([], r)
      else (s_window sess,
            with_sessions (<[capability :=
              mkSession (s_transferID sess) (s_capability sess) (s_recipient sess) [] 0
                (s_totalChunks sess) (s_seen sess) now' (s_credential sess)
                (s_pushedBytes sess)]> (sessions r)) r)
  end.

Definition Complete (r : Relay) (transferID capability : string) : Z * Relay :=
  let transferID := TrimSpace transferID in
  let capability := TrimSpace capability in
  match sessions r !! capability with
  | None => (0, r)
  | Some sess =>
      if negb (bool_decide (s_transferID sess = transferID)) then (0, r) else
      (Z.of_nat (length (s_window sess)), with_sessions (delete capability (sessions r)) r)
  end.

Definition statsLocked (r : Relay) : Stats :=
  foldl (λ st '(_, sess), mkStats (st_Sessions st) (st_Chunks st + Z.of_nat (length (s_window sess)))
                            (st_Bytes st + s_bytes sess))
    (mkStats (Z.of_nat (size (sessions r))) 0 0) (range (sessions r)).

Definition Prune (r : Relay) (now : Time) : Stats * Relay :=
  let r := sweepLocked r now in
  let r := with_transit
    (foldl (λ m '(credential, window), if transit_total window now =? 0
                                       then delete credential m else m)
       (transit r) (range (transit r))) r in
  (statsLocked r, r).

Definition StatsOf (r : Relay) (now : Time) : Stats * Relay := Prune r now.

End runtime.
