(* ===== verification/AttachmentProps.v ===== *)
(** * The attachment relay: what it promises

    The memory ceiling as an invariant of every run, delivery of the accepted chunks in
    order and at most once, and the rolling transit window against its definition. *)

From S2P Require Import Prelude Attachment.

Open Scope Z_scope.

(** ** The replay bitmap *)

Lemma land_bit w b : 0 ≤ b → negb (Z.land w (Z.shiftl 1 b) =? 0) = Z.testbit w b.
Proof.
  intros Hb. rewrite Z.shiftl_1_l. apply eq_true_iff_eq. rewrite negb_true_iff, Z.eqb_neq.
  split.
  - intros Hne. destruct (Z.testbit w b) eqn:Hw; [done|]. destruct Hne.
    apply Z.bits_inj'. intros n Hn. rewrite Z.land_spec, Z.bits_0, Z.pow2_bits_eqb by done.
    destruct (b =? n) eqn:E; [|apply andb_false_r]. apply Z.eqb_eq in E. subst. by rewrite Hw.
  - intros Hw Heq. apply (f_equal (λ z, Z.testbit z b)) in Heq.
    by rewrite Z.land_spec, Z.pow2_bits_true, Hw, Z.bits_0 in Heq.
Qed.

Lemma seenBit_testbit seen i :
  seenBit seen i = Z.testbit (default 0 (seen !! Z.to_nat (i / 64))) (i mod 64).
Proof. unfold seenBit. apply land_bit, Z.mod_pos_bound. lia. Qed.

Definition words (total : Z) : nat := Z.to_nat ((total + 63) / 64).

Lemma index_word i total : 0 ≤ i < total → (Z.to_nat (i / 64) < words total)%nat.
Proof.
  intros Hi. unfold words. apply Z2Nat.inj_lt; [apply Z.div_pos; lia..|].
  apply Z.div_lt_upper_bound; [lia|]. pose proof (Z.div_mod (total + 63) 64 ltac:(lia)).
  pose proof (Z.mod_pos_bound (total + 63) 64 ltac:(lia)). lia.
Qed.

(** Marking an index sets its bit and no other. *)
Lemma seenBit_mark seen i j total :
  length seen = words total → 0 ≤ i < total → 0 ≤ j < total →
  seenBit (markSeen seen i) j = bool_decide (i = j) || seenBit seen j.
Proof.
  intros Hl Hi Hj. rewrite !seenBit_testbit. unfold markSeen.
  pose proof (index_word i total Hi). pose proof (Z.div_mod i 64 ltac:(lia)).
  pose proof (Z.div_mod j 64 ltac:(lia)).
  pose proof (Z.mod_pos_bound i 64 ltac:(lia)). pose proof (Z.mod_pos_bound j 64 ltac:(lia)).
  destruct (decide (Z.to_nat (i / 64) = Z.to_nat (j / 64))) as [Hw|Hw].
  - rewrite <-Hw, list_lookup_insert_eq by lia. simpl.
    apply Z2Nat.inj in Hw; [|apply Z.div_pos; lia..].
    rewrite Z.lor_spec, Z.shiftl_1_l, Z.pow2_bits_eqb by lia. rewrite orb_comm. f_equal.
    case_bool_decide as Hij; [subst; apply Z.eqb_refl|]. apply Z.eqb_neq. lia.
  - rewrite list_lookup_insert_ne by done. rewrite bool_decide_eq_false_2; [done|]. by intros ->.
Qed.

Lemma seenBit_fresh n i : seenBit (replicate n 0) i = false.
Proof.
  rewrite seenBit_testbit. destruct (replicate n 0 !! _) as [w|] eqn:E; simpl.
  - apply lookup_replicate in E as [-> _]. apply Z.bits_0.
  - apply Z.bits_0.
Qed.

(** ** The invariant *)

Definition payloadSum (l : list Chunk) : Z := zsum (λ c, len (c_EncryptedPayload c)) l.

Lemma payloadSum_app l l' : payloadSum (l ++ l') = payloadSum l + payloadSum l'.
Proof. apply zsum_app. Qed.

Lemma payloadSum_nonneg l : 0 ≤ payloadSum l.
Proof. apply zsum_nonneg. intros c. unfold len. lia. Qed.

(** What holds of a session under a window, a chunk and an attachment cap. *)
Record SessionInv (mw mc ma : Z) (cap : string) (s : session) : Prop := {
  sinv_capability : s_capability s = cap ∧ cap ≠ ""%string;
  sinv_window : Z.of_nat (length (s_window s)) ≤ mw;
  sinv_bytes : s_bytes s = payloadSum (s_window s);
  sinv_chunks : Forall (λ c, len (c_EncryptedPayload c) ≤ mc
                             ∧ c_Recipient c = s_recipient s) (s_window s);
  sinv_pushed : s_bytes s ≤ s_pushedBytes s ≤ ma;
  sinv_total : 0 < s_totalChunks s ≤ maxChunksPerTransfer;
  sinv_seen : length (s_seen s) = words (s_totalChunks s);
}.

Definition session_ok (r : Relay) : string → session → Prop :=
  SessionInv (maxWindow r) (maxChunkBytes r) (maxAttachmentBytes r).

Record Inv (r : Relay) : Prop := {
  inv_caps : 0 < maxWindow r ∧ 0 < maxChunkBytes r ∧ 0 < maxAttachmentBytes r ∧ 0 < maxSessions r;
  inv_sessions : map_Forall (session_ok r) (sessions r);
  inv_count : Z.of_nat (size (sessions r)) ≤ maxSessions r;
}.

Lemma NewRelay_inv w c a n t : Inv (NewRelay w c a n t).
Proof.
  unfold NewRelay. constructor; simpl; [|apply map_Forall_empty|].
  - repeat case_match; reflect_bools; lia.
  - rewrite map_size_empty. repeat case_match; reflect_bools; lia.
Qed.

(** The invariant reads the caps and the sessions only. *)
Lemma Inv_transit r m : Inv r → Inv (with_transit m r).
Proof. intros []. by constructor. Qed.

Lemma Inv_keep r f : Inv r → Inv (with_sessions (keep f (sessions r)) r).
Proof.
  intros [Hc Hs Hn]. constructor; simpl; [done| |].
  - intros k s [Hk _]%keep_Some. by apply Hs.
  - rewrite keep_size. pose proof (map_count_size f (sessions r)). lia.
Qed.

Lemma Inv_update r cap s s' :
  Inv r → sessions r !! cap = Some s → session_ok r cap s' →
  Inv (with_sessions (<[cap := s']> (sessions r)) r).
Proof.
  intros [Hc Hs Hn] Hcap Hs'. constructor; simpl; [done| |].
  - by apply map_Forall_insert_2.
  - rewrite map_size_insert_Some; [done|by eexists].
Qed.

Lemma lowerOf_le box credential : lowerOf box credential ≤ box.
Proof.
  unfold lowerOf. case_match eqn:E; [done|]. apply orb_false_elim in E. reflect_bools. lia.
Qed.

Lemma checkChunk_ok r c :
  checkChunk r c = None →
  c_Capability c ≠ ""%string ∧ 0 ≤ c_Index c < c_TotalChunks c ∧
  0 < c_TotalChunks c ≤ maxChunksPerTransfer ∧ len (c_EncryptedPayload c) ≤ maxChunkBytes r.
Proof.
  unfold checkChunk. destruct (_ || _) eqn:E; [done|]. do 2 (case_match; [done|]).
  intros _. reflect_bools. split_and!; done || lia.
Qed.

Lemma checkSession_ok r s now c grant :
  checkSession r s now c grant = None →
  s_transferID s = c_TransferID c ∧ s_recipient s = c_Recipient c ∧
  s_totalChunks s = c_TotalChunks c ∧ seenBit (s_seen s) (c_Index c) = false ∧
  Z.of_nat (length (s_window s)) < maxWindow r ∧
  s_pushedBytes s + len (c_EncryptedPayload c) ≤ lowerOf (maxAttachmentBytes r) (g_AttachmentBytes grant).
Proof.
  unfold checkSession. cbv zeta. destruct (negb _ || _ || _) eqn:E; [done|].
  do 2 (case_match; [done|]). destruct (negb _ && _ && _); [done|]. case_match; [done|].
  intros _. reflect_bools. done.
Qed.

Lemma pushSession_inv r cap s now c grant :
  session_ok r cap s → checkChunk r c = None → checkSession r s now c grant = None →
  session_ok r cap (pushSession s now c).
Proof.
  intros [] Hc%checkChunk_ok Hs%checkSession_ok.
  destruct Hc as (_ & Hi & Ht & Hlen), Hs as (_ & Hr & Htot & _ & Hw & Hp).
  pose proof (lowerOf_le (maxAttachmentBytes r) (g_AttachmentBytes grant)).
  constructor; simpl; try done.
  - rewrite length_app. simpl. lia.
  - rewrite payloadSum_app. unfold payloadSum at 2. simpl. lia.
  - apply Forall_app. split; [done|]. by repeat constructor.
  - lia.
  - unfold markSeen. by rewrite length_insert.
Qed.

Lemma newSession_inv r c now credential :
  Inv r → checkChunk r c = None → session_ok r (c_Capability c) (newSession c now credential).
Proof.
  intros [Hcaps _ _] (? & ? & ? & ?)%checkChunk_ok. constructor; simpl; try done; try lia.
  by rewrite length_replicate.
Qed.

(** ** Operations and runs *)

Inductive Op :=
  | OPush (now : Time) (c : Chunk) (grant : Grant)
  | ODrain (now now' : Time) (recipient capability : string)
  | OComplete (transferID capability : string)
  | OPrune (now : Time).

Inductive Response :=
  | RPush (err : option RelayError)
  | RDrain (out : list Chunk)
  | RComplete (inFlight : Z)
  | RStats (st : Stats).

Definition exec `{!GoRuntime} (r : Relay) (o : Op) : Response * Relay :=
  match o with
  | OPush now c grant => let '(err, r) := PushWithGrant r now c grant in (RPush err, r)
  | ODrain now now' rec cap => let '(out, r) := Drain r now now' rec cap in (RDrain out, r)
  | OComplete tid cap => let '(n, r) := Complete r tid cap in (RComplete n, r)
  | OPrune now => let '(st, r) := Prune r now in (RStats st, r)
  end.

Inductive steps : Relay → list Op → Relay → Prop :=
  | steps_nil r : steps r [] r
  | steps_cons (rt : GoRuntime) r o os r' : steps (exec r o).2 os r' → steps r (o :: os) r'.

Section runtime.
Context `{!GoRuntime}.

Definition awake (r : Relay) (now : Time) (_ : string) (s : session) : bool :=
  negb (idleTimeout r <? Sub now (s_lastActivity s)).

Lemma sweepLocked_eq r now :
  sweepLocked r now = with_sessions (keep (awake r now) (sessions r)) r.
Proof.
  unfold sweepLocked.
  by rewrite (foldl_sweep (λ s, idleTimeout r <? Sub now (s_lastActivity s))).
Qed.
Lemma openSession_cases r now c grant :
  match openSession r now c grant with
  | inl err => err = ErrTooManySessions ∧ sessions r !! c_Capability c = None
  | inr (sess, r') =>
      sessions r' !! c_Capability c = Some sess ∧
      ((r' = r) ∨
       (sessions r !! c_Capability c = None ∧ sess = newSession c now (g_Credential grant) ∧
        Z.of_nat (size (sessions r)) < maxSessions r ∧
        r' = with_sessions (<[c_Capability c := sess]> (sessions r)) r))
  end.
Proof.
  unfold openSession. destruct (sessions r !! c_Capability c) eqn:E; [by auto|].
  destruct (maxSessions r <=? _) eqn:Hmax; [done|]. destruct (negb _ && _ && _); [done|].
  cbv zeta. simpl. rewrite lookup_insert_eq. split; [done|]. right. reflect_bools. done.
Qed.

Lemma sweepLocked_inv r now : Inv r → Inv (sweepLocked r now).
Proof. intros HI. rewrite sweepLocked_eq. by apply Inv_keep. Qed.

Lemma openSession_inv r now c grant sess r' :
  Inv r → checkChunk r c = None → openSession r now c grant = inr (sess, r') → Inv r'.
Proof.
  intros HI Hc Ho. pose proof (openSession_cases r now c grant) as Hx. rewrite Ho in Hx.
  destruct Hx as [_ [->|(Hnone & -> & Hmax & ->)]]; [done|].
  pose proof (newSession_inv r c now (g_Credential grant) HI Hc) as Hn.
  destruct HI as [Hcaps Hs Hcnt]. constructor; simpl; [done|by apply map_Forall_insert_2|].
  rewrite map_size_insert_None by done. lia.
Qed.

(** What a push leaves, on each path. *)
Lemma openSession_caps r now c grant sess r' :
  openSession r now c grant = inr (sess, r') →
  maxWindow r' = maxWindow r ∧ maxChunkBytes r' = maxChunkBytes r ∧
  maxAttachmentBytes r' = maxAttachmentBytes r ∧ transit r' = transit r.
Proof.
  intros Ho. pose proof (openSession_cases r now c grant) as Hx. rewrite Ho in Hx.
  by destruct Hx as [_ [->|(_ & _ & _ & ->)]].
Qed.

Lemma checkChunk_caps r r' c : maxChunkBytes r' = maxChunkBytes r → checkChunk r' c = checkChunk r c.
Proof. intros H'. unfold checkChunk. by rewrite H'. Qed.

Lemma chargeTransit_sessions r credential now n :
  sessions (chargeTransit r credential now n) = sessions r ∧
  (Inv r → Inv (chargeTransit r credential now n)).
Proof. unfold chargeTransit. case_match; [|done]. split; [done|]. apply Inv_transit. Qed.

Lemma PushWithGrant_inv r now c grant : Inv r → Inv (PushWithGrant r now c grant).2.
Proof.
  intros HI. unfold PushWithGrant. destruct (checkChunk r (trimChunk c)) eqn:Hc; [done|].
  assert (Inv (sweepLocked r now)) as HI1 by (by apply sweepLocked_inv).
  assert (checkChunk (sweepLocked r now) (trimChunk c) = None) as Hc1.
  { rewrite sweepLocked_eq. done. }
  generalize dependent (sweepLocked r now). intros r1 HI1 Hc1.
  pose proof (openSession_cases r1 now (trimChunk c) grant) as Hcases.
  destruct (openSession r1 now (trimChunk c) grant) as [err|[sess r2]] eqn:Ho; [done|].
  pose proof (openSession_inv _ _ _ _ _ _ HI1 Hc1 Ho) as HI2.
  destruct (openSession_caps _ _ _ _ _ _ Ho) as (_ & Hmc & _).
  destruct (checkSession r2 sess now (trimChunk c) grant) eqn:Hs; [done|]. cbn [snd].
  apply chargeTransit_sessions. eapply Inv_update; [done|apply Hcases|].
  eapply pushSession_inv; [apply (inv_sessions _ HI2), Hcases| |done].
  by rewrite (checkChunk_caps r1).
Qed.

Lemma Drain_inv r now now' rec cap : Inv r → Inv (Drain r now now' rec cap).2.
Proof.
  intros HI. unfold Drain. case_match; [done|].
  assert (Inv (sweepLocked r now)) as HI1 by (by apply sweepLocked_inv).
  generalize dependent (sweepLocked r now). intros r1 HI1.
  destruct (sessions r1 !! TrimSpace cap) as [sess|] eqn:Hs; [|done]. case_match; [done|].
  eapply Inv_update; [done..|]. destruct (inv_sessions _ HI1 _ _ Hs). pose proof (inv_caps _ HI1).
  constructor; simpl; try done; try lia.
  pose proof (payloadSum_nonneg (s_window sess)). lia.
Qed.

Lemma attachment_exec_inv r o : Inv r → Inv (exec r o).2.
Proof.
  intros HI. destruct o; unfold exec.
  - pose proof (PushWithGrant_inv r now c grant HI). by case_match.
  - pose proof (Drain_inv r now now' recipient capability HI). by case_match.
  - unfold Complete. repeat case_match; try done; simplify_eq; try done. simpl.
    rewrite keep_delete. by apply Inv_keep.
  - unfold Prune. cbv zeta. cbn [snd]. apply Inv_transit. by apply sweepLocked_inv.
Qed.
End runtime.

Lemma attachment_steps_inv r os r' : steps r os r' → Inv r → Inv r'.
Proof. induction 1; [done|]. intros HI. apply IHsteps. by apply attachment_exec_inv. Qed.

(** ** The memory ceiling *)

Lemma statsLocked_fold (l : list (string * session)) st :
  foldl (λ st '(_, sess), mkStats (st_Sessions st) (st_Chunks st + Z.of_nat (length (s_window sess)))
                            (st_Bytes st + s_bytes sess)) st l =
  mkStats (st_Sessions st)
    (st_Chunks st + zsum (λ x, Z.of_nat (length (s_window x.2))) l)
    (st_Bytes st + zsum (λ x, s_bytes x.2) l).
Proof.
  revert st. induction l as [|[k s] l IH]; intros st; simpl.
  - destruct st. simpl. by rewrite !Z.add_0_r.
  - rewrite IH. simpl. f_equal; lia.
Qed.

(** The memory the relay holds for attachments is bounded by its configuration, in
    every run whatever clients send: at most [maxSessions] transfers; in flight at most
    [maxSessions * maxWindow] chunks and [maxSessions * maxWindow * maxChunkBytes] bytes,
    as the relay's own statistics report them; and per transfer a replay bitmap of at
    most 128 words and at most [maxAttachmentBytes] bytes ever accepted. *)
Theorem attachment_memory_ceiling `{!GoRuntime} w c a n t os r :
  steps (NewRelay w c a n t) os r →
  st_Sessions (statsLocked r) ≤ maxSessions r ∧
  st_Chunks (statsLocked r) ≤ maxSessions r * maxWindow r ∧
  st_Bytes (statsLocked r) ≤ maxSessions r * maxWindow r * maxChunkBytes r ∧
  ∀ cap s, sessions r !! cap = Some s →
    (length (s_seen s) ≤ 128)%nat ∧ s_pushedBytes s ≤ maxAttachmentBytes r.
Proof.
  intros Hsteps. assert (Inv r) as HI by (eapply attachment_steps_inv; [done|apply NewRelay_inv]).
  pose proof (inv_caps r HI) as Hcaps. pose proof (inv_count r HI) as Hcnt.
  assert (length (range (sessions r)) = size (sessions r)) as Hlen
    by (by rewrite range_perm, length_map_to_list).
  assert (∀ P : session → Prop, (∀ cap s, session_ok r cap s → P s) →
    Forall (λ x, P x.2) (range (sessions r))) as Hall.
  { intros P HP. apply Forall_forall. intros [k s] Hk. apply range_lookup in Hk. simpl.
    eapply HP, (inv_sessions r HI), Hk. }
  unfold statsLocked. rewrite statsLocked_fold. simpl. split_and!; [done| | |].
  - pose proof (zsum_bound (λ x, Z.of_nat (length (s_window x.2))) (range (sessions r)) (maxWindow r)
      ltac:(apply (Hall (λ s, Z.of_nat (length (s_window s)) ≤ maxWindow r)); by intros cap s [])).
    rewrite Hlen in *. nia.
  - pose proof (zsum_bound (λ x, s_bytes x.2) (range (sessions r)) (maxWindow r * maxChunkBytes r)) as Hb.
    rewrite Hlen in Hb. enough (zsum (λ x, s_bytes x.2) (range (sessions r))
      ≤ maxWindow r * maxChunkBytes r * Z.of_nat (size (sessions r))) by nia.
    apply Hb, (Hall (λ s, s_bytes s ≤ maxWindow r * maxChunkBytes r)). intros cap s [].
    rewrite sinv_bytes0. etrans; [apply (zsum_bound _ _ (maxChunkBytes r))|nia].
    eapply Forall_impl; [done|]. by intros ? [].
  - intros cap s Hs. destruct (inv_sessions r HI cap s Hs). split; [|lia].
    rewrite sinv_seen0. unfold words, maxChunksPerTransfer in *.
    change 128%nat with (Z.to_nat 128). apply Z2Nat.inj_le; [apply Z.div_pos; lia|lia|].
    apply Zlt_succ_le, Z.div_lt_upper_bound; lia.
Qed.

(** ** Runs that can be evaluated *)

Fixpoint run `{!GoRuntime} (r : Relay) (os : list Op) : Relay :=
  match os with [] => r | o :: os => run (exec r o).2 os end.

Lemma attachment_run_steps `{!GoRuntime} r os : steps r os (run r os).
Proof. revert r. induction os; intros r; simpl; econstructor; eauto. Qed.

Module Sample.
(** Noon of a day in 2024. *)
Definition T0 : Time := (62135596800 + 1704110400) * Second.
Definition relay : Relay := NewRelay 2 100 250 4 (30 * Second).
Definition chunk (cap : string) (i total : Z) (payload : string) : Chunk :=
  mkChunk ("c" +:+ cap) ("t" +:+ cap) cap "bob" i total payload 1 0 0.
Definition circle (limit : Z) : Grant := mkGrant 7 0 0 limit.
Definition ops : list Op :=
  [OPush T0 (chunk "k" 0 3 "aa") zeroGrant; OPush T0 (chunk "k" 1 3 "bbb") zeroGrant;
   OPush T0 (chunk "k" 2 3 "c") zeroGrant].
End Sample.

Lemma attachment_memory_ceiling_witness :
  let r := run Sample.relay Sample.ops in
  st_Bytes (statsLocked r) = 5 ∧ st_Chunks (statsLocked r) = 2 ∧
  st_Chunks (statsLocked r) ≤ maxSessions r * maxWindow r.
Proof.
  intros r. split; [by vm_compute|]. split; [by vm_compute|].
  destruct (attachment_memory_ceiling 2 100 250 4 (30 * Second) Sample.ops r
    (attachment_run_steps Sample.relay Sample.ops)) as (_ & H & _). exact H.
Defined.

(** ** Delivery: in order, at most once *)

(** The chunks a transfer has had accepted and the chunks it has handed out, over the
    life of its session. *)
Record Ledger := mkLedger { l_accepted : list Chunk; l_delivered : list Chunk }.

Definition blank : Ledger := mkLedger [] [].

Section ledger.
Context `{!GoRuntime} (cap : string).

(** The sweep an operation begins with, if it gets that far. *)
Definition swept (r : Relay) (o : Op) : Relay :=
  match o with
  | OPush now c _ => match checkChunk r (trimChunk c) with
                     | None => sweepLocked r now | Some _ => r end
  | ODrain now _ rec k =>
      if is_empty (TrimSpace rec) || is_empty (TrimSpace k) then r else sweepLocked r now
  | OComplete _ _ => r
  | OPrune now => sweepLocked r now
  end.

(** The ledger of the session [cap] after an operation: it starts blank with the session
    and is closed when the session is swept or completed. *)
Definition account (r : Relay) (l : Ledger) (o : Op) : Ledger :=
  let l := if bool_decide (is_Some (sessions (swept r o) !! cap)) then l else blank in
  match o, (exec r o).1 with
  | OPush _ c _, RPush None =>
      if bool_decide (TrimSpace (c_Capability c) = cap)
      then mkLedger (l_accepted l ++ [trimChunk c]) (l_delivered l) else l
  | ODrain _ _ _ k, RDrain out =>
      if bool_decide (TrimSpace k = cap)
      then mkLedger (l_accepted l) (l_delivered l ++ out) else l
  | _, _ => l
  end.

(** What the ledger says of the session. *)
Definition balanced (r : Relay) (l : Ledger) : Prop :=
  ∀ s, sessions r !! cap = Some s →
    l_delivered l ++ s_window s = l_accepted l ∧
    NoDup (c_Index <$> l_accepted l) ∧
    s_pushedBytes s = payloadSum (l_accepted l) ∧
    Forall (λ c, 0 ≤ c_Index c < s_totalChunks s) (l_accepted l) ∧
    ∀ i, 0 ≤ i < s_totalChunks s → seenBit (s_seen s) i = bool_decide (i ∈ c_Index <$> l_accepted l).

Lemma balanced_fresh r : sessions r !! cap = None → balanced r blank.
Proof. intros Hn s Hs. congruence. Qed.

Lemma balanced_same r r' l :
  sessions r' !! cap = sessions r !! cap → balanced r l → balanced r' l.
Proof. intros Heq Hb s. rewrite Heq. apply Hb. Qed.

(** Closing the ledger of a session that is not there, and delivering nothing. *)
Lemma balanced_close r l :
  balanced r l → balanced r (if bool_decide (is_Some (sessions r !! cap)) then l else blank).
Proof.
  intros Hb. case_bool_decide as Hs; [done|]. by apply balanced_fresh, eq_None_not_Some.
Qed.

Lemma balanced_nothing r l (b : bool) :
  balanced r l → balanced r (if b then mkLedger (l_accepted l) (l_delivered l ++ []) else l).
Proof. intros Hb. rewrite app_nil_r. by destruct l, b. Qed.

(** After the sweep, with the ledger closed if the session went. *)
Lemma balanced_sweep r now l :
  balanced r l →
  balanced (sweepLocked r now)
    (if bool_decide (is_Some (sessions (sweepLocked r now) !! cap)) then l else blank).
Proof.
  intros Hb. case_bool_decide as Hs; [|by apply balanced_fresh, eq_None_not_Some].
  eapply balanced_same; [|done]. destruct Hs as [s Hs]. rewrite Hs.
  rewrite sweepLocked_eq in Hs. by apply keep_Some in Hs as [-> _].
Qed.

Lemma balanced_new r c now credential :
  c_Capability c = cap →
  balanced (with_sessions (<[c_Capability c := newSession c now credential]> (sessions r)) r) blank.
Proof.
  intros Hc s. simpl. rewrite Hc, lookup_insert_eq. intros [= <-]. simpl. split_and!; [done|constructor|done..|].
  intros i _. apply seenBit_fresh.
Qed.

(** An accepted chunk joins the window and the ledger. *)
Lemma balanced_push r sess now c grant l r' :
  session_ok r cap sess → checkChunk r c = None → checkSession r sess now c grant = None →
  sessions r !! cap = Some sess → balanced r l →
  sessions r' !! cap = Some (pushSession sess now c) →
  balanced r' (mkLedger (l_accepted l ++ [c]) (l_delivered l)).
Proof.
  intros [] Hc%checkChunk_ok Hs%checkSession_ok Hr Hb Hr' s. rewrite Hr'. intros [= <-]. simpl.
  destruct Hc as (_ & Hi & _), Hs as (_ & _ & Htot & Hfresh & _).
  destruct (Hb sess Hr) as (Hw & Hnd & Hp & Hall & Hseen). rewrite <-Htot in Hi.
  assert (c_Index c ∉ c_Index <$> l_accepted l) as Hnew.
  { by rewrite (Hseen _ Hi), bool_decide_eq_false in Hfresh. }
  split_and!.
  - by rewrite app_assoc, Hw.
  - rewrite fmap_app. simpl. apply NoDup_app. split_and!; [done| |apply NoDup_singleton]. set_solver.
  - rewrite payloadSum_app. unfold payloadSum at 2. simpl. lia.
  - apply Forall_app. split; [done|]. by apply Forall_singleton.
  - intros i Hii. rewrite (seenBit_mark _ _ _ (s_totalChunks sess)) by done.
    rewrite (Hseen i Hii), fmap_app, <-bool_decide_or. apply bool_decide_ext. set_solver.
Qed.

Lemma balanced_drain r s now' l r' :
  sessions r !! cap = Some s → balanced r l →
  sessions r' !! cap = Some (mkSession (s_transferID s) (s_capability s) (s_recipient s) [] 0
    (s_totalChunks s) (s_seen s) now' (s_credential s) (s_pushedBytes s)) →
  balanced r' (mkLedger (l_accepted l) (l_delivered l ++ s_window s)).
Proof.
  intros Hr Hb Hr' s'. rewrite Hr'. intros [= <-]. simpl.
  destruct (Hb s Hr) as (Hw & ?). by rewrite app_nil_r.
Qed.

Lemma balanced_PushWithGrant r now c grant l :
  Inv r → balanced r l → balanced (exec r (OPush now c grant)).2 (account r l (OPush now c grant)).
Proof.
  intros HI Hb. unfold account, exec, swept, PushWithGrant.
  destruct (checkChunk r (trimChunk c)) as [err|] eqn:Hc.
  { by apply balanced_close. }
  assert (Inv (sweepLocked r now)) as HI1 by (by apply sweepLocked_inv).
  assert (checkChunk (sweepLocked r now) (trimChunk c) = None) as Hc1 by (by rewrite sweepLocked_eq).
  apply (balanced_sweep r now) in Hb.
  set (l1 := if bool_decide _ then l else blank) in *.
  assert (sessions (sweepLocked r now) !! cap = None → l1 = blank) as Hblank.
  { intros Hn. unfold l1. by rewrite Hn. }
  clearbody l1. cbv zeta. generalize dependent (sweepLocked r now). intros r1 Hb1 HI1 Hc1 Hblank.
  pose proof (openSession_cases r1 now (trimChunk c) grant) as Hcases.
  destruct (openSession r1 now (trimChunk c) grant) as [err|[sess r2]] eqn:Ho; [done|].
  pose proof (openSession_inv _ _ _ _ _ _ HI1 Hc1 Ho) as HI2.
  destruct (openSession_caps _ _ _ _ _ _ Ho) as (_ & Hmc & _).
  destruct Hcases as [Hsess Hr2].
  assert (balanced r2 l1) as Hb2.
  { destruct Hr2 as [->|(Hnone & -> & _ & ->)]; [done|].
    destruct (decide (c_Capability (trimChunk c) = cap)) as [Heq|Hne].
    - rewrite Heq in Hnone. rewrite (Hblank Hnone). by apply balanced_new.
    - eapply balanced_same; [|exact Hb1]. simpl in *. by rewrite lookup_insert_ne. }
  destruct (checkSession r2 sess now (trimChunk c) grant) eqn:Hs; [done|]. cbn [fst snd].
  case_bool_decide as Hcap.
  - change (c_Capability (trimChunk c)) with (TrimSpace (c_Capability c)) in *. rewrite Hcap in *.
    eapply (balanced_push r2 sess now (trimChunk c) grant); try done.
    + by apply (inv_sessions _ HI2).
    + by rewrite (checkChunk_caps r1).
    + rewrite (proj1 (chargeTransit_sessions _ _ _ _)). simpl. by rewrite lookup_insert_eq.
  - eapply balanced_same; [|exact Hb2]. rewrite (proj1 (chargeTransit_sessions _ _ _ _)).
    simpl in *. by rewrite lookup_insert_ne.
Qed.

Lemma balanced_Drain r now now' rec k l :
  Inv r → balanced r l →
  balanced (exec r (ODrain now now' rec k)).2 (account r l (ODrain now now' rec k)).
Proof.
  intros HI Hb. unfold account, exec, swept, Drain.
  destruct (is_empty (TrimSpace rec) || is_empty (TrimSpace k)).
  { by apply balanced_nothing, balanced_close. }
  apply (balanced_sweep r now) in Hb. set (l1 := if bool_decide _ then l else blank) in *.
  clearbody l1. cbv zeta. generalize dependent (sweepLocked r now). intros r1 Hb1.
  pose proof (balanced_nothing r1 l1 (bool_decide (TrimSpace k = cap)) Hb1) as Hnil.
  destruct (sessions r1 !! TrimSpace k) as [s|] eqn:Hs; [|done].
  destruct (negb _ || _); [done|]. cbn [fst snd].
  case_bool_decide as Hk.
  - rewrite Hk in *. eapply balanced_drain; [done..|]. simpl. by rewrite lookup_insert_eq.
  - eapply balanced_same; [|done]. simpl. by rewrite lookup_insert_ne.
Qed.

Lemma attachment_balanced_step r o l : Inv r → balanced r l → balanced (exec r o).2 (account r l o).
Proof.
  intros HI Hb. destruct o; [by apply balanced_PushWithGrant | by apply balanced_Drain | |].
  - apply balanced_close in Hb. unfold account, exec, swept, Complete.
    destruct (sessions r !! TrimSpace capability) as [s|]; [|done]. destruct (negb _); [done|].
    cbn [fst snd]. destruct (decide (TrimSpace capability = cap)) as [Heq|Hne].
    + intros s'. simpl. by rewrite Heq, lookup_delete_eq.
    + eapply balanced_same; [|exact Hb]. simpl. by rewrite lookup_delete_ne.
  - apply (balanced_sweep r now) in Hb. exact Hb.
Qed.
End ledger.

(** A run with the ledger of one transfer beside it. *)
Inductive ledger_steps (cap : string) : Relay → Ledger → list Op → Relay → Ledger → Prop :=
  | ledger_nil r l : ledger_steps cap r l [] r l
  | ledger_cons (rt : GoRuntime) r l o os r' l' :
      ledger_steps cap (exec r o).2 (account cap r l o) os r' l' →
      ledger_steps cap r l (o :: os) r' l'.

(** C35: A transfer delivers what it accepted, in order and at most once. Over the life of
    a session, in every run: what the recipient has drained followed by what is still in
    the window is the sequence of chunks that were accepted; no two of them have the same
    index; the replay bitmap marks exactly their indices, so a chunk that was drained is
    refused when it is sent again; and the bytes charged to the transfer's ceiling are
    the bytes of those chunks. *)
Theorem attachment_exactly_once cap w c a n t os r l s :
  ledger_steps cap (NewRelay w c a n t) blank os r l → sessions r !! cap = Some s →
  l_delivered l ++ s_window s = l_accepted l ∧
  NoDup (c_Index <$> l_accepted l) ∧
  (∀ i, 0 ≤ i < s_totalChunks s →
        seenBit (s_seen s) i = bool_decide (i ∈ c_Index <$> l_accepted l)) ∧
  s_pushedBytes s = payloadSum (l_accepted l).
Proof.
  intros Hsteps Hs.
  assert (balanced cap r l) as Hb; [|destruct (Hb s Hs) as (? & ? & ? & ? & ?); done].
  clear s Hs. pose proof (NewRelay_inv w c a n t) as HI.
  assert (balanced cap (NewRelay w c a n t) blank) as Hb0 by (by apply balanced_fresh).
  generalize dependent (NewRelay w c a n t). intros r0 Hsteps HI Hb0.
  induction Hsteps as [|rt r0 l0 o os r' l' _ IH]; [done|].
  apply IH; [by apply attachment_exec_inv | by apply attachment_balanced_step].
Qed.

Fixpoint ledger_run `{!GoRuntime} (cap : string) (r : Relay) (l : Ledger) (os : list Op) : Ledger :=
  match os with [] => l | o :: os => ledger_run cap (exec r o).2 (account cap r l o) os end.

Lemma attachment_ledger_run_steps `{!GoRuntime} cap r l os :
  ledger_steps cap r l os (run r os) (ledger_run cap r l os).
Proof. revert r l. induction os; intros r l; simpl; econstructor; eauto. Qed.

Lemma attachment_exactly_once_witness :
  let os := (Sample.ops ++ [ODrain Sample.T0 Sample.T0 "bob" "k"] ++ Sample.ops)%list in
  let l := ledger_run "k" Sample.relay blank os in
  c_Index <$> l_delivered l = [0; 1] ∧ c_Index <$> l_accepted l = [0; 1; 2] ∧
  NoDup (c_Index <$> l_accepted l).
Proof.
  intros os l. split; [by vm_compute|]. split; [by vm_compute|].
  destruct (sessions (run Sample.relay os) !! "k"%string) as [s|] eqn:E; [|by vm_compute in E].
  destruct (attachment_exactly_once "k" 2 100 250 4 (30 * Second) os (run Sample.relay os) l s
    (attachment_ledger_run_steps "k" Sample.relay blank os) E) as (_ & H & _).
  exact H.
Defined.

(** ** The rolling transit window *)

(** The window after a history of charges, oldest first. *)
Definition windowOf (events : list (Time * Z)) : transitWindow :=
  foldl (λ w '(t, n), transit_add w t n) zeroTransitWindow events.

(** What the window stands for: the bytes charged in the current hour and the 23 before. *)
Definition rolling (events : list (Time * Z)) (now : Time) : Z :=
  zsum (λ x, if hourOf now - 23 <=? hourOf x.1 then x.2 else 0) events.

(** Charges in the order of the clock, from 1970 on. *)
Definition chronological (events : list (Time * Z)) (now : Time) : Prop :=
  StronglySorted (λ x y, hourOf x.1 ≤ hourOf y.1) events ∧
  Forall (λ x, 0 ≤ hourOf x.1 ≤ hourOf now) events.

Definition bucket (k : nat) (h : Z) (x : Time * Z) : Z :=
  if bool_decide (hourOf x.1 = h ∧ slotOf (hourOf x.1) = k) then x.2 else 0.

(** Each bucket holds the bytes of its own hour, the latest one charged in its slot. *)
Definition window_ok (events : list (Time * Z)) (w : transitWindow) : Prop :=
  ∀ k, (k < 24)%nat → ∃ h b,
    w_hour w !! k = Some h ∧ w_bytes w !! k = Some b ∧ b = zsum (bucket k h) events ∧
    (∀ x, x ∈ events → slotOf (hourOf x.1) = k → hourOf x.1 ≤ h) ∧
    (h = 0 ∨ ∃ x, x ∈ events ∧ hourOf x.1 = h ∧ slotOf h = k).

Lemma slotOf_lt h : (slotOf h < 24)%nat.
Proof.
  unfold slotOf. pose proof (Z.rem_bound_abs h 24 ltac:(lia)). lia.
Qed.

Lemma slotOf_near h h' : 0 ≤ h → h ≤ h' ≤ h + 23 → slotOf h = slotOf h' → h = h'.
Proof.
  unfold slotOf. intros Hh Hh' Heq. rewrite !Z.rem_mod_nonneg in Heq by lia.
  pose proof (Z.mod_pos_bound h 24 ltac:(lia)). pose proof (Z.mod_pos_bound h' 24 ltac:(lia)).
  pose proof (Z.div_mod h 24 ltac:(lia)). pose proof (Z.div_mod h' 24 ltac:(lia)). lia.
Qed.

Lemma window_zero : window_ok [] zeroTransitWindow.
Proof.
  intros k Hk. exists 0, 0. change (w_hour _) with (replicate 24 0).
  change (w_bytes _) with (replicate 24 0).
  rewrite !lookup_replicate_2 by done. split_and!; try done; [by intros x ?%not_elem_of_nil | by left].
Qed.

(** Charging the newest hour. *)
Lemma window_add events w t n :
  window_ok events w → 0 ≤ hourOf t →
  Forall (λ x, 0 ≤ hourOf x.1 ≤ hourOf t) events →
  window_ok (events ++ [(t, n)]) (transit_add w t n).
Proof.
  intros Hw Ht Hall k Hk. unfold transit_add. set (H := hourOf t) in *. set (s := slotOf H).
  destruct (Hw s (slotOf_lt H)) as (h & b & Hh & Hb & Hsum & Hmax & Horig).
  rewrite Hh. change (default 0 (Some h)) with h. rewrite Forall_forall in Hall.
  assert (h ≤ H) as HhH.
  { destruct Horig as [->|(x & Hx & <- & _)]; [done|]. by apply Hall. }
  assert (h ≠ H → zsum (bucket s H) events = 0) as Hempty.
  { intros Hne. apply zsum_zero. intros x Hx. unfold bucket.
    rewrite bool_decide_eq_false_2; [done|]. intros [Hxh Hxs].
    specialize (Hmax x Hx Hxs). lia. }
  pose proof (lookup_lt_Some _ _ _ Hh) as Hlh. pose proof (lookup_lt_Some _ _ _ Hb) as Hlb.
  destruct (decide (k = s)) as [->|Hks].
  - exists H, (zsum (bucket s H) (events ++ [(t, n)])).
    assert (bucket s H (t, n) = n) as Hnew.
    { unfold bucket. by rewrite bool_decide_eq_true_2. }
    rewrite zsum_app. cbn [zsum foldr]. rewrite Hnew, Z.add_0_r. split_and!.
    + destruct (negb (h =? H)) eqn:E; reflect_bools; simpl; [by apply list_lookup_insert_eq|congruence].
    + destruct (negb (h =? H)) eqn:E; reflect_bools; simpl.
      * rewrite list_lookup_insert_eq by (by rewrite length_insert).
        rewrite list_lookup_insert_eq by done. simpl. by rewrite Hempty.
      * rewrite list_lookup_insert_eq by done. rewrite Hb. simpl. subst. done.
    + done.
    + intros x [Hx|[=->]%list_elem_of_singleton]%elem_of_app _; [by apply Hall | done].
    + right. exists (t, n). split; [set_solver | done].
  - destruct (Hw k Hk) as (h' & b' & Hh' & Hb' & Hsum' & Hmax' & Horig'). exists h', b'.
    assert (bucket k h' (t, n) = 0) as Hnew.
    { unfold bucket. rewrite bool_decide_eq_false_2; [done|]. simpl. by intros [_ ?]. }
    rewrite zsum_app. cbn [zsum foldr]. rewrite Hnew, !Z.add_0_r. split_and!; [| |done| |].
    + case_match; simpl; [|done]. by rewrite list_lookup_insert_ne.
    + case_match; simpl; rewrite !list_lookup_insert_ne; done.
    + intros x [Hx|[=->]%list_elem_of_singleton]%elem_of_app Hs; [by apply Hmax'|].
      simpl in Hs. fold H in Hs. fold s in Hs. done.
    + destruct Horig' as [?|(x & ? & ?)]; [by left|]. right. exists x. set_solver.
Qed.

Lemma windowOf_ok events now : chronological events now → window_ok events (windowOf events).
Proof.
  induction events as [|[t n] events IH] using rev_ind; intros [Hs Hall]; [apply window_zero|].
  unfold windowOf. rewrite foldl_snoc. fold (windowOf events).
  apply StronglySorted_app in Hs as (Hlt & Hs & _). apply Forall_app in Hall as [Hall Hlast].
  rewrite Forall_singleton in Hlast. cbn [fst] in Hlast.
  apply window_add; [by apply IH|lia|]. apply Forall_forall. intros x Hx.
  rewrite Forall_forall in Hall. specialize (Hall x Hx).
  specialize (Hlt x (t, n) Hx ltac:(by apply list_elem_of_singleton)). cbn [fst] in Hlt. lia.
Qed.

(** C36: The transit window is the rolling total it stands for: after any history of
    charges in clock order, the 24 hourly buckets, reused modulo 24, add up to exactly
    the bytes charged in the current hour and the 23 hours before it. *)
Theorem transit_window_exact events now :
  chronological events now → transit_total (windowOf events) now = rolling events now.
Proof.
  intros Hc. pose proof (windowOf_ok events now Hc) as Hw. destruct Hc as [_ Hall].
  rewrite Forall_forall in Hall. set (w := windowOf events) in *. clearbody w.
  unfold transit_total, rolling. cbv zeta. set (oldest := hourOf now - 23).
  rewrite (foldl_zsum (λ slot, oldest <=? default 0 (w_hour w !! slot))), Z.add_0_l.
  rewrite (zsum_ext _ (λ k, zsum (λ x, if oldest <=? default 0 (w_hour w !! k)
    then bucket k (default 0 (w_hour w !! k)) x else 0) events)).
  2:{ intros k Hk%elem_of_seq. destruct (Hw k ltac:(lia)) as (h & b & -> & -> & -> & _). simpl.
      case_match; [done|]. symmetry. by apply zsum_zero. }
  rewrite zsum_swap. apply zsum_ext. intros x Hx. destruct (Hall x Hx) as [Hpos Hnow].
  set (s := slotOf (hourOf x.1)).
  rewrite (zsum_single _ _ s); [|apply NoDup_seq| |].
  2:{ apply elem_of_seq. pose proof (slotOf_lt (hourOf x.1)). lia. }
  2:{ intros k _ Hk. case_match; [|done]. unfold bucket. rewrite bool_decide_eq_false_2; [done|].
      intros [_ ?]. done. }
  destruct (Hw s (slotOf_lt _)) as (h & b & -> & _ & _ & Hmax & Horig). simpl.
  specialize (Hmax x Hx eq_refl).
  assert (oldest ≤ hourOf x.1 → hourOf x.1 = h) as Heq.
  { intros Hold. destruct Horig as [->|(y & Hy & Hyh & Hys)]; [lia|].
    apply slotOf_near; [done| |done]. specialize (Hall y Hy). unfold oldest in Hold. lia. }
  unfold bucket. destruct (oldest <=? hourOf x.1) eqn:Ho; reflect_bools.
  - rewrite <-(Heq Ho). by rewrite (proj2 (Z.leb_le _ _) Ho), bool_decide_eq_true_2.
  - destruct (oldest <=? h) eqn:Hoh; [|done]. reflect_bools.
    rewrite bool_decide_eq_false_2; [done|]. intros [? _]. lia.
Qed.

Lemma transit_window_exact_witness :
  let t := Sample.T0 in
  let events := [(t, 5); (t + 2 * Hour, 7); (t + 25 * Hour, 11)] in
  transit_total (windowOf events) (t + 25 * Hour) = rolling events (t + 25 * Hour) ∧
  rolling events (t + 25 * Hour) = 18.
Proof.
  intros t events. split; [|by vm_compute].
  apply (transit_window_exact events (t + 25 * Hour)). split.
  - repeat (constructor; [|repeat (constructor; [by vm_compute|]); constructor]). constructor.
  - repeat (constructor; [by vm_compute|]). constructor.
Defined.

(** ** What one push does *)

(** An accepted push appends its chunk to its own transfer's window, within the
    transfer's byte ceiling and, if its circle's transit is already being counted, within
    the circle's daily ceiling, and charges its real length to that circle; it touches no
    other session. A refused push hands out no byte and charges nothing: every session it
    leaves is one that was there before, or an empty one opened for the refused chunk. *)
Theorem push_effect `{!GoRuntime} r now c grant :
  Inv r →
  let chunk := trimChunk c in
  let n := len (c_EncryptedPayload chunk) in
  match PushWithGrant r now c grant with
  | (None, r') => ∃ s s',
      sessions r' = <[c_Capability chunk := s']> (keep (awake r now) (sessions r)) ∧
      (sessions r !! c_Capability chunk = Some s ∨ s = newSession chunk now (g_Credential grant)) ∧
      s_window s' = s_window s ++ [chunk] ∧ s_pushedBytes s' = s_pushedBytes s + n ∧
      s_pushedBytes s' ≤ lowerOf (maxAttachmentBytes r) (g_AttachmentBytes grant) ∧
      transit r' = transit (chargeTransit r (s_credential s) now n) ∧
      (∀ w, s_credential s ≠ 0 → 0 < g_TransitBytesPerDay grant →
            transit r !! s_credential s = Some w →
            transit_total w now + n ≤ g_TransitBytesPerDay grant)
  | (Some err, r') =>
      transit r' = transit r ∧
      ∀ k s, sessions r' !! k = Some s →
        sessions r !! k = Some s ∨ k = c_Capability chunk ∧ s = newSession chunk now (g_Credential grant)
  end.
Proof.
  intros HI chunk n. unfold PushWithGrant. fold chunk.
  destruct (checkChunk r chunk) as [err|] eqn:Hc; [by auto|]. rewrite sweepLocked_eq. cbv zeta.
  set (r1 := with_sessions _ r).
  assert (∀ k s, sessions r1 !! k = Some s → sessions r !! k = Some s) as Hsub
    by (by intros k s [? _]%keep_Some).
  pose proof (openSession_cases r1 now chunk grant) as Hcases.
  destruct (openSession r1 now chunk grant) as [err|[s r2]] eqn:Ho; [by auto|].
  destruct (openSession_caps _ _ _ _ _ _ Ho) as (_ & _ & Hma & Htr). destruct Hcases as [Hs Hr2].
  change (transit r1) with (transit r) in Htr.
  assert (∀ s', <[c_Capability chunk := s']> (sessions r2) = <[c_Capability chunk := s']> (sessions r1)) as Hins.
  { intros s'. destruct Hr2 as [->|(_ & _ & _ & ->)]; [done|]. apply insert_insert_eq. }
  destruct (checkSession r2 s now chunk grant) as [err|] eqn:Hchk.
  - split; [done|]. intros k s' Hk. destruct Hr2 as [->|(_ & -> & _ & ->)]; [by auto|].
    simpl in Hk. apply lookup_insert_Some in Hk as [[<- <-]|[_ Hk]]; [by right | by auto].
  - exists s, (pushSession s now chunk). rewrite (proj1 (chargeTransit_sessions _ _ _ _)). simpl.
    rewrite Hins. pose proof (checkSession_ok _ _ _ _ _ Hchk) as (_ & _ & _ & _ & _ & Hp).
    rewrite Hma in Hp. split_and!; try done.
    + destruct Hr2 as [->|(_ & -> & _)]; [left; by apply Hsub | by right].
    + unfold chargeTransit. rewrite <-Htr. by case_match.
    + intros w Hcred Hlim Hw. unfold checkSession in Hchk. rewrite Htr in Hchk. simpl in Hchk.
      rewrite Hw in Hchk. fold n in Hchk. do 3 (case_match; [done|]).
      rewrite (proj2 (Z.eqb_neq _ _) Hcred), (proj2 (Z.ltb_lt _ _) Hlim) in Hchk. simpl in Hchk.
      destruct (g_TransitBytesPerDay grant <? _) eqn:E; [done|]. by reflect_bools.
Qed.

Lemma push_effect_witness :
  let '(err, r') := PushWithGrant Sample.relay Sample.T0 (Sample.chunk "k" 0 3 "aa") zeroGrant in
  err = None ∧ ∃ s s', s_window s' = s_window s ++ [trimChunk (Sample.chunk "k" 0 3 "aa")].
Proof.
  pose proof (push_effect Sample.relay Sample.T0 (Sample.chunk "k" 0 3 "aa") zeroGrant
    (NewRelay_inv 2 100 250 4 (30 * Second))) as H.
  cbv zeta in H.
  destruct (PushWithGrant Sample.relay Sample.T0 (Sample.chunk "k" 0 3 "aa") zeroGrant)
    as [[err|] r'] eqn:E; [by vm_compute in E|].
  destruct H as (s & s' & _ & _ & Hw & _). split; [reflexivity|]. exists s, s'. exact Hw.
Defined.

(** The daily ceiling does not bind a circle's first push of a day: with no window
    counted yet the check is skipped, so a circle allowed one byte a day pushes a chunk
    of eleven, and only the chunk after it is refused. *)
Theorem first_push_passes_ceiling :
  let push r i := PushWithGrant r Sample.T0 (Sample.chunk "k" i 3 "elevenbytes") (Sample.circle 1) in
  let r1 := push Sample.relay 0 in
  r1.1 = None ∧ TransitToday r1.2 Sample.T0 7 = 11 ∧ (push r1.2 1).1 = Some ErrTransitExhausted.
Proof. by vm_compute. Qed.
