(* ===== verification/Float64.v ===== *)
(** * Go's [float64]

    IEEE 754 binary64 with rounding to nearest even, as the standard library specifies
    it: 53 bits of precision and a maximal exponent of 1024. *)

From Stdlib Require Import Floats.SpecFloat.
From S2P Require Import Prelude.

Open Scope Z_scope.

Abbreviation float64 := spec_float (only parsing).

Definition f_prec : Z := 53.
Definition f_emax : Z := 1024.

(** [float64(z)] of an integer. *)
Definition f_of_int (z : Z) : float64 := binary_normalize f_prec f_emax z 0 false.
Definition f_add : float64 → float64 → float64 := SFadd f_prec f_emax.
Definition f_sub : float64 → float64 → float64 := SFsub f_prec f_emax.
Definition f_div : float64 → float64 → float64 := SFdiv f_prec f_emax.
(** [x < y] and [x <= y]; both are false on a NaN. *)
Definition f_ltb : float64 → float64 → bool := SFltb.
Definition f_leb : float64 → float64 → bool := SFleb.
Definition f_one : float64 := f_of_int 1.

#[export] Instance spec_float_eq_dec : EqDecision spec_float.
Proof. solve_decision. Defined.

(** The integers up to this bound are counted down exactly, one by one. *)
Definition f_checked : Z := 4096.

Lemma f_countdown_check :
  Forall (λ m, f_sub (f_of_int m) f_one = f_of_int (m - 1) ∧ f_leb f_one (f_of_int m) = true)
    (seqZ 1 f_checked).
Proof. apply (bool_decide_unpack (Forall _ _)). by vm_compute. Qed.

Lemma f_countdown m :
  1 ≤ m ≤ f_checked → f_sub (f_of_int m) f_one = f_of_int (m - 1) ∧ f_leb f_one (f_of_int m) = true.
Proof.
  intros Hm. pose proof f_countdown_check as Hall. rewrite Forall_forall in Hall.
  apply (Hall m), elem_of_seqZ. lia.
Qed.
