(* ===== verification/Prekey.v ===== *)
(** * The one-time prekey store ([internal/prekey/store.go]): the code

    Pools of signed one-time prekeys, named by the owner's queue tag and a device key,
    with one reusable last-resort prekey per pool and a token bucket that limits how fast
    the one-time entries can be claimed. Slices are read and replaced whole under the
    mutex, so a slice is a list. *)

From S2P Require Import Prelude Float64 Model.

Open Scope Z_scope.

Definition defaultMaxPerRecipient : Z := 100.
Definition defaultMaxBuckets : Z := 5000.
Definition defaultPublishedTTL : Duration := 30 * 24 * Hour.
Definition defaultClaimBurst : Z := 32.
Definition defaultClaimRefill : Duration := Second.

Record entry := mkEntry { e_value : PrekeyEntry; e_publishedAt : Time }.

Record bucketState := mkBucketState { b_tokens : float64; b_lastRefill : Time }.

Record Limits := mkLimits {
  MaxPerRecipient : Z;
  MaxBuckets : Z;
  PublishedTTL : Duration;
  ClaimBurst : Z;
  ClaimRefill : Duration;
}.

Record Store := mkStore {
  maxPerRecipient : Z;
  maxBuckets : Z;
  publishedTTL : Duration;
  claimBurst : float64;
  claimRefill : Duration;
  queues : gmap string (list entry);
  lastResort : gmap string entry;
  tokens : gmap string bucketState;
}.

Definition with_queues m s := mkStore (maxPerRecipient s) (maxBuckets s) (publishedTTL s)
  (claimBurst s) (claimRefill s) m (lastResort s) (tokens s).
Definition with_lastResort m s := mkStore (maxPerRecipient s) (maxBuckets s) (publishedTTL s)
  (claimBurst s) (claimRefill s) (queues s) m (tokens s).
Definition with_tokens m s := mkStore (maxPerRecipient s) (maxBuckets s) (publishedTTL s)
  (claimBurst s) (claimRefill s) (queues s) (lastResort s) m.

Definition bucketKey (ownerTag deviceKey : string) : string := ownerTag +:+ NUL +:+ deviceKey.

Definition NewStoreWithLimits (l : Limits) : Store :=
  let perRecipient := if MaxPerRecipient l <=? 0 then defaultMaxPerRecipient
                      else MaxPerRecipient l in
  let buckets := if MaxBuckets l <=? 0 then defaultMaxBuckets else MaxBuckets l in
  let ttl := if PublishedTTL l <=? 0 then defaultPublishedTTL else PublishedTTL l in
  let burst := if ClaimBurst l <=? 0 then defaultClaimBurst else ClaimBurst l in
  let refill := if ClaimRefill l <=? 0 then defaultClaimRefill else ClaimRefill l in
  mkStore perRecipient buckets ttl (f_of_int burst) refill ∅ ∅ ∅.

Definition NewStore (maxPerRecipient : Z) (publishedTTL : Duration) : Store :=
  NewStoreWithLimits (mkLimits maxPerRecipient 0 publishedTTL 0 0).

(** [s.queues[key]]: a missing key reads as the nil slice. *)
Definition queueAt (s : Store) (key : string) : list entry := default [] (queues s !! key).

Definition bucketExistsLocked (s : Store) (key : string) : bool :=
  bool_decide (is_Some (queues s !! key)) || bool_decide (is_Some (lastResort s !! key)).

(** ** Publishing *)

Definition with_k_OpkID (id : string) (k : PrekeyEntry) : PrekeyEntry :=
  mkPrekeyEntry id (k_PublicKey k) (k_Signature k) (k_LastResort k).
Definition with_k_LastResort (b : bool) (k : PrekeyEntry) : PrekeyEntry :=
  mkPrekeyEntry (k_OpkID k) (k_PublicKey k) (k_Signature k) b.

Definition prekeyIncomplete (k : PrekeyEntry) : bool :=
  is_empty (k_OpkID k) || is_empty (k_PublicKey k) || is_empty (k_Signature k).

(** The loop over the published entries: [continue] goes on with the rest, [break] ends
    it. *)
Fixpoint publishEntries (now : Time) (key : string) (entries : list PrekeyEntry)
    (existing : gset string) (s : Store) (added : Z) : Z * Store :=
  match entries with
  | [] => (added, s)
  | candidate :: rest =>
      let candidate := with_k_OpkID (TrimSpace (k_OpkID candidate)) candidate in
      if prekeyIncomplete candidate then publishEntries now key rest existing s added else
      if bool_decide (k_OpkID candidate ∈ existing)
      then publishEntries now key rest existing s added else
      if maxPerRecipient s <=? Z.of_nat (length (queueAt s key)) then (added, s) else
      let s := with_queues (<[key := queueAt s key ++ [mkEntry candidate now]]> (queues s)) s in
      publishEntries now key rest ({[k_OpkID candidate]} ∪ existing) s (added + 1)
  end.

(** The last-resort prekey, recorded or replaced. *)
Definition publishLastResort (now : Time) (key : string) (lr : option PrekeyEntry) (s : Store)
  : Store :=
  match lr with
  | None => s
  | Some lr =>
      let lr := with_k_OpkID (TrimSpace (k_OpkID lr)) lr in
      if prekeyIncomplete lr then s else
      with_lastResort (<[key := mkEntry (with_k_LastResort true lr) now]> (lastResort s)) s
  end.

(** ** Claiming *)

Definition takeTokenLocked (s : Store) (key : string) (now : Time) : bool * Store :=
  let st :=
    match tokens s !! key with
    | None => mkBucketState (claimBurst s) now
    | Some st =>
        let elapsed := Sub now (b_lastRefill st) in
        if 0 <? elapsed then
          let t := f_add (b_tokens st) (f_div (f_of_int elapsed) (f_of_int (claimRefill s))) in
          let t := if f_ltb (claimBurst s) t then claimBurst s else t in
          mkBucketState t now
        else st
    end in
  let available := f_leb f_one (b_tokens st) in
  let st := if available then mkBucketState (f_sub (b_tokens st) f_one) (b_lastRefill st) else st in
  (available, with_tokens (<[key := st]> (tokens s)) s).

Definition fresh (s : Store) (now : Time) (e : entry) : bool :=
  After (Add (e_publishedAt e) (publishedTTL s)) now.

Section runtime.
Context `{!GoRuntime}.

(** The three loops of [pruneLocked]. *)
Definition pruneQueue (s : Store) (now : Time) (_ : string) (queue : list entry)
  : option (list entry) :=
  let kept := filter (λ e, fresh s now e = true) queue in
  if bool_decide (kept = []) then None else Some kept.

Definition pruneLocked (s : Store) (now : Time) : Store :=
  let s := with_queues (foldl (rewrite_entry (pruneQueue s now)) (queues s) (range (queues s))) s in
  let s := with_lastResort
    (foldl (λ m '(key, item), if negb (fresh s now item) then delete key m else m)
       (lastResort s) (range (lastResort s))) s in
  with_tokens
    (foldl (λ m '(key, _),
              if bool_decide (queueAt s key = []) && negb (bool_decide (is_Some (lastResort s !! key)))
              then delete key m else m)
       (tokens s) (range (tokens s))) s.

Definition bucketCountLocked (s : Store) : Z :=
  foldl (λ count '(key, _), if negb (bool_decide (is_Some (queues s !! key))) then count + 1 else count)
    (Z.of_nat (size (queues s))) (range (lastResort s)).

Definition BucketCount (s : Store) (now : Time) : Z * Store :=
  let s := pruneLocked s now in (bucketCountLocked s, s).

Definition Publish (s : Store) (now : Time) (ownerTag : string) (value : PrekeyPublish)
  : (Z * bool) * Store :=
  let ownerTag := TrimSpace ownerTag in
  if is_empty ownerTag then ((0, false), s) else
  let key := bucketKey ownerTag (TrimSpace (k_DeviceKey value)) in
  let s := pruneLocked s now in
  if negb (bucketExistsLocked s key) && (maxBuckets s <=? bucketCountLocked s)
  then ((0, false), s) else
  let existing := list_to_set ((λ e, k_OpkID (e_value e)) <$> queueAt s key) in
  let '(added, s) := publishEntries now key (k_Entries value) existing s 0 in
  ((added, true), publishLastResort now key (k_LastResortEntry value) s).

Definition zeroPrekeyEntry : PrekeyEntry := mkPrekeyEntry "" "" "" false.

Definition Claim (s : Store) (now : Time) (ownerTag deviceKey : string)
  : (PrekeyEntry * bool) * Store :=
  let key := bucketKey (TrimSpace ownerTag) (TrimSpace deviceKey) in
  let s := pruneLocked s now in
  let serveLastResort s :=
    match lastResort s !! key with
    | Some lr => ((with_k_LastResort true (e_value lr), true), s)
    | None => ((zeroPrekeyEntry, false), s)
    end in
  match queueAt s key with
  | [] => serveLastResort s
  | claimed :: rest =>
      let '(available, s) := takeTokenLocked s key now in
      if available then
        let s := with_queues (<[key := rest]> (queues s)) s in
        let s := if bool_decide (queueAt s key = []) then with_queues (delete key (queues s)) s
                 else s in
        ((e_value claimed, true), s)
      else serveLastResort s
  end.

Definition Status (s : Store) (now : Time) (ownerTag deviceKey : string) : Z * Store :=
  let key := bucketKey (TrimSpace ownerTag) (TrimSpace deviceKey) in
  let s := pruneLocked s now in (Z.of_nat (length (queueAt s key)), s).

Definition Prune (s : Store) (now : Time) : Store := pruneLocked s now.

Definition Count (s : Store) (now : Time) : Z * Store :=
  let s := pruneLocked s now in
  (foldl (λ total '(_, queue), total + Z.of_nat (length queue)) 0 (range (queues s)), s).

Definition LastResortCount (s : Store) (now : Time) : Z * Store :=
  let s := pruneLocked s now in (Z.of_nat (size (lastResort s)), s).

End runtime.
