(* ===== verification/PrekeyProps.v ===== *)
(** * The one-time prekey store: what it promises

    A pool hands out each prekey it was given at most once, oldest first; pools and their
    number stay within the caps; a throttled claim is served from the last-resort prekey
    and leaves the pool alone. *)

From S2P Require Import Prelude Float64 Model Prekey.

Open Scope Z_scope.

#[export] Instance entry_eq_dec : EqDecision entry.
Proof. solve_decision. Defined.

Definition idOf (e : entry) : string := k_OpkID (e_value e).

(** ** Pruning *)

Section runtime.
Context `{!GoRuntime}.

Lemma prune_queues s now : queues (pruneLocked s now) = map_imap (pruneQueue s now) (queues s).
Proof. unfold pruneLocked. simpl. apply foldl_rewrite. Qed.

Lemma prune_lastResort s now :
  lastResort (pruneLocked s now) = keep (λ _ e, fresh s now e) (lastResort s).
Proof.
  unfold pruneLocked. simpl. rewrite (foldl_sweep (λ e, negb (fresh s now e))).
  apply keep_ext. intros k e _. apply negb_involutive.
Qed.

Lemma prune_caps s now :
  maxPerRecipient (pruneLocked s now) = maxPerRecipient s ∧
  maxBuckets (pruneLocked s now) = maxBuckets s ∧
  publishedTTL (pruneLocked s now) = publishedTTL s ∧
  claimBurst (pruneLocked s now) = claimBurst s.
Proof. done. Qed.

(** A pool after pruning is its fresh part. *)
Lemma prune_queueAt s now key :
  queueAt (pruneLocked s now) key = filter (λ e, fresh s now e = true) (queueAt s key).
Proof.
  unfold queueAt. rewrite prune_queues, map_lookup_imap.
  destruct (queues s !! key) as [q|]; [|done]. simpl. unfold pruneQueue. cbv zeta.
  case_bool_decide as E; [by rewrite E | done].
Qed.

(** ** The number of pools *)

Definition buckets (s : Store) : gset string := dom (queues s) ∪ dom (lastResort s).

Lemma foldl_count {K A} (test : K → A → bool) (l : list (K * A)) n :
  foldl (λ count '(k, v), if test k v then count + 1 else count) n l =
  n + Z.of_nat (length (filter (λ x, test x.1 x.2 = true) l)).
Proof.
  revert n. induction l as [|[k v] l IH]; intros n; simpl; [lia|]. rewrite IH, filter_cons. simpl.
  destruct (test k v); simpl; lia.
Qed.

Lemma bucketCount_exact s : bucketCountLocked s = Z.of_nat (size (buckets s)).
Proof.
  unfold bucketCountLocked, buckets.
  rewrite size_union_alt, size_dom.
  rewrite (foldl_count (λ k (_ : entry), negb (bool_decide (is_Some (queues s !! k))))).
  rewrite range_perm, Nat2Z.inj_add. do 2 f_equal.
  etrans; [exact (Permutation_length (keep_to_list_perm (λ k (_ : entry),
    negb (bool_decide (is_Some (queues s !! k)))) (lastResort s)))|].
  rewrite length_map_to_list, <-size_dom. f_equal. apply set_eq. intros k.
  rewrite elem_of_difference, !elem_of_dom. unfold is_Some at 1. setoid_rewrite keep_Some.
  setoid_rewrite negb_true_iff. setoid_rewrite bool_decide_eq_false. unfold is_Some. naive_solver.
Qed.
End runtime.

(** ** Publishing *)

(** What one publish adds to a pool: complete entries of the request in its order, with
    their ids trimmed, all new to the pool and to each other, as far as the cap allows. *)
Record additions (now : Time) (entries : list PrekeyEntry) (existing : gset string)
    (room : Z) (new : list entry) : Prop := {
  add_complete : Forall (λ e, prekeyIncomplete (e_value e) = false ∧ e_publishedAt e = now) new;
  add_fresh : Forall (λ e, idOf e ∉ existing) new;
  add_distinct : NoDup (idOf <$> new);
  add_room : Z.of_nat (length new) ≤ Z.max 0 room;
  add_requested : (e_value <$> new) `sublist_of`
    ((λ k, with_k_OpkID (TrimSpace (k_OpkID k)) k) <$> entries);
}.

Lemma publishEntries_spec now key entries existing s added :
  ∃ new, additions now entries existing
           (maxPerRecipient s - Z.of_nat (length (queueAt s key))) new ∧
    publishEntries now key entries existing s added =
    (added + Z.of_nat (length new),
     if bool_decide (new = []) then s
     else with_queues (<[key := queueAt s key ++ new]> (queues s)) s).
Proof.
  revert existing s added. induction entries as [|k entries IH]; intros existing s added;
    cbn [publishEntries]; cbv zeta.
  { exists []. split; [|by rewrite Z.add_0_r]. constructor; simpl; try constructor. lia. }
  set (k' := with_k_OpkID (TrimSpace (k_OpkID k)) k).
  assert (∀ existing room new, additions now entries existing room new →
    additions now (k :: entries) existing room new) as Hskip.
  { intros ex room new []. constructor; try done. simpl. by constructor. }
  destruct (prekeyIncomplete k') eqn:Hinc.
  { destruct (IH existing s added) as (new & Hn & ->). eauto. }
  case_bool_decide as Hdup.
  { destruct (IH existing s added) as (new & Hn & ->). eauto. }
  destruct (maxPerRecipient s <=? _) eqn:Hfull.
  { exists []. split; [|by rewrite Z.add_0_r]. constructor; simpl; try constructor; [lia|].
    apply sublist_nil_l. }
  reflect_bools.
  set (s1 := with_queues _ s). assert (queueAt s1 key = queueAt s key ++ [mkEntry k' now]) as Hq.
  { unfold queueAt, s1. simpl. by rewrite lookup_insert_eq. }
  destruct (IH ({[k_OpkID k']} ∪ existing) s1 (added + 1)) as (new & [Hc Hf Hd Hr Hsub] & ->).
  exists (mkEntry k' now :: new). split.
  - constructor; simpl.
    + by constructor.
    + constructor; [done|]. eapply Forall_impl; [exact Hf|]. set_solver.
    + constructor; [|done]. intros (e & He & Hin)%list_elem_of_fmap.
      rewrite Forall_forall in Hf. specialize (Hf e Hin). unfold idOf in *. simpl in *. set_solver.
    + rewrite Hq, length_app in Hr. simpl in Hr. change (maxPerRecipient s1) with (maxPerRecipient s) in Hr. lia.
    + by constructor.
  - rewrite Hq. f_equal; [simpl; lia|]. rewrite (bool_decide_eq_false_2 (_ :: _ = [])) by done.
    unfold s1, with_queues. simpl. case_bool_decide as Hnil; simpl.
    + by subst.
    + by rewrite insert_insert_eq, <-app_assoc.
Qed.

Lemma publishLastResort_spec now key lr s :
  queues (publishLastResort now key lr s) = queues s ∧
  maxPerRecipient (publishLastResort now key lr s) = maxPerRecipient s ∧
  maxBuckets (publishLastResort now key lr s) = maxBuckets s ∧
  dom (lastResort (publishLastResort now key lr s)) ⊆ {[key]} ∪ dom (lastResort s).
Proof.
  unfold publishLastResort. destruct lr as [lr|]; [|set_solver]. cbv zeta.
  case_match; [set_solver|]. split_and!; try done. simpl. rewrite dom_insert_L. done.
Qed.

(** ** The invariant *)

Record pool_ok (cap : Z) (q : list entry) : Prop := {
  pool_nonempty : q ≠ [];
  pool_cap : Z.of_nat (length q) ≤ cap;
  pool_distinct : NoDup (idOf <$> q);
  pool_complete : Forall (λ e, prekeyIncomplete (e_value e) = false) q;
}.

Record Inv (s : Store) : Prop := {
  inv_caps : 0 < maxPerRecipient s ∧ 0 < maxBuckets s;
  inv_pools : map_Forall (λ _ q, pool_ok (maxPerRecipient s) q) (queues s);
  inv_buckets : Z.of_nat (size (buckets s)) ≤ maxBuckets s;
}.

Lemma NewStoreWithLimits_inv l : Inv (NewStoreWithLimits l).
Proof.
  unfold NewStoreWithLimits. constructor; simpl; [| |].
  - unfold defaultMaxPerRecipient, defaultMaxBuckets. repeat case_match; reflect_bools; lia.
  - apply map_Forall_empty.
  - unfold buckets. simpl. rewrite !dom_empty_L, union_empty_l_L, size_empty.
    unfold defaultMaxBuckets. repeat case_match; reflect_bools; lia.
Qed.

Section runtime.
Context `{!GoRuntime}.

Lemma pool_sub cap q q' : q' `sublist_of` q → q' ≠ [] → pool_ok cap q → pool_ok cap q'.
Proof.
  intros Hsub Hne []. constructor; [done| | |].
  - apply sublist_length in Hsub. lia.
  - eapply sublist_NoDup; [exact pool_distinct0 | by apply fmap_sublist].
  - eapply Forall_forall; intros e He; rewrite Forall_forall in pool_complete0; apply pool_complete0; by eapply elem_of_sublist.
Qed.

Lemma buckets_mono s s' :
  dom (queues s') ⊆ dom (queues s) → dom (lastResort s') ⊆ dom (lastResort s) →
  (size (buckets s') ≤ size (buckets s))%nat.
Proof. intros. apply subseteq_size. unfold buckets. set_solver. Qed.

Lemma prune_inv s now : Inv s → Inv (pruneLocked s now).
Proof.
  intros [Hc Hp Hb]. constructor; [done| |].
  - intros key q. rewrite prune_queues, map_lookup_imap. intros Hq.
    destruct (queues s !! key) as [q0|] eqn:E; [|done]. simpl in Hq. unfold pruneQueue in Hq.
    cbv zeta in Hq. case_bool_decide as Hnil; [done|]. injection Hq as <-.
    eapply pool_sub; [apply sublist_filter|done|by eapply Hp].
  - etrans; [|exact Hb]. apply inj_le, buckets_mono.
    + rewrite prune_queues. intros k. rewrite !elem_of_dom, map_lookup_imap.
      by destruct (queues s !! k).
    + rewrite prune_lastResort. apply subseteq_dom, keep_subseteq.
Qed.

Lemma queueAt_ok s key : Inv s → queueAt s key = [] ∨ pool_ok (maxPerRecipient s) (queueAt s key).
Proof.
  intros HI. unfold queueAt. destruct (queues s !! key) eqn:E; [right|by left].
  by eapply (inv_pools s HI).
Qed.

Lemma additions_pool s key now entries new :
  Inv s → new ≠ [] →
  additions now entries (list_to_set (idOf <$> queueAt s key))
    (maxPerRecipient s - Z.of_nat (length (queueAt s key))) new →
  pool_ok (maxPerRecipient s) (queueAt s key ++ new).
Proof.
  intros HI Hne [Hc Hf Hd Hr _].
  assert (Z.of_nat (length (queueAt s key)) ≤ maxPerRecipient s ∧ NoDup (idOf <$> queueAt s key) ∧
    Forall (λ e, prekeyIncomplete (e_value e) = false) (queueAt s key)) as (Hlen & Hnd & Hall).
  { destruct (queueAt_ok s key HI) as [->|[]]; [|done].
    pose proof (inv_caps s HI). simpl. split_and!; [lia|constructor..]. }
  constructor.
  - by destruct (queueAt s key), new.
  - rewrite length_app. lia.
  - rewrite fmap_app. apply NoDup_app. split_and!; [done| |done]. intros i Hi (e & -> & He)%list_elem_of_fmap.
    rewrite Forall_forall in Hf. specialize (Hf e He). set_solver.
  - apply Forall_app. split; [done|]. eapply Forall_impl; [exact Hc|]. by intros e [? _].
Qed.

(** A publish that is let in. *)
Definition admits (s : Store) (key : string) : Prop :=
  key ∈ buckets s ∨ Z.of_nat (size (buckets s)) < maxBuckets s.

Lemma bucketExists_iff s key : bucketExistsLocked s key = true ↔ key ∈ buckets s.
Proof.
  unfold bucketExistsLocked, buckets.
  by rewrite orb_true_iff, !bool_decide_eq_true, elem_of_union, !elem_of_dom.
Qed.

Lemma Publish_cases s now tag v :
  let key := bucketKey (TrimSpace tag) (TrimSpace (k_DeviceKey v)) in
  let s1 := pruneLocked s now in
  (TrimSpace tag = ""%string ∧ Publish s now tag v = ((0, false), s)) ∨
  (TrimSpace tag ≠ ""%string ∧ ¬ admits s1 key ∧ Publish s now tag v = ((0, false), s1)) ∨
  (TrimSpace tag ≠ ""%string ∧ admits s1 key ∧ ∃ new,
     additions now (k_Entries v) (list_to_set (idOf <$> queueAt s1 key))
       (maxPerRecipient s1 - Z.of_nat (length (queueAt s1 key))) new ∧
     Publish s now tag v =
     ((Z.of_nat (length new), true),
      publishLastResort now key (k_LastResortEntry v)
        (if bool_decide (new = []) then s1
         else with_queues (<[key := queueAt s1 key ++ new]> (queues s1)) s1))).
Proof.
  intros key s1. unfold Publish, is_empty. fold key. fold s1.
  case_bool_decide as Htag; [by left|]. right. cbv zeta. rewrite bucketCount_exact.
  destruct (negb _ && _) eqn:Hfull.
  - left. split_and!; [done| |done]. reflect_bools. intros [Hin|Hlt]; [|lia].
    apply bucketExists_iff in Hin. congruence.
  - right. split_and!; [done| |].
    + apply andb_false_iff in Hfull as [Hfull|Hfull]; reflect_bools.
      * left. by apply bucketExists_iff.
      * by right.
    + destruct (publishEntries_spec now key (k_Entries v) (list_to_set (idOf <$> queueAt s1 key)) s1 0)
        as (new & Hn & Heq).
      exists new. split; [done|]. unfold idOf in Heq. by rewrite Heq.
Qed.

Lemma Publish_inv s now tag v : Inv s → Inv (Publish s now tag v).2.
Proof.
  intros HI. pose proof (prune_inv s now HI) as HI1.
  destruct (Publish_cases s now tag v) as [[_ ->]|[(_ & _ & ->)|(_ & Had & new & Hn & ->)]]; [done..|].
  set (key := bucketKey _ _) in *. set (s1 := pruneLocked s now) in *. cbn [snd].
  set (s2 := if bool_decide _ then s1 else _).
  assert (queues s2 = queues s1 ∨ queues s2 = <[key := queueAt s1 key ++ new]> (queues s1) ∧
    pool_ok (maxPerRecipient s1) (queueAt s1 key ++ new)) as Hq2.
  { unfold s2. case_bool_decide as Hnil; [by left|]. right. split; [done|]. by eapply additions_pool. }
  assert (maxPerRecipient s2 = maxPerRecipient s1 ∧ maxBuckets s2 = maxBuckets s1 ∧
    lastResort s2 = lastResort s1) as (Hm & Hb & Hl) by (unfold s2; by case_bool_decide).
  clearbody s2. destruct (publishLastResort_spec now key (k_LastResortEntry v) s2) as (Hq & Hm' & Hb' & Hd).
  destruct HI1 as [Hcaps Hpools Hbk]. constructor.
  - rewrite Hm', Hb', Hm, Hb. done.
  - rewrite Hq, Hm', Hm. destruct Hq2 as [->|[-> Hok]]; [done|]. by apply map_Forall_insert_2.
  - rewrite Hb', Hb.
    assert (buckets (publishLastResort now key (k_LastResortEntry v) s2) ⊆ {[key]} ∪ buckets s1) as Hsub.
    { unfold buckets. rewrite Hq, Hl in *. destruct Hq2 as [->|[-> _]]; [|rewrite dom_insert_L]; set_solver. }
    apply subseteq_size in Hsub. destruct Had as [Hin|Hlt].
    + assert ({[key]} ∪ buckets s1 = buckets s1) as Heq by set_solver. rewrite Heq in Hsub. lia.
    + pose proof (size_union_alt {[key]} (buckets s1)) as Hsz. rewrite size_singleton in Hsz.
      assert (size (buckets s1 ∖ {[key]}) ≤ size (buckets s1))%nat by (apply subseteq_size; set_solver).
      lia.
Qed.

(** ** Claiming *)

(** The entry a claim pops: the oldest one of the pool, when there is one and the pool's
    bucket has a token. *)
Definition pops (s : Store) (now : Time) (key : string) : option entry :=
  match queueAt (pruneLocked s now) key with
  | [] => None
  | e :: _ => if (takeTokenLocked (pruneLocked s now) key now).1 then Some e else None
  end.

Lemma takeToken_frame s key now : ∃ tk b, takeTokenLocked s key now = (b, with_tokens tk s).
Proof. unfold takeTokenLocked. cbv zeta. eauto. Qed.

Lemma Claim_cases s now tag dev :
  let key := bucketKey (TrimSpace tag) (TrimSpace dev) in
  let s1 := pruneLocked s now in
  let s' := (Claim s now tag dev).2 in
  lastResort s' = lastResort s1 ∧ maxPerRecipient s' = maxPerRecipient s ∧ maxBuckets s' = maxBuckets s ∧
  match pops s now key with
  | Some e => ∃ rest, queueAt s1 key = e :: rest ∧ (Claim s now tag dev).1 = (e_value e, true) ∧
      queues s' = if bool_decide (rest = []) then delete key (queues s1) else <[key := rest]> (queues s1)
  | None =>
      queues s' = queues s1 ∧
      (Claim s now tag dev).1 =
      match lastResort s1 !! key with
      | Some lr => (with_k_LastResort true (e_value lr), true)
      | None => (zeroPrekeyEntry, false)
      end
  end.
Proof.
  intros key s1 s'. unfold s', Claim, pops. fold key. fold s1. cbv zeta.
  change (maxPerRecipient s) with (maxPerRecipient s1). change (maxBuckets s) with (maxBuckets s1).
  clearbody s1 key. clear s'. destruct (queueAt s1 key) as [|e rest] eqn:Hq.
  { by destruct (lastResort s1 !! key). }
  destruct (takeToken_frame s1 key now) as (tk & b & ->). destruct b; cbn [fst snd].
  - assert (queueAt (with_queues (<[key := rest]> (queues (with_tokens tk s1))) (with_tokens tk s1)) key
      = rest) as -> by (unfold queueAt; simpl; by rewrite lookup_insert_eq).
    case_bool_decide as Hrest; simpl; split_and!; try done; exists rest; split_and!; try done.
    + rewrite bool_decide_eq_true_2 by done. apply delete_insert_eq.
    + by rewrite bool_decide_eq_false_2 by done.
  - simpl. by destruct (lastResort s1 !! key).
Qed.

Lemma Claim_inv s now tag dev : Inv s → Inv (Claim s now tag dev).2.
Proof.
  intros HI. pose proof (prune_inv s now HI) as [Hcaps Hpools Hb].
  destruct (Claim_cases s now tag dev) as (Hl & Hm & Hmb & Hcase). set (key := bucketKey _ _) in *.
  assert (dom (queues (Claim s now tag dev).2) ⊆ dom (queues (pruneLocked s now)) ∧
    map_Forall (λ _ q, pool_ok (maxPerRecipient s) q) (queues (Claim s now tag dev).2)) as [Hd Hp].
  { destruct (pops s now key) as [e|].
    - destruct Hcase as (rest & Hq & _ & ->). case_bool_decide as Hr.
      + split; [rewrite dom_delete_L; set_solver|]. intros k q [_ Hk]%lookup_delete_Some. exact (Hpools k q Hk).
      + unfold queueAt in Hq. destruct (queues (pruneLocked s now) !! key) as [q|] eqn:E; [|done].
        simpl in Hq. subst q. split.
        * rewrite dom_insert_L. apply elem_of_dom_2 in E. set_solver.
        * apply map_Forall_insert_2; [|done]. eapply pool_sub; [|done|by apply (Hpools key)].
          by constructor.
    - by destruct Hcase as [-> _]. }
  constructor; rewrite ?Hm, ?Hmb; [done|done|]. etrans; [|exact Hb].
  apply inj_le, buckets_mono; [done|]. by rewrite Hl.
Qed.
End runtime.

(** ** Operations and runs *)

(** [Status], [Count], [BucketCount] and [LastResortCount] change the store as [Prune]
    does. *)
Inductive Op :=
  | OPublish (now : Time) (ownerTag : string) (v : PrekeyPublish)
  | OClaim (now : Time) (ownerTag deviceKey : string)
  | OPrune (now : Time).

Definition exec `{!GoRuntime} (s : Store) (o : Op) : Store :=
  match o with
  | OPublish now tag v => (Publish s now tag v).2
  | OClaim now tag dev => (Claim s now tag dev).2
  | OPrune now => Prune s now
  end.

Inductive steps : Store → list Op → Store → Prop :=
  | steps_nil s : steps s [] s
  | steps_cons (rt : GoRuntime) s o os s' : steps (exec s o) os s' → steps s (o :: os) s'.

Lemma prekey_exec_inv `{!GoRuntime} s o : Inv s → Inv (exec s o).
Proof. destruct o; [apply Publish_inv | apply Claim_inv | apply prune_inv]. Qed.

Lemma prekey_steps_inv s os s' : steps s os s' → Inv s → Inv s'.
Proof. induction 1; [done|]. intros HI. apply IHsteps. by apply prekey_exec_inv. Qed.

Fixpoint run `{!GoRuntime} (s : Store) (os : list Op) : Store :=
  match os with [] => s | o :: os => run (exec s o) os end.

Lemma prekey_run_steps `{!GoRuntime} s os : steps s os (run s os).
Proof. revert s. induction os; intros s; simpl; econstructor; eauto. Qed.

Module Sample.
Definition T0 : Time := 10 ^ 15.
Definition limits : Limits := mkLimits 3 2 Hour 2 Second.
Definition empty : Store := NewStoreWithLimits limits.
Definition key (id : string) : PrekeyEntry := mkPrekeyEntry id "pub" "sig" false.
Definition publish (tag : string) (ids : list string) (lr : option PrekeyEntry) : Op :=
  OPublish T0 tag (mkPrekeyPublish "" (key <$> ids) lr).
Definition ops : list Op :=
  [publish "t" ["a"; "b"; "a"; " c"; "d"] (Some (key "lr")); OClaim T0 "t" ""; OClaim T0 "t" "";
   OClaim T0 "t" ""].
End Sample.

(** In every run the store stays within its caps, whatever is published and claimed:
    at most [maxBuckets] pools, counted over the two maps together; at most
    [maxPerRecipient] entries in a pool; and within a pool no two entries share an id,
    every entry has an id, a key and a signature, and no pool is kept empty. *)
Theorem prekey_store_bounded `{!GoRuntime} l os s :
  steps (NewStoreWithLimits l) os s →
  bucketCountLocked s ≤ maxBuckets s ∧
  ∀ key q, queues s !! key = Some q →
    q ≠ [] ∧ Z.of_nat (length q) ≤ maxPerRecipient s ∧ NoDup (idOf <$> q) ∧
    Forall (λ e, prekeyIncomplete (e_value e) = false) q.
Proof.
  intros Hs. assert (Inv s) as HI by (eapply prekey_steps_inv; [done|apply NewStoreWithLimits_inv]).
  split; [rewrite bucketCount_exact; apply (inv_buckets s HI)|].
  intros key q Hq. destruct (inv_pools s HI key q Hq). done.
Qed.

Lemma prekey_store_bounded_witness :
  let s := run Sample.empty (take 1 Sample.ops) in
  (idOf <$> queueAt s (bucketKey "t" "")) = ["a"; "b"; "c"]%string ∧
  bucketCountLocked s ≤ maxBuckets s.
Proof.
  intros s. split; [by vm_compute|].
  apply (prekey_store_bounded Sample.limits (take 1 Sample.ops) s).
  exact (prekey_run_steps Sample.empty (take 1 Sample.ops)).
Defined.

(** ** Claim-once *)

(** The history of one pool: what was added to it, what claims of it were answered and what
    lapsed in it. *)
Record Ledger := mkLedger { l_added : list entry; l_issued : list PrekeyEntry; l_lapsed : list entry }.

Definition blank : Ledger := mkLedger [] [] [].

Definition op_now (o : Op) : Time :=
  match o with OPublish now _ _ | OClaim now _ _ | OPrune now => now end.

Section ledger.
Context `{!GoRuntime} (key : string).

(** What a claim of the pool handed out, by its answer and what it left: every prekey that it
    answered with, unless that is the pool's reusable last-resort prekey and the pool is as
    pruning left it. *)
Definition handedOut (s : Store) (now : Time) (tag dev : string) : list PrekeyEntry :=
  let '((value, ok), s') := Claim s now tag dev in
  let s1 := pruneLocked s now in
  let reusable := bool_decide (queueAt s' key = queueAt s1 key) &&
    bool_decide (with_k_LastResort true ∘ e_value <$> lastResort s1 !! key = Some value) in
  if ok && negb reusable then [value] else [].

(** Whether an operation gets as far as pruning: a publish without an owner does not. *)
Definition prunes (o : Op) : bool :=
  match o with OPublish _ tag _ => negb (is_empty (TrimSpace tag)) | _ => true end.

Definition account (s : Store) (l : Ledger) (o : Op) : Ledger :=
  if negb (prunes o) then l else
  let now := op_now o in
  let lapsed := filter (λ e, fresh s now e ≠ true) (queueAt s key) in
  let l := mkLedger (l_added l) (l_issued l) (l_lapsed l ++ lapsed) in
  match o with
  | OPublish _ tag v =>
      mkLedger (l_added l ++ drop (length (queueAt (pruneLocked s now) key)) (queueAt (exec s o) key))
        (l_issued l) (l_lapsed l)
  | OClaim _ tag dev =>
      if bool_decide (bucketKey (TrimSpace tag) (TrimSpace dev) = key)
      then mkLedger (l_added l) (l_issued l ++ handedOut s now tag dev) (l_lapsed l) else l
  | OPrune _ => l
  end.

Definition balanced (s : Store) (l : Ledger) : Prop :=
  l_issued l ++ (e_value <$> l_lapsed l ++ queueAt s key) ≡ₚ e_value <$> l_added l.

Lemma Publish_queueAt s now tag v :
  TrimSpace tag ≠ ""%string →
  ∃ new, queueAt (Publish s now tag v).2 key = queueAt (pruneLocked s now) key ++ new.
Proof.
  intros Htag. destruct (Publish_cases s now tag v) as [[? _]|[(_ & _ & ->)|(_ & _ & new & _ & ->)]].
  - done.
  - exists []. by rewrite app_nil_r.
  - cbn [snd]. set (k := bucketKey _ _). unfold queueAt at 1.
    rewrite (proj1 (publishLastResort_spec _ _ _ _)). fold (queueAt (pruneLocked s now) key).
    case_bool_decide; [exists []; by rewrite app_nil_r|]. simpl.
    destruct (decide (k = key)) as [Hk|Hk].
    + exists new. rewrite Hk, lookup_insert_eq. done.
    + exists []. rewrite lookup_insert_ne by done. by rewrite app_nil_r.
Qed.

Lemma Claim_queueAt s now tag dev :
  queueAt (pruneLocked s now) key =
  (if bool_decide (bucketKey (TrimSpace tag) (TrimSpace dev) = key)
   then option_list (pops s now key) else []) ++ queueAt (Claim s now tag dev).2 key.
Proof.
  destruct (Claim_cases s now tag dev) as (_ & _ & _ & Hcase). set (k := bucketKey _ _) in *.
  unfold queueAt at 2. case_bool_decide as Hk.
  - rewrite <-Hk. destruct (pops s now k) as [e|].
    + destruct Hcase as (rest & Hq & _ & ->). rewrite Hq. simpl. f_equal.
      case_bool_decide; [rewrite lookup_delete_eq | rewrite lookup_insert_eq]; done.
    + by destruct Hcase as [-> _].
  - destruct (pops s now k) as [e|].
    + destruct Hcase as (rest & Hq & _ & ->).
      case_bool_decide; [rewrite lookup_delete_ne | rewrite lookup_insert_ne]; done.
    + by destruct Hcase as [-> _].
Qed.

Lemma Claim_handedOut s now tag dev :
  bucketKey (TrimSpace tag) (TrimSpace dev) = key →
  handedOut s now tag dev = e_value <$> option_list (pops s now key).
Proof.
  intros Hk. pose proof (Claim_queueAt s now tag dev) as Hq. rewrite bool_decide_eq_true_2 in Hq by done.
  destruct (Claim_cases s now tag dev) as (_ & _ & _ & Hcase). unfold handedOut. rewrite Hk in Hcase.
  destruct (Claim s now tag dev) as [[value ok] s']. cbn [fst snd] in *.
  cbv zeta. destruct (pops s now key) as [e|]; generalize dependent (pruneLocked s now); intros s1 Hq Hcase; simpl in Hq |- *.
  - destruct Hcase as (rest & _ & [= -> ->] & _).
    rewrite bool_decide_eq_false_2; [done|]. intros Heq%(f_equal length). rewrite Hq in Heq. cbn in Heq. lia.
  - destruct Hcase as [_ Hv]. rewrite bool_decide_eq_true_2 by done.
    destruct (lastResort _ !! key) as [lr|]; injection Hv as -> ->; [|done]. cbn.
    by rewrite bool_decide_eq_true_2.
Qed.

Lemma prune_split s now :
  filter (λ e, fresh s now e ≠ true) (queueAt s key) ++ queueAt (pruneLocked s now) key
  ≡ₚ queueAt s key.
Proof.
  rewrite prune_queueAt, Permutation_app_comm.
  apply (filter_app_complement (λ e, fresh s now e = true)).
Qed.

Lemma prekey_balanced_step s l o : balanced s l → balanced (exec s o) (account s l o).
Proof.
  unfold balanced, account. intros Hb. destruct (prunes o) eqn:Hp; simpl negb; cbv iota.
  2:{ destruct o; try done. simpl in *. unfold is_empty in Hp. reflect_bools. unfold Publish, is_empty.
      by rewrite Hp. }
  pose proof (prune_split s (op_now o)) as Hs.
  set (lapsed := filter _ (queueAt s key)) in *. clearbody lapsed. rewrite fmap_app in Hb.
  destruct o; cbn [op_now exec l_added l_issued l_lapsed] in *.
  - simpl in Hp. unfold is_empty in Hp. reflect_bools.
    destruct (Publish_queueAt s now ownerTag v Hp) as [new ->].
    rewrite drop_app_length, !fmap_app, <-Hb, <-Hs, !fmap_app. solve_Permutation.
  - rewrite (Claim_queueAt s now ownerTag deviceKey) in Hs.
    case_bool_decide as Hk; cbn [l_added l_issued l_lapsed]; rewrite <-Hb, <-Hs, !fmap_app;
      [rewrite Claim_handedOut by done|]; simpl; solve_Permutation.
  - rewrite <-Hb, <-Hs, !fmap_app. unfold Prune. solve_Permutation.
Qed.
End ledger.

Inductive ledger_steps (key : string) : Store → Ledger → list Op → Store → Ledger → Prop :=
  | ledger_nil s l : ledger_steps key s l [] s l
  | ledger_cons (rt : GoRuntime) s l o os s' l' :
      ledger_steps key (exec s o) (account key s l o) os s' l' →
      ledger_steps key s l (o :: os) s' l'.

(** C37: Claim-once. Over every run, the prekeys that claims of a pool were answered with,
    other than its reusable last-resort prekey, those that lapsed in it and those it still
    holds are together exactly the prekeys that were ever added to it, each as often as it was
    added: none is answered twice and none disappears. In particular, while its owner
    publishes distinct prekey ids, no two claims are ever answered with the same one-time
    prekey. *)
Theorem prekey_claimed_once key l os s h :
  ledger_steps key (NewStoreWithLimits l) blank os s h →
  l_issued h ++ (e_value <$> l_lapsed h ++ queueAt s key) ≡ₚ e_value <$> l_added h ∧
  (NoDup (idOf <$> l_added h) → NoDup (k_OpkID <$> l_issued h)).
Proof.
  intros Hsteps.
  assert (l_issued h ++ (e_value <$> l_lapsed h ++ queueAt s key) ≡ₚ e_value <$> l_added h) as Hb.
  { change (balanced key s h). assert (balanced key (NewStoreWithLimits l) blank) as Hb0.
    { unfold balanced, queueAt. simpl. by rewrite lookup_empty. }
    generalize dependent (NewStoreWithLimits l). intros s0 Hsteps Hb0.
    induction Hsteps as [|rt s0 l0 o os s' l' _ IH]; [done|]. apply IH. by apply prekey_balanced_step. }
  split; [done|]. change (idOf <$> l_added h) with ((k_OpkID ∘ e_value) <$> l_added h).
  rewrite list_fmap_compose, <-Hb, fmap_app, NoDup_app. tauto.
Qed.

Fixpoint ledger_run `{!GoRuntime} (key : string) (s : Store) (l : Ledger) (os : list Op) : Ledger :=
  match os with [] => l | o :: os => ledger_run key (exec s o) (account key s l o) os end.

Lemma prekey_ledger_run_steps `{!GoRuntime} key s l os :
  ledger_steps key s l os (run s os) (ledger_run key s l os).
Proof. revert s l. induction os; intros s l; simpl; econstructor; eauto. Qed.

Lemma prekey_claimed_once_witness :
  let key := bucketKey "t" "" in
  let h := ledger_run key Sample.empty blank Sample.ops in
  k_OpkID <$> l_issued h = ["a"; "b"]%string ∧ NoDup (k_OpkID <$> l_issued h).
Proof.
  intros key h. split; [by vm_compute|].
  destruct (prekey_claimed_once key Sample.limits Sample.ops (run Sample.empty Sample.ops) h
    (prekey_ledger_run_steps key Sample.empty blank Sample.ops)) as [_ Hn].
  apply Hn. apply (bool_decide_unpack (NoDup _)). by vm_compute.
Defined.

(** What a claim answers. When the pool, after pruning, has an entry and the pool's
    rate limiter has a token, the claim is answered with the oldest entry and that entry
    alone leaves the pool. Otherwise no pool changes, and the answer is the pool's
    last-resort prekey, marked as such, or nothing if there is none: a flood of claims
    past the limit cannot drain the one-time entries. *)
Theorem claim_exact `{!GoRuntime} s now tag dev :
  let key := bucketKey (TrimSpace tag) (TrimSpace dev) in
  let s1 := pruneLocked s now in
  let '((value, ok), s') := Claim s now tag dev in
  match queueAt s1 key, (takeTokenLocked s1 key now).1 with
  | e :: rest, true =>
      value = e_value e ∧ ok = true ∧ queueAt s' key = rest ∧
      ∀ k, k ≠ key → queueAt s' k = queueAt s1 k
  | _, _ =>
      queues s' = queues s1 ∧
      match lastResort s1 !! key with
      | Some lr => ok = true ∧ value = with_k_LastResort true (e_value lr)
      | None => ok = false ∧ value = zeroPrekeyEntry
      end
  end.
Proof.
  cbv zeta. destruct (Claim_cases s now tag dev) as (_ & _ & _ & Hcase). unfold pops in Hcase.
  set (key := bucketKey _ _) in *.
  destruct (Claim s now tag dev) as [[value ok] s']. cbn [fst snd] in Hcase.
  destruct (queueAt (pruneLocked s now) key) as [|e rest].
  - destruct Hcase as [Hq Hv]. split; [done|]. destruct (lastResort _ !! key); by injection Hv as -> ->.
  - destruct (takeTokenLocked _ _ _).1.
    + destruct Hcase as (rest' & [= <-] & Hv & Hq). injection Hv as -> ->.
      split_and!; [done..| |]; [|intros k Hk]; unfold queueAt; rewrite Hq; case_bool_decide as Hr.
      * rewrite lookup_delete_eq. by subst.
      * by rewrite lookup_insert_eq.
      * by rewrite lookup_delete_ne.
      * by rewrite lookup_insert_ne.
    + destruct Hcase as [Hq Hv]. split; [done|]. destruct (lastResort _ !! key); by injection Hv as -> ->.
Qed.

(** What a publish does. It is refused, adding nothing, exactly when it names no
    owner or would open a new pool in a store that is at its pool ceiling; an owner that
    has a pool is never refused. Otherwise it appends to that pool, in the order of the
    request, complete entries with ids new to the pool, as many as it reports and no
    more than the pool has room for, and leaves every other pool as pruning left it. *)
Theorem publish_exact `{!GoRuntime} s now tag v :
  Inv s →
  let key := bucketKey (TrimSpace tag) (TrimSpace (k_DeviceKey v)) in
  let s1 := pruneLocked s now in
  let '((added, ok), s') := Publish s now tag v in
  (ok = true ↔ TrimSpace tag ≠ ""%string ∧
     (key ∈ buckets s1 ∨ Z.of_nat (size (buckets s1)) < maxBuckets s)) ∧
  (ok = false → added = 0 ∧ (s' = s ∨ s' = s1)) ∧
  (ok = true → ∃ new, queueAt s' key = queueAt s1 key ++ new ∧ added = Z.of_nat (length new) ∧
     Z.of_nat (length (queueAt s' key)) ≤ maxPerRecipient s ∧
     NoDup (idOf <$> queueAt s' key) ∧
     (e_value <$> new) `sublist_of` ((λ k, with_k_OpkID (TrimSpace (k_OpkID k)) k) <$> k_Entries v) ∧
     ∀ k, k ≠ key → queueAt s' k = queueAt s1 k).
Proof.
  intros HI key s1. pose proof (prune_inv s now HI) as HI1. pose proof (Publish_inv s now tag v HI) as HI'.
  destruct (Publish_cases s now tag v) as [[Ht ->]|[(Ht & Hno & ->)|(Ht & Had & new & Hn & Heq)]].
  - split_and!; naive_solver.
  - fold key s1 in Hno. unfold admits in Hno. change (maxBuckets s1) with (maxBuckets s) in Hno.
    split_and!; naive_solver.
  - rewrite Heq in HI' |- *. fold key s1 in Had, Hn, HI' |- *. cbn [snd] in HI'.
    split_and!; [done|done|]. intros _. set (s2 := if bool_decide _ then s1 else _) in *.
    set (s' := publishLastResort _ _ _ _) in *.
    assert (∀ k, queueAt s' k = if bool_decide (k = key) then queueAt s1 key ++ new else queueAt s1 k) as Hq.
    { intros k. unfold queueAt, s'. rewrite (proj1 (publishLastResort_spec _ _ _ _)). unfold s2.
      case_bool_decide as Hnil; simpl.
      - subst new. rewrite app_nil_r. case_bool_decide; by subst.
      - case_bool_decide as Hk; [subst; by rewrite lookup_insert_eq|].
        rewrite lookup_insert_ne by done. done. }
    exists new. rewrite (Hq key), bool_decide_eq_true_2 by done. split_and!; try done.
    + destruct Hn as [_ _ _ Hr _]. destruct (queueAt_ok s1 key HI1) as [->|[_ Hc _ _]]; simpl;
        rewrite ?length_app; pose proof (inv_caps s HI); change (maxPerRecipient s1) with (maxPerRecipient s) in *; simpl in *; lia.
    + rewrite fmap_app. apply NoDup_app. destruct Hn as [_ Hf Hd _ _]. split_and!; [|  |done].
      * destruct (queueAt_ok s1 key HI1) as [->|[]]; [constructor|done].
      * intros i Hi (e & -> & He)%list_elem_of_fmap. rewrite Forall_forall in Hf.
        specialize (Hf e He). set_solver.
    + by destruct Hn.
    + intros k Hk. rewrite Hq. by rewrite bool_decide_eq_false_2.
Qed.

Lemma publish_exact_witness :
  let '((added, ok), s') := Publish Sample.empty Sample.T0 "t"
    (mkPrekeyPublish "" [Sample.key "a"; Sample.key "a"] None) in
  ok = true ∧ added = 1 ∧
  Z.of_nat (length (queueAt s' (bucketKey (TrimSpace "t") (TrimSpace "")))) ≤ maxPerRecipient Sample.empty.
Proof.
  set (v := mkPrekeyPublish "" [Sample.key "a"; Sample.key "a"] None).
  pose proof (publish_exact Sample.empty Sample.T0 "t" v (NewStoreWithLimits_inv Sample.limits)) as H.
  cbv zeta in H.
  assert ((Publish Sample.empty Sample.T0 "t" v).1 = (1, true)) as E by (by vm_compute).
  destruct (Publish Sample.empty Sample.T0 "t" v) as [[added ok] s']. cbn [fst] in E.
  injection E as -> ->. destruct H as (_ & _ & H). destruct (H eq_refl) as (new & _ & _ & Hc & _).
  split; [reflexivity|]. split; [reflexivity|]. exact Hc.
Defined.

(** ** The rate limiter *)

(** Asking the limiter for [n] tokens at one instant. *)
Fixpoint takeTokens (s : Store) (key : string) (now : Time) (n : nat) : list bool * Store :=
  match n with
  | O => ([], s)
  | S n => let '(b, s) := takeTokenLocked s key now in
           let '(bs, s) := takeTokens s key now n in (b :: bs, s)
  end.

Lemma Sub_refl now : Sub now now = 0.
Proof. unfold Sub. rewrite Z.sub_diag. by vm_compute. Qed.

(** The limiter's state when [m] whole tokens are left at [now]. *)
Lemma takeTokens_from s key now (m : nat) n :
  Z.of_nat m ≤ f_checked →
  (tokens s !! key = Some (mkBucketState (f_of_int (Z.of_nat m)) now) ∨
   tokens s !! key = None ∧ claimBurst s = f_of_int (Z.of_nat m)) →
  (takeTokens s key now n).1 = replicate (n `min` m) true ++ replicate (n - m) false.
Proof.
  revert s m. induction n as [|n IH]; intros s m Hm Hst; [done|]. cbn [takeTokens].
  assert (takeTokenLocked s key now = (f_leb f_one (f_of_int (Z.of_nat m)),
    with_tokens (<[key := if f_leb f_one (f_of_int (Z.of_nat m))
      then mkBucketState (f_sub (f_of_int (Z.of_nat m)) f_one) now
      else mkBucketState (f_of_int (Z.of_nat m)) now]> (tokens s)) s)) as ->.
  { unfold takeTokenLocked. destruct Hst as [->|[-> ->]]; [|done]. simpl b_lastRefill.
    by rewrite Sub_refl. }
  destruct m as [|m].
  - change (f_leb f_one (f_of_int (Z.of_nat 0))) with false. cbv iota.
    specialize (IH (with_tokens (<[key := mkBucketState (f_of_int (Z.of_nat 0)) now]> (tokens s)) s)
      0%nat Hm). destruct (takeTokens _ _ _ _) as [bs s']. cbn [fst] in *.
    rewrite IH by (left; simpl; apply lookup_insert_eq).
    rewrite !Nat.min_0_r, !Nat.sub_0_r. done.
  - destruct (f_countdown (Z.of_nat (S m)) ltac:(lia)) as [-> ->].
    replace (Z.of_nat (S m) - 1) with (Z.of_nat m) by lia.
    specialize (IH (with_tokens (<[key := mkBucketState (f_of_int (Z.of_nat m)) now]> (tokens s)) s)
      m ltac:(lia)). destruct (takeTokens _ _ _ _) as [bs s']. cbn [fst] in *.
    by rewrite IH by (left; simpl; apply lookup_insert_eq).
Qed.

(** The burst is a hard limit: at any instant, of any number of claims on a pool whose
    limiter is fresh, exactly the first [burst] get a token, computed in the float64
    arithmetic the code uses, for every burst up to 4096. *)
Theorem claim_burst_limit s key now (burst n : nat) :
  Z.of_nat burst ≤ f_checked → claimBurst s = f_of_int (Z.of_nat burst) → tokens s !! key = None →
  (takeTokens s key now n).1 = replicate (n `min` burst) true ++ replicate (n - burst) false.
Proof. intros Hb Hs Hk. apply takeTokens_from; [done|]. by right. Qed.

Lemma claim_burst_limit_witness :
  (takeTokens Sample.empty "k" 5 4).1 = [true; true; false; false].
Proof. exact (claim_burst_limit Sample.empty "k" 5 2 4 ltac:(by vm_compute) eq_refl eq_refl). Defined.
