(* ===== verification/Presence.v ===== *)
(** * The presence store ([internal/presence/store.go]): the code

    Leases by grant hash with a bounded table, a share per caller that decides who gives
    way when the table is full, and revocation tombstones by owner hash. *)

From S2P Require Import Prelude Model.

Open Scope Z_scope.

Definition maxRecordsPerCaller : Z := 32.

Record record := mkRecord {
  rc_ownerHash : string;
  rc_grantHash : string;
  rc_caller : string;
  rc_lastSeen : Time;
  rc_updatedAt : Time;
  rc_expiresAt : Time;
}.

(** [Grant] has one field, the caller's key; the zero value is the empty string. *)
Record Grant := mkGrant { g_Caller : string }.

Definition zeroGrant : Grant := mkGrant "".

Record Store := mkStore {
  maxRecords : Z;
  lastSeenTTL : Duration;
  records : gmap string record;
  callers : gmap string Z;
  revocations : gmap string PresenceRevocation;
}.

Definition with_records m s := mkStore (maxRecords s) (lastSeenTTL s) m (callers s) (revocations s).
Definition with_callers m s := mkStore (maxRecords s) (lastSeenTTL s) (records s) m (revocations s).
Definition with_revocations m s := mkStore (maxRecords s) (lastSeenTTL s) (records s) (callers s) m.

Definition NewStore (maxRecords : Z) (lastSeenTTL : Duration) : Store :=
  let maxRecords := if maxRecords <=? 0 then 5000 else maxRecords in
  let lastSeenTTL := if lastSeenTTL <=? 0 then 24 * Hour else lastSeenTTL in
  mkStore maxRecords lastSeenTTL ∅ ∅ ∅.

(** ** The writers of the table *)

Definition releaseLocked (s : Store) (caller : string) : Store :=
  with_callers (counter_dec (callers s) caller) s.

Definition putLocked (s : Store) (value : record) : Store :=
  let s := match records s !! rc_grantHash value with
           | Some previous => releaseLocked s (rc_caller previous)
           | None => s
           end in
  let s := with_records (<[rc_grantHash value := value]> (records s)) s in
  with_callers (counter_inc (callers s) (rc_caller value)) s.

Definition dropLocked (s : Store) (grantHash : string) : Store :=
  match records s !! grantHash with
  | None => s
  | Some item => releaseLocked (with_records (delete grantHash (records s)) s) (rc_caller item)
  end.

Definition storeRevocationLocked (s : Store) (value : PresenceRevocation) : Store :=
  match revocations s !! r_OwnerHash value with
  | None => if maxRecords s <=? Z.of_nat (size (revocations s)) then s
            else with_revocations (<[r_OwnerHash value := value]> (revocations s)) s
  | Some _ => with_revocations (<[r_OwnerHash value := value]> (revocations s)) s
  end.

Section runtime.
Context `{!GoRuntime}.

Definition pruneLocked (s : Store) (now : Time) : Store :=
  let s := foldl (λ s '(key, item), if Before (Add (rc_lastSeen item) (lastSeenTTL s)) now
                                    then dropLocked s key else s)
             s (range (records s)) in
  with_revocations
    (foldl (λ m '(key, item), if negb (After (r_ExpiresAt item) now) then delete key m else m)
       (revocations s) (range (revocations s))) s.

(** ** Making room *)

(** The rank of a record against a caller: 0 offline, 1 held by another caller past its
    share, 2 not a candidate. *)
Definition rankOf (s : Store) (now : Time) (caller : string) (item : record) : Z :=
  if negb (After (rc_expiresAt item) now) then 0 else
  if negb (bool_decide (rc_caller item = caller))
     && (maxRecordsPerCaller <? counter_get (callers s) (rc_caller item)) then 1 else 2.

(** The loop's variables: [victim] and [found] as an option, [bestRank] and [bestSeen]. *)
Definition pickVictim (s : Store) (now : Time) (caller : string)
    (best : option string * Z * Time) (kv : string * record) : option string * Z * Time :=
  let '(victim, bestRank, bestSeen) := best in
  let rank := rankOf s now caller kv.2 in
  if rank =? 2 then best else
  if negb (bool_decide (is_Some victim)) || (rank <? bestRank)
     || ((rank =? bestRank) && Before (rc_lastSeen kv.2) bestSeen)
  then (Some kv.1, rank, rc_lastSeen kv.2) else best.

Definition makeRoomLocked (s : Store) (now : Time) (caller : string) : bool * Store :=
  if Z.of_nat (size (records s)) <? maxRecords s then (true, s) else
  if maxRecordsPerCaller <=? counter_get (callers s) caller then (false, s) else
  match (foldl (pickVictim s now caller) (None, 2, 0) (range (records s))).1.1 with
  | None => (false, s)
  | Some victim => (true, dropLocked s victim)
  end.

(** ** Heartbeats *)

Definition trimHeartbeat (now : Time) (v : PresenceHeartbeat) : PresenceHeartbeat :=
  mkPresenceHeartbeat (TrimSpace (h_OwnerHash v)) (TrimSpace (h_GrantHash v))
    (if IsZero (h_UpdatedAt v) then now else h_UpdatedAt v) (h_ExpiresAt v).

Definition heartbeatInvalid (now : Time) (v : PresenceHeartbeat) : bool :=
  is_empty (h_OwnerHash v) || is_empty (h_GrantHash v) || negb (After (h_ExpiresAt v) now)
  || After (h_ExpiresAt v) (Add now (5 * Minute)).

Definition HeartbeatWithGrant (s : Store) (now : Time) (value : PresenceHeartbeat) (grant : Grant)
  : bool * Store :=
  let value := trimHeartbeat now value in
  if heartbeatInvalid now value then (false, s) else
  let s := pruneLocked s now in
  let record_ s :=
    let caller := TrimSpace (g_Caller grant) in
    let put s := (true, putLocked s (mkRecord (h_OwnerHash value) (h_GrantHash value) caller now
                                       (h_UpdatedAt value) (h_ExpiresAt value))) in
    match records s !! h_GrantHash value with
    | Some _ => put s
    | None => let '(ok, s) := makeRoomLocked s now caller in if negb ok then (false, s) else put s
    end in
  match revocations s !! h_OwnerHash value with
  | Some revoked =>
      if negb (After (h_UpdatedAt value) (r_UpdatedAt revoked)) then (false, s)
      else record_ (with_revocations (delete (h_OwnerHash value) (revocations s)) s)
  | None => record_ s
  end.

Definition Heartbeat (s : Store) (now : Time) (value : PresenceHeartbeat) : bool * Store :=
  HeartbeatWithGrant s now value zeroGrant.

(** Each heartbeat of the list reads the clock for itself. *)
Definition Import (s : Store) (values : list (Time * PresenceHeartbeat)) : Store :=
  foldl (λ s '(now, value), (Heartbeat s now value).2) s values.

(** ** Queries and revocations *)

Definition Query (s : Store) (now : Time) (grants : list string) : list PresenceStatus * Store :=
  let s := pruneLocked s now in
  (foldl (λ result grant,
            match records s !! TrimSpace grant with
            | Some item => result ++ [mkPresenceStatus (rc_grantHash item)
                                        (After (rc_expiresAt item) now) (rc_lastSeen item)]
            | None => result
            end) [] grants, s).

Definition dropWhere (test : record → bool) (s : Store) : Store :=
  foldl (λ s '(key, item), if test item then dropLocked s key else s) s (range (records s)).

Definition Revoke (s : Store) (now : Time) (ownerHash : string) : Z * Store :=
  let '(count, s) :=
    foldl (λ '(count, s) '(key, item),
             if bool_decide (rc_ownerHash item = TrimSpace ownerHash)
             then (count + 1, dropLocked s key) else (count, s))
      (0, s) (range (records s)) in
  let owner := TrimSpace ownerHash in
  (count, storeRevocationLocked s (mkPresenceRevocation owner now (Add now (lastSeenTTL s)))).

Definition Prune (s : Store) (now : Time) : Store := pruneLocked s now.

Definition Count (s : Store) (now : Time) : Z * Store :=
  let s := pruneLocked s now in (Z.of_nat (size (records s)), s).

Definition Snapshot (s : Store) (now : Time) : list PresenceHeartbeat * Store :=
  let s := pruneLocked s now in
  ((λ '(_, item), mkPresenceHeartbeat (rc_ownerHash item) (rc_grantHash item) (rc_updatedAt item)
                    (rc_expiresAt item)) <$> range (records s), s).

Definition Revocations (s : Store) (now : Time) : list PresenceRevocation * Store :=
  let s := pruneLocked s now in ((range (revocations s)).*2, s).

(** One turn of [ImportRevocations]. *)
Definition importRevocation (now : Time) (s : Store) (value : PresenceRevocation) : Store :=
  if is_empty (r_OwnerHash value) || negb (After (r_ExpiresAt value) now) then s else
  let accept s :=
    let s := with_revocations (<[r_OwnerHash value := value]> (revocations s)) s in
    dropWhere (λ item, bool_decide (rc_ownerHash item = r_OwnerHash value)
                       && negb (After (rc_updatedAt item) (r_UpdatedAt value))) s in
  match revocations s !! r_OwnerHash value with
  | Some current => if negb (After (r_UpdatedAt value) (r_UpdatedAt current)) then s else accept s
  | None => if maxRecords s <=? Z.of_nat (size (revocations s)) then s else accept s
  end.

Definition ImportRevocations (s : Store) (now : Time) (values : list PresenceRevocation) : Store :=
  foldl (importRevocation now) s values.

End runtime.
