(* ===== verification/PresenceProps.v ===== *)
(** * The presence store: what it promises

    The table and its share counters stay in step and within their caps; a live lease
    inside its caller's share is never evicted; a heartbeat is accepted exactly when there
    is a slot it may take; a revoked owner stays gone for stale heartbeats. *)

From S2P Require Import Prelude Model Presence.

Open Scope Z_scope.

(** ** The invariant *)

Definition chargedTo (caller : string) (_ : string) (item : record) : bool :=
  bool_decide (rc_caller item = caller).

Definition share (s : Store) (caller : string) : nat := map_count (chargedTo caller) (records s).

Record Inv (s : Store) : Prop := {
  inv_cap : 0 < maxRecords s;
  inv_keys : map_Forall (λ key item, rc_grantHash item = key ∧ key ≠ ""%string
                                     ∧ rc_ownerHash item ≠ ""%string) (records s);
  inv_callers : tallies (callers s) (share s);
  inv_records : Z.of_nat (size (records s)) ≤ maxRecords s;
  inv_revocations : Z.of_nat (size (revocations s)) ≤ maxRecords s;
}.

Lemma presence_NewStore_inv m ttl : Inv (NewStore m ttl).
Proof.
  unfold NewStore. constructor; simpl.
  - case_match; reflect_bools; lia.
  - apply map_Forall_empty.
  - intros c. unfold share. simpl. by rewrite map_count_empty.
  - rewrite map_size_empty. case_match; reflect_bools; lia.
  - rewrite map_size_empty. case_match; reflect_bools; lia.
Qed.

Lemma if_bool_decide {K} `{EqDecision K} (x y : K) :
  (if bool_decide (x = y) then 1%nat else 0%nat) = if decide (y = x) then 1%nat else 0%nat.
Proof. case_bool_decide; case_decide; congruence. Qed.

Lemma dropLocked_inv s key : Inv s → Inv (dropLocked s key).
Proof.
  intros [Hc Hk Ht Hr Hv]. unfold dropLocked. destruct (records s !! key) as [item|] eqn:E; [|done].
  constructor; simpl; [done| | | |done].
  - by apply map_Forall_delete.
  - eapply tallies_dec; [exact Ht|]. intros c. unfold share. simpl.
    rewrite (map_count_delete _ _ _ _ E). unfold chargedTo at 1. by rewrite if_bool_decide.
  - pose proof (map_size_delete_Some _ _ (mk_is_Some _ _ E)). lia.
Qed.

Lemma putLocked_inv s item :
  Inv s → rc_grantHash item ≠ ""%string → rc_ownerHash item ≠ ""%string →
  is_Some (records s !! rc_grantHash item) ∨ Z.of_nat (size (records s)) < maxRecords s →
  Inv (putLocked s item).
Proof.
  intros HI Hg Ho Hroom.
  assert (putLocked s item =
    let s0 := dropLocked s (rc_grantHash item) in
    with_callers (counter_inc (callers s0) (rc_caller item))
      (with_records (<[rc_grantHash item := item]> (records s0)) s0)) as ->.
  { unfold putLocked, dropLocked. destruct (records s !! rc_grantHash item); [|done]. simpl.
    unfold with_callers, with_records. simpl. by rewrite insert_delete_eq. }
  assert (records (dropLocked s (rc_grantHash item)) !! rc_grantHash item = None) as Hnone.
  { unfold dropLocked. destruct (records s !! rc_grantHash item) eqn:E; simpl; [|done].
    apply lookup_delete_eq. }
  assert (Z.of_nat (size (records (dropLocked s (rc_grantHash item)))) < maxRecords s) as Hlt.
  { unfold dropLocked. destruct (records s !! rc_grantHash item) eqn:E; simpl.
    - pose proof (map_size_delete_Some _ _ (mk_is_Some _ _ E)).
      pose proof (inv_records s HI). assert (size (records s) ≠ 0)%nat; [|lia].
      apply map_size_ne_0_lookup. naive_solver.
    - destruct Hroom as [[]|]; done. }
  assert (maxRecords (dropLocked s (rc_grantHash item)) = maxRecords s) as Hm.
  { unfold dropLocked. by case_match. }
  rewrite <-Hm in Hlt. pose proof (dropLocked_inv s (rc_grantHash item) HI) as [Hc Hk Ht Hr Hv].
  cbv zeta. generalize dependent (dropLocked s (rc_grantHash item)). intros s0 Hnone Hm Hlt Hc Hk Ht Hr Hv.
  constructor; simpl; [done| | | |done].
  - by apply map_Forall_insert_2.
  - eapply tallies_ext; [|by apply tallies_inc]. intros c. unfold share. simpl.
    rewrite map_count_insert by done. unfold chargedTo at 2. by rewrite if_bool_decide.
  - rewrite map_size_insert_None by done. lia.
Qed.

(** Operations that leave the table alone. *)
Lemma Inv_revocations s m : Z.of_nat (size m) ≤ maxRecords s → Inv s → Inv (with_revocations m s).
Proof. intros Hm []. by constructor. Qed.

(** ** The deletion loops *)

Lemma foldl_dropLocked s (keys : list string) :
  let s' := foldl dropLocked s keys in
  records s' = keep (λ i _, negb (bool_decide (i ∈ keys))) (records s) ∧
  revocations s' = revocations s ∧ maxRecords s' = maxRecords s ∧ lastSeenTTL s' = lastSeenTTL s ∧
  (Inv s → Inv s').
Proof.
  revert s. induction keys as [|k keys IH]; intros s; simpl.
  { split_and!; try done. rewrite keep_all; [done|]. intros i v _. done. }
  destruct (IH (dropLocked s k)) as (-> & -> & -> & -> & HI).
  assert (records (dropLocked s k) = delete k (records s) ∧ revocations (dropLocked s k) = revocations s ∧
    maxRecords (dropLocked s k) = maxRecords s ∧ lastSeenTTL (dropLocked s k) = lastSeenTTL s)
    as (-> & -> & -> & ->).
  { unfold dropLocked. destruct (records s !! k) eqn:E; simpl; [done|]. by rewrite delete_id. }
  split_and!; try done.
  - rewrite keep_delete, keep_keep. apply keep_ext. intros i v _.
    rewrite <-negb_orb, <-bool_decide_or. f_equal. apply bool_decide_ext. set_solver.
  - intros Hs. by apply HI, dropLocked_inv.
Qed.

Section runtime.
Context `{!GoRuntime}.

Lemma dropWhere_spec test s :
  let s' := dropWhere test s in
  records s' = keep (λ _ item, negb (test item)) (records s) ∧
  revocations s' = revocations s ∧ maxRecords s' = maxRecords s ∧ lastSeenTTL s' = lastSeenTTL s ∧
  (Inv s → Inv s').
Proof.
  unfold dropWhere. rewrite (foldl_filter_fst test dropLocked).
  destruct (foldl_dropLocked s (filter (λ kv, test kv.2 = true) (range (records s))).*1)
    as (Hr & Hrest). split; [|done]. rewrite Hr, <-foldl_delete.
  by rewrite <-(foldl_filter_fst test (λ m k, delete k m)), foldl_sweep.
Qed.

(** A record that pruning keeps. *)
Definition recent (s : Store) (now : Time) (item : record) : bool :=
  negb (Before (Add (rc_lastSeen item) (lastSeenTTL s)) now).

Lemma foldl_drop_ttl s0 now l s :
  lastSeenTTL s = lastSeenTTL s0 →
  foldl (λ s '(key, item), if Before (Add (rc_lastSeen item) (lastSeenTTL s)) now
                           then dropLocked s key else s) s l =
  foldl (λ s '(key, item), if negb (recent s0 now item) then dropLocked s key else s) s l.
Proof.
  revert s. induction l as [|[k item] l IH]; intros s Hs; simpl; [done|].
  assert (negb (recent s0 now item) = Before (Add (rc_lastSeen item) (lastSeenTTL s)) now) as ->.
  { unfold recent. by rewrite negb_involutive, Hs. }
  apply IH. unfold dropLocked. by repeat case_match.
Qed.

Lemma pruneLocked_spec s now :
  let s' := pruneLocked s now in
  records s' = keep (λ _ item, recent s now item) (records s) ∧
  revocations s' = keep (λ _ v, After (r_ExpiresAt v) now) (revocations s) ∧
  maxRecords s' = maxRecords s ∧ lastSeenTTL s' = lastSeenTTL s ∧ (Inv s → Inv s').
Proof.
  unfold pruneLocked. cbv zeta. rewrite (foldl_drop_ttl s) by done.
  fold (dropWhere (λ item, negb (recent s now item)) s).
  destruct (dropWhere_spec (λ item, negb (recent s now item)) s) as (Hr & Hv & Hm & Ht & HI).
  rewrite (foldl_sweep (λ v, negb (After (r_ExpiresAt v) now))). simpl.
  split_and!; try done.
  - rewrite Hr. apply keep_ext. intros. apply negb_involutive.
  - rewrite Hv. apply keep_ext. intros. apply negb_involutive.
  - intros Hs. apply Inv_revocations; [|by apply HI]. rewrite Hv, Hm.
    rewrite keep_size. pose proof (map_count_size (λ _ v, negb (negb (After (r_ExpiresAt v) now)))
      (revocations s)). pose proof (inv_revocations s Hs). lia.
Qed.

(** ** Making room *)

Lemma rankOf_range s now caller item : 0 ≤ rankOf s now caller item ≤ 2.
Proof. unfold rankOf. repeat case_match; lia. Qed.

(** The loop finds a candidate of the lowest rank there is, or there is none. *)
Lemma pickVictim_spec s now caller (l : list (string * record)) :
  match foldl (pickVictim s now caller) (None, 2, 0) l with
  | (None, _, _) => ∀ kv, kv ∈ l → rankOf s now caller kv.2 = 2
  | (Some k, br, _) => ∃ item, (k, item) ∈ l ∧ rankOf s now caller item = br ∧ br < 2 ∧
                       ∀ kv, kv ∈ l → br ≤ rankOf s now caller kv.2
  end.
Proof.
  induction l as [|[k item] l IH] using rev_ind; [by intros kv ?%not_elem_of_nil|].
  rewrite foldl_snoc. destruct (foldl _ _ l) as [[v br] bs]. unfold pickVictim at 1. simpl.
  pose proof (rankOf_range s now caller item) as Hr.
  assert (∀ (P : string * record → Prop), (∀ kv, kv ∈ l → P kv) → P (k, item) →
    ∀ kv, kv ∈ l ++ [(k, item)] → P kv) as Hall.
  { intros P Hl Hk kv [?| ->%list_elem_of_singleton]%elem_of_app; auto. }
  destruct (rankOf s now caller item =? 2) eqn:H2; reflect_bools.
  { destruct v as [k'|].
    - destruct IH as (item' & Hin & Hbr & Hlt & Hmin). exists item'. split_and!; try done; [set_solver|].
      apply Hall; [done|]. simpl. lia.
    - by apply Hall. }
  destruct v as [k'|]; simpl.
  - destruct IH as (item' & Hin & Hbr & Hlt & Hmin).
    destruct (_ || _) eqn:E.
    + assert (rankOf s now caller item ≤ br).
      { apply orb_true_iff in E as [E|E]; reflect_bools; lia. }
      exists item. split_and!; [set_solver|done|lia|]. apply Hall; [|simpl; lia].
      intros kv Hkv. specialize (Hmin kv Hkv). lia.
    + apply orb_false_elim in E as [E _]. reflect_bools.
      exists item'. split_and!; try done; [set_solver|]. apply Hall; [done|]. simpl. lia.
  - exists item. split_and!; [set_solver|done|lia|]. apply Hall; [|simpl; lia].
    intros kv Hkv. specialize (IH kv Hkv). lia.
Qed.

(** A record that may be evicted for a caller. *)
Definition weak (s : Store) (now : Time) (caller : string) (item : record) : Prop :=
  rc_expiresAt item ≤ now ∨
  rc_caller item ≠ caller ∧ maxRecordsPerCaller < Z.of_nat (share s (rc_caller item)).

Lemma rankOf_weak s now caller item :
  Inv s → rankOf s now caller item < 2 ↔ weak s now caller item.
Proof.
  intros HI. unfold rankOf, weak. rewrite (tallies_get _ _ _ (inv_callers s HI)).
  destruct (negb (After _ _)) eqn:E; reflect_bools; [naive_solver lia|].
  destruct (negb _ && _) eqn:E2; reflect_bools; [naive_solver lia|].
  apply andb_false_iff in E2 as [E2|E2]; reflect_bools; split; try lia; intros [?|[? ?]]; (lia || done).
Qed.

Lemma makeRoom_cases s now caller :
  Inv s →
  (Z.of_nat (size (records s)) < maxRecords s ∧ makeRoomLocked s now caller = (true, s)) ∨
  (maxRecords s ≤ Z.of_nat (size (records s)) ∧
   (maxRecordsPerCaller ≤ Z.of_nat (share s caller) ∨
    ∀ k item, records s !! k = Some item → ¬ weak s now caller item) ∧
   makeRoomLocked s now caller = (false, s)) ∨
  (maxRecords s ≤ Z.of_nat (size (records s)) ∧ Z.of_nat (share s caller) < maxRecordsPerCaller ∧
   ∃ k item, records s !! k = Some item ∧ weak s now caller item ∧
             makeRoomLocked s now caller = (true, dropLocked s k)).
Proof.
  intros HI. unfold makeRoomLocked. destruct (_ <? _) eqn:Hroom; reflect_bools; [by left|right].
  rewrite (tallies_get _ _ _ (inv_callers s HI)).
  destruct (_ <=? _) eqn:Hshare; reflect_bools; [left; split_and!; auto|].
  pose proof (pickVictim_spec s now caller (range (records s))) as Hp.
  destruct (foldl _ _ _) as [[[k|] br] bs]; simpl.
  - right. destruct Hp as (item & Hin%range_lookup & Hbr & Hlt & _). split_and!; [done..|].
    exists k, item. split_and!; try done. apply rankOf_weak; [done|]. lia.
  - left. split_and!; [done| |done]. right. intros k item Hk%range_lookup Hw%rankOf_weak; [|done].
    specialize (Hp _ Hk). simpl in Hp. lia.
Qed.

(** ** Heartbeats *)

(** The table a heartbeat starts from. *)
Definition admitted (s : Store) (now : Time) (caller key : string) : Prop :=
  is_Some (records s !! key) ∨ Z.of_nat (size (records s)) < maxRecords s ∨
  (Z.of_nat (share s caller) < maxRecordsPerCaller ∧
   ∃ k item, records s !! k = Some item ∧ weak s now caller item).

(** The lease a heartbeat asks for. *)
Definition lease (now : Time) (v : PresenceHeartbeat) (grant : Grant) : record :=
  let v := trimHeartbeat now v in
  mkRecord (h_OwnerHash v) (h_GrantHash v) (TrimSpace (g_Caller grant)) now (h_UpdatedAt v) (h_ExpiresAt v).

(** What recording the lease does to a store whose tombstone is already settled. *)
Definition recordLease (s : Store) (now : Time) (item : record) : bool * Store :=
  match records s !! rc_grantHash item with
  | Some _ => (true, putLocked s item)
  | None => let '(ok, s) := makeRoomLocked s now (rc_caller item) in
            if negb ok then (false, s) else (true, putLocked s item)
  end.

Lemma Heartbeat_eq s now v grant :
  HeartbeatWithGrant s now v grant =
  let v' := trimHeartbeat now v in
  if heartbeatInvalid now v' then (false, s) else
  let s1 := pruneLocked s now in
  match revocations s1 !! h_OwnerHash v' with
  | Some revoked =>
      if negb (After (h_UpdatedAt v') (r_UpdatedAt revoked)) then (false, s1)
      else recordLease (with_revocations (delete (h_OwnerHash v') (revocations s1)) s1) now
             (lease now v grant)
  | None => recordLease s1 now (lease now v grant)
  end.
Proof. done. Qed.

Lemma putLocked_records s item :
  records (putLocked s item) = <[rc_grantHash item := item]> (records s) ∧
  revocations (putLocked s item) = revocations s ∧ maxRecords (putLocked s item) = maxRecords s ∧
  lastSeenTTL (putLocked s item) = lastSeenTTL s.
Proof. unfold putLocked. by case_match. Qed.

Lemma recordLease_cases s now item :
  Inv s → rc_grantHash item ≠ ""%string → rc_ownerHash item ≠ ""%string →
  (¬ admitted s now (rc_caller item) (rc_grantHash item) ∧ recordLease s now item = (false, s)) ∨
  (admitted s now (rc_caller item) (rc_grantHash item) ∧ ∃ s0,
   (s0 = s ∨ ∃ k old, records s !! k = Some old ∧ weak s now (rc_caller item) old ∧ s0 = dropLocked s k) ∧
   recordLease s now item = (true, putLocked s0 item) ∧ Inv (putLocked s0 item)).
Proof.
  intros HI Hg Ho. unfold recordLease, admitted. destruct (records s !! rc_grantHash item) eqn:E.
  { right. split; [by left|]. exists s. split_and!; [by left|done|]. apply putLocked_inv; try done.
    left. by rewrite E. }
  destruct (makeRoom_cases s now (rc_caller item) HI)
    as [[Hr ->]|[(Hfull & Hno & ->)|(Hfull & Hsh & k & old & Hk & Hw & ->)]]; simpl.
  - right. split; [by auto|]. exists s. split_and!; [by left|done|]. apply putLocked_inv; auto.
  - left. split; [|done]. intros [[? ?]|[?|(Hsh & k & old & Hk & Hw)]]; [done|lia|].
    destruct Hno as [?|Hno]; [lia|]. by eapply Hno.
  - right. split; [by eauto 10|]. exists (dropLocked s k).
    split_and!; [right; eauto|done|]. apply putLocked_inv; [by apply dropLocked_inv|done..|].
    right. unfold dropLocked. rewrite Hk. simpl.
    pose proof (map_size_delete_Some _ _ (mk_is_Some _ _ Hk)). pose proof (inv_records s HI).
    assert (size (records s) ≠ 0)%nat; [|lia]. apply map_size_ne_0_lookup. eauto.
Qed.

Lemma trimHeartbeat_valid now v :
  heartbeatInvalid now (trimHeartbeat now v) = false →
  TrimSpace (h_OwnerHash v) ≠ ""%string ∧ TrimSpace (h_GrantHash v) ≠ ""%string ∧
  now < h_ExpiresAt v ≤ now + 5 * Minute.
Proof. unfold heartbeatInvalid. simpl. intros. reflect_bools. unfold Add in *. split_and!; done. Qed.

Lemma Heartbeat_inv s now v grant : Inv s → Inv (HeartbeatWithGrant s now v grant).2.
Proof.
  intros HI. rewrite Heartbeat_eq. cbv zeta.
  destruct (heartbeatInvalid _ _) eqn:Hv; [done|]. apply trimHeartbeat_valid in Hv as (Ho & Hg & _).
  destruct (pruneLocked_spec s now) as (_ & _ & _ & _ & HI1). specialize (HI1 HI).
  assert (∀ s', Inv s' → Inv (recordLease s' now (lease now v grant)).2) as Hrec.
  { intros s' HI'. by destruct (recordLease_cases s' now (lease now v grant) HI')
      as [[_ ->]|(_ & s0 & _ & -> & ?)]. }
  destruct (revocations _ !! _); [|by apply Hrec]. case_match; [done|]. apply Hrec.
  apply Inv_revocations; [|done]. pose proof (inv_revocations _ HI1).
  pose proof (map_subseteq_size _ _ (delete_subseteq (revocations (pruneLocked s now))
    (h_OwnerHash (trimHeartbeat now v)))). lia.
Qed.

Lemma Revoke_fold s (owner : string) (l : list (string * record)) n :
  foldl (λ '(count, s) '(key, item), if bool_decide (rc_ownerHash item = owner)
                                     then (count + 1, dropLocked s key) else (count, s)) (n, s) l =
  (n + Z.of_nat (length (filter (λ kv, bool_decide (rc_ownerHash kv.2 = owner) = true) l)),
   foldl (λ s '(key, item), if bool_decide (rc_ownerHash item = owner) then dropLocked s key else s) s l).
Proof.
  revert n s. induction l as [|[k item] l IH]; intros n s; simpl; [by rewrite Z.add_0_r|].
  rewrite filter_cons. simpl. destruct (bool_decide (rc_ownerHash item = owner)); simpl; rewrite IH; [|done].
  f_equal. lia.
Qed.

Definition ownedBy (owner : string) (item : record) : bool := bool_decide (rc_ownerHash item = owner).

Lemma Revoke_eq s now owner :
  (Revoke s now owner).2 =
  storeRevocationLocked (dropWhere (ownedBy (TrimSpace owner)) s)
    (mkPresenceRevocation (TrimSpace owner) now (Add now (lastSeenTTL s))).
Proof.
  unfold Revoke. rewrite Revoke_fold. cbn [snd].
  change (foldl _ s (range (records s))) with (dropWhere (ownedBy (TrimSpace owner)) s).
  by destruct (dropWhere_spec (ownedBy (TrimSpace owner)) s) as (_ & _ & _ & -> & _).
Qed.

Lemma storeRevocation_inv s v : Inv s → Inv (storeRevocationLocked s v).
Proof.
  intros HI. unfold storeRevocationLocked. pose proof (inv_revocations s HI).
  destruct (revocations s !! r_OwnerHash v) eqn:E; [|destruct (_ <=? _) eqn:Hf; [done|]];
    (apply Inv_revocations; [|done]).
  - by rewrite map_size_insert_Some.
  - rewrite map_size_insert_None by done. reflect_bools. lia.
Qed.

Lemma importRevocation_inv now s v : Inv s → Inv (importRevocation now s v).
Proof.
  intros HI. unfold importRevocation. case_match; [done|]. cbv zeta. pose proof (inv_revocations s HI).
  destruct (revocations s !! r_OwnerHash v) eqn:E; (case_match; [done|]); apply dropWhere_spec;
    (apply Inv_revocations; [|done]).
  - by rewrite map_size_insert_Some.
  - rewrite map_size_insert_None by done. reflect_bools. lia.
Qed.
End runtime.

(** ** Operations and runs *)

(** [Query], [Count], [Snapshot] and [Revocations] change the store as [Prune] does, and
    [Import] is a sequence of heartbeats without a caller. *)
Inductive Op :=
  | OHeartbeat (now : Time) (v : PresenceHeartbeat) (grant : Grant)
  | ORevoke (now : Time) (owner : string)
  | OImportRevocations (now : Time) (vs : list PresenceRevocation)
  | OPrune (now : Time).

Definition exec `{!GoRuntime} (s : Store) (o : Op) : Store :=
  match o with
  | OHeartbeat now v grant => (HeartbeatWithGrant s now v grant).2
  | ORevoke now owner => (Revoke s now owner).2
  | OImportRevocations now vs => ImportRevocations s now vs
  | OPrune now => Prune s now
  end.

Inductive steps : Store → list Op → Store → Prop :=
  | steps_nil s : steps s [] s
  | steps_cons (rt : GoRuntime) s o os s' : steps (exec s o) os s' → steps s (o :: os) s'.

Lemma presence_exec_inv `{!GoRuntime} s o : Inv s → Inv (exec s o).
Proof.
  intros HI. destruct o; simpl.
  - by apply Heartbeat_inv.
  - rewrite Revoke_eq. by apply storeRevocation_inv, dropWhere_spec.
  - apply (foldl_inv Inv); [done|]. intros s' v _. apply importRevocation_inv.
  - by apply pruneLocked_spec.
Qed.

Lemma presence_steps_inv s os s' : steps s os s' → Inv s → Inv s'.
Proof. induction 1; [done|]. intros HI. apply IHsteps. by apply presence_exec_inv. Qed.

Fixpoint run `{!GoRuntime} (s : Store) (os : list Op) : Store :=
  match os with [] => s | o :: os => run (exec s o) os end.

Lemma presence_run_steps `{!GoRuntime} s os : steps s os (run s os).
Proof. revert s. induction os; intros s; simpl; econstructor; eauto. Qed.

Module Sample.
Definition T0 : Time := 10 ^ 15.
Definition beat (owner hash : string) (updated : Time) : PresenceHeartbeat :=
  mkPresenceHeartbeat owner hash updated (T0 + Minute).
Definition beats (l : list (string * string)) : list Op :=
  (λ '(owner, hash), OHeartbeat T0 (beat owner hash 0) (mkGrant "c")) <$> l.
Definition empty : Store := NewStore 2 Hour.
Definition full : Store := run empty (beats [("o1", "g1"); ("o2", "g2")]%string).
End Sample.

(** In every run the presence table and the tombstone table stay within [maxRecords],
    and the share counters are exact: the counter of a caller is the number of records
    charged to it, and it has no entry when there are none. *)
Theorem presence_bounded m ttl os s :
  steps (NewStore m ttl) os s →
  Z.of_nat (size (records s)) ≤ maxRecords s ∧ Z.of_nat (size (revocations s)) ≤ maxRecords s ∧
  (∀ c, counter_get (callers s) c = Z.of_nat (share s c)) ∧
  (∀ c, share s c = 0%nat → callers s !! c = None).
Proof.
  intros Hs. assert (Inv s) as HI by (eapply presence_steps_inv; [done|apply presence_NewStore_inv]).
  split_and!.
  - apply (inv_records s HI).
  - apply (inv_revocations s HI).
  - intros c. apply tallies_get, (inv_callers s HI).
  - intros c Hc. rewrite (inv_callers s HI c), Hc. done.
Qed.

Lemma presence_bounded_witness :
  Z.of_nat (size (records Sample.full)) = 2 ∧
  Z.of_nat (size (records Sample.full)) ≤ maxRecords Sample.full.
Proof.
  split; [by vm_compute|].
  destruct (presence_bounded 2 Hour (Sample.beats [("o1", "g1"); ("o2", "g2")]%string) Sample.full
    (presence_run_steps Sample.empty (Sample.beats [("o1", "g1"); ("o2", "g2")]%string))) as [H _].
  exact H.
Defined.

(** ** Who gives way *)

Section runtime.
Context `{!GoRuntime}.

(** The tombstone a heartbeat meets, after pruning. *)
Definition revokedFor (s : Store) (now : Time) (v : PresenceHeartbeat) : Prop :=
  ∃ r, revocations (pruneLocked s now) !! TrimSpace (h_OwnerHash v) = Some r ∧
       h_UpdatedAt (trimHeartbeat now v) ≤ r_UpdatedAt r.

(** A heartbeat that gets past the checks and the tombstone records its lease in the
    pruned store, up to the tombstone. *)
Lemma Heartbeat_cases s now v grant :
  let valid := heartbeatInvalid now (trimHeartbeat now v) = false ∧ ¬ revokedFor s now v in
  (¬ valid ∧ (HeartbeatWithGrant s now v grant).1 = false ∧
   ((HeartbeatWithGrant s now v grant).2 = s ∨ (HeartbeatWithGrant s now v grant).2 = pruneLocked s now)) ∨
  (valid ∧ ∃ m, HeartbeatWithGrant s now v grant =
                recordLease (with_revocations m (pruneLocked s now)) now (lease now v grant) ∧
                m ⊆ revocations (pruneLocked s now)).
Proof.
  cbv zeta. rewrite Heartbeat_eq. cbv zeta. unfold revokedFor.
  destruct (heartbeatInvalid _ _) eqn:Hv; [left; split_and!; [by intros [? _]|done|by left]|].
  change (h_OwnerHash (trimHeartbeat now v)) with (TrimSpace (h_OwnerHash v)).
  destruct (revocations (pruneLocked s now) !! TrimSpace (h_OwnerHash v)) as [r|] eqn:Hr.
  - destruct (negb _) eqn:Hu; reflect_bools.
    + left. split_and!; [|done|by right]. intros [_ Hno]. apply Hno. eauto.
    + right. split; [|eexists; split; [done|apply delete_subseteq]]. split; [done|].
      intros (r' & [= <-] & ?). lia.
  - right. split; [split; [done|]; naive_solver|].
    exists (revocations (pruneLocked s now)). split; [|done]. by destruct (pruneLocked s now).
Qed.

(** An eviction never costs a lease with a good claim: whatever a heartbeat asks for,
    every record of another grant that has been seen within the table's time to live, is
    online, and whose caller is within its share, is still there unchanged after it. *)
Theorem live_lease_kept s now v grant k item :
  Inv s →
  records s !! k = Some item → recent s now item = true → now < rc_expiresAt item →
  Z.of_nat (share (pruneLocked s now) (rc_caller item)) ≤ maxRecordsPerCaller →
  k ≠ TrimSpace (h_GrantHash v) →
  records (HeartbeatWithGrant s now v grant).2 !! k = Some item.
Proof.
  intros HI Hk Hrec Hon Hsh Hne. destruct (pruneLocked_spec s now) as (Hr & _ & _ & _ & HI1).
  specialize (HI1 HI).
  assert (records (pruneLocked s now) !! k = Some item) as Hk1 by (rewrite Hr; by apply keep_Some).
  destruct (Heartbeat_cases s now v grant) as [(_ & _ & [-> | ->])|([Hval _] & m & -> & Hm)]; [done..|].
  apply trimHeartbeat_valid in Hval as (Ho & Hg & _).
  set (s1 := with_revocations m (pruneLocked s now)).
  assert (Inv s1) as HIs1.
  { apply Inv_revocations; [|done]. apply map_subseteq_size in Hm.
    pose proof (inv_revocations _ HI1). lia. }
  destruct (recordLease_cases s1 now (lease now v grant) HIs1 Hg Ho)
    as [[_ ->]|(_ & s0 & Hs0 & -> & _)]; [done|].
  cbn [snd]. rewrite (proj1 (putLocked_records _ _)). rewrite lookup_insert_ne by done.
  destruct Hs0 as [->|(k' & old & Hk' & Hw & ->)]; [done|].
  unfold dropLocked. rewrite Hk'. simpl. destruct (decide (k' = k)) as [->|Hkk].
  - change (records s1) with (records (pruneLocked s now)) in Hk'. rewrite Hk1 in Hk'. injection Hk' as <-.
    destruct Hw as [?|[_ Hw]]; [lia|]. change (share s1 _) with (share (pruneLocked s now) (rc_caller item)) in Hw. lia.
  - by rewrite lookup_delete_ne.
Qed.

(** A heartbeat is accepted exactly when it is well formed (an owner, a grant and a
    lease of at most five minutes that has not ended), is newer than the owner's
    revocation if there is one, and has a slot: its grant is in the table already, the
    table has room, or its caller is below its share and some record is offline or held
    by another caller past its share. An accepted heartbeat's lease is then in the table. *)
Theorem heartbeat_accepted_iff s now v grant :
  Inv s →
  ((HeartbeatWithGrant s now v grant).1 = true ↔
   heartbeatInvalid now (trimHeartbeat now v) = false ∧ ¬ revokedFor s now v ∧
   admitted (pruneLocked s now) now (TrimSpace (g_Caller grant)) (TrimSpace (h_GrantHash v))) ∧
  ((HeartbeatWithGrant s now v grant).1 = true →
   records (HeartbeatWithGrant s now v grant).2 !! TrimSpace (h_GrantHash v)
   = Some (lease now v grant)).
Proof.
  intros HI. destruct (pruneLocked_spec s now) as (_ & _ & _ & _ & HI1). specialize (HI1 HI).
  destruct (Heartbeat_cases s now v grant) as [(Hno & Hf & _)|([Hval Hrev] & m & -> & Hm)].
  { rewrite Hf. split; [|done]. split; [done|]. naive_solver. }
  apply trimHeartbeat_valid in Hval as Hv. destruct Hv as (Ho & Hg & _).
  set (s1 := with_revocations m (pruneLocked s now)).
  assert (Inv s1) as HIs1.
  { apply Inv_revocations; [|done]. apply map_subseteq_size in Hm.
    pose proof (inv_revocations _ HI1). lia. }
  destruct (recordLease_cases s1 now (lease now v grant) HIs1 Hg Ho)
    as [[Had ->]|(Had & s0 & _ & -> & _)];
    change (admitted s1) with (admitted (pruneLocked s now)) in Had; cbn [fst snd].
  - split; [|done]. split; [done|]. intros (_ & _ & ?). done.
  - split; [by split|]. intros _. rewrite (proj1 (putLocked_records _ _)). apply lookup_insert_eq.
Qed.
End runtime.

Lemma live_lease_kept_witness :
  ∃ item, records Sample.full !! "g1" = Some item ∧
  records (HeartbeatWithGrant Sample.full Sample.T0 (Sample.beat "o3" "g3" 0) (mkGrant "d")).2 !! "g1"
  = Some item.
Proof.
  destruct (records Sample.full !! "g1") as [item|] eqn:E; [|by vm_compute in E].
  assert (from_option (λ item, recent Sample.full Sample.T0 item
    && (Sample.T0 <? rc_expiresAt item)
    && (Z.of_nat (share (pruneLocked Sample.full Sample.T0) (rc_caller item)) <=? maxRecordsPerCaller))
    false (records Sample.full !! "g1") = true) as H by (by vm_compute).
  rewrite E in H. cbn [from_option] in H. apply andb_true_iff in H as [H H3%Z.leb_le].
  apply andb_true_iff in H as [H1 H2%Z.ltb_lt].
  exists item. split; [reflexivity|].
  apply (live_lease_kept Sample.full Sample.T0 (Sample.beat "o3" "g3" 0) (mkGrant "d") "g1" item);
    [|exact E|exact H1|exact H2|exact H3|by vm_compute].
  exact (presence_steps_inv _ _ _ (presence_run_steps Sample.empty _) (presence_NewStore_inv 2 Hour)).
Defined.

Lemma heartbeat_accepted_iff_witness :
  let v := Sample.beat "o3" "g3" 0 in
  (HeartbeatWithGrant Sample.empty Sample.T0 v zeroGrant).1 = true ∧
  records (HeartbeatWithGrant Sample.empty Sample.T0 v zeroGrant).2 !! TrimSpace (h_GrantHash v)
  = Some (lease Sample.T0 v zeroGrant).
Proof.
  intros v. assert ((HeartbeatWithGrant Sample.empty Sample.T0 v zeroGrant).1 = true) as E
    by (by vm_compute).
  split; [exact E|].
  destruct (heartbeat_accepted_iff Sample.empty Sample.T0 v zeroGrant (presence_NewStore_inv 2 Hour)) as [_ H].
  exact (H E).
Defined.

(** ** Revocation *)

(** The owner is gone and its tombstone is held until [T] at least. *)
Definition gone (owner : string) (t T : Time) (ttl : Duration) (s : Store) : Prop :=
  lastSeenTTL s = ttl ∧
  (∃ r, revocations s !! owner = Some r ∧ t ≤ r_UpdatedAt r ∧ T ≤ r_ExpiresAt r) ∧
  (∀ k item, records s !! k = Some item → rc_ownerHash item ≠ owner).

(** What may run after the revocation: operations from its time on and before [T]; the
    owner's heartbeats are ones made before it, and a replicated revocation of the owner
    lasts until [T]. *)
Definition stale (owner : string) (t T : Time) (o : Op) : Prop :=
  match o with
  | OHeartbeat now v _ =>
      now < T ∧ (TrimSpace (h_OwnerHash v) = owner → h_UpdatedAt v ≠ 0 ∧ h_UpdatedAt v ≤ t)
  | ORevoke now _ => t ≤ now < T
  | OImportRevocations now vs =>
      now < T ∧ ∀ r, r ∈ vs → r_OwnerHash r = owner → T ≤ r_ExpiresAt r
  | OPrune now => now < T
  end.

Section gone.
Context `{!GoRuntime} (owner : string) (t T : Time) (ttl : Duration) (HT : T ≤ t + ttl).
Abbreviation G := (gone owner t T ttl).

Lemma gone_prune s now : now < T → G s → G (pruneLocked s now).
Proof.
  intros Hnow (Httl & (r & Hr & Hu & HrT) & Hrec).
  destruct (pruneLocked_spec s now) as (Hrs & Hvs & _ & Ht & _). split_and!.
  - by rewrite Ht.
  - exists r. split_and!; [|done..]. rewrite Hvs. apply keep_Some. split; [done|].
    unfold After. apply Z.ltb_lt. lia.
  - intros k item. rewrite Hrs. intros [? _]%keep_Some. eauto.
Qed.

Lemma gone_dropWhere s test : G s → G (dropWhere test s).
Proof.
  intros (Httl & Htomb & Hrec). destruct (dropWhere_spec test s) as (Hrs & Hvs & _ & Ht & _).
  split_and!; [by rewrite Ht|by rewrite Hvs|]. intros k item. rewrite Hrs. intros [? _]%keep_Some. eauto.
Qed.

Lemma gone_recordLease s now item :
  rc_ownerHash item ≠ owner → G s → G (recordLease s now item).2.
Proof.
  intros Hne HG.
  assert (∀ s0, G s0 → G (putLocked s0 item)) as Hput.
  { intros s0 (Httl & Htomb & Hrec). destruct (putLocked_records s0 item) as (Hrs & Hvs & _ & Ht).
    split_and!; [by rewrite Ht|by rewrite Hvs|]. intros k i. rewrite Hrs.
    intros [[_ <-]|[_ ?]]%lookup_insert_Some; eauto. }
  assert (∀ k, G (dropLocked s k)) as Hdrop.
  { intros k. unfold dropLocked. destruct (records s !! k); [|done]. destruct HG as (? & ? & Hrec).
    split_and!; [done..|]. simpl. intros k' i [_ ?]%lookup_delete_Some. eauto. }
  unfold recordLease, makeRoomLocked. destruct (records s !! _); [by apply Hput|].
  destruct (_ <? _); [by apply Hput|]. destruct (_ <=? _); [done|].
  destruct (foldl _ _ _).1.1; simpl; [by apply Hput | done].
Qed.

Lemma gone_Heartbeat s now v grant :
  stale owner t T (OHeartbeat now v grant) → G s → G (HeartbeatWithGrant s now v grant).2.
Proof.
  intros [Hnow Hown] HG. rewrite Heartbeat_eq. cbv zeta.
  destruct (heartbeatInvalid _ _); [done|]. pose proof (gone_prune s now Hnow HG) as HG1.
  change (h_OwnerHash (trimHeartbeat now v)) with (TrimSpace (h_OwnerHash v)).
  destruct (decide (TrimSpace (h_OwnerHash v) = owner)) as [Heq|Hne].
  - destruct (Hown Heq) as [Hnz Hle]. rewrite Heq. destruct HG1 as (? & (r & Hr & Hu & ?) & ?).
    rewrite Hr. simpl. rewrite (proj2 (Z.eqb_neq _ _) Hnz : IsZero _ = false).
    unfold After. rewrite (proj2 (Z.ltb_ge _ _)) by lia. simpl. split_and!; eauto.
  - destruct (revocations (pruneLocked s now) !! _) as [r|]; [|by apply gone_recordLease].
    destruct (negb _); [done|]. apply gone_recordLease; [done|].
    destruct HG1 as (? & (r' & Hr' & ?) & ?). split_and!; [done| |done].
    exists r'. split; [|done]. simpl. by rewrite lookup_delete_ne.
Qed.

Lemma gone_storeRevocation s r :
  (r_OwnerHash r = owner → t ≤ r_UpdatedAt r ∧ T ≤ r_ExpiresAt r) →
  G s → G (storeRevocationLocked s r).
Proof.
  intros Hr HG.
  assert (G (with_revocations (<[r_OwnerHash r := r]> (revocations s)) s)) as HG'.
  { destruct HG as (? & (r' & Hr' & ?) & ?). split_and!; [done| |done]. simpl.
    destruct (decide (r_OwnerHash r = owner)) as [Heq|Hne].
    - exists r. rewrite Heq, lookup_insert_eq. split_and!; [done|by apply Hr..].
    - exists r'. by rewrite lookup_insert_ne. }
  unfold storeRevocationLocked. by repeat case_match.
Qed.

Lemma gone_importRevocation s now r :
  (r_OwnerHash r = owner → T ≤ r_ExpiresAt r) → G s → G (importRevocation now s r).
Proof.
  intros Hr HG. unfold importRevocation. destruct (_ || _); [done|]. cbv zeta.
  pose proof HG as (? & (r' & Hr' & Hu & ?) & ?).
  assert (G (with_revocations (<[r_OwnerHash r := r]> (revocations s)) s)
    ∨ r_OwnerHash r = owner ∧ r_UpdatedAt r ≤ r_UpdatedAt r') as Hins.
  { destruct (decide (r_OwnerHash r = owner)) as [Heq|Hne].
    - destruct (decide (r_UpdatedAt r ≤ r_UpdatedAt r')); [by right|]. left.
      split_and!; [done| |done]. exists r. simpl. rewrite Heq, lookup_insert_eq.
      split_and!; [done|lia|by apply Hr].
    - left. split_and!; [done| |done]. exists r'. simpl. by rewrite lookup_insert_ne. }
  destruct (revocations s !! r_OwnerHash r) as [c|] eqn:E.
  - destruct (negb _) eqn:Hn; [done|]. reflect_bools. apply gone_dropWhere.
    destruct Hins as [?|[Heq Hle]]; [done|]. rewrite Heq, Hr' in E. injection E as ->. lia.
  - destruct (_ <=? _); [done|]. apply gone_dropWhere.
    destruct Hins as [?|[Heq Hle]]; [done|]. by rewrite Heq, Hr' in E.
Qed.

Lemma gone_step s o : stale owner t T o → G s → G (exec s o).
Proof.
  intros Hst HG. destruct o; simpl in Hst |- *.
  - by apply gone_Heartbeat.
  - rewrite Revoke_eq. apply gone_storeRevocation; [|by apply gone_dropWhere].
    destruct HG as (Httl & _). intros _. simpl. unfold Add. rewrite Httl. lia.
  - destruct Hst as [_ Hvs]. apply (foldl_inv G); [done|]. intros s' r Hin.
    apply gone_importRevocation. by apply Hvs.
  - by apply gone_prune.
Qed.
End gone.

(** C38: A revocation holds against what was said before it. Once an owner is revoked and its
    tombstone found room, no run of operations within the tombstone's life puts a lease of that
    owner back into the table, provided that every heartbeat of the owner in the run carries
    the time it was made and that is no later than the revocation (late or replicated by
    peers, under any grant), and that every replicated revocation of the owner lasts at least
    as long as this one. A heartbeat that carries no time counts as made when it arrives
    ([unstamped_heartbeat_returns]). *)
Theorem revocation_holds `{!GoRuntime} s t owner os s' :
  0 ≤ lastSeenTTL s →
  is_Some (revocations s !! TrimSpace owner) ∨ Z.of_nat (size (revocations s)) < maxRecords s →
  steps (Revoke s t owner).2 os s' →
  Forall (stale (TrimSpace owner) t (t + lastSeenTTL s)) os →
  ∀ k item, records s' !! k = Some item → rc_ownerHash item ≠ TrimSpace owner.
Proof.
  intros Httl Hroom Hsteps Hst.
  assert (gone (TrimSpace owner) t (t + lastSeenTTL s) (lastSeenTTL s) (Revoke s t owner).2) as HG.
  { rewrite Revoke_eq.
    destruct (dropWhere_spec (ownedBy (TrimSpace owner)) s) as (Hrs & Hvs & Hm & Ht & _).
    set (r := mkPresenceRevocation _ _ _). set (s1 := dropWhere _ s) in *.
    assert (storeRevocationLocked s1 r = with_revocations (<[TrimSpace owner := r]> (revocations s1)) s1) as ->.
    { unfold storeRevocationLocked. simpl. rewrite Hvs, Hm.
      destruct (revocations s !! TrimSpace owner) eqn:E; [done|].
      destruct Hroom as [[? ?]|Hlt]; [done|]. by rewrite (proj2 (Z.leb_gt _ _) Hlt). }
    split_and!; [done| |].
    - exists r. simpl. rewrite lookup_insert_eq. split_and!; [done..|]. unfold Add. lia.
    - simpl. intros k item. rewrite Hrs. intros [_ Hn]%keep_Some. unfold ownedBy in Hn. by reflect_bools. }
  enough (gone (TrimSpace owner) t (t + lastSeenTTL s) (lastSeenTTL s) s') as (_ & _ & H') by exact H'.
  generalize dependent (lastSeenTTL s). intros ttl _ Hst HG.
  revert Hst HG. induction Hsteps as [|rt s0 o os s' _ IH]; intros Hst HG; [done|].
  apply Forall_cons in Hst as [Ho Hst]. apply IH; [done|]. by eapply gone_step.
Qed.

Lemma revocation_holds_witness :
  let os := [OHeartbeat (Sample.T0 + 5) (Sample.beat "o1" "g9" Sample.T0) zeroGrant] in
  let s' := run (Revoke Sample.full (Sample.T0 + 1) "o1").2 os in
  bool_decide (is_Some (records s' !! "g2")) = true ∧
  ∀ k item, records s' !! k = Some item → rc_ownerHash item ≠ TrimSpace "o1".
Proof.
  intros os s'. split; [by vm_compute|]. apply (revocation_holds Sample.full (Sample.T0 + 1) "o1" os).
  - by vm_compute.
  - right. by vm_compute.
  - exact (presence_run_steps (Revoke Sample.full (Sample.T0 + 1) "o1").2 os).
  - apply Forall_cons. split; [|constructor]. split; [by vm_compute|].
    intros _. split; by vm_compute.
Defined.

(** A heartbeat that is refused for want of a slot has already lifted its owner's
    revocation: in a full table it is answered [false], and afterwards a stale heartbeat
    of the revoked owner, made before the revocation, is accepted. *)
Theorem refused_heartbeat_lifts_revocation :
  let T0 := Sample.T0 in
  let s := run Sample.empty
    ([ORevoke T0 "o3"] ++ Sample.beats [("o1", "g1"); ("o2", "g2")]%string) in
  let refused := HeartbeatWithGrant s (T0 + 1) (Sample.beat "o3" "g3" (T0 + 1)) zeroGrant in
  let later := (Revoke refused.2 (T0 + 2) "o1").2 in
  let old := Sample.beat "o3" "g3" (T0 - 1) in
  is_Some (revocations s !! "o3") ∧ refused.1 = false ∧
  revocations refused.2 !! "o3" = None ∧ (HeartbeatWithGrant later (T0 + 3) old zeroGrant).1 = true.
Proof.
  split; [apply (bool_decide_unpack (is_Some _)); by vm_compute|]. by vm_compute.
Qed.

(** The time of a heartbeat is optional, and one without it is stamped on arrival: a heartbeat of
    a revoked owner that was made before the revocation, and arrives after it without a time,
    lifts the tombstone and puts the lease back. *)
Lemma unstamped_heartbeat_returns :
  let T0 := Sample.T0 in
  let revoked := (Revoke (run Sample.empty (Sample.beats [("o1", "g1")]%string)) T0 "o1").2 in
  let late := HeartbeatWithGrant revoked (T0 + 1) (Sample.beat "o1" "g1" 0) zeroGrant in
  records revoked !! "g1" = None ∧ late.1 = true ∧ is_Some (records late.2 !! "g1") ∧
  revocations late.2 !! "o1" = None.
Proof.
  split_and!; [by vm_compute|by vm_compute| |by vm_compute].
  apply (bool_decide_unpack (is_Some _)). by vm_compute.
Qed.
