(* ===== verification/Admission.v ===== *)
(** * The admission gate ([internal/admission] and [internal/httpapi/admission.go]): the code

    The credential store, the two ephemeral tables of the gate (outstanding challenges
    and live sessions), and the three entry points of the HTTP layer that compose them:
    challenge, redeem and admit. The Ed25519 primitives are parameters. The clock readings
    and the 32 random bytes a call draws are arguments ([None] where [crypto/rand]
    fails). *)

From Stdlib Require Import Strings.String.
From S2P Require Import Prelude Crypto Model Capability QueueStore Attachment.

Open Scope Z_scope.

Inductive AdmissionError :=
  | ErrUnknownCredential
  | ErrExpiredCredential
  | ErrBadProof
  | ErrGateBusy
  | ErrNoSession.

#[export] Instance AdmissionError_eq_dec : EqDecision AdmissionError.
Proof. solve_decision. Defined.

(** ** Credentials *)

Record Terms := mkTerms {
  t_Tier : string;
  t_NotAfter : Time;
  t_QueueSlots : Z;
  t_RetentionWindow : Duration;
  t_AttachmentBytes : Z;
  t_ConcurrentTransfers : Z;
  t_TransitBytesPerDay : Z;
  t_MaxPerPair : Z;
}.

Definition zeroTerms : Terms := mkTerms "" 0 0 0 0 0 0 0.

Record Credential := mkCredential { cr_ID : string; cr_Terms : Terms }.

Record Store := mkStore {
  credentials : gmap string Credential;
  index : gmap string Z;
  nextIndex : Z;
  loaded : Z;
}.

Definition NewStore : Store := mkStore ∅ ∅ 0 0.

Definition Count (s : Store) : Z := loaded s.

Record Grant := mkGrant { ga_Index : Z; ga_ID : string; ga_Terms : Terms }.

Definition zeroGrant : Grant := mkGrant 0 "" zeroTerms.

(** The method [Admitted] of a grant. *)
Definition isAdmitted (g : Grant) : bool := negb (ga_Index g =? 0).

Definition Lookup (s : Store) (id : string) (now : Time) : AdmissionError + Grant :=
  match credentials s !! id with
  | None => inl ErrUnknownCredential
  | Some credential =>
      if negb (After (t_NotAfter (cr_Terms credential)) now) then inl ErrExpiredCredential else
      inr (mkGrant (default 0 (index s !! id)) id (cr_Terms credential))
  end.

(** One turn of the loop of [Replace], over the next set, the indexes and the counter. *)
Definition replaceOne (st : gmap string Credential * gmap string Z * Z) (credential : Credential)
  : gmap string Credential * gmap string Z * Z :=
  let '(next, index, nextIndex) := st in
  let next := <[cr_ID credential := credential]> next in
  match index !! cr_ID credential with
  | Some _ => (next, index, nextIndex)
  | None => let nextIndex := wrap_uint32 (nextIndex + 1) in
            (next, <[cr_ID credential := nextIndex]> index, nextIndex)
  end.

Definition Replace (s : Store) (cs : list Credential) : Store :=
  let '(next, index, nextIndex) := foldl replaceOne (∅, index s, nextIndex s) cs in
  mkStore next index nextIndex (Z.of_nat (size next)).

(** [validateCredential]. Which of two negative fields is reported is left open by the
    source (it ranges over a map), so the error does not name the field. *)
Inductive CredentialError :=
  | NotBase64URL
  | WrongKeyLength (n : nat)
  | NoNotAfter
  | NegativeTerm.

Definition validateCredential (c : Credential) : option CredentialError :=
  match Base64.RawURLDecodeString (cr_ID c) with
  | None => Some NotBase64URL
  | Some pub =>
      let t := cr_Terms c in
      if negb (bool_decide (length pub = 32%nat)) then Some (WrongKeyLength (length pub)) else
      if IsZero (t_NotAfter t) then Some NoNotAfter else
      if existsb (λ value, value <? 0)
           [t_QueueSlots t; t_AttachmentBytes t; t_ConcurrentTransfers t;
            t_TransitBytesPerDay t; t_MaxPerPair t]
      then Some NegativeTerm else None
  end.

(** [ParseCredentials] after the JSON decoding: the loop over the decoded entries, with
    the number of the entry an error is reported for, and the sort by id. *)
Inductive ParseError :=
  | Invalid (i : nat) (e : CredentialError)
  | AppearsTwice (i : nat).

Fixpoint checkCredentials (i : nat) (cs : list Credential) (seen : gset string)
  : option ParseError :=
  match cs with
  | [] => None
  | c :: cs =>
      match validateCredential c with
      | Some e => Some (Invalid (S i) e)
      | None => if bool_decide (cr_ID c ∈ seen) then Some (AppearsTwice (S i))
                else checkCredentials (S i) cs ({[cr_ID c]} ∪ seen)
      end
  end.

(** ** Challenges and sessions *)

Definition nonceTTL : Duration := 30 * Second.
Definition sessionTTL : Duration := 15 * Minute.
Definition maxNonces : Z := 8192.
Definition maxSessionsPerCredential : Z := 128.
Definition maxSessions : Z := 16384.

Record sessionEntry := mkSessionEntry { se_credentialID : string; se_expiresAt : Time }.

Record Sessions := mkSessions {
  nonces : gmap string Time;
  sessions : gmap string sessionEntry;
  byCredential : gmap string (list string);
}.

Definition NewSessions : Sessions := mkSessions ∅ ∅ ∅.

Definition tokensOf (s : Sessions) (credentialID : string) : list string :=
  default [] (byCredential s !! credentialID).

(** [randomToken]: the 32 bytes [crypto/rand] gave, or its failure. *)
Definition randomToken (raw : option (list Z)) : AdmissionError + string :=
  match raw with
  | None => inl ErrGateBusy
  | Some raw => inr (Base64.RawURLEncodeToString raw)
  end.

Definition spendNonceLocked (s : Sessions) (nonce : string) (now : Time) : bool * Sessions :=
  match nonces s !! nonce with
  | None => (false, s)
  | Some expiry => (After expiry now,
                    mkSessions (delete nonce (nonces s)) (sessions s) (byCredential s))
  end.

Definition dropLocked (s : Sessions) (token credentialID : string) : Sessions :=
  let remaining := filter (λ candidate, candidate ≠ token) (tokensOf s credentialID) in
  mkSessions (nonces s) (delete token (sessions s))
    (if bool_decide (remaining = []) then delete credentialID (byCredential s)
     else <[credentialID := remaining]> (byCredential s)).

(** The loop that drops the circle's oldest sessions, on the tokens oldest first. *)
Fixpoint dropOldest (ss : gmap string sessionEntry) (tokens : list string)
  : gmap string sessionEntry * list string :=
  match tokens with
  | [] => (ss, [])
  | t :: rest => if maxSessionsPerCredential <? Z.of_nat (length tokens)
                 then dropOldest (delete t ss) rest else (ss, tokens)
  end.

Section runtime.
Context `{!GoRuntime}.

Definition sweepLocked (s : Sessions) (now : Time) : Sessions :=
  let s := mkSessions
    (foldl (λ m '(nonce, expiry), if negb (After expiry now) then delete nonce m else m)
       (nonces s) (range (nonces s))) (sessions s) (byCredential s) in
  foldl (λ s '(token, entry), if negb (After (se_expiresAt entry) now)
                              then dropLocked s token (se_credentialID entry) else s)
    s (range (sessions s)).

Definition Challenge (s : Sessions) (now : Time) (raw : option (list Z))
  : (AdmissionError + string * Duration) * Sessions :=
  let s := sweepLocked s now in
  if maxNonces <=? Z.of_nat (size (nonces s)) then (inl ErrGateBusy, s) else
  match randomToken raw with
  | inl err => (inl err, s)
  | inr nonce =>
      (inr (nonce, nonceTTL),
       mkSessions (<[nonce := Add now nonceTTL]> (nonces s)) (sessions s) (byCredential s))
  end.

Definition Open (s : Sessions) (credentialID : string) (now : Time) (raw : option (list Z))
  : (AdmissionError + string * Duration) * Sessions :=
  let s := sweepLocked s now in
  if maxSessions <=? Z.of_nat (size (sessions s)) then (inl ErrGateBusy, s) else
  match randomToken raw with
  | inl err => (inl err, s)
  | inr token =>
      let '(ss, tokens) :=
        dropOldest (<[token := mkSessionEntry credentialID (Add now sessionTTL)]> (sessions s))
                   (tokensOf s credentialID ++ [token]) in
      (inr (token, sessionTTL),
       mkSessions (nonces s) ss (<[credentialID := tokens]> (byCredential s)))
  end.

Definition ParseCredentials (file : list Credential) : ParseError + list Credential :=
  match checkCredentials 0 file ∅ with
  | Some err => inl err
  | None => inr (sort_slice (λ a b, String.ltb (cr_ID a) (cr_ID b)) file)
  end.

(** [LoadFile] on a decoded file: the set is replaced whole, or not at all. *)
Definition LoadFile (s : Store) (file : list Credential) : (ParseError + Z) * Store :=
  match ParseCredentials file with
  | inl err => (inl err, s)
  | inr cs => (inr (Z.of_nat (length cs)), Replace s cs)
  end.
End runtime.

Definition Resolve (s : Sessions) (token : string) (now : Time)
  : (AdmissionError + string) * Sessions :=
  if is_empty token then (inl ErrNoSession, s) else
  match sessions s !! token with
  | None => (inl ErrNoSession, s)
  | Some entry =>
      if negb (After (se_expiresAt entry) now)
      then (inl ErrNoSession, dropLocked s token (se_credentialID entry))
      else (inr (se_credentialID entry), s)
  end.

Definition Forget (s : Sessions) (credentialID : string) : Sessions :=
  mkSessions (nonces s) (foldl (λ m token, delete token m) (sessions s) (tokensOf s credentialID))
             (delete credentialID (byCredential s)).

Definition Counts (s : Sessions) : Z * Z :=
  (Z.of_nat (size (nonces s)), Z.of_nat (size (sessions s))).

(** ** Proofs *)

Definition proofDomain : string := "deechat.admission-proof.v1|".

Definition CredentialID (pub : list Z) : string := Base64.RawURLEncodeToString pub.

Definition Transcript (nonce credentialID : string) : list Z :=
  bytes_of_string (proofDomain ++ nonce ++ "|" ++ credentialID).

(** ** The HTTP layer of the gate *)

Record Server := mkServer { admissions : Store; gate : Sessions }.

(** An error response: its status and its code. *)
Record Refusal := mkRefusal { status : Z; code : string }.

(** [expiresInSec], [int(ttl.Seconds())] of a whole number of seconds. *)
Definition secondsOf (ttl : Duration) : Z := Z.quot ttl Second.

Section handlers.
Context `{!GoRuntime}.
Context (ed25519Verify : list Z → list Z → list Z → bool).

Definition Verify (credentialID nonce : string) (signature : list Z) : bool :=
  match Base64.RawURLDecodeString credentialID with
  | None => false
  | Some pub =>
      if negb (bool_decide (length pub = 32%nat)) then false else
      if negb (bool_decide (length signature = 64%nat)) then false else
      ed25519Verify pub (Transcript nonce credentialID) signature
  end.

Definition VerifyProof (s : Sessions) (credentialID nonce : string) (signature : list Z)
    (now : Time) : option AdmissionError * Sessions :=
  let '(spent, s) := spendNonceLocked s nonce now in
  (if negb spent || negb (Verify credentialID nonce signature) then Some ErrBadProof else None, s).

Definition handleAdmissionChallenge (s : Server) (now : Time) (raw : option (list Z))
  : (Refusal + string * Z) * Server :=
  match Challenge (gate s) now raw with
  | (inl _, g) => (inl (mkRefusal 429 "admission_busy"), mkServer (admissions s) g)
  | (inr (nonce, ttl), g) => (inr (nonce, secondsOf ttl), mkServer (admissions s) g)
  end.

(** The decoded body is an argument, [None] for one that is not the expected JSON. The
    clock is read by [VerifyProof], for [Lookup] and by [Open]. *)
Definition handleAdmissionRedeem (s : Server) (value : option (string * string * string))
    (now1 now2 now3 : Time) (raw : option (list Z))
  : (Refusal + string * Z * Terms) * Server :=
  match value with
  | None => (inl (mkRefusal 400 "invalid_admission_proof"), s)
  | Some (credential, nonce, signature64) =>
    if is_empty credential || is_empty nonce || is_empty signature64
    then (inl (mkRefusal 400 "invalid_admission_proof"), s) else
    match Base64.RawURLDecodeString signature64 with
    | None => (inl (mkRefusal 400 "invalid_admission_proof"), s)
    | Some signature =>
      let '(err, g) := VerifyProof (gate s) credential nonce signature now1 in
      match err with
      | Some _ => (inl (mkRefusal 403 "admission_refused"), mkServer (admissions s) g)
      | None =>
        match Lookup (admissions s) credential now2 with
        | inl ErrExpiredCredential =>
            (inl (mkRefusal 403 "admission_expired"), mkServer (admissions s) (Forget g credential))
        | inl _ => (inl (mkRefusal 403 "admission_refused"), mkServer (admissions s) g)
        | inr grant =>
          match Open g credential now3 raw with
          | (inl ErrGateBusy, g) => (inl (mkRefusal 429 "admission_busy"), mkServer (admissions s) g)
          | (inl _, g) => (inl (mkRefusal 403 "admission_refused"), mkServer (admissions s) g)
          | (inr (token, ttl), g) =>
              (inr (token, secondsOf ttl, ga_Terms grant), mkServer (admissions s) g)
          end
        end
      end
    end
  end.

(** The method [admit]: the grant the request is charged to, or the response that refuses it. The
    clock is read by [Resolve] and for [Lookup]. *)
Definition admitRequest (RequireAdmission : bool) (s : Server) (token : string) (now1 now2 : Time)
  : (Refusal + Grant) * Server :=
  if is_empty token then
    if RequireAdmission then (inl (mkRefusal 401 "admission_required"), s) else (inr zeroGrant, s)
  else
  match Resolve (gate s) token now1 with
  | (inl _, g) => (inl (mkRefusal 401 "admission_stale"), mkServer (admissions s) g)
  | (inr credentialID, g) =>
    match Lookup (admissions s) credentialID now2 with
    | inl err =>
        (inl (mkRefusal 403 (if bool_decide (err = ErrExpiredCredential)
                             then "admission_expired" else "admission_refused")),
         mkServer (admissions s) (Forget g credentialID))
    | inr grant => (inr grant, mkServer (admissions s) g)
    end
  end.
End handlers.

(** The two projections of an admitted credential. *)
Definition queueGrant (grant : Grant) : QueueStore.Grant :=
  QueueStore.mkGrant (ga_Index grant) (t_QueueSlots (ga_Terms grant))
    (t_MaxPerPair (ga_Terms grant)) (t_RetentionWindow (ga_Terms grant)).

Definition attachmentGrant (grant : Grant) : Attachment.Grant :=
  Attachment.mkGrant (ga_Index grant) (t_AttachmentBytes (ga_Terms grant))
    (t_ConcurrentTransfers (ga_Terms grant)) (t_TransitBytesPerDay (ga_Terms grant)).
