(* ===== verification/AdmissionGate.v ===== *)
(** * The admission gate: requests interleaved at the locks

    A handler of the gate is not one atomic step: each call it makes takes the lock of
    the table it reads and gives it back. [System] is the server with the requests that
    are between two calls, and [step] lets any of them go on, a reload of the credential
    file included, so a theorem about [run] holds under every interleaving. The handlers
    of [Admission.v] run back to back are among the runs ([redeem_run], [admit_run]).

    The file also has the invariant of the two tables: the sessions and the per-circle
    lists of tokens agree, and both are within their caps. *)

From S2P Require Import Prelude Crypto Admission.

Open Scope Z_scope.

(** ** The interleaved system *)

(** Where a request stands between two calls of its handler. *)
Inductive inflight :=
  | RedeemLookup (c : string)
  | RedeemForget (c : string)
  | RedeemOpen (c : string)
  | AdmitLookup (token c : string) (now1 : Time)
  | AdmitForget (c : string).

Inductive label :=
  | LChallenge (now : Time) (raw : option (list Z))
  | LReplace (cs : list Credential)
  | LRedeem (c nonce : string) (signature : list Z) (now : Time)
  | LAdmit (token : string) (now : Time)
  | LRun (i : nat) (now : Time) (raw : option (list Z)).

(** The history of the exchange, each event with the clock readings of its call. *)
Inductive event :=
  | Challenged (nonce : string) (now : Time)
  | Proved (c nonce : string) (signature : list Z) (now : Time)
  | Opened (c token : string) (now : Time)
  | Accepted (token : string) (g : Grant) (now1 now2 : Time).

Record System := mkSystem { server : Server; pending : list inflight }.

Definition start : System := mkSystem (mkServer NewStore NewSessions) [].

Definition set_gate (σ : System) (g : Sessions) (p : list inflight) : System :=
  mkSystem (mkServer (admissions (server σ)) g) p.

Section machine.
Context `{!GoRuntime} (ed25519Verify : list Z → list Z → list Z → bool).

Definition step (σ : System) (l : label) : System * list event :=
  let g := gate (server σ) in
  match l with
  | LChallenge now raw =>
      match Challenge g now raw with
      | (inl _, g) => (set_gate σ g (pending σ), [])
      | (inr (nonce, _), g) => (set_gate σ g (pending σ), [Challenged nonce now])
      end
  | LReplace cs => (mkSystem (mkServer (Replace (admissions (server σ)) cs) g) (pending σ), [])
  | LRedeem c nonce signature now =>
      match VerifyProof ed25519Verify g c nonce signature now with
      | (Some _, g) => (set_gate σ g (pending σ), [])
      | (None, g) => (set_gate σ g (RedeemLookup c :: pending σ), [Proved c nonce signature now])
      end
  | LAdmit token now =>
      match Resolve g token now with
      | (inl _, g) => (set_gate σ g (pending σ), [])
      | (inr c, g) => (set_gate σ g (AdmitLookup token c now :: pending σ), [])
      end
  | LRun i now raw =>
      let rest := delete i (pending σ) in
      match pending σ !! i with
      | None => (σ, [])
      | Some (RedeemLookup c) =>
          match Lookup (admissions (server σ)) c now with
          | inl ErrExpiredCredential => (set_gate σ g (RedeemForget c :: rest), [])
          | inl _ => (set_gate σ g rest, [])
          | inr _ => (set_gate σ g (RedeemOpen c :: rest), [])
          end
      | Some (RedeemForget c) => (set_gate σ (Forget g c) rest, [])
      | Some (RedeemOpen c) =>
          match Open g c now raw with
          | (inl _, g) => (set_gate σ g rest, [])
          | (inr (token, _), g) => (set_gate σ g rest, [Opened c token now])
          end
      | Some (AdmitLookup token c now1) =>
          match Lookup (admissions (server σ)) c now with
          | inl _ => (set_gate σ g (AdmitForget c :: rest), [])
          | inr grant => (set_gate σ g rest, [Accepted token grant now1 now])
          end
      | Some (AdmitForget c) => (set_gate σ (Forget g c) rest, [])
      end
  end.

(** A run from a system, with the events so far. *)
Definition stepOn (st : System * list event) (l : label) : System * list event :=
  let '(σ, evs) := st in let '(σ, new) := step σ l in (σ, evs ++ new).

Definition run (ls : list label) : System * list event := foldl stepOn (start, []) ls.

Lemma run_snoc ls l :
  run (ls ++ [l]) = ((step (run ls).1 l).1, (run ls).2 ++ (step (run ls).1 l).2).
Proof.
  unfold run. rewrite foldl_app. simpl. unfold stepOn at 1.
  destruct (foldl _ _ ls) as [σ evs]. simpl. by destruct (step σ l).
Qed.

(** Induction over runs: a relation between the system and the events that every step
    keeps. *)
Lemma run_ind (P : System → list event → Prop) :
  P start [] →
  (∀ σ evs l, P σ evs → P (step σ l).1 (evs ++ (step σ l).2)) →
  ∀ ls, P (run ls).1 (run ls).2.
Proof.
  intros H0 Hs ls. induction ls as [|l ls IH] using rev_ind; [done|].
  rewrite run_snoc. simpl. by apply Hs.
Qed.

(** *** The handlers run back to back are runs of the system *)

Lemma redeem_run s c nonce signature64 signature now1 now2 now3 raw :
  c ≠ "" → nonce ≠ "" → signature64 ≠ "" →
  Base64.RawURLDecodeString signature64 = Some signature →
  foldl stepOn (mkSystem s [], [])
    [LRedeem c nonce signature now1; LRun 0 now2 None; LRun 0 now3 raw] =
  let '(reply, s') := handleAdmissionRedeem ed25519Verify s (Some (c, nonce, signature64))
                        now1 now2 now3 raw in
  (mkSystem s' [],
   (if VerifyProof ed25519Verify (gate s) c nonce signature now1 is (None, _)
    then [Proved c nonce signature now1] else []) ++
   (if reply is inr (token, _, _) then [Opened c token now3] else [])).
Proof.
  intros Hc Hn Hs Hd. destruct s as [store g]. unfold handleAdmissionRedeem, is_empty.
  rewrite !bool_decide_eq_false_2, Hd by done. simpl.
  destruct (VerifyProof _ _ _ _ _ _) as [[e|] g'] eqn:Hv; simpl; rewrite ?Hv; simpl; [done|].
  destruct (Lookup _ _ _) as [e|gr]; simpl.
  - by destruct e.
  - destruct (Open _ _ _ _) as [[e|[token ttl]] g'']; simpl; [by destruct e | done].
Qed.

Lemma admit_run require s token now1 now2 :
  token ≠ "" →
  foldl stepOn (mkSystem s [], []) [LAdmit token now1; LRun 0 now2 None; LRun 0 now2 None] =
  let '(reply, s') := admitRequest require s token now1 now2 in
  (mkSystem s' [], if reply is inr g then [Accepted token g now1 now2] else []).
Proof.
  intros Ht. destruct s as [store g]. unfold admitRequest, is_empty.
  rewrite bool_decide_eq_false_2 by done. simpl.
  destruct (Resolve _ _ _) as [[e|c] g']; simpl; [done|].
  by destruct (Lookup _ _ _) as [e|gr].
Qed.
End machine.

(** ** The tables *)

(** The sessions and the lists of tokens agree: the list of a circle has, once each, the
    tokens of its sessions, no list is kept empty, and no list is over its cap. *)
Record Tables (s : Sessions) : Prop := {
  tab_agree : ∀ t c, t ∈ tokensOf s c ↔ se_credentialID <$> sessions s !! t = Some c;
  tab_NoDup : ∀ c, NoDup (tokensOf s c);
  tab_nonempty : ∀ c, byCredential s !! c ≠ Some [];
  tab_cap : ∀ c, Z.of_nat (length (tokensOf s c)) ≤ maxSessionsPerCredential;
}.

Lemma NewSessions_tables : Tables NewSessions.
Proof.
  split.
  - intros t c. unfold tokensOf. simpl. rewrite !lookup_empty. simpl. split; [|done].
    by intros ?%not_elem_of_nil.
  - intros c. unfold tokensOf. simpl. rewrite lookup_empty. constructor.
  - intros c. simpl. by rewrite lookup_empty.
  - intros c. unfold tokensOf. simpl. by rewrite lookup_empty.
Qed.

Lemma Tables_nonces s ns : Tables s → Tables (mkSessions ns (sessions s) (byCredential s)).
Proof. by intros []; split. Qed.

Lemma tokensOf_put ns ss m c l c' :
  tokensOf (mkSessions ns ss (<[c := l]> m)) c' =
  if decide (c' = c) then l else default [] (m !! c').
Proof.
  unfold tokensOf. simpl. destruct (decide (c' = c)) as [->|Hne].
  - by rewrite lookup_insert_eq.
  - by rewrite lookup_insert_ne.
Qed.

Lemma dropLocked_tokens s t c c' :
  tokensOf (dropLocked s t c) c' =
  if decide (c' = c) then filter (λ x, x ≠ t) (tokensOf s c) else tokensOf s c'.
Proof.
  unfold dropLocked. case_bool_decide as Hr; unfold tokensOf at 1; simpl;
    destruct (decide (c' = c)) as [->|Hne].
  - by rewrite Hr, lookup_delete_eq.
  - by rewrite lookup_delete_ne.
  - by rewrite lookup_insert_eq.
  - by rewrite lookup_insert_ne.
Qed.

Lemma dropLocked_tables s t c :
  (∀ e, sessions s !! t = Some e → se_credentialID e = c) →
  Tables s → Tables (dropLocked s t c).
Proof.
  intros Hc [Ha Hn He Hcap]. split.
  - intros t' c'. rewrite dropLocked_tokens. simpl.
    destruct (decide (t' = t)) as [->|Hne].
    + rewrite lookup_delete_eq. simpl. split; [|done].
      destruct (decide (c' = c)) as [->|Hcc].
      { by intros [? _]%list_elem_of_filter. }
      rewrite Ha. destruct (sessions s !! t) as [e|] eqn:Ht; simpl; [|done].
      intros [= <-]. by rewrite (Hc e) in Hcc.
    + rewrite lookup_delete_ne, <-Ha by done.
      destruct (decide (c' = c)) as [->|Hcc]; [|done].
      rewrite list_elem_of_filter. naive_solver.
  - intros c'. rewrite dropLocked_tokens. destruct (decide _); [apply NoDup_filter|]; apply Hn.
  - intros c'. unfold dropLocked. case_bool_decide; simpl;
      (destruct (decide (c' = c)) as [->|Hne];
       [rewrite ?lookup_delete_eq, ?lookup_insert_eq; congruence
       |rewrite ?lookup_delete_ne, ?lookup_insert_ne by done; apply He]).
  - intros c'. rewrite dropLocked_tokens. destruct (decide _); [|apply Hcap].
    etrans; [|apply (Hcap c)]. pose proof (length_filter (λ x, x ≠ t) (tokensOf s c)). lia.
Qed.

Lemma dropOldest_spec ss tokens :
  ∃ n, dropOldest ss tokens =
         (foldl (λ m t, delete t m) ss (take n tokens), drop n tokens)
    ∧ n = (length tokens - Z.to_nat maxSessionsPerCredential)%nat.
Proof.
  eexists. split; [|reflexivity].
  revert ss. induction tokens as [|t rest IH]; intros ss; [done|].
  cbn [dropOldest]. destruct (Z.ltb_spec maxSessionsPerCredential (Z.of_nat (length (t :: rest)))) as [H|H].
  - rewrite IH. unfold maxSessionsPerCredential in *. cbn [length] in *.
    replace (S (length rest) - Z.to_nat 128)%nat with (S (length rest - Z.to_nat 128))%nat by lia.
    done.
  - unfold maxSessionsPerCredential in *.
    replace (length (t :: rest) - Z.to_nat 128)%nat with 0%nat by lia. done.
Qed.

Section sweep.
Context `{!GoRuntime}.

(** [sweepLocked] on the first two tables is the filter for what is live. *)
Lemma sweepLocked_nonces s now :
  nonces (sweepLocked s now) = keep (λ _ expiry, After expiry now) (nonces s).
Proof.
  unfold sweepLocked.
  rewrite (foldl_sweep (λ expiry, negb (After expiry now))).
  match goal with |- nonces (foldl ?f ?a ?l) = ?r =>
    change ((λ x, nonces x = r) (foldl f a l)) end.
  apply foldl_inv; simpl.
  - apply keep_ext. intros. by rewrite negb_involutive.
  - intros s' [t e] _ Hs'. by destruct (negb _).
Qed.

Lemma sweepLocked_sessions s now :
  sessions (sweepLocked s now) = keep (λ _ e, After (se_expiresAt e) now) (sessions s).
Proof.
  unfold sweepLocked. simpl. rewrite <-(keep_ext (λ _ e, negb (negb (After (se_expiresAt e) now))))
    by (intros; by rewrite negb_involutive).
  rewrite <-(foldl_sweep (λ e, negb (After (se_expiresAt e) now)) (sessions s)).
  generalize (range (sessions s)) as l. intros l.
  match goal with |- sessions (foldl ?f (mkSessions ?a _ _) _) = _ => generalize a as ns end.
  intros ns. destruct s as [ns0 ss by0]. simpl. clear ns0.
  revert ns ss by0. induction l as [|[t e] l IH]; intros ns ss by0; simpl; [done|].
  destruct (negb _); apply IH.
Qed.

Lemma sweepLocked_tables s now : Tables s → Tables (sweepLocked s now).
Proof.
  intros Ht. unfold sweepLocked. simpl.
  match goal with |- Tables (foldl ?f ?a ?l) =>
    enough (Tables (foldl f a l) ∧ sessions (foldl f a l) ⊆ sessions s) as [? _]; [done|];
    change ((λ x, Tables x ∧ sessions x ⊆ sessions s) (foldl f a l)) end.
  apply foldl_inv; [by split; [apply Tables_nonces|]|].
  intros s' [t e] He%range_lookup [Hs' Hsub]. destruct (negb _); [|done]. split.
  - apply dropLocked_tables; [|done]. intros e' He'.
    eapply lookup_weaken in He'; [|exact Hsub]. by simplify_eq.
  - simpl. etrans; [apply delete_subseteq | done].
Qed.
End sweep.

(** [Forget] and the loop of [Open] delete a list of tokens. *)
Lemma delete_tokens_lookup (ss : gmap string sessionEntry) ts t :
  foldl (λ m t, delete t m) ss ts !! t = if decide (t ∈ ts) then None else ss !! t.
Proof.
  rewrite foldl_delete, keep_lookup. destruct (ss !! t) as [e|]; simpl; [|by destruct (decide _)].
  destruct (decide (t ∈ ts)); [by rewrite bool_decide_eq_true_2 | by rewrite bool_decide_eq_false_2].
Qed.

Lemma Forget_tables s c : Tables s → Tables (Forget s c).
Proof.
  intros [Ha Hn He Hcap].
  assert (∀ c', tokensOf (Forget s c) c' = if decide (c' = c) then [] else tokensOf s c') as Hof.
  { intros c'. unfold tokensOf, Forget. simpl. destruct (decide (c' = c)) as [->|Hne].
    - by rewrite lookup_delete_eq.
    - by rewrite lookup_delete_ne. }
  split.
  - intros t c'. rewrite Hof. unfold Forget. cbn [sessions]. rewrite delete_tokens_lookup.
    pose proof (Ha t c) as Hc. pose proof (Ha t c') as Hc'.
    destruct (decide (t ∈ tokensOf s c)) as [Hin|Hin]; destruct (decide (c' = c)) as [->|Hne].
    + split; [by intros ?%not_elem_of_nil | done].
    + split; [|done]. rewrite Hc'. apply Hc in Hin. rewrite Hin. congruence.
    + split; [by intros ?%not_elem_of_nil |]. intros Hx. by apply Hc' in Hx.
    + done.
  - intros c'. rewrite Hof. destruct (decide _); [constructor | apply Hn].
  - intros c'. unfold Forget. cbn [byCredential].
    destruct (decide (c' = c)) as [->|Hne];
      [by rewrite lookup_delete_eq | rewrite lookup_delete_ne by done; apply He].
  - intros c'. rewrite Hof. destruct (decide _); [done | apply Hcap].
Qed.

Section openSession.
Context `{!GoRuntime}.

(** A session that [Open] starts: the swept tables, and the newest tokens of the circle. *)
Lemma Open_opened s c now raw token ttl s' :
  Open s c now raw = (inr (token, ttl), s') →
  let s0 := sweepLocked s now in
  let tokens := tokensOf s0 c ++ [token] in
  let n := (length tokens - Z.to_nat maxSessionsPerCredential)%nat in
  randomToken raw = inr token ∧ ttl = sessionTTL ∧ Z.of_nat (size (sessions s0)) < maxSessions ∧
  s' = mkSessions (nonces s0)
         (foldl (λ m t, delete t m)
            (<[token := mkSessionEntry c (Add now sessionTTL)]> (sessions s0)) (take n tokens))
         (<[c := drop n tokens]> (byCredential s0)).
Proof.
  unfold Open. cbv zeta. destruct (Z.leb_spec maxSessions (Z.of_nat (size (sessions (sweepLocked s now)))));
    [done|].
  destruct (randomToken raw) as [err|tok] eqn:Hr; [done|].
  match goal with |- context [dropOldest ?a ?b] => destruct (dropOldest_spec a b) as (n & Hd & ->) end.
  rewrite Hd. intros [= <- <- <-]. done.
Qed.

Lemma Open_refused s c now raw err s' :
  Open s c now raw = (inl err, s') → s' = sweepLocked s now.
Proof.
  unfold Open. cbv zeta. destruct (_ <=? _); [by intros [= _ <-]|].
  destruct (randomToken raw) as [e|tok]; [by intros [= _ <-]|].
  by destruct (dropOldest _ _).
Qed.

(** The sessions after [Open]: the new one, and the live ones that are not among the
    oldest of the same circle that have to go. *)
Lemma Open_lookup s c now raw token ttl s' t e :
  Tables s → Open s c now raw = (inr (token, ttl), s') →
  sessions s !! t = Some e → now < se_expiresAt e → t ≠ token →
  se_credentialID e ≠ c ∨
    Z.of_nat (length (tokensOf (sweepLocked s now) c)) < maxSessionsPerCredential →
  sessions s' !! t = Some e.
Proof.
  intros Ht Ho He Hlive Hne Hor. apply Open_opened in Ho as (_ & _ & _ & ->). cbn [sessions].
  assert (sessions (sweepLocked s now) !! t = Some e) as Hs.
  { rewrite sweepLocked_sessions. apply keep_Some. split; [done|]. by apply Z.ltb_lt. }
  rewrite delete_tokens_lookup, lookup_insert_ne by done.
  rewrite decide_False; [done|]. intros Hin. destruct Hor as [Hc|Hlen].
  - apply elem_of_take in Hin as (i & Hi & _). apply list_elem_of_lookup_2 in Hi.
    apply elem_of_app in Hi as [Hi|Hi%list_elem_of_singleton]; [|done].
    apply tab_agree in Hi; [|by apply sweepLocked_tables]. rewrite Hs in Hi. by injection Hi.
  - rewrite length_app in Hin. simpl in Hin. unfold maxSessionsPerCredential in *.
    replace (length (tokensOf (sweepLocked s now) c) + 1 - Z.to_nat 128)%nat with 0%nat in Hin by lia.
    by apply not_elem_of_nil in Hin.
Qed.

(** [Open] in two moves: the new token goes to the end of its list, and the list is cut
    at the front. Each keeps the sessions and the lists in agreement. *)
Definition agree (s : Sessions) : Prop :=
  (∀ t c, t ∈ tokensOf s c ↔ se_credentialID <$> sessions s !! t = Some c) ∧
  (∀ c, NoDup (tokensOf s c)).

Definition putToken (s : Sessions) (token c : string) (exp : Time) : Sessions :=
  mkSessions (nonces s) (<[token := mkSessionEntry c exp]> (sessions s))
    (<[c := tokensOf s c ++ [token]]> (byCredential s)).

Definition cutTokens (s : Sessions) (c : string) (n : nat) : Sessions :=
  mkSessions (nonces s) (foldl (λ m t, delete t m) (sessions s) (take n (tokensOf s c)))
    (<[c := drop n (tokensOf s c)]> (byCredential s)).

Lemma putToken_agree s token c exp :
  sessions s !! token = None → agree s → agree (putToken s token c exp).
Proof.
  intros Hf [Ha Hn].
  assert (∀ c', token ∉ tokensOf s c') as Hnot by (intros c'; rewrite Ha, Hf; done).
  split; intros x; [intros c'|]; unfold putToken; rewrite tokensOf_put; simpl;
    [fold (tokensOf s c') | fold (tokensOf s x)].
  - destruct (decide (x = token)) as [->|Hne].
    + rewrite lookup_insert_eq. simpl. destruct (decide (c' = c)) as [->|Hc].
      * rewrite elem_of_app, list_elem_of_singleton. naive_solver.
      * split; [by intros ?%Hnot | congruence].
    + rewrite lookup_insert_ne, <-Ha by done. destruct (decide (c' = c)) as [->|Hc]; [|done].
      rewrite elem_of_app, list_elem_of_singleton. naive_solver.
  - destruct (decide _); [|apply Hn]. apply NoDup_app. split; [apply Hn|].
    split; [|apply NoDup_singleton]. intros y Hy ->%list_elem_of_singleton. by eapply Hnot.
Qed.

Lemma cutTokens_agree s c n : agree s → agree (cutTokens s c n).
Proof.
  intros [Ha Hn].
  pose proof (Hn c) as Hnd. rewrite <-(take_drop n) in Hnd.
  apply NoDup_app in Hnd as (_ & Hdisj & Hnd).
  assert (∀ t, t ∈ tokensOf s c ↔ t ∈ take n (tokensOf s c) ∨ t ∈ drop n (tokensOf s c)) as Hsplit
    by (intros t; by rewrite <-elem_of_app, take_drop).
  split; intros x; [intros c'|]; unfold cutTokens; rewrite tokensOf_put; cbn [sessions];
    [fold (tokensOf s c') | fold (tokensOf s x)]; [|by destruct (decide _)].
  rewrite delete_tokens_lookup. pose proof (Ha x c) as Hc. pose proof (Ha x c') as Hc'.
  specialize (Hsplit x). specialize (Hdisj x).
  destruct (decide (x ∈ take n _)) as [Hin|Hin]; destruct (decide (c' = c)) as [->|Hne].
  - split; [|done]. intros Hd. by destruct Hdisj.
  - split; [|done]. rewrite Hc'. assert (x ∈ tokensOf s c) as Hx by tauto.
    apply Hc in Hx. rewrite Hx. congruence.
  - rewrite <-Hc. tauto.
  - done.
Qed.

Lemma Open_tables s c now raw token ttl s' :
  Tables s → sessions s !! token = None →
  Open s c now raw = (inr (token, ttl), s') → Tables s'.
Proof.
  intros Ht Hfresh Ho. apply Open_opened in Ho as (_ & _ & _ & ->).
  assert (sessions (sweepLocked s now) !! token = None) as Hf.
  { rewrite sweepLocked_sessions, keep_lookup, Hfresh. done. }
  pose proof (sweepLocked_tables s now Ht) as [Ha Hn He Hcap].
  set (s0 := sweepLocked s now) in *. clearbody s0.
  set (n := (length (tokensOf s0 c ++ [token]) - Z.to_nat maxSessionsPerCredential)%nat).
  pose proof (cutTokens_agree _ c n
    (putToken_agree s0 token c (Add now sessionTTL) Hf (conj Ha Hn))) as Hag.
  unfold cutTokens, putToken in Hag. rewrite tokensOf_put, decide_True in Hag by done.
  cbn [nonces sessions byCredential] in Hag. rewrite insert_insert_eq in Hag.
  destruct Hag as [Ha' Hn']. split; [done | done | |]; intros c'; cbn [byCredential].
  - destruct (decide (c' = c)) as [->|Hne];
      [rewrite lookup_insert_eq | rewrite lookup_insert_ne by done; apply He].
    intros [= Hd%(f_equal length)]. rewrite length_drop in Hd.
    unfold n, maxSessionsPerCredential in Hd. rewrite length_app in Hd. simpl in Hd. lia.
  - rewrite tokensOf_put. destruct (decide _); [|apply Hcap].
    rewrite length_drop. unfold n, maxSessionsPerCredential. lia.
Qed.
End openSession.
