(* ===== verification/AdmissionProps.v ===== *)
(** * The admission gate: what it guarantees

    Every admission rests on a proof over a nonce of this relay, a proof buys one session
    and a nonce one proof; the tables stay within their caps and in agreement; a circle
    cannot end another circle's sessions; and a grant is re-resolved on every request. *)

From S2P Require Import Prelude Crypto Admission AdmissionGate.

Open Scope Z_scope.

(** ** Counting events *)

Definition cnt {A} (p : A → bool) (l : list A) : nat := length (filter (λ x, p x = true) l).

Definition challengesOf (nonce : string) (e : event) : bool :=
  match e with Challenged n _ => bool_decide (n = nonce) | _ => false end.
Definition proofsOver (nonce : string) (e : event) : bool :=
  match e with Proved _ n _ _ => bool_decide (n = nonce) | _ => false end.
Definition proofsBy (c : string) (e : event) : bool :=
  match e with Proved c' _ _ _ => bool_decide (c' = c) | _ => false end.
Definition sessionsOf (c : string) (e : event) : bool :=
  match e with Opened c' _ _ => bool_decide (c' = c) | _ => false end.

(** A redemption whose proof is spent and whose session is not opened yet. *)
Definition redeeming (c : string) (p : inflight) : bool :=
  match p with
  | RedeemLookup c' | RedeemOpen c' => bool_decide (c' = c)
  | _ => false
  end.

Lemma cnt_nil {A} (p : A → bool) : cnt p [] = 0%nat.
Proof. done. Qed.

Lemma cnt_app {A} (p : A → bool) l k : cnt p (l ++ k) = (cnt p l + cnt p k)%nat.
Proof. unfold cnt. by rewrite filter_app, length_app. Qed.

Lemma cnt_cons {A} (p : A → bool) x l : cnt p (x :: l) = ((if p x then 1 else 0) + cnt p l)%nat.
Proof.
  unfold cnt. rewrite filter_cons.
  destruct (p x); [by rewrite decide_True | by rewrite decide_False].
Qed.

Lemma cnt_delete {A} (p : A → bool) l i x :
  l !! i = Some x → cnt p l = ((if p x then 1 else 0) + cnt p (delete i l))%nat.
Proof.
  intros Hi. rewrite <-(take_drop_middle _ _ _ Hi) at 1.
  rewrite cnt_app, cnt_cons, delete_take_drop, cnt_app. lia.
Qed.

Lemma elem_of_delete_list {A} (l : list A) i x : x ∈ delete i l → x ∈ l.
Proof.
  rewrite delete_take_drop, elem_of_app. intros [H|H].
  - by apply elem_of_take in H as (j & Hj & _); eapply list_elem_of_lookup_2.
  - apply list_elem_of_lookup in H as (j & Hj). rewrite lookup_drop in Hj.
    by eapply list_elem_of_lookup_2.
Qed.

(** ** The ledger of the gate *)

Section gate.
Context `{!GoRuntime} (ed25519Verify : list Z → list Z → list Z → bool).

Abbreviation step := (step ed25519Verify).
Abbreviation run := (run ed25519Verify).
Abbreviation Verify := (Verify ed25519Verify).

Definition outstanding (s : Sessions) (nonce : string) : nat :=
  if nonces s !! nonce is Some _ then 1%nat else 0%nat.

Record Ledger (σ : System) (evs : list event) : Prop := {
  led_spent : ∀ nonce,
    (cnt (proofsOver nonce) evs + outstanding (gate (server σ)) nonce ≤ cnt (challengesOf nonce) evs)%nat;
  led_nonces : ∀ nonce exp, nonces (gate (server σ)) !! nonce = Some exp →
    ∃ t, Challenged nonce t ∈ evs ∧ exp = Add t nonceTTL;
  led_proofs : ∀ c nonce sig t, Proved c nonce sig t ∈ evs →
    Verify c nonce sig = true ∧ ∃ t', Challenged nonce t' ∈ evs ∧ t < Add t' nonceTTL;
  led_sessions : ∀ c,
    (cnt (sessionsOf c) evs + cnt (redeeming c) (pending σ) ≤ cnt (proofsBy c) evs)%nat;
  led_tokens : ∀ token e, sessions (gate (server σ)) !! token = Some e →
    ∃ t, Opened (se_credentialID e) token t ∈ evs ∧ se_expiresAt e = Add t sessionTTL;
  led_admits : ∀ token c now1, AdmitLookup token c now1 ∈ pending σ →
    ∃ t, Opened c token t ∈ evs ∧ now1 < Add t sessionTTL;
}.

Lemma start_ledger : Ledger start [].
Proof.
  split; simpl; try (by intros; rewrite lookup_empty in * ); try set_solver.
Qed.

(** Whatever only takes away, from the tables or from the requests in flight, keeps the
    ledger. *)
Lemma Ledger_shrink σ evs store g p :
  Ledger σ evs →
  nonces g ⊆ nonces (gate (server σ)) → sessions g ⊆ sessions (gate (server σ)) →
  (∀ c, cnt (redeeming c) p ≤ cnt (redeeming c) (pending σ))%nat →
  (∀ token c now1, AdmitLookup token c now1 ∈ p → AdmitLookup token c now1 ∈ pending σ) →
  Ledger (mkSystem (mkServer store g) p) evs.
Proof.
  intros [H1 H2 H3 H4 H5 H6] Hn Hs Hr Ha. split; simpl.
  - intros nonce. etrans; [|apply H1]. apply Nat.add_le_mono_l. unfold outstanding.
    destruct (nonces g !! nonce) eqn:Hg; [|lia].
    by rewrite (lookup_weaken _ _ _ _ Hg Hn).
  - intros nonce exp Hg. by apply H2, (lookup_weaken (nonces g)).
  - done.
  - intros c. specialize (H4 c). specialize (Hr c). lia.
  - intros token e Hg. by apply H5, (lookup_weaken (sessions g)).
  - intros token c now1 Hp. by apply H6, Ha.
Qed.

Lemma Ledger_challenge σ evs nonce now :
  let g := gate (server σ) in
  Ledger σ evs →
  Ledger (set_gate σ (mkSessions (<[nonce := Add now nonceTTL]> (nonces g)) (sessions g)
                                 (byCredential g)) (pending σ))
         (evs ++ [Challenged nonce now]).
Proof.
  intros g [H1 H2 H3 H4 H5 H6]. split; simpl.
  - intros n. rewrite !cnt_app, !cnt_cons, !cnt_nil. simpl. specialize (H1 n). fold g in H1.
    unfold outstanding in *. simpl. destruct (decide (nonce = n)) as [->|Hne].
    + rewrite lookup_insert_eq, bool_decide_eq_true_2 by done. destruct (nonces g !! n); lia.
    + rewrite lookup_insert_ne, bool_decide_eq_false_2 by done. destruct (nonces g !! n); lia.
  - intros n exp [[-> <-]|[Hne Hg]]%lookup_insert_Some; [set_solver|].
    destruct (H2 n exp Hg) as (t & Ht & ->). set_solver.
  - intros c n sig t [Hp|Hp]%elem_of_app; [|set_solver].
    destruct (H3 c n sig t Hp) as (Hv & t' & Ht' & Hlt). split; [done|]. exists t'. set_solver.
  - intros c. rewrite !cnt_app, !cnt_cons, !cnt_nil. simpl. specialize (H4 c). lia.
  - intros token e Hg. destruct (H5 token e Hg) as (t & Ht & ->). set_solver.
  - intros token c now1 Hp. destruct (H6 token c now1 Hp) as (t & Ht & Hlt).
    exists t. set_solver.
Qed.

Lemma Ledger_accept σ evs token g now1 now2 :
  Ledger σ evs → Ledger σ (evs ++ [Accepted token g now1 now2]).
Proof.
  intros [H1 H2 H3 H4 H5 H6]. split.
  - intros n. rewrite !cnt_app, !cnt_cons, !cnt_nil. simpl. specialize (H1 n). lia.
  - intros n exp Hn. destruct (H2 n exp Hn) as (t & Ht & ->). set_solver.
  - intros c' n sig t Hp. destruct (H3 c' n sig t) as (Hv & t' & Ht' & Hlt); [set_solver|].
    split; [done|]. exists t'. set_solver.
  - intros c'. rewrite !cnt_app, !cnt_cons, !cnt_nil. simpl. specialize (H4 c'). lia.
  - intros tok e He. destruct (H5 tok e He) as (t & Ht & ->). set_solver.
  - intros tok c' n1 Hp. destruct (H6 tok c' n1 Hp) as (t & Ht & Hlt). exists t. set_solver.
Qed.

Lemma Ledger_prove σ evs c nonce sig now exp :
  let g := gate (server σ) in
  Ledger σ evs → nonces g !! nonce = Some exp → now < exp → Verify c nonce sig = true →
  Ledger (set_gate σ (mkSessions (delete nonce (nonces g)) (sessions g) (byCredential g))
                   (RedeemLookup c :: pending σ))
         (evs ++ [Proved c nonce sig now]).
Proof.
  intros g [H1 H2 H3 H4 H5 H6] Hn Hlt Hv. split; simpl.
  - intros n. rewrite !cnt_app, !cnt_cons, !cnt_nil. simpl. specialize (H1 n). fold g in H1.
    unfold outstanding in *. simpl. destruct (decide (nonce = n)) as [->|Hne].
    + rewrite lookup_delete_eq, bool_decide_eq_true_2 by done. rewrite Hn in H1. lia.
    + rewrite lookup_delete_ne, bool_decide_eq_false_2 by done. destruct (nonces g !! n); lia.
  - intros n exp' [Hne Hg]%lookup_delete_Some.
    destruct (H2 n exp' Hg) as (t & Ht & ->). set_solver.
  - intros c' n sig' t [Hp|[= -> -> -> ->]%list_elem_of_singleton]%elem_of_app.
    + destruct (H3 c' n sig' t Hp) as (Hv' & t' & Ht' & Hlt'). split; [done|]. exists t'. set_solver.
    + split; [done|]. destruct (H2 nonce exp Hn) as (t' & Ht' & ->). exists t'. set_solver.
  - intros c'. rewrite !cnt_app, !cnt_cons, !cnt_nil. simpl. specialize (H4 c').
    destruct (bool_decide (c = c')); lia.
  - intros token e Hg. destruct (H5 token e Hg) as (t & Ht & ->). set_solver.
  - intros token c' now1 Hp. destruct (H6 token c' now1) as (t & Ht & Hlt'); [set_solver|].
    exists t. set_solver.
Qed.

Lemma Ledger_open σ evs c token now i g ss :
  Ledger σ evs → pending σ !! i = Some (RedeemOpen c) →
  nonces g ⊆ nonces (gate (server σ)) → ss ⊆ sessions (gate (server σ)) →
  sessions g ⊆ <[token := mkSessionEntry c (Add now sessionTTL)]> ss →
  Ledger (set_gate σ g (delete i (pending σ))) (evs ++ [Opened c token now]).
Proof.
  intros HL Hi Hn Hss Hg.
  assert (Ledger (mkSystem (server σ) (delete i (pending σ))) evs) as HL'.
  { destruct σ as [[store g0] p]. apply (Ledger_shrink _ evs store g0 _ HL); simpl; try done.
    - intros c'. rewrite (cnt_delete _ _ _ _ Hi). simpl. lia.
    - intros. by eapply elem_of_delete_list. }
  destruct HL' as [H1 H2 H3 _ H5 H6], HL as [_ _ _ H4 _ _]. split; simpl in *.
  - intros n. rewrite !cnt_app, !cnt_cons, !cnt_nil. simpl. specialize (H1 n).
    unfold outstanding in *. destruct (nonces g !! n) eqn:Hgn; [|lia].
    rewrite (lookup_weaken _ _ _ _ Hgn Hn) in H1. lia.
  - intros n exp Hgn. destruct (H2 n exp) as (t & Ht & ->); [by eapply lookup_weaken|]. set_solver.
  - intros c' n sig' t Hp. destruct (H3 c' n sig' t) as (Hv & t' & Ht' & Hlt); [set_solver|].
    split; [done|]. exists t'. set_solver.
  - intros c'. rewrite !cnt_app, !cnt_cons, !cnt_nil. simpl. specialize (H4 c').
    rewrite (cnt_delete _ _ _ _ Hi) in H4. simpl in H4. destruct (bool_decide (c = c')); lia.
  - intros tok e Hge. eapply lookup_weaken in Hge; [|exact Hg].
    apply lookup_insert_Some in Hge as [[-> <-]|[_ Hge]]; [set_solver|].
    destruct (H5 tok e) as (t & Ht & ->); [by eapply lookup_weaken|]. set_solver.
  - intros tok c' now1 Hp. destruct (H6 tok c' now1 Hp) as (t & Ht & Hlt). exists t. set_solver.
Qed.

Lemma Ledger_admit σ evs token e now :
  Ledger σ evs → sessions (gate (server σ)) !! token = Some e → now < se_expiresAt e →
  Ledger (set_gate σ (gate (server σ)) (AdmitLookup token (se_credentialID e) now :: pending σ)) evs.
Proof.
  intros [H1 H2 H3 H4 H5 H6] He Hlt. split; simpl; try done.
  intros tok c now1 [[= -> -> ->]|Hp]%elem_of_cons; [|by apply H6].
  destruct (H5 token e He) as (t & Ht & Heq). exists t. by rewrite <-Heq.
Qed.

Lemma sweepLocked_shrinks s now :
  nonces (sweepLocked s now) ⊆ nonces s ∧ sessions (sweepLocked s now) ⊆ sessions s.
Proof. rewrite sweepLocked_nonces, sweepLocked_sessions. split; apply keep_subseteq. Qed.

Lemma Forget_shrinks s c : sessions (Forget s c) ⊆ sessions s.
Proof. unfold Forget. simpl. rewrite foldl_delete. apply keep_subseteq. Qed.

Lemma Resolve_cases s token now :
  (∃ e, sessions s !! token = Some e ∧ now < se_expiresAt e ∧ token ≠ "" ∧
        Resolve s token now = (inr (se_credentialID e), s)) ∨
  (∃ s', Resolve s token now = (inl ErrNoSession, s') ∧
         (s' = s ∨ ∃ e, sessions s !! token = Some e ∧ s' = dropLocked s token (se_credentialID e))).
Proof.
  unfold Resolve, is_empty. case_bool_decide as Ht; [by right; eauto|].
  destruct (sessions s !! token) as [e|] eqn:He; [|by right; eauto].
  destruct (After (se_expiresAt e) now) eqn:Ha; simpl; [|by right; eauto 6].
  left. exists e. apply Z.ltb_lt in Ha. done.
Qed.

Lemma Lookup_inr store c now g :
  Lookup store c now = inr g →
  ∃ cr, credentials store !! c = Some cr ∧ now < t_NotAfter (cr_Terms cr) ∧
        g = mkGrant (default 0 (index store !! c)) c (cr_Terms cr).
Proof.
  unfold Lookup. destruct (credentials store !! c) as [cr|]; [|done].
  destruct (After _ now) eqn:Ha; simpl; [|done]. intros [= <-].
  apply Z.ltb_lt in Ha. eauto.
Qed.

(** A step that takes requests off the list keeps the counts; the tables may shrink. *)
Lemma Ledger_finish σ evs i x g more :
  Ledger σ evs → pending σ !! i = Some x →
  nonces g ⊆ nonces (gate (server σ)) → sessions g ⊆ sessions (gate (server σ)) →
  (∀ c, cnt (redeeming c) more ≤ if redeeming c x then 1 else 0)%nat →
  (∀ token c now1, AdmitLookup token c now1 ∉ more) →
  Ledger (set_gate σ g (more ++ delete i (pending σ))) evs.
Proof.
  intros HL Hi Hn Hs Hc Ha. apply (Ledger_shrink σ); try done.
  - intros c. rewrite cnt_app, (cnt_delete _ _ _ _ Hi). specialize (Hc c). lia.
  - intros token c now1 [Hin|Hin]%elem_of_app; [by destruct (Ha token c now1)|].
    by eapply elem_of_delete_list.
Qed.

Lemma run_ledger σ evs i now raw x :
  Ledger σ evs → pending σ !! i = Some x →
  Ledger (step σ (LRun i now raw)).1 (evs ++ (step σ (LRun i now raw)).2).
Proof.
  intros HL Hi. simpl. rewrite Hi.
  destruct x as [c|c|c|token c now1|c].
  - destruct (Lookup _ c now) as [[]|]; simpl; rewrite app_nil_r;
      [eapply (Ledger_finish _ _ _ _ _ []) | eapply (Ledger_finish _ _ _ _ _ [_])
      |eapply (Ledger_finish _ _ _ _ _ []) | eapply (Ledger_finish _ _ _ _ _ [])
      |eapply (Ledger_finish _ _ _ _ _ []) | eapply (Ledger_finish _ _ _ _ _ [_])];
      try done; try set_solver; intros; rewrite ?cnt_cons, ?cnt_nil; simpl; destruct (bool_decide _); lia.
  - simpl. rewrite app_nil_r. eapply (Ledger_finish _ _ _ _ _ []); try done; try apply Forget_shrinks; set_solver.
  - destruct (Open _ c now raw) as [[err|[token ttl]] g'] eqn:Ho; simpl.
    + apply Open_refused in Ho as ->. destruct (sweepLocked_shrinks (gate (server σ)) now).
      rewrite app_nil_r. eapply (Ledger_finish _ _ _ _ _ []); try done; [|set_solver].
      intros. rewrite cnt_nil. lia.
    + apply Open_opened in Ho as (_ & _ & _ & ->).
      destruct (sweepLocked_shrinks (gate (server σ)) now).
      eapply Ledger_open; try done. simpl. rewrite foldl_delete. apply keep_subseteq.
  - destruct (Lookup _ c now) as [err|g]; simpl; [rewrite app_nil_r|].
    + eapply (Ledger_finish _ _ _ _ _ [_]); try done; set_solver.
    + apply Ledger_accept. eapply (Ledger_finish _ _ _ _ _ []); try done. set_solver.
  - simpl. rewrite app_nil_r. eapply (Ledger_finish _ _ _ _ _ []); try done; try apply Forget_shrinks; set_solver.
Qed.

Lemma step_ledger σ evs l : Ledger σ evs → Ledger (step σ l).1 (evs ++ (step σ l).2).
Proof.
  intros HL. destruct l as [now raw|cs|c nonce sig now|token now|i now raw]; simpl.
  - destruct (sweepLocked_shrinks (gate (server σ)) now) as [Hn Hs].
    assert (Ledger (set_gate σ (sweepLocked (gate (server σ)) now) (pending σ)) evs) as HL'
      by (by apply (Ledger_shrink σ)).
    unfold Challenge. cbv zeta. destruct (_ <=? _); simpl; [by rewrite app_nil_r|].
    destruct (randomToken raw) as [err|nonce]; simpl; [by rewrite app_nil_r|].
    apply (Ledger_challenge _ _ nonce now HL').
  - rewrite app_nil_r. by apply (Ledger_shrink σ).
  - unfold VerifyProof, spendNonceLocked.
    destruct (nonces (gate (server σ)) !! nonce) as [exp|] eqn:Hn; simpl.
    2:{ rewrite app_nil_r. by apply (Ledger_shrink σ). }
    destruct (negb (After exp now) || negb (Verify c nonce sig)) eqn:Hb; simpl.
    + rewrite app_nil_r. apply (Ledger_shrink σ); try done. apply delete_subseteq.
    + reflect_bools. by eapply Ledger_prove.
  - destruct (Resolve_cases (gate (server σ)) token now)
      as [(e & He & Hlt & _ & ->) | (s' & -> & Hs')]; simpl; rewrite app_nil_r.
    + by apply Ledger_admit.
    + apply (Ledger_shrink σ); try done;
        destruct Hs' as [-> | (e & _ & ->)]; try done. apply delete_subseteq.
  - destruct (pending σ !! i) as [x|] eqn:Hi.
    + pose proof (run_ledger σ evs i now raw x HL Hi) as Hr. simpl in Hr. by rewrite Hi in Hr.
    + simpl. by rewrite app_nil_r.
Qed.

Lemma run_has_ledger ls : Ledger (run ls).1 (run ls).2.
Proof. apply run_ind; [apply start_ledger | intros; by apply step_ledger]. Qed.

(** A step that admits a request is the second call of [admit] on a live credential. *)
Lemma step_accepted σ l token g now1 now2 :
  Accepted token g now1 now2 ∈ (step σ l).2 →
  AdmitLookup token (ga_ID g) now1 ∈ pending σ ∧
  Lookup (admissions (server σ)) (ga_ID g) now2 = inr g.
Proof.
  destruct l as [now raw|cs|c nonce sig now|tok now|i now raw]; simpl.
  - destruct (Challenge _ _ _) as [[|[]] ]; set_solver.
  - set_solver.
  - destruct (VerifyProof _ _ _ _ _ _) as [[]]; set_solver.
  - destruct (Resolve _ _ _) as [[]]; set_solver.
  - destruct (pending σ !! i) as [[c|c|c|tok c n1|c]|] eqn:Hi; try set_solver.
    + destruct (Lookup _ _ _) as [[]|]; set_solver.
    + destruct (Open _ _ _ _) as [[|[]] ]; set_solver.
    + destruct (Lookup _ c now) as [|g'] eqn:Hl; [set_solver|]. simpl.
      intros [= -> -> -> ->]%list_elem_of_singleton.
      destruct (Lookup_inr _ _ _ _ Hl) as (cr & _ & _ & ->). simpl.
      split; [by eapply list_elem_of_lookup_2 | done].
Qed.

(** C6: No request is admitted without a proof, under every interleaving of the gate's
    calls and of reloads: when a request with a session token is admitted under a grant,
    the credential of the grant is in the live store with the granted terms and has not
    expired at that reading of the clock, the token is one this relay opened for that very
    credential less than fifteen minutes earlier, and an earlier signature of that credential
    verified over a nonce this relay had issued less than thirty seconds before. *)
Theorem no_admission_without_proof ls l token g now1 now2 :
  Accepted token g now1 now2 ∈ (step (run ls).1 l).2 →
  (∃ cr, credentials (admissions (server (run ls).1)) !! ga_ID g = Some cr ∧
         ga_Terms g = cr_Terms cr ∧ now2 < t_NotAfter (cr_Terms cr)) ∧
  (∃ t, Opened (ga_ID g) token t ∈ (run ls).2 ∧ now1 < Add t sessionTTL) ∧
  (∃ nonce sig t t', Proved (ga_ID g) nonce sig t ∈ (run ls).2 ∧
     Verify (ga_ID g) nonce sig = true ∧
     Challenged nonce t' ∈ (run ls).2 ∧ t < Add t' nonceTTL).
Proof.
  intros [Hp Hl]%step_accepted. destruct (run_has_ledger ls) as [_ _ H3 H4 _ H6].
  destruct (Lookup_inr _ _ _ _ Hl) as (cr & Hcr & Hlt & Hg).
  split; [exists cr; by rewrite Hg|].
  destruct (H6 _ _ _ Hp) as (t & Ht & Hlt'). split; [by exists t|].
  assert (0 < cnt (proofsBy (ga_ID g)) (run ls).2)%nat as Hpos.
  { eapply Nat.lt_le_trans; [|apply H4]. apply Nat.add_pos_l.
    apply list_elem_of_split in Ht as (l1 & l2 & ->).
    rewrite cnt_app, cnt_cons. simpl. rewrite bool_decide_eq_true_2 by done. lia. }
  unfold cnt in Hpos. destruct (filter _ (run ls).2) as [|e es] eqn:Hf; [simpl in Hpos; lia|].
  assert (e ∈ filter (λ e, proofsBy (ga_ID g) e = true) (run ls).2) as He by (rewrite Hf; left).
  apply list_elem_of_filter in He as [He Hin].
  destruct e as [|c nonce sig t0| |]; try done. simpl in He. apply bool_decide_eq_true in He as ->.
  destruct (H3 _ _ _ _ Hin) as (Hv & t' & Ht' & Hlt0). by exists nonce, sig, t0, t'.
Qed.

(** C39: A challenge answers once and a proof buys one session: in every run, no nonce has
    more verified proofs than times it was issued, and no credential has more sessions
    opened than proofs of its own that verified. *)
Theorem one_challenge_one_session ls nonce c :
  (cnt (proofsOver nonce) (run ls).2 ≤ cnt (challengesOf nonce) (run ls).2)%nat ∧
  (cnt (sessionsOf c) (run ls).2 ≤ cnt (proofsBy c) (run ls).2)%nat.
Proof.
  destruct (run_has_ledger ls) as [H1 _ _ H4 _ _]. specialize (H1 nonce). specialize (H4 c). lia.
Qed.

(** ** The tables of the gate *)

(** The 256-bit draw of an [Open] does not hit a live session's token. *)
Definition freshToken (σ : System) (l : label) : bool :=
  match l with
  | LRun i _ (Some raw) =>
      match pending σ !! i with
      | Some (RedeemOpen _) =>
          bool_decide (sessions (gate (server σ)) !! Base64.RawURLEncodeToString raw = None)
      | _ => true
      end
  | _ => true
  end.

Fixpoint distinctTokens (σ : System) (ls : list label) : bool :=
  match ls with
  | [] => true
  | l :: ls => freshToken σ l && distinctTokens (step σ l).1 ls
  end.

(** The tables after a step are the result of the one call the step makes. *)
Lemma step_gate (P : Sessions → Prop) σ l :
  let g := gate (server σ) in
  P g → (∀ now raw, l = LChallenge now raw → P (Challenge g now raw).2) →
  (∀ nonce now, P (spendNonceLocked g nonce now).2) →
  (∀ token now, l = LAdmit token now → P (Resolve g token now).2) →
  (∀ i c now raw, l = LRun i now raw →
     pending σ !! i = Some (RedeemForget c) ∨ pending σ !! i = Some (AdmitForget c) → P (Forget g c)) →
  (∀ i c now raw, l = LRun i now raw → pending σ !! i = Some (RedeemOpen c) →
     P (Open g c now raw).2) →
  P (gate (server (step σ l).1)).
Proof.
  intros g Hg HC HS HR HF HO. destruct l as [now raw|cs|c nonce sig now|token now|i now raw]; simpl.
  - specialize (HC now raw eq_refl). fold g. by destruct (Challenge g now raw) as [[|[]] ?].
  - done.
  - specialize (HS nonce now). unfold VerifyProof. fold g.
    destruct (spendNonceLocked g nonce now) as [b g']. simpl. by destruct (negb b || _).
  - specialize (HR token now eq_refl). fold g. by destruct (Resolve g token now) as [[] ?].
  - destruct (pending σ !! i) as [[c|c|c|token c now1|c]|] eqn:Hi; try done; fold g.
    + by destruct (Lookup _ _ _) as [[]|].
    + simpl. eauto.
    + specialize (HO i c now raw eq_refl Hi). by destruct (Open g c now raw) as [[|[]] ?].
    + by destruct (Lookup _ _ _).
    + simpl. eauto.
Qed.

(** The caps of the two tables need nothing of the draws. *)
Definition within (s : Sessions) : Prop :=
  Z.of_nat (size (nonces s)) ≤ maxNonces ∧ Z.of_nat (size (sessions s)) ≤ maxSessions.

Lemma within_shrink s s' :
  nonces s' ⊆ nonces s → sessions s' ⊆ sessions s → within s → within s'.
Proof.
  intros Hn Hs [H1 H2]. apply map_subseteq_size in Hn, Hs. split; lia.
Qed.

Lemma Resolve_shrinks s token now :
  nonces (Resolve s token now).2 = nonces s ∧ sessions (Resolve s token now).2 ⊆ sessions s.
Proof.
  destruct (Resolve_cases s token now) as [(e & _ & _ & _ & ->)|(s' & -> & [->|(e & _ & ->)])];
    simpl; split; try done. apply delete_subseteq.
Qed.

Lemma size_insert_le {K A} `{Countable K} (m : gmap K A) k v : (size (<[k := v]> m) ≤ S (size m))%nat.
Proof.
  rewrite map_size_insert. destruct (m !! k); simpl; lia.
Qed.

Lemma step_within σ l : within (gate (server σ)) → within (gate (server (step σ l).1)).
Proof.
  intros Hw. apply step_gate; [done|..].
  - intros now raw _. destruct (sweepLocked_shrinks (gate (server σ)) now) as [Hn Hs].
    pose proof (within_shrink _ _ Hn Hs Hw) as Hw'. unfold Challenge. cbv zeta.
    destruct (Z.leb_spec maxNonces (Z.of_nat (size (nonces (sweepLocked (gate (server σ)) now))))); [done|].
    destruct (randomToken raw) as [|nonce]; [done|]. split; simpl; [|apply Hw'].
    pose proof (size_insert_le (nonces (sweepLocked (gate (server σ)) now)) nonce (Add now nonceTTL)). lia.
  - intros nonce now. unfold spendNonceLocked. destruct (_ !! nonce); [|done].
    apply (within_shrink (gate (server σ))); [apply delete_subseteq | done | done].
  - intros token now _. destruct (Resolve_shrinks (gate (server σ)) token now) as [Hn Hs].
    apply (within_shrink (gate (server σ))); [by rewrite Hn | done | done].
  - intros i c now raw _ _. apply (within_shrink (gate (server σ))); [done | apply Forget_shrinks | done].
  - intros i c now raw _ _. destruct (sweepLocked_shrinks (gate (server σ)) now) as [Hn Hs].
    pose proof (within_shrink _ _ Hn Hs Hw) as Hw'.
    destruct (Open (gate (server σ)) c now raw) as [[err|[token ttl]] s'] eqn:Ho.
    + by apply Open_refused in Ho as ->.
    + apply Open_opened in Ho as (_ & _ & Hsz & ->). split; simpl; [apply Hw'|].
      rewrite foldl_delete. etrans; [apply inj_le, map_subseteq_size, keep_subseteq|].
      pose proof (size_insert_le (sessions (sweepLocked (gate (server σ)) now)) token
        (mkSessionEntry c (Add now sessionTTL))). lia.
Qed.

Lemma step_tables σ l :
  freshToken σ l = true → Tables (gate (server σ)) → Tables (gate (server (step σ l).1)).
Proof.
  intros Hf Ht. apply step_gate; [done|..].
  - intros now raw _. pose proof (sweepLocked_tables _ now Ht) as Ht'. unfold Challenge. cbv zeta.
    destruct (_ <=? _); [done|]. destruct (randomToken raw); [done|]. by apply Tables_nonces.
  - intros nonce now. unfold spendNonceLocked. destruct (_ !! nonce); [|done]. by apply Tables_nonces.
  - intros token now _.
    destruct (Resolve_cases (gate (server σ)) token now)
      as [(e & _ & _ & _ & ->)|(s' & -> & [->|(e & He & ->)])]; try done.
    apply dropLocked_tables; [|done]. intros e' He'. by simplify_eq.
  - intros i c now raw _ _. by apply Forget_tables.
  - intros i c now raw -> Hi. simpl in Hf. rewrite Hi in Hf.
    destruct (Open (gate (server σ)) c now raw) as [[err|[token ttl]] s'] eqn:Ho.
    + apply Open_refused in Ho as ->. by apply sweepLocked_tables.
    + pose proof (Open_opened _ _ _ _ _ _ _ Ho) as (Hr & _).
      destruct raw as [raw|]; [|done]. simpl in Hr. injection Hr as <-.
      apply bool_decide_eq_true in Hf. by eapply Open_tables.
Qed.

Lemma distinctTokens_ind (P : System → Prop) σ ls :
  P σ → (∀ σ l, freshToken σ l = true → P σ → P (step σ l).1) →
  distinctTokens σ ls = true → ∀ evs, P (foldl (stepOn ed25519Verify) (σ, evs) ls).1.
Proof.
  intros HP Hs. revert σ HP. induction ls as [|l ls IH]; intros σ HP Hd evs; simpl in *; [done|].
  apply andb_true_iff in Hd as [Hf Hd]. pose proof (Hs σ l Hf HP) as HP'.
  destruct (step σ l) as [σ' new]. by apply IH.
Qed.

(** The gate's memory is bounded and its two session tables are one: in every run in
    which no draw repeats a live token, at most 8192 challenges and 16384 sessions are
    held, each circle holds at most 128 of them, its list has exactly the tokens of its
    sessions, once each, and no circle keeps an empty list. *)
Theorem gate_tables_bounded ls :
  distinctTokens start ls = true →
  let s := gate (server (run ls).1) in
  Z.of_nat (size (nonces s)) ≤ 8192 ∧ Z.of_nat (size (sessions s)) ≤ 16384 ∧
  ∀ c, Z.of_nat (length (tokensOf s c)) ≤ 128 ∧ NoDup (tokensOf s c) ∧
       byCredential s !! c ≠ Some [] ∧
       ∀ t, t ∈ tokensOf s c ↔ ∃ e, sessions s !! t = Some e ∧ se_credentialID e = c.
Proof.
  intros Hd s.
  destruct (distinctTokens_ind (λ σ, within (gate (server σ)) ∧ Tables (gate (server σ))) start ls)
    with (evs := @nil event) as [[H1 H2] [Ha Hn He Hcap]]; [| |done|].
  - split; [done | apply NewSessions_tables].
  - intros σ l Hf [? ?]. split; [by apply step_within | by apply step_tables].
  - change (foldl (stepOn ed25519Verify) (start, []) ls) with (run ls) in *. fold s in H1, H2, Ha, Hn, He, Hcap.
    split; [done|]. split; [done|]. intros c. split; [apply Hcap|]. split; [done|]. split; [done|].
    intros t. rewrite Ha, fmap_Some. naive_solver.
Qed.

(** *** A session ends by its own clock or by its own circle *)

Definition clockOf (l : label) : Time :=
  match l with
  | LChallenge now _ | LRedeem _ _ _ now | LAdmit _ now | LRun _ now _ => now
  | LReplace _ => 0
  end.

(** The circle whose sessions the next call of a request in flight may end. *)
Definition concerns (p : inflight) : option string :=
  match p with
  | RedeemForget c | RedeemOpen c | AdmitForget c => Some c
  | RedeemLookup _ | AdmitLookup _ _ _ => None
  end.

Lemma sweepLocked_live s now t e :
  sessions s !! t = Some e → now < se_expiresAt e → sessions (sweepLocked s now) !! t = Some e.
Proof. intros. rewrite sweepLocked_sessions. apply keep_Some. split; [done|]. by apply Z.ltb_lt. Qed.

Lemma Forget_other s c t e :
  Tables s → sessions s !! t = Some e → se_credentialID e ≠ c → sessions (Forget s c) !! t = Some e.
Proof.
  intros Ht He Hc. unfold Forget. cbn [sessions]. rewrite delete_tokens_lookup, decide_False; [done|].
  intros Hin%(tab_agree s Ht). rewrite He in Hin. by injection Hin.
Qed.

(** A circle cannot end another circle's sessions: in every run in which no draw
    repeats a live token, a session that is live at the clock of a step is still there after
    it, with its circle and its expiry unchanged, unless the step is a call made for that
    very circle (opening a further session for it, or forgetting it because its credential
    no longer resolves). *)
Theorem sessions_isolated ls l t e :
  distinctTokens start ls = true → freshToken (run ls).1 l = true →
  sessions (gate (server (run ls).1)) !! t = Some e → clockOf l < se_expiresAt e →
  (∀ i now raw x, l = LRun i now raw → pending (run ls).1 !! i = Some x →
     concerns x ≠ Some (se_credentialID e)) →
  sessions (gate (server (step (run ls).1 l).1)) !! t = Some e.
Proof.
  intros Hd Hf He Hlive Hother.
  pose proof (distinctTokens_ind (λ σ, Tables (gate (server σ))) start ls NewSessions_tables
    step_tables Hd []) as Ht.
  change (foldl (stepOn ed25519Verify) (start, []) ls) with (run ls) in Ht.
  apply (step_gate (λ g, sessions g !! t = Some e)); [done|..].
  - intros now raw ->. pose proof (sweepLocked_live _ now t e He Hlive) as Hs.
    unfold Challenge. cbv zeta. destruct (_ <=? _); [done|]. by destruct (randomToken raw).
  - intros nonce now. unfold spendNonceLocked. by destruct (_ !! nonce).
  - intros token now ->.
    unfold Resolve. destruct (is_empty token); [done|].
    destruct (decide (token = t)) as [->|Hne].
    + rewrite He, (proj2 (Z.ltb_lt now (se_expiresAt e)) Hlive : After _ _ = true). done.
    + destruct (_ !! token) as [e'|]; [|done]. destruct (negb _); [|done]. simpl.
      by rewrite lookup_delete_ne.
  - intros i c now raw Hl Hi. apply Forget_other; [done | done |].
    destruct Hi as [Hi|Hi]; specialize (Hother i now raw _ Hl Hi); simpl in Hother; congruence.
  - intros i c now raw -> Hi. specialize (Hother i now raw _ eq_refl Hi). simpl in *.
    rewrite Hi in Hf. destruct (Open _ c now raw) as [[err|[token ttl]] s'] eqn:Ho.
    + apply Open_refused in Ho as ->. by apply sweepLocked_live.
    + pose proof (Open_opened _ _ _ _ _ _ _ Ho) as (Hr & _).
      destruct raw as [raw|]; [|done]. simpl in Hr. injection Hr as <-.
      apply bool_decide_eq_true in Hf.
      eapply Open_lookup; try done; [congruence | left; congruence].
Qed.
End gate.

(** A concrete exchange: a signature is the digest of the key and the message, then the
    key. *)
Module Sample.
Definition verify (pub msg sig : list Z) : bool :=
  bool_decide (sig = Sha256.Sum256 (pub ++ msg) ++ pub).
Definition pub : list Z := repeat 7 32.
Definition id : string := CredentialID pub.
Definition raw (b : Z) : option (list Z) := Some (repeat b 32).
Definition tokenOf (b : Z) : string := Base64.RawURLEncodeToString (repeat b 32).
Definition sign (nonce : string) : list Z := Sha256.Sum256 (pub ++ Transcript nonce id) ++ pub.
Definition T0 : Time := 1000000 * Hour.
Definition credential : Credential :=
  mkCredential id (mkTerms "crew" (T0 + 48 * Hour) 50 (48 * Hour) 0 2 0 10).
Definition exchange : list label :=
  [LReplace [credential]; LChallenge T0 (raw 1);
   LRedeem id (tokenOf 1) (sign (tokenOf 1)) (T0 + Second);
   LRun 0 (T0 + Second) None; LRun 0 (T0 + Second) (raw 2);
   LAdmit (tokenOf 2) (T0 + Minute)].
Definition grant : Grant := mkGrant 1 id (cr_Terms credential).
End Sample.

(** The exchange admits its last request. *)
Example exchange_admits :
  (step Sample.verify (run Sample.verify Sample.exchange).1 (LRun 0 (Sample.T0 + 2 * Minute) None)).2
  = [Accepted (Sample.tokenOf 2) Sample.grant (Sample.T0 + Minute) (Sample.T0 + 2 * Minute)].
Proof. vm_compute. reflexivity. Qed.

Lemma no_admission_without_proof_witness :
  Accepted (Sample.tokenOf 2) Sample.grant (Sample.T0 + Minute) (Sample.T0 + 2 * Minute)
    ∈ (step Sample.verify (run Sample.verify Sample.exchange).1
         (LRun 0 (Sample.T0 + 2 * Minute) None)).2 ∧
  ∃ t, Opened (ga_ID Sample.grant) (Sample.tokenOf 2) t ∈ (run Sample.verify Sample.exchange).2 ∧
       Sample.T0 + Minute < Add t sessionTTL.
Proof.
  pose proof (list_elem_of_here
    (Accepted (Sample.tokenOf 2) Sample.grant (Sample.T0 + Minute) (Sample.T0 + 2 * Minute)) [])
    as Hacc.
  rewrite <-exchange_admits in Hacc. split; [exact Hacc|].
  exact (proj1 (proj2 (no_admission_without_proof Sample.verify Sample.exchange _ _ _ _ _ Hacc))).
Defined.

Lemma gate_tables_bounded_witness :
  distinctTokens Sample.verify start Sample.exchange = true ∧
  Z.of_nat (size (sessions (gate (server (run Sample.verify Sample.exchange).1)))) ≤ 16384.
Proof.
  assert (distinctTokens Sample.verify start Sample.exchange = true) as Hd
    by (vm_compute; reflexivity).
  split; [exact Hd|].
  exact (proj1 (proj2 (gate_tables_bounded Sample.verify Sample.exchange Hd))).
Defined.

Lemma sessions_isolated_witness :
  let e := mkSessionEntry Sample.id (Sample.T0 + Second + sessionTTL) in
  let l := LChallenge (Sample.T0 + 10 * Minute) (Sample.raw 3) in
  sessions (gate (server (run Sample.verify Sample.exchange).1)) !! Sample.tokenOf 2 = Some e ∧
  sessions (gate (server (step Sample.verify (run Sample.verify Sample.exchange).1 l).1))
    !! Sample.tokenOf 2 = Some e.
Proof.
  intros e l.
  assert (sessions (gate (server (run Sample.verify Sample.exchange).1)) !! Sample.tokenOf 2 = Some e)
    as He by (vm_compute; reflexivity).
  split; [exact He|].
  apply (sessions_isolated Sample.verify Sample.exchange l (Sample.tokenOf 2) e);
    [vm_compute; reflexivity | vm_compute; reflexivity | exact He | vm_compute; reflexivity |].
  intros i now raw x Hl. discriminate Hl.
Defined.
