(* ===== verification/AdmissionLimits.v ===== *)
(** * The admission gate: what a credential may change

    The per-boot index identifies a circle across reloads, and a credential only ever
    lowers a cap of the box: what the queue and the attachment relay accept under a grant
    they accept without one. *)

From S2P Require Import Prelude Crypto Model Capability QueueStore QueueInv QueueSpec QueueSteps QueueProps.
From S2P Require Import Attachment AttachmentProps Admission.

Open Scope Z_scope.

(** ** The per-boot index *)

Definition loads (s : Store) (css : list (list Credential)) : Store := foldl Replace s css.

(** Indexes are given out in order, from one, one per credential ever seen; [n] bounds how
    many credentials were loaded. *)
Record Indexed (n : Z) (ids : gmap string Credential) (ix : gmap string Z) (next : Z) : Prop := {
  ixd_known : ∀ id, is_Some (ids !! id) → is_Some (ix !! id);
  ixd_range : ∀ id i, ix !! id = Some i → 1 ≤ i ≤ next;
  ixd_inj : ∀ id id' i, ix !! id = Some i → ix !! id' = Some i → id = id';
  ixd_next : 0 ≤ next ≤ n;
}.

Lemma replaceOne_indexed n ids ix next c :
  n + 1 < 2 ^ 32 → Indexed n ids ix next →
  let '(ids', ix', next') := replaceOne (ids, ix, next) c in
  Indexed (n + 1) ids' ix' next' ∧ ix ⊆ ix'.
Proof.
  intros Hn [Hk Hr Hi Hx]. unfold replaceOne. destruct (ix !! cr_ID c) as [i|] eqn:Hc.
  - split; [|done]. split; [|done|done|lia].
    intros id [v [[<- _]|[_ Hv]]%lookup_insert_Some]; [by eexists | by apply Hk; eexists].
  - unfold wrap_uint32. rewrite Z.mod_small by lia.
    split; [|by apply insert_subseteq]. split; [| | |lia].
    + intros id Hid. rewrite lookup_insert_is_Some'. rewrite lookup_insert_is_Some' in Hid.
      destruct Hid as [->|Hid]; [by left | right; by apply Hk].
    + intros id i [[_ <-]|[_ Hid]]%lookup_insert_Some; [lia|]. specialize (Hr id i Hid). lia.
    + intros id id' i [[<- <-]|[Hne Hid]]%lookup_insert_Some
        [[<- ?]|[Hne' Hid']]%lookup_insert_Some; try done.
      * specialize (Hr _ _ Hid'). lia.
      * specialize (Hr _ _ Hid). lia.
      * by eapply Hi.
Qed.

Lemma Replace_indexed n s cs :
  n + Z.of_nat (length cs) < 2 ^ 32 →
  Indexed n (credentials s) (index s) (nextIndex s) →
  let s' := Replace s cs in
  Indexed (n + Z.of_nat (length cs)) (credentials s') (index s') (nextIndex s') ∧
  index s ⊆ index s'.
Proof.
  intros Hn [Hk Hr Hi Hx]. unfold Replace.
  assert (Indexed n ∅ (index s) (nextIndex s)) as HI.
  { split; try done. intros id [v Hv]. by rewrite lookup_empty in Hv. }
  clear Hk Hr Hi Hx. revert n HI Hn.
  generalize (index s) as ix, (nextIndex s) as next, (∅ : gmap string Credential) as ids.
  induction cs as [|c cs IH]; intros ix next ids n HI Hn; cbn [foldl length] in *.
  { simpl. split; [|done]. by replace (n + Z.of_nat 0) with n by lia. }
  pose proof (replaceOne_indexed n ids ix next c ltac:(lia) HI) as Hone.
  destruct (replaceOne (ids, ix, next) c) as [[ids' ix'] next']. destruct Hone as [HI' Hsub].
  destruct (IH ix' next' ids' (n + 1) HI' ltac:(lia)) as [HI'' Hsub'].
  destruct (foldl replaceOne (ids', ix', next') cs) as [[ids'' ix''] next'']. simpl in *.
  split; [|by etrans]. by replace (n + Z.of_nat (S (length cs))) with (n + 1 + Z.of_nat (length cs)) by lia.
Qed.

Lemma loads_indexed n s css :
  n + Z.of_nat (length (concat css)) < 2 ^ 32 →
  Indexed n (credentials s) (index s) (nextIndex s) →
  let s' := loads s css in
  Indexed (n + Z.of_nat (length (concat css))) (credentials s') (index s') (nextIndex s') ∧
  index s ⊆ index s'.
Proof.
  revert n s. induction css as [|cs css IH]; intros n s Hn HI; cbn [concat loads foldl] in *.
  { split; [|done]. by replace (n + Z.of_nat (length [])) with n by (simpl; lia). }
  rewrite length_app in *.
  destruct (Replace_indexed n s cs ltac:(lia) HI) as [HI' Hsub].
  destruct (IH (n + Z.of_nat (length cs)) (Replace s cs) ltac:(lia) HI') as [HI'' Hsub'].
  split; [|by etrans]. rewrite Nat2Z.inj_add, Z.add_assoc. exact HI''.
Qed.

Lemma NewStore_indexed : Indexed 0 (credentials NewStore) (index NewStore) (nextIndex NewStore).
Proof.
  split; simpl; [intros id [v Hv] | intros id i Hi | intros id id' i Hi |]; rewrite ?lookup_empty in *; try done.
Qed.

Lemma Lookup_grant s id now g :
  Lookup s id now = inr g → is_Some (credentials s !! id) ∧ ga_ID g = id ∧ ga_Index g = default 0 (index s !! id).
Proof.
  unfold Lookup. destruct (credentials s !! id); [|done]. destruct (negb _); [done|].
  intros [= <-]. by split_and!.
Qed.

(** The index a grant carries names its circle for the whole boot: over any reloads
    of fewer than 2^32 credentials in all, a grant resolved at one point and a grant
    resolved after further reloads have the same index exactly when they are of the same
    credential, even one that was revoked and re-added in between; and the index is never
    the zero of an unattributed request. *)
Theorem index_names_credential css1 css2 id1 id2 now1 now2 g1 g2 :
  Z.of_nat (length (concat (css1 ++ css2))) < 2 ^ 32 →
  Lookup (loads NewStore css1) id1 now1 = inr g1 →
  Lookup (loads (loads NewStore css1) css2) id2 now2 = inr g2 →
  isAdmitted g1 = true ∧ isAdmitted g2 = true ∧ (ga_Index g1 = ga_Index g2 ↔ id1 = id2).
Proof.
  intros Hn [Hk1 [_ Hi1]]%Lookup_grant [Hk2 [_ Hi2]]%Lookup_grant.
  rewrite concat_app, length_app in Hn.
  destruct (loads_indexed 0 NewStore css1 ltac:(lia) NewStore_indexed) as [HI1 _].
  destruct (loads_indexed (0 + Z.of_nat (length (concat css1))) _ css2 ltac:(lia) HI1) as [HI2 Hsub].
  destruct (ixd_known _ _ _ _ HI1 id1 Hk1) as [i1 Hx1].
  destruct (ixd_known _ _ _ _ HI2 id2 Hk2) as [i2 Hx2].
  pose proof (lookup_weaken _ _ _ _ Hx1 Hsub) as Hx1'.
  rewrite Hx1 in Hi1. rewrite Hx2 in Hi2. simpl in *.
  pose proof (ixd_range _ _ _ _ HI1 _ _ Hx1). pose proof (ixd_range _ _ _ _ HI2 _ _ Hx2).
  unfold isAdmitted. rewrite Hi1, Hi2. split_and!.
  - apply negb_true_iff, Z.eqb_neq. lia.
  - apply negb_true_iff, Z.eqb_neq. lia.
  - split; [intros ->; by eapply (ixd_inj _ _ _ _ HI2) | congruence].
Qed.

Lemma index_names_credential_witness :
  let cr id := mkCredential id (mkTerms "crew" 100 0 0 0 0 0 0) in
  ∃ g1 g2,
    Lookup (loads NewStore [[cr "a"; cr "b"]]) "b" 1 = inr g1 ∧
    Lookup (loads (loads NewStore [[cr "a"; cr "b"]]) [[cr "a"]; [cr "c"; cr "b"]]) "b" 2 = inr g2 ∧
    (ga_Index g1 = ga_Index g2 ↔ "b" = "b").
Proof.
  eexists _, _. split; [vm_compute; reflexivity|]. split; [vm_compute; reflexivity|].
  eapply index_names_credential with (now1 := 1) (now2 := 2)
    (css1 := [[mkCredential "a" (mkTerms "crew" 100 0 0 0 0 0 0);
               mkCredential "b" (mkTerms "crew" 100 0 0 0 0 0 0)]])
    (css2 := [[mkCredential "a" (mkTerms "crew" 100 0 0 0 0 0 0)];
              [mkCredential "c" (mkTerms "crew" 100 0 0 0 0 0 0);
               mkCredential "b" (mkTerms "crew" 100 0 0 0 0 0 0)]]);
    [simpl; lia | vm_compute; reflexivity | vm_compute; reflexivity].
Defined.

(** ** A credential only lowers *)

Lemma queue_lowerOf_le box c : QueueStore.lowerOf box c ≤ box.
Proof. unfold QueueStore.lowerOf. guards; reflect_bools; lia. Qed.

Lemma retention_lowers box c : lowerOfDuration box c ≤ box.
Proof. unfold lowerOfDuration. guards; reflect_bools; lia. Qed.

Lemma attachment_lowerOf_le box c : Attachment.lowerOf box c ≤ box.
Proof. unfold Attachment.lowerOf. guards; reflect_bools; lia. Qed.

(** A later clamp lets the same envelope through, with an expiry at least as late. *)
Lemma checkEnvelope_later c now max max' e m :
  max ≤ max' → checkEnvelope c now max e = inr m →
  ∃ exp, m_ExpiresAt m ≤ exp ∧ checkEnvelope c now max' e = inr (with_m_ExpiresAt exp m).
Proof.
  intros Hle. unfold checkEnvelope.
  destruct (envelopeIncomplete e); [done|]. destruct (_ <? len _); [done|].
  set (e1 := if IsZero (m_CreatedAt e) then _ else e). clearbody e1.
  set (e2 := if IsZero (m_ExpiresAt e1) then _ else e1). clearbody e2. cbv zeta.
  destruct (After (m_ExpiresAt e2) max) eqn:H1, (After (m_ExpiresAt e2) max') eqn:H2; cbn [m_ExpiresAt with_m_ExpiresAt];
    intros Hok; destruct e2; simpl in *;
    destruct (negb (After _ now)) eqn:H3 in Hok; try done; injection Hok as <-; simpl; reflect_bools.
  - exists max'. split; [done|]. unfold After. rewrite (proj2 (Z.ltb_lt now max')) by lia. done.
  - exists m_ExpiresAt. split; [lia|]. unfold After. rewrite (proj2 (Z.ltb_lt now m_ExpiresAt)) by lia. done.
  - lia.
  - exists m_ExpiresAt. split; [lia|]. unfold After. rewrite (proj2 (Z.ltb_lt now m_ExpiresAt)) by lia. done.
Qed.

Lemma postable_zero s now g exp m :
  postable s now g m → postable s now QueueStore.zeroGrant (with_m_ExpiresAt exp m).
Proof.
  intros (H1 & H2 & H3 & _ & H5 & H6 & H7). destruct m. unfold postable.
  split_and!; try done; [|by left].
  eapply Z.lt_le_trans; [exact H3 | apply queue_lowerOf_le].
Qed.

Lemma openSession_zero `{!GoRuntime} r now c g s r' :
  openSession r now c g = inr (s, r') →
  ∃ s0 r0, openSession r now c Attachment.zeroGrant = inr (s0, r0) ∧
    (s0 = s ∧ r0 = r' ∨ s = newSession c now (Attachment.g_Credential g) ∧ s0 = newSession c now 0 ∧
                        maxWindow r0 = maxWindow r' ∧ maxAttachmentBytes r0 = maxAttachmentBytes r' ∧
                        transit r0 = transit r').
Proof.
  unfold openSession. destruct (_ !! c_Capability c) as [s0|].
  { intros [= <- <-]. eauto 10. }
  destruct (_ <=? _); [done|]. destruct (negb _ && _ && _); [done|]. intros [= <- <-]. simpl. eauto 10.
Qed.

Lemma checkSession_zero r r0 s s0 now c g :
  (s0 = s ∧ r0 = r ∨ s = newSession c now (Attachment.g_Credential g) ∧ s0 = newSession c now 0 ∧
                     maxWindow r0 = maxWindow r ∧ maxAttachmentBytes r0 = maxAttachmentBytes r ∧
                     transit r0 = transit r) →
  checkSession r s now c g = None → checkSession r0 s0 now c Attachment.zeroGrant = None.
Proof.
  pose proof (attachment_lowerOf_le (maxAttachmentBytes r) (g_AttachmentBytes g)) as Hle.
  intros Hor. unfold checkSession.
  assert (s_transferID s0 = s_transferID s ∧ s_recipient s0 = s_recipient s ∧
          s_totalChunks s0 = s_totalChunks s ∧ s_seen s0 = s_seen s ∧ s_window s0 = s_window s ∧
          s_pushedBytes s0 = s_pushedBytes s ∧ maxWindow r0 = maxWindow r ∧
          maxAttachmentBytes r0 = maxAttachmentBytes r)
    as (-> & -> & -> & -> & -> & -> & -> & ->) by (destruct Hor as [[-> ->]|(-> & -> & ? & ? & ?)]; done).
  destruct (negb _ || _ || _); [done|]. destruct (seenBit _ _); [done|].
  destruct (_ <=? Z.of_nat _); [done|]. destruct (negb _ && _ && _); [done|].
  rewrite andb_false_r. simpl. unfold Attachment.lowerOf at 2. simpl.
  destruct (Attachment.lowerOf _ _ <? _) eqn:H1; [done|]. intros _.
  destruct (maxAttachmentBytes r <? _) eqn:H2; [|done]. reflect_bools. lia.
Qed.

(** C40: A credential may lower a cap of the box and never raise one: whatever the queue
    accepts under the grant of any credential, whatever numbers its terms hold, it accepts
    from an unattributed sender in the same state, keeping the record at least as long;
    and whatever chunk the attachment relay accepts under it, it accepts without it. *)
Theorem credential_only_lowers `{!GoRuntime} (g : Admission.Grant) s r now e nodeID chunk :
  QueueInv.Inv s → 0 ≤ now →
  (∀ ack s', AddMessageWithGrant s now e nodeID (queueGrant g) = ((ack, None), s') →
     ∃ ack0 s0, AddMessageWithGrant s now e nodeID QueueStore.zeroGrant = ((ack0, None), s0) ∧
                a_ID ack0 = a_ID ack ∧ a_ExpiresAt ack ≤ a_ExpiresAt ack0) ∧
  ((PushWithGrant r now chunk (attachmentGrant g)).1 = None →
   (PushWithGrant r now chunk Attachment.zeroGrant).1 = None).
Proof.
  intros HI Hnow. split.
  - intros ack s' Hadd. pose proof (post_cases s now e nodeID (queueGrant g) HI Hnow) as Hc.
    rewrite Hadd in Hc. destruct (prepared s now e (queueGrant g)) as [err|m] eqn:Hp; [naive_solver|].
    destruct Hc as [[Hpost [= -> ->]]|[_ (? & ? & ?)]]; [|naive_solver].
    destruct (checkEnvelope_later _ _ _ (Add now (lowerOfDuration (MaxTTL (cfg s)) 0)) _ _
      (proj1 (Z.add_le_mono_l _ _ now) (retention_lowers _ _)) Hp) as (exp & Hexp & Hp0).
    pose proof (post_cases s now e nodeID QueueStore.zeroGrant HI Hnow) as Hc0.
    unfold prepared in Hc0. cbn [QueueStore.g_Retention QueueStore.zeroGrant] in Hc0. rewrite Hp0 in Hc0.
    destruct Hc0 as [[_ Hc0]|[Hno _]]; [|by destruct Hno; eapply postable_zero].
    eexists _, _. split; [exact Hc0|]. by destruct m.
  - unfold PushWithGrant. destruct (checkChunk _ _); [done|].
    destruct (openSession _ _ _ (attachmentGrant g)) as [err|[sess r']] eqn:Ho; [done|].
    destruct (openSession_zero _ _ _ _ _ _ Ho) as (s0 & r0 & -> & Hor).
    destruct (checkSession r' _ _ _ _) eqn:Hc; [done|]. intros _.
    by rewrite (checkSession_zero _ _ _ _ _ _ _ Hor Hc).
Qed.

Lemma credential_only_lowers_witness :
  let g := mkGrant 3 "id" (mkTerms "crew" 100 5 (2 * Hour) 200 1 0 4) in
  let e := QueueSteps.Sample.envelope "m2" "" "" in
  ∃ ack s' ack0 s0,
    AddMessageWithGrant QueueSteps.Sample.one 2000 e "node" (queueGrant g) = ((ack, None), s') ∧
    AddMessageWithGrant QueueSteps.Sample.one 2000 e "node" QueueStore.zeroGrant = ((ack0, None), s0).
Proof.
  intros g e.
  destruct (AddMessageWithGrant QueueSteps.Sample.one 2000 e "node" (queueGrant g)) as [[ack [err|]] s'] eqn:E.
  - exfalso. assert ((AddMessageWithGrant QueueSteps.Sample.one 2000 e "node" (queueGrant g)).1.2 = None) as E'
      by (vm_compute; reflexivity). rewrite E in E'. discriminate E'.
  - pose proof (proj1 (credential_only_lowers g QueueSteps.Sample.one
      (NewRelay 2 100 250 4 (30 * Second)) 2000 e "node"
      (mkChunk "" "" "" "" 0 0 "" 0 0 0) QueueSteps.Sample.one_inv ltac:(lia)) ack s' E) as Hz.
    destruct Hz as (ack0 & s0 & H0 & _). exists ack, s', ack0, s0. split; [reflexivity | exact H0].
Defined.
