(* ===== verification/Strconv.v ===== *)
(** * Decimal numbers and fields of strings

    What the relay uses of [strconv] and [strings]: [FormatUint] and [ParseUint] in base
    ten, [Atoi], [ParseBool], [Fields], [Split] at a comma and [TrimRight] of slashes, on the
    bytes of a string. *)

From S2P Require Import Prelude.

Open Scope Z_scope.

(** ** Numbers *)

(** The digits of a number, before those in [acc]; twenty digits are enough for 64 bits. *)
Fixpoint decimal (fuel : nat) (n : Z) (acc : list Z) : list Z :=
  match fuel with
  | O => acc
  | S fuel => let acc := (48 + n mod 10) :: acc in
              if n <? 10 then acc else decimal fuel (n / 10) acc
  end.

Definition FormatUint (n : Z) : string := string_of_bytes (decimal 20 n []).

Definition isDigit (b : Z) : bool := (48 <=? b) && (b <=? 57).

Definition digitsValue (l : list Z) : Z := foldl (λ n b, n * 10 + (b - 48)) 0 l.

(** A non-empty string of digits below a bound. *)
Definition parseDigits (max : Z) (l : list Z) : option Z :=
  match l with
  | [] => None
  | _ => if forallb isDigit l && (digitsValue l <=? max) then Some (digitsValue l) else None
  end.

Definition ParseUint (s : string) : option Z := parseDigits (2 ^ 64 - 1) (bytes_of_string s).

(** [Atoi]: an optional sign, then digits, within the range of [int]. *)
Definition Atoi (s : string) : option Z :=
  match bytes_of_string s with
  | 43 :: l => parseDigits int64_max l
  | 45 :: l => Z.opp <$> parseDigits (2 ^ 63) l
  | l => parseDigits int64_max l
  end.

Definition ParseBool (s : string) : option bool :=
  if bool_decide (s ∈ ["1"; "t"; "T"; "true"; "TRUE"; "True"]%string) then Some true else
  if bool_decide (s ∈ ["0"; "f"; "F"; "false"; "FALSE"; "False"]%string) then Some false else None.

Lemma decimal_app fuel n acc : decimal fuel n acc = decimal fuel n [] ++ acc.
Proof.
  revert n acc. induction fuel as [|fuel IH]; intros n acc; [done|]. cbn [decimal].
  destruct (n <? 10); [done|]. rewrite IH, (IH _ [_]), <-app_assoc. done.
Qed.

Lemma digitsValue_snoc l b : digitsValue (l ++ [b]) = digitsValue l * 10 + (b - 48).
Proof. unfold digitsValue. by rewrite foldl_app. Qed.

Lemma decimal_digits fuel n :
  0 ≤ n < 10 ^ Z.of_nat fuel →
  digitsValue (decimal fuel n []) = n ∧ forallb isDigit (decimal fuel n []) = true.
Proof.
  revert n. induction fuel as [|fuel IH]; intros n Hn.
  { simpl in *. unfold digitsValue. simpl. lia. }
  assert (isDigit (48 + n mod 10) = true) as Hd.
  { pose proof (Z.mod_pos_bound n 10 ltac:(lia)). unfold isDigit.
    rewrite andb_true_iff, !Z.leb_le. lia. }
  cbn [decimal]. destruct (Z.ltb_spec n 10) as [Hlt|Hge].
  - rewrite Z.mod_small in * by lia. unfold digitsValue. simpl. rewrite Hd. split; [lia|done].
  - rewrite decimal_app, digitsValue_snoc, forallb_app.
    destruct (IH (n / 10)) as [-> ->].
    { rewrite Nat2Z.inj_succ, Z.pow_succ_r in Hn by lia. split; [apply Z.div_pos; lia|].
      apply Z.div_lt_upper_bound; lia. }
    split; [pose proof (Z.div_mod n 10 ltac:(lia)); lia | simpl; by rewrite Hd].
Qed.

Lemma decimal_nonempty fuel n : (0 < fuel)%nat → decimal fuel n [] ≠ [].
Proof.
  destruct fuel as [|fuel]; [lia|]. intros _. cbn [decimal]. destruct (n <? 10); [done|].
  rewrite decimal_app. by destruct (decimal fuel (n / 10) []).
Qed.

Lemma isDigit_byte l : forallb isDigit l = true → Forall (λ b, 0 ≤ b < 256) l.
Proof.
  rewrite forallb_forall, Forall_forall. intros Hl b Hb.
  apply list_elem_of_In, Hl in Hb. unfold isDigit in Hb. reflect_bools. lia.
Qed.

(** A number written by [FormatUint] is read back by [ParseUint]. *)
Lemma ParseUint_FormatUint n : 0 ≤ n < 2 ^ 64 → ParseUint (FormatUint n) = Some n.
Proof.
  intros Hn. destruct (decimal_digits 20 n ltac:(lia)) as [Hv Hd].
  unfold ParseUint, FormatUint. rewrite bytes_of_string_of_bytes by by apply isDigit_byte.
  unfold parseDigits. rewrite Hd, Hv. rewrite (proj2 (Z.leb_le n (2 ^ 64 - 1))) by lia.
  pose proof (decimal_nonempty 20 n ltac:(lia)). by destruct (decimal 20 n []).
Qed.

Lemma FormatUint_nonempty n : 0 ≤ n < 2 ^ 64 → FormatUint n ≠ ""%string.
Proof. intros Hn Hf. pose proof (ParseUint_FormatUint n Hn) as Hp. by rewrite Hf in Hp. Qed.

Lemma FormatUint_inj n m : 0 ≤ n < 2 ^ 64 → 0 ≤ m < 2 ^ 64 → FormatUint n = FormatUint m → n = m.
Proof.
  intros Hn Hm He. apply ParseUint_FormatUint in Hn, Hm. rewrite He in Hn. congruence.
Qed.

(** ** Splitting *)

(** [strings.Fields]: the maximal runs of bytes that are not white space. [word] holds the
    run being read, last byte first; the length of the string is enough fuel. *)
Fixpoint fieldsFrom (fuel : nat) (word l : list Z) : list (list Z) :=
  let close := if bool_decide (word = []) then [] else [reverse word] in
  match fuel, l with
  | S fuel, b :: rest =>
      match space_prefix l with
      | O => fieldsFrom fuel (b :: word) rest
      | S k => close ++ fieldsFrom fuel [] (drop k rest)
      end
  | _, _ => close
  end.

Definition Fields (s : string) : list string :=
  let l := bytes_of_string s in string_of_bytes <$> fieldsFrom (length l) [] l.

(** [strings.Split] at a one-byte separator. *)
Fixpoint splitAt (sep : Z) (word l : list Z) : list (list Z) :=
  match l with
  | [] => [reverse word]
  | b :: l => if b =? sep then reverse word :: splitAt sep [] l else splitAt sep (b :: word) l
  end.

Definition SplitComma (s : string) : list string :=
  string_of_bytes <$> splitAt 44 [] (bytes_of_string s).

(** [strings.TrimRight(s, slash)], on the reversed bytes. *)
Fixpoint dropSlashes (l : list Z) : list Z :=
  match l with
  | b :: rest => if b =? 47 then dropSlashes rest else l
  | [] => []
  end.

Definition TrimRightSlash (s : string) : string :=
  string_of_bytes (reverse (dropSlashes (reverse (bytes_of_string s)))).

Example fields_of : Fields "  one two  three " = ["one"; "two"; "three"]%string.
Proof. by vm_compute. Qed.

Example split_of : SplitComma "a,,b" = ["a"; ""; "b"]%string.
Proof. by vm_compute. Qed.

Example trim_of : TrimRightSlash "http://x/a//" = "http://x/a"%string.
Proof. by vm_compute. Qed.

Example atoi_of : (Atoi "-12", Atoi "+7", Atoi "9223372036854775808", Atoi "-9223372036854775808", Atoi "")
  = (Some (-12), Some 7, None, Some (- 2 ^ 63), None).
Proof. by vm_compute. Qed.
