(* ===== verification/Code.v ===== *)
(** * Redemption codes ([internal/admission/credential.go])

    A code is 128 random bits in Crockford base32. [NewCode] writes it with a 32-bit
    accumulator; [NormalizeCode] undoes what a human does to it; [KeyFromCode] derives the
    credential from the result. [ed25519.NewKeyFromSeed] is a parameter. *)

From S2P Require Import Prelude Crypto Admission.

Open Scope Z_scope.

Definition keyDomain : string := "deechat.admission-key.v1|".

Definition codeAlphabet : string := "0123456789ABCDEFGHJKMNPQRSTVWXYZ".

Definition CodeBytes : nat := 16.

Definition codeDigit (z : Z) : Z := nth (Z.to_nat z) (bytes_of_string codeAlphabet) 0.

(** [for bits >= 5 { ... }]: digits out of the accumulator, while it has five bits. A byte
    leaves at most twelve bits, so two turns are enough; [fuel] is three. *)
Fixpoint emitDigits (fuel : nat) (acc bits : Z) : list Z * Z :=
  match fuel with
  | O => ([], bits)
  | S fuel => if 5 <=? bits then
                let bits := bits - 5 in
                let '(out, rest) := emitDigits fuel acc bits in
                (Z.land (Z.shiftr acc bits) 31 :: out, rest)
              else ([], bits)
  end.

(** One turn of the loop over the bytes; [acc] is a [uint32]. *)
Definition codeByte (st : list Z * Z * Z) (b : Z) : list Z * Z * Z :=
  let '(out, acc, bits) := st in
  let acc := Z.lor (wrap_uint32 (Z.shiftl acc 8)) b in
  let '(digits, bits) := emitDigits 3 acc (bits + 8) in
  (out ++ digits, acc, bits).

Definition codeDigits (raw : list Z) : list Z :=
  let '(out, acc, bits) := foldl codeByte ([], 0, 0) raw in
  if 0 <? bits then out ++ [Z.land (wrap_uint32 (Z.shiftl acc (5 - bits))) 31] else out.

(** [NewCode] on the bytes [crypto/rand] gave. *)
Definition NewCode (raw : list Z) : string := string_of_bytes (codeDigit <$> codeDigits raw).

(** One byte of the trimmed code, with the byte after it: [strings.ToUpper] maps the ASCII
    letters, and of all other runes only the dotless i (C4 B1) and the long s (C5 BF) to a
    letter of the alphabet or to one the switch names; every other rune is dropped, and the
    bytes of a dropped rune are not ASCII. *)
Definition normalizeByte (b : Z) (next : option Z) : list Z :=
  if (b =? 0xC4) && bool_decide (next = Some 0xB1) then [49] else
  if (b =? 0xC5) && bool_decide (next = Some 0xBF) then [83] else
  let r := if (97 <=? b) && (b <=? 122) then b - 32 else b in
  if r =? 79 then [48] else
  if (r =? 73) || (r =? 76) then [49] else
  if r =? 85 then [85] else
  if bool_decide (r ∈ bytes_of_string codeAlphabet) then [r] else [].

Fixpoint normalizeBytes (l : list Z) : list Z :=
  match l with
  | [] => []
  | b :: rest => normalizeByte b (head rest) ++ normalizeBytes rest
  end.

Definition NormalizeCode (code : string) : string :=
  string_of_bytes (normalizeBytes (bytes_of_string (TrimSpace code))).

Section keys.
Context (NewKeyFromSeed : list Z → list Z * list Z).

(** The private key and the id of the public one. *)
Definition KeyFromCode (code : string) : list Z * string :=
  let seed := Sha256.Sum256 (bytes_of_string (keyDomain +:+ NormalizeCode code)) in
  let '(key, pub) := NewKeyFromSeed seed in (key, CredentialID pub).
End keys.

Example newcode_zero : NewCode (repeat 0 16) = "00000000000000000000000000"%string.
Proof. by vm_compute. Qed.

Example newcode_bytes :
  NewCode [0xde; 0xad; 0xbe; 0xef; 1; 2; 3; 4; 5; 6; 7; 8; 9; 10; 11; 12] = "VTPVXVR1081G81860W40J2GB1G"%string.
Proof. vm_compute. reflexivity. Qed.

Example normalize_transcribed : NormalizeCode " vtpv-xvrl o81g " = "VTPVXVR1081G"%string.
Proof. by vm_compute. Qed.
