(* ===== verification/CodeProps.v ===== *)
(** * Redemption codes: what a code carries and survives

    A minted code is 26 letters of the alphabet and carries its 128 bits exactly; what a
    human does to it in transcription does not change the credential it derives. *)

From S2P Require Import Prelude Crypto Admission Code.

Open Scope Z_scope.

(** ** The bits of a code *)

(** The number a list of digits stands for, most significant first. *)
Definition valueIn (base : Z) (v : Z) (l : list Z) : Z := foldl (λ n d, n * base + d) v l.

Lemma valueIn_app base v l k : valueIn base v (l ++ k) = valueIn base (valueIn base v l) k.
Proof. apply foldl_app. Qed.

Lemma land31 x : Z.land x 31 = x mod 32.
Proof. change 31 with (Z.ones 5). by rewrite Z.land_ones. Qed.

(** The accumulator holds the low bits of the number read so far, the digits out are its
    high bits. *)
Lemma emitDigits_spec fuel acc bits P V out rest :
  0 ≤ bits < 5 * Z.of_nat fuel → 0 ≤ P → acc mod 2 ^ bits = P mod 2 ^ bits → V = P / 2 ^ bits →
  emitDigits fuel acc bits = (out, rest) →
  valueIn 32 V out = P / 2 ^ rest ∧ 0 ≤ rest < 5 ∧ acc mod 2 ^ rest = P mod 2 ^ rest ∧
  Forall (λ d, 0 ≤ d < 32) out ∧ bits = 5 * Z.of_nat (length out) + rest.
Proof.
  revert bits V out rest. induction fuel as [|fuel IH]; intros bits V out rest Hb HP Hacc HV; [lia|].
  cbn [emitDigits]. destruct (Z.leb_spec 5 bits) as [Hge|Hlt].
  2:{ intros [= <- <-]. split_and!; try done; simpl; lia. }
  destruct (emitDigits fuel acc (bits - 5)) as [out' rest'] eqn:He. intros [= <- <-].
  assert (2 ^ bits = 2 ^ (bits - 5) * 32) as Hpow.
  { change 32 with (2 ^ 5). rewrite <-Z.pow_add_r by lia. f_equal. lia. }
  pose proof (Z.pow_pos_nonneg 2 (bits - 5) ltac:(lia) ltac:(lia)) as Hpos.
  assert (acc mod 2 ^ (bits - 5) = P mod 2 ^ (bits - 5) ∧
          Z.land (Z.shiftr acc (bits - 5)) 31 = (P / 2 ^ (bits - 5)) mod 32) as [Hlow Hdig].
  { rewrite land31, Z.shiftr_div_pow2 by lia. rewrite Hpow in Hacc.
    generalize dependent (2 ^ (bits - 5)). intros k Hacc _ Hk.
    rewrite !Z.rem_mul_r in Hacc by lia.
    pose proof (Z.mod_pos_bound acc k Hk). pose proof (Z.mod_pos_bound P k Hk).
    pose proof (Z.mod_pos_bound (acc / k) 32 ltac:(lia)). pose proof (Z.mod_pos_bound (P / k) 32 ltac:(lia)).
    assert ((acc / k) mod 32 = (P / k) mod 32) by nia. split; nia. }
  destruct (IH (bits - 5) (P / 2 ^ (bits - 5)) out' rest') as (Hv & Hr & Ha & Hf & Hl); try done; try lia.
  split_and!; try done.
  - unfold valueIn in *. cbn [foldl]. rewrite <-Hv. f_equal. rewrite HV, Hpow, Hdig.
    rewrite <-Z.div_div by lia. pose proof (Z.div_mod (P / 2 ^ (bits - 5)) 32 ltac:(lia)). lia.
  - lia.
  - lia.
  - constructor; [|done]. rewrite Hdig. apply Z.mod_pos_bound. lia.
  - cbn [length]. lia.
Qed.

Definition codeState (P : Z) (n : nat) (st : list Z * Z * Z) : Prop :=
  let '(out, acc, bits) := st in
  valueIn 32 0 out = P / 2 ^ bits ∧ 0 ≤ bits < 5 ∧ acc mod 2 ^ bits = P mod 2 ^ bits ∧
  Forall (λ d, 0 ≤ d < 32) out ∧ 8 * Z.of_nat n = 5 * Z.of_nat (length out) + bits ∧ 0 ≤ P.

Lemma lor_low_byte x b : 0 ≤ b < 256 → Z.lor (wrap_uint32 (Z.shiftl x 8)) b = (x * 256) mod 2 ^ 32 + b.
Proof.
  intros Hb. unfold wrap_uint32. rewrite Z.shiftl_mul_pow2 by lia. change (2 ^ 8) with 256.
  assert (Z.land ((x * 256) mod 2 ^ 32) b = 0) as Hdisj.
  { apply Z.bits_inj'. intros i Hi. rewrite Z.land_spec, Z.bits_0.
    destruct (Z.lt_ge_cases i 8) as [Hlt|Hge].
    - rewrite Z.mod_pow2_bits_low by lia. change 256 with (2 ^ 8).
      by rewrite Z.mul_pow2_bits_low by lia.
    - rewrite <-(Z.mod_small b (2 ^ 8)) by (change (2 ^ 8) with 256; lia).
      by rewrite (Z.mod_pow2_bits_high b), andb_false_r by lia. }
  by rewrite <-Z.lxor_lor, <-Z.add_nocarry_lxor.
Qed.

Lemma codeByte_state P n st b :
  0 ≤ b < 256 → codeState P n st → codeState (P * 256 + b) (S n) (codeByte st b).
Proof.
  destruct st as [[out acc] bits]. intros Hb (Hv & Hr & Ha & Hf & Hl & HP). unfold codeByte.
  rewrite lor_low_byte by done.
  set (acc' := (acc * 256) mod 2 ^ 32 + b). set (P' := P * 256 + b).
  assert (acc' mod 2 ^ (bits + 8) = P' mod 2 ^ (bits + 8) ∧ P / 2 ^ bits = P' / 2 ^ (bits + 8)) as [Hm Hq].
  { unfold acc', P'. clear Hv Hl Hf.
    assert (bits = 0 ∨ bits = 1 ∨ bits = 2 ∨ bits = 3 ∨ bits = 4) as Hcases by lia.
    destruct Hcases as [-> | [-> | [-> | [-> | ->]]]]; clear Hr;
      repeat match goal with |- context [2 ^ ?e] => let v := eval vm_compute in (2 ^ e) in change (2 ^ e) with v end;
      repeat match goal with H : context [2 ^ ?e] |- _ => let v := eval vm_compute in (2 ^ e) in change (2 ^ e) with v in H end;
      split; Z.to_euclidean_division_equations; lia. }
  destruct (emitDigits 3 acc' (bits + 8)) as [digits rest] eqn:He.
  destruct (emitDigits_spec 3 acc' (bits + 8) P' (P / 2 ^ bits) digits rest) as (Hv' & Hr' & Ha' & Hf' & Hl');
    try done; [lia | unfold P'; lia |].
  split_and!; try done; try (unfold P'; lia).
  - by rewrite valueIn_app, Hv.
  - by apply Forall_app.
  - rewrite length_app. lia.
Qed.

Lemma codeBytes_state raw P n st :
  Forall (λ b, 0 ≤ b < 256) raw → codeState P n st →
  codeState (valueIn 256 P raw) (n + length raw) (foldl codeByte st raw).
Proof.
  revert P n st. induction raw as [|b raw IH]; intros P n st Hraw Hst; simpl.
  { by rewrite Nat.add_0_r. }
  apply Forall_cons in Hraw as [Hb Hraw]. rewrite Nat.add_succ_r, <-Nat.add_succ_l.
  by apply IH, codeByte_state.
Qed.

(** The digits of a code: 26 of them, the number of the sixteen bytes times four. *)
Lemma codeDigits_value raw :
  Forall (λ b, 0 ≤ b < 256) raw → length raw = CodeBytes →
  length (codeDigits raw) = 26%nat ∧ Forall (λ d, 0 ≤ d < 32) (codeDigits raw) ∧
  valueIn 32 0 (codeDigits raw) = valueIn 256 0 raw * 4.
Proof.
  intros Hraw Hlen. unfold codeDigits.
  assert (codeState 0 0 ([], 0, 0)) as H0.
  { split_and!; try done; simpl; lia. }
  pose proof (codeBytes_state raw 0 0 ([], 0, 0) Hraw H0) as Hst. rewrite Hlen in Hst.
  destruct (foldl codeByte ([], 0, 0) raw) as [[out acc] bits].
  destruct Hst as (Hv & Hr & Ha & Hf & Hl & HP). unfold CodeBytes in Hl.
  assert (bits = 3 ∧ length out = 25%nat) as [-> Ho] by lia. clear Hr Hl. cbn [Z.ltb Z.compare].
  set (V := valueIn 256 0 raw) in *.
  assert (Z.land (wrap_uint32 (Z.shiftl acc (5 - 3))) 31 = V mod 8 * 4) as Hd.
  { rewrite land31. unfold wrap_uint32. rewrite Z.shiftl_mul_pow2 by lia.
    change (2 ^ (5 - 3)) with 4. change (2 ^ 32) with 4294967296. change (2 ^ 3) with 8 in Ha.
    clear Hv. Z.to_euclidean_division_equations. lia. }
  rewrite Hd. split_and!.
  - rewrite length_app, Ho. done.
  - apply Forall_app. split; [done|]. constructor; [|constructor].
    pose proof (Z.mod_pos_bound V 8 ltac:(lia)). lia.
  - rewrite valueIn_app, Hv. unfold valueIn. simpl. change (2 ^ 3) with 8.
    pose proof (Z.div_mod V 8 ltac:(lia)). lia.
Qed.

Lemma valueIn_inj base l k v w :
  Forall (λ d, 0 ≤ d < base) l → Forall (λ d, 0 ≤ d < base) k → length l = length k →
  valueIn base v l = valueIn base w k → v = w ∧ l = k.
Proof.
  revert k v w. induction l as [|x l IH]; intros k v w Hl Hk Hlen Heq; destruct k as [|y k]; try done.
  apply Forall_cons in Hl as [Hx Hl], Hk as [Hy Hk]. injection Hlen as Hlen.
  destruct (IH k (v * base + x) (w * base + y) Hl Hk Hlen Heq) as [Hvw ->].
  assert (v = w) as -> by nia. split; [done|]. f_equal. lia.
Qed.

Lemma codeDigits_inj raw raw' :
  Forall (λ b, 0 ≤ b < 256) raw → Forall (λ b, 0 ≤ b < 256) raw' →
  length raw = CodeBytes → length raw' = CodeBytes →
  codeDigits raw = codeDigits raw' → raw = raw'.
Proof.
  intros H H' Hl Hl' Heq. destruct (codeDigits_value raw H Hl) as (_ & _ & Hv).
  destruct (codeDigits_value raw' H' Hl') as (_ & _ & Hv').
  apply (valueIn_inj 256 raw raw' 0 0); try done; [congruence|]. rewrite Heq in Hv. lia.
Qed.

(** ** The letters of a code *)

Definition alphabet : list Z := bytes_of_string codeAlphabet.

(** What holds of all thirty-two digits. *)
Lemma digit_ind (P : Z → bool) :
  forallb P (seqZ 0 32) = true → ∀ d, 0 ≤ d < 32 → P d = true.
Proof.
  intros HP d Hd. rewrite forallb_forall in HP. apply HP, list_elem_of_In, elem_of_seqZ. lia.
Qed.

Lemma codeDigit_alphabet d : 0 ≤ d < 32 → codeDigit d ∈ alphabet.
Proof.
  intros Hd. apply (bool_decide_eq_true (codeDigit d ∈ alphabet)). revert d Hd.
  apply (digit_ind (λ d, bool_decide (codeDigit d ∈ alphabet))). by vm_compute.
Qed.

Lemma codeDigit_inj d d' : 0 ≤ d < 32 → 0 ≤ d' < 32 → codeDigit d = codeDigit d' → d = d'.
Proof.
  assert (∀ d, 0 ≤ d < 32 →
    default 32 (Z.of_nat <$> (fst <$> list_find (λ b, b = codeDigit d) alphabet)) = d) as Hinv.
  { intros e He. apply Z.eqb_eq. revert e He.
    apply (digit_ind (λ d, default 32 (Z.of_nat <$> (fst <$> list_find (λ b, b = codeDigit d) alphabet)) =? d)).
    by vm_compute. }
  intros Hd Hd' Heq. rewrite <-(Hinv d Hd), <-(Hinv d' Hd'), Heq. done.
Qed.

Lemma alphabet_bytes b : b ∈ alphabet → 48 ≤ b < 91.
Proof.
  intros Hb. assert (forallb (λ b, (48 <=? b) && (b <? 91)) alphabet = true) as Hall by (by vm_compute).
  rewrite forallb_forall in Hall. apply list_elem_of_In, Hall in Hb. reflect_bools. lia.
Qed.

(** ** Normalising *)

(** The continuation bytes that a preceding byte looks at. *)
Definition continues (l : list Z) : Prop := head l = Some 0xB1 ∨ head l = Some 0xBF.

Lemma normalizeByte_next b next :
  next ≠ Some 0xB1 → next ≠ Some 0xBF → normalizeByte b next = normalizeByte b None.
Proof.
  intros H1 H2. unfold normalizeByte. rewrite !(bool_decide_eq_false_2 (next = _)) by done.
  by rewrite !(bool_decide_eq_false_2 (None = _)).
Qed.

Lemma normalizeBytes_app l r :
  ¬ continues r → normalizeBytes (l ++ r) = normalizeBytes l ++ normalizeBytes r.
Proof.
  intros Hr. induction l as [|b l IH]; [done|]. simpl. rewrite IH, app_assoc. f_equal. f_equal.
  destruct l as [|b' l]; [|done]. simpl. apply normalizeByte_next; intros Hh; apply Hr; [by left | by right].
Qed.

Lemma normalizeByte_high b next :
  128 ≤ b → b ≠ 0xC4 → b ≠ 0xC5 → normalizeByte b next = [].
Proof.
  intros Hb H4 H5. unfold normalizeByte.
  rewrite (proj2 (Z.eqb_neq b 0xC4) H4), (proj2 (Z.eqb_neq b 0xC5) H5). simpl.
  rewrite (proj2 (Z.leb_gt b 122)) by lia. rewrite andb_false_r.
  repeat match goal with |- context [b =? ?k] => rewrite (proj2 (Z.eqb_neq b k)) by lia end. simpl.
  rewrite bool_decide_eq_false_2; [done|]. intros Hin%alphabet_bytes. lia.
Qed.

Lemma normalizeByte_low b next : 0 ≤ b < 48 → normalizeByte b next = [].
Proof.
  intros Hb. unfold normalizeByte. rewrite (proj2 (Z.leb_gt 97 b)) by lia. cbn [andb].
  repeat match goal with |- context [b =? ?k] => rewrite (proj2 (Z.eqb_neq b k)) by lia end. simpl.
  rewrite bool_decide_eq_false_2; [done|]. intros Hin%alphabet_bytes. lia.
Qed.

(** The bytes a space rune is made of: they give nothing, whatever stands beside them. *)
Definition silent (b : Z) : Prop :=
  0 ≤ b < 48 ∨ 128 ≤ b ∧ b ≠ 0xC4 ∧ b ≠ 0xC5 ∧ b ≠ 0xB1 ∧ b ≠ 0xBF.

Lemma silent_byte b next : silent b → normalizeByte b next = [].
Proof. intros [?|(? & ? & ? & _)]; [by apply normalizeByte_low | by apply normalizeByte_high]. Qed.

Lemma silent_left p r : Forall silent p → normalizeBytes (p ++ r) = normalizeBytes r.
Proof.
  induction 1 as [|b p Hb _ IH]; [done|]. simpl. by rewrite silent_byte.
Qed.

Lemma silent_right l p : Forall silent p → normalizeBytes (l ++ p) = normalizeBytes l.
Proof.
  intros Hp. rewrite normalizeBytes_app.
  - pose proof (silent_left p [] Hp) as Hnil. rewrite app_nil_r in Hnil. rewrite Hnil. apply app_nil_r.
  - destruct Hp as [|b p Hb _]; [unfold continues; simpl; naive_solver|]. unfold silent in Hb.
    intros [[= ->]|[= ->]]; lia.
Qed.

Lemma ascii_space_silent b : ascii_space b = true → silent b.
Proof. unfold ascii_space. intros [Hb|Hb]%orb_true_iff; reflect_bools; left; lia. Qed.

Lemma space2_silent b1 b2 : space2 b1 b2 = true → silent b1 ∧ silent b2.
Proof.
  unfold space2, silent. intros [H1 [H2|H2]%orb_true_iff]%andb_true_iff; reflect_bools; lia.
Qed.

Lemma space3_silent b1 b2 b3 : space3 b1 b2 b3 = true → silent b1 ∧ silent b2 ∧ silent b3.
Proof.
  unfold space3, silent. intros Hb.
  repeat match goal with
  | H : _ || _ = true |- _ => apply orb_true_iff in H as [H|H]
  | H : _ && _ = true |- _ => apply andb_true_iff in H as [? ?]
  end; reflect_bools; lia.
Qed.

#[local] Hint Resolve ascii_space_silent : relay.

Ltac silent_bytes l :=
  destruct l as [|? [|? [|? l]]]; simpl; repeat case_match; simpl;
  repeat match goal with
  | H : space2 _ _ = true |- _ => apply space2_silent in H as [? ?]
  | H : space3 _ _ _ = true |- _ => apply space3_silent in H as (? & ? & ?)
  end; rewrite ?Forall_cons; split_and?; auto using Forall_nil with relay.

Lemma space_prefix_silent l : Forall silent (take (space_prefix l) l).
Proof.
  silent_bytes l.
Qed.

Lemma space_suffix_silent l : Forall silent (take (space_suffix l) l).
Proof.
  silent_bytes l.
Qed.

Lemma drop_spaces_split span fuel l :
  (∀ l, Forall silent (take (span l) l)) →
  ∃ p, l = p ++ drop_spaces span fuel l ∧ Forall silent p.
Proof.
  intros Hspan. revert l. induction fuel as [|fuel IH]; intros l; [by exists []|]. cbn [drop_spaces].
  specialize (Hspan l). destruct (span l) as [|n]; [by exists []|].
  destruct (IH (drop (S n) l)) as (p & Heq & Hp). exists (take (S n) l ++ p).
  rewrite <-app_assoc, <-Heq, take_drop. split; [done|]. by apply Forall_app.
Qed.

Lemma bytes_of_TrimSpace s :
  bytes_of_string (TrimSpace s) = trim_right (trim_left (bytes_of_string s)).
Proof.
  unfold TrimSpace. apply bytes_of_string_of_bytes.
  pose proof (bytes_of_string_range s) as Hr. unfold trim_left.
  destruct (drop_spaces_suffix space_prefix (length (bytes_of_string s)) (bytes_of_string s)) as [n ->].
  destruct (trim_right_take (drop n (bytes_of_string s))) as [k ->].
  by apply Forall_take, Forall_drop.
Qed.

(** Trimming changes nothing that normalising keeps. *)
Lemma NormalizeCode_bytes s : NormalizeCode s = string_of_bytes (normalizeBytes (bytes_of_string s)).
Proof.
  unfold NormalizeCode. rewrite bytes_of_TrimSpace. f_equal. generalize (bytes_of_string s). intros l.
  assert (normalizeBytes (trim_left l) = normalizeBytes l) as <-.
  { destruct (drop_spaces_split space_prefix (length l) l space_prefix_silent) as (p & Heq & Hp).
    rewrite Heq at 2. by rewrite silent_left. }
  generalize (trim_left l). clear l. intros l.
  destruct (drop_spaces_split space_suffix (length l) (reverse l) space_suffix_silent) as (p & Heq & Hp).
  apply (f_equal reverse) in Heq. rewrite reverse_involutive, reverse_app in Heq.
  rewrite Heq at 2. by rewrite silent_right by by apply Forall_reverse.
Qed.

(** A letter of the alphabet, and the letter the alphabet leaves out but keeps, stand for
    themselves. *)
Lemma normalizeByte_kept b next : b ∈ alphabet ∨ b = 85 → normalizeByte b next = [b].
Proof.
  intros Hb. unfold normalizeByte.
  assert (48 ≤ b < 91) as Hr by (destruct Hb as [?%alphabet_bytes| ->]; lia).
  assert (b ≠ 79 ∧ b ≠ 73 ∧ b ≠ 76) as (H1 & H2 & H3).
  { destruct Hb as [Hb| ->]; [|done].
    assert (forallb (λ b, negb ((b =? 79) || (b =? 73) || (b =? 76))) alphabet = true) as Hall
      by (by vm_compute).
    rewrite forallb_forall in Hall. apply list_elem_of_In, Hall in Hb. reflect_bools. done. }
  rewrite (proj2 (Z.leb_gt 97 b)) by lia. cbn [andb].
  repeat match goal with |- context [b =? ?k] =>
    lazymatch k with 85 => fail | _ => rewrite (proj2 (Z.eqb_neq b k)) by lia end end. cbn [andb orb].
  destruct (Z.eqb_spec b 85) as [->|Hne]; [done|].
  rewrite bool_decide_eq_true_2; [done|]. by destruct Hb.
Qed.

Lemma normalizeByte_out b next : Forall (λ r, r ∈ alphabet ∨ r = 85) (normalizeByte b next).
Proof.
  assert (48 ∈ alphabet ∧ 49 ∈ alphabet ∧ 83 ∈ alphabet) as (H0 & H1 & HS)
    by (split_and!; apply (bool_decide_unpack _); by vm_compute).
  unfold normalizeByte. repeat case_match; rewrite ?Forall_singleton; auto using Forall_nil;
    left; by eapply bool_decide_eq_true.
Qed.

Lemma normalizeBytes_out l : Forall (λ r, r ∈ alphabet ∨ r = 85) (normalizeBytes l).
Proof. induction l as [|b l IH]; simpl; [constructor|]. apply Forall_app. split; [apply normalizeByte_out | done]. Qed.

Lemma normalizeBytes_fixed l : Forall (λ r, r ∈ alphabet ∨ r = 85) l → normalizeBytes l = l.
Proof. induction 1 as [|b l Hb _ IH]; [done|]. simpl. by rewrite normalizeByte_kept, IH. Qed.

Lemma kept_bytes l : Forall (λ r, r ∈ alphabet ∨ r = 85) l → Forall (λ b, 0 ≤ b < 256) l.
Proof. intros Hl. eapply Forall_impl; [exact Hl|]. intros b [Hb%alphabet_bytes| ->]; lia. Qed.

(** Normalising twice is normalising once, on every string. *)
Lemma NormalizeCode_idemp s : NormalizeCode (NormalizeCode s) = NormalizeCode s.
Proof.
  rewrite !NormalizeCode_bytes. pose proof (normalizeBytes_out (bytes_of_string s)) as Hout.
  rewrite bytes_of_string_of_bytes by by apply kept_bytes. by rewrite normalizeBytes_fixed.
Qed.

Lemma len_bytes s : len s = Z.of_nat (length (bytes_of_string s)).
Proof.
  unfold len, bytes_of_string. rewrite length_fmap. f_equal.
  induction s as [|a s IH]; simpl; [done | by rewrite IH].
Qed.

(** ** Transcription *)

(** Punctuation, white space and control bytes: ASCII that is neither digit nor letter. *)
Definition separator (b : Z) : bool :=
  (0 <=? b) && (b <? 128) && negb (((48 <=? b) && (b <=? 57)) || ((65 <=? b) && (b <=? 90))
                                    || ((97 <=? b) && (b <=? 122))).

(** What a reader may make of a code: copy a letter, write it in lower case, write a letter
    O for a zero or a letter I or L for a one, and group the letters. *)
Inductive transcribed : list Z → list Z → Prop :=
  | tr_nil : transcribed [] []
  | tr_copy c l w : transcribed l w → transcribed (c :: l) (c :: w)
  | tr_lower c l w : 65 ≤ c ≤ 90 → transcribed l w → transcribed (c :: l) (c + 32 :: w)
  | tr_zero b l w : b ∈ [79; 111] → transcribed l w → transcribed (48 :: l) (b :: w)
  | tr_one b l w : b ∈ [73; 105; 76; 108] → transcribed l w → transcribed (49 :: l) (b :: w)
  | tr_group b l w : separator b = true → transcribed l w → transcribed l (b :: w).

Lemma normalizeByte_lower c next : c ∈ alphabet → 65 ≤ c ≤ 90 → normalizeByte (c + 32) next = [c].
Proof.
  intros Hc Hr. rewrite <-(normalizeByte_kept c next) by by left. unfold normalizeByte.
  replace (97 <=? c + 32) with true by (symmetry; apply Z.leb_le; lia).
  replace (c + 32 <=? 122) with true by (symmetry; apply Z.leb_le; lia).
  replace (97 <=? c) with false by (symmetry; apply Z.leb_gt; lia). cbn [andb].
  replace (c + 32 - 32) with c by lia.
  rewrite !(proj2 (Z.eqb_neq (c + 32) _)), !(proj2 (Z.eqb_neq c 196)), !(proj2 (Z.eqb_neq c 197)) by lia.
  done.
Qed.

Lemma normalizeByte_separator b next : separator b = true → normalizeByte b next = [].
Proof.
  intros Hb. unfold separator in Hb.
  assert (Hall : forallb (λ b, negb (separator b) || bool_decide (normalizeByte b None = [])) (seqZ 0 128) = true)
    by (by vm_compute).
  rewrite forallb_forall in Hall.
  assert (0 ≤ b < 128) as Hr by (reflect_bools; lia).
  assert (b ∈ seqZ 0 128) as Hin%list_elem_of_In%Hall by (apply elem_of_seqZ; lia).
  unfold separator in Hin. rewrite Hb in Hin. cbn [negb orb] in Hin. apply bool_decide_eq_true in Hin.
  rewrite <-Hin. unfold normalizeByte.
  by rewrite !(proj2 (Z.eqb_neq b 196)), !(proj2 (Z.eqb_neq b 197)) by lia.
Qed.

Lemma transcribed_normal l w :
  transcribed l w → Forall (λ c, c ∈ alphabet) l → normalizeBytes w = l.
Proof.
  induction 1 as [|c l w _ IH|c l w Hc _ IH|b l w Hb _ IH|b l w Hb _ IH|b l w Hb _ IH];
    intros Hl; simpl; try (apply Forall_cons in Hl as [Hc' Hl]; rewrite IH by done); [done|..].
  - by rewrite normalizeByte_kept by by left.
  - by rewrite normalizeByte_lower.
  - set_unfold in Hb. by destruct Hb as [->|[->|[]]].
  - set_unfold in Hb. by destruct Hb as [->|[->|[->|[->|[]]]]].
  - rewrite normalizeByte_separator by done. by apply IH.
Qed.

Lemma NewCode_bytes raw :
  Forall (λ b, 0 ≤ b < 256) raw → length raw = CodeBytes →
  bytes_of_string (NewCode raw) = codeDigit <$> codeDigits raw ∧
  Forall (λ c, c ∈ alphabet) (codeDigit <$> codeDigits raw).
Proof.
  intros Hraw Hlen. destruct (codeDigits_value raw Hraw Hlen) as (_ & Hf & _).
  assert (Forall (λ c, c ∈ alphabet) (codeDigit <$> codeDigits raw)) as Hal.
  { apply Forall_fmap. eapply Forall_impl; [exact Hf|]. intros d Hd. by apply codeDigit_alphabet. }
  split; [|done]. unfold NewCode. apply bytes_of_string_of_bytes.
  eapply Forall_impl; [exact Hal|]. intros c Hc%alphabet_bytes. lia.
Qed.

Lemma NewCode_len raw :
  Forall (λ b, 0 ≤ b < 256) raw → length raw = CodeBytes → len (NewCode raw) = 26.
Proof.
  intros Hraw Hlen. rewrite len_bytes. destruct (NewCode_bytes raw Hraw Hlen) as [-> _].
  rewrite length_fmap. by destruct (codeDigits_value raw Hraw Hlen) as (-> & _).
Qed.

Lemma transcription_normal raw w :
  Forall (λ b, 0 ≤ b < 256) raw → length raw = CodeBytes →
  Forall (λ b, 0 ≤ b < 256) w → transcribed (bytes_of_string (NewCode raw)) w →
  NormalizeCode (string_of_bytes w) = NewCode raw.
Proof.
  intros Hraw Hlen Hw Htr. destruct (NewCode_bytes raw Hraw Hlen) as [Hb Hal].
  rewrite NormalizeCode_bytes, bytes_of_string_of_bytes by done.
  rewrite Hb in Htr. by rewrite (transcribed_normal _ _ Htr Hal).
Qed.

(** C32: A minted code carries its 128 bits and survives transcription: it is 26 letters of
    the alphabet, different random bytes give different codes, and however a reader copies
    it (in lower case, with a letter O for a zero or I and L for a one, grouped by spaces,
    hyphens or any other punctuation) normalising gives the code back, so the same
    credential is derived. *)
Theorem minted_code_survives NewKeyFromSeed raw w :
  Forall (λ b, 0 ≤ b < 256) raw → length raw = CodeBytes →
  Forall (λ b, 0 ≤ b < 256) w → transcribed (bytes_of_string (NewCode raw)) w →
  len (NewCode raw) = 26 ∧
  NormalizeCode (string_of_bytes w) = NewCode raw ∧
  KeyFromCode NewKeyFromSeed (string_of_bytes w) = KeyFromCode NewKeyFromSeed (NewCode raw) ∧
  (∀ raw', Forall (λ b, 0 ≤ b < 256) raw' → length raw' = CodeBytes →
           NewCode raw' = NewCode raw → raw' = raw).
Proof.
  intros Hraw Hlen Hw Htr. destruct (NewCode_bytes raw Hraw Hlen) as [Hb Hal].
  pose proof (transcription_normal raw w Hraw Hlen Hw Htr) as Hn.
  split_and!.
  - by apply NewCode_len.
  - done.
  - unfold KeyFromCode. by rewrite <-Hn, NormalizeCode_idemp.
  - intros raw' Hraw' Hlen' Heq. destruct (NewCode_bytes raw' Hraw' Hlen') as [Hb' _].
    apply codeDigits_inj; try done. rewrite Heq, Hb in Hb'.
    destruct (codeDigits_value raw Hraw Hlen) as (_ & Hf & _).
    destruct (codeDigits_value raw' Hraw' Hlen') as (_ & Hf' & _).
    clear -Hb' Hf Hf'. revert Hb' Hf'. generalize (codeDigits raw'). intros k.
    revert k. induction Hf as [|d l Hd _ IH]; intros [|d' k] Hb' Hf'; try done.
    apply Forall_cons in Hf' as [Hd' Hf']. injection Hb' as Hdd Hk.
    rewrite (codeDigit_inj d d' Hd Hd' Hdd). f_equal. by apply IH.
Qed.

Lemma minted_code_survives_witness :
  let raw := [0xde; 0xad; 0xbe; 0xef; 1; 2; 3; 4; 5; 6; 7; 8; 9; 10; 11; 12] in
  let key (seed : list Z) := (seed, seed) in
  transcribed (bytes_of_string (NewCode raw)) (bytes_of_string "vtpv xvrl-o81G81860W40J2GB1G") ∧
  NormalizeCode (string_of_bytes (bytes_of_string "vtpv xvrl-o81G81860W40J2GB1G")) = NewCode raw.
Proof.
  intros raw key.
  assert (transcribed (bytes_of_string (NewCode raw)) (bytes_of_string "vtpv xvrl-o81G81860W40J2GB1G")) as Htr.
  { replace (bytes_of_string (NewCode raw)) with (bytes_of_string "VTPVXVR1081G81860W40J2GB1G")
      by (vm_compute; reflexivity).
    vm_compute.
    apply (tr_lower 86); [lia|]. apply (tr_lower 84); [lia|]. apply (tr_lower 80); [lia|].
    apply (tr_lower 86); [lia|].
    apply tr_group; [reflexivity|].
    apply (tr_lower 88); [lia|]. apply (tr_lower 86); [lia|]. apply (tr_lower 82); [lia|].
    apply tr_one; [set_solver|]. apply tr_group; [reflexivity|]. apply tr_zero; [set_solver|].
    repeat apply tr_copy. apply tr_nil. }
  split; [exact Htr|].
  apply (minted_code_survives key raw (bytes_of_string "vtpv xvrl-o81G81860W40J2GB1G"));
    [repeat constructor; lia | reflexivity | apply bytes_of_string_range | exact Htr].
Defined.
