(* ===== verification/GoDuration.v ===== *)
(** * Durations as text

    [time.ParseDuration] and [time.Duration.String] of the standard library, and the
    [Duration] of [internal/admission/credential.go] that writes and reads the windows of a
    credential file with them. Fractions go through binary64, as in the source of
    [ParseDuration]. *)

From Stdlib Require Import Floats.SpecFloat.
From S2P Require Import Prelude Strconv Float64.

Open Scope Z_scope.

(** ** Reading *)

Fixpoint leadingInt (x : Z) (l : list Z) : option (Z * list Z) :=
  match l with
  | c :: rest =>
      if isDigit c then
        if 2 ^ 63 / 10 <? x then None else
        let x := x * 10 + (c - 48) in
        if 2 ^ 63 <? x then None else leadingInt x rest
      else Some (x, l)
  | [] => Some (x, [])
  end.

Definition f_mul : spec_float → spec_float → spec_float := SFmul f_prec f_emax.

Definition f_ten : spec_float := f_of_int 10.

Fixpoint leadingFraction (x : Z) (scale : spec_float) (overflow : bool) (l : list Z)
  : Z * spec_float * list Z :=
  match l with
  | c :: rest =>
      if isDigit c then
        if overflow then leadingFraction x scale true rest else
        if (2 ^ 63 - 1) / 10 <? x then leadingFraction x scale true rest else
        let y := x * 10 + (c - 48) in
        if 2 ^ 63 <? y then leadingFraction x scale true rest
        else leadingFraction y (f_mul scale f_ten) false rest
      else (x, scale, l)
  | [] => (x, scale, [])
  end.

(** [uint64(x)] of a non-negative float: its whole part. *)
Definition f_trunc (x : spec_float) : Z :=
  match x with
  | S754_finite false m e => Z.shiftl (Zpos m) e
  | _ => 0
  end.

(** The bytes of the unit, up to the next digit or point. *)
Fixpoint unitSpan (l : list Z) : list Z * list Z :=
  match l with
  | c :: rest => if (c =? 46) || isDigit c then ([], l)
                 else let '(u, rest) := unitSpan rest in (c :: u, rest)
  | [] => ([], [])
  end.

Definition Microsecond : Duration := 1000.
Definition Millisecond : Duration := 1000000.

(** [unitMap]; the two spellings of the micro sign are C2 B5 and CE BC. *)
Definition unitOf (u : list Z) : option Z :=
  if bool_decide (u = [110; 115]) then Some 1 else
  if bool_decide (u ∈ [[117; 115]; [0xC2; 0xB5; 115]; [0xCE; 0xBC; 115]]) then Some Microsecond else
  if bool_decide (u = [109; 115]) then Some Millisecond else
  if bool_decide (u = [115]) then Some Second else
  if bool_decide (u = [109]) then Some Minute else
  if bool_decide (u = [104]) then Some Hour else None.

(** One number with its unit. *)
Definition durationPart (l : list Z) : option (Z * list Z) :=
  if negb (match l with c :: _ => (c =? 46) || isDigit c | [] => false end) then None else
  '(v, l1) ← leadingInt 0 l;
  let pre := negb (bool_decide (length l = length l1)) in
  let '(f, scale, l2, post) :=
    match l1 with
    | 46 :: rest => let '(f, scale, l2) := leadingFraction 0 f_one false rest in
                    (f, scale, l2, negb (bool_decide (length rest = length l2)))
    | _ => (0, f_one, l1, false)
    end in
  if negb pre && negb post then None else
  let '(u, rest) := unitSpan l2 in
  if bool_decide (u = []) then None else
  unit ← unitOf u;
  if 2 ^ 63 / unit <? v then None else
  let v := v * unit in
  let v := if 0 <? f then wrap_uint64 (v + f_trunc (f_mul (f_of_int f) (f_div (f_of_int unit) scale))) else v in
  if (0 <? f) && (2 ^ 63 <? v) then None else Some (v, rest).

(** The loop over the parts; every part takes a byte, so the length is enough fuel. *)
Fixpoint durationParts (fuel : nat) (l : list Z) (d : Z) : option Z :=
  match l, fuel with
  | [], _ => Some d
  | _, O => None
  | _, S fuel =>
      '(v, rest) ← durationPart l;
      let d := wrap_uint64 (d + v) in
      if 2 ^ 63 <? d then None else durationParts fuel rest d
  end.

Definition ParseDuration (s : string) : option Duration :=
  let l := bytes_of_string s in
  let '(neg, l) := match l with 45 :: r => (true, r) | 43 :: r => (false, r) | _ => (false, l) end in
  if bool_decide (l = [48]) then Some 0 else
  if bool_decide (l = []) then None else
  d ← durationParts (length l) l 0;
  if neg : bool then Some (wrap_int64 (- d)) else
  if int64_max <? d then None else Some d.

(** ** Writing *)

(** [fmtFrac]: the digits after the point, without the zeros at the end, before [tail]. *)
Fixpoint fmtFrac (prec : nat) (print : bool) (v : Z) (tail : list Z) : list Z * Z :=
  match prec with
  | O => (if print then 46 :: tail else tail, v)
  | S prec =>
      let digit := v mod 10 in
      let print := print || negb (digit =? 0) in
      fmtFrac prec print (v / 10) (if print then 48 + digit :: tail else tail)
  end.

Definition durationFormat (d : Duration) : list Z :=
  let neg := d <? 0 in
  let u := if neg then wrap_uint64 (- wrap_uint64 d) else wrap_uint64 d in
  let out :=
    if u <? Second then
      if u =? 0 then [48; 115] else
      let '(prec, unit) := if u <? Microsecond then (0%nat, [110; 115]) else
                           if u <? Millisecond then (3%nat, [0xC2; 0xB5; 115]) else (6%nat, [109; 115]) in
      let '(tail, u) := fmtFrac prec false u unit in decimal 20 u tail
    else
      let '(tail, u) := fmtFrac 9 false u [115] in
      let out := decimal 20 (u mod 60) tail in
      let u := u / 60 in
      if 0 <? u then
        let out := decimal 20 (u mod 60) (109 :: out) in
        let u := u / 60 in
        if 0 <? u then decimal 20 u (104 :: out) else out
      else out in
  if neg then 45 :: out else out.

Definition FormatInt (n : Z) : list Z :=
  if n <? 0 then 45 :: decimal 20 (- n) [] else decimal 20 n [].

(** The method [String] of [admission.Duration]; the division and the remainder truncate. *)
Definition durationString (d : Duration) : string :=
  string_of_bytes
    (if d =? 0 then [48; 115] else
     if Z.rem d Hour =? 0 then FormatInt (Z.quot d Hour) ++ [104] else
     if Z.rem d Minute =? 0 then FormatInt (Z.quot d Minute) ++ [109] else
     durationFormat d).

(** [UnmarshalJSON] on the text of a JSON string. *)
Definition durationUnmarshal (text : string) : option Duration :=
  parsed ← ParseDuration text; if parsed <? 0 then None else Some parsed.

Example parse_durations :
  ParseDuration <$> ["48h"; "1h30m"; "-1.5s"; "2us"; "1h"; "300ms"; "10"; ""; "9223372036854775807ns"; "9223372036854775808ns"; "-9223372036854775808ns"]%string
  = [Some (48 * Hour); Some (90 * Minute); Some (- 1500000000); Some 2000; Some Hour; Some 300000000; None; None; Some int64_max; None; Some int64_min].
Proof. vm_compute. reflexivity. Qed.

Example format_durations :
  durationString <$> [48 * Hour; 90 * Minute; 0; 1500000000; 61 * Second; 1500; 3601 * Second]
  = ["48h"; "90m"; "0s"; "1.5s"; "1m1s"; string_of_bytes [49; 46; 53; 0xC2; 0xB5; 115]; "1h0m1s"]%string.
Proof. vm_compute. reflexivity. Qed.

#[global] Arguments decimal : simpl never.

(** ** A window that is written is read back *)

Definition digitsFrom (x : Z) (l : list Z) : Z := foldl (λ n b, n * 10 + (b - 48)) x l.

Lemma digitsFrom_ge x l : 0 ≤ x → forallb isDigit l = true → x ≤ digitsFrom x l.
Proof.
  revert x. induction l as [|b l IH]; intros x Hx Hd; [done|]. simpl in Hd.
  apply andb_true_iff in Hd as [Hb Hd]. unfold isDigit in Hb. reflect_bools.
  unfold digitsFrom in *. simpl. specialize (IH (x * 10 + (b - 48)) ltac:(lia) Hd). lia.
Qed.

(** The bytes that end a number: none, or one that is not a digit. *)
Definition endsNumber (l : list Z) : bool := match l with c :: _ => negb (isDigit c) | [] => true end.

Lemma leadingInt_digits x l rest :
  0 ≤ x → forallb isDigit l = true → endsNumber rest = true → digitsFrom x l ≤ 2 ^ 63 →
  leadingInt x (l ++ rest) = Some (digitsFrom x l, rest).
Proof.
  revert x. induction l as [|b l IH]; intros x Hx Hd Hr Hv.
  { simpl. destruct rest as [|c rest]; [done|]. simpl in *. by apply negb_true_iff in Hr as ->. }
  simpl in Hd. apply andb_true_iff in Hd as [Hb Hd]. cbn [app leadingInt]. rewrite Hb.
  unfold isDigit in Hb. reflect_bools.
  pose proof (digitsFrom_ge (x * 10 + (b - 48)) l ltac:(lia) Hd) as Hge.
  unfold digitsFrom in Hv, Hge. simpl in Hv.
  rewrite (proj2 (Z.ltb_ge (2 ^ 63 / 10) x)) by (apply Z.div_le_lower_bound; lia).
  rewrite (proj2 (Z.ltb_ge (2 ^ 63) _)) by lia. by apply IH; [lia|..].
Qed.

Lemma leadingInt_decimal n rest :
  0 ≤ n ≤ 2 ^ 63 → endsNumber rest = true → leadingInt 0 (decimal 20 n rest) = Some (n, rest).
Proof.
  intros Hn Hr. destruct (decimal_digits 20 n ltac:(lia)) as [Hv Hd].
  rewrite decimal_app, leadingInt_digits; try done; [|rewrite <-Hv in Hn; apply Hn].
  f_equal. f_equal. exact Hv.
Qed.

Lemma decimal_head n rest : 0 ≤ n < 2 ^ 64 →
  ∃ c l, decimal 20 n rest = c :: l ++ rest ∧ isDigit c = true.
Proof.
  intros Hn. destruct (decimal_digits 20 n ltac:(lia)) as [_ Hd]. rewrite decimal_app.
  pose proof (decimal_nonempty 20 n ltac:(lia)). destruct (decimal 20 n []) as [|c l]; [done|].
  simpl in Hd. apply andb_true_iff in Hd as [Hc _]. by exists c, l.
Qed.

Lemma decimal_length n rest : (length rest < length (decimal 20 n rest))%nat.
Proof.
  rewrite decimal_app, length_app. pose proof (decimal_nonempty 20 n ltac:(lia)).
  destruct (decimal 20 n []); simpl; [done|lia].
Qed.

(** The three units a whole number of seconds is written with. *)
Definition plainUnit (c unit : Z) : Prop :=
  (c = 115 ∧ unit = Second) ∨ (c = 109 ∧ unit = Minute) ∨ (c = 104 ∧ unit = Hour).

Definition startsNumber (l : list Z) : bool := match l with c :: _ => isDigit c | [] => true end.

Lemma durationPart_decimal n c unit rest :
  plainUnit c unit → 0 ≤ n ≤ 2 ^ 63 / unit → startsNumber rest = true →
  durationPart (decimal 20 n (c :: rest)) = Some (n * unit, rest).
Proof.
  intros Hu Hn Hr.
  assert (0 ≤ n ≤ 2 ^ 63 ∧ isDigit c = false ∧ c ≠ 46 ∧ unitOf [c] = Some unit) as (Hn' & Hc & Hdot & Hunit).
  { destruct Hu as [[-> ->]|[[-> ->]|[-> ->]]]; split_and!; try done; try lia;
      (etrans; [apply Hn|]; apply Z.div_le_upper_bound; [done|]; unfold Hour, Minute, Second; lia). }
  destruct (decimal_head n (c :: rest) ltac:(lia)) as (d & l & Hl & Hd).
  unfold durationPart.
  assert ((match decimal 20 n (c :: rest) with x :: _ => (x =? 46) || isDigit x | [] => false end) = true) as ->
    by (by rewrite Hl, Hd, orb_true_r).
  cbn [negb]. rewrite leadingInt_decimal; [|done|simpl; by rewrite Hc]. cbn [mbind option_bind].
  pose proof (decimal_length n (c :: rest)) as Hlen.
  rewrite (bool_decide_eq_false_2 (length _ = length (c :: rest))) by lia.
  assert (unitSpan (c :: rest) = ([c], rest)) as Hspan.
  { simpl. rewrite (proj2 (Z.eqb_neq c 46) Hdot), Hc. simpl. destruct rest as [|b rest]; [done|].
    simpl in *. by rewrite Hr, orb_true_r. }
  assert (match c :: rest with 46 :: r => let '(f, scale, l2) := leadingFraction 0 f_one false r in
            (f, scale, l2, negb (bool_decide (length r = length l2)))
          | _ => (0, f_one, c :: rest, false) end = (0, f_one, c :: rest, false)) as Hno.
  { destruct Hu as [[-> ->]|[[-> ->]|[-> ->]]]; done. }
  rewrite Hno. cbn [andb negb]. rewrite Hspan, bool_decide_eq_false_2, Hunit by done. cbn [mbind option_bind].
  by rewrite (proj2 (Z.ltb_ge (2 ^ 63 / unit) n)) by lia.
Qed.

Lemma durationParts_decimal fuel n c unit rest d :
  plainUnit c unit → 0 ≤ n → 0 ≤ d → startsNumber rest = true → d + n * unit < 2 ^ 63 →
  durationParts (S fuel) (decimal 20 n (c :: rest)) d = durationParts fuel rest (d + n * unit).
Proof.
  intros Hu Hn Hd Hr Hlt.
  assert (0 < unit) as Hpos by (destruct Hu as [[-> ->]|[[-> ->]|[-> ->]]]; done).
  assert (n ≤ 2 ^ 63 / unit) as Hle by (apply Z.div_le_lower_bound; lia).
  assert (n < 2 ^ 63) as Hn' by nia.
  destruct (decimal_head n (c :: rest) ltac:(lia)) as (b & l & Hl & _).
  pose proof (durationPart_decimal n c unit rest Hu ltac:(lia) Hr) as Hp. rewrite Hl in *.
  cbn [durationParts]. rewrite Hp. simpl. unfold wrap_uint64. rewrite Z.mod_small by nia.
  by rewrite (proj2 (Z.ltb_ge (2 ^ 63) _)) by lia.
Qed.

Lemma decimal_starts n rest : 0 ≤ n < 2 ^ 64 → startsNumber (decimal 20 n rest) = true.
Proof. intros Hn. by destruct (decimal_head n rest Hn) as (c & l & -> & Hc). Qed.

(** A text made of numbers with their units, its meaning, and reading it. *)
Record part := mkPart { pt_number : Z; pt_letter : Z; pt_unit : Z }.

Definition goodPart (p : part) : Prop :=
  plainUnit (pt_letter p) (pt_unit p) ∧ 0 ≤ pt_number p < 2 ^ 63.

Fixpoint partsText (ps : list part) : list Z :=
  match ps with
  | [] => []
  | p :: ps => decimal 20 (pt_number p) (pt_letter p :: partsText ps)
  end.

Definition partsValue (ps : list part) : Z := zsum (λ p, pt_number p * pt_unit p) ps.

Lemma goodPart_value p : goodPart p → 0 ≤ pt_number p * pt_unit p.
Proof. intros [[[_ ->]|[[_ ->]|[_ ->]]] Hn]; unfold Hour, Minute, Second; lia. Qed.

Lemma partsText_starts ps : Forall goodPart ps → startsNumber (partsText ps) = true.
Proof. intros [|p ps' [_ Hp] _]; [done|]. apply decimal_starts. lia. Qed.

Lemma partsText_ascii ps : Forall goodPart ps → Forall (λ b, 0 ≤ b < 128) (partsText ps).
Proof.
  induction 1 as [|p ps [Hu Hp] _ IH]; simpl; [constructor|]. rewrite decimal_app.
  apply Forall_app. split; [|constructor; [unfold plainUnit in Hu; lia|done]].
  pose proof (proj2 (decimal_digits 20 (pt_number p) ltac:(lia))) as Hd.
  rewrite forallb_forall in Hd. apply Forall_forall. intros b Hb%list_elem_of_In.
  specialize (Hd b Hb). unfold isDigit in Hd. reflect_bools. lia.
Qed.

Lemma partsText_bytes ps : Forall goodPart ps → Forall (λ b, 0 ≤ b < 256) (partsText ps).
Proof. intros Hps. eapply Forall_impl; [by apply partsText_ascii|]. simpl. lia. Qed.

Lemma durationParts_text ps fuel d :
  Forall goodPart ps → (length (partsText ps) ≤ fuel)%nat → 0 ≤ d → d + partsValue ps < 2 ^ 63 →
  durationParts fuel (partsText ps) d = Some (d + partsValue ps).
Proof.
  intros Hps. revert fuel d. induction Hps as [|p ps Hp Hps IH]; intros fuel d Hf Hd Hlt.
  { destruct fuel; simpl; f_equal; unfold partsValue; simpl; lia. }
  pose proof (goodPart_value p Hp) as Hv. destruct Hp as [Hu Hn].
  assert (0 ≤ partsValue ps) as Hpos.
  { clear -Hps. unfold partsValue. induction Hps as [|q qs Hq _ IHq]; simpl; [done|].
    apply goodPart_value in Hq. lia. }
  unfold partsValue in *. simpl in *.
  pose proof (decimal_length (pt_number p) (pt_letter p :: partsText ps)) as Hl. simpl in Hl.
  destruct fuel as [|fuel]; [lia|].
  rewrite durationParts_decimal with (unit := pt_unit p); try done; try lia;
    [|by apply partsText_starts].
  rewrite IH by lia. f_equal. lia.
Qed.

Lemma ParseDuration_text ps :
  ps ≠ [] → Forall goodPart ps → partsValue ps < 2 ^ 63 →
  ParseDuration (string_of_bytes (partsText ps)) = Some (partsValue ps).
Proof.
  intros Hne Hps Hlt. unfold ParseDuration.
  rewrite bytes_of_string_of_bytes by by apply partsText_bytes.
  pose proof (partsText_starts ps Hps) as Hs.
  pose proof (durationParts_text ps (length (partsText ps)) 0 Hps ltac:(lia) ltac:(lia) Hlt) as Hp.
  assert (1 < length (partsText ps))%nat as Hlen.
  { destruct ps as [|p ps]; [done|]. simpl.
    pose proof (decimal_length (pt_number p) (pt_letter p :: partsText ps)). simpl in *. lia. }
  generalize dependent (partsText ps). intros l Hs Hp Hlen.
  assert (match l with 45 :: r => (true, r) | 43 :: r => (false, r) | _ => (false, l) end = (false, l)) as ->.
  { destruct l as [|c l]; [done|]. simpl in Hs. unfold isDigit in Hs. reflect_bools.
    repeat case_match; try done; lia. }
  rewrite bool_decide_eq_false_2 by (intros ->; simpl in Hlen; lia).
  rewrite bool_decide_eq_false_2 by (intros ->; simpl in Hlen; lia).
  rewrite Hp. simpl. unfold int64_max. by rewrite (proj2 (Z.ltb_ge _ (partsValue ps))) by lia.
Qed.

Lemma fmtFrac_whole prec k tail :
  0 ≤ k → fmtFrac prec false (k * 10 ^ Z.of_nat prec) tail = (tail, k).
Proof.
  intros Hk. induction prec as [|prec IH]; cbn [fmtFrac]; [by rewrite Z.mul_1_r|].
  rewrite Nat2Z.inj_succ, Z.pow_succ_r, Z.mul_assoc, (Z.mul_comm k 10), <-Z.mul_assoc by lia.
  rewrite (Z.mul_comm 10), Z.mod_mul, Z.div_mul by lia. apply IH.
Qed.

(** A duration of whole seconds [h], [m] and [s], as [time.Duration.String] writes it. *)
Lemma durationFormat_seconds u :
  Second ≤ u < 2 ^ 63 → u mod Second = 0 →
  let s := u / Second in
  durationFormat u =
    (if 0 <? s / 60 then
       let out := decimal 20 (s / 60 mod 60) (109 :: decimal 20 (s mod 60) [115]) in
       if 0 <? s / 60 / 60 then decimal 20 (s / 60 / 60) (104 :: out) else out
     else decimal 20 (s mod 60) [115]).
Proof.
  intros Hu Hmod s. unfold durationFormat.
  rewrite (proj2 (Z.ltb_ge u 0)) by (unfold Second in *; lia).
  unfold wrap_uint64. rewrite Z.mod_small by (unfold Second in *; lia).
  rewrite (proj2 (Z.ltb_ge u Second)) by lia.
  assert (u = s * 10 ^ Z.of_nat 9) as Hus.
  { change (10 ^ Z.of_nat 9) with Second. pose proof (Z.div_mod u Second ltac:(done)). unfold s. lia. }
  rewrite Hus at 1. rewrite fmtFrac_whole by (apply Z.div_pos; unfold Second in *; lia). done.
Qed.

Lemma durationFormat_parts u :
  Second ≤ u < 2 ^ 63 → u mod Second = 0 →
  ∃ ps, durationFormat u = partsText ps ∧ ps ≠ [] ∧ Forall goodPart ps ∧ partsValue ps = u.
Proof.
  intros Hu Hmod. rewrite durationFormat_seconds by done. cbv zeta.
  assert (u = u / Second * Second) as Hus by (pose proof (Z.div_mod u Second ltac:(done)); lia).
  assert (0 ≤ u / Second) as Hs by (apply Z.div_pos; unfold Second in *; lia).
  generalize dependent (u / Second). intros s Hus Hs.
  set (sec := mkPart (s mod 60) 115 Second). set (min := mkPart (s / 60 mod 60) 109 Minute).
  set (hour := mkPart (s / 60 / 60) 104 Hour).
  assert (goodPart sec ∧ goodPart min ∧ goodPart hour) as (Gs & Gm & Gh).
  { unfold goodPart, plainUnit, sec, min, hour, Second in *. simpl.
    split_and!; try auto 6; Z.to_euclidean_division_equations; lia. }
  assert (partsValue [hour; min; sec] = u) as Hval.
  { unfold partsValue. simpl. unfold Hour, Minute, Second in *. Z.to_euclidean_division_equations. lia. }
  unfold partsValue in Hval. simpl in Hval. unfold Hour, Minute, Second in Hval.
  pose proof (proj2 Gh) as Hh0. simpl in Hh0.
  destruct (Z.ltb_spec 0 (s / 60)) as [Hmin|Hmin]; [destruct (Z.ltb_spec 0 (s / 60 / 60)) as [Hh|Hh]|].
  - exists [hour; min; sec]. rewrite !Forall_cons. done.
  - exists [min; sec]. rewrite !Forall_cons. split_and!; try done.
    unfold partsValue. simpl. unfold Minute, Second. lia.
  - exists [sec]. rewrite !Forall_cons. split_and!; try done.
    unfold partsValue. simpl. unfold Second. Z.to_euclidean_division_equations. lia.
Qed.

(** Hours, minutes or mixed: a window of whole seconds is written as numbers with units. *)
Lemma durationString_parts d :
  0 < d < 2 ^ 63 → d mod Second = 0 →
  ∃ ps, durationString d = string_of_bytes (partsText ps) ∧ ps ≠ [] ∧ Forall goodPart ps ∧ partsValue ps = d.
Proof.
  intros Hd Hmod. unfold durationString. rewrite (proj2 (Z.eqb_neq d 0)) by lia.
  rewrite !Z.rem_mod_nonneg, !Z.quot_div_nonneg by (unfold Hour, Minute, Second; lia).
  assert (∀ c unit, plainUnit c unit → 0 < unit → d mod unit = 0 →
    ∃ ps, string_of_bytes (FormatInt (d / unit) ++ [c]) = string_of_bytes (partsText ps) ∧ ps ≠ [] ∧
          Forall goodPart ps ∧ partsValue ps = d) as Hone.
  { intros c unit Hu Hpos Hm. pose proof (Z.div_mod d unit ltac:(lia)) as Hdm.
    exists [mkPart (d / unit) c unit]. unfold FormatInt.
    rewrite (proj2 (Z.ltb_ge (d / unit) 0)) by (apply Z.div_pos; lia). rewrite <-decimal_app.
    assert (0 ≤ d / unit) by (apply Z.div_pos; lia). rewrite Forall_singleton. unfold partsValue.
    split_and!; [done|done|split; simpl; [done|nia]|simpl; lia]. }
  destruct (Z.eqb_spec (d mod Hour) 0); [apply Hone; [unfold plainUnit; auto 6 | done | done]|].
  destruct (Z.eqb_spec (d mod Minute) 0); [apply Hone; [unfold plainUnit; auto 6 | done | done]|].
  pose proof (Z.div_mod d Second ltac:(done)). pose proof (Z.div_pos d Second ltac:(lia) ltac:(done)).
  destruct (durationFormat_parts d) as (ps & -> & Hps); [unfold Second in *; lia|done|by exists ps].
Qed.

Lemma durationString_ascii d :
  0 ≤ d < 2 ^ 63 → d mod Second = 0 → Forall (λ b, 0 ≤ b < 128) (bytes_of_string (durationString d)).
Proof.
  intros Hd Hmod. destruct (Z.eq_dec d 0) as [->|Hne]; [vm_compute; repeat constructor; done|].
  destruct (durationString_parts d) as (ps & -> & _ & Hps & _); [lia|done|].
  rewrite bytes_of_string_of_bytes by by apply partsText_bytes. by apply partsText_ascii.
Qed.

(** A window that is written into a credential file is read back as it was: for every
    duration of a whole number of seconds that Go can hold, hours, minutes or mixed, what
    [Duration.String] writes is what [UnmarshalJSON] accepts, with the same value. *)
Theorem window_roundtrip d :
  0 ≤ d < 2 ^ 63 → d mod Second = 0 → durationUnmarshal (durationString d) = Some d.
Proof.
  intros Hd Hmod. unfold durationUnmarshal.
  destruct (Z.eq_dec d 0) as [->|Hne]; [by vm_compute|].
  destruct (durationString_parts d) as (ps & -> & Hps & Hg & Hv); [lia|done|].
  rewrite ParseDuration_text by (done || lia). rewrite Hv. cbn.
  by rewrite (proj2 (Z.ltb_ge d 0)) by lia.
Qed.

Lemma window_roundtrip_witness :
  (3661 * Second) mod Second = 0 ∧ durationUnmarshal (durationString (3661 * Second)) = Some (3661 * Second).
Proof.
  split; [reflexivity|]. apply (window_roundtrip (3661 * Second)); [vm_compute; split; congruence | reflexivity].
Defined.
