(* ===== verification/Config.v ===== *)
(** * Configuration ([internal/config])

    The environment is a function from names to values (a missing variable reads as the
    empty string, as [os.Getenv] does), [FromEnv] reads it and [Validate] is the boot check.
    The grammars of [net.SplitHostPort], [net.ParseIP] and [url.Parse] differ between
    releases of Go and are the operations of the class [NetParsers], with the printing of an
    address and of a url given a new host: the definitions and the theorems hold for any of
    them. An IP address is what [net.ParseIP] gives, sixteen bytes, an IPv4 address behind the
    prefix of the mapped ones (the methods of [net.IP] read its four-byte form alike). *)

From S2P Require Import Prelude Strconv GoDuration.

Open Scope Z_scope.

Record Config := mkConfig {
  c_NodeID : string;
  c_Addr : string;
  c_PublicURL : string;
  c_MeshAddr : string;
  c_MeshPeers : list string;
  c_MeshSecret : string;
  c_MaxMessages : Z;
  c_MaxAcks : Z;
  c_MaxPurges : Z;
  c_MaxPerPair : Z;
  c_MaxPayloadBytes : Z;
  c_MaxTTL : Duration;
  c_MaxChunkBytes : Z;
  c_MaxAttachmentBytes : Z;
  c_RelayMaxWindow : Z;
  c_RelayMaxSessions : Z;
  c_RelayIdleTimeout : Duration;
  c_RelayPollTimeout : Duration;
  c_BodyReadTimeout : Duration;
  c_IdleTimeout : Duration;
  c_DefaultTTL : Duration;
  c_CleanupInterval : Duration;
  c_MeshSyncInterval : Duration;
  c_MeshRequestTimeout : Duration;
  c_PrekeyClaimBurst : Z;
  c_PrekeyClaimRefill : Duration;
  c_MaxPrekeyBuckets : Z;
  c_RequireFetchAuth : bool;
  c_AdmissionFile : string;
  c_RequireAdmission : bool;
}.

Definition MeshEnabled (c : Config) : bool := negb (is_empty (c_MeshSecret c)).

(** ** Reading the environment *)

Definition Environ := string → string.

Definition envString (env : Environ) (key fallback : string) : string :=
  let value := TrimSpace (env key) in
  if negb (is_empty value) then value else fallback.

Definition envInt (env : Environ) (key : string) (fallback : Z) : Z :=
  let value := TrimSpace (env key) in
  if is_empty value then fallback else
  match Atoi value with
  | None => fallback
  | Some parsed => if parsed <=? 0 then fallback else parsed
  end.

Definition envBool (env : Environ) (key : string) (fallback : bool) : bool :=
  let value := TrimSpace (env key) in
  if is_empty value then fallback else default fallback (ParseBool value).

Definition envDuration (env : Environ) (key : string) (fallback : Duration) : Duration :=
  let value := TrimSpace (env key) in
  if is_empty value then fallback else
  match ParseDuration value with
  | None => fallback
  | Some parsed => if parsed <=? 0 then fallback else parsed
  end.

Definition envCSV (env : Environ) (key : string) : list string :=
  let value := TrimSpace (env key) in
  if is_empty value then [] else
  filter (λ trimmed, trimmed ≠ ""%string) (TrimSpace <$> SplitComma value).

Definition FromEnv (env : Environ) : Config :=
  let maxMessages := envInt env "DEE_NODE_MAX_MESSAGES" 1000 in
  {| c_NodeID := envString env "DEE_NODE_ID" "local-node";
     c_Addr := envString env "DEE_NODE_ADDR" ":8080";
     c_PublicURL := envString env "DEE_NODE_PUBLIC_URL" "http://localhost:8080";
     c_MeshAddr := envString env "DEE_NODE_MESH_ADDR" "";
     c_MeshPeers := envCSV env "DEE_NODE_MESH_PEERS";
     c_MeshSecret := envString env "DEE_NODE_MESH_SECRET" "";
     c_MaxMessages := maxMessages;
     c_MaxAcks := envInt env "DEE_NODE_MAX_ACKS" (wrap_int64 (2 * maxMessages));
     c_MaxPurges := envInt env "DEE_NODE_MAX_PURGES" 1000;
     c_MaxPerPair := envInt env "DEE_NODE_MAX_PER_PAIR" 10;
     c_MaxPayloadBytes := envInt env "DEE_NODE_MAX_PAYLOAD_BYTES" 8192;
     c_MaxTTL := envDuration env "DEE_NODE_MAX_TTL" (72 * Hour);
     c_MaxChunkBytes := envInt env "DEE_NODE_MAX_CHUNK_BYTES" (1024 * 1024);
     c_MaxAttachmentBytes := envInt env "DEE_NODE_MAX_ATTACHMENT_BYTES" (50 * 1024 * 1024);
     c_RelayMaxWindow := envInt env "DEE_NODE_RELAY_MAX_WINDOW" 8;
     c_RelayMaxSessions := envInt env "DEE_NODE_RELAY_MAX_SESSIONS" 256;
     c_RelayIdleTimeout := envDuration env "DEE_NODE_RELAY_IDLE_TIMEOUT" (30 * Second);
     c_RelayPollTimeout := envDuration env "DEE_NODE_RELAY_POLL_TIMEOUT" (25 * Second);
     c_BodyReadTimeout := envDuration env "DEE_NODE_BODY_READ_TIMEOUT" (20 * Second);
     c_IdleTimeout := envDuration env "DEE_NODE_IDLE_TIMEOUT" (120 * Second);
     c_DefaultTTL := envDuration env "DEE_NODE_DEFAULT_TTL" (24 * Hour);
     c_CleanupInterval := envDuration env "DEE_NODE_CLEANUP_INTERVAL" (30 * Second);
     c_MeshSyncInterval := envDuration env "DEE_NODE_MESH_SYNC_INTERVAL" (30 * Second);
     c_MeshRequestTimeout := envDuration env "DEE_NODE_MESH_REQUEST_TIMEOUT" (5 * Second);
     c_PrekeyClaimBurst := envInt env "DEE_NODE_PREKEY_CLAIM_BURST" 32;
     c_PrekeyClaimRefill := envDuration env "DEE_NODE_PREKEY_CLAIM_REFILL" Second;
     c_MaxPrekeyBuckets := envInt env "DEE_NODE_MAX_PREKEY_BUCKETS" 5000;
     c_RequireFetchAuth := envBool env "DEE_NODE_REQUIRE_FETCH_AUTH" false;
     c_AdmissionFile := envString env "DEE_NODE_ADMISSION_FILE" "";
     c_RequireAdmission := envBool env "DEE_NODE_REQUIRE_ADMISSION" false |}.

(** ** Addresses *)

(** A parsed url, as far as the relay looks into it. *)
Record URL := mkURL {
  u_Scheme : string;
  u_Host : string;
  u_Hostname : string;
  u_Port : string;
  u_Query : string → string;
}.

(** A [net.IP] of sixteen bytes. *)
Abbreviation IP := (list Z) (only parsing).

Class NetParsers := {
  SplitHostPort : string → option (string * string);
  ParseIP : string → option IP;
  urlParse : string → option URL;
  ipString : IP → string;
  urlStringWithHost : URL → string → string;
  ParseIP_bytes : ∀ s ip, ParseIP s = Some ip → length ip = 16%nat ∧ Forall (λ b, 0 ≤ b < 256) ip;
}.

Definition v4prefix : list Z := replicate 10 0 ++ [255; 255].

(** [ip.To4()]: the four bytes of a mapped IPv4 address. *)
Definition To4 (ip : IP) : option (list Z) :=
  if bool_decide (take 12 ip = v4prefix) then Some (drop 12 ip) else None.

Definition byteAt (ip : IP) (i : nat) : Z := default 0 (ip !! i).

Definition IsUnspecified (ip : IP) : bool :=
  bool_decide (ip = v4prefix ++ replicate 4 0) || bool_decide (ip = replicate 16 0).

Definition IsLoopback (ip : IP) : bool :=
  match To4 ip with
  | Some ip4 => byteAt ip4 0 =? 127
  | None => bool_decide (ip = replicate 15 0 ++ [1])
  end.

Definition IsPrivate (ip : IP) : bool :=
  match To4 ip with
  | Some ip4 => (byteAt ip4 0 =? 10) || ((byteAt ip4 0 =? 172) && (Z.land (byteAt ip4 1) 0xf0 =? 16))
                || ((byteAt ip4 0 =? 192) && (byteAt ip4 1 =? 168))
  | None => Z.land (byteAt ip 0) 0xfe =? 0xfc
  end.

Definition IsLinkLocalUnicast (ip : IP) : bool :=
  match To4 ip with
  | Some ip4 => (byteAt ip4 0 =? 169) && (byteAt ip4 1 =? 254)
  | None => (byteAt ip 0 =? 0xfe) && (Z.land (byteAt ip 1) 0xc0 =? 0x80)
  end.

(** [cgnat.Contains(ip)], with the network 100.64.0.0/10. *)
Definition cgnatContains (ip : IP) : bool :=
  match To4 ip with
  | Some ip4 => (byteAt ip4 0 =? 100) && (Z.land (byteAt ip4 1) 0xc0 =? 64)
  | None => false
  end.

Definition isPrivateIP (ip : IP) : bool :=
  if IsLoopback ip || IsPrivate ip || IsLinkLocalUnicast ip then true else cgnatContains ip.

(** ** The boot check *)

Inductive MeshAddrError := NotHostPort | NoPort | EveryInterface | NotAnIP | PublicAddress.

Inductive PeerURLError := NotAURL | NoHost | ClearTextToPublic | BadScheme.

Inductive ConfigError :=
  | TrustedNodesSet
  | SecretWithoutAddr
  | AddrWithoutSecret
  | PeersWithoutSecret
  | BadMeshAddr (e : MeshAddrError)
  | PeerTwice (peer : string)
  | BadPeerURL (peer : string) (e : PeerURLError)
  | OwnURL
  | NoAckBudget
  | AdmissionWithoutFile.

Section parsers.
Context `{!NetParsers}.

Definition validateMeshAddr (addr : string) : list ConfigError :=
  match SplitHostPort addr with
  | None => [BadMeshAddr NotHostPort]
  | Some (host, port) =>
      if is_empty port then [BadMeshAddr NoPort] else
      if is_empty host then [BadMeshAddr EveryInterface] else
      match ParseIP host with
      | None => [BadMeshAddr NotAnIP]
      | Some ip =>
          if IsUnspecified ip then [BadMeshAddr EveryInterface] else
          if negb (isPrivateIP ip) then [BadMeshAddr PublicAddress] else []
      end
  end.

Definition validatePeerURL (raw : string) : list ConfigError :=
  match urlParse raw with
  | None => [BadPeerURL raw NotAURL]
  | Some parsed =>
      if is_empty (u_Host parsed) then [BadPeerURL raw NoHost] else
      if bool_decide (u_Scheme parsed = "https"%string) then [] else
      if bool_decide (u_Scheme parsed = "http"%string) then
        let host := u_Hostname parsed in
        if (match ParseIP host with Some ip => isPrivateIP ip | None => false end) then [] else
        if bool_decide (host = "localhost"%string) then [] else
        [BadPeerURL raw ClearTextToPublic]
      else [BadPeerURL raw BadScheme]
  end.

(** The loop over the peers, with the set of those seen. *)
Definition validatePeer (st : gset string * list ConfigError) (peer : string)
  : gset string * list ConfigError :=
  let '(seen, errs) := st in
  if bool_decide (peer ∈ seen) then (seen, errs ++ [PeerTwice peer])
  else ({[peer]} ∪ seen, errs ++ validatePeerURL peer).

(** [if test { errs = append(errs, e) }]. *)
Definition complain (test : bool) (e : ConfigError) : list ConfigError :=
  if test then [e] else [].

Definition Validate (env : Environ) (c : Config) : list ConfigError :=
  let secretless := is_empty (c_MeshSecret c) in
  let addressless := is_empty (c_MeshAddr c) in
  let errs := complain (negb (is_empty (TrimSpace (env "DEE_NODE_TRUSTED_NODES"%string))))
                TrustedNodesSet in
  let errs := errs ++ complain (negb secretless && addressless) SecretWithoutAddr in
  let errs := errs ++ complain (negb addressless && secretless) AddrWithoutSecret in
  let errs := errs ++ complain (bool_decide (c_MeshPeers c ≠ []) && secretless)
                PeersWithoutSecret in
  let errs := errs ++ (if negb addressless then validateMeshAddr (c_MeshAddr c) else []) in
  let '(seen, errs) := foldl validatePeer (∅, errs) (c_MeshPeers c) in
  let errs := errs ++ complain (negb (is_empty (c_PublicURL c))
                && bool_decide (TrimRightSlash (c_PublicURL c) ∈ seen)) OwnURL in
  let errs := errs ++ complain ((0 <? c_MaxAcks c) && (0 <? c_MaxMessages c)
                && (c_MaxAcks c <=? c_MaxMessages c)) NoAckBudget in
  errs ++ complain (c_RequireAdmission c && is_empty (c_AdmissionFile c)) AdmissionWithoutFile.
End parsers.
