(* ===== verification/ConfigProps.v ===== *)
(** * The configuration: what the boot check lets through

    [validate_exact] says what a configuration that boots looks like, the private
    address ranges in numbers. *)

From S2P Require Import Prelude Strconv GoDuration Config.

Open Scope Z_scope.

(** ** Masks on a byte *)

Lemma all_bytes (p : Z → bool) :
  forallb p (seqZ 0 256) = true → ∀ b, 0 ≤ b < 256 → p b = true.
Proof.
  rewrite forallb_forall. intros Hp b Hb. apply Hp, list_elem_of_In, elem_of_seqZ. lia.
Qed.

(** A comparison under a mask is a range of bytes. *)
Lemma mask_range mask low high b :
  forallb (λ b, Bool.eqb (Z.land b mask =? low) ((low <=? b) && (b <=? high))) (seqZ 0 256) = true →
  0 ≤ b < 256 → (Z.land b mask =? low) = true ↔ low ≤ b ≤ high.
Proof.
  intros Hall Hb. apply (all_bytes _ Hall), Bool.eqb_prop in Hb. rewrite Hb.
  rewrite andb_true_iff, !Z.leb_le. done.
Qed.

(** ** Private addresses *)

(** Loopback, the private networks, link-local and the shared space, of IPv4. *)
Definition private_v4 (a b : Z) : Prop :=
  a = 127 ∨ a = 10 ∨ (a = 172 ∧ 16 ≤ b ≤ 31) ∨ (a = 192 ∧ b = 168) ∨
  (a = 169 ∧ b = 254) ∨ (a = 100 ∧ 64 ≤ b ≤ 127).

(** Loopback, unique-local and link-local, of IPv6. *)
Definition private_v6 (ip : IP) : Prop :=
  ip = replicate 15 0 ++ [1] ∨
  ∃ a b rest, ip = a :: b :: rest ∧ (0xfc ≤ a ≤ 0xfd ∨ (a = 0xfe ∧ 0x80 ≤ b ≤ 0xbf)).

Definition private_address (ip : IP) : Prop :=
  (∃ a b c d, ip = v4prefix ++ [a; b; c; d] ∧ private_v4 a b) ∨
  (take 12 ip ≠ v4prefix ∧ private_v6 ip).

Lemma isPrivateIP_v4 a b c d :
  0 ≤ b < 256 → isPrivateIP (v4prefix ++ [a; b; c; d]) = true ↔ private_v4 a b.
Proof.
  intros Hb. unfold isPrivateIP, IsLoopback, IsPrivate, IsLinkLocalUnicast, cgnatContains, To4.
  rewrite take_app_length', drop_app_length' by done. rewrite bool_decide_eq_true_2 by done.
  unfold byteAt. cbn [lookup list_lookup default id from_option].
  pose proof (mask_range 0xf0 16 31 b ltac:(by vm_compute) Hb) as H1.
  pose proof (mask_range 0xc0 64 127 b ltac:(by vm_compute) Hb) as H2.
  unfold private_v4. rewrite <-H1, <-H2, !Z.eqb_eq. clear H1 H2.
  destruct (_ || _ || _) eqn:Hor.
  - rewrite !orb_true_iff, !andb_true_iff, !Z.eqb_eq in Hor. tauto.
  - rewrite !orb_false_iff, !andb_false_iff, !Z.eqb_neq in Hor.
    rewrite andb_true_iff, !Z.eqb_eq. tauto.
Qed.

Lemma isPrivateIP_v6 ip :
  length ip = 16%nat → Forall (λ b, 0 ≤ b < 256) ip → take 12 ip ≠ v4prefix →
  isPrivateIP ip = true ↔ private_v6 ip.
Proof.
  intros Hl Hb Hv. unfold isPrivateIP, IsLoopback, IsPrivate, IsLinkLocalUnicast, cgnatContains, To4.
  rewrite !(bool_decide_eq_false_2 (_ = v4prefix)) by done. unfold private_v6.
  destruct ip as [|a [|b rest]]; [done..|].
  apply Forall_cons in Hb as [Ha [Hb _]%Forall_cons].
  unfold byteAt. cbn [lookup list_lookup default id from_option].
  pose proof (mask_range 0xfe 0xfc 0xfd a ltac:(by vm_compute) Ha) as H1.
  pose proof (mask_range 0xc0 0x80 0xbf b ltac:(by vm_compute) Hb) as H2.
  assert ((if bool_decide (a :: b :: rest = replicate 15 0 ++ [1]) || (Z.land a 254 =? 252)
              || ((a =? 254) && (Z.land b 192 =? 128)) then true else false) = true ↔
          a :: b :: rest = replicate 15 0 ++ [1] ∨ 0xfc ≤ a ≤ 0xfd ∨ (a = 0xfe ∧ 0x80 ≤ b ≤ 0xbf))
    as ->.
  { rewrite <-H1, <-H2, <-Z.eqb_eq. case_bool_decide; simpl; [tauto|].
    destruct (_ =? 252), (_ =? 254), (_ =? 128); simpl; naive_solver. }
  naive_solver.
Qed.

Lemma isPrivateIP_exact ip :
  length ip = 16%nat → Forall (λ b, 0 ≤ b < 256) ip → isPrivateIP ip = true ↔ private_address ip.
Proof.
  intros Hl Hb. unfold private_address. destruct (decide (take 12 ip = v4prefix)) as [Hv|Hv].
  - pose proof (take_drop 12 ip) as E. rewrite Hv in E. set (rest := drop 12 ip) in E.
    rewrite <-E in *. clearbody rest. rewrite length_app in Hl.
    apply Forall_app in Hb as [_ Hb].
    destruct rest as [|a [|b [|c [|d [|? ?]]]]]; simpl in Hl; try lia.
    apply Forall_cons in Hb as [_ [Hb _]%Forall_cons]. rewrite (isPrivateIP_v4 a b c d Hb).
    split; [naive_solver|]. intros [(a' & b' & c' & d' & He & H)|[He _]]; [|done].
    simpl in He. by simplify_eq.
  - rewrite isPrivateIP_v6 by done. split; [naive_solver|].
    intros [(a & b & c & d & -> & _)|[_ ?]]; [by destruct Hv|done].
Qed.

Lemma private_not_unspecified ip : private_address ip → IsUnspecified ip = false.
Proof.
  unfold IsUnspecified. rewrite orb_false_iff, !bool_decide_eq_false.
  intros [(a & b & c & d & -> & Hp)|[Hv [->|(a & b & rest & -> & Hp)]]].
  - split; [|done]. intros [= -> ->]. unfold private_v4 in Hp. lia.
  - done.
  - split; intros [= -> -> ->]; lia.
Qed.

(** ** The boot check *)

Section parsers.
Context `{!NetParsers}.

(** A mesh listener on one private address. *)
Definition private_listener (addr : string) : Prop :=
  ∃ host port ip, SplitHostPort addr = Some (host, port) ∧ port ≠ ""%string ∧ host ≠ ""%string ∧
    ParseIP host = Some ip ∧ private_address ip.

(** A peer that the pool secret can be sent to: under TLS, or in the clear to a private
    address or to this host. *)
Definition safe_peer (raw : string) : Prop :=
  ∃ u, urlParse raw = Some u ∧ u_Host u ≠ ""%string ∧
    (u_Scheme u = "https"%string ∨
     (u_Scheme u = "http"%string ∧
      (u_Hostname u = "localhost"%string ∨
       ∃ ip, ParseIP (u_Hostname u) = Some ip ∧ private_address ip))).

Lemma validateMeshAddr_exact addr : validateMeshAddr addr = [] ↔ private_listener addr.
Proof.
  unfold validateMeshAddr, private_listener.
  destruct (SplitHostPort addr) as [[host port]|]; [|naive_solver].
  destruct (is_empty port) eqn:Hp; reflect_bools; [naive_solver|].
  destruct (is_empty host) eqn:Hh; reflect_bools; [naive_solver|].
  destruct (ParseIP host) as [ip|] eqn:Hip; [|naive_solver].
  destruct (ParseIP_bytes _ _ Hip) as [Hl Hb]. pose proof (isPrivateIP_exact ip Hl Hb) as Hx.
  split.
  - destruct (IsUnspecified ip); [done|]. destruct (isPrivateIP ip); [naive_solver|done].
  - intros (? & ? & ip' & [= <- <-] & _ & _ & Hip' & Hpriv).
    assert (ip' = ip) as -> by congruence.
    rewrite (private_not_unspecified ip Hpriv). by apply Hx in Hpriv as ->.
Qed.

Lemma validatePeerURL_exact raw : validatePeerURL raw = [] ↔ safe_peer raw.
Proof.
  unfold validatePeerURL, safe_peer. destruct (urlParse raw) as [u|]; [|naive_solver].
  destruct (is_empty (u_Host u)) eqn:Hh; reflect_bools; [naive_solver|].
  case_bool_decide as Hs; [naive_solver|]. case_bool_decide as Hs'; [|naive_solver]. cbv zeta.
  case_bool_decide as Hlh.
  { split; [intros _; exists u; naive_solver | intros _].
    by destruct (ParseIP _) as [ip|]; [destruct (isPrivateIP ip)|]. }
  destruct (ParseIP (u_Hostname u)) as [ip|] eqn:Hip; [|naive_solver].
  destruct (ParseIP_bytes _ _ Hip) as [Hl Hb]. pose proof (isPrivateIP_exact ip Hl Hb) as Hx.
  destruct (isPrivateIP ip); [|naive_solver].
  split; [|done]. intros _. exists u. naive_solver.
Qed.

Lemma validatePeers_exact peers seen errs :
  (foldl validatePeer (seen, errs) peers).1 = list_to_set peers ∪ seen ∧
  ((foldl validatePeer (seen, errs) peers).2 = [] ↔
   errs = [] ∧ NoDup peers ∧ (∀ p, p ∈ peers → p ∉ seen) ∧ Forall safe_peer peers).
Proof.
  revert seen errs. induction peers as [|p peers IH]; intros seen errs; simpl.
  { split; [set_solver|]. split; [|tauto]. intros ->. split_and!; [done|constructor|set_solver|done]. }
  case_bool_decide as Hp.
  - destruct (IH seen (errs ++ [PeerTwice p])) as [-> ->]. split; [set_solver|].
    split; [by intros [[_ ?]%app_eq_nil _] | set_solver].
  - destruct (IH ({[p]} ∪ seen) (errs ++ validatePeerURL p)) as [-> ->]. split; [set_solver|].
    rewrite NoDup_cons, Forall_cons, <-validatePeerURL_exact. split.
    + intros ([-> ->]%app_eq_nil & ? & Hs & ?). set_solver.
    + intros (-> & [??] & ? & -> & ?). set_solver.
Qed.

Lemma complain_nil test e : complain test e = [] ↔ test = false.
Proof. by destruct test. Qed.

Lemma is_empty_true s : is_empty s = true ↔ s = ""%string.
Proof. apply bool_decide_eq_true. Qed.

Lemma is_empty_false s : is_empty s = false ↔ s ≠ ""%string.
Proof. apply bool_decide_eq_false. Qed.

Lemma not_not_nil {A} (l : list A) : ¬ l ≠ [] ↔ l = [].
Proof. destruct l; naive_solver. Qed.

(** C28: The boot check lets exactly the right configurations through. [Validate] reports no
    problem exactly when the abandoned peer variable is unset, the mesh secret and
    the mesh listener are set together, peers are named only with a secret, the listener is
    one private address, the peers are distinct and each is reached under TLS or at a private
    address, none of them is the relay's own public url, the ack store is larger than the
    message store wherever both are given, and an enforcing relay has a credential file. *)
Theorem validate_exact env c :
  Validate env c = [] ↔
  TrimSpace (env "DEE_NODE_TRUSTED_NODES"%string) = ""%string ∧
  (c_MeshSecret c = ""%string ↔ c_MeshAddr c = ""%string) ∧
  (c_MeshSecret c = ""%string → c_MeshPeers c = []) ∧
  (c_MeshAddr c ≠ ""%string → private_listener (c_MeshAddr c)) ∧
  NoDup (c_MeshPeers c) ∧ Forall safe_peer (c_MeshPeers c) ∧
  (c_PublicURL c ≠ ""%string → TrimRightSlash (c_PublicURL c) ∉ c_MeshPeers c) ∧
  (0 < c_MaxAcks c → 0 < c_MaxMessages c → c_MaxMessages c < c_MaxAcks c) ∧
  (c_RequireAdmission c = true → c_AdmissionFile c ≠ ""%string).
Proof.
  unfold Validate. cbv zeta.
  match goal with |- context [foldl validatePeer (?s, ?e) ?l] =>
    destruct (validatePeers_exact l s e) as [H1 H2]; destruct (foldl validatePeer (s, e) l) as [seen errs]
  end.
  simpl in H1, H2. subst seen. rewrite !app_nil, H2, !app_nil, !complain_nil. clear H2.
  rewrite <-(validateMeshAddr_exact (c_MeshAddr c)).
  rewrite !andb_false_iff, !negb_false_iff, !is_empty_true, !is_empty_false, bool_decide_eq_false,
    not_not_nil, bool_decide_eq_false, union_empty_r_L, elem_of_list_to_set, Z.ltb_ge, Z.ltb_ge,
    Z.leb_gt.
  assert ((if negb (is_empty (c_MeshAddr c)) then validateMeshAddr (c_MeshAddr c) else []) = [] ↔
          (c_MeshAddr c ≠ "" → validateMeshAddr (c_MeshAddr c) = [])%string) as ->.
  { destruct (is_empty (c_MeshAddr c)) eqn:He; reflect_bools; naive_solver. }
  assert (∀ p, p ∈ c_MeshPeers c → p ∉ (∅ : gset string)) by set_solver.
  assert ((c_MaxAcks c ≤ 0 ∨ c_MaxMessages c ≤ 0) ∨ c_MaxMessages c < c_MaxAcks c ↔
          (0 < c_MaxAcks c → 0 < c_MaxMessages c → c_MaxMessages c < c_MaxAcks c)) as -> by lia.
  assert (c_RequireAdmission c = false ∨ c_AdmissionFile c ≠ ""%string ↔
          (c_RequireAdmission c = true → c_AdmissionFile c ≠ ""%string)) as ->
    by (destruct (c_RequireAdmission c); naive_solver).
  destruct (decide (c_MeshAddr c = ""%string)), (decide (c_MeshSecret c = ""%string)),
    (decide (c_PublicURL c = ""%string)); tauto.
Qed.
End parsers.

(** Parsers that know one address, for the examples. *)
#[refine] Definition demoParsers : NetParsers := {|
  SplitHostPort s := if bool_decide (s = "10.0.0.2:9000"%string)
                     then Some ("10.0.0.2", "9000")%string else None;
  ParseIP s := if bool_decide (s = "10.0.0.2"%string) then Some (v4prefix ++ [10; 0; 0; 2]) else None;
  urlParse s := if bool_decide (s = "http://10.0.0.2:9000"%string)
                then Some (mkURL "http" "10.0.0.2:9000" "10.0.0.2" "9000" (λ _, ""%string)) else None;
  ipString _ := "10.0.0.2"%string;
  urlStringWithHost u h := (u_Scheme u +:+ "://" +:+ h)%string;
|}.
Proof.
  intros s ip. case_bool_decide; [|done]. intros [= <-]. split; [done|].
  rewrite ?Forall_cons. split_and!; try lia. by apply Forall_nil.
Defined.
