(* ===== verification/Peer.v ===== *)
(** * The peer pool ([internal/peer])

    The roster of peering urls with the outcome of the last sync of each, and the url the
    relay advertises for itself. The interfaces of the host and the clock are arguments. *)

From Stdlib Require Import Floats.SpecFloat.
From S2P Require Import Prelude Strconv Float64 GoDuration Config.

Open Scope Z_scope.

(** ** The advertised address *)

Definition selfAddressRecheckInterval : Duration := 15 * Second.

Record selfAddress := mkSelfAddress {
  sa_configured : string;
  sa_template : option URL;
  sa_port : string;
  sa_tracking : bool;
  sa_current : string;
  sa_currentIP : IP;
  sa_lastCheck : Time;
}.

Definition IsMulticast (ip : IP) : bool :=
  match To4 ip with
  | Some ip4 => Z.land (byteAt ip4 0) 0xf0 =? 0xe0
  | None => byteAt ip 0 =? 0xff
  end.

Definition usableHostIP (ip : IP) : bool :=
  if IsUnspecified ip || IsLoopback ip || IsMulticast ip then false
  else negb (IsLinkLocalUnicast ip).

Definition containsIP (addresses : list IP) (want : IP) : bool :=
  existsb (λ candidate, bool_decide (candidate = want)) addresses.

(** What the system reports of one interface; [None] where reading its addresses fails. *)
Record Interface := mkInterface {
  if_up : bool;
  if_loopback : bool;
  if_addrs : option (list IP);
}.

Definition hostAddresses (interfaces : option (list Interface)) : list IP :=
  match interfaces with
  | None => []
  | Some interfaces =>
      foldl (λ addresses iface,
               if negb (if_up iface) || if_loopback iface then addresses else
               match if_addrs iface with
               | None => addresses
               | Some candidates => addresses ++ filter (λ ip, usableHostIP ip = true) candidates
               end) [] interfaces
  end.

(** The first address of the same family, else the first one. [None] stands for the panic
    of [addresses[0]] on an empty list. *)
Definition pickHostIP (addresses : list IP) (previous : IP) : option IP :=
  let wantV4 := bool_decide (is_Some (To4 previous)) in
  match List.find (λ candidate, Bool.eqb (bool_decide (is_Some (To4 candidate))) wantV4) addresses with
  | Some candidate => Some candidate
  | None => head addresses
  end.

(** Whether a string has a colon. *)
Fixpoint has_colon (s : string) : bool :=
  match s with
  | EmptyString => false
  | String c s => bool_decide (c = Ascii.ascii_of_nat 58) || has_colon s
  end.

Section parsers.
Context `{!NetParsers}.

Definition hostPort (ip : IP) (port : string) : string :=
  let host := ipString ip in
  let host := if has_colon host then ("[" +:+ host +:+ "]")%string else host in
  if is_empty port then host else (host +:+ ":" +:+ port)%string.

Definition latch (a : selfAddress) (localIPs : list IP) : selfAddress :=
  match urlParse (sa_configured a) with
  | None => a
  | Some parsed =>
      if is_empty (u_Host parsed) then a else
      match ParseIP (u_Hostname parsed) with
      | None => a
      | Some ip =>
          if negb (usableHostIP ip) then a else
          if negb (containsIP localIPs ip) then a else
          mkSelfAddress (sa_configured a) (Some parsed) (u_Port parsed) true (sa_current a) ip
            (sa_lastCheck a)
      end
  end.

Definition newSelfAddress (configured : string) (localIPs : list IP) : selfAddress :=
  latch (mkSelfAddress configured None "" false configured [] 0) localIPs.

(** The url to publish and whether it changed. *)
Definition resolve (a : selfAddress) (now : Time) (localIPs : list IP)
  : (string * bool) * selfAddress :=
  if negb (sa_tracking a) then ((sa_configured a, false), a) else
  if negb (IsZero (sa_lastCheck a)) && (Sub now (sa_lastCheck a) <? selfAddressRecheckInterval)
  then ((sa_current a, false), a) else
  let a := mkSelfAddress (sa_configured a) (sa_template a) (sa_port a) (sa_tracking a)
             (sa_current a) (sa_currentIP a) now in
  if bool_decide (localIPs = []) then ((sa_current a, false), a) else
  if containsIP localIPs (sa_currentIP a) then ((sa_current a, false), a) else
  match pickHostIP localIPs (sa_currentIP a), sa_template a with
  | Some replacement, Some template =>
      let current := urlStringWithHost template (hostPort replacement (sa_port a)) in
      ((current, true),
       mkSelfAddress (sa_configured a) (sa_template a) (sa_port a) (sa_tracking a) current
         replacement now)
  | _, _ => ((sa_current a, false), a)
  end.

(** ** The pool *)

(** The text of an error is the caller's argument. *)
Record Status := mkStatus {
  st_URL : string;
  st_ClaimedID : string;
  st_LastSuccessAt : Time;
  st_LastAttemptAt : Time;
  st_LastError : string;
  st_ConsecutiveFailures : Z;
}.

Record Pool := mkPool {
  p_selfID : string;
  p_selfURL : selfAddress;
  p_peers : list string;
  p_status : gmap string Status;
}.

Definition addPeer (pool : Pool) (url : string) : Pool :=
  if is_empty url || bool_decide (is_Some (p_status pool !! url)) then pool else
  mkPool (p_selfID pool) (p_selfURL pool) (p_peers pool ++ [url])
    (<[url := mkStatus url "" 0 0 "" 0]> (p_status pool)).

Definition NewPool (selfID selfURL : string) (peerURLs : list string) (localIPs : list IP) : Pool :=
  foldl addPeer (mkPool selfID (newSelfAddress selfURL localIPs) [] ∅) peerURLs.

(** [model.NodeInfo], with the fields [Self] fills. *)
Record NodeInfo := mkNodeInfo {
  n_ID : string;
  n_URL : string;
  n_LastSeen : Time;
  n_Trusted : bool;
  n_Reachable : bool;
}.

Definition with_selfURL (a : selfAddress) (pool : Pool) : Pool :=
  mkPool (p_selfID pool) a (p_peers pool) (p_status pool).

(** The clock is read by [resolve] and then for the record. *)
Definition Self (pool : Pool) (now now' : Time) (localIPs : list IP) : NodeInfo * Pool :=
  let '((advertised, _), a) := resolve (p_selfURL pool) now localIPs in
  (mkNodeInfo (p_selfID pool) advertised now' true true, with_selfURL a pool).

Definition RefreshSelfURL (pool : Pool) (now : Time) (localIPs : list IP) : (string * bool) * Pool :=
  let '(answer, a) := resolve (p_selfURL pool) now localIPs in (answer, with_selfURL a pool).
End parsers.

Definition Targets (pool : Pool) : list string := p_peers pool.

Definition with_status (m : gmap string Status) (pool : Pool) : Pool :=
  mkPool (p_selfID pool) (p_selfURL pool) (p_peers pool) m.

Definition RecordSuccess (pool : Pool) (url claimedID : string) (now : Time) : Pool :=
  match p_status pool !! url with
  | None => pool
  | Some status =>
      with_status (<[url := mkStatus (st_URL status) claimedID now now "" 0]> (p_status pool)) pool
  end.

Definition RecordFailure (pool : Pool) (url : string) (err : option string) (now : Time) : Pool :=
  match p_status pool !! url with
  | None => pool
  | Some status =>
      with_status (<[url := mkStatus (st_URL status) (st_ClaimedID status) (st_LastSuccessAt status)
                              now (default (st_LastError status) err)
                              (st_ConsecutiveFailures status + 1)]> (p_status pool)) pool
  end.

Record Health := mkHealth { h_Peers : Z; h_Reachable : Z; h_OldestSyncAgeSec : Z }.

(** [int(x)] of a float64: its whole part, towards zero. *)
Definition f_int (x : spec_float) : Z :=
  match x with
  | S754_finite s m e => let v := Z.shiftl (Zpos m) e in if s then - v else v
  | _ => 0
  end.

(** [int(d.Seconds())]; [Seconds] adds the whole seconds and the fraction in float64. *)
Definition ageSeconds (d : Duration) : Z :=
  f_int (f_add (f_of_int (Z.quot d Second)) (f_div (f_of_int (Z.rem d Second)) (f_of_int Second))).

Definition zeroStatus : Status := mkStatus "" "" 0 0 "" 0.

(** The loop of [Health]: the peers that are left, the reachable ones so far and the
    oldest age. It stops at the first peer that never synced. *)
Fixpoint healthLoop (pool : Pool) (now : Time) (urls : list string) (reachable oldest : Z) : Z * Z :=
  match urls with
  | [] => (reachable, oldest)
  | url :: urls =>
      let status := default zeroStatus (p_status pool !! url) in
      let reachable := if (st_ConsecutiveFailures status =? 0)
                          && negb (IsZero (st_LastSuccessAt status))
                       then reachable + 1 else reachable in
      if IsZero (st_LastSuccessAt status) then (reachable, -1) else
      let age := ageSeconds (Sub now (st_LastSuccessAt status)) in
      let age := if age <? 0 then 0 else age in
      healthLoop pool now urls reachable (if oldest <? age then age else oldest)
  end.

Definition HealthOf (pool : Pool) (now : Time) : Health :=
  let '(reachable, oldest) := healthLoop pool now (p_peers pool) 0 (-1) in
  mkHealth (Z.of_nat (length (p_peers pool))) reachable oldest.

Definition Statuses (pool : Pool) : list Status :=
  (λ url, default zeroStatus (p_status pool !! url)) <$> p_peers pool.
