(* ===== verification/PeerProps.v ===== *)
(** * The peer pool: what it publishes

    [health_exact] relates the published health to the history of sync attempts, and
    [advertised_address_held] is the contract of the advertised url. *)

From S2P Require Import Prelude Strconv Float64 GoDuration Config ConfigProps Peer.

Open Scope Z_scope.

(** ** Histories of attempts *)

Inductive attempt :=
  | Succeeded (url claimedID : string) (now : Time)
  | Failed (url : string) (err : option string) (now : Time).

Definition attemptURL (x : attempt) : string :=
  match x with Succeeded url _ _ | Failed url _ _ => url end.

Definition record (pool : Pool) (x : attempt) : Pool :=
  match x with
  | Succeeded url claimedID now => RecordSuccess pool url claimedID now
  | Failed url err now => RecordFailure pool url err now
  end.

(** Of the attempts on one peer: the time of the last that succeeded (zero if none did), and
    how many failed since. *)
Definition outcome (url : string) (st : Time * Z) (x : attempt) : Time * Z :=
  if negb (bool_decide (attemptURL x = url)) then st else
  match x with Succeeded _ _ now => (now, 0) | Failed _ _ _ => (st.1, st.2 + 1) end.

Definition outcomeOf (history : list attempt) (url : string) : Time * Z :=
  foldl (outcome url) (0, 0) history.

Definition lastSuccess (history : list attempt) (url : string) : Time := (outcomeOf history url).1.

(** The last attempt on the peer succeeded. *)
Definition reachable (history : list attempt) (url : string) : bool :=
  negb (IsZero (lastSuccess history url)) && ((outcomeOf history url).2 =? 0).

Lemma outcome_count url st x : 0 ≤ st.2 → 0 ≤ (outcome url st x).2.
Proof. unfold outcome. destruct (negb _), x; simpl; lia. Qed.

(** ** The pool after a history *)

Definition statusOk (history : list attempt) (url : string) (s : Status) : Prop :=
  (st_LastSuccessAt s, st_ConsecutiveFailures s) = outcomeOf history url.

Definition PoolOk (peers : list string) (history : list attempt) (pool : Pool) : Prop :=
  p_peers pool = peers ∧
  (∀ url, url ∈ peers ↔ is_Some (p_status pool !! url)) ∧
  (∀ url s, p_status pool !! url = Some s → statusOk history url s).

Lemma record_ok peers history pool x :
  PoolOk peers history pool → PoolOk peers (history ++ [x]) (record pool x).
Proof.
  intros (Hp & Hd & Hs).
  assert (∀ url s, p_status pool !! url = Some s → attemptURL x ≠ url → statusOk (history ++ [x]) url s)
    as Hother.
  { intros url s Hu Hne. unfold statusOk, outcomeOf, outcome. rewrite foldl_app. simpl.
    rewrite bool_decide_eq_false_2 by done. by apply Hs. }
  assert (∀ s0 s', p_status pool !! attemptURL x = Some s0 →
    statusOk (history ++ [x]) (attemptURL x) s' →
    PoolOk peers (history ++ [x]) (with_status (<[attemptURL x := s']> (p_status pool)) pool)) as Hput.
  { intros s0 s' H0 Hs'. split; [done|]. split; intros url; simpl.
    - rewrite Hd. destruct (decide (attemptURL x = url)) as [<-|Hne].
      + by rewrite lookup_insert_eq, H0.
      + by rewrite lookup_insert_ne.
    - intros s. rewrite lookup_insert. case_decide as Hx; [intros [= <-]; by subst|].
      intros ?. by apply Hother. }
  assert (p_status pool !! attemptURL x = None → PoolOk peers (history ++ [x]) pool) as Hnone.
  { intros Hn. split_and!; [done..|]. intros url s Hu. apply Hother; [done|]. congruence. }
  destruct x as [url id now|url err now]; simpl in *; unfold RecordSuccess, RecordFailure;
    destruct (p_status pool !! url) as [s|] eqn:Hu; auto;
    (eapply Hput; [done|]); unfold statusOk, outcomeOf, outcome; rewrite foldl_app; simpl;
    rewrite bool_decide_eq_true_2 by done; simpl; [done|].
  apply Hs in Hu. unfold statusOk in Hu. unfold outcomeOf, outcome in Hu. by rewrite <-Hu.
Qed.

Lemma records_ok peers history0 pool history :
  PoolOk peers history0 pool → PoolOk peers (history0 ++ history) (foldl record pool history).
Proof.
  revert history0 pool. induction history as [|x history IH]; intros history0 pool Hok; simpl.
  - by rewrite app_nil_r.
  - rewrite cons_middle, app_assoc. by apply IH, record_ok.
Qed.

Section parsers.
Context `{!NetParsers}.

Lemma addPeer_ok peers pool url :
  PoolOk peers [] pool → NoDup peers →
  let peers' := if is_empty url || bool_decide (url ∈ peers) then peers else peers ++ [url] in
  PoolOk peers' [] (addPeer pool url) ∧ NoDup peers'.
Proof.
  intros (Hp & Hd & Hs) Hnd. unfold addPeer. simpl.
  rewrite <-(bool_decide_ext (url ∈ peers) _ (Hd url)).
  destruct (is_empty url); simpl; [done|]. case_bool_decide as Hin; [done|]. split.
  - split; [by rewrite <-Hp|]. split; intros u; simpl; rewrite lookup_insert.
    + case_decide as Hx; [split; [done|]; set_solver|]. rewrite <-Hd. set_solver.
    + intros s. case_decide; [by intros [= <-] | apply Hs].
  - apply NoDup_app. split_and!; [done|set_solver|apply NoDup_singleton].
Qed.

(** The roster [NewPool] builds: the given urls without blanks and repetitions. *)
Lemma NewPool_ok selfID selfURL urls localIPs :
  ∃ peers, PoolOk peers [] (NewPool selfID selfURL urls localIPs) ∧ NoDup peers ∧
    ∀ url, url ∈ peers ↔ url ∈ urls ∧ url ≠ ""%string.
Proof.
  unfold NewPool. set (pool0 := mkPool _ _ _ _).
  assert (∃ peers, PoolOk peers [] pool0 ∧ NoDup peers ∧ ∀ url, url ∈ peers ↔ False) as H0.
  { exists []. split; [split; [done|]|split; [constructor|set_solver]].
    split; intros url; simpl; rewrite lookup_empty; [|done]. split; [set_solver|by intros []]. }
  destruct H0 as (peers & Hok & Hnd & Hin). revert Hok Hnd Hin. generalize pool0. clear pool0.
  enough (∀ (Q : string → Prop) pool peers, PoolOk peers [] pool → NoDup peers →
    (∀ url, url ∈ peers ↔ Q url) →
    ∃ peers', PoolOk peers' [] (foldl addPeer pool urls) ∧ NoDup peers' ∧
      ∀ url, url ∈ peers' ↔ Q url ∨ (url ∈ urls ∧ url ≠ ""%string)) as Hgen.
  { intros pool Hok Hnd Hin. destruct (Hgen _ _ _ Hok Hnd Hin) as (peers' & ? & ? & Hx).
    exists peers'. split_and!; [done..|]. intros url. rewrite Hx. tauto. }
  clear peers. induction urls as [|u urls IH]; intros Q pool peers Hok Hnd Hin; simpl.
  { exists peers. split_and!; [done..|]. intros url. rewrite Hin. set_solver. }
  destruct (addPeer_ok peers pool u Hok Hnd) as [Hok' Hnd'].
  destruct (IH (λ url, Q url ∨ (url = u ∧ u ≠ ""%string)) _ _ Hok' Hnd') as (peers' & ? & ? & Hx).
  { intros url. destruct (is_empty u) eqn:He; reflect_bools; simpl; [rewrite Hin; naive_solver|].
    case_bool_decide as Hu; [|rewrite elem_of_app]; rewrite ?list_elem_of_singleton, Hin.
    - apply Hin in Hu. naive_solver.
    - naive_solver. }
  exists peers'. split_and!; [done..|]. intros url. rewrite Hx, elem_of_cons. naive_solver.
Qed.

(** ** The published health *)

(** The age in whole seconds, zero if the clock stepped back since. *)
Definition age (history : list attempt) (now : Time) (url : string) : Z :=
  Z.max 0 (ageSeconds (Sub now (lastSuccess history url))).

Definition countReachable (history : list attempt) (urls : list string) : Z :=
  Z.of_nat (length (filter (λ url, reachable history url = true) urls)).

Lemma healthLoop_spec peers history pool now urls n oldest :
  PoolOk peers history pool → urls ⊆ peers → -1 ≤ oldest →
  healthLoop pool now urls n oldest =
    if decide (Exists (λ url, lastSuccess history url = 0) urls)
    then ((healthLoop pool now urls n oldest).1, -1)
    else (n + countReachable history urls, foldl (λ o url, Z.max o (age history now url)) oldest urls).
Proof.
  intros (Hp & Hd & Hs). revert n oldest. induction urls as [|url urls IH]; intros n oldest Hsub Ho.
  { rewrite decide_False by (rewrite Exists_nil; tauto). simpl. unfold countReachable. simpl. f_equal. lia. }
  assert (is_Some (p_status pool !! url)) as [s Hu] by (apply Hd; set_solver).
  pose proof (Hs _ _ Hu) as Hst. unfold statusOk in Hst.
  cbn [healthLoop]. rewrite Hu. cbn [default from_option id]. cbv zeta.
  assert (st_LastSuccessAt s = lastSuccess history url) as Hl by (unfold lastSuccess; by rewrite <-Hst).
  assert ((st_ConsecutiveFailures s =? 0) && negb (IsZero (st_LastSuccessAt s)) = reachable history url)
    as Hr.
  { unfold reachable. by rewrite <-Hl, andb_comm, <-Hst. }
  rewrite Hr, Hl. destruct (IsZero (lastSuccess history url)) eqn:Hz.
  { apply Z.eqb_eq in Hz. rewrite decide_True; [done|]. by apply Exists_cons_hd. }
  assert ((if ageSeconds (Sub now (lastSuccess history url)) <? 0 then 0
           else ageSeconds (Sub now (lastSuccess history url))) = age history now url) as ->.
  { unfold age. destruct (Z.ltb_spec (ageSeconds (Sub now (lastSuccess history url))) 0); lia. }
  rewrite IH; [|set_solver|unfold age; destruct (oldest <? _); lia].
  unfold IsZero in Hz. apply Z.eqb_neq in Hz.
  destruct (decide (Exists _ urls)) as [Hn|Hn].
  { by rewrite decide_True by by apply Exists_cons_tl. }
  rewrite decide_False by (rewrite Exists_cons; tauto).
  f_equal.
  - unfold countReachable. rewrite filter_cons. destruct (reachable history url).
    + rewrite decide_True by done. simpl. lia.
    + rewrite decide_False by done. lia.
  - simpl. f_equal. destruct (Z.ltb_spec oldest (age history now url)); lia.
Qed.

Lemma foldl_max_spec {A} (f : A → Z) l o :
  o ≤ foldl (λ o x, Z.max o (f x)) o l ∧ (∀ x, x ∈ l → f x ≤ foldl (λ o x, Z.max o (f x)) o l) ∧
  (foldl (λ o x, Z.max o (f x)) o l = o ∨ ∃ x, x ∈ l ∧ foldl (λ o x, Z.max o (f x)) o l = f x).
Proof.
  revert o. induction l as [|x l IH]; intros o; simpl; [split_and!; [lia|set_solver|by left]|].
  destruct (IH (Z.max o (f x))) as (H1 & H2 & H3). split_and!; [lia| |].
  - intros y [->|Hy]%elem_of_cons; [lia|by apply H2].
  - destruct H3 as [H3|(y & Hy & H3)]; [|right; exists y; set_solver].
    rewrite H3. destruct (Z.max_spec o (f x)) as [[_ ->]|[_ ->]]; [right; exists x; set_solver|by left].
Qed.

(** The published health is exact. After any history of sync attempts on the pool that
    was configured, the number of peers is the number of configured urls; the age is -1
    exactly when there are no peers or one of them has never synced, and otherwise it is the
    largest age of a last successful sync; and when every peer has synced, the peers counted
    as reachable are exactly those whose last attempt succeeded. *)
Theorem health_exact selfID selfURL urls localIPs history now :
  NoDup urls → ""%string ∉ urls →
  let h := HealthOf (foldl record (NewPool selfID selfURL urls localIPs) history) now in
  h_Peers h = Z.of_nat (length urls) ∧
  (h_OldestSyncAgeSec h = -1 ↔ urls = [] ∨ ∃ url, url ∈ urls ∧ lastSuccess history url = 0) ∧
  (h_OldestSyncAgeSec h ≠ -1 →
     h_Reachable h = countReachable history urls ∧
     (∃ url, url ∈ urls ∧ h_OldestSyncAgeSec h = age history now url) ∧
     ∀ url, url ∈ urls → age history now url ≤ h_OldestSyncAgeSec h).
Proof.
  intros Hnd He. destruct (NewPool_ok selfID selfURL urls localIPs) as (peers & Hok & Hnd' & Hin).
  assert (peers ≡ₚ urls) as Hperm.
  { apply NoDup_Permutation; [done..|]. intros url. rewrite Hin. naive_solver. }
  apply (records_ok _ _ _ history) in Hok. simpl in Hok. set (pool := foldl record _ _) in *.
  unfold HealthOf. destruct Hok as (Hp & Hrest).
  pose proof (healthLoop_spec peers history pool now peers 0 (-1) (conj Hp Hrest) ltac:(done) ltac:(lia)) as Hl.
  rewrite Hp. destruct (healthLoop _ _ _ _ _) as [n o]. simpl in Hl.
  cbn [h_Peers h_Reachable h_OldestSyncAgeSec]. split; [by rewrite Hperm|].
  assert (∀ url, url ∈ urls ↔ url ∈ peers) as Hu by (intros url; by rewrite Hperm).
  setoid_rewrite Hu.
  assert (urls = [] ↔ peers = []) as ->.
  { split; intros ->; [by apply Permutation_nil_r in Hperm | by apply Permutation_nil_l in Hperm]. }
  rewrite <-Exists_exists. destruct (decide _) as [Hx|Hx]; [injection Hl as -> | injection Hl as -> ->].
  { split; [split; [by right|done]|done]. }
  destruct (foldl_max_spec (age history now) peers (-1)) as (H1 & H2 & H3).
  split.
  - split; [|intros [->|?]; done]. intros Ho. left. destruct peers as [|url peers]; [done|].
    pose proof (H2 url ltac:(set_solver)) as Ha. unfold age in Ha at 1. lia.
  - intros Ho. split_and!; [|by destruct H3 as [H3|H3]|done].
    unfold countReachable. by rewrite Hperm.
Qed.

(** ** The advertised url *)

Definition checkedAll (configured : string) (ips0 : list IP) (checks : list (Time * list IP)) : selfAddress :=
  foldl (λ a '(now, ips), (resolve a now ips).2) (newSelfAddress configured ips0) checks.

(** A check is due: the first one, and then one every fifteen seconds. *)
Definition due (a : selfAddress) (now : Time) : Prop :=
  sa_lastCheck a = 0 ∨ selfAddressRecheckInterval ≤ Sub now (sa_lastCheck a).

(** What [latch] fixes for good. *)
Definition Latched (configured : string) (ips0 : list IP) (a : selfAddress) : Prop :=
  sa_configured a = configured ∧
  if sa_tracking a
  then ∃ u ip, urlParse configured = Some u ∧ ParseIP (u_Hostname u) = Some ip ∧
         usableHostIP ip = true ∧ ip ∈ ips0 ∧ sa_template a = Some u ∧ sa_port a = u_Port u
  else sa_current a = configured.

Lemma containsIP_iff ips ip : containsIP ips ip = true ↔ ip ∈ ips.
Proof.
  unfold containsIP. rewrite existsb_exists. setoid_rewrite <-list_elem_of_In.
  setoid_rewrite bool_decide_eq_true. naive_solver.
Qed.

Lemma newSelfAddress_latched configured ips0 : Latched configured ips0 (newSelfAddress configured ips0).
Proof.
  unfold newSelfAddress, latch. simpl. destruct (urlParse configured) as [u|] eqn:Hu; [|done].
  destruct (is_empty (u_Host u)); [done|]. destruct (ParseIP (u_Hostname u)) as [ip|] eqn:Hip; [|done].
  destruct (usableHostIP ip) eqn:Hus; [|done]. destruct (containsIP ips0 ip) eqn:Hc; [|done].
  apply containsIP_iff in Hc. split; [done|]. exists u, ip. done.
Qed.

Lemma pickHostIP_spec ips previous :
  ips ≠ [] → ∃ ip, pickHostIP ips previous = Some ip ∧ ip ∈ ips ∧
    ((∃ x, x ∈ ips ∧ (is_Some (To4 x) ↔ is_Some (To4 previous))) →
     is_Some (To4 ip) ↔ is_Some (To4 previous)).
Proof.
  intros Hne. unfold pickHostIP.
  assert (∀ x, Bool.eqb (bool_decide (is_Some (To4 x))) (bool_decide (is_Some (To4 previous))) = true ↔
    (is_Some (To4 x) ↔ is_Some (To4 previous))) as Hb.
  { intros x. rewrite eqb_true_iff. do 2 case_bool_decide; naive_solver. }
  destruct (List.find _ ips) as [ip|] eqn:Hf.
  - apply find_some in Hf as [Hin%list_elem_of_In Hf%Hb]. by exists ip.
  - destruct ips as [|ip ips]; [done|]. exists ip. split_and!; [done|set_solver|].
    intros (x & Hx%list_elem_of_In & Hf'%Hb). by rewrite (find_none _ _ Hf x Hx) in Hf'.
Qed.

Lemma resolve_latched configured ips0 a now ips :
  Latched configured ips0 a → Latched configured ips0 (resolve a now ips).2.
Proof.
  intros [Hc Ht]. unfold resolve. destruct (sa_tracking a) eqn:Htr; simpl.
  2:{ unfold Latched. by rewrite Htr. }
  destruct Ht as (u & ip & Hu & Hip & Hus & Hin & Htm & Hp).
  destruct (_ && _); [unfold Latched; cbn [snd]; rewrite Htr; naive_solver|].
  case_bool_decide; [split; simpl; rewrite ?Htr; naive_solver|].
  destruct (containsIP _ _); [split; simpl; rewrite ?Htr; naive_solver|].
  rewrite Htm. destruct (pickHostIP _ _); split; simpl; rewrite ?Htr; naive_solver.
Qed.

Lemma checkedAll_latched configured ips0 checks :
  Latched configured ips0 (checkedAll configured ips0 checks).
Proof.
  unfold checkedAll. apply (foldl_inv (Latched configured ips0)).
  - apply newSelfAddress_latched.
  - intros a [now ips] _. apply resolve_latched.
Qed.

(** The relay advertises an address it holds. However often the address was checked, a
    configured url that is not a usable literal address of this host is published as it
    was configured, for ever; a url that is one is rebuilt exactly when a check is due, the
    host has addresses and no longer holds the one in the url, and then on an address the
    host holds, of the same family if there is one. *)
Theorem advertised_address_held configured ips0 checks now ips :
  let a := checkedAll configured ips0 checks in
  let '((url, changed), a') := resolve a now ips in
  (sa_tracking a = false → url = configured ∧ changed = false) ∧
  (sa_tracking a = true →
     (∃ u ip, urlParse configured = Some u ∧ ParseIP (u_Hostname u) = Some ip ∧ ip ∈ ips0 ∧
        (changed = true → url = urlStringWithHost u (hostPort (sa_currentIP a') (u_Port u)))) ∧
     url = sa_current a' ∧
     (changed = true ↔ due a now ∧ ips ≠ [] ∧ sa_currentIP a ∉ ips) ∧
     (due a now → ips ≠ [] → sa_currentIP a' ∈ ips ∧
        ((∃ x, x ∈ ips ∧ (is_Some (To4 x) ↔ is_Some (To4 (sa_currentIP a)))) →
         is_Some (To4 (sa_currentIP a')) ↔ is_Some (To4 (sa_currentIP a))))).
Proof.
  intros a. destruct (checkedAll_latched configured ips0 checks) as [Hc Ht]. fold a in Hc, Ht.
  clearbody a. unfold resolve, due. destruct (sa_tracking a) eqn:Htr; simpl.
  2:{ split; [by rewrite Hc|done]. }
  destruct Ht as (u & ip & Hu & Hip & Hus & Hin & Htm & Hp).
  destruct (negb (IsZero (sa_lastCheck a)) && (Sub now (sa_lastCheck a) <? selfAddressRecheckInterval))
    eqn:Hdue; unfold IsZero in Hdue.
  { rewrite andb_true_iff, negb_true_iff, Z.eqb_neq, Z.ltb_lt in Hdue.
    split; [done|]. intros _. split_and!; [exists u, ip; naive_solver|done| |]; naive_solver lia. }
  assert (sa_lastCheck a = 0 ∨ selfAddressRecheckInterval ≤ Sub now (sa_lastCheck a)) as Hd.
  { rewrite andb_false_iff, negb_false_iff, Z.eqb_eq, Z.ltb_ge in Hdue. done. }
  case_bool_decide as Hips.
  { split; [done|]. intros _. split_and!; [exists u, ip; naive_solver|done| |]; naive_solver. }
  destruct (containsIP ips (sa_currentIP a)) eqn:Hcon.
  { apply containsIP_iff in Hcon. split; [done|]. intros _.
    split_and!; [exists u, ip; naive_solver|done| |]; naive_solver. }
  assert (sa_currentIP a ∉ ips) as Hno by (rewrite <-containsIP_iff; by rewrite Hcon).
  destruct (pickHostIP_spec ips (sa_currentIP a) Hips) as (rep & Hrep & Hrin & Hfam).
  rewrite Hrep, Htm. split; [done|]. intros _. simpl.
  split_and!; [exists u, ip; rewrite Hp; naive_solver|done| |]; naive_solver.
Qed.
End parsers.

Lemma health_exact_witness :
  NoDup ["a"; "b"]%string ∧
  let h := HealthOf (foldl record (NewPool (H := demoParsers) "me" "http://me" ["a"; "b"]%string [])
             [Succeeded "a" "x" (5 * Second); Succeeded "b" "y" (8 * Second); Failed "b" None (9 * Second)])
             (12 * Second) in
  h_OldestSyncAgeSec h ≠ -1 ∧
  h_Reachable h = countReachable [Succeeded "a" "x" (5 * Second); Succeeded "b" "y" (8 * Second);
                                  Failed "b" None (9 * Second)] ["a"; "b"]%string ∧
  h_OldestSyncAgeSec h = 7 ∧ h_Reachable h = 1.
Proof.
  assert (NoDup ["a"; "b"]%string) as Hn by (apply (bool_decide_unpack (NoDup _)); by vm_compute).
  assert (""%string ∉ ["a"; "b"]%string) as He
    by (apply (bool_decide_unpack (¬ (""%string ∈ ["a"; "b"]%string))); by vm_compute).
  split; [exact Hn|]. intros h.
  assert (h_OldestSyncAgeSec h ≠ -1) as Ho by (subst h; vm_compute; done).
  split; [exact Ho|].
  destruct (health_exact (H := demoParsers) "me" "http://me" ["a"; "b"]%string []
    [Succeeded "a" "x" (5 * Second); Succeeded "b" "y" (8 * Second); Failed "b" None (9 * Second)]
    (12 * Second) Hn He) as (_ & _ & Hx).
  destruct (Hx Ho) as [Hr _]. split; [exact Hr|]. by vm_compute.
Defined.

(** The count of reachable peers stops at the first peer that never synced, so one
    peer that is down since boot hides every healthy peer configured after it. *)
Lemma unsynced_peer_hides_reachable :
  let history := [Succeeded "b" "y" (8 * Second)] in
  let h := HealthOf (foldl record (NewPool (H := demoParsers) "me" "http://me" ["a"; "b"]%string []) history)
             (12 * Second) in
  countReachable history ["a"; "b"]%string = 1 ∧ h_Reachable h = 0.
Proof. by vm_compute. Qed.
