(* ===== verification/Node.v ===== *)
(** * The running relay: its shared state and the programs that act on it

    [Node] is what the goroutines of one process share: the stores behind the HTTP server and
    the mesh syncer. A handler is not one atomic step: every call it makes takes the lock
    of a store and gives it back, and other goroutines run in between. [Prog] is the type
    of such programs, a sequence of atomic calls, and it is a monad; [run] runs a program
    alone, and [sysStep] interleaves any number of them.

    What a call gets from outside the process is its [Env]: the unspecified choices of the
    runtime, the readings of the clock it takes, the bytes [crypto/rand] gives it and the
    addresses of the host. *)

From S2P Require Import Prelude Config Peer QueueStore Attachment Prekey Presence Admission.

Open Scope Z_scope.

(** ** The shared state *)

(** The cursor of the mesh syncer for one peer. *)
Record cursor := mkCursor { cu_epoch : string; cu_seq : Z }.

Record Node := mkNode {
  nd_store : QueueStore.Store;
  nd_pool : Pool;
  nd_presence : Presence.Store;
  nd_attachments : Attachment.Relay;
  nd_prekeys : Prekey.Store;
  nd_admissions : Admission.Store;
  nd_sessions : Admission.Sessions;
  nd_cursors : gmap string cursor;
}.

Definition with_store x n := mkNode x (nd_pool n) (nd_presence n) (nd_attachments n)
  (nd_prekeys n) (nd_admissions n) (nd_sessions n) (nd_cursors n).
Definition with_pool x n := mkNode (nd_store n) x (nd_presence n) (nd_attachments n)
  (nd_prekeys n) (nd_admissions n) (nd_sessions n) (nd_cursors n).
Definition with_presence x n := mkNode (nd_store n) (nd_pool n) x (nd_attachments n)
  (nd_prekeys n) (nd_admissions n) (nd_sessions n) (nd_cursors n).
Definition with_attachments x n := mkNode (nd_store n) (nd_pool n) (nd_presence n) x
  (nd_prekeys n) (nd_admissions n) (nd_sessions n) (nd_cursors n).
Definition with_prekeys x n := mkNode (nd_store n) (nd_pool n) (nd_presence n) (nd_attachments n)
  x (nd_admissions n) (nd_sessions n) (nd_cursors n).
Definition with_admissions x n := mkNode (nd_store n) (nd_pool n) (nd_presence n) (nd_attachments n)
  (nd_prekeys n) x (nd_sessions n) (nd_cursors n).
Definition with_sessions x n := mkNode (nd_store n) (nd_pool n) (nd_presence n) (nd_attachments n)
  (nd_prekeys n) (nd_admissions n) x (nd_cursors n).
Definition with_cursors x n := mkNode (nd_store n) (nd_pool n) (nd_presence n) (nd_attachments n)
  (nd_prekeys n) (nd_admissions n) (nd_sessions n) x.

Lemma with_store_id n : with_store (nd_store n) n = n.
Proof. by destruct n. Qed.
Lemma with_sessions_id n : with_sessions (nd_sessions n) n = n.
Proof. by destruct n. Qed.
Lemma with_admissions_id n : with_admissions (nd_admissions n) n = n.
Proof. by destruct n. Qed.

(** ** Programs *)

Record Env := mkEnv {
  e_rt : GoRuntime;
  e_clock : nat → Time;
  e_raw : option (list Z);
  e_localIPs : list IP;
}.

(** The first reading of the clock in a call, the only one in most of them. *)
Definition e_now (e : Env) : Time := e_clock e 0%nat.

Inductive Prog (A : Type) : Type :=
  | Ret (a : A)
  | Call (X : Type) (f : Env → Node → X * Node) (k : X → Prog A).
Arguments Ret {A} a.
Arguments Call {A X} f k.

#[export] Instance Prog_ret : MRet Prog := λ A a, Ret a.
#[export] Instance Prog_bind : MBind Prog := λ A B k,
  fix bind p := match p with Ret a => k a | Call f k' => Call f (λ x, bind (k' x)) end.

(** A call on one store. *)
Definition onStore {X} (f : Env → QueueStore.Store → X * QueueStore.Store) : Prog X :=
  Call (λ e n, let '(x, s) := f e (nd_store n) in (x, with_store s n)) Ret.
Definition onPool {X} (f : Env → Pool → X * Pool) : Prog X :=
  Call (λ e n, let '(x, s) := f e (nd_pool n) in (x, with_pool s n)) Ret.
Definition onPresence {X} (f : Env → Presence.Store → X * Presence.Store) : Prog X :=
  Call (λ e n, let '(x, s) := f e (nd_presence n) in (x, with_presence s n)) Ret.
Definition onAttachments {X} (f : Env → Attachment.Relay → X * Attachment.Relay) : Prog X :=
  Call (λ e n, let '(x, s) := f e (nd_attachments n) in (x, with_attachments s n)) Ret.
Definition onPrekeys {X} (f : Env → Prekey.Store → X * Prekey.Store) : Prog X :=
  Call (λ e n, let '(x, s) := f e (nd_prekeys n) in (x, with_prekeys s n)) Ret.
Definition onAdmissions {X} (f : Env → Admission.Store → X * Admission.Store) : Prog X :=
  Call (λ e n, let '(x, s) := f e (nd_admissions n) in (x, with_admissions s n)) Ret.
Definition onSessions {X} (f : Env → Admission.Sessions → X * Admission.Sessions) : Prog X :=
  Call (λ e n, let '(x, s) := f e (nd_sessions n) in (x, with_sessions s n)) Ret.
Definition onCursors {X} (f : gmap string cursor → X * gmap string cursor) : Prog X :=
  Call (λ _ n, let '(x, s) := f (nd_cursors n) in (x, with_cursors s n)) Ret.

(** [time.Now()] outside any store. *)
Definition readClock : Prog Time := Call (λ e n, (e_now e, n)) Ret.

(** A program alone: no other goroutine runs until it is done. *)
Fixpoint run {A} (p : Prog A) (envs : nat → Env) (n : Node) : A * Node :=
  match p with
  | Ret a => (a, n)
  | Call f k => let '(x, n) := f (envs 0%nat) n in run (k x) (λ i, envs (S i)) n
  end.

(** How many calls a program alone makes. *)
Fixpoint calls {A} (p : Prog A) (envs : nat → Env) (n : Node) : nat :=
  match p with
  | Ret _ => 0%nat
  | Call f k => let '(x, n) := f (envs 0%nat) n in S (calls (k x) (λ i, envs (S i)) n)
  end.

Lemma run_bind {A B} (p : Prog A) (k : A → Prog B) envs n :
  run (p ≫= k) envs n =
  let '(a, n') := run p envs n in run (k a) (λ i, envs (calls p envs n + i)%nat) n'.
Proof.
  revert envs n. induction p as [a|X f k' IH]; intros envs n; simpl; [done|].
  destruct (f (envs 0%nat) n) as [x n']. by rewrite IH.
Qed.

(** ** What the calls of a program do

    [Moves R p]: every atomic call of the program moves the state along the relation [R],
    whatever state it finds, so under any interleaving each of its steps does. *)
Fixpoint Moves {A} (R : Node → Node → Prop) (p : Prog A) : Prop :=
  match p with
  | Ret _ => True
  | Call f k => (∀ e n, R n (f e n).2) ∧ ∀ x, Moves R (k x)
  end.

Lemma Moves_bind {A B} R (p : Prog A) (k : A → Prog B) :
  Moves R p → (∀ a, Moves R (k a)) → Moves R (p ≫= k).
Proof.
  induction p as [a|X f k' IH]; intros Hp Hk; simpl in *; [done|].
  destruct Hp as [Hf Hp]. split; [done|]. intros x. by apply IH.
Qed.

Lemma Moves_ret {A} R (a : A) : Moves R (mret a).
Proof. done. Qed.

Lemma Moves_run {A} R `{!PreOrder R} (p : Prog A) envs n : Moves R p → R n (run p envs n).2.
Proof.
  revert envs n. induction p as [a|X f k IH]; intros envs n Hp; simpl in *; [done|].
  destruct Hp as [Hf Hp]. specialize (Hf (envs 0%nat) n).
  destruct (f (envs 0%nat) n) as [x n']. etrans; [exact Hf|]. by apply IH.
Qed.

(** ** Interleaving

    The process: the shared state and the goroutines, each what is left of its program. Any
    goroutine may make its next call, in any environment, and [spawns] says which programs
    may start. *)
Record System := mkSystem { sy_node : Node; sy_threads : list (Prog ()) }.

(** A program whose answer goes out to its caller. *)
Definition fork {A} (p : Prog A) : Prog () := _ ← p; mret ().

Inductive sysStep (spawns : Prog () → Prop) : System → System → Prop :=
  | Spawn n ts p : spawns p → sysStep spawns (mkSystem n ts) (mkSystem n (ts ++ [p]))
  | Advance n ts1 ts2 e X (f : Env → Node → X * Node) k :
      sysStep spawns (mkSystem n (ts1 ++ Call f k :: ts2))
                     (mkSystem (f e n).2 (ts1 ++ k (f e n).1 :: ts2)).

(** If every program that may start moves the state along a preorder, so does every
    interleaving of them. *)
Lemma sysSteps_move spawns R `{!PreOrder R} σ σ' :
  (∀ p, spawns p → Moves R p) →
  rtc (sysStep spawns) σ σ' →
  Forall (Moves R) (sy_threads σ) →
  R (sy_node σ) (sy_node σ') ∧ Forall (Moves R) (sy_threads σ').
Proof.
  intros Hsp. induction 1 as [σ|σ1 σ2 σ3 Hstep _ IH]; intros Ht; [done|].
  assert (R (sy_node σ1) (sy_node σ2) ∧ Forall (Moves R) (sy_threads σ2)) as [H1 H2].
  { destruct Hstep as [n ts p Hp|n ts1 ts2 e X f k]; simpl in *.
    - split; [done|]. apply Forall_app. split; [done|]. apply Forall_singleton. by apply Hsp.
    - apply Forall_app in Ht as [Ht1 [[Hf Hk] Ht2]%Forall_cons]. split; [apply Hf|].
      apply Forall_app. split; [done|]. constructor; [apply Hk|done]. }
  destruct (IH H2) as [H3 H4]. split; [by etrans|done].
Qed.

(** One goroutine makes its next call, if it has one: an interleaving that can be evaluated. *)
Definition advance (i : nat) (e : Env) (σ : System) : System :=
  match sy_threads σ !! i with
  | Some (Call f k) =>
      let '(x, n) := f e (sy_node σ) in mkSystem n (<[i := k x]> (sy_threads σ))
  | _ => σ
  end.

Lemma advance_steps spawns i e σ : rtc (sysStep spawns) σ (advance i e σ).
Proof.
  unfold advance. destruct (sy_threads σ !! i) as [[a|X f k]|] eqn:Hi; [done| |done].
  destruct σ as [n ts]. simpl in *.
  pose proof (Advance spawns n (take i ts) (drop (S i) ts) e X f k) as Hs.
  rewrite (take_drop_middle _ _ _ Hi) in Hs. destruct (f e n) as [x n'] eqn:Hf. simpl in Hs.
  rewrite insert_take_drop by (by eapply lookup_lt_Some). by apply rtc_once.
Qed.
