(* ===== verification/Server.v ===== *)
(** * The HTTP server ([internal/httpapi/server.go] and [body_limit.go])

    One program per handler, with a call for every call the handler makes into a store, in
    the order of the source and with every early return. A request is its headers and query
    parameters (functions from names to values, the empty string where there is none) and
    the outcome of decoding its body. A response is its status and its JSON document. *)

From Stdlib Require Import Strings.String.
From S2P Require Import Prelude Strconv Crypto GoDuration Model Config Peer Capability.
From S2P Require Import QueueStore Attachment Prekey Presence Admission Node.

Open Scope Z_scope.

(** ** Requests and responses *)

Record Http := mkHttp { header : string → string; query : string → string }.

(** How decoding a body fails: the size limit of the route, its read deadline, or anything
    else. *)
Inductive DecodeError := MaxBytes | DeadlineExceeded | OtherDecodeError.

Definition Decoded (A : Type) : Type := DecodeError + A.

Record HealthReport := mkHealthReport {
  hr_nodeId : string;
  hr_uptimeSec : Z;
  hr_queues : QueueStore.Stats;
  hr_presence : Z;
  hr_attachments : Attachment.Stats;
  hr_maxAttachmentBytes : Z;
  hr_prekeys : Z;
  hr_prekeysLastResort : Z;
  hr_prekeyBuckets : Z;
  hr_requireFetchAuth : bool;
  hr_requireAdmission : bool;
  hr_meshEnabled : bool;
  hr_mesh : Health;
}.

Inductive Body :=
  | BError (code : string)
  | BAccepted (duplicate : bool)
  | BPosted (duplicate : bool) (ack : AckRecord)
  | BMessages (messages : list MessageEnvelope)
  | BAcks (acks : list AckRecord)
  | BChunks (chunks : list Chunk)
  | BRemoved (removed : Z)
  | BHeartbeat
  | BPresence (presence : list PresenceStatus)
  | BPurged (messages acks presence : Z)
  | BPublished (added available : Z)
  | BPrekey (prekey : PrekeyEntry)
  | BAvailable (available : Z)
  | BNodes (nodes : list NodeInfo)
  | BHealth (report : HealthReport)
  | BChallenge (nonce : string) (expiresInSec : Z)
  | BSession (session : string) (expiresInSec : Z) (terms : Terms)
  | BSnapshot (payload : SyncPayload).

(** [NoReply]: the client went away during a long poll and nothing is written. *)
Inductive Response := Reply (status : Z) (body : Body) | NoReply.

Definition writeError (status : Z) (code : string) : Prog Response := mret (Reply status (BError code)).

(** [err] is [None] where the decode succeeded and what it gave is refused. *)
Definition writeDecodeError (err : option DecodeError) (code : string) : Prog Response :=
  match err with
  | Some MaxBytes => writeError 413 "payload_too_large"
  | Some DeadlineExceeded => writeError 408 "body_incomplete"
  | _ => writeError 400 code
  end.

(** ** Parameters of a request *)

Definition parseLimit (r : Http) (fallback : Z) : Z :=
  let value := query r "limit" in
  if is_empty value then fallback else
  match Atoi value with
  | None => fallback
  | Some parsed => if parsed <=? 0 then fallback else if 500 <? parsed then 500 else parsed
  end.

Definition parseSince (r : Http) : option Z :=
  let value := query r "since" in
  if is_empty value then Some 0 else ParseUint value.

Definition queueCapabilityHeader : string := "X-Dee-Queue-Capability".
Definition meshSecretHeader : string := "X-Dee-Mesh-Secret".
Definition admissionHeader : string := "X-Dee-Admission".

Definition secretsOf (r : Http) : list string := Fields (header r queueCapabilityHeader).

Definition queueAuth (c : Config) (r : Http) : option Auth :=
  let secrets := secretsOf r in
  if c_RequireFetchAuth c && bool_decide (secrets = []) then None
  else Some (NewAuth secrets (negb (c_RequireFetchAuth c))).

Definition queueSubject (r : Http) : option string :=
  let subject := Subject (NewAuth (secretsOf r) false) in
  if is_empty subject then None else Some subject.

Definition presenceGrant (grant : Admission.Grant) (r : Http) : Presence.Grant :=
  let subject := Subject (NewAuth (secretsOf r) false) in
  if negb (is_empty subject) then Presence.mkGrant ("tag:" +:+ subject) else
  if negb (ga_Index grant =? 0) then Presence.mkGrant ("credential:" +:+ FormatUint (ga_Index grant))
  else Presence.zeroGrant.

(** [subtle.ConstantTimeCompare] is equality of bytes. *)
Definition isTrustedPeer (c : Config) (r : Http) : bool :=
  if negb (MeshEnabled c) then false
  else bool_decide (header r meshSecretHeader = c_MeshSecret c).

(** ** The gate *)

(** The method [admit]: the grant a request is charged to, or the response it is refused
    with. Each table has its own lock. *)
Definition admitCall (c : Config) (r : Http) : Prog (Response + Admission.Grant) :=
  let token := header r admissionHeader in
  let refused status code := mret (inl (Reply status (BError code))) in
  if is_empty token then
    if c_RequireAdmission c then refused 401 "admission_required" else mret (inr Admission.zeroGrant)
  else
  resolved ← onSessions (λ e s, Resolve s token (e_now e));
  match resolved with
  | inl _ => refused 401 "admission_stale"
  | inr credentialID =>
      found ← onAdmissions (λ e s, (Lookup s credentialID (e_now e), s));
      match found with
      | inl err =>
          _ ← onSessions (λ _ s, ((), Forget s credentialID));
          if bool_decide (err = ErrExpiredCredential) then refused 403 "admission_expired"
          else refused 403 "admission_refused"
      | inr grant => mret (inr grant)
      end
  end.

(** A handler behind the gate. *)
Definition gated (c : Config) (r : Http) (handler : Admission.Grant → Prog Response) : Prog Response :=
  admission ← admitCall c r;
  match admission with inl refusal => mret refusal | inr grant => handler grant end.

Definition challengeHandler : Prog Response :=
  outcome ← onSessions (λ e s, Challenge (H := e_rt e) s (e_now e) (e_raw e));
  match outcome with
  | inl _ => writeError 429 "admission_busy"
  | inr (nonce, ttl) => mret (Reply 200 (BChallenge nonce (secondsOf ttl)))
  end.

Definition redeemHandler (ed25519Verify : list Z → list Z → list Z → bool)
    (value : Decoded (string * string * string)) : Prog Response :=
  match value with
  | inl _ => writeError 400 "invalid_admission_proof"
  | inr (credential, nonce, signature64) =>
    if is_empty credential || is_empty nonce || is_empty signature64
    then writeError 400 "invalid_admission_proof" else
    match Base64.RawURLDecodeString signature64 with
    | None => writeError 400 "invalid_admission_proof"
    | Some signature =>
      err ← onSessions (λ e s, VerifyProof ed25519Verify s credential nonce signature (e_now e));
      match err with
      | Some _ => writeError 403 "admission_refused"
      | None =>
        found ← onAdmissions (λ e s, (Lookup s credential (e_now e), s));
        match found with
        | inl ErrExpiredCredential =>
            _ ← onSessions (λ _ s, ((), Forget s credential));
            writeError 403 "admission_expired"
        | inl _ => writeError 403 "admission_refused"
        | inr grant =>
            opened ← onSessions (λ e s, Open (H := e_rt e) s credential (e_now e) (e_raw e));
            match opened with
            | inl ErrGateBusy => writeError 429 "admission_busy"
            | inl _ => writeError 403 "admission_refused"
            | inr (token, ttl) => mret (Reply 200 (BSession token (secondsOf ttl) (ga_Terms grant)))
            end
        end
      end
    end
  end.

(** ** Messages and acks *)

Definition handlePostMessage (c : Config) (r : Http) (body : Decoded MessageEnvelope) : Prog Response :=
  gated c r (λ grant,
  match body with
  | inl err => writeDecodeError (Some err) "invalid_json"
  | inr envelope =>
    if c_RequireFetchAuth c && (is_empty (m_RecipientTag envelope) || is_empty (m_SenderTag envelope))
    then writeError 400 "fetch_tag_required" else
    posted ← onStore (λ e s, AddMessageWithGrant s (e_now e) envelope (c_NodeID c) (queueGrant grant));
    let '(ack, err) := posted in
    match err with
    | None => mret (Reply 202 (BPosted false ack))
    | Some QueueStore.ErrDuplicate => mret (Reply 200 (BPosted true ack))
    | Some ErrExpired => writeError 410 "expired"
    | Some ErrPayloadTooLarge => writeError 413 "payload_too_large"
    | Some ErrPairQuotaFull => writeError 429 "pair_quota_full"
    | Some ErrSlotsFull => writeError 429 "circle_slots_full"
    | Some ErrQueueFull => writeError 429 "queue_full"
    | Some _ => writeError 400 "invalid_message"
    end
  end).

Definition handleGetMessages (c : Config) (r : Http) : Prog Response :=
  gated c r (λ _,
  let recipient := query r "recipient" in
  if is_empty recipient then writeError 400 "missing_recipient" else
  match queueAuth c r with
  | None => writeError 401 "capability_required"
  | Some auth =>
    messages ← onStore (λ e s, MessagesForRecipient (H := e_rt e) s (e_now e) recipient
                                 (parseLimit r 100) auth);
    mret (Reply 200 (BMessages messages))
  end).

Definition handlePostAck (c : Config) (r : Http) (body : Decoded AckRecord) : Prog Response :=
  gated c r (λ grant,
  match queueAuth c r with
  | None => writeError 401 "capability_required"
  | Some auth =>
    match body with
    | inl err => writeDecodeError (Some err) "invalid_json"
    | inr ack =>
      err ← onStore (λ e s, AddAckWithGrant s (e_now e) ack (c_NodeID c) (queueGrant grant) auth);
      match err with
      | None => mret (Reply 202 (BAccepted false))
      | Some QueueStore.ErrDuplicate => mret (Reply 200 (BAccepted true))
      | Some ErrExpired => writeError 410 "expired"
      | Some ErrNotOwned => writeError 403 "ack_not_authorized"
      | Some ErrQueueFull => writeError 429 "queue_full"
      | Some _ => writeError 400 "invalid_ack"
      end
    end
  end).

Definition handleGetAcks (c : Config) (r : Http) : Prog Response :=
  gated c r (λ _,
  let sender := query r "sender" in
  if is_empty sender then writeError 400 "missing_sender" else
  match queueAuth c r with
  | None => writeError 401 "capability_required"
  | Some auth =>
    acks ← onStore (λ e s, AcksForSender (H := e_rt e) s (e_now e) sender (parseLimit r 100) auth);
    mret (Reply 200 (BAcks acks))
  end).

(** ** Presence and purges *)

Definition handlePresenceHeartbeat (c : Config) (r : Http) (body : Decoded PresenceHeartbeat)
  : Prog Response :=
  gated c r (λ grant,
  match body with
  | inl err => writeDecodeError (Some err) "invalid_presence"
  | inr value =>
    accepted ← onPresence (λ e s, HeartbeatWithGrant (H := e_rt e) s (e_now e) value
                                    (presenceGrant grant r));
    if negb accepted then writeDecodeError None "invalid_presence" else mret (Reply 202 BHeartbeat)
  end).

(** The body is the grant hashes of the query. *)
Definition handlePresenceQuery (c : Config) (r : Http) (body : Decoded (list string)) : Prog Response :=
  gated c r (λ _,
  match body with
  | inl err => writeDecodeError (Some err) "invalid_query"
  | inr grants =>
    presence ← onPresence (λ e s, Query (H := e_rt e) s (e_now e) grants);
    mret (Reply 200 (BPresence presence))
  end).

(** The body is the owner hash. *)
Definition handlePresenceRevoke (body : Decoded string) : Prog Response :=
  match body with
  | inl err => writeDecodeError (Some err) "invalid_revoke"
  | inr ownerHash =>
    if is_empty ownerHash then writeDecodeError None "invalid_revoke" else
    removed ← onPresence (λ e s, Revoke (H := e_rt e) s (e_now e) ownerHash);
    mret (Reply 200 (BRemoved removed))
  end.

(** The body is the purge hash. *)
Definition handleProfilePurge (body : Decoded string) : Prog Response :=
  match body with
  | inl err => writeDecodeError (Some err) "invalid_purge"
  | inr purgeHash =>
    if is_empty purgeHash then writeDecodeError None "invalid_purge" else
    purged ← onStore (λ e s, PurgeOwner (H := e_rt e) s (e_now e) purgeHash);
    presenceRemoved ← onPresence (λ e s, Revoke (H := e_rt e) s (e_now e) purgeHash);
    mret (Reply 200 (BPurged purged.1 purged.2 presenceRemoved))
  end.

(** ** Prekeys *)

Definition handlePublishPrekeys (c : Config) (r : Http) (body : Decoded PrekeyPublish) : Prog Response :=
  gated c r (λ _,
  match queueSubject r with
  | None => writeError 401 "capability_required"
  | Some owner =>
    match body with
    | inl err => writeDecodeError (Some err) "invalid_prekey_publish"
    | inr value =>
      if bool_decide (k_Entries value = []) && bool_decide (k_LastResortEntry value = None)
      then writeDecodeError None "invalid_prekey_publish" else
      published ← onPrekeys (λ e s, Publish (H := e_rt e) s (e_now e) owner value);
      let '(added, ok) := published in
      if negb ok then writeError 429 "prekey_store_full" else
      available ← onPrekeys (λ e s, Prekey.Status (H := e_rt e) s (e_now e) owner (k_DeviceKey value));
      mret (Reply 202 (BPublished added available))
    end
  end).

Definition handleClaimPrekey (c : Config) (r : Http) : Prog Response :=
  gated c r (λ _,
  let tag := query r "tag" in
  if is_empty tag then writeError 400 "missing_tag" else
  claimed ← onPrekeys (λ e s, Claim (H := e_rt e) s (e_now e) tag (query r "device"));
  let '(entry, ok) := claimed in
  if negb ok then writeError 404 "prekey_pool_drained" else mret (Reply 200 (BPrekey entry))).

Definition handlePrekeyStatus (c : Config) (r : Http) : Prog Response :=
  gated c r (λ _,
  match queueSubject r with
  | None => writeError 401 "capability_required"
  | Some owner =>
    available ← onPrekeys (λ e s, Prekey.Status (H := e_rt e) s (e_now e) owner (query r "device"));
    mret (Reply 200 (BAvailable available))
  end).

(** ** Attachments *)

Definition handlePostAttachmentChunk (c : Config) (r : Http) (body : Decoded Chunk) : Prog Response :=
  gated c r (λ grant,
  match body with
  | inl err => writeDecodeError (Some err) "invalid_json"
  | inr chunk =>
    err ← onAttachments (λ e s, PushWithGrant (H := e_rt e) s (e_now e) chunk (attachmentGrant grant));
    match err with
    | None => mret (Reply 202 (BAccepted false))
    | Some Attachment.ErrDuplicate => mret (Reply 200 (BAccepted true))
    | Some ErrWindowFull => writeError 429 "window_full"
    | Some ErrTooManySessions => writeError 429 "relay_busy"
    | Some ErrTooLarge => writeError 413 "attachment_too_large"
    | Some ErrTooManyChunks => writeError 413 "chunk_count_too_high"
    | Some ErrTransitExhausted => writeError 429 "transit_exhausted"
    | Some _ => writeError 400 "invalid_attachment_chunk"
    end
  end).

(** How long the poll may park: the configured limit, or less if the client asks for it. The
    product of the seconds is the one of [int64]. *)
Definition pollWait (c : Config) (r : Http) : Duration :=
  let requested := query r "wait" in
  if is_empty requested then c_RelayPollTimeout c else
  match Atoi requested with
  | None => c_RelayPollTimeout c
  | Some secs =>
      if secs <? 0 then c_RelayPollTimeout c else
      let wait := wrap_int64 (secs * Second) in
      if c_RelayPollTimeout c <? wait then c_RelayPollTimeout c else wait
  end.

(** The pause between two turns of the poll. *)
Definition tick : Duration := 200 * Millisecond.

(** The loop of the poll. [patience] is the number of ticks after which the client goes away. *)
Fixpoint pollLoop (patience : nat) (recipient capability : string) (deadline : Time) : Prog Response :=
  chunks ← onAttachments (λ e s, Drain (H := e_rt e) s (e_clock e 0) (e_clock e 1) recipient capability);
  match chunks with
  | _ :: _ => mret (Reply 200 (BChunks chunks))
  | [] =>
      now ← readClock;
      if negb (Before now deadline) then mret (Reply 200 (BChunks [])) else
      match patience with
      | O => mret NoReply
      | S patience => pollLoop patience recipient capability deadline
      end
  end.

Definition handleGetAttachmentChunks (c : Config) (patience : nat) (r : Http) : Prog Response :=
  gated c r (λ _,
  let recipient := query r "recipient" in
  let capability := query r "capability" in
  if is_empty recipient || is_empty capability then writeError 400 "missing_attachment_route" else
  now ← readClock;
  pollLoop patience recipient capability (Add now (pollWait c r))).

(** The body is the transfer id and the capability. *)
Definition handleCompleteAttachment (c : Config) (r : Http) (body : Decoded (string * string))
  : Prog Response :=
  gated c r (λ _,
  match body with
  | inl err => writeDecodeError (Some err) "invalid_attachment_completion"
  | inr (transferID, capability) =>
    if is_empty transferID || is_empty capability
    then writeDecodeError None "invalid_attachment_completion" else
    removed ← onAttachments (λ _ s, Complete s transferID capability);
    mret (Reply 200 (BRemoved removed))
  end).

(** ** Health, nodes and the mesh snapshot *)

Definition handleHealth (c : Config) (startedAt : Time) : Prog Response :=
  now ← readClock;
  queues ← onStore (λ _ s, (QueueStore.StatsOf s, s));
  presence ← onPresence (λ e s, Presence.Count (H := e_rt e) s (e_now e));
  attachments ← onAttachments (λ e s, Attachment.StatsOf (H := e_rt e) s (e_now e));
  maxAttachmentBytes ← onAttachments (λ _ s, (MaxAttachmentBytes s, s));
  prekeys ← onPrekeys (λ e s, Prekey.Count (H := e_rt e) s (e_now e));
  lastResort ← onPrekeys (λ e s, LastResortCount (H := e_rt e) s (e_now e));
  buckets ← onPrekeys (λ e s, BucketCount (H := e_rt e) s (e_now e));
  mesh ← onPool (λ e p, (HealthOf p (e_now e), p));
  mret (Reply 200 (BHealth (mkHealthReport (c_NodeID c) (ageSeconds (Sub now startedAt)) queues presence
    attachments maxAttachmentBytes prekeys lastResort buckets (c_RequireFetchAuth c)
    (c_RequireAdmission c) (MeshEnabled c) mesh))).

Definition handleNodes `{!NetParsers} : Prog Response :=
  self ← onPool (λ e p, Self p (e_clock e 0) (e_clock e 1) (e_localIPs e));
  mret (Reply 200 (BNodes [self])).

Definition handleMeshSnapshot (c : Config) (r : Http) : Prog Response :=
  if negb (isTrustedPeer c r) then writeError 403 "untrusted_peer" else
  match parseSince r with
  | None => writeError 400 "invalid_since"
  | Some since =>
    payload ← onStore (λ e s, SnapshotSince (H := e_rt e) s (e_now e) since (parseLimit r 500));
    presence ← onPresence (λ e s, Presence.Snapshot (H := e_rt e) s (e_now e));
    revocations ← onPresence (λ e s, Revocations (H := e_rt e) s (e_now e));
    mret (Reply 200 (BSnapshot (mkSyncPayload (c_NodeID c) (y_Epoch payload) (y_NextSeq payload)
      (y_More payload) (y_Messages payload) (y_Acks payload) presence revocations (y_Purges payload))))
  end.

(** ** Routes *)

(** A request for one of the routes of the public listener, with its decoded body. *)
Inductive Request :=
  | GetHealth
  | GetNodes
  | PostAdmissionChallenge
  | PostAdmissionRedeem (body : Decoded (string * string * string))
  | PostMessages (r : Http) (body : Decoded MessageEnvelope)
  | GetMessages (r : Http)
  | PostAcks (r : Http) (body : Decoded AckRecord)
  | GetAcks (r : Http)
  | PostPresenceHeartbeat (r : Http) (body : Decoded PresenceHeartbeat)
  | PostPresenceQuery (r : Http) (body : Decoded (list string))
  | PostPresenceRevoke (body : Decoded string)
  | PostProfilePurge (body : Decoded string)
  | PostPrekeys (r : Http) (body : Decoded PrekeyPublish)
  | GetPrekeysClaim (r : Http)
  | GetPrekeysStatus (r : Http)
  | PostAttachmentsChunks (r : Http) (body : Decoded Chunk)
  | GetAttachmentsChunks (r : Http) (patience : nat)
  | PostAttachmentsComplete (r : Http) (body : Decoded (string * string)).

Definition pathOf (rq : Request) : string :=
  match rq with
  | GetHealth => "/health"
  | GetNodes => "/nodes"
  | PostAdmissionChallenge => "/admission/challenge"
  | PostAdmissionRedeem _ => "/admission/redeem"
  | PostMessages _ _ | GetMessages _ => "/messages"
  | PostAcks _ _ | GetAcks _ => "/acks"
  | PostPresenceHeartbeat _ _ => "/presence/heartbeat"
  | PostPresenceQuery _ _ => "/presence/query"
  | PostPresenceRevoke _ => "/presence/revoke"
  | PostProfilePurge _ => "/profile/purge"
  | PostPrekeys _ _ => "/prekeys"
  | GetPrekeysClaim _ => "/prekeys/claim"
  | GetPrekeysStatus _ => "/prekeys/status"
  | PostAttachmentsChunks _ _ | GetAttachmentsChunks _ _ => "/attachments/chunks"
  | PostAttachmentsComplete _ _ => "/attachments/complete"
  end.

Section listener.
Context `{!NetParsers} (ed25519Verify : list Z → list Z → list Z → bool).

(** The public mux. *)
Definition mux (c : Config) (startedAt : Time) (rq : Request) : Prog Response :=
  match rq with
  | GetHealth => handleHealth c startedAt
  | GetNodes => handleNodes
  | PostAdmissionChallenge => challengeHandler
  | PostAdmissionRedeem body => redeemHandler ed25519Verify body
  | PostMessages r body => handlePostMessage c r body
  | GetMessages r => handleGetMessages c r
  | PostAcks r body => handlePostAck c r body
  | GetAcks r => handleGetAcks c r
  | PostPresenceHeartbeat r body => handlePresenceHeartbeat c r body
  | PostPresenceQuery r body => handlePresenceQuery c r body
  | PostPresenceRevoke body => handlePresenceRevoke body
  | PostProfilePurge body => handleProfilePurge body
  | PostPrekeys r body => handlePublishPrekeys c r body
  | GetPrekeysClaim r => handleClaimPrekey c r
  | GetPrekeysStatus r => handlePrekeyStatus c r
  | PostAttachmentsChunks r body => handlePostAttachmentChunk c r body
  | GetAttachmentsChunks r patience => handleGetAttachmentChunks c patience r
  | PostAttachmentsComplete r body => handleCompleteAttachment c r body
  end.

(** ** Body limits *)

Definition bodyEnvelopeSlack : Z := Z.shiftl 256 10.

Definition bodyLimitFor (c : Config) (path : string) : Z :=
  let payloadBytes := if c_MaxPayloadBytes c <=? 0 then 8192 else c_MaxPayloadBytes c in
  let chunkBytes := if c_MaxChunkBytes c <=? 0 then Z.shiftl 1 20 else c_MaxChunkBytes c in
  if bool_decide (path = "/attachments/chunks") then wrap_int64 (chunkBytes + bodyEnvelopeSlack)
  else wrap_int64 (payloadBytes + bodyEnvelopeSlack).

Definition defaultBodyReadTimeout : Duration := 20 * Second.

Definition bodyReadTimeout (c : Config) : Duration :=
  if 0 <? c_BodyReadTimeout c then c_BodyReadTimeout c else defaultBodyReadTimeout.

(** [contentLength] is [None] for a request with no body and -1 for one that does not state
    its length. The cap and the deadline that are set on the read have their effect in the
    outcome of the decode. *)
Definition limitBodies (c : Config) (path : string) (contentLength : option Z) (next : Prog Response)
  : Prog Response :=
  match contentLength with
  | None => next
  | Some n => if bodyLimitFor c path <? n then writeError 413 "payload_too_large" else next
  end.

(** The two listeners; the mesh one has the one route. *)
Definition Handler (c : Config) (startedAt : Time) (contentLength : option Z) (rq : Request)
  : Prog Response := limitBodies c (pathOf rq) contentLength (mux c startedAt rq).

Definition MeshHandler (c : Config) : option (option Z → Http → Prog Response) :=
  if negb (MeshEnabled c) then None
  else Some (λ contentLength r, limitBodies c "/mesh/snapshot" contentLength (handleMeshSnapshot c r)).
End listener.
