(* ===== verification/Mesh.v ===== *)
(** * The mesh syncer ([internal/mesh/syncer.go])

    Replication is pull-only: [SyncPeer] asks one peer for page after page of its queue, from
    the cursor it keeps for that peer, and imports each page as it arrives. What the network
    answers to a request is an argument, a function of the number of the page and of the
    request, so nothing is assumed of the peer. *)

From Stdlib Require Import Strings.String.
From S2P Require Import Prelude Strconv GoDuration Model Config Peer Capability QueueStore.
From S2P Require Import Presence Admission Node Server.

Open Scope Z_scope.

Definition pagesPerSync : nat := 20.
Definition pageSize : Z := 500.

Definition snapshotRecordSlack : Z := Z.shiftl 2 10.
Definition snapshotPresenceRecords : Z := 2 * 5000.
Definition snapshotPresenceSlack : Z := Z.shiftl 1 10.
Definition snapshotPurgeSlack : Z := Z.shiftl 1 10.

Definition maxSnapshotBytes (c : Config) : Z :=
  let payloadBytes := if c_MaxPayloadBytes c <=? 0 then 8192 else c_MaxPayloadBytes c in
  let purges := if c_MaxPurges c <=? 0 then 1000 else c_MaxPurges c in
  wrap_int64 (pageSize * wrap_int64 (payloadBytes + snapshotRecordSlack)
              + purges * snapshotPurgeSlack + snapshotPresenceRecords * snapshotPresenceSlack).

(** The timeout [NewSyncer] gives its client. *)
Definition requestTimeout (c : Config) : Duration :=
  if c_MeshRequestTimeout c <=? 0 then 5 * Second else c_MeshRequestTimeout c.

(** ** Cursors *)

Definition zeroCursor : cursor := mkCursor "" 0.

Definition cursorFor (peerURL : string) : Prog cursor :=
  onCursors (λ m, (default zeroCursor (m !! peerURL), m)).

Definition setCursor (peerURL : string) (value : cursor) : Prog () :=
  onCursors (λ m, ((), <[peerURL := value]> m)).

(** ** Fetching a page *)

(** The body of an answer: a page, a body past the size limit, or no page at all. *)
Inductive PageBody := PageTooLarge | PageMalformed | Page (payload : SyncPayload).

Inductive NetAnswer := NetFailed | NetReply (statusCode : Z) (body : PageBody).

Inductive SyncError :=
  | PeerURLInvalid
  | PeerURLNoHost
  | RequestFailed
  | BadStatus (code : Z)
  | SnapshotTooLarge (limit : Z)
  | SnapshotMalformed
  | CursorStuck (seq : Z)
  | NeedsSecret.

Section parsers.
Context `{!NetParsers}.

(** The query of the snapshot request: that of the peering url, with [limit] and [since]
    set. *)
Definition snapshotURL (baseURL : string) (since : Z) : SyncError + (string → string) :=
  match urlParse (TrimRightSlash baseURL) with
  | None => inl PeerURLInvalid
  | Some parsed =>
      if is_empty (u_Host parsed) then inl PeerURLNoHost else
      let query key := if bool_decide (key = "limit") then FormatUint pageSize else u_Query parsed key in
      inr (λ key, if (0 <? since) && bool_decide (key = "since") then FormatUint since else query key)
  end.

Definition requestHeader (c : Config) (key : string) : string :=
  if bool_decide (key = meshSecretHeader) then c_MeshSecret c else
  if bool_decide (key = "X-Dee-Node-ID") then c_NodeID c else "".

Definition fetchSnapshot (c : Config) (net : Http → NetAnswer) (baseURL : string) (since : Z)
  : SyncError + SyncPayload :=
  match snapshotURL baseURL since with
  | inl err => inl err
  | inr query =>
      match net (mkHttp (requestHeader c) query) with
      | NetFailed => inl RequestFailed
      | NetReply statusCode body =>
          if (statusCode <? 200) || (300 <=? statusCode) then inl (BadStatus statusCode) else
          match body with
          | PageTooLarge => inl (SnapshotTooLarge (maxSnapshotBytes c))
          | PageMalformed => inl SnapshotMalformed
          | Page payload => inr payload
          end
      end
  end.

(** ** One peer *)

Record PeerSyncResult := mkPeerSyncResult {
  ps_PeerURL : string;
  ps_Pages : Z;
  ps_PulledMessages : Z;
  ps_PulledAcks : Z;
  ps_AcceptedMessages : Z;
  ps_AcceptedAcks : Z;
}.

(** [presence.Import]: every heartbeat takes the lock and reads the clock for itself. *)
Fixpoint importPresence (values : list PresenceHeartbeat) : Prog () :=
  match values with
  | [] => mret ()
  | value :: values =>
      _ ← onPresence (λ e s, Heartbeat (H := e_rt e) s (e_now e) value);
      importPresence values
  end.

(** One page goes into the stores; the answer is what the queue accepted. *)
Definition importPage (payload : SyncPayload) : Prog ImportResult :=
  imported ← onStore (λ e s, ImportSnapshot (H := e_rt e) s (e_now e) payload);
  _ ← importPresence (y_Presence payload);
  _ ← onPresence (λ e s, ((), ImportRevocations (H := e_rt e) s (e_now e) (y_PresenceRevocations payload)));
  mret imported.

(** The loop of [SyncPeer], with the pages that are left. *)
Fixpoint syncPages (c : Config) (net : nat → Http → NetAnswer) (peerURL : string) (pages : nat)
    (claimedID : string) (result : PeerSyncResult) : Prog (PeerSyncResult * option SyncError) :=
  match pages with
  | O =>
      _ ← onPool (λ e p, ((), RecordSuccess p peerURL claimedID (e_now e)));
      mret (result, None)
  | S pages =>
      current ← cursorFor peerURL;
      match fetchSnapshot c (net (pagesPerSync - S pages)%nat) peerURL (cu_seq current) with
      | inl err => mret (result, Some err)
      | inr payload =>
          let result := mkPeerSyncResult (ps_PeerURL result) (ps_Pages result + 1)
            (ps_PulledMessages result) (ps_PulledAcks result) (ps_AcceptedMessages result)
            (ps_AcceptedAcks result) in
          let claimedID := y_NodeID payload in
          if negb (bool_decide (y_Epoch payload = cu_epoch current)) && negb (is_empty (cu_epoch current))
             && negb (cu_seq current =? 0)
          then
            _ ← setCursor peerURL (mkCursor (y_Epoch payload) 0);
            syncPages c net peerURL pages claimedID result
          else
            imported ← importPage payload;
            let result := mkPeerSyncResult (ps_PeerURL result) (ps_Pages result)
              (ps_PulledMessages result + Z.of_nat (length (y_Messages payload)))
              (ps_PulledAcks result + Z.of_nat (length (y_Acks payload)))
              (ps_AcceptedMessages result + AcceptedMessages imported)
              (ps_AcceptedAcks result + AcceptedAcks imported) in
            _ ← (if cu_seq current <=? y_NextSeq payload
                 then setCursor peerURL (mkCursor (y_Epoch payload) (y_NextSeq payload)) else mret ());
            if negb (y_More payload) then
              _ ← onPool (λ e p, ((), RecordSuccess p peerURL claimedID (e_now e)));
              mret (result, None)
            else if y_NextSeq payload <=? cu_seq current then mret (result, Some (CursorStuck (cu_seq current)))
            else syncPages c net peerURL pages claimedID result
      end
  end.

Definition SyncPeer (c : Config) (net : nat → Http → NetAnswer) (peerURL : string)
  : Prog (PeerSyncResult * option SyncError) :=
  syncPages c net peerURL pagesPerSync "" (mkPeerSyncResult peerURL 0 0 0 0 0).

(** ** All peers *)

(** [text] is the rendering of an error. *)
Fixpoint syncTargets (c : Config) (net : string → nat → Http → NetAnswer) (text : SyncError → string)
    (targets : list string) (errs : list (string * SyncError)) : Prog (list (string * SyncError)) :=
  match targets with
  | [] => mret errs
  | peerURL :: targets =>
      outcome ← SyncPeer c (net peerURL) peerURL;
      match outcome.2 with
      | None => syncTargets c net text targets errs
      | Some err =>
          _ ← onPool (λ e p, ((), RecordFailure p peerURL (Some (text err)) (e_now e)));
          syncTargets c net text targets (errs ++ [(peerURL, err)])
      end
  end.

Definition SyncAll (c : Config) (net : string → nat → Http → NetAnswer) (text : SyncError → string)
  : Prog (list (string * SyncError)) :=
  if negb (MeshEnabled c) then mret [(""%string, NeedsSecret)] else
  targets ← onPool (λ _ p, (Targets p, p));
  syncTargets c net text targets [].
End parsers.
