(* ===== verification/Boot.v ===== *)
(** * The relay process ([cmd/dee-relay/main.go])

    How the server is put together and the process boots from its environment, and what the
    goroutines besides the two listeners do in a turn: the cleanup tick, the sync tick and the
    reload of the credential file. [Process.v] has the life of the process around them. *)

From Stdlib Require Import Strings.String.
From S2P Require Import Prelude Strconv GoDuration Model Config Peer Capability QueueStore.
From S2P Require Import Attachment Prekey Presence Admission Node Server Mesh.

Open Scope Z_scope.

(** The caps the queue is built with. *)
Definition storeConfig (c : Config) : StoreConfig :=
  mkStoreConfig (c_MaxMessages c) (c_MaxAcks c) (c_MaxPurges c) (c_MaxPerPair c)
    (c_MaxPayloadBytes c) (c_MaxTTL c) (c_DefaultTTL c).

Definition PrekeyLimits (c : Config) : Limits :=
  mkLimits 0 (c_MaxPrekeyBuckets c) 0 (c_PrekeyClaimBurst c) (c_PrekeyClaimRefill c).

(** A credential file as [admission.ReadFile] finds it: unreadable or not JSON, or its
    decoded entries. *)
Definition CredentialFile : Type := option (list Credential).

Definition ReadFile `{!GoRuntime} (file : CredentialFile) : option (list Credential) :=
  match file with
  | None => None
  | Some entries => match ParseCredentials entries with inl _ => None | inr cs => Some cs end
  end.

(** ** Names of a boot *)

(** [hex.EncodeToString] *)
Definition hexDigit (d : Z) : Z := if d <? 10 then 48 + d else 87 + d.

Definition hexEncode (l : list Z) : string :=
  string_of_bytes (flat_map (λ b, [hexDigit (b / 16); hexDigit (b mod 16)]) l).

(** [t.UnixNano()] *)
Definition UnixNano (t : Time) : Z := wrap_int64 (t - 62135596800 * Second).

(** The epoch of a queue: the eight bytes [crypto/rand] gave, or where it failed the time. *)
Definition newEpoch (raw : option (list Z)) (now : Time) : string :=
  match raw with
  | None => string_of_bytes (FormatInt (UnixNano now))
  | Some raw => hexEncode raw
  end.

(** A queue that starts anew has another epoch, unless the same eight bytes were drawn: a peer
    that kept a cursor of the old one notices ([Mesh.syncPages]). *)
Lemma hexDigit_inj d e : 0 ≤ d < 16 → 0 ≤ e < 16 → hexDigit d = hexDigit e → d = e.
Proof. unfold hexDigit. intros Hd He. destruct (Z.ltb_spec d 10), (Z.ltb_spec e 10); lia. Qed.

Lemma newEpoch_inj raw raw' now now' :
  Forall (λ b, 0 ≤ b < 256) raw → Forall (λ b, 0 ≤ b < 256) raw' →
  newEpoch (Some raw) now = newEpoch (Some raw') now' → raw = raw'.
Proof.
  assert (∀ b, 0 ≤ b < 256 → 0 ≤ b / 16 < 16 ∧ 0 ≤ b mod 16 < 16) as Hb.
  { intros b Hb. pose proof (Z.div_mod b 16). pose proof (Z.mod_pos_bound b 16). lia. }
  set (text l := flat_map (λ b, [hexDigit (b / 16); hexDigit (b mod 16)]) l).
  assert (∀ l, Forall (λ b, 0 ≤ b < 256) l → Forall (λ b, 0 ≤ b < 256) (text l)) as Htext.
  { induction 1 as [|b l (H1 & H2)%Hb _ IH]; cbn; [done|].
    assert (∀ d, 0 ≤ d < 16 → 0 ≤ hexDigit d < 256) as Hd.
    { intros d Hd. unfold hexDigit. destruct (Z.ltb_spec d 10); lia. }
    apply Forall_cons. split; [by apply Hd|]. apply Forall_cons. split; [by apply Hd|exact IH]. }
  intros H H' Heq%(f_equal bytes_of_string). unfold newEpoch, hexEncode in Heq. fold (text raw) (text raw') in Heq.
  rewrite !bytes_of_string_of_bytes in Heq by auto. clear Htext. revert raw' H' Heq.
  induction H as [|b l Hlt _ IH]; intros [|b' l'] H'; cbn; try done. intros [= H1 H2 Heq].
  apply Forall_cons in H' as [Hlt' Hl']. apply Hb in Hlt as Hx, Hlt' as Hx'.
  apply hexDigit_inj in H1; [|tauto..]. apply hexDigit_inj in H2; [|tauto..].
  f_equal; [|by apply IH]. pose proof (Z.div_mod b 16). pose proof (Z.div_mod b' 16). lia.
Qed.

(** ** The server *)

Section boot.
Context `{!GoRuntime, !NetParsers}.

(** The server over its dependencies. A nil pointer is [None]: the server then makes a store
    of its own. *)
Definition NewServer (c : Config) (store : QueueStore.Store) (pool : Pool)
    (presenceStore : list (option Presence.Store)) : Node :=
  let p := match presenceStore with
           | Some p :: _ => p
           | _ => Presence.NewStore 5000 (24 * Hour)
           end in
  let a := NewRelay (c_RelayMaxWindow c) (c_MaxChunkBytes c) (c_MaxAttachmentBytes c)
             (c_RelayMaxSessions c) (c_RelayIdleTimeout c) in
  mkNode store pool p a (NewStoreWithLimits (PrekeyLimits c)) Admission.NewStore NewSessions ∅.

Definition NewServerWithStores (c : Config) (store : QueueStore.Store) (pool : Pool)
    (presenceStore : option Presence.Store) (attachmentRelay : option Attachment.Relay)
    (prekeyStore : option Prekey.Store) : Node :=
  let server := NewServer c store pool [presenceStore] in
  let server := match attachmentRelay with
                | Some a => with_attachments a server
                | None => server
                end in
  match prekeyStore with
  | Some k => with_prekeys k server
  | None => server
  end.

Definition NewServerWithAttachments (c : Config) (store : QueueStore.Store) (pool : Pool)
    (presenceStore : option Presence.Store) (attachmentRelay : option Attachment.Relay) : Node :=
  NewServerWithStores c store pool presenceStore attachmentRelay None.

Definition WithAdmissions (credentials : option Admission.Store) (server : Node) : Node :=
  match credentials with
  | Some admissions => with_admissions admissions server
  | None => server
  end.

(** The stores as [main] builds them and hands them to the server. The syncer shares the
    queue, the pool and the presence store with it and starts with no cursor. *)
Definition newNode (c : Config) (newEpoch : string) (localIPs : list IP) (admissions : Admission.Store)
  : Node :=
  let store := QueueStore.NewStore (storeConfig c) newEpoch in
  let pool := NewPool (c_NodeID c) (c_PublicURL c) (c_MeshPeers c) localIPs in
  let presenceStore := Presence.NewStore 5000 (24 * Hour) in
  let attachmentStore := NewRelay (c_RelayMaxWindow c) (c_MaxChunkBytes c) (c_MaxAttachmentBytes c)
                           (c_RelayMaxSessions c) (c_RelayIdleTimeout c) in
  let prekeyStore := NewStoreWithLimits (PrekeyLimits c) in
  WithAdmissions (Some admissions)
    (NewServerWithStores c store pool (Some presenceStore) (Some attachmentStore) (Some prekeyStore)).

Lemma newNode_eq c newEpoch localIPs admissions :
  newNode c newEpoch localIPs admissions =
  mkNode (QueueStore.NewStore (storeConfig c) newEpoch)
    (NewPool (c_NodeID c) (c_PublicURL c) (c_MeshPeers c) localIPs)
    (Presence.NewStore 5000 (24 * Hour))
    (NewRelay (c_RelayMaxWindow c) (c_MaxChunkBytes c) (c_MaxAttachmentBytes c) (c_RelayMaxSessions c)
       (c_RelayIdleTimeout c))
    (NewStoreWithLimits (PrekeyLimits c)) admissions NewSessions ∅.
Proof. done. Qed.

(** The credentials the process starts with, or [None] where it exits. *)
Definition loadAdmissions (c : Config) (file : CredentialFile) : option Admission.Store :=
  if is_empty (c_AdmissionFile c) then Some Admission.NewStore else
  match ReadFile file with
  | None => None
  | Some cs => Some (Replace Admission.NewStore cs)
  end.

(** [None] is the exit of a process that refuses to serve. *)
Definition boot (env : Environ) (file : CredentialFile) (newEpoch : string) (localIPs : list IP)
  : option (Config * Node) :=
  let c := FromEnv env in
  if negb (bool_decide (length (Validate env c) = 0%nat)) then None else
  match loadAdmissions c file with
  | None => None
  | Some admissions =>
      if c_RequireAdmission c && (Admission.Count admissions =? 0) then None
      else Some (c, newNode c newEpoch localIPs admissions)
  end.
End boot.

(** ** The other goroutines *)

(** One SIGHUP. *)
Definition reload `{!GoRuntime} (c : Config) (file : CredentialFile) : Prog () :=
  if is_empty (c_AdmissionFile c) then mret () else
  match ReadFile file with
  | None => mret ()
  | Some reloaded =>
      if c_RequireAdmission c && bool_decide (length reloaded = 0%nat) then mret ()
      else onAdmissions (λ _ s, ((), Replace s reloaded))
  end.

(** One tick of the cleanup loop. *)
Definition cleanupTick `{!NetParsers} : Prog () :=
  _ ← onPool (λ e p, RefreshSelfURL p (e_now e) (e_localIPs e));
  _ ← onStore (λ e s, PruneExpired (H := e_rt e) s (e_now e));
  _ ← onPresence (λ e s, ((), Presence.Prune (H := e_rt e) s (e_now e)));
  _ ← onAttachments (λ e s, Attachment.Prune (H := e_rt e) s (e_now e));
  _ ← onPrekeys (λ e s, ((), Prekey.Prune (H := e_rt e) s (e_now e)));
  mret ().

(** One tick of the sync loop, which runs only where there are peers to pull from. *)
Definition syncTick `{!NetParsers} (c : Config) (net : string → nat → Http → NetAnswer)
    (text : SyncError → string) : Prog () :=
  if bool_decide (c_MeshPeers c ≠ []) && MeshEnabled c && (0 <? c_MeshSyncInterval c)
  then _ ← SyncAll c net text; mret () else mret ().
