(* ===== verification/Process.v ===== *)
(** * The life of the process ([main] in [cmd/dee-relay/main.go])

    From its start to its exit: the signals it gets, the goroutines it starts and how each
    ends, the two listeners with the requests in flight on them, and the shutdown. What the
    goroutines do to the stores are the programs of [Server.v], [Mesh.v] and [Boot.v].

    Of the standard library: a signal that is asked for with [signal.Notify] goes into its
    channel, and is dropped where the channel is full; SIGHUP kills a process that did not ask
    for it. [Shutdown] closes the listener at once, and then waits until no request is in
    flight or its context is done; [ListenAndServe] returns as soon as [Shutdown] is called.
    When [main] returns, the process is gone with every goroutine in it. *)

From Stdlib Require Import Strings.String.
From S2P Require Import Prelude GoDuration Config Peer Admission Node Server Mesh Boot.

Open Scope Z_scope.

Inductive Listener := Public | Private.
Inductive Background := HangupLoop | CleanupLoop | SyncLoop.
Inductive Origin := OfRequest (l : Listener) | OfLoop (b : Background).

#[export] Instance Listener_eq_dec : EqDecision Listener.
Proof. solve_decision. Defined.
#[export] Instance Background_eq_dec : EqDecision Background.
Proof. solve_decision. Defined.
#[export] Instance Origin_eq_dec : EqDecision Origin.
Proof. solve_decision. Defined.

Inductive Exit := Status (code : Z) | KilledByHangup.

(** Where the goroutine is that shuts the listeners down, with the end of its patience. *)
Inductive ShutdownPhase :=
  | Waiting
  | ClosingMesh (deadline : Time)
  | ClosingPublic (deadline : Time)
  | Closed.

(** [pr_hangup] is [None] where SIGHUP is not asked for, and says otherwise whether one is in
    the channel. [pr_loops] are the background goroutines that run, [pr_open] the listeners
    that accept requests. *)
Record Process := mkProcess {
  pr_config : Config;
  pr_startedAt : Time;
  pr_node : Node;
  pr_threads : list (Origin * Prog ());
  pr_now : Time;
  pr_stopping : bool;
  pr_hangup : option bool;
  pr_loops : list Background;
  pr_meshServer : bool;
  pr_open : list Listener;
  pr_phase : ShutdownPhase;
  pr_exit : option Exit;
}.

Definition with_system n ts p := mkProcess (pr_config p) (pr_startedAt p) n ts (pr_now p)
  (pr_stopping p) (pr_hangup p) (pr_loops p) (pr_meshServer p) (pr_open p) (pr_phase p) (pr_exit p).
Definition with_now t p := mkProcess (pr_config p) (pr_startedAt p) (pr_node p) (pr_threads p) t
  (pr_stopping p) (pr_hangup p) (pr_loops p) (pr_meshServer p) (pr_open p) (pr_phase p) (pr_exit p).
Definition with_stopping b p := mkProcess (pr_config p) (pr_startedAt p) (pr_node p) (pr_threads p)
  (pr_now p) b (pr_hangup p) (pr_loops p) (pr_meshServer p) (pr_open p) (pr_phase p) (pr_exit p).
Definition with_hangup h p := mkProcess (pr_config p) (pr_startedAt p) (pr_node p) (pr_threads p)
  (pr_now p) (pr_stopping p) h (pr_loops p) (pr_meshServer p) (pr_open p) (pr_phase p) (pr_exit p).
Definition with_loops l p := mkProcess (pr_config p) (pr_startedAt p) (pr_node p) (pr_threads p)
  (pr_now p) (pr_stopping p) (pr_hangup p) l (pr_meshServer p) (pr_open p) (pr_phase p) (pr_exit p).
Definition with_phase f l p := mkProcess (pr_config p) (pr_startedAt p) (pr_node p) (pr_threads p)
  (pr_now p) (pr_stopping p) (pr_hangup p) (pr_loops p) (pr_meshServer p) l f (pr_exit p).
Definition with_exit x p := mkProcess (pr_config p) (pr_startedAt p) (pr_node p) (pr_threads p)
  (pr_now p) (pr_stopping p) (pr_hangup p) (pr_loops p) (pr_meshServer p) (pr_open p) (pr_phase p) (Some x).

(** ** What is going on in the process *)

Definition finished (p : Prog ()) : bool := match p with Ret _ => true | Call _ _ => false end.

(** No request of a listener is in flight; a loop is at its [select]. *)
Definition idle (o : Origin) (p : Process) : bool :=
  forallb (λ t, negb (bool_decide (t.1 = o)) || finished t.2) (pr_threads p).

Definition runs (b : Background) (p : Process) : bool := bool_decide (b ∈ pr_loops p).
Definition accepts (l : Listener) (p : Process) : bool := bool_decide (l ∈ pr_open p).

(** [go], or a request that is handed to its handler. *)
Definition spawn (o : Origin) (prog : Prog ()) (p : Process) : Process :=
  with_system (pr_node p) (pr_threads p ++ [(o, prog)]) p.

Definition shutdownTimeout : Duration := 5 * Second.

Definition stopAccepting (l : Listener) (p : Process) : list Listener :=
  filter (λ x, x ≠ l) (pr_open p).
#[global] Arguments stopAccepting : simpl never.

Section process.
Context `{!NetParsers} (verify : list Z → list Z → list Z → bool).

(** ** The start *)

(** The loops [main] starts: the reload loop where there is a credential file, the cleanup
    loop, and the sync loop where there are peers to pull from. *)
Definition loopsOf (c : Config) : list Background :=
  (if is_empty (c_AdmissionFile c) then [] else [HangupLoop]) ++ [CleanupLoop] ++
  (if bool_decide (c_MeshPeers c ≠ []) && MeshEnabled c && (0 <? c_MeshSyncInterval c)
   then [SyncLoop] else []).

Definition hasMeshServer (c : Config) : bool :=
  match MeshHandler c with Some _ => negb (is_empty (c_MeshAddr c)) | None => false end.

(** [main] up to the point where everything runs, or the exit of a process that refuses to
    serve. [raw] are the bytes of [crypto/rand] for the epoch, [now] the time. *)
Definition start `{!GoRuntime} (env : Environ) (file : CredentialFile) (raw : option (list Z))
    (now : Time) (localIPs : list IP) : Exit + Process :=
  match boot env file (newEpoch raw now) localIPs with
  | None => inl (Status 2)
  | Some (c, node) =>
      inr (mkProcess c now node [] now false
             (if is_empty (c_AdmissionFile c) then None else Some false) (loopsOf c)
             (hasMeshServer c) (Public :: if hasMeshServer c then [Private] else []) Waiting None)
  end.

(** ** The steps *)

Inductive Event :=
  | StopSignal
  | HangupSignal
  | Elapse (d : Duration)
  | Arrive (contentLength : option Z) (rq : Request)
  | ArriveMesh (contentLength : option Z) (r : Http)
  | Proceed (i : nat) (e : Env)
  | Reload (rt : GoRuntime) (file : CredentialFile)
  | CleanupTick
  | SyncTick (net : string → nat → Http → NetAnswer) (text : SyncError → string)
  | LoopEnds (b : Background)
  | ListenerFails (l : Listener)
  | BeginShutdown
  | MeshShutdownReturns
  | PublicShutdownReturns
  | MainReturns.

(** One turn of a loop starts when the loop is at its [select]. *)
Definition turn (b : Background) (prog : Prog ()) (p : Process) : option Process :=
  if runs b p && idle (OfLoop b) p then Some (spawn (OfLoop b) prog p) else None.

(** [None]: the event cannot happen. A process that has exited does nothing any more. *)
Definition fire (ev : Event) (p : Process) : option Process :=
  let c := pr_config p in
  if bool_decide (is_Some (pr_exit p)) then None else
  match ev with
  | StopSignal => Some (with_stopping true p)
  | HangupSignal =>
      match pr_hangup p with
      | None => Some (with_exit KilledByHangup p)
      | Some _ => Some (with_hangup (Some true) p)
      end
  | Elapse d => if 0 <=? d then Some (with_now (Add (pr_now p) d) p) else None
  | Arrive contentLength rq =>
      if accepts Public p
      then Some (spawn (OfRequest Public) (fork (Handler verify c (pr_startedAt p) contentLength rq)) p)
      else None
  | ArriveMesh contentLength r =>
      match MeshHandler c with
      | Some handler =>
          if accepts Private p then Some (spawn (OfRequest Private) (fork (handler contentLength r)) p)
          else None
      | None => None
      end
  | Proceed i e =>
      match pr_threads p !! i with
      | Some (o, Call f k) =>
          let '(x, n) := f e (pr_node p) in Some (with_system n (<[i := (o, k x)]> (pr_threads p)) p)
      | _ => None
      end
  | Reload rt file =>
      match pr_hangup p with
      | Some true => turn HangupLoop (reload (H := rt) c file) (with_hangup (Some false) p)
      | _ => None
      end
  | CleanupTick => turn CleanupLoop cleanupTick p
  | SyncTick net text => turn SyncLoop (syncTick c net text) p
  | LoopEnds b =>
      if pr_stopping p && runs b p && idle (OfLoop b) p then
        let p := with_loops (filter (λ x, x ≠ b) (pr_loops p)) p in
        Some (if bool_decide (b = HangupLoop) then with_hangup None p else p)
      else None
  | ListenerFails l => if accepts l p then Some (with_exit (Status 1) p) else None
  | BeginShutdown =>
      match pr_phase p with
      | Waiting =>
          if negb (pr_stopping p) then None else
          let deadline := Add (pr_now p) shutdownTimeout in
          Some (if pr_meshServer p then with_phase (ClosingMesh deadline) (stopAccepting Private p) p
                else with_phase (ClosingPublic deadline) (stopAccepting Public p) p)
      | _ => None
      end
  | MeshShutdownReturns =>
      match pr_phase p with
      | ClosingMesh deadline =>
          if idle (OfRequest Private) p || (deadline <=? pr_now p)
          then Some (with_phase (ClosingPublic deadline) (stopAccepting Public p) p) else None
      | _ => None
      end
  | PublicShutdownReturns =>
      match pr_phase p with
      | ClosingPublic deadline =>
          if idle (OfRequest Public) p || (deadline <=? pr_now p)
          then Some (with_phase Closed (pr_open p) p) else None
      | _ => None
      end
  | MainReturns => if accepts Public p then None else Some (with_exit (Status 0) p)
  end.

Fixpoint live (evs : list Event) (p : Process) : option Process :=
  match evs with
  | [] => Some p
  | ev :: evs => match fire ev p with Some p => live evs p | None => None end
  end.

Definition elapsed (evs : list Event) : Duration :=
  zsum (λ ev, match ev with Elapse d => d | _ => 0 end) evs.
End process.
