(* ===== verification/NodeLogic.v ===== *)
(** * Reasoning about interleaved programs with the past

    What a request may rely on is often not in the state any more when it acts: the nonce
    its proof was over is spent, the session it was admitted on has ended. [Safe] is a
    program logic for the calls of a request under any interleaving, whose assertions speak
    of the states that earlier calls found; [sysRun_safe] is its soundness. [takes] says what one
    program answers when its calls find whatever the others leave. *)

From S2P Require Import Prelude Node.

(** ** Runs with their past *)

(** The state a call found and the environment it ran in, the latest first. *)
Definition Moment : Type := Node * Env.

Inductive sysRun (spawns : Prog () → Prop) (n0 : Node) : list Moment → System → Prop :=
  | RunStart : sysRun spawns n0 [] (mkSystem n0 [])
  | RunSpawn past n ts p :
      sysRun spawns n0 past (mkSystem n ts) → spawns p → sysRun spawns n0 past (mkSystem n (ts ++ [p]))
  | RunAdvance past n ts1 ts2 e X (f : Env → Node → X * Node) k :
      sysRun spawns n0 past (mkSystem n (ts1 ++ Call f k :: ts2)) →
      sysRun spawns n0 ((n, e) :: past) (mkSystem (f e n).2 (ts1 ++ k (f e n).1 :: ts2)).

(** Every state that can be reached is reached with a past, and the other way round. *)
Lemma sysRun_rtc spawns n0 σ :
  rtc (sysStep spawns) (mkSystem n0 []) σ ↔ ∃ past, sysRun spawns n0 past σ.
Proof.
  split.
  - revert σ. apply rtc_ind_r; [by exists []; constructor|]. intros σ σ' _ Hs [past IH].
    destruct Hs as [n ts p Hp|n ts1 ts2 e X f k]; eexists; [by apply RunSpawn|by apply RunAdvance].
  - intros [past H]. induction H as [|past n ts p _ IH Hp|past n ts1 ts2 e X f k _ IH]; [done|..];
      (eapply rtc_r; [exact IH|]); by constructor.
Qed.

(** ** The logic *)

Section logic.
(** The invariant of the shared state, given the past. *)
Context (I : list Moment → Node → Prop).

(** Every call of the program, whatever happened since its last one, keeps the invariant,
    and the program ends in an answer for which [Q] holds. *)
Fixpoint Safe {A} (Q : list Moment → A → Prop) (past : list Moment) (p : Prog A) : Prop :=
  match p with
  | Ret a => Q past a
  | Call f k => ∀ more n e, let past' := more ++ past in
      I past' n → I ((n, e) :: past') (f e n).2 ∧ Safe Q ((n, e) :: past') (k (f e n).1)
  end.

(** An assertion that later calls do not take back. *)
Definition Stable {A} (Q : list Moment → A → Prop) : Prop :=
  ∀ past more a, Q past a → Q (more ++ past) a.

Lemma Safe_later {A} (Q : list Moment → A → Prop) past more p :
  Stable Q → Safe Q past p → Safe Q (more ++ past) p.
Proof.
  intros HQ. destruct p as [a|X f k]; simpl; [apply HQ|]. intros Hp more' n e.
  rewrite app_assoc. apply Hp.
Qed.

Lemma Safe_bind {A B} (Q : list Moment → A → Prop) (R : list Moment → B → Prop) past p (k : A → Prog B) :
  Safe Q past p → (∀ more a, Q (more ++ past) a → Safe R (more ++ past) (k a)) → Safe R past (p ≫= k).
Proof.
  revert past. induction p as [a|X f k' IH]; simpl; intros past Hp Hk; [by apply (Hk [])|].
  intros more n e HI. destruct (Hp more n e HI) as [HI' Hp']. split; [done|]. apply IH; [done|].
  intros more' a. change ((n, e) :: more ++ past) with (((n, e) :: more) ++ past). rewrite app_assoc. apply Hk.
Qed.

Lemma Safe_mono {A} (Q Q' : list Moment → A → Prop) past p :
  (∀ past a, Q past a → Q' past a) → Safe Q past p → Safe Q' past p.
Proof.
  intros HQ. revert past. induction p as [a|X f k IH]; simpl; intros past Hp; [by apply HQ|].
  intros more n e HI. destruct (Hp more n e HI) as [HI' Hp']. split; [done|]. by apply IH.
Qed.

(** A program each of whose calls moves the state along a relation that keeps the
    invariant is safe. *)
Lemma Moves_Safe {A} (R : Node → Node → Prop) past (p : Prog A) :
  (∀ past n e n', R n n' → I past n → I ((n, e) :: past) n') → Moves R p → Safe (λ _ _, True) past p.
Proof.
  intros HR. revert past. induction p as [a|X f k IH]; simpl; intros past; [done|].
  intros [Hf Hk] more n e HI. split; [by eapply HR|]. by apply IH.
Qed.

(** ** Soundness *)

Theorem sysRun_safe spawns n0 past σ :
  I [] n0 → (∀ past p, spawns p → Safe (λ _ _, True) past p) →
  sysRun spawns n0 past σ → I past (sy_node σ).
Proof.
  intros H0 Hsp Hrun.
  enough (I past (sy_node σ) ∧ Forall (Safe (λ _ _, True) past) (sy_threads σ)) by tauto.
  induction Hrun as [|past n ts p _ [HI Ht] Hp|past n ts1 ts2 e X f k _ [HI Ht]]; cbn [sy_node sy_threads] in *.
  - split; [done|by apply Forall_nil].
  - split; [done|]. apply Forall_app. split; [done|]. by apply Forall_singleton, Hsp.
  - apply Forall_app in Ht as [Ht1 [Hc Ht2]%Forall_cons]. destruct (Hc [] n e HI) as [HI' Hk].
    assert (∀ ts, Forall (Safe (λ _ (_ : ()), True) past) ts → Forall (Safe (λ _ _, True) ((n, e) :: past)) ts) as Hlater.
    { intros ts Hts. eapply Forall_impl; [exact Hts|]. intros p. by apply (Safe_later _ past [(n, e)]). }
    split; [exact HI'|]. apply Forall_app. split; [by apply Hlater|]. constructor; [exact Hk|by apply Hlater].
Qed.
End logic.

(** ** Runs that can be evaluated *)

(** A schedule: a program starts, or a goroutine makes its next call. *)
Inductive Event := Start (p : Prog ()) | Turn (i : nat) (e : Env).

Definition act (st : list Moment * System) (ev : Event) : list Moment * System :=
  let '(past, σ) := st in
  match ev with
  | Start p => (past, mkSystem (sy_node σ) (sy_threads σ ++ [p]))
  | Turn i e =>
      match sy_threads σ !! i with
      | Some (Call _ _) => ((sy_node σ, e) :: past, advance i e σ)
      | _ => st
      end
  end.

Definition play (n0 : Node) (evs : list Event) : list Moment * System :=
  foldl act ([], mkSystem n0 []) evs.

Lemma play_run spawns n0 evs :
  Forall (λ ev, match ev with Start p => spawns p | Turn _ _ => True end) evs →
  sysRun spawns n0 (play n0 evs).1 (play n0 evs).2.
Proof.
  unfold play. intros Hall. apply (foldl_inv (λ st, sysRun spawns n0 st.1 st.2)); [constructor|].
  rewrite Forall_forall in Hall. intros [past [n ts]] ev Hin Hrun. specialize (Hall ev Hin). cbn in *.
  destruct ev as [p|i e]; [by apply RunSpawn|]. unfold advance. cbn.
  destruct (ts !! i) as [[a|X f k]|] eqn:Hi; [done| |done]. cbn.
  pose proof (RunAdvance spawns n0 past n (take i ts) (drop (S i) ts) e X f k) as Hs.
  rewrite (take_drop_middle _ _ _ Hi) in Hs. specialize (Hs Hrun).
  destruct (f e n) as [x n'] eqn:Hf. cbn in Hs |- *.
  by rewrite insert_take_drop by (by eapply lookup_lt_Some).
Qed.

(** ** One program among the others *)

(** What a call does to the shared state: the state it found, its environment and the state it
    left. *)
Definition Visit : Type := Node * Env * Node.

(** The program makes these calls and answers [a]. Nothing is assumed of the states that its
    calls find: between two of them, any number of other goroutines may have run. *)
Fixpoint takes {A} (p : Prog A) (visits : list Visit) (a : A) : Prop :=
  match p, visits with
  | Ret b, [] => a = b
  | Call f k, (n, e, n') :: visits => n' = (f e n).2 ∧ takes (k (f e n).1) visits a
  | _, _ => False
  end.

Lemma takes_ret {A} (b : A) visits a : takes (mret b) visits a ↔ visits = [] ∧ a = b.
Proof. destruct visits; naive_solver. Qed.

Lemma takes_bind {A B} (p : Prog A) (k : A → Prog B) visits b :
  takes (p ≫= k) visits b ↔ ∃ visits1 visits2 a, visits = visits1 ++ visits2 ∧ takes p visits1 a ∧ takes (k a) visits2 b.
Proof.
  revert visits. induction p as [a|X f k' IH]; intros visits; cbn.
  - split; [intros Hk; by exists [], visits, a|]. intros ([|? ?] & visits2 & a' & -> & Ha & Hk); [|done].
    by subst a'.
  - destruct visits as [|[[n e] n'] visits]; cbn.
    + split; [done|]. by intros ([|? ?] & ? & ? & ? & ? & ?).
    + split.
      * intros (-> & (t1 & t2 & a & -> & Ht & Hk)%IH). by exists ((n, e, (f e n).2) :: t1), t2, a.
      * intros ([|[[n0 e0] n0'] t1] & t2 & a & Heq & Ht & Hk); [done|]. injection Heq as -> -> -> ->. destruct Ht as [-> Ht]. split; [done|].
        apply IH. by exists t1, t2, a.
Qed.

(** A program alone: its first call finds the state it starts in, and its last leaves the one it
    ends in. *)
Lemma run_takes {A} (p : Prog A) envs n :
  ∃ visits, takes p visits (run p envs n).1 ∧
    Forall (λ '(_, e, _), ∃ i, e = envs i) visits ∧
    (visits = [] → (run p envs n).2 = n) ∧
    (∀ visit, head visits = Some visit → visit.1.1 = n) ∧
    ∀ visit, last visits = Some visit → visit.2 = (run p envs n).2.
Proof.
  revert envs n. induction p as [a|X f k IH]; intros envs n; cbn; [by exists []|].
  destruct (f (envs 0%nat) n) as [x n'] eqn:Hf.
  destruct (IH x (λ i, envs (S i)) n') as (visits & Ht & He & Hnil & _ & Hl).
  exists ((n, envs 0%nat, n') :: visits). rewrite Hf. cbn. split_and!; [done|done| |done| |].
  - constructor; [by exists 0%nat|]. eapply Forall_impl; [exact He|]. intros [[??]?] [i ->]. by exists (S i).
  - by intros visit [= <-].
  - intros visit. destruct visits as [|t visits]; [intros [= <-]; cbn; by rewrite Hnil|exact (Hl visit)].
Qed.

(** What a goroutine has left to do is the rest of a program that could start, after calls of
    the past. *)
Lemma sysRun_takes spawns n0 past σ :
  sysRun spawns n0 past σ →
  Forall (λ p, ∃ p0 done, spawns p0 ∧ Forall (λ '(n, e, _), (n, e) ∈ past) done ∧
    ∀ visits a, takes p visits a → takes p0 (done ++ visits) a) (sy_threads σ).
Proof.
  induction 1 as [|past n ts p _ IH Hp|past n ts1 ts2 e X f k _ IH]; cbn in *.
  - by apply Forall_nil.
  - apply Forall_app. split; [exact IH|]. apply Forall_singleton. by exists p, [].
  - assert (∀ p, (∃ p0 done, spawns p0 ∧ Forall (λ '(n, e, _), (n, e) ∈ past) done ∧
      ∀ visits a, takes p visits a → takes p0 (done ++ visits) a) →
      ∃ p0 done, spawns p0 ∧ Forall (λ '(n', e', _), (n', e') ∈ (n, e) :: past) done ∧
      ∀ visits a, takes p visits a → takes p0 (done ++ visits) a) as Hlater.
    { intros p (p0 & dn & Hp & Hd & Ht). exists p0, dn. split_and!; [done| |done].
      eapply Forall_impl; [exact Hd|]. intros [[??]?] ?. by right. }
    apply Forall_app in IH as [IH1 [(p0 & dn & Hp & Hd & Ht) IH2]%Forall_cons].
    apply Forall_app. split; [by eapply Forall_impl|]. constructor; [|by eapply Forall_impl].
    exists p0, (dn ++ [(n, e, (f e n).2)]). split_and!; [done| |].
    + apply Forall_app. split; [|apply Forall_singleton; by left].
      eapply Forall_impl; [exact Hd|]. intros [[??]?] ?. by right.
    + intros visits a Htk. rewrite <-app_assoc. by apply Ht.
Qed.
