(* ===== verification/NodeCaps.v ===== *)
(** * The caps of the stores are the operator's

    The caps of a store never change, and the caps a store is built with are the configured
    ones: [FromEnv] gives positive numbers and [Validate] an ack store larger than the message
    store, so none of the defaults of the constructors comes into play. *)

From Stdlib Require Import Strings.String.
From S2P Require Import Prelude Strconv GoDuration Model Config ConfigProps Peer Capability.
From S2P Require Import QueueStore QueueInv QueueSpec QueueSteps Attachment AttachmentProps.
From S2P Require Import Prekey PrekeyProps Presence PresenceProps Admission Node Server Mesh.
From S2P Require Import Boot NodeProps.

Open Scope Z_scope.

(** ** Caps never change *)

Lemma QueueRun_cfg s s' : QueueInv.Inv s → QueueRun s s' → cfg s' = cfg s.
Proof.
  intros HI [tr Hs]. induction Hs as [|rt s o tr s' _ IH]; [done|].
  rewrite IH by by apply QueueSteps.exec_inv.
  apply (spec_step_cfg _ _ _ _ (exec_spec_step s o HI)).
Qed.

Definition attachmentCaps (r : Relay) : Z * Z * Z * Z :=
  (maxWindow r, maxChunkBytes r, maxAttachmentBytes r, Attachment.maxSessions r).

Lemma AttachmentRun_caps r r' : AttachmentRun r r' → attachmentCaps r' = attachmentCaps r.
Proof.
  intros [os Hs]. induction Hs as [|rt r o os r' _ IH]; [done|]. rewrite IH. clear IH.
  destruct o; unfold AttachmentProps.exec.
  - unfold PushWithGrant. destruct (checkChunk _ _); [done|]. cbv zeta. rewrite sweepLocked_eq.
    set (r1 := Attachment.with_sessions _ _).
    pose proof (openSession_cases r1 now (trimChunk c) grant) as Hc.
    destruct (openSession _ _ _ _) as [err|[sess r2]]; [done|].
    assert (attachmentCaps r2 = attachmentCaps r1) as Hcaps by (by destruct Hc as [_ [->|(_ & _ & _ & ->)]]).
    destruct (checkSession _ _ _ _ _); [done|]. unfold chargeTransit.
    by destruct (negb (_ =? 0)); cbn [snd]; transitivity (attachmentCaps r2).
  - unfold Drain. cbv zeta. destruct (_ || _); [done|]. rewrite sweepLocked_eq.
    destruct (_ !! TrimSpace capability); [|done]. by destruct (_ || _).
  - unfold Complete. destruct (_ !! _); [|done]. by destruct (negb _).
  - unfold Attachment.Prune. cbv zeta. rewrite sweepLocked_eq. done.
Qed.

Definition prekeyCaps (s : Prekey.Store) : Z * Z := (maxPerRecipient s, maxBuckets s).

Lemma PrekeyRun_caps s s' : PrekeyRun s s' → prekeyCaps s' = prekeyCaps s.
Proof.
  intros [os Hs]. induction Hs as [|rt s o os s' _ IH]; [done|]. rewrite IH. clear IH.
  unfold prekeyCaps. destruct o; unfold PrekeyProps.exec.
  - destruct (Publish_cases s now ownerTag v) as [[_ ->]|[(_ & _ & ->)|(_ & _ & new & _ & ->)]]; [done..|].
    cbn [snd]. unfold publishLastResort. by repeat case_match.
  - by destruct (Claim_cases s now ownerTag deviceKey) as (_ & -> & -> & _).
  - done.
Qed.

Lemma makeRoom_cap (rt : GoRuntime) s now caller :
  maxRecords (makeRoomLocked s now caller).2 = maxRecords s.
Proof.
  unfold makeRoomLocked, Presence.dropLocked, releaseLocked. by repeat (case_match; simpl; try done).
Qed.

Lemma PresenceRun_caps s s' : PresenceRun s s' → maxRecords s' = maxRecords s.
Proof.
  intros [os Hs]. induction Hs as [|rt s o os s' _ IH]; [done|]. rewrite IH. clear IH.
  assert (∀ now s, maxRecords (Presence.pruneLocked s now) = maxRecords s) as Hp
    by (intros now s0; by destruct (pruneLocked_spec s0 now) as (_ & _ & -> & _)).
  destruct o; unfold PresenceProps.exec.
  - rewrite Heartbeat_eq. cbv zeta. destruct (heartbeatInvalid _ _); [done|].
    assert (∀ s item, maxRecords (recordLease s now item).2 = maxRecords s) as Hl.
    { intros s0 item. unfold recordLease. destruct (records s0 !! _); [apply putLocked_records|].
      pose proof (makeRoom_cap rt s0 now (rc_caller item)) as Hm.
      destruct (makeRoomLocked s0 now (rc_caller item)) as [ok s1]. simpl in Hm.
      destruct ok; simpl; [|done]. rewrite <-Hm. apply putLocked_records. }
    destruct (revocations _ !! _); [case_match; simpl; [apply Hp|]|]; rewrite Hl; apply Hp.
  - rewrite Revoke_eq. unfold storeRevocationLocked.
    destruct (dropWhere_spec (λ item, bool_decide (rc_ownerHash item = TrimSpace owner)) s) as (_ & _ & Hm & _).
    by repeat (case_match; simpl; try done).
  - unfold ImportRevocations. apply (foldl_inv (λ s', maxRecords s' = maxRecords s)); [done|].
    intros s0 v _ Hs0. unfold importRevocation. cbv zeta.
    repeat (case_match; try done);
      (etrans; [apply (dropWhere_spec _ (with_revocations _ s0))|done]).
  - apply Hp.
Qed.

(** ** Configured caps are positive *)

Lemma envInt_pos env key fallback : 0 < fallback → 0 < envInt env key fallback.
Proof. intros Hf. unfold envInt. repeat case_match; reflect_bools; lia. Qed.

Lemma envDuration_pos env key fallback : 0 < fallback → 0 < envDuration env key fallback.
Proof. intros Hf. unfold envDuration. repeat case_match; reflect_bools; lia. Qed.

(** The numbers the stores are built with. *)
Definition configuredCaps (c : Config) : Prop :=
  0 < c_MaxMessages c ∧ c_MaxMessages c < c_MaxAcks c ∧ 0 < c_MaxPurges c ∧ 0 < c_MaxPerPair c ∧
  0 < c_MaxPayloadBytes c ∧ 0 < c_MaxTTL c ∧ 0 < c_DefaultTTL c ∧ 0 < c_RelayMaxWindow c ∧
  0 < c_MaxChunkBytes c ∧ 0 < c_MaxAttachmentBytes c ∧ 0 < c_RelayMaxSessions c ∧
  0 < c_RelayIdleTimeout c ∧ 0 < c_MaxPrekeyBuckets c ∧ 0 < c_PrekeyClaimBurst c ∧
  0 < c_PrekeyClaimRefill c.

Lemma wrap_int64_small z : - 2 ^ 63 ≤ z < 2 ^ 63 → wrap_int64 z = z.
Proof. intros Hz. unfold wrap_int64. rewrite Z.mod_small; lia. Qed.

Lemma resolveConfig_configured c :
  configuredCaps c → resolveConfig (storeConfig c) = storeConfig c.
Proof.
  intros (? & ? & ? & ? & ? & ? & ? & _). unfold resolveConfig, storeConfig. simpl.
  rewrite (proj2 (Z.leb_gt (c_MaxMessages c) 0)) by lia.
  rewrite (proj2 (Z.leb_gt (c_MaxAcks c) (c_MaxMessages c))) by lia.
  rewrite (proj2 (Z.leb_gt (c_MaxPurges c) 0)) by lia.
  rewrite (proj2 (Z.leb_gt (c_MaxPerPair c) 0)) by lia.
  rewrite (proj2 (Z.leb_gt (c_MaxPayloadBytes c) 0)) by lia.
  rewrite (proj2 (Z.leb_gt (c_MaxTTL c) 0)) by lia.
  by rewrite (proj2 (Z.leb_gt (c_DefaultTTL c) 0)) by lia.
Qed.

Section parsers.
Context `{!NetParsers}.

Lemma FromEnv_caps env :
  c_MaxMessages (FromEnv env) < 2 ^ 62 → Validate env (FromEnv env) = [] → configuredCaps (FromEnv env).
Proof.
  intros Hm Hv.
  assert ((0 < c_MaxAcks (FromEnv env) → 0 < c_MaxMessages (FromEnv env) →
           c_MaxMessages (FromEnv env) < c_MaxAcks (FromEnv env))) as Hacks.
  { unfold Validate in Hv. cbv zeta in Hv.
    destruct (foldl validatePeer _ _) as [seen errs]. rewrite !app_nil, !complain_nil in Hv.
    destruct Hv as [[_ Hv] _]. rewrite !andb_false_iff, !Z.ltb_ge, Z.leb_gt in Hv. lia. }
  assert (0 < c_MaxMessages (FromEnv env)) as Hpos by (apply envInt_pos; lia).
  unfold configuredCaps. split; [exact Hpos|]. split.
  { apply Hacks; [|done]. cbn [FromEnv c_MaxAcks]. apply envInt_pos.
    cbn [FromEnv c_MaxMessages] in Hm, Hpos. rewrite wrap_int64_small; lia. }
  split_and!; cbn; first [apply envInt_pos | apply envDuration_pos]; unfold Hour, Minute, Second; lia.
Qed.
End parsers.
