(* ===== verification/RelayProps.v ===== *)
(** * The relay as a whole

    The process from its boot on: any number of requests on the two listeners, cleanup ticks,
    sync ticks against any peers and reloads of the credential file, interleaved at their
    calls in any way. *)

From Stdlib Require Import Strings.String.
From S2P Require Import Prelude Strconv GoDuration Model Config ConfigProps Peer PeerProps.
From S2P Require Import Capability QueueStore QueueInv QueueSpec QueueSteps Attachment.
From S2P Require Import AttachmentProps Prekey PrekeyProps Presence PresenceProps Admission.
From S2P Require Import AdmissionGate AdmissionProps Node Server Mesh Boot NodeProps NodeCaps.

Open Scope Z_scope.

Section relay.
Context `{!NetParsers} (verify : list Z → list Z → list Z → bool).

(** The programs that may start: a request on one of the listeners, a tick, a reload. *)
Inductive spawns (c : Config) (startedAt : Time) : Prog () → Prop :=
  | SpawnRequest contentLength rq :
      spawns c startedAt (fork (Handler verify c startedAt contentLength rq))
  | SpawnMesh h contentLength r :
      MeshHandler c = Some h → spawns c startedAt (fork (h contentLength r))
  | SpawnCleanup : spawns c startedAt cleanupTick
  | SpawnSync net text : spawns c startedAt (syncTick c net text)
  | SpawnReload (rt : GoRuntime) file : spawns c startedAt (reload c file).

(** The process can get from its boot to a state. *)
Definition relayReaches (env : Environ) (epoch : string) (c : Config) (σ : System) : Prop :=
  ∃ (rt : GoRuntime) file ips startedAt n0,
    boot env file epoch ips = Some (c, n0) ∧ rtc (sysStep (spawns c startedAt)) (mkSystem n0 []) σ.

Lemma spawns_move c startedAt p : spawns c startedAt p → Moves StoreRuns p.
Proof.
  assert (∀ A (q : Prog A), Moves StoreRuns q → Moves StoreRuns (fork q)) as Hfork.
  { intros A q Hq. by apply Moves_bind. }
  destruct 1 as [len rq|h len r Hh| |net text|rt file].
  - apply Hfork, moves_limitBodies, moves_mux.
  - unfold MeshHandler in Hh. destruct (negb _); [done|]. injection Hh as <-.
    apply Hfork, moves_limitBodies, moves_snapshot.
  - apply moves_cleanup.
  - apply moves_syncTick.
  - apply moves_reload.
Qed.

Lemma boot_inv (rt : GoRuntime) env file epoch ips c n :
  boot env file epoch ips = Some (c, n) →
  c = FromEnv env ∧ Validate env c = [] ∧ ∃ adm, n = newNode c epoch ips adm.
Proof.
  unfold boot. cbv zeta. case_bool_decide as Hv; simpl; [|done].
  destruct (loadAdmissions _ _) as [adm|]; [|done]. destruct (_ && _); [done|]. intros [= <- <-].
  split; [done|]. split; [by apply nil_length_inv|eauto].
Qed.

(** From boot on, each store does a run of its own. *)
Lemma relay_store_runs env epoch c σ :
  relayReaches env epoch c σ →
  c = FromEnv env ∧ Validate env c = [] ∧
  ∃ ips adm, StoreRuns (newNode c epoch ips adm) (sy_node σ).
Proof.
  intros (rt & file & ips & startedAt & n0 & Hb & Hrun).
  apply boot_inv in Hb as (Hc & Hv & adm & ->). split; [done|]. split; [done|]. exists ips, adm.
  eapply (sysSteps_move (spawns c startedAt) StoreRuns) in Hrun; [apply Hrun|apply spawns_move|].
  by apply Forall_nil.
Qed.

Lemma envCSV_nonblank env key url : url ∈ envCSV env key → url ≠ ""%string.
Proof. unfold envCSV. cbv zeta. case_match; [set_solver|]. by intros [? _]%list_elem_of_filter. Qed.

(** C2: Every run of the relay is a run of each of its stores. However the calls of requests,
    ticks, pulls and reloads interleave, the queue, the attachment relay, the prekey store
    and the presence store have each gone through a run of their own operations from the
    store the configuration describes, so that what holds in every run of a store holds in the
    relay; and the peers that are pulled from are, once each, the configured ones, whatever
    a peer has served. *)
Theorem relay_runs_are_store_runs env epoch c σ :
  relayReaches env epoch c σ →
  let n := sy_node σ in
  QueueRun (QueueStore.NewStore (storeConfig c) epoch) (nd_store n) ∧
  AttachmentRun (NewRelay (c_RelayMaxWindow c) (c_MaxChunkBytes c) (c_MaxAttachmentBytes c)
                   (c_RelayMaxSessions c) (c_RelayIdleTimeout c)) (nd_attachments n) ∧
  PrekeyRun (NewStoreWithLimits (PrekeyLimits c)) (nd_prekeys n) ∧
  PresenceRun (Presence.NewStore 5000 (24 * Hour)) (nd_presence n) ∧
  NoDup (Targets (nd_pool n)) ∧ ∀ url, url ∈ Targets (nd_pool n) ↔ url ∈ c_MeshPeers c.
Proof.
  intros (-> & _ & ips & adm & [Hq Ha Hk Hp _ Hr])%relay_store_runs n.
  do 4 (split; [done|]). unfold Targets, n. rewrite Hr, newNode_eq. cbn [nd_pool].
  destruct (NewPool_ok (c_NodeID (FromEnv env)) (c_PublicURL (FromEnv env))
    (c_MeshPeers (FromEnv env)) ips) as (peers & (-> & _) & Hnd & Hin).
  split; [done|]. intros url. rewrite Hin. split; [tauto|]. intros Hu. split; [done|].
  exact (envCSV_nonblank env "DEE_NODE_MESH_PEERS" url Hu).
Qed.

(** C3: The memory of the relay is bounded by what the operator configured, whatever
    clients and peers send and however their requests interleave: in messages, acks and
    tombstones, in transfers, the chunks and bytes of each, in prekey pools and
    their entries, in presence records and revocations, and in challenges and sessions. *)
Theorem relay_memory_bounded env epoch c σ :
  c_MaxMessages c < 2 ^ 62 → relayReaches env epoch c σ →
  let n := sy_node σ in
  map_len (messages (nd_store n)) ≤ c_MaxMessages c ∧
  map_len (acks (nd_store n)) ≤ c_MaxAcks c ∧
  map_len (purges (nd_store n)) ≤ c_MaxPurges c ∧
  map_len (Attachment.sessions (nd_attachments n)) ≤ c_RelayMaxSessions c ∧
  (∀ cap s, Attachment.sessions (nd_attachments n) !! cap = Some s →
     Z.of_nat (length (s_window s)) ≤ c_RelayMaxWindow c ∧
     Forall (λ chunk, len (c_EncryptedPayload chunk) ≤ c_MaxChunkBytes c) (s_window s) ∧
     s_pushedBytes s ≤ c_MaxAttachmentBytes c) ∧
  Z.of_nat (size (buckets (nd_prekeys n))) ≤ c_MaxPrekeyBuckets c ∧
  (∀ key q, queues (nd_prekeys n) !! key = Some q → Z.of_nat (length q) ≤ 100) ∧
  map_len (records (nd_presence n)) ≤ 5000 ∧ map_len (revocations (nd_presence n)) ≤ 5000 ∧
  map_len (nonces (nd_sessions n)) ≤ 8192 ∧ map_len (Admission.sessions (nd_sessions n)) ≤ 16384.
Proof.
  intros Hmax (Hc & Hv & ips & adm & [Hq Ha Hk Hp Hg _])%relay_store_runs n.
  assert (configuredCaps c) as Hcaps by (rewrite Hc; apply FromEnv_caps; by rewrite <-Hc).
  pose proof Hcaps as (? & ? & ? & ? & ? & ? & ? & ? & ? & ? & ? & ? & ? & _).
  fold n in Hq, Ha, Hk, Hp, Hg. rewrite !newNode_eq in *. cbn [nd_store nd_attachments nd_prekeys nd_presence nd_sessions] in *.
  assert (QueueInv.Inv (QueueStore.NewStore (storeConfig c) epoch)) as HI0 by (by apply NewStore_inv).
  pose proof (QueueRun_cfg _ _ HI0 Hq) as Hcfg. simpl in Hcfg. rewrite resolveConfig_configured in Hcfg by done.
  pose proof (AttachmentRun_caps _ _ Ha) as Hacaps. pose proof (PrekeyRun_caps _ _ Hk) as Hkcaps.
  pose proof (PresenceRun_caps _ _ Hp) as Hpcaps.
  destruct Hq as [tr Hq], Ha as [os Ha], Hk as [os' Hk], Hp as [os'' Hp].
  apply QueueSteps.steps_inv in Hq; [|done].
  apply attachment_steps_inv in Ha; [|apply NewRelay_inv].
  apply prekey_steps_inv in Hk; [|apply NewStoreWithLimits_inv].
  apply presence_steps_inv in Hp; [|apply presence_NewStore_inv].
  destruct (Hg ltac:(by split)) as [Hn Hs].
  unfold attachmentCaps in Hacaps. unfold NewRelay in Hacaps. cbn in Hacaps.
  rewrite !(proj2 (Z.leb_gt _ 0)) in Hacaps by lia. injection Hacaps as Ew Ec Ea Es.
  unfold prekeyCaps in Hkcaps. cbn in Hkcaps.
  rewrite (proj2 (Z.leb_gt (c_MaxPrekeyBuckets c) 0)) in Hkcaps by lia. injection Hkcaps as Ek Eb.
  pose proof (QueueInv.inv_messages_cap _ Hq) as Hm1. pose proof (QueueInv.inv_acks_cap _ Hq) as Hm2.
  pose proof (QueueInv.inv_purges_cap _ Hq) as Hm3. rewrite Hcfg in Hm1, Hm2, Hm3.
  split_and!; try done.
  - unfold map_len. rewrite <-Es. apply (AttachmentProps.inv_count _ Ha).
  - intros cap s Hcap. destruct (AttachmentProps.inv_sessions _ Ha cap s Hcap).
    rewrite <-Ew, <-Ec, <-Ea. split_and!; [done| |lia].
    eapply Forall_impl; [done|]. by intros ? [].
  - rewrite <-Eb. apply (PrekeyProps.inv_buckets _ Hk).
  - intros key q Hkq. destruct (PrekeyProps.inv_pools _ Hk key q Hkq) as [_ Hlen _ _]. by rewrite Ek in Hlen.
  - unfold map_len. change 5000 with (maxRecords (Presence.NewStore 5000 (24 * Hour))).
    rewrite <-Hpcaps. apply (PresenceProps.inv_records _ Hp).
  - unfold map_len. change 5000 with (maxRecords (Presence.NewStore 5000 (24 * Hour))).
    rewrite <-Hpcaps. apply (PresenceProps.inv_revocations _ Hp).
Qed.
End relay.

(** ** An example: a fresh relay takes a message *)

#[local] Existing Instance demoParsers.

Module Sample.
Definition T0 : Time := 10 ^ 15.
Definition env0 : Environ := λ _, ""%string.
Definition e0 : Env := mkEnv list_runtime (λ _, T0) None [].
Definition envelope : MessageEnvelope :=
  mkMessageEnvelope "m1" "alice" "bob" 0 0 "sealed" "" "" "" ∅ "" "".
Definition verify0 : list Z → list Z → list Z → bool := λ _ _ _, false.
Definition c0 : Config := FromEnv env0.
Definition n0 : Node := newNode c0 "epoch" [] Admission.NewStore.
Definition post : Request := PostMessages (mkHttp (λ _, ""%string) (λ _, ""%string)) (inr envelope).
Definition σ1 : System :=
  mkSystem n0 [fork (Handler verify0 c0 T0 (Some 300) post)].
Definition σ2 : System := advance 0 e0 σ1.
End Sample.

Lemma sample_reaches :
  relayReaches Sample.verify0 Sample.env0 "epoch" Sample.c0 Sample.σ2.
Proof.
  exists list_runtime, None, [], Sample.T0, Sample.n0. split; [by vm_compute|].
  eapply rtc_l; [|apply (advance_steps _ 0 Sample.e0 Sample.σ1)].
  apply (Spawn _ Sample.n0 []), SpawnRequest.
Defined.

Lemma relay_memory_bounded_witness :
  (c_MaxMessages Sample.c0 < 2 ^ 62 ∧
   map_len (messages (nd_store (sy_node Sample.σ2))) = 1 ∧
   map_len (messages (nd_store (sy_node Sample.σ2))) ≤ c_MaxMessages Sample.c0).
Proof.
  assert (c_MaxMessages Sample.c0 < 2 ^ 62) as Hm by by vm_compute.
  split; [exact Hm|]. split; [by vm_compute|].
  apply (relay_memory_bounded Sample.verify0 Sample.env0 "epoch"
    Sample.c0 Sample.σ2 Hm sample_reaches).
Defined.

Lemma relay_runs_are_store_runs_witness :
  (map_len (messages (nd_store (sy_node Sample.σ2))) = 1 ∧
   QueueRun (QueueStore.NewStore (storeConfig Sample.c0) "epoch") (nd_store (sy_node Sample.σ2))).
Proof.
  split; [by vm_compute|].
  apply (relay_runs_are_store_runs Sample.verify0 Sample.env0 "epoch"
    Sample.c0 Sample.σ2 sample_reaches).
Defined.
