(* ===== verification/RelayAdmission.v ===== *)
(** * Who the relay serves, over its whole life

    From boot on and under every interleaving of requests, ticks, pulls and reloads: every
    session was opened for a circle that proved itself, and every message is charged to the
    circle whose session posted it. *)

From Stdlib Require Import Strings.String.
From S2P Require Import Prelude Strconv Crypto GoDuration Model Config ConfigProps Peer Capability.
From S2P Require Import QueueStore QueueInv QueueSpec QueueSteps QueueCharge Attachment Prekey.
From S2P Require Import Presence Admission AdmissionGate AdmissionProps Node NodeLogic Server Mesh.
From S2P Require Import Boot NodeProps NodeCaps RelayProps.

Open Scope Z_scope.

(** ** What the past has to show *)

(** At some earlier moment, [Q] held of the state a call found and of its environment. *)
Definition once (past : list Moment) (Q : Node → Env → Prop) : Prop := ∃ n e, (n, e) ∈ past ∧ Q n e.

Lemma once_later past more Q : once past Q → once (more ++ past) Q.
Proof. intros (n & e & Hin & HQ). exists n, e. split; [|done]. by apply elem_of_app; right. Qed.

Lemma once_now past n e (Q : Node → Env → Prop) : Q n e → once ((n, e) :: past) Q.
Proof. intros HQ. exists n, e. split; [by left|done]. Qed.

Section relay.
Context `{!NetParsers} (verify : list Z → list Z → list Z → bool) (c : Config).

(** The nonce is one of this relay's, good until [exp]. *)
Definition Issued (past : list Moment) (nonce : string) (exp : Time) : Prop :=
  once past (λ _ e, randomToken (e_raw e) = inr nonce ∧ exp = Add (e_now e) nonceTTL).

(** A signature of the circle over a nonce that this relay had issued and that was
    outstanding and in time. *)
Definition Proved (past : list Moment) (credential : string) : Prop :=
  ∃ nonce signature exp, Issued past nonce exp ∧ Verify verify credential nonce signature = true ∧
    once past (λ n e, nonces (nd_sessions n) !! nonce = Some exp ∧ e_now e < exp).

(** The session was opened for a circle that had proved itself and was admitted then. *)
Definition Opened (past : list Moment) (token : string) (entry : sessionEntry) : Prop :=
  Proved past (se_credentialID entry) ∧
  once past (λ n e, ∃ g, Lookup (nd_admissions n) (se_credentialID entry) (e_now e) = inr g) ∧
  once past (λ _ e, randomToken (e_raw e) = inr token ∧ se_expiresAt entry = Add (e_now e) sessionTTL).

(** A request came with the token of a session that stood, and its circle was admitted with
    the index [k]. *)
Definition Served (past : list Moment) (k : Z) : Prop :=
  ∃ token entry, Opened past token entry ∧
    once past (λ n e, Admission.sessions (nd_sessions n) !! token = Some entry ∧ e_now e < se_expiresAt entry) ∧
    once past (λ n e, ∃ g, Lookup (nd_admissions n) (se_credentialID entry) (e_now e) = inr g ∧ ga_Index g = k).

Lemma Issued_later past more nonce exp : Issued past nonce exp → Issued (more ++ past) nonce exp.
Proof. apply once_later. Qed.

Lemma Proved_later past more cr : Proved past cr → Proved (more ++ past) cr.
Proof. intros (nonce & sig & exp & Hi & Hv & Ho). exists nonce, sig, exp. auto using once_later, Issued_later. Qed.

Lemma Opened_later past more token entry : Opened past token entry → Opened (more ++ past) token entry.
Proof. intros (Hp & Hl & Ho). split_and!; auto using once_later, Proved_later. Qed.

Lemma Served_later past more k : Served past k → Served (more ++ past) k.
Proof. intros (token & entry & Ho & Hs & Hl). exists token, entry. auto using once_later, Opened_later. Qed.

(** ** The invariant *)

(** A relay that does not enforce, or that pulls from peers, holds messages of nobody. *)
Definition openDoor : Prop := c_RequireAdmission c = false ∨ c_MeshPeers c ≠ [].

Record Accounted (past : list Moment) (n : Node) : Prop := {
  acc_queue : QueueInv.Inv (nd_store n);
  acc_loaded : c_RequireAdmission c = true → credentials (nd_admissions n) ≠ ∅;
  acc_nonces : ∀ nonce exp, nonces (nd_sessions n) !! nonce = Some exp → Issued past nonce exp;
  acc_sessions : ∀ token entry, Admission.sessions (nd_sessions n) !! token = Some entry → Opened past token entry;
  acc_messages : ∀ id, is_Some (messages (nd_store n) !! id) →
    Served past (chargeOf (nd_store n) id) ∨ chargeOf (nd_store n) id = 0 ∧ openDoor;
}.

(** *** Calls that open no session and post nothing *)

Definition shrinks (s s' : Sessions) : Prop :=
  nonces s' ⊆ nonces s ∧ Admission.sessions s' ⊆ Admission.sessions s.

Definition chargeMove (K : Z → Prop) (s s' : QueueStore.Store) : Prop :=
  QueueInv.Inv s → QueueInv.Inv s' ∧ charging K (abs s) (abs s').

Definition loadedStays (s s' : Admission.Store) : Prop :=
  c_RequireAdmission c = true → credentials s ≠ ∅ → credentials s' ≠ ∅.

(** A message that appears came from a peer. *)
Record Quiet (n n' : Node) : Prop := {
  qu_store : chargeMove (λ k, k = 0 ∧ c_MeshPeers c ≠ []) (nd_store n) (nd_store n');
  qu_gate : shrinks (nd_sessions n) (nd_sessions n');
  qu_loaded : loadedStays (nd_admissions n) (nd_admissions n');
}.

Lemma chargeMove_refl K s : chargeMove K s s.
Proof. intros HI. split; [done|apply charging_refl]. Qed.

Lemma Quiet_keeps past n e n' : Quiet n n' → Accounted past n → Accounted ((n, e) :: past) n'.
Proof.
  intros [Hst [Hn Hs] Hl] [Hq Hld Hno Hse Hm]. destruct (Hst Hq) as [Hq' Hch].
  pose proof (λ P, once_later past [(n, e)] P) as Hlater. split.
  - done.
  - intros Hr. by apply Hl, Hld.
  - intros nonce exp Hx. apply (Issued_later past [(n, e)]). by eapply Hno, lookup_weaken.
  - intros token entry Hx. apply (Opened_later past [(n, e)]). by eapply Hse, lookup_weaken.
  - intros id Hid. destruct (Hch id Hid) as [[Hid' Heq]|[Hz Hp]].
    + change (R_chargeOf (abs ?s) id) with (chargeOf s id) in Heq. rewrite Heq.
      destruct (Hm id Hid') as [Ha|Ho]; [left|by right]. by apply (Served_later past [(n, e)]).
    + right. split; [exact Hz|by right].
Qed.

Lemma shrinks_refl s : shrinks s s.
Proof. done. Qed.

Lemma Quiet_onStore {X} (f : Env → QueueStore.Store → X * QueueStore.Store) :
  (∀ e s, chargeMove (λ k, k = 0 ∧ c_MeshPeers c ≠ []) s (f e s).2) → Moves Quiet (onStore f).
Proof.
  intros Hf. split; [|done]. intros e n. specialize (Hf e (nd_store n)).
  destruct (f e (nd_store n)). split; [done|done|by intros ?].
Qed.

Lemma Quiet_onSessions {X} (f : Env → Sessions → X * Sessions) :
  (∀ e s, shrinks s (f e s).2) → Moves Quiet (onSessions f).
Proof.
  intros Hf. split; [|done]. intros e n. specialize (Hf e (nd_sessions n)).
  destruct (f e (nd_sessions n)). split; [apply chargeMove_refl|done|by intros ?].
Qed.

Lemma Quiet_onAdmissions {X} (f : Env → Admission.Store → X * Admission.Store) :
  (∀ e s, loadedStays s (f e s).2) → Moves Quiet (onAdmissions f).
Proof.
  intros Hf. split; [|done]. intros e n. specialize (Hf e (nd_admissions n)).
  destruct (f e (nd_admissions n)). split; [apply chargeMove_refl|done..].
Qed.

(** The other stores do not matter. *)
Definition aside (n n' : Node) : Prop :=
  nd_store n' = nd_store n ∧ nd_sessions n' = nd_sessions n ∧ nd_admissions n' = nd_admissions n.

Lemma aside_Quiet n n' : aside n n' → Quiet n n'.
Proof. intros (Hs & Hg & Ha). split; rewrite ?Hs, ?Hg, ?Ha; [apply chargeMove_refl|done|by intros ?]. Qed.

Lemma Quiet_onAttachments {X} (f : Env → Relay → X * Relay) : Moves Quiet (onAttachments f).
Proof. split; [|done]. intros e n. apply aside_Quiet. by destruct (f e (nd_attachments n)). Qed.
Lemma Quiet_onPrekeys {X} (f : Env → Prekey.Store → X * Prekey.Store) : Moves Quiet (onPrekeys f).
Proof. split; [|done]. intros e n. apply aside_Quiet. by destruct (f e (nd_prekeys n)). Qed.
Lemma Quiet_onPresence {X} (f : Env → Presence.Store → X * Presence.Store) : Moves Quiet (onPresence f).
Proof. split; [|done]. intros e n. apply aside_Quiet. by destruct (f e (nd_presence n)). Qed.
Lemma Quiet_onPool {X} (f : Env → Pool → X * Pool) : Moves Quiet (onPool f).
Proof. split; [|done]. intros e n. apply aside_Quiet. by destruct (f e (nd_pool n)). Qed.
Lemma Quiet_onCursors {X} (f : gmap string cursor → X * gmap string cursor) : Moves Quiet (onCursors f).
Proof. split; [|done]. intros e n. apply aside_Quiet. by destruct (f (nd_cursors n)). Qed.
Lemma Quiet_readClock : Moves Quiet readClock.
Proof. split; [|done]. intros e n. by apply aside_Quiet. Qed.

(** *** The operations *)

Lemma quiet_op (rt : GoRuntime) K s o : storesNothing o → chargeMove K s (QueueSteps.exec s o).2.
Proof.
  intros Ho HI. split; [by apply exec_inv|]. intros id Hid.
  destruct (quiet_step _ _ _ _ Ho (exec_spec_step s o HI) id Hid) as [?|[]]. by left.
Qed.

Lemma quiet_AddAck K s now a nodeID g auth : chargeMove K s (AddAckWithGrant s now a nodeID g auth).2.
Proof. op_run (quiet_op list_runtime K s (OAddAck now a nodeID g auth) I) (AddAckWithGrant s now a nodeID g auth). Qed.

Lemma quiet_Messages (rt : GoRuntime) K s now rec limit auth :
  chargeMove K s (MessagesForRecipient s now rec limit auth).2.
Proof. op_run (quiet_op rt K s (OMessagesFor now rec limit auth) I) (MessagesForRecipient s now rec limit auth). Qed.

Lemma quiet_Acks (rt : GoRuntime) K s now sender limit auth : chargeMove K s (AcksForSender s now sender limit auth).2.
Proof. op_run (quiet_op rt K s (OAcksFor now sender limit auth) I) (AcksForSender s now sender limit auth). Qed.

Lemma quiet_Snapshot (rt : GoRuntime) K s now since limit : chargeMove K s (SnapshotSince s now since limit).2.
Proof. op_run (quiet_op rt K s (OSnapshot now since limit) I) (SnapshotSince s now since limit). Qed.

Lemma quiet_Prune (rt : GoRuntime) K s now : chargeMove K s (PruneExpired s now).2.
Proof. op_run (quiet_op rt K s (QueueSteps.OPrune now) I) (PruneExpired s now). Qed.

Lemma quiet_Purge (rt : GoRuntime) K s now h : chargeMove K s (PurgeOwner s now h).2.
Proof. op_run (quiet_op rt K s (OPurge now h) I) (PurgeOwner s now h). Qed.

Lemma charging_weaken (K K' : Z → Prop) r r' : (∀ k, K k → K' k) → charging K r r' → charging K' r r'.
Proof. intros HK Hc id [?|Hk]%Hc; [by left|right; by apply HK]. Qed.

Lemma quiet_Import (rt : GoRuntime) s now p :
  c_MeshPeers c ≠ [] → chargeMove (λ k, k = 0 ∧ c_MeshPeers c ≠ []) s (ImportSnapshot s now p).2.
Proof.
  intros Hp HI. split; [by apply ImportSnapshot_inv|].
  pose proof (import_charging (abs s) now p (abs_chargesHeld s HI)) as Hc.
  rewrite abs_ImportSnapshot in Hc by done. by eapply charging_weaken; [|exact Hc].
Qed.

Lemma shrinks_Resolve s token now : shrinks s (Resolve s token now).2.
Proof. destruct (Resolve_shrinks s token now) as [Hn Hs]. split; [by rewrite Hn|done]. Qed.

Lemma shrinks_Forget s id : shrinks s (Forget s id).
Proof. split; [done|apply Forget_shrinks]. Qed.

Lemma replaceOne_size l st : l ≠ [] → (foldl replaceOne st l).1.1 ≠ ∅.
Proof.
  destruct l as [|cr l] using rev_ind; [done|]. intros _. rewrite foldl_app. cbn.
  destruct (foldl replaceOne st l) as [[next ix] ni]. unfold replaceOne.
  destruct (ix !! cr_ID cr); cbn; apply insert_non_empty.
Qed.

Lemma loaded_Replace s cs : cs ≠ [] → credentials (Replace s cs) ≠ ∅.
Proof.
  intros Hcs. unfold Replace. pose proof (replaceOne_size cs (∅, index s, nextIndex s) Hcs) as Hne.
  by destruct (foldl _ _ _) as [[next ix] ni].
Qed.

Create HintDb quiet.

#[local] Hint Resolve quiet_AddAck quiet_Messages quiet_Acks quiet_Snapshot quiet_Prune quiet_Purge
  chargeMove_refl shrinks_Resolve shrinks_Forget shrinks_refl : quiet.

(** *** The programs that are quiet *)

Ltac quiet :=
  repeat first
    [ progress cbv zeta
    | apply Moves_ret
    | apply Quiet_onStore; intros ??; cbn [snd]; solve [auto 2 with quiet nocore]
    | apply Quiet_onSessions; intros ??; cbn [snd]; solve [auto 2 with quiet nocore]
    | apply Quiet_onAdmissions; intros ??; cbn [snd]; by intros ?
    | apply Quiet_onAttachments | apply Quiet_onPrekeys | apply Quiet_onPresence
    | apply Quiet_onPool | apply Quiet_onCursors | apply Quiet_readClock
    | apply Moves_bind; [|intros ?]
    | solve [auto with quiet]
    | case_match ].

Lemma quiet_gated r h : (∀ g, Moves Quiet (h g)) → Moves Quiet (gated c r h).
Proof. intros Hh. unfold gated, admitCall. quiet. Qed.

Lemma quiet_poll patience rec cap deadline : Moves Quiet (pollLoop patience rec cap deadline).
Proof. induction patience as [|p IH]; cbn [pollLoop]; quiet. Qed.

#[local] Hint Resolve quiet_poll : quiet.

(** Every route but the two of the gate and the one that posts. *)
Lemma quiet_mux startedAt rq :
  match rq with
  | PostAdmissionChallenge | PostAdmissionRedeem _ | PostMessages _ _ => True
  | _ => Moves Quiet (mux verify c startedAt rq)
  end.
Proof.
  destruct rq; cbn [mux]; try done; try (apply quiet_gated; intros g);
    unfold handleHealth, handleNodes, handlePresenceRevoke, handleProfilePurge, writeDecodeError, writeError; quiet.
Qed.

Lemma quiet_meshSnapshot r : Moves Quiet (handleMeshSnapshot c r).
Proof. unfold handleMeshSnapshot, writeError. quiet. Qed.

Lemma quiet_cleanup : Moves Quiet cleanupTick.
Proof. unfold cleanupTick. quiet. Qed.

Lemma quiet_reload (rt : GoRuntime) file : Moves Quiet (reload c file).
Proof.
  unfold reload. case_match; [done|]. destruct (ReadFile file) as [reloaded|]; [|done]. case_match eqn:Hr; [done|].
  apply Quiet_onAdmissions. intros e s Henf _. cbn [snd]. apply loaded_Replace. intros ->.
  by rewrite Henf in Hr.
Qed.

Lemma quiet_importPresence vs : Moves Quiet (importPresence vs).
Proof. induction vs as [|v vs IH]; cbn [importPresence]; quiet. Qed.

#[local] Hint Resolve quiet_importPresence : quiet.

Lemma quiet_syncPages net url pages id res :
  c_MeshPeers c ≠ [] → Moves Quiet (syncPages c net url pages id res).
Proof.
  intros Hp. revert id res. induction pages as [|pages IH]; intros id res; cbn [syncPages];
    unfold cursorFor, setCursor, importPage; quiet.
  all: apply Quiet_onStore; intros ??; by apply quiet_Import.
Qed.

Lemma quiet_syncTargets net text targets errs :
  c_MeshPeers c ≠ [] → Moves Quiet (syncTargets c net text targets errs).
Proof.
  intros Hp. revert errs. induction targets as [|url targets IH]; intros errs; cbn [syncTargets]; [done|].
  apply Moves_bind; [by apply quiet_syncPages|]. intros [res [err|]]; cbn [snd]; [|apply IH].
  apply Moves_bind; [apply Quiet_onPool|intros ?; apply IH].
Qed.

Lemma quiet_syncTick net text : Moves Quiet (syncTick c net text).
Proof.
  unfold syncTick. case_match eqn:Hb; [|done]. reflect_bools.
  assert (c_MeshPeers c ≠ []) as Hp by naive_solver. apply Moves_bind; [|done]. unfold SyncAll.
  case_match; [done|]. apply Moves_bind; [apply Quiet_onPool|]. intros targets. by apply quiet_syncTargets.
Qed.

(** *** The programs that are not *)

Abbreviation safe := (Safe Accounted (λ _ _, True)).

Lemma quiet_safe {A} past (p : Prog A) : Moves Quiet p → safe past p.
Proof. apply Moves_Safe. intros past' n e n'. apply Quiet_keeps. Qed.

(** What a call on the sessions may add, with the rest of the state as it was. *)
Lemma onSessions_keeps past n e s' :
  Accounted past n →
  (∀ nonce exp, nonces s' !! nonce = Some exp →
     nonces (nd_sessions n) !! nonce = Some exp ∨ Issued ((n, e) :: past) nonce exp) →
  (∀ token entry, Admission.sessions s' !! token = Some entry →
     Admission.sessions (nd_sessions n) !! token = Some entry ∨ Opened ((n, e) :: past) token entry) →
  Accounted ((n, e) :: past) (Node.with_sessions s' n).
Proof.
  intros Hacc Hno Hse.
  destruct (Quiet_keeps past n e n (aside_Quiet n n ltac:(done)) Hacc) as [Hq Hl Hno' Hse' Hm]. split; try done.
  - intros nonce exp [?|?]%Hno; auto.
  - intros token entry [?|?]%Hse; auto.
Qed.

Lemma fewer_keeps past n e s' :
  Accounted past n → shrinks (nd_sessions n) s' → Accounted ((n, e) :: past) (Node.with_sessions s' n).
Proof. intros HI [Hn Hs]. apply onSessions_keeps; [done| |]; intros ???; left; by eapply lookup_weaken. Qed.

(** The next call of a program, by the table it is on. *)
Lemma safe_onSessions {X B} (Q : list Moment → B → Prop) (f : Env → Sessions → X * Sessions) (k : X → Prog B) past :
  (∀ more n e, let past' := (n, e) :: more ++ past in Accounted (more ++ past) n →
     Accounted past' (Node.with_sessions (f e (nd_sessions n)).2 n) ∧
     Safe Accounted Q past' (k (f e (nd_sessions n)).1)) →
  Safe Accounted Q past (onSessions f ≫= k).
Proof.
  intros Hf more n e past' HI. specialize (Hf more n e HI). by destruct (f e (nd_sessions n)).
Qed.

Lemma safe_Lookup {B} (Q : list Moment → B → Prop) id (k : AdmissionError + Grant → Prog B) past :
  (∀ more n e, let past' := (n, e) :: more ++ past in Accounted (more ++ past) n →
     Safe Accounted Q past' (k (Lookup (nd_admissions n) id (e_now e)))) →
  Safe Accounted Q past (onAdmissions (λ e s, (Lookup s id (e_now e), s)) ≫= k).
Proof.
  intros Hf more n e past' HI. split; [|by apply Hf].
  eapply Quiet_keeps; [|exact HI]. by apply aside_Quiet.
Qed.

Lemma safe_challenge past : safe past challengeHandler.
Proof.
  apply safe_onSessions. intros more n e past' HI.
  pose proof (sweepLocked_shrinks (H := e_rt e) (nd_sessions n) (e_now e)) as Hsw.
  unfold Challenge. cbv zeta. destruct (_ <=? _); [split; [by apply fewer_keeps|done]|].
  destruct (randomToken (e_raw e)) as [err|nonce] eqn:Hr; [split; [by apply fewer_keeps|done]|].
  destruct Hsw as [Hn Hs]. split; [|done]. apply onSessions_keeps; [done| |].
  - cbn [snd nonces]. intros nonce' exp [[-> <-]|[_ Hx]]%lookup_insert_Some; [|left; by eapply lookup_weaken].
    right. by apply once_now.
  - intros token entry Hx. left. by eapply lookup_weaken.
Qed.

(** A proof that is accepted was over a nonce that was outstanding and in time. *)
Lemma VerifyProof_cases s id nonce sig now :
  shrinks s (VerifyProof verify s id nonce sig now).2 ∧
  ((VerifyProof verify s id nonce sig now).1 = None →
   ∃ exp, nonces s !! nonce = Some exp ∧ now < exp ∧ Verify verify id nonce sig = true).
Proof.
  unfold VerifyProof, spendNonceLocked. destruct (nonces s !! nonce) as [exp|]; [|done].
  cbn. split; [split; [apply delete_subseteq|done]|]. case_match eqn:Hb; [done|]. intros _. exists exp.
  apply orb_false_iff in Hb as [Ha%negb_false_iff Hv%negb_false_iff]. apply Z.ltb_lt in Ha. done.
Qed.

Lemma Open_cases (rt : GoRuntime) s id now raw :
  let s' := (Open s id now raw).2 in
  nonces s' ⊆ nonces s ∧
  ∀ token entry, Admission.sessions s' !! token = Some entry →
    Admission.sessions s !! token = Some entry ∨
    randomToken raw = inr token ∧ entry = mkSessionEntry id (Add now sessionTTL).
Proof.
  destruct (sweepLocked_shrinks (H := rt) s now) as [Hn Hs].
  destruct (Open s id now raw) as [[err|[token ttl]] s'] eqn:Ho; cbn.
  - apply Open_refused in Ho as ->. split; [done|]. intros tok entry Hx. left. by eapply lookup_weaken.
  - apply Open_opened in Ho as (Hr & _ & _ & ->). cbn. split; [done|]. intros tok entry Hx.
    rewrite foldl_delete in Hx. eapply lookup_weaken in Hx; [|apply keep_subseteq].
    apply lookup_insert_Some in Hx as [[-> <-]|[_ Hx]]; [by right|left; by eapply lookup_weaken].
Qed.

Lemma safe_redeem past value : safe past (redeemHandler verify value).
Proof.
  unfold redeemHandler. destruct value as [|[[id nonce] sig64]]; [done|]. case_match; [done|].
  destruct (Base64.RawURLDecodeString sig64) as [sig|]; [|done].
  apply safe_onSessions. intros more n e past1 HI. cbn [fst snd].
  destruct (VerifyProof_cases (nd_sessions n) id nonce sig (e_now e)) as [Hsh Hv].
  split; [by apply fewer_keeps|]. destruct (VerifyProof _ _ _ _ _ _) as [[err|] s1]; cbn [fst snd] in *; [done|].
  destruct (Hv eq_refl) as (exp & Hno & Hlt & Hver).
  assert (Proved past1 id) as Hproved.
  { exists nonce, sig, exp. split_and!; [|done|by apply once_now].
    apply (Issued_later (more ++ past) [(n, e)]). by eapply acc_nonces. }
  clearbody past1. clear HI Hv Hno Hlt Hver Hsh. apply safe_Lookup. intros more2 n2 e2 past2 HI2.
  destruct (Lookup _ id (e_now e2)) as [err|g] eqn:Hl.
  - destruct err; try done. apply safe_onSessions. intros more3 n3 e3 past3 HI3.
    split; [|done]. apply fewer_keeps; [done|apply shrinks_Forget].
  - assert (once past2 (λ n e, ∃ g, Lookup (nd_admissions n) id (e_now e) = inr g)) as Hlook
      by (apply once_now; by exists g).
    apply (Proved_later past1 ((n2, e2) :: more2)) in Hproved.
    change (((n2, e2) :: more2) ++ past1) with past2 in Hproved. clearbody past2. clear HI2 Hl.
    apply safe_onSessions. intros more3 n3 e3 past3 HI3. cbn [fst snd].
    destruct (Open_cases (e_rt e3) (nd_sessions n3) id (e_now e3) (e_raw e3)) as [Hn3 Ho3].
    split; [|by destruct (Open _ _ _ _) as [[[]|[]] ?]].
    apply onSessions_keeps; [done| |].
    + intros ???. left. by eapply lookup_weaken.
    + intros token entry [?|[Hr ->]]%Ho3; [by left|right]. split_and!.
      * by apply (Proved_later past2 ((n3, e3) :: more3)).
      * by apply (once_later past2 ((n3, e3) :: more3)).
      * by apply once_now.
Qed.

(** The gate lets a request pass under a grant that the past accounts for. *)
Definition passes (past : list Moment) (outcome : Response + Grant) : Prop :=
  match outcome with
  | inl _ => True
  | inr g => Served past (ga_Index g) ∨ ga_Index g = 0 ∧ c_RequireAdmission c = false
  end.

Lemma safe_admit past r : Safe Accounted passes past (admitCall c r).
Proof.
  unfold admitCall. cbv zeta. case_match.
  { destruct (c_RequireAdmission c) eqn:Hr; [done|]. by right. }
  set (token := header r admissionHeader). apply safe_onSessions. intros more n e past1 HI. cbn [fst snd].
  split; [apply fewer_keeps; [done|apply shrinks_Resolve]|].
  destruct (Resolve_cases (nd_sessions n) token (e_now e)) as [(entry & He & Hlt & _ & ->)|(s' & -> & _)]; [|done].
  assert (Opened past1 token entry ∧
    once past1 (λ n e, Admission.sessions (nd_sessions n) !! token = Some entry ∧ e_now e < se_expiresAt entry)) as [Ho Hs].
  { split; [|by apply once_now]. apply (Opened_later (more ++ past) [(n, e)]). by eapply acc_sessions. }
  clearbody past1. apply safe_Lookup. intros more2 n2 e2 past2 HI2.
  destruct (Lookup _ _ _) as [err|g] eqn:Hl.
  - apply safe_onSessions. intros more3 n3 e3 past3 HI3.
    split; [apply fewer_keeps; [done|apply shrinks_Forget]|]. by case_match.
  - left. exists token, entry. split_and!.
    + by apply (Opened_later past1 ((n2, e2) :: more2)).
    + by apply (once_later past1 ((n2, e2) :: more2)).
    + apply once_now. by exists g.
Qed.

Lemma chargeMove_post s now e nodeID (g : QueueStore.Grant) :
  chargeMove (λ k, k = QueueStore.g_Credential g) s (AddMessageWithGrant s now e nodeID g).2.
Proof.
  intros HI. split; [by apply AddMessageWithGrant_inv|].
  pose proof (post_charging (abs s) now e nodeID g (abs_chargesHeld s HI)) as Hc.
  by rewrite abs_AddMessageWithGrant in Hc by done.
Qed.

Lemma post_keeps past n e s' g :
  Accounted past n → passes past (inr g) → chargeMove (λ k, k = ga_Index g) (nd_store n) s' →
  Accounted ((n, e) :: past) (Node.with_store s' n).
Proof.
  intros HI Hg Hmv. pose proof (acc_queue _ _ HI) as Hq. destruct (Hmv Hq) as [Hq' Hch].
  destruct (Quiet_keeps past n e n (aside_Quiet n n ltac:(done)) HI) as [_ Hl Hno Hse Hm]. split; try done.
  intros id Hid. destruct (Hch id Hid) as [[Hid' Heq]|Hk].
  - change (R_chargeOf (abs ?s) id) with (chargeOf s id) in Heq. cbn. rewrite Heq. by apply Hm.
  - change (R_chargeOf (abs s') id) with (chargeOf s' id) in Hk. cbn. rewrite Hk.
    destruct Hg as [Ha|[Hz Hr]]; [left; by apply (Served_later past [(n, e)])|right; split; [done|by left]].
Qed.

Lemma safe_post past r body : safe past (handlePostMessage c r body).
Proof.
  unfold handlePostMessage, gated. eapply Safe_bind; [apply safe_admit|]. intros more [resp|g] Hg; [done|].
  set (past1 := more ++ past) in *. clearbody past1.
  destruct body as [err|envelope]; [by destruct err|].
  case_match; [done|]. intros more2 n e past2 HI. cbn [onStore].
  pose proof (chargeMove_post (nd_store n) (e_now e) envelope (c_NodeID c) (queueGrant g)) as Hmv.
  destruct (AddMessageWithGrant _ _ _ _ _) as [[ack err] s']. cbn [fst snd] in *.
  split; [|by destruct err as [[]|]].
  eapply post_keeps; [done| |exact Hmv]. destruct Hg as [Ha|Hz]; [left; by apply Served_later|by right].
Qed.

(** ** The whole process *)

Lemma spawns_safe startedAt past p : spawns verify c startedAt p → safe past p.
Proof.
  assert (∀ A (q : Prog A), safe past q → safe past (fork q)) as Hfork.
  { intros A q Hq. by eapply Safe_bind. }
  assert (∀ path len (q : Prog Response), safe past q → safe past (limitBodies c path len q)) as Hlimit.
  { intros path len q Hq. unfold limitBodies. by repeat case_match. }
  destruct 1 as [len rq|h len r Hh| |net text|rt file].
  - apply Hfork, Hlimit. pose proof (quiet_mux startedAt rq) as Hq.
    destruct rq; try (by apply quiet_safe); [apply safe_challenge|apply safe_redeem|apply safe_post].
  - unfold MeshHandler in Hh. destruct (negb _); [done|]. injection Hh as <-.
    apply Hfork, Hlimit, quiet_safe, quiet_meshSnapshot.
  - apply quiet_safe, quiet_cleanup.
  - apply quiet_safe, quiet_syncTick.
  - apply quiet_safe, quiet_reload.
Qed.
End relay.

Section process.
Context `{!NetParsers} (verify : list Z → list Z → list Z → bool).

(** The process can get from its boot to a state, with this past. *)
Definition relayRuns (env : Environ) (epoch : string) (c : Config) (past : list Moment) (σ : System) : Prop :=
  ∃ (rt : GoRuntime) file ips startedAt n0,
    boot env file epoch ips = Some (c, n0) ∧ sysRun (spawns verify c startedAt) n0 past σ.

Lemma loadAdmissions_count (rt : GoRuntime) c file adm :
  loadAdmissions c file = Some adm → Admission.Count adm = Z.of_nat (size (credentials adm)).
Proof.
  unfold loadAdmissions. case_match; [by intros [= <-]|]. destruct (ReadFile file) as [cs|]; [|done].
  intros [= <-]. unfold Replace. by destruct (foldl _ _ _) as [[next ix] ni].
Qed.

Lemma boot_accounted (rt : GoRuntime) env file epoch ips c n :
  c_MaxMessages c < 2 ^ 62 → boot env file epoch ips = Some (c, n) → Accounted verify c [] n.
Proof.
  intros Hmax. unfold boot. cbv zeta. case_match; [done|].
  destruct (loadAdmissions _ _) as [adm|] eqn:Ha; [|done]. apply loadAdmissions_count in Ha.
  destruct (_ && _) eqn:Hl; [done|]. intros [= <- <-]. rewrite newNode_eq. split; cbn [nd_store nd_sessions nd_admissions].
  - apply NewStore_inv. exact Hmax.
  - intros Hr Hempty. rewrite Hr, Ha, Hempty in Hl. done.
  - intros ??. cbn. by rewrite lookup_empty.
  - intros ??. cbn. by rewrite lookup_empty.
  - intros id. cbn. rewrite lookup_empty. by intros [? ?].
Qed.

Lemma relay_accounted env epoch c past σ :
  c_MaxMessages c < 2 ^ 62 → relayRuns env epoch c past σ → Accounted verify c past (sy_node σ).
Proof.
  intros Hmax (rt & file & ips & startedAt & n0 & Hb & Hrun).
  eapply sysRun_safe; [by eapply boot_accounted| |exact Hrun]. intros. by eapply spawns_safe.
Qed.

(** C5: Whoever the relay serves has proved itself, over the whole life of the process and
    however requests, ticks, pulls and reloads interleave. Every session was opened for a
    circle whose credential was loaded and unexpired then, and which had signed a nonce
    that this relay drew less than thirty seconds before and that was still outstanding; and
    every message in the queue of an enforcing relay without peers, and every message that
    is charged at all, is charged to the index of a circle that came with such a session while
    the session stood and the credential was loaded. *)
Theorem relay_serves_proved_circles env epoch c past σ :
  c_MaxMessages c < 2 ^ 62 → relayRuns env epoch c past σ →
  let n := sy_node σ in
  (∀ token entry, Admission.sessions (nd_sessions n) !! token = Some entry → Opened verify past token entry) ∧
  (∀ id m, messages (nd_store n) !! id = Some m →
     chargeOf (nd_store n) id ≠ 0 ∨ c_RequireAdmission c = true ∧ c_MeshPeers c = [] →
     Served verify past (chargeOf (nd_store n) id)).
Proof.
  intros Hmax Hrun n. pose proof (relay_accounted _ _ _ _ _ Hmax Hrun) as [_ _ _ Hs Hm]. fold n in Hs, Hm.
  split; [done|]. intros id m Hid Hor. destruct (Hm id) as [Ha|[Hz Hd]]; [by exists m|done|].
  exfalso. unfold openDoor in Hd. naive_solver congruence.
Qed.

(** C15: An enforcing relay never runs without a credential, whatever files it is told to
    reload: from boot on and after every reload it holds at least one. *)
Theorem enforcing_relay_holds_credentials env epoch c past σ :
  c_MaxMessages c < 2 ^ 62 → c_RequireAdmission c = true → relayRuns env epoch c past σ →
  credentials (nd_admissions (sy_node σ)) ≠ ∅.
Proof. intros Hmax Hr Hrun. by apply (acc_loaded _ _ _ _ (relay_accounted _ _ _ _ _ Hmax Hrun)). Qed.
End process.

(** ** An example: a circle proves itself and posts *)

#[local] Existing Instance demoParsers.

Module Sample.
Definition env : Environ := λ key,
  if bool_decide (key = "DEE_NODE_REQUIRE_ADMISSION"%string) then "true"%string else
  if bool_decide (key = "DEE_NODE_ADMISSION_FILE"%string) then "/etc/relay.json"%string else ""%string.
Definition file : CredentialFile := Some [AdmissionProps.Sample.credential].
Definition config : Config := FromEnv env.
Definition node : Node :=
  newNode config "epoch" [] (Replace Admission.NewStore [AdmissionProps.Sample.credential]).
Definition verify := AdmissionProps.Sample.verify.
Definition at_ (t : Duration) (raw : option (list Z)) : Env :=
  mkEnv list_runtime (λ _, AdmissionProps.Sample.T0 + t) raw [].
Definition nonce : string := AdmissionProps.Sample.tokenOf 1.
Definition token : string := AdmissionProps.Sample.tokenOf 2.
Definition proof : string := Base64.RawURLEncodeToString (AdmissionProps.Sample.sign nonce).
Definition envelope : MessageEnvelope :=
  mkMessageEnvelope "m1" "alice" "bob" 0 0 "sealed" "" "" "" ∅ "" "".
Definition http : Http :=
  mkHttp (λ key, if bool_decide (key = admissionHeader) then token else ""%string) (λ _, ""%string).
Definition start (rq : Request) : Event := Start (fork (Handler verify config 0 None rq)).
(** The post starts first and goes on when the session stands. *)
Definition schedule : list Event :=
  [start (PostMessages http (inr envelope)); start PostAdmissionChallenge;
   start (PostAdmissionRedeem (inr (AdmissionProps.Sample.id, nonce, proof)));
   Turn 1 (at_ 0 (AdmissionProps.Sample.raw 1)); Turn 2 (at_ Second None); Turn 2 (at_ Second None);
   Turn 2 (at_ Second (AdmissionProps.Sample.raw 2)); Turn 0 (at_ Minute None); Turn 0 (at_ Minute None);
   Turn 0 (at_ Minute None)].
Definition past : list Moment := (play node schedule).1.
Definition σ : System := (play node schedule).2.
End Sample.

Lemma sample_runs : relayRuns Sample.verify Sample.env "epoch" Sample.config Sample.past Sample.σ.
Proof.
  exists list_runtime, Sample.file, [], 0, Sample.node. split; [vm_compute; reflexivity|].
  apply play_run. repeat (apply Forall_cons; split; [done || apply SpawnRequest|]). by apply Forall_nil.
Defined.

Lemma relay_serves_proved_circles_witness :
  (chargeOf (nd_store (sy_node Sample.σ)) "m1" = 1 ∧ Served Sample.verify Sample.past 1).
Proof.
  assert (chargeOf (nd_store (sy_node Sample.σ)) "m1" = 1) as Hk by by vm_compute.
  split; [exact Hk|]. rewrite <-Hk.
  destruct (messages (nd_store (sy_node Sample.σ)) !! "m1"%string) as [m|] eqn:Hm; [|by vm_compute in Hm].
  apply (relay_serves_proved_circles Sample.verify Sample.env "epoch" Sample.config Sample.past Sample.σ
    ltac:(by vm_compute) sample_runs) with m; [exact Hm|]. left. by rewrite Hk.
Defined.

Lemma enforcing_relay_holds_credentials_witness :
  (c_RequireAdmission Sample.config = true ∧ credentials (nd_admissions (sy_node Sample.σ)) ≠ ∅).
Proof.
  split; [by vm_compute|].
  apply (enforcing_relay_holds_credentials Sample.verify Sample.env "epoch" Sample.config Sample.past Sample.σ);
    [by vm_compute|by vm_compute|exact sample_runs].
Defined.
