(* ===== verification/ProcessProps.v ===== *)
(** * The life of the process: what holds until its exit

    The process is the relay of [RelayProps.v] at every moment of its life ([ProcessHistory.v]
    says which events its past allows), its exit status says why it ended, nothing that clients
    do keeps it from stopping, and a stop waits for the requests of peers but not for those of
    clients. *)

From Stdlib Require Import Strings.String.
From S2P Require Import Prelude GoDuration Model Config ConfigProps Peer QueueStore Admission Node.
From S2P Require Import Server Mesh Boot Process NodeProps RelayProps.

Open Scope Z_scope.

Section process.
Context `{!NetParsers} (verify : list Z → list Z → list Z → bool).

Abbreviation fire := (fire verify).
Abbreviation live := (live verify).

(** ** Lives *)

Lemma live_app evs1 evs2 p : live (evs1 ++ evs2) p = live evs1 p ≫= live evs2.
Proof.
  revert p. induction evs1 as [|ev evs1 IH]; intros p; simpl; [done|].
  by destruct (fire ev p) as [p'|]; [apply IH|].
Qed.

(** What holds at the start and is kept by every event, whatever came before, holds always. *)
Lemma live_ind (P : list Event → Process → Prop) p0 :
  P [] p0 → (∀ evs ev p p', P evs p → fire ev p = Some p' → P (evs ++ [ev]) p') →
  ∀ evs p, live evs p0 = Some p → P evs p.
Proof.
  intros H0 Hstep evs. induction evs as [|ev evs IH] using rev_ind; intros p; [by intros [= <-]|].
  rewrite live_app. destruct (live evs p0) as [p1|] eqn:H1; [|done]. simpl.
  destruct (fire ev p1) as [p'|] eqn:Hf; [|done]. intros [= <-]. eauto.
Qed.

(** *** What the events leave alone *)

Lemma fire_constants ev p p' :
  fire ev p = Some p' →
  pr_config p' = pr_config p ∧ pr_startedAt p' = pr_startedAt p ∧ pr_meshServer p' = pr_meshServer p.
Proof.
  unfold Process.fire, turn, spawn. intros Hf. repeat case_match; simplify_eq; done.
Qed.

Definition systemOf (p : Process) : System := mkSystem (pr_node p) (pr_threads p).*2.

(** An event is a step of the system of goroutines, or does not touch it. *)
Lemma fire_system ev p p' :
  fire ev p = Some p' →
  rtc (sysStep (spawns verify (pr_config p) (pr_startedAt p))) (systemOf p) (systemOf p').
Proof.
  assert (∀ o prog q, systemOf q = systemOf p → spawns verify (pr_config p) (pr_startedAt p) prog →
    rtc (sysStep (spawns verify (pr_config p) (pr_startedAt p))) (systemOf p) (systemOf (spawn o prog q))) as Hsp.
  { intros o prog q <- Hprog. apply rtc_once. unfold systemOf, spawn. cbn. rewrite fmap_app. by apply Spawn. }
  assert (∀ b prog q q', turn b prog q = Some q' → systemOf q = systemOf p →
    spawns verify (pr_config p) (pr_startedAt p) prog →
    rtc (sysStep (spawns verify (pr_config p) (pr_startedAt p))) (systemOf p) (systemOf q')) as Hturn.
  { intros b prog q q'. unfold turn. case_match; [|done]. intros [= <-]. apply Hsp. }
  assert (∀ i e, fire (Proceed i e) p = Some p' →
    rtc (sysStep (spawns verify (pr_config p) (pr_startedAt p))) (systemOf p) (systemOf p')) as Hproceed.
  { intros i e. unfold Process.fire. destruct (bool_decide _); [done|]. destruct (pr_threads p !! i) as [[o [|X f k]]|] eqn:Hi; [done| |done].
    destruct (f e (pr_node p)) as [x n] eqn:Hf. intros [= <-].
    pose proof (Node.Advance (spawns verify (pr_config p) (pr_startedAt p)) (pr_node p)
      (take i (pr_threads p).*2) (drop (S i) (pr_threads p).*2) e X f k) as Hs.
    rewrite take_drop_middle in Hs by (by rewrite list_lookup_fmap, Hi).
    rewrite Hf in Hs. apply rtc_once. unfold systemOf. cbn in *. rewrite list_fmap_insert.
    cbn. rewrite insert_take_drop; [exact Hs|]. rewrite length_fmap. by eapply lookup_lt_Some. }
  destruct ev; try apply Hproceed; unfold Process.fire; intros Hf;
    repeat case_match; simplify_eq; try reflexivity;
    try (eapply Hturn; [exact Hf|done|first [apply SpawnCleanup|apply SpawnSync|apply SpawnReload]]);
    (apply Hsp; [done|first [apply SpawnRequest|by apply SpawnMesh]]).
Qed.

Lemma live_system p0 evs p :
  live evs p0 = Some p →
  (pr_config p = pr_config p0 ∧ pr_startedAt p = pr_startedAt p0 ∧ pr_meshServer p = pr_meshServer p0) ∧
  rtc (sysStep (spawns verify (pr_config p0) (pr_startedAt p0))) (systemOf p0) (systemOf p).
Proof.
  apply (live_ind (λ _ p, (pr_config p = pr_config p0 ∧ pr_startedAt p = pr_startedAt p0 ∧
    pr_meshServer p = pr_meshServer p0) ∧ rtc _ (systemOf p0) (systemOf p))); [done|].
  intros _ ev q p' [(Hc & Hs & Hm) IH] Hf. destruct (fire_constants _ _ _ Hf) as (-> & -> & ->).
  split; [done|]. etrans; [exact IH|]. rewrite <-Hc, <-Hs. by eapply fire_system.
Qed.

(** A process as [main] starts it. *)
Definition started (env : Environ) (epoch : string) (p0 : Process) : Prop :=
  ∃ (rt : GoRuntime) file raw now ips, start env file raw now ips = inr p0 ∧ epoch = newEpoch raw now.

Lemma started_inv env epoch p0 :
  started env epoch p0 →
  ∃ (rt : GoRuntime) file ips, boot env file epoch ips = Some (pr_config p0, pr_node p0) ∧
    p0 = mkProcess (pr_config p0) (pr_startedAt p0) (pr_node p0) [] (pr_now p0) false
           (if is_empty (c_AdmissionFile (pr_config p0)) then None else Some false)
           (loopsOf (pr_config p0)) (hasMeshServer (pr_config p0))
           (Public :: if hasMeshServer (pr_config p0) then [Private] else []) Waiting None.
Proof.
  intros (rt & file & raw & now & ips & Hst & ->). exists rt, file, ips. unfold start in Hst.
  destruct (boot _ _ _ _) as [[c node]|] eqn:Hb; [|done]. injection Hst as <-. done.
Qed.

(** Its stores and its goroutines are those of a run of the relay from its boot. *)
Lemma live_reaches env epoch p0 evs p :
  started env epoch p0 → live evs p0 = Some p →
  relayReaches verify env epoch (pr_config p0) (systemOf p).
Proof.
  intros (rt & file & ips & Hb & Hp0)%started_inv [_ Hrun]%live_system.
  exists rt, file, ips, (pr_startedAt p0), (pr_node p0). split; [done|].
  by rewrite Hp0 in Hrun at 3.
Qed.

(** ** Why the process ends *)

(** What the phase of the shutdown says of the past. *)
Definition asked (evs : list Event) (deadline now : Time) : Prop :=
  ∃ before after, evs = before ++ BeginShutdown :: after ∧ StopSignal ∈ before ∧
    now = deadline - shutdownTimeout + elapsed after.

(** The requests of peers have been answered, or the patience for them is over. *)
Definition drained (evs : list Event) (p : Process) : Prop :=
  ∃ before after, evs = before ++ BeginShutdown :: after ∧ StopSignal ∈ before ∧
    (idle (OfRequest Private) p = true ∨ shutdownTimeout ≤ elapsed after).

Record Ending (evs : list Event) (p : Process) : Prop := {
  end_stop : pr_stopping p = true → StopSignal ∈ evs;
  end_phase :
    match pr_phase p with
    | Waiting => (Public ∈ pr_open p)
    | ClosingMesh d => (Public ∈ pr_open p) ∧ (Private ∉ pr_open p) ∧ pr_meshServer p = true ∧
        asked evs d (pr_now p)
    | ClosingPublic d => (Public ∉ pr_open p) ∧ (Private ∉ pr_open p) ∧ asked evs d (pr_now p) ∧ drained evs p
    | Closed => (Public ∉ pr_open p) ∧ (Private ∉ pr_open p) ∧ drained evs p
    end;
  end_mesh : pr_meshServer p = false → (Private ∉ pr_open p) ∧ idle (OfRequest Private) p = true;
  end_hangup : pr_hangup p = None → c_AdmissionFile (pr_config p) = ""%string ∨ StopSignal ∈ evs;
  end_exit :
    match pr_exit p with
    | None => True
    | Some (Status code) =>
        code = 0 ∧ pr_phase p ≠ Waiting ∧ (∀ d, pr_phase p ≠ ClosingMesh d) ∨
        code = 1 ∧ ∃ l, last evs = Some (ListenerFails l)
    | Some KilledByHangup =>
        last evs = Some HangupSignal ∧ (c_AdmissionFile (pr_config p) = ""%string ∨ StopSignal ∈ evs)
    end;
}.

Lemma elapsed_app evs1 evs2 : elapsed (evs1 ++ evs2) = elapsed evs1 + elapsed evs2.
Proof. unfold elapsed. by rewrite zsum_app. Qed.

Lemma asked_later evs ev d now : asked evs d now → asked (evs ++ [ev]) d (now + elapsed [ev]).
Proof.
  intros (before & after & -> & Hstop & ->). exists before, (after ++ [ev]).
  rewrite <-app_assoc, elapsed_app. split_and!; [done..|lia].
Qed.

Lemma drained_later evs ev p p' :
  (idle (OfRequest Private) p = true → idle (OfRequest Private) p' = true) → 0 ≤ elapsed [ev] →
  drained evs p → drained (evs ++ [ev]) p'.
Proof.
  intros Hidle Hd (before & after & -> & Hstop & Hor). exists before, (after ++ [ev]).
  rewrite <-app_assoc, elapsed_app. split_and!; [done..|]. destruct Hor; [auto|right; lia].
Qed.

Lemma asked_stop evs d now : asked evs d now → StopSignal ∈ evs.
Proof. intros (before & after & -> & Hstop & _). apply elem_of_app. by left. Qed.

Lemma idle_spec o p : idle o p = true ↔ ∀ prog, (o, prog) ∈ pr_threads p → finished prog = true.
Proof.
  unfold idle. rewrite forallb_forall. setoid_rewrite <-list_elem_of_In. split.
  - intros Hall prog Hin. specialize (Hall _ Hin). cbn in Hall. by rewrite bool_decide_eq_true_2 in Hall.
  - intros Hall [o' prog] Hin. cbn. case_bool_decide; [subst|done]. cbn. by apply Hall.
Qed.

(** Nothing new is in flight on a listener that is closed. *)
Lemma idle_spawn o o' prog p : o ≠ o' → idle o p = true → idle o (spawn o' prog p) = true.
Proof. rewrite !idle_spec. unfold spawn. cbn. set_solver. Qed.

Lemma fire_idle l ev p p' :
  fire ev p = Some p' → l ∉ pr_open p → idle (OfRequest l) p = true → idle (OfRequest l) p' = true.
Proof.
  intros Hf Hl Hi. assert (accepts l p = false) as Ha by (by apply bool_decide_eq_false_2).
  unfold Process.fire, turn in Hf. destruct ev; repeat case_match; simplify_eq; try exact Hi;
    try (apply idle_spawn; [by destruct l; congruence|exact Hi]).
  rewrite idle_spec in *. cbn. intros prog [j Hj]%list_elem_of_lookup_1.
  apply list_lookup_insert_Some in Hj as [(_ & [= -> _] & _)|[_ Hj]];
    [|by apply list_elem_of_lookup_2, Hi in Hj].
  match goal with H : pr_threads p !! i = _ |- _ => apply list_elem_of_lookup_2, Hi in H; done end.
Qed.

Lemma elapsed_nonneg ev p p' : fire ev p = Some p' → 0 ≤ elapsed [ev].
Proof.
  unfold Process.fire, elapsed, zsum. intros Hf. destruct ev; cbn; try lia.
  repeat case_match; simplify_eq; reflect_bools; lia.
Qed.

Lemma fire_now ev p p' : fire ev p = Some p' → pr_now p' = pr_now p + elapsed [ev].
Proof.
  unfold Process.fire, turn, elapsed, zsum, Add. intros Hf.
  destruct ev; repeat case_match; simplify_eq; cbn; lia.
Qed.

(** An event that leaves the phase and the listeners alone. *)
Lemma ending_quiet evs ev p p' :
  Ending evs p → fire ev p = Some p' → pr_phase p' = pr_phase p → pr_open p' = pr_open p →
  (pr_stopping p' = true → pr_stopping p = true ∨ ev = StopSignal) →
  (pr_hangup p' = None → pr_hangup p = None ∨ pr_stopping p = true) →
  match pr_exit p' with
  | None => True
  | Some (Status code) =>
      code = 0 ∧ Public ∉ pr_open p ∨ code = 1 ∧ ∃ l, ev = ListenerFails l
  | Some KilledByHangup => ev = HangupSignal ∧ pr_hangup p = None
  end → Ending (evs ++ [ev]) p'.
Proof.
  intros [Hstop Hphase Hmesh Hhang Hexit] Hf Ep Eo Hs Hh Hx.
  destruct (fire_constants _ _ _ Hf) as (Ec & _ & Em).
  pose proof (fire_now _ _ _ Hf) as En. pose proof (elapsed_nonneg _ _ _ Hf) as Hd.
  pose proof (λ Hl, fire_idle Private _ _ _ Hf Hl) as Hidle. split; rewrite ?Ep, ?Eo, ?Em, ?Ec, ?En.
  - intros [?| ->]%Hs; apply elem_of_app; [left; auto|right; by left].
  - destruct (pr_phase p); [done|..]; destruct Hphase as (? & Hl & Hrest); specialize (Hidle Hl);
      (split; [done|]); (split; [done|]).
    + destruct Hrest. split; [done|by apply asked_later].
    + destruct Hrest. split; [by apply asked_later|by eapply drained_later].
    + by eapply drained_later.
  - intros [? ?]%Hmesh. auto.
  - intros [[?|?]%Hhang|?%Hstop]%Hh; [by left|right..]; apply elem_of_app; left; assumption.
  - clear Hs Hh Hidle. destruct (pr_exit p') as [[code|]|]; [| |done].
    + destruct Hx as [[-> Ho]|[-> [l ->]]]; [left|right].
      * split; [done|]. destruct (pr_phase p); naive_solver.
      * split; [done|]. exists l. by rewrite last_snoc.
    + destruct Hx as [-> Hn]. rewrite last_snoc. split; [done|].
      destruct (Hhang Hn); [by left|right; apply elem_of_app; by left].
Qed.

(** An event of the goroutine that shuts down, given what its new phase says of the past. *)
Lemma ending_shutdown evs ev p p' f l :
  Ending evs p → fire ev p = Some p' → p' = with_phase f l p → pr_exit p = None →
  (Private ∉ pr_open p → Private ∉ l) →
  match f with
  | Waiting => False
  | ClosingMesh d => (Public ∈ l) ∧ (Private ∉ l) ∧ pr_meshServer p = true ∧ asked (evs ++ [ev]) d (pr_now p)
  | ClosingPublic d =>
      (Public ∉ l) ∧ (Private ∉ l) ∧ asked (evs ++ [ev]) d (pr_now p) ∧ drained (evs ++ [ev]) p
  | Closed => (Public ∉ l) ∧ (Private ∉ l) ∧ drained (evs ++ [ev]) p
  end → Ending (evs ++ [ev]) p'.
Proof.
  intros [Hstop _ Hmesh Hhang _] Hf -> Hrun Hl Hphase. split; cbn; [| | | |by rewrite Hrun].
  - intros ?%Hstop. apply elem_of_app. by left.
  - by destruct f.
  - intros [? ?]%Hmesh. split; [auto|done].
  - intros [?|?]%Hhang; [by left|right]. apply elem_of_app. by left.
Qed.

Lemma stopAccepting_spec l l' p : l' ∈ stopAccepting l p ↔ l' ≠ l ∧ l' ∈ pr_open p.
Proof. unfold stopAccepting. by rewrite list_elem_of_filter. Qed.

Lemma begin_asked evs p :
  StopSignal ∈ evs → asked (evs ++ [BeginShutdown]) (Add (pr_now p) shutdownTimeout) (pr_now p).
Proof.
  intros Hs. exists evs, []. split_and!; [done..|]. unfold Add, elapsed, zsum. cbn. lia.
Qed.

Lemma ending_step evs ev p p' : Ending evs p → fire ev p = Some p' → Ending (evs ++ [ev]) p'.
Proof.
  intros HE Hf. pose proof (ending_quiet evs ev p p' HE Hf) as Hq.
  pose proof (λ f l, ending_shutdown evs ev p p' f l HE Hf) as Hsh. destruct HE as [Hstop Hphase Hmesh _ _].
  unfold Process.fire, turn in Hf. destruct (bool_decide (is_Some (pr_exit p))) eqn:Hx; [done|].
  assert (pr_exit p = None) as Hrun by (destruct (pr_exit p); [by apply bool_decide_eq_false in Hx; destruct Hx|done]).
  (* Where nothing but the stores, the requests or the clock changes. *)
  assert (pr_phase p' = pr_phase p → pr_open p' = pr_open p → pr_stopping p' = pr_stopping p →
    (pr_hangup p' = None → pr_hangup p = None) → pr_exit p' = None → Ending (evs ++ [ev]) p') as Heasy.
  { intros E1 E2 E3 E4 E5. apply Hq; [done|done|rewrite E3; auto|auto|by rewrite E5]. }
  destruct ev;
    try (solve [clear Hq Hsh Hphase; repeat case_match; simplify_eq; (apply Heasy; [done|done|done|by cbn; congruence|done])]).
  - injection Hf as <-. apply Hq; cbn; [done|done|by right|by left|by rewrite Hrun].
  - destruct (pr_hangup p) as [b|] eqn:Hh; injection Hf as <-; [by apply Heasy|].
    apply Hq; cbn; [done|done|by left|by left|done].
  - destruct (pr_stopping p) eqn:Hs; [|done]. destruct (_ && _); [|done]. injection Hf as <-.
    apply Hq; case_bool_decide; cbn; rewrite ?Hrun, ?Hs; auto.
  - unfold accepts in Hf. case_bool_decide; [|done]. injection Hf as <-.
    apply Hq; cbn; [done|done|by left|by left|]. right. eauto.
  - destruct (pr_phase p); [|done..]. destruct (pr_stopping p) eqn:Hs; [|done]. cbn in Hf.
    destruct (pr_meshServer p) eqn:Hm; injection Hf as <-; eapply Hsh; [reflexivity|done| |cbn|reflexivity|done| |cbn];
      rewrite !stopAccepting_spec; try tauto.
    + split_and!; [done|done|tauto|done|apply begin_asked; auto].
    + destruct (Hmesh eq_refl). split_and!; [tauto|tauto|apply begin_asked; auto|].
      exists evs, []. split_and!; [done|auto|by left].
  - destruct (pr_phase p) as [|d| |]; [done| |done..]. destruct (_ || _) eqn:Hd; [|done]. injection Hf as <-.
    destruct Hphase as (? & ? & _ & Hask). eapply Hsh; [reflexivity|done| |cbn]; rewrite !stopAccepting_spec; [tauto|].
    pose proof (asked_later _ MeshShutdownReturns _ _ Hask) as Hask'. cbn in Hask'.
    rewrite Z.add_0_r in Hask'. split_and!; [tauto|tauto|done|].
    destruct Hask as (before & after & -> & Hb & Hnow). exists before, (after ++ [MeshShutdownReturns]).
    rewrite <-app_assoc, elapsed_app. split_and!; [done..|]. apply orb_true_iff in Hd as [Hd|Hd]; [by left|right].
    apply Z.leb_le in Hd. unfold elapsed at 2, zsum. cbn. lia.
  - destruct (pr_phase p) as [| |d|]; [done|done| |done]. destruct (_ || _); [|done]. injection Hf as <-.
    destruct Hphase as (? & ? & ? & Hdr). eapply Hsh; [reflexivity|done|done|]. split_and!; [done..|].
    eapply drained_later; [done| |exact Hdr]. unfold elapsed, zsum. cbn. lia.
  - unfold accepts in Hf. case_bool_decide; [done|]. injection Hf as <-.
    apply Hq; cbn; [done|done|by left|by left|]. by left.
Qed.

Lemma live_ending env epoch p0 evs p :
  started env epoch p0 → live evs p0 = Some p → Ending evs p.
Proof.
  intros (rt & file & ips & _ & Hp0)%started_inv. revert evs p. apply live_ind; [|eauto using ending_step].
  rewrite Hp0. split; cbn; [done|by left| |by case_match eqn:He; intros; [reflect_bools; by left|]|done].
  intros ->. split; [by intros [?|?%elem_of_nil]%elem_of_cons|done].
Qed.

(** C16: The exit status says why the process ended. A process that got to run exits with 1 only
    where a listener failed, is killed by a SIGHUP only where it has no credential file to read
    again or is stopping already, and exits with 0 only after it was told to stop and has
    closed its listeners; by then every request of a peer has been answered, or five seconds
    have passed since the shutdown began. It has no other exit. *)
Theorem exit_says_why env epoch p0 evs p x :
  started env epoch p0 → live evs p0 = Some p → pr_exit p = Some x →
  match x with
  | Status 0 =>
      ∃ before after, evs = before ++ BeginShutdown :: after ∧ StopSignal ∈ before ∧
        pr_open p = [] ∧ (idle (OfRequest Private) p = true ∨ 5 * Second ≤ elapsed after)
  | Status 1 => ∃ l, last evs = Some (ListenerFails l)
  | Status _ => False
  | KilledByHangup => last evs = Some HangupSignal ∧
      (c_AdmissionFile (pr_config p0) = ""%string ∨ StopSignal ∈ evs)
  end.
Proof.
  intros Hst Hl Hx. pose proof (live_system _ _ _ Hl) as [(Hc & _) _].
  destruct (live_ending _ _ _ _ _ Hst Hl) as [_ Hphase _ _ Hexit]. rewrite Hx, ?Hc in Hexit.
  destruct x as [code|]; [|done]. destruct Hexit as [(-> & Hw & Hm)|[-> Hf]]; [|done].
  assert (drained evs p ∧ (Public ∉ pr_open p) ∧ (Private ∉ pr_open p)) as ((before & after & -> & Hs & Hor) & Hp & Hq).
  { destruct (pr_phase p); naive_solver. }
  exists before, after. split_and!; [done..| |done].
  destruct (pr_open p) as [|[|] l]; [done|set_solver..].
Qed.

(** ** Stopping *)

Lemma live_elapsed evs p p' : live evs p = Some p' → 0 ≤ elapsed evs.
Proof.
  revert p. induction evs as [|ev evs IH]; intros p; [done|]. cbn [Process.live].
  destruct (fire ev p) as [p1|] eqn:Hf; [|done]. intros Hl%IH. apply elapsed_nonneg in Hf.
  change (ev :: evs) with ([ev] ++ evs). rewrite elapsed_app. lia.
Qed.

(** Steps of the goroutines that stop the process, and time. *)
Definition stopping (ev : Event) : Prop :=
  match ev with
  | StopSignal | Elapse _ | BeginShutdown | MeshShutdownReturns | MainReturns => True
  | _ => False
  end.

Definition stops (within : Duration) (p : Process) : Prop :=
  ∃ evs p', live evs p = Some p' ∧ pr_exit p' = Some (Status 0) ∧ Forall stopping evs ∧
    elapsed evs ≤ within ∧ pr_threads p' = pr_threads p.

(** The four steps, where they can be taken. *)
Lemma fire_stop p : pr_exit p = None → fire StopSignal p = Some (with_stopping true p).
Proof. intros Hx. unfold Process.fire. by rewrite Hx. Qed.

Lemma fire_elapse d p : pr_exit p = None → 0 ≤ d → fire (Elapse d) p = Some (with_now (Add (pr_now p) d) p).
Proof. intros Hx Hd%Z.leb_le. unfold Process.fire. by rewrite Hx, Hd. Qed.

Lemma fire_begin p :
  pr_exit p = None → pr_phase p = Waiting → pr_stopping p = true →
  fire BeginShutdown p = Some (let deadline := Add (pr_now p) shutdownTimeout in
    if pr_meshServer p then with_phase (ClosingMesh deadline) (stopAccepting Private p) p
    else with_phase (ClosingPublic deadline) (stopAccepting Public p) p).
Proof. intros Hx Hp Hs. unfold Process.fire. by rewrite Hx, Hp, Hs. Qed.

Lemma fire_mesh_returns p d :
  pr_exit p = None → pr_phase p = ClosingMesh d → d ≤ pr_now p →
  fire MeshShutdownReturns p = Some (with_phase (ClosingPublic d) (stopAccepting Public p) p).
Proof. intros Hx Hp Hd%Z.leb_le. unfold Process.fire. by rewrite Hx, Hp, Hd, orb_true_r. Qed.

Lemma fire_main_returns p :
  pr_exit p = None → Public ∉ pr_open p → fire MainReturns p = Some (with_exit (Status 0) p).
Proof.
  intros Hx Hp. unfold Process.fire, accepts. rewrite Hx.
  by rewrite (bool_decide_eq_false_2 (Public ∈ pr_open p)) by done.
Qed.

Lemma stops_now p : pr_exit p = None → Public ∉ pr_open p → stops 0 p.
Proof.
  intros Hx Hp. exists [MainReturns], (with_exit (Status 0) p). cbn [Process.live].
  rewrite fire_main_returns by done. split_and!; [done|done|by repeat constructor|done|done].
Qed.

Lemma stops_after ev p p' t :
  fire ev p = Some p' → stopping ev → pr_threads p' = pr_threads p → stops t p' → stops (elapsed [ev] + t) p.
Proof.
  intros Hf Hev Ht (evs & q & Hl & Hx & Hall & Hd & Hq). exists (ev :: evs), q. cbn [Process.live]. rewrite Hf.
  change (ev :: evs) with ([ev] ++ evs) at 2. rewrite elapsed_app.
  split_and!; [done|done|by constructor|lia|congruence].
Qed.

(** The rest of a shutdown whose deadline is [d]. *)
Lemma stops_mesh p d :
  pr_exit p = None → pr_phase p = ClosingMesh d → stops (Z.max 0 (d - pr_now p)) p.
Proof.
  intros Hx Hp. set (t := Z.max 0 (d - pr_now p)). set (p1 := with_now (Add (pr_now p) t) p).
  replace t with (elapsed [Elapse t] + (elapsed [MeshShutdownReturns] + 0)) by (unfold elapsed, zsum; cbn; lia).
  apply (stops_after _ _ p1); [apply fire_elapse; [done|lia]|done|done|].
  eapply stops_after; [apply (fire_mesh_returns p1 d); [done|done|]|done|done|].
  - cbn. unfold Add. lia.
  - apply stops_now; [done|]. cbn. rewrite stopAccepting_spec. tauto.
Qed.

Lemma asked_near evs d now : (∃ p p', live evs p = Some p') → asked evs d now → d - now ≤ shutdownTimeout.
Proof.
  intros (p & p' & Hl) (before & after & -> & _ & ->). rewrite live_app in Hl.
  destruct (live before p) as [q|]; [|done]. cbn [mbind option_bind Process.live] in Hl.
  destruct (fire BeginShutdown q) as [q'|]; [|done]. apply live_elapsed in Hl. lia.
Qed.

(** C17: A stop needs nobody's help and waits for no client. From every moment of its life the
    process can be stopped within five seconds, by its own goroutines alone: no request, peer
    or turn of a loop has to end first. Without a mesh listener it is gone at once, and the
    requests of clients in flight are then where the signal found them, unanswered. *)
Theorem stop_waits_for_no_client env epoch p0 evs p :
  started env epoch p0 → live evs p0 = Some p → pr_exit p = None →
  stops (if pr_meshServer p then 5 * Second else 0) p.
Proof.
  intros Hst Hl Hx. pose proof (live_ending _ _ _ _ _ Hst Hl) as [_ Hphase Hmesh _ _].
  assert (∀ t t' q, stops t q → t ≤ t' → stops t' q) as Hmono.
  { intros t t' q (evs' & q' & ? & ? & ? & ? & ?) Hle. exists evs', q'. split_and!; [done..|lia|done]. }
  assert (0 ≤ if pr_meshServer p then 5 * Second else 0) as Hpos by (by destruct (pr_meshServer p)).
  destruct (pr_phase p) as [|d|d|] eqn:Hp.
  - apply (Hmono (elapsed [StopSignal] + (elapsed [BeginShutdown] + if pr_meshServer p then 5 * Second else 0)));
      [|unfold elapsed, zsum; cbn; lia].
    eapply stops_after; [by apply fire_stop|done|done|].
    eapply stops_after; [by apply fire_begin|done|by cbn; destruct (pr_meshServer p)|].
    cbn. destruct (pr_meshServer p).
    + eapply Hmono; [by apply stops_mesh|]. cbn. unfold Add, shutdownTimeout. lia.
    + apply stops_now; [done|]. cbn. rewrite stopAccepting_spec. cbn. tauto.
  - destruct Hphase as (_ & _ & Hm & Hask). rewrite Hm in *.
    eapply Hmono; [by apply stops_mesh|]. apply asked_near in Hask; [|by eauto].
    unfold shutdownTimeout in Hask. lia.
  - eapply Hmono; [apply stops_now; tauto|done].
  - eapply Hmono; [apply stops_now; tauto|done].
Qed.

End process.

(** ** An example: a relay that is stopped while a post is in flight *)

#[local] Existing Instance demoParsers.

Module Sample.
Definition p0 : Exit + Process :=
  start (H0 := list_runtime) RelayProps.Sample.env0 None (Some [1; 2; 3; 4; 5; 6; 7; 8]) RelayProps.Sample.T0 [].
Definition process : Process :=
  match p0 with
  | inr p => p
  | inl _ => mkProcess RelayProps.Sample.c0 0 RelayProps.Sample.n0 [] 0 false None [] false [] Waiting None
  end.
Definition served : list Event :=
  [Arrive (Some 300) RelayProps.Sample.post; Elapse Second; Proceed 0 RelayProps.Sample.e0].
Definition cut : list Event :=
  [Arrive (Some 300) RelayProps.Sample.post; StopSignal; BeginShutdown; MainReturns].
Definition after (evs : list Event) : Process := default process (live RelayProps.Sample.verify0 evs process).

Lemma live_after evs :
  match live RelayProps.Sample.verify0 evs process with Some _ => true | None => false end = true →
  live RelayProps.Sample.verify0 evs process = Some (after evs).
Proof. unfold after. by destruct (live _ _ _). Qed.
End Sample.

Lemma sample_started : started RelayProps.Sample.env0 "0102030405060708" Sample.process.
Proof.
  exists list_runtime, None, (Some [1; 2; 3; 4; 5; 6; 7; 8]), RelayProps.Sample.T0, [].
  split; [reflexivity|by vm_compute].
Defined.

(** The signal comes while a post is in flight, and the process exits at once: the message is not
    stored and the client has no answer, although the shutdown would have waited five seconds. *)
Example stop_cuts_post :
  pr_exit (Sample.after Sample.cut) = Some (Status 0) ∧
  idle (OfRequest Public) (Sample.after Sample.cut) = false ∧
  map_len (messages (nd_store (pr_node (Sample.after Sample.cut)))) = 0 ∧ elapsed Sample.cut = 0.
Proof. split_and!; by vm_compute. Qed.

Lemma exit_says_why_witness :
  ∃ before after, Sample.cut = before ++ BeginShutdown :: after ∧ StopSignal ∈ before.
Proof.
  destruct (exit_says_why RelayProps.Sample.verify0 RelayProps.Sample.env0 _ Sample.process Sample.cut
    (Sample.after Sample.cut) (Status 0) sample_started) as (before & after & Hb & Hs & _).
  - apply Sample.live_after. by vm_compute.
  - by vm_compute.
  - exists before, after. split; [exact Hb|exact Hs].
Defined.

Lemma stop_waits_for_no_client_witness :
  pr_exit (Sample.after Sample.served) = None ∧ stops RelayProps.Sample.verify0 0 (Sample.after Sample.served).
Proof.
  split; [by vm_compute|].
  pose proof (stop_waits_for_no_client RelayProps.Sample.verify0 RelayProps.Sample.env0 _ Sample.process
    Sample.served (Sample.after Sample.served) sample_started) as Hx.
  assert (pr_meshServer (Sample.after Sample.served) = false) as Hm by by vm_compute.
  rewrite Hm in Hx. apply Hx; [apply Sample.live_after; by vm_compute|by vm_compute].
Defined.
