(* ===== verification/ProcessHistory.v ===== *)
(** * The life of the process: what may happen when, and what came of it

    The history of a process says what can happen next: a request arrives only at a listener
    that is still open, a reload answers a SIGHUP, a loop has one turn at a time and none after
    its end, the shutdown takes its steps in order. And the goroutines of the process are those
    that its events started, each at some point of its program. *)

From Stdlib Require Import Strings.String.
From S2P Require Import Prelude GoDuration Model Config ConfigProps Peer QueueStore Admission Node.
From S2P Require Import Server Mesh Boot Process NodeProps RelayProps ProcessProps.

Open Scope Z_scope.

(** ** What the past allows *)

(** A listener accepts requests until the shutdown reaches it: the one of the peers first,
    and the public one when the first is closed, or at once where there is no other. *)
Definition opened (c : Config) (evs : list Event) (l : Listener) : Prop :=
  match l with
  | Private => hasMeshServer c = true ∧ (BeginShutdown ∉ evs)
  | Public => if hasMeshServer c then (MeshShutdownReturns ∉ evs) else (BeginShutdown ∉ evs)
  end.

(** A loop that the configuration asks for, and that has not ended. *)
Definition looping (c : Config) (evs : list Event) (b : Background) : Prop :=
  b ∈ loopsOf c ∧ (LoopEnds b ∉ evs).

(** A SIGHUP that no reload has answered. *)
Definition hungUp (evs : list Event) : Prop :=
  ∃ before after, evs = before ++ HangupSignal :: after ∧ ∀ rt file, (Reload rt file ∉ after).

(** SIGHUP is asked for: where there is a credential file, until the loop of reloads ends. *)
Definition asksHangup (c : Config) (evs : list Event) : Prop :=
  c_AdmissionFile c ≠ ""%string ∧ (LoopEnds HangupLoop ∉ evs).

(** No exit is among these: no listener failed, [main] did not return, and no SIGHUP came that
    was not asked for. *)
Definition survived (c : Config) (evs : list Event) : Prop :=
  (∀ l, (ListenerFails l ∉ evs)) ∧ (MainReturns ∉ evs) ∧
  ∀ before after, evs = before ++ HangupSignal :: after → asksHangup c before.

(** Whether an event can come after these. *)
Definition allowed (c : Config) (evs : list Event) (ev : Event) : Prop :=
  survived c evs ∧
  match ev with
  | StopSignal | HangupSignal | Proceed _ _ => True
  | Elapse d => 0 ≤ d
  | Arrive _ _ => opened c evs Public
  | ArriveMesh _ _ => opened c evs Private
  | Reload _ _ => asksHangup c evs ∧ hungUp evs ∧ looping c evs HangupLoop
  | CleanupTick => looping c evs CleanupLoop
  | SyncTick _ _ => looping c evs SyncLoop
  | LoopEnds b => looping c evs b ∧ StopSignal ∈ evs
  | ListenerFails l => opened c evs l
  | BeginShutdown => StopSignal ∈ evs ∧ (BeginShutdown ∉ evs)
  | MeshShutdownReturns => hasMeshServer c = true ∧ BeginShutdown ∈ evs ∧ (MeshShutdownReturns ∉ evs)
  | PublicShutdownReturns => ¬ opened c evs Public ∧ (PublicShutdownReturns ∉ evs)
  | MainReturns => ¬ opened c evs Public
  end.

(** ** What comes of it *)

(** A program makes its next call, on a store that others may have changed meanwhile. *)
Inductive progStep : Prog () → Prog () → Prop :=
  | ProgStep X (f : Env → Node → X * Node) k e n : progStep (Call f k) (k (f e n).1).

Section process.
Context `{!NetParsers} (verify : list Z → list Z → list Z → bool).

Abbreviation fire := (fire verify).
Abbreviation live := (live verify).

(** The goroutine an event starts. *)
Definition spawned (c : Config) (startedAt : Time) (ev : Event) : option (Origin * Prog ()) :=
  match ev with
  | Arrive contentLength rq => Some (OfRequest Public, fork (Handler verify c startedAt contentLength rq))
  | ArriveMesh contentLength r =>
      (λ handler, (OfRequest Private, fork (handler contentLength r))) <$> MeshHandler c
  | Reload rt file => Some (OfLoop HangupLoop, reload (H := rt) c file)
  | CleanupTick => Some (OfLoop CleanupLoop, cleanupTick)
  | SyncTick net text => Some (OfLoop SyncLoop, syncTick c net text)
  | _ => None
  end.

(** The goroutines are those the events started, in their order, each somewhere in its program. *)
Definition goroutines (c : Config) (startedAt : Time) (evs : list Event) (ts : list (Origin * Prog ())) : Prop :=
  Forall2 (λ t0 t, t.1 = t0.1 ∧ rtc progStep t0.2 t.2) (omap (spawned c startedAt) evs) ts.

(** A loop has at most one turn that is not over. *)
Definition oneTurn (ts : list (Origin * Prog ())) : Prop :=
  ∀ b i j p q, ts !! i = Some (OfLoop b, p) → ts !! j = Some (OfLoop b, q) →
  finished p = false → finished q = false → i = j.

(** *** The state, in terms of the past *)

Record History (c : Config) (startedAt : Time) (evs : list Event) (p : Process) : Prop := {
  hi_config : pr_config p = c ∧ pr_startedAt p = startedAt ∧ pr_meshServer p = hasMeshServer c;
  hi_exit : pr_exit p = None → survived c evs;
  hi_open l : l ∈ pr_open p ↔ opened c evs l;
  hi_loops b : b ∈ pr_loops p ↔ looping c evs b;
  hi_stop : pr_stopping p = true → StopSignal ∈ evs;
  hi_hangup : match pr_hangup p with
              | None => True
              | Some pending => asksHangup c evs ∧ (pending = true → hungUp evs)
              end;
  hi_phase : match pr_phase p with
             | Waiting => (BeginShutdown ∉ evs) ∧ (MeshShutdownReturns ∉ evs) ∧ (PublicShutdownReturns ∉ evs)
             | ClosingMesh _ => hasMeshServer c = true ∧ BeginShutdown ∈ evs ∧
                                (MeshShutdownReturns ∉ evs) ∧ (PublicShutdownReturns ∉ evs)
             | ClosingPublic _ => BeginShutdown ∈ evs ∧ (¬ opened c evs Public) ∧ (PublicShutdownReturns ∉ evs)
             | Closed => BeginShutdown ∈ evs ∧ ¬ opened c evs Public
             end;
  hi_threads : goroutines c startedAt evs (pr_threads p);
  hi_turns : oneTurn (pr_threads p);
}.

Lemma not_in_snoc (ev ev' : Event) evs : (ev ∉ evs ++ [ev']) ↔ (ev ∉ evs) ∧ ev ≠ ev'.
Proof. rewrite not_elem_of_app, not_elem_of_cons. set_solver. Qed.

Lemma in_snoc (ev ev' : Event) evs : ev ∈ evs ++ [ev'] ↔ ev ∈ evs ∨ ev = ev'.
Proof. by rewrite elem_of_app, list_elem_of_singleton. Qed.

Section step.
Context (c : Config) (startedAt : Time) (evs : list Event) (ev : Event) (p p' : Process).
Context (HH : History c startedAt evs p) (Hf : fire ev p = Some p').

Lemma fire_running : pr_exit p = None.
Proof.
  unfold Process.fire in Hf. case_bool_decide as Hx; [done|].
  destruct (pr_exit p); [|done]. destruct Hx. by eexists.
Qed.

(** What fires is what the past allows. *)
Lemma fire_allowed : allowed c evs ev.
Proof.
  pose proof fire_running as Hx. destruct HH as [(Hc & _ & Hm) He Ho Hl Hs Hh Hp _ _].
  split; [by apply He|].
  unfold Process.fire, turn, runs, accepts in Hf. rewrite Hx in Hf. cbn in Hf. unfold asksHangup in *.
  destruct ev; try done; repeat case_match; simplify_eq; reflect_bools;
    rewrite <-?Ho, <-?Hl; repeat split; try tauto; try lia; auto; rewrite Ho; tauto.
Qed.

Lemma history_exit : pr_exit p' = None → survived c (evs ++ [ev]).
Proof.
  intros Hx'. pose proof fire_running as Hx. destruct HH as [_ He _ _ _ Hh _ _ _].
  destruct (He Hx) as (Hfail & Hmain & Hhup). pose proof Hf as Hf'. unfold Process.fire in Hf'. rewrite Hx in Hf'. cbn in Hf'.
  split; [|split].
  - intros l. rewrite not_in_snoc. split; [done|]. intros <-. case_match; by simplify_eq.
  - rewrite not_in_snoc. split; [done|]. intros <-. case_match; by simplify_eq.
  - intros before after Heq. destruct after as [|x after _] using rev_ind.
    + apply app_inj_tail in Heq as [<- ->]. destruct (pr_hangup p); [apply Hh|by simplify_eq].
    + rewrite app_comm_cons, app_assoc in Heq. apply app_inj_tail in Heq as [-> _]. by eapply Hhup.
Qed.

Lemma history_open l : l ∈ pr_open p' ↔ opened c (evs ++ [ev]) l.
Proof.
  destruct HH as [(_ & _ & Hm) _ Ho _ _ _ Hp _ _]. pose proof Hf as Hf'. unfold Process.fire, turn in Hf'.
  assert (∀ ev', (ev' ∉ evs ++ [ev]) ↔ (ev' ∉ evs) ∧ ev' ≠ ev) as Hsnoc by (intros; apply not_in_snoc).
  unfold opened in *. specialize (Ho l) as Hol. clear HH Hf.
  destruct l, (hasMeshServer c) eqn:Hms; rewrite Hsnoc in *;
    destruct ev; repeat case_match; simplify_eq; cbn in *; rewrite ?stopAccepting_spec, ?Hol; intuition congruence.
Qed.

Lemma history_loops b : b ∈ pr_loops p' ↔ looping c (evs ++ [ev]) b.
Proof.
  destruct HH as [_ _ _ Hl _ _ _ _ _]. pose proof Hf as Hf'. unfold Process.fire, turn in Hf'.
  unfold looping in *. rewrite not_in_snoc. specialize (Hl b).
  destruct ev; repeat case_match; simplify_eq; cbn in *; rewrite ?list_elem_of_filter, ?Hl; intuition congruence.
Qed.

Lemma history_stop : pr_stopping p' = true → StopSignal ∈ evs ++ [ev].
Proof.
  destruct HH as [_ _ _ _ Hs _ _ _ _]. pose proof Hf as Hf'. unfold Process.fire, turn in Hf'. rewrite in_snoc.
  destruct ev; repeat case_match; simplify_eq; cbn in *; auto.
Qed.
Lemma hungUp_later : hungUp evs → (∀ rt file, ev ≠ Reload rt file) → hungUp (evs ++ [ev]).
Proof.
  intros (before & after & -> & Hno) Hev. exists before, (after ++ [ev]). rewrite <-app_assoc.
  split; [done|]. intros rt file. rewrite not_in_snoc. auto.
Qed.

Lemma history_hangup :
  match pr_hangup p' with
  | None => True
  | Some pending => asksHangup c (evs ++ [ev]) ∧ (pending = true → hungUp (evs ++ [ev]))
  end.
Proof.
  destruct HH as [_ _ _ _ _ Hh _ _ _]. pose proof hungUp_later as Hlater.
  assert (asksHangup c evs → ev ≠ LoopEnds HangupLoop → asksHangup c (evs ++ [ev])) as Hasks.
  { intros [Ha Hl] Hne. split; [done|]. rewrite not_in_snoc. auto. }
  assert (ev = HangupSignal → hungUp (evs ++ [ev])) as Hnow.
  { intros ->. exists evs, []. split; [done|]. intros rt file ?%not_elem_of_nil. done. }
  pose proof Hf as Hf'. unfold Process.fire, turn in Hf'. clear HH Hf.
  destruct ev; repeat case_match; simplify_eq; cbn in *; try done; naive_solver.
Qed.

Lemma history_phase :
  match pr_phase p' with
  | Waiting => (BeginShutdown ∉ evs ++ [ev]) ∧ (MeshShutdownReturns ∉ evs ++ [ev]) ∧
               (PublicShutdownReturns ∉ evs ++ [ev])
  | ClosingMesh _ => hasMeshServer c = true ∧ BeginShutdown ∈ evs ++ [ev] ∧
                     (MeshShutdownReturns ∉ evs ++ [ev]) ∧ (PublicShutdownReturns ∉ evs ++ [ev])
  | ClosingPublic _ => BeginShutdown ∈ evs ++ [ev] ∧ (¬ opened c (evs ++ [ev]) Public) ∧
                       (PublicShutdownReturns ∉ evs ++ [ev])
  | Closed => BeginShutdown ∈ evs ++ [ev] ∧ ¬ opened c (evs ++ [ev]) Public
  end.
Proof.
  pose proof (history_open Public) as Ho'. pose proof (in_snoc BeginShutdown ev evs) as Hb.
  pose proof (not_in_snoc BeginShutdown ev evs) as Hb'.
  pose proof (not_in_snoc MeshShutdownReturns ev evs) as Hms.
  pose proof (not_in_snoc PublicShutdownReturns ev evs) as Hps.
  destruct HH as [(_ & _ & Hm) _ Ho _ _ _ Hp _ _]. specialize (Ho Public).
  pose proof (stopAccepting_spec Public Public p) as Hsa.
  pose proof Hf as Hf'. unfold Process.fire, turn in Hf'. clear HH Hf.
  destruct ev; repeat case_match; simplify_eq; cbn in *; rewrite <-?Ho', ?Hb, ?Hb', ?Hms, ?Hps, ?Hsa;
    rewrite <-?Ho in Hp; clear Ho Ho' Hb Hb' Hms Hps Hsa; intuition congruence.
Qed.

(** *** The goroutines *)

Lemma goroutines_spawn o prog :
  spawned c startedAt ev = Some (o, prog) → pr_threads p' = pr_threads p ++ [(o, prog)] →
  goroutines c startedAt (evs ++ [ev]) (pr_threads p').
Proof.
  intros Hs ->. unfold goroutines. rewrite omap_app. apply Forall2_app; [apply HH|]. cbn. rewrite Hs.
  repeat constructor.
Qed.

Lemma goroutines_quiet :
  spawned c startedAt ev = None → pr_threads p' = pr_threads p →
  goroutines c startedAt (evs ++ [ev]) (pr_threads p').
Proof.
  intros Hs ->. unfold goroutines. rewrite omap_app. cbn. rewrite Hs, app_nil_r. apply HH.
Qed.

Lemma goroutines_proceed i e : ev = Proceed i e → goroutines c startedAt (evs ++ [ev]) (pr_threads p').
Proof.
  intros ->. unfold goroutines. rewrite omap_app, app_nil_r. pose proof (hi_threads _ _ _ _ HH) as Ht.
  unfold Process.fire in Hf. case_bool_decide; [done|].
  destruct (pr_threads p !! i) as [[o [|X f k]]|] eqn:Hi; [done| |done].
  destruct (f e (pr_node p)) as [x n] eqn:He. injection Hf as <-. cbn.
  destruct (Forall2_lookup_r _ _ _ _ _ Ht Hi) as ([o0 prog0] & Hi0 & Ho & Hr).
  rewrite <-(list_insert_id _ _ _ Hi0). apply Forall2_insert; [exact Ht|]. split; [exact Ho|].
  etrans; [exact Hr|]. apply rtc_once. change x with (x, n).1. rewrite <-He. constructor.
Qed.

Lemma history_threads : goroutines c startedAt (evs ++ [ev]) (pr_threads p').
Proof.
  pose proof goroutines_proceed as Hp. pose proof goroutines_spawn as Hs. pose proof goroutines_quiet as Hq.
  destruct HH as [(Hc & Ht & _) _ _ _ _ _ _ _ _]. pose proof Hf as Hf'. unfold Process.fire, turn in Hf'.
  clear HH Hf. subst startedAt c. destruct ev; try (apply (Hp i e), eq_refl);
    repeat case_match; simplify_eq; try (apply Hq; reflexivity); (eapply Hs; [|reflexivity]); try reflexivity.
  unfold spawned.
  match goal with H : MeshHandler _ = _ |- _ => rewrite H end. reflexivity.
Qed.

Lemma idle_none b i q :
  idle (OfLoop b) p = true → pr_threads p !! i = Some (OfLoop b, q) → finished q = true.
Proof. intros Hi Hq. apply (proj1 (idle_spec _ _) Hi). by eapply list_elem_of_lookup_2. Qed.

Lemma oneTurn_advance ts i o X (f : Env → Node → X * Node) k x :
  ts !! i = Some (o, Call f k) → oneTurn ts → oneTurn (<[i := (o, k x)]> ts).
Proof.
  intros Hi Hone b m j q q' Hm Hj Hq Hq'.
  assert (∀ m q, <[i := (o, k x)]> ts !! m = Some (OfLoop b, q) → finished q = false →
    ∃ q0, ts !! m = Some (OfLoop b, q0) ∧ finished q0 = false) as Hback.
  { intros m' q0 [(<- & [= <- _] & _)|[_ ?]]%list_lookup_insert_Some Hq0; eauto. }
  destruct (Hback m q Hm Hq) as (q0 & ? & ?), (Hback j q' Hj Hq') as (q0' & ? & ?). by eapply (Hone b m j).
Qed.

Lemma history_turns : oneTurn (pr_threads p').
Proof.
  destruct HH as [_ _ _ _ _ _ _ _ Hone]. pose proof idle_none as Hidle.
  assert (∀ o prog, (∀ b, o = OfLoop b → idle (OfLoop b) p = true) → oneTurn (pr_threads p ++ [(o, prog)])) as Hspawn.
  { intros o prog Ho b i j q q' Hi Hj Hq Hq'.
    apply lookup_snoc_Some in Hi as [[Hil Hi]|[-> Hi]]; apply lookup_snoc_Some in Hj as [[Hjl Hj]|[-> Hj]];
      simplify_eq.
    - by eapply Hone.
    - specialize (Hidle b i q (Ho b eq_refl) Hi). congruence.
    - specialize (Hidle b j q' (Ho b eq_refl) Hj). congruence.
    - done. }
  pose proof Hf as Hf'. unfold Process.fire, turn in Hf'. clear HH Hf.
  destruct ev; repeat case_match; simplify_eq; try exact Hone;
    try (apply Hspawn; intros b [= <-]; by reflect_bools).
  cbn. by eapply oneTurn_advance.
Qed.

Lemma history_step : History c startedAt (evs ++ [ev]) p'.
Proof.
  split; [|apply history_exit|apply history_open|apply history_loops|apply history_stop|apply history_hangup|
    apply history_phase|apply history_threads|apply history_turns].
  destruct (fire_constants _ _ _ _ Hf) as (-> & -> & ->). apply HH.
Qed.
End step.

Lemma history_start env epoch p0 :
  started env epoch p0 → History (pr_config p0) (pr_startedAt p0) [] p0.
Proof.
  intros (rt & file & ips & _ & Hp0)%started_inv. assert (∀ ev : Event, ev ∉ []) as Hnil by (intros ev; apply not_elem_of_nil).
  rewrite Hp0. cbn [pr_config pr_startedAt]. set (c := pr_config p0). split; cbn; [by auto| |..].
  - intros _. split_and!; [by auto..|]. by intros [|] ? ?.
  - intros l. unfold opened. pose proof (Hnil BeginShutdown). pose proof (Hnil MeshShutdownReturns).
    pose proof (not_elem_of_nil (A := Listener)) as Hnone.
    destruct l, (hasMeshServer c); rewrite !elem_of_cons; naive_solver.
  - intros b. unfold looping. naive_solver.
  - done.
  - unfold is_empty. case_bool_decide; [done|]. split; [by split|done].
  - auto.
  - constructor.
  - intros b i j p q Hi. by rewrite lookup_nil in Hi.
Qed.

(** Every event of a life came when the past allowed it. *)
Definition lawful (c : Config) (evs : list Event) : Prop :=
  ∀ before ev after, evs = before ++ ev :: after → allowed c before ev.

Lemma live_history env epoch p0 evs p :
  started env epoch p0 → live evs p0 = Some p →
  History (pr_config p0) (pr_startedAt p0) evs p ∧ lawful (pr_config p0) evs.
Proof.
  intros Hst. revert evs p. apply (live_ind verify (λ evs p, History _ _ evs p ∧ lawful _ evs)).
  - split; [by eapply history_start|]. intros [|] ? ?; discriminate.
  - intros evs ev p p' [HH Hl] Hf. split; [by eapply history_step|].
    intros before ev' after Heq. destruct after as [|x after] using rev_ind.
    + apply app_inj_tail in Heq as [<- <-]. by eapply fire_allowed.
    + rewrite app_comm_cons, app_assoc in Heq. apply app_inj_tail in Heq as [-> _]. by eapply Hl.
Qed.

(** C4: The process is the relay, and its history says what it does. Whatever signals, requests,
    ticks and turns of its goroutines it has seen: its stores and goroutines are those of a run
    of the relay from its boot under the configuration of its environment; its goroutines are
    exactly those that its events started, in their order and each somewhere in its program (a
    handler of the public listener for a request there, the snapshot handler for one at the
    mesh listener, a turn of a loop); and every event came when the past allowed it. A request
    arrives only while its listener is open, which for the mesh listener is until the shutdown
    begins and for the public one until the mesh listener is closed, or until the shutdown
    begins where there is none; a reload happens only where there is a credential file, and once
    for a SIGHUP that came since the last; a loop has turns only if the configuration asks for
    it, until it ends, which it does only after a stop signal, and never two that are not over;
    a shutdown begins only after a stop signal, and once; and nothing follows an exit. *)
Theorem process_is_relay env epoch p0 evs p :
  started env epoch p0 → live evs p0 = Some p →
  relayReaches verify env epoch (pr_config p0) (systemOf p) ∧
  goroutines (pr_config p0) (pr_startedAt p0) evs (pr_threads p) ∧
  oneTurn (pr_threads p) ∧ lawful (pr_config p0) evs.
Proof.
  intros Hst Hl. destruct (live_history _ _ _ _ _ Hst Hl) as [HH Hlaw].
  split_and!; [by eapply live_reaches|apply HH|apply HH|exact Hlaw].
Qed.
End process.

(** ** An example *)

#[local] Existing Instance demoParsers.

(** A post that was answered was one that arrived at the open public listener. *)
Lemma process_is_relay_witness :
  map_len (messages (nd_store (pr_node (Sample.after Sample.served)))) = 1 ∧
  relayReaches RelayProps.Sample.verify0 RelayProps.Sample.env0 "0102030405060708"
    (pr_config Sample.process) (systemOf (Sample.after Sample.served)) ∧
  allowed (pr_config Sample.process) [] (Arrive (Some 300) RelayProps.Sample.post).
Proof.
  split; [by vm_compute|].
  destruct (process_is_relay RelayProps.Sample.verify0 RelayProps.Sample.env0 _ Sample.process Sample.served
    (Sample.after Sample.served) sample_started) as (Hr & _ & _ & Hlaw).
  - apply Sample.live_after. by vm_compute.
  - split; [exact Hr|]. by apply (Hlaw [] _ [Elapse Second; Proceed 0 RelayProps.Sample.e0]).
Defined.
