(* ===== verification/ServerProps.v ===== *)
(** * The HTTP server: what its handlers promise

    The gate stands in front of the routes it should, the mesh snapshot needs the pool secret,
    the replies tell what the stores did, the prekey routes act on the caller's own pool, and a
    long poll ends. What is said of the gate, the mail and the posts holds whatever other
    requests do between two calls of a handler ([takes]). *)

From Stdlib Require Import Strings.String.
From S2P Require Import Prelude Strconv Crypto GoDuration Model Config ConfigProps Peer.
From S2P Require Import Capability QueueStore QueueInv QueueSpec QueueSteps QueueProps.
From S2P Require Import Attachment AttachmentProps Prekey PrekeyProps Presence Admission.
From S2P Require Import AdmissionGate AdmissionProps Node NodeLogic Server NodeProps.

Open Scope Z_scope.

(** ** The gate *)

(** A session that stands in the first state and a credential that the second admits, each at
    its clock reading. *)
Definition admissible (n1 : Node) (now1 : Time) (n2 : Node) (now2 : Time) (token : string)
    (g : Admission.Grant) : Prop :=
  ∃ entry cr, Admission.sessions (nd_sessions n1) !! token = Some entry ∧ now1 < se_expiresAt entry ∧
    credentials (nd_admissions n2) !! se_credentialID entry = Some cr ∧
    now2 < t_NotAfter (cr_Terms cr) ∧ ga_ID g = se_credentialID entry ∧ ga_Terms g = cr_Terms cr.

(** The four answers of the gate. *)
Definition refusal (resp : Response) : Prop :=
  resp = Reply 401 (BError "admission_required") ∨ resp = Reply 401 (BError "admission_stale") ∨
  resp = Reply 403 (BError "admission_expired") ∨ resp = Reply 403 (BError "admission_refused").

(** Only the session table may change, and only lose sessions. *)
Definition gateOnly (n n' : Node) : Prop :=
  ∃ s, n' = Node.with_sessions s n ∧ nonces s = nonces (nd_sessions n) ∧
       Admission.sessions s ⊆ Admission.sessions (nd_sessions n).

Lemma gateOnly_refl n : gateOnly n n.
Proof. exists (nd_sessions n). by destruct n. Qed.

(** What the gate does, with every call finding what the others left. *)
Lemma takes_admit c r visits out :
  takes (admitCall c r) visits out →
  let token := header r admissionHeader in
  match out with
  | inl resp => refusal resp ∧ Forall (λ '(n, _, n'), gateOnly n n') visits ∧
      (token ≠ "" ∨ c_RequireAdmission c = true)
  | inr g =>
      (token = "" ∧ c_RequireAdmission c = false ∧ g = Admission.zeroGrant ∧ visits = []) ∨
      (token ≠ "" ∧ ∃ n1 e1 n2 e2, visits = [(n1, e1, n1); (n2, e2, n2)] ∧
         admissible n1 (e_now e1) n2 (e_now e2) token g)
  end.
Proof.
  unfold admitCall. cbv zeta. set (token := header r admissionHeader). unfold is_empty. case_bool_decide as Ht.
  { destruct (c_RequireAdmission c) eqn:Hr; intros [-> ->]%takes_ret.
    - split; [by left|]. split; [by apply Forall_nil|by right].
    - by left. }
  destruct visits as [|[[n1 e1] n1'] visits]; cbn; [done|].
  destruct (Resolve_cases (nd_sessions n1) token (e_now e1)) as [(entry & He & Hexp & _ & ->)|(s' & -> & Hs)]; cbn.
  - intros [-> Hk]. rewrite with_sessions_id in *. destruct visits as [|[[n2 e2] n2'] visits]; cbn in Hk; [done|].
    destruct (Lookup (nd_admissions n2) (se_credentialID entry) (e_now e2)) as [err|g] eqn:Hl; cbn in Hk.
    + destruct Hk as [-> Hk]. rewrite with_admissions_id in *.
      destruct visits as [|[[n3 e3] n3'] visits]; cbn in Hk; [done|]. destruct Hk as [-> Hk].
      assert (visits = [] ∧ ∃ resp, out = inl resp ∧ refusal resp) as (-> & resp & -> & Hr).
      { case_bool_decide; apply takes_ret in Hk as [-> ->]; (split; [done|]); eexists; (split; [done|]);
          unfold refusal; tauto. }
      split; [done|]. split; [|by left]. repeat constructor; [apply gateOnly_refl..|].
      exists (Forget (nd_sessions n3) (se_credentialID entry)). split_and!; [done..|apply Forget_shrinks].
    + destruct Hk as [-> [-> ->]%takes_ret]. rewrite with_admissions_id. right. split; [done|].
      apply Lookup_inr in Hl as (cr & Hcr & Hna & ->). exists n1, e1, n2, e2. split; [done|].
      by exists entry, cr.
  - intros [-> [-> ->]%takes_ret]. split; [unfold refusal; tauto|]. split; [|by left].
    apply Forall_singleton. exists s'. split; [done|].
    destruct Hs as [->|(entry & _ & ->)]; [done|]. split; [done|]. apply delete_subseteq.
Qed.

Lemma takes_admit_length c r visits out :
  takes (admitCall c r) visits out → (length visits ≤ match out with inl _ => 3 | inr _ => 2 end)%nat.
Proof.
  intros Ht. destruct out as [resp|g].
  - revert Ht. unfold admitCall. cbv zeta. case_match; [case_match; intros [-> _]%takes_ret; simpl; lia|].
    destruct visits as [|[[n1 e1] n1'] [|[[n2 e2] n2'] [|[[n3 e3] n3'] [|v visits]]]]; cbn; try lia.
    intros [_ Hk]. exfalso. destruct (Resolve _ _ _) as [[err|id] s]; cbn in Hk; [done|].
    destruct Hk as [_ Hk]. destruct (Lookup _ _ _); cbn in Hk; [|done].
    destruct Hk as [_ Hk]. by case_bool_decide.
  - apply takes_admit in Ht as [(_ & _ & _ & ->)|(_ & n1 & e1 & n2 & e2 & -> & _)]; simpl; lia.
Qed.

(** A handler behind the gate: refused by it, or run with the grant. *)
Lemma takes_gated c r h visits resp :
  takes (gated c r h) visits resp →
  takes (admitCall c r) visits (inl resp) ∨
  ∃ g visits1 visits2, visits = visits1 ++ visits2 ∧ takes (admitCall c r) visits1 (inr g) ∧
    Forall (λ '(n, _, n'), n' = n) visits1 ∧ takes (h g) visits2 resp.
Proof.
  unfold gated. intros (v1 & v2 & out & -> & Ha & Hk)%takes_bind. destruct out as [resp'|g].
  - apply takes_ret in Hk as [-> ->]. rewrite app_nil_r. by left.
  - right. exists g, v1, v2. split_and!; [done|done| |done]. apply takes_admit in Ha.
    destruct Ha as [(_ & _ & _ & ->)|(_ & n1 & e1 & n2 & e2 & -> & _)]; by repeat constructor.
Qed.

(** The gate alone. *)
Lemma run_admit c r envs n :
  match run (admitCall c r) envs n with
  | (inl resp, n') => refusal resp ∧ gateOnly n n'
  | (inr g, n') => n' = n
  end.
Proof.
  unfold admitCall. cbv zeta. destruct (is_empty _).
  { destruct (c_RequireAdmission c); cbn; [|done]. split; [by left|apply gateOnly_refl]. }
  cbn. destruct (Resolve_cases (nd_sessions n) (header r admissionHeader) (e_now (envs 0%nat)))
    as [(entry & He & Hexp & _ & ->)|(s' & -> & Hs)]; cbn.
  - destruct (Lookup _ _ _) as [err|g]; cbn; [|by destruct n].
    assert (gateOnly n (Node.with_sessions (Forget (nd_sessions n) (se_credentialID entry)) n)) as Hg.
    { exists (Forget (nd_sessions n) (se_credentialID entry)). split_and!; [done..|apply Forget_shrinks]. }
    case_bool_decide; cbn; (split; [unfold refusal; tauto|exact Hg]).
  - split; [unfold refusal; tauto|]. exists s'. split; [done|].
    destruct Hs as [->|(entry & _ & ->)]; [done|]. split; [done|]. apply delete_subseteq.
Qed.

Lemma run_gated c r h envs n :
  run (gated c r h) envs n =
  match run (admitCall c r) envs n with
  | (inl resp, n') => (resp, n')
  | (inr g, n') => run (h g) (λ i, envs (calls (admitCall c r) envs n + i)%nat) n'
  end.
Proof. unfold gated. rewrite run_bind. by destruct (run (admitCall c r) envs n) as [[resp|g] n']. Qed.

(** The routes behind the gate. *)
Definition gatedRoute (rq : Request) : option Http :=
  match rq with
  | PostMessages r _ | GetMessages r | PostAcks r _ | GetAcks r | PostPresenceHeartbeat r _
  | PostPresenceQuery r _ | PostPrekeys r _ | GetPrekeysClaim r | GetPrekeysStatus r
  | PostAttachmentsChunks r _ | GetAttachmentsChunks r _ | PostAttachmentsComplete r _ => Some r
  | _ => None
  end.

Section listener.
Context `{!NetParsers} (verify : list Z → list Z → list Z → bool).

Lemma gated_mux c startedAt rq r :
  gatedRoute rq = Some r → ∃ h, mux verify c startedAt rq = gated c r h.
Proof. destruct rq; intros [= ->]; eexists; reflexivity. Qed.

(** C7: An enforcing relay serves nothing to a caller it has not admitted, whatever other
    requests do meanwhile. On every route but health, the nodes, the two of the gate and the
    two that only delete, a request without a token, or for whose token its calls find no live
    session of a circle that they find admitted, is answered with a refusal, and none of
    its calls changes a store: only sessions may end. *)
Theorem gate_guards_routes c startedAt contentLength rq r visits resp :
  c_RequireAdmission c = true → gatedRoute rq = Some r →
  takes (Handler verify c startedAt contentLength rq) visits resp →
  (∀ n1 e1 n2 e2 g, (n1, e1, n1) ∈ visits → (n2, e2, n2) ∈ visits →
     ¬ admissible n1 (e_now e1) n2 (e_now e2) (header r admissionHeader) g) →
  (refusal resp ∨ resp = Reply 413 (BError "payload_too_large")) ∧
  Forall (λ '(n, _, n'), gateOnly n n') visits.
Proof.
  intros Hreq Hr Ht Hno. destruct (gated_mux c startedAt rq r Hr) as [h Hmux].
  assert (takes (gated c r h) visits resp → refusal resp ∧ Forall (λ '(n, _, n'), gateOnly n n') visits) as Hgate.
  { intros [Ha|(g & v1 & v2 & -> & Ha & _)]%takes_gated; apply takes_admit in Ha; [tauto|].
    destruct Ha as [(_ & Hf & _)|(_ & n1 & e1 & n2 & e2 & -> & Hx)]; [congruence|].
    exfalso. apply (Hno n1 e1 n2 e2 g); [by left|right; by left|exact Hx]. }
  unfold Handler, limitBodies in Ht. rewrite Hmux in Ht.
  destruct contentLength as [len|]; [destruct (_ <? len)|].
  - apply takes_ret in Ht as [-> ->]. split; [by right|by apply Forall_nil].
  - apply Hgate in Ht. tauto.
  - apply Hgate in Ht. tauto.
Qed.

(** ** The mesh secret *)

(** What a program may answer. *)
Fixpoint Answers {A} (Q : A → Prop) (p : Prog A) : Prop :=
  match p with Ret a => Q a | Call f k => ∀ x, Answers Q (k x) end.

Lemma Answers_bind {A B} (Q : B → Prop) (p : Prog A) (k : A → Prog B) :
  (∀ a, Answers Q (k a)) → Answers Q (p ≫= k).
Proof. intros Hk. induction p as [a|X f k' IH]; simpl; [apply Hk|]. intros x. apply IH. Qed.

Lemma Answers_takes {A} (Q : A → Prop) (p : Prog A) visits a : Answers Q p → takes p visits a → Q a.
Proof.
  revert visits. induction p as [b|X f k IH]; intros [|[[n e] n'] visits] Hp; cbn; try done; [by intros ->|].
  intros [_ Ht]. by eapply IH.
Qed.

Definition noSnapshot (resp : Response) : Prop :=
  match resp with Reply _ (BSnapshot _) => False | _ => True end.

Ltac answers :=
  repeat first [ progress cbv zeta | done | apply Answers_bind; intros ? | solve [eauto] | case_match ].

Lemma gated_answers c r h : (∀ g, Answers noSnapshot (h g)) → Answers noSnapshot (gated c r h).
Proof.
  intros Hh. unfold gated, admitCall. case_match; [case_match; simpl; by auto|].
  intros x. destruct x as [|id]; [done|]. intros [err|g]; [|apply Hh]. intros []. by case_bool_decide.
Qed.

Lemma public_answers c startedAt rq : Answers noSnapshot (mux verify c startedAt rq).
Proof.
  assert (∀ patience rec cap deadline, Answers noSnapshot (pollLoop patience rec cap deadline)) as Hpoll.
  { induction patience as [|patience IH]; intros; cbn [pollLoop]; answers. }
  destruct rq; cbn [mux]; try (apply gated_answers; intros g);
    unfold handleHealth, handleNodes, challengeHandler, redeemHandler, handlePresenceRevoke,
      handleProfilePurge, writeDecodeError, writeError; answers.
Qed.

(** C11: Replication is served to holders of the pool secret and to nobody else. No route of
    the public listener ever answers with a snapshot, in any configuration; without a
    configured secret there is no mesh listener; and on it, a request that does not present
    exactly the configured secret is refused and changes nothing. *)
Theorem snapshot_needs_secret c startedAt contentLength rq visits resp :
  (takes (Handler verify c startedAt contentLength rq) visits resp → noSnapshot resp) ∧
  (c_MeshSecret c = "" → MeshHandler c = None) ∧
  ∀ r, header r meshSecretHeader ≠ c_MeshSecret c ∨ c_MeshSecret c = "" →
    takes (handleMeshSnapshot c r) visits resp → visits = [] ∧ resp = Reply 403 (BError "untrusted_peer").
Proof.
  split; [|split].
  - apply Answers_takes. unfold Handler, limitBodies.
    destruct contentLength as [len|]; [destruct (_ <? len); [done|]|]; apply public_answers.
  - intros Hs. unfold MeshHandler, MeshEnabled. by rewrite Hs.
  - intros r Hr. unfold handleMeshSnapshot, isTrustedPeer, MeshEnabled.
    destruct (decide (c_MeshSecret c = "")) as [Hs|Hs]; [rewrite Hs; apply takes_ret|].
    unfold is_empty. rewrite bool_decide_eq_false_2 by done. simpl.
    rewrite bool_decide_eq_false_2 by naive_solver. apply takes_ret.
Qed.
End listener.

(** ** Posting *)

Lemma addMessageLocked_frame s e credential :
  messages (addMessageLocked s e credential) = <[m_ID e := e]> (messages s) ∧
  acks (addMessageLocked s e credential) = acks s.
Proof. unfold addMessageLocked. by destruct (negb (credential =? 0)). Qed.

(** The calls before a handler's own leave the queue alone. *)
Lemma gate_keeps_store (visits : list Visit) :
  Forall (λ '(n, _, n'), gateOnly n n') visits ∨ Forall (λ '(n, _, n'), n' = n) visits →
  Forall (λ '(n, _, n'), nd_store n' = nd_store n) visits.
Proof.
  intros [H|H]; (eapply Forall_impl; [exact H|]); intros [[n e] n'].
  - by intros (s & -> & _).
  - by intros ->.
Qed.

(** C10: A post is answered truthfully, whatever other requests do meanwhile. The reply 202
    means that the last call of the handler stored the message under an id that was free in the
    queue it found, with the receipt that is in the reply, and no other record: the message is
    the envelope with its ids, addresses, payload and tags trimmed and everything else as it
    came, created when it says or now, and expiring when it says or after the default time, but
    no later than the retention of the relay and of the grant that the gate gave. Whatever the
    reply, no other call of the handler changes the queue, and after any other reply none has. *)
Theorem post_reply_truthful c r envelope (visits : list Visit) resp :
  Forall (λ '(n, e, _), QueueInv.Inv (nd_store n) ∧ 0 ≤ e_now e) visits →
  takes (handlePostMessage c r (inr envelope)) visits resp →
  (∃ before g n e n',
     let m := postEnvelope (nd_store n) (e_now e) envelope (queueGrant g) in
     let ack := postReceipt (c_NodeID c) (e_now e) m in
     visits = before ++ [(n, e, n')] ∧ takes (admitCall c r) before (inr g) ∧
     Forall (λ '(n, _, n'), nd_store n' = nd_store n) before ∧
     resp = Reply 202 (BPosted false ack) ∧
     messages (nd_store n) !! TrimSpace (m_ID envelope) = None ∧
     messages (nd_store n') = <[TrimSpace (m_ID envelope) := m]> (messages (nd_store n)) ∧
     acks (nd_store n') = <[TrimSpace (m_ID envelope) +:+ ":node_received" := ack]> (acks (nd_store n))) ∨
  (Forall (λ '(n, _, n'), nd_store n' = nd_store n) visits ∧ ∀ ack, resp ≠ Reply 202 (BPosted false ack)).
Proof.
  intros Hall. unfold handlePostMessage. intros [Ha|(g & v1 & v2 & -> & Ha & H1 & Hk)]%takes_gated.
  { apply takes_admit in Ha as (Hr & Hg & _). right. split; [apply gate_keeps_store; by left|].
    intros ack ->. unfold refusal in Hr. naive_solver. }
  assert (Forall (λ '(n, _, n'), nd_store n' = nd_store n) v1) as Hv1 by (apply gate_keeps_store; by right).
  destruct (_ && _). { apply takes_ret in Hk as [-> ->]. right. by rewrite app_nil_r. }
  destruct v2 as [|[[n e] n'] v2]; [done|]. apply Forall_app in Hall as [_ [[HI Hnow] _]%Forall_cons].
  cbn in Hk. destruct Hk as [-> Hk].
  pose proof (post_cases (nd_store n) (e_now e) envelope (c_NodeID c) (queueGrant g) HI Hnow) as Hc.
  assert (∀ s', nd_store (Node.with_store s' n) = nd_store n →
    (∃ b, takes (mret b) v2 resp ∧ ∀ ack, b ≠ Reply 202 (BPosted false ack)) →
    Forall (λ '(n, _, n'), nd_store n' = nd_store n) (v1 ++ (n, e, Node.with_store s' n) :: v2) ∧
    ∀ ack, resp ≠ Reply 202 (BPosted false ack)) as Hno.
  { intros s' Hs (b & [-> ->]%takes_ret & Hb). split; [|done]. apply Forall_app. split; [done|]. by repeat constructor. }
  destruct (prepared _ _ _ _) as [err|m] eqn:Hp.
  { rewrite Hc in *. right. apply Hno; [done|]. destruct err; eexists; (split; [exact Hk|done]). }
  destruct Hc as [[Hpost Heq]|[_ (ack & err & Heq)]]; rewrite Heq in *; cbn in Hk.
  2:{ right. apply Hno; [done|]. destruct err; eexists; (split; [exact Hk|done]). }
  apply takes_ret in Hk as [-> ->]. left.
  apply prepared_iff in Hp as (_ & _ & _ & ->). destruct Hpost as (Hfree & _).
  set (m := postEnvelope _ _ _ _) in *. exists v1, g, n, e. eexists. split; [done|].
  destruct (addMessageLocked_frame (insertAck (nd_store n) (nodeReceivedAck m (c_NodeID c) (e_now e))) m
    (QueueStore.g_Credential (queueGrant g))) as [Hms Hks].
  split_and!; [exact Ha|done|done|done|exact Hms|exact Hks].
Qed.

(** ** Reading *)

(** C8: An enforcing relay hands out mail only against its secret, whatever other requests do
    meanwhile. Every message in an answer to a fetch is held and live in the queue that the
    last call of the handler finds, is addressed to the recipient that was asked for, and is
    tagged, and one of the secrets in the request's capability header opens its tag; a request
    with no secret at all gets an error. *)
Theorem enforced_fetch_needs_secret c r (visits : list Visit) ms :
  c_RequireFetchAuth c = true →
  Forall (λ '(n, _, _), QueueInv.Inv (nd_store n)) visits →
  takes (handleGetMessages c r) visits (Reply 200 (BMessages ms)) →
  secretsOf r ≠ [] ∧ ∃ before n e n', visits = before ++ [(n, e, n')] ∧
  ∀ m, m ∈ ms →
    messages (nd_store n) !! m_ID m = Some m ∧ e_now e < m_ExpiresAt m ∧
    m_Recipient m = TrimSpace (query r "recipient") ∧
    m_RecipientTag m ≠ "" ∧ Exists (opens (m_RecipientTag m)) (secretsOf r).
Proof.
  intros Hreq Hall. unfold handleGetMessages. intros [Ha|(g & v1 & v2 & -> & _ & _ & Hk)]%takes_gated.
  { apply takes_admit in Ha as (Hr & _). unfold refusal in Hr. naive_solver. }
  destruct (is_empty _). { by apply takes_ret in Hk as [_ ?]. }
  unfold queueAuth in Hk. rewrite Hreq in Hk. simpl in Hk. case_bool_decide as Hsec.
  { by apply takes_ret in Hk as [_ ?]. }
  split; [done|]. destruct v2 as [|[[n e] n'] v2]; [done|]. cbn in Hk. destruct Hk as [-> Hk].
  apply Forall_app in Hall as [_ [HI _]%Forall_cons].
  destruct (MessagesForRecipient _ _ _ _ _) as [found s'] eqn:Hread. cbn in Hk.
  apply takes_ret in Hk as [-> [= <-]]. eexists v1, n, e, _. split; [done|]. intros m Hm.
  destruct (read_sound (H := e_rt e) (nd_store n) (e_now e) (query r "recipient") (parseLimit r 100)
    (NewAuth (secretsOf r) false) m HI) as (? & ? & ? & Hp); [by rewrite Hread|].
  assert (m_RecipientTag m ≠ "") as Ht by (intros Ht; by rewrite Ht in Hp).
  split_and!; [done..|]. by eapply NewAuth_permits.
Qed.

(** ** Prekeys *)

Lemma Publish_other (rt : GoRuntime) s now tag v key :
  key ≠ bucketKey (TrimSpace tag) (TrimSpace (k_DeviceKey v)) →
  queueAt (Publish s now tag v).2 key `sublist_of` queueAt s key ∧
  (lastResort (Publish s now tag v).2 !! key = lastResort s !! key ∨
   lastResort (Publish s now tag v).2 !! key = None).
Proof.
  intros Hk.
  assert (queueAt (Prekey.pruneLocked s now) key `sublist_of` queueAt s key ∧
    (lastResort (Prekey.pruneLocked s now) !! key = lastResort s !! key ∨
     lastResort (Prekey.pruneLocked s now) !! key = None)) as Hprune.
  { rewrite prune_queueAt, prune_lastResort, keep_lookup. split; [apply sublist_filter|].
    destruct (lastResort s !! key); simpl; [destruct (fresh _ _ _)|]; auto. }
  destruct (Publish_cases s now tag v) as [[_ ->]|[(_ & _ & ->)|(_ & _ & new & _ & ->)]];
    [by split; [|left]|exact Hprune|]. cbn [snd].
  set (pool := bucketKey _ _) in *. set (s2 := if bool_decide _ then _ else _).
  assert (queueAt s2 key = queueAt (Prekey.pruneLocked s now) key ∧
          lastResort s2 = lastResort (Prekey.pruneLocked s now)) as [H1 H2].
  { unfold s2. case_bool_decide; [done|]. split; [|done]. unfold queueAt. simpl.
    by rewrite lookup_insert_ne. }
  unfold queueAt at 1. rewrite (proj1 (publishLastResort_spec _ _ _ _)). fold (queueAt s2 key).
  rewrite H1. split; [apply Hprune|].
  unfold publishLastResort. repeat case_match; simpl; rewrite ?lookup_insert_ne, H2 by done; apply Hprune.
Qed.

(** A caller fills its own prekey pools only. Whatever a publish request carries, a pool
    that is not of the tag of the first secret in its capability header gets nothing: it keeps
    the entries that have not expired, or some of them, and no last-resort key; and
    without a secret the request is refused. *)
Theorem publish_needs_secret c r body envs n :
  let '(resp, n') := run (handlePublishPrekeys c r body) envs n in
  let owner := Subject (NewAuth (secretsOf r) false) in
  (owner = "" → nd_prekeys n' = nd_prekeys n ∧ (refusal resp ∨ resp = Reply 401 (BError "capability_required"))) ∧
  (owner ≠ "" → ∃ secret, secret ∈ secretsOf r ∧ owner = TagForSecret (TrimSpace secret)) ∧
  ∀ key, (∀ device, key ≠ bucketKey (TrimSpace owner) device) →
    queueAt (nd_prekeys n') key `sublist_of` queueAt (nd_prekeys n) key ∧
    (lastResort (nd_prekeys n') !! key = lastResort (nd_prekeys n) !! key ∨
     lastResort (nd_prekeys n') !! key = None).
Proof.
  set (owner := Subject (NewAuth (secretsOf r) false)).
  assert (owner ≠ "" → ∃ secret, secret ∈ secretsOf r ∧ owner = TagForSecret (TrimSpace secret)) as Hown.
  { unfold owner, Subject. rewrite NewAuth_tags. unfold presentedTags.
    destruct (take _ _) as [|t ts] eqn:Ht; [done|]. intros _.
    assert (t ∈ take maxCapabilities (TagForSecret <$> filter (λ s, s ≠ "") (TrimSpace <$> secretsOf r))) as Hin
      by (rewrite Ht; left).
    apply elem_of_take in Hin as (i & Hi & _). apply list_elem_of_lookup_2 in Hi.
    apply list_elem_of_fmap in Hi as (x & -> & [_ (y & -> & Hy)%list_elem_of_fmap]%list_elem_of_filter).
    by exists y. }
  unfold handlePublishPrekeys. rewrite run_gated.
  pose proof (run_admit c r envs n) as Ha. simpl in Ha.
  destruct (run (admitCall c r) envs n) as [[resp0|g] n0].
  { destruct Ha as (Hr & (s & -> & _)). cbn. naive_solver. }
  subst n0. unfold queueSubject. fold owner. unfold is_empty.
  case_bool_decide as He; [simpl; naive_solver|].
  destruct body as [err|value]; [by destruct err; simpl; naive_solver|].
  destruct (bool_decide (k_Entries value = []) && _); [simpl; naive_solver|]. simpl.
  set (e1 := envs (calls (admitCall c r) envs n + 0)%nat).
  pose proof (λ key, Publish_other (e_rt e1) (nd_prekeys n) (e_now e1) owner value key) as Hpub.
  destruct (Publish (nd_prekeys n) (e_now e1) owner value) as [[added ok] s1]. cbn [snd] in Hpub.
  assert (∀ s2, (∀ key, queueAt s2 key `sublist_of` queueAt s1 key ∧
      (lastResort s2 !! key = lastResort s1 !! key ∨ lastResort s2 !! key = None)) →
    ∀ key, (∀ device, key ≠ bucketKey (TrimSpace owner) device) →
    queueAt s2 key `sublist_of` queueAt (nd_prekeys n) key ∧
    (lastResort s2 !! key = lastResort (nd_prekeys n) !! key ∨ lastResort s2 !! key = None)) as Htrans.
  { intros s2 Hs key Hk. destruct (Hpub key (Hk _)) as [Hq Hl], (Hs key) as [Hq' Hl'].
    split; [by etrans|]. destruct Hl as [Hl|Hl], Hl' as [Hl'|Hl']; rewrite ?Hl in Hl'; auto. }
  destruct ok; simpl.
  - split; [done|]. split; [done|]. cbn [nd_prekeys Node.with_prekeys]. apply Htrans. intros key.
    rewrite prune_queueAt, prune_lastResort, keep_lookup. split; [apply sublist_filter|].
    destruct (lastResort s1 !! key); simpl; [destruct (fresh _ _ _)|]; auto.
  - split; [done|]. split; [done|]. apply Htrans. by split; [|left].
Qed.

(** ** The long poll *)

Lemma pollWait_le c r : pollWait c r ≤ c_RelayPollTimeout c.
Proof. unfold pollWait. repeat case_match; reflect_bools; lia. Qed.

(** One look of the poll at the transfer: what was there for it, which it takes away. *)
Definition looked (r : Http) (v : Visit) (chunks : list Attachment.Chunk) : Prop :=
  let '(n, e, n') := v in
  let '(found, s) := Drain (H := e_rt e) (nd_attachments n) (e_clock e 0) (e_clock e 1)
                       (query r "recipient") (query r "capability") in
  chunks = found ∧ n' = Node.with_attachments s n.

(** A poll with so many pauses, and its answer: the chunks of the first look that found some, or
    none after a look that found none when the deadline had passed. *)
Inductive Polled (r : Http) (deadline : Time) : nat → list Visit → Response → Prop :=
  | PolledSome v chunks :
      looked r v chunks → chunks ≠ [] → Polled r deadline 0 [v] (Reply 200 (BChunks chunks))
  | PolledNone v n e :
      looked r v [] → deadline ≤ e_now e →
      Polled r deadline 0 [v; (n, e, n)] (Reply 200 (BChunks []))
  | PolledOn v n e k visits resp :
      looked r v [] → e_now e < deadline → Polled r deadline k visits resp →
      Polled r deadline (S k) (v :: (n, e, n) :: visits) resp.

(** The clock moves on by a tick at least in every pause. *)
Definition paced (start : Time) (polls : list Visit) : Prop :=
  ∀ k v, polls !! (2 * k + 1)%nat = Some v → start + Z.of_nat k * tick ≤ e_now v.1.2.

Lemma poll_takes patience r start wait j visits resp :
  wait ≤ Z.of_nat (j + patience) * tick → paced (start + Z.of_nat j * tick) visits →
  takes (pollLoop patience (query r "recipient") (query r "capability") (start + wait)) visits resp →
  ∃ k, Polled r (start + wait) k visits resp ∧ (k = 0%nat ∨ (Z.of_nat (j + k) - 1) * tick < wait).
Proof.
  assert (0 < tick) as Htick by done.
  revert j visits. induction patience as [|patience IH]; intros j visits Hw Hp Ht;
    destruct visits as [|[[n e] n1] visits]; try done; cbn in Ht; destruct Ht as [Hn Ht];
    destruct (Drain _ _ _ _ _) as [found s] eqn:Hd; cbn [fst snd] in *;
    (assert (looked r (n, e, n1) found) as Hl by (unfold looked; by rewrite Hd));
    destruct found as [|ch chs]; try (apply takes_ret in Ht as [-> ->]; exists 0%nat; split; [by constructor|by left]);
    destruct visits as [|[[n2 e2] n3] visits]; try done; cbn in Ht; destruct Ht as [-> Ht];
    pose proof (Hp 0%nat _ eq_refl) as H0; cbn in H0; unfold Before in Ht;
    destruct (Z.ltb_spec (e_now e2) (start + wait)) as [Hlt|Hle]; cbn [negb] in Ht;
    try (apply takes_ret in Ht as [-> ->]; exists 0%nat; split; [by constructor|by left]).
  - exfalso. rewrite Nat.add_0_r in Hw. lia.
  - destruct (IH (S j) visits) as (k & Hk & Hb); [by rewrite Nat.add_succ_comm| |exact Ht|].
    { intros i v Hv. specialize (Hp (S i) v). replace (2 * S i + 1)%nat with (S (S (2 * i + 1))) in Hp by lia.
      specialize (Hp Hv). lia. }
    exists (S k). split; [by constructor|right]. destruct Hb as [->|Hb]; [|rewrite Nat.add_succ_comm in Hb; done].
    lia.
Qed.

Lemma Polled_length r deadline k visits resp :
  Polled r deadline k visits resp → (length visits ≤ 2 * k + 2)%nat.
Proof. induction 1; simpl; lia. Qed.

(** C33: A long poll ends, whatever other requests do meanwhile. If the clock moves on by at
    least the pause in every turn of the poll, then a client that stays for the wait it asked
    for, or the configured timeout where that is shorter, is answered: refused by the gate, told
    that the route is incomplete, or given the chunks of the first look that finds some, or
    none, and that only after a look that found none once the wait was over. So no chunk that the
    poll took is left out of the answer. The pauses are together no longer than the
    wait and one pause more, and a poll makes one look and one reading of the clock before each,
    and six calls besides at most. *)
Theorem long_poll_ends c patience r visits resp :
  let wait := pollWait c r in
  wait ≤ Z.of_nat patience * tick →
  (∀ gate g n e n' polls, takes (admitCall c r) gate (inr g) → visits = gate ++ (n, e, n') :: polls →
     paced (e_now e) polls) →
  takes (handleGetAttachmentChunks c patience r) visits resp →
  wait ≤ c_RelayPollTimeout c ∧
  ∃ k, Z.of_nat k * tick < Z.max 0 wait + tick ∧ (length visits ≤ 2 * k + 5)%nat ∧
  (refusal resp ∨
   resp = Reply 400 (BError "missing_attachment_route") ∧
     (query r "recipient" = "" ∨ query r "capability" = "") ∨
   ∃ gate g n e polls, visits = gate ++ (n, e, n) :: polls ∧ takes (admitCall c r) gate (inr g) ∧
     Polled r (Add (e_now e) wait) k polls resp).
Proof.
  intros wait Hw Hpace Ht. split; [apply pollWait_le|]. assert (0 < tick) as Htick by done.
  unfold handleGetAttachmentChunks in Ht. apply takes_gated in Ht as [Ha|(g & v1 & v2 & -> & Ha & _ & Hk)].
  { pose proof (takes_admit _ _ _ _ Ha) as (Hr & _). exists 0%nat. split; [lia|]. split; [|by left].
    apply takes_admit_length in Ha. lia. }
  pose proof (takes_admit_length _ _ _ _ Ha) as Hlen. cbn in Hlen.
  destruct (is_empty _ || is_empty _) eqn:He.
  { apply takes_ret in Hk as [-> ->]. exists 0%nat. split; [lia|]. rewrite app_nil_r. split; [lia|].
    right; left. split; [done|]. unfold is_empty in He. apply orb_true_iff in He as [He|He]; reflect_bools; auto. }
  destruct v2 as [|[[n e] n'] polls]; [done|]. cbn in Hk. destruct Hk as [-> Hk].
  destruct (poll_takes patience r (e_now e) wait 0 polls resp) as (k & Hpoll & Hb); [done| |exact Hk|].
  { rewrite Z.add_0_r. by eapply Hpace. }
  exists k. split; [|split].
  - destruct Hb as [->|Hb]; cbn in *; lia.
  - apply Polled_length in Hpoll. rewrite length_app. cbn. lia.
  - do 2 right. by exists v1, g, n, e, polls.
Qed.

(** ** Examples *)

Module Sample.
Definition T0 : Time := 10 ^ 15.
Definition clock (step : Duration) (i : nat) : Env :=
  mkEnv list_runtime (λ _, T0 + Z.of_nat i * step) None [].
Definition verify0 : list Z → list Z → list Z → bool := λ _ _ _, false.

(** A configuration with the two switches as given and the defaults for the rest. *)
Definition config (requireFetchAuth requireAdmission : bool) : Config :=
  FromEnv (λ key,
    if bool_decide (key = "DEE_NODE_REQUIRE_FETCH_AUTH") && requireFetchAuth then "true" else
    if bool_decide (key = "DEE_NODE_REQUIRE_ADMISSION") && requireAdmission then "true" else "").
Definition node : Node :=
  mkNode (QueueStore.NewStore (mkStoreConfig 10 20 10 10 8192 (72 * Hour) (24 * Hour)) "epoch")
    (NewPool (H := demoParsers) "me" "http://me" [] []) (Presence.NewStore 5000 (24 * Hour))
    (NewRelay 8 (1024 * 1024) (50 * 1024 * 1024) 256 (30 * Second)) (Prekey.NewStore 0 0)
    Admission.NewStore NewSessions ∅.
Definition http (capability : string) (q : string → string) : Http :=
  mkHttp (λ key, if bool_decide (key = queueCapabilityHeader) then capability else "") q.
Definition envelope (recipientTag senderTag : string) : MessageEnvelope :=
  mkMessageEnvelope "m1" "alice" "bob" 0 0 "sealed" "" "" "" ∅ recipientTag senderTag.
Definition fetch (capability : string) : Http :=
  http capability (λ key, if bool_decide (key = "recipient") then "bob" else "").
Definition posted (c : Config) (e : MessageEnvelope) : Response * Node :=
  run (handlePostMessage c (http "" (λ _, "")) (inr e)) (clock Second) node.

Lemma node_inv : QueueInv.Inv (nd_store node).
Proof. by apply NewStore_inv. Qed.
End Sample.

Lemma gate_guards_routes_witness :
  c_RequireAdmission (Sample.config false true) = true ∧
  ∃ visits resp,
    takes (Handler (H := demoParsers) Sample.verify0 (Sample.config false true) Sample.T0
      (Some 300) (PostMessages (Sample.http "" (λ _, "")) (inr (Sample.envelope "" "")))) visits resp ∧
    (refusal resp ∨ resp = Reply 413 (BError "payload_too_large")).
Proof.
  split; [by vm_compute|].
  destruct (run_takes (Handler (H := demoParsers) Sample.verify0 (Sample.config false true) Sample.T0 (Some 300)
    (PostMessages (Sample.http "" (λ _, "")) (inr (Sample.envelope "" "")))) (Sample.clock Second) Sample.node)
    as (visits & Ht & _).
  exists visits, (Reply 401 (BError "admission_required")). split; [exact Ht|].
  apply (gate_guards_routes (H := demoParsers) Sample.verify0 (Sample.config false true) Sample.T0 (Some 300)
    (PostMessages (Sample.http "" (λ _, "")) (inr (Sample.envelope "" ""))) (Sample.http "" (λ _, "")) visits
    (Reply 401 (BError "admission_required"))).
  - by vm_compute.
  - reflexivity.
  - exact Ht.
  - intros n1 e1 n2 e2 g Hin. destruct visits as [|visit visits]; [by apply elem_of_nil in Hin|].
    destruct visit as [[n e] n']. exact (False_ind _ Ht).
Defined.

Lemma clock_nonneg i : 0 ≤ e_now (Sample.clock Second i).
Proof. unfold Sample.clock, e_now, Sample.T0, Second. cbn. lia. Qed.

(** On an open relay and with no token, a post and a fetch are one call each. *)
Lemma post_visit c envelope envs n :
  c_RequireAdmission c = false →
  c_RequireFetchAuth c && (is_empty (m_RecipientTag envelope) || is_empty (m_SenderTag envelope)) = false →
  let p := handlePostMessage c (Sample.http "" (λ _, "")) (inr envelope) in
  takes p [(n, envs 0%nat, (run p envs n).2)] (run p envs n).1.
Proof.
  intros Ha Hf. unfold handlePostMessage, gated, admitCall.
  replace (is_empty (header (Sample.http "" (λ _, "")) admissionHeader)) with true by done.
  rewrite Ha, Hf. cbn -[AddMessageWithGrant]. destruct (AddMessageWithGrant (nd_store n) _ _ _ _) as [[ack [[]|]] s']; done.
Qed.

Lemma fetch_visit c capability auth envs n :
  c_RequireAdmission c = false → queueAuth c (Sample.fetch capability) = Some auth →
  let p := handleGetMessages c (Sample.fetch capability) in
  takes p [(n, envs 0%nat, (run p envs n).2)] (run p envs n).1.
Proof.
  intros Ha Hf. unfold handleGetMessages, gated, admitCall. rewrite Hf.
  replace (is_empty (header (Sample.fetch capability) admissionHeader)) with true by done.
  replace (is_empty (query (Sample.fetch capability) "recipient")) with false by done.
  rewrite Ha. cbn -[MessagesForRecipient]. by destruct (MessagesForRecipient (nd_store n) _ _ _ _).
Qed.

Lemma post_reply_truthful_witness :
  ∃ ack n', Sample.posted (Sample.config false false) (Sample.envelope "t" "") =
              (Reply 202 (BPosted false ack), n') ∧
    ∃ m, messages (nd_store n') = <["m1" := m]> (messages (nd_store Sample.node)).
Proof.
  assert (match (Sample.posted (Sample.config false false) (Sample.envelope "t" "")).1 with
          | Reply 202 (BPosted false _) => true | _ => false end = true) as Hok by by vm_compute.
  pose proof (post_visit (Sample.config false false) (Sample.envelope "t" "") (Sample.clock Second) Sample.node
    ltac:(by vm_compute) ltac:(by vm_compute)) as Ht. cbv zeta in Ht.
  fold (Sample.posted (Sample.config false false) (Sample.envelope "t" "")) in Ht.
  destruct (Sample.posted (Sample.config false false) (Sample.envelope "t" "")) as [resp n']. cbn [fst snd] in *.
  destruct (post_reply_truthful (Sample.config false false) (Sample.http "" (λ _, "")) (Sample.envelope "t" "")
    [(Sample.node, Sample.clock Second 0%nat, n')] resp) as [(before & g & n & e & n1 & Hv & _ & _ & -> & _ & Hm & _)|[_ Hno]].
  - apply Forall_singleton. split; [exact Sample.node_inv|apply clock_nonneg].
  - exact Ht.
  - eexists _, n'. split; [reflexivity|]. eexists.
    destruct before as [|b before]; [|by destruct before]. injection Hv as <- <- <-. exact Hm.
  - exfalso. destruct resp as [st b|]; [|discriminate Hok].
    destruct b as [| |dup ack| | | | | | | | | | | | | | |]; repeat case_match; try discriminate Hok.
    by eapply Hno.
Defined.

Lemma post_keeps_inv c r body envs n :
  QueueInv.Inv (nd_store n) → QueueInv.Inv (nd_store (run (handlePostMessage c r body) envs n).2).
Proof.
  intros HI. destruct (Moves_run StoreRuns (handlePostMessage c r body) envs n) as [[tr Hs] _ _ _ _ _].
  - apply (moves_mux (H := demoParsers) Sample.verify0 c 0 (PostMessages r body)).
  - by eapply QueueSteps.steps_inv.
Qed.

Lemma enforced_fetch_needs_secret_witness :
  let c := Sample.config true false in
  let n := (Sample.posted c (Sample.envelope (TagForSecret "k1") "s")).2 in
  c_RequireFetchAuth c = true ∧
  ∃ ms n', takes (handleGetMessages c (Sample.fetch "k1")) [(n, Sample.clock Second 0%nat, n')]
             (Reply 200 (BMessages ms)) ∧ length ms = 1%nat ∧
    ∀ m, m ∈ ms → m_RecipientTag m ≠ "" ∧ Exists (opens (m_RecipientTag m)) (secretsOf (Sample.fetch "k1")).
Proof.
  intros c n. assert (c_RequireFetchAuth c = true) as Hc by by vm_compute. split; [exact Hc|].
  assert (match (run (handleGetMessages c (Sample.fetch "k1")) (Sample.clock Second) n).1 with
          | Reply 200 (BMessages [_]) => true | _ => false end = true) as Hok by by vm_compute.
  destruct (queueAuth c (Sample.fetch "k1")) as [auth|] eqn:Ha; [|by vm_compute in Ha].
  pose proof (fetch_visit c "k1" auth (Sample.clock Second) n ltac:(by vm_compute) Ha) as Ht.
  cbv zeta in Ht. clear auth Ha.
  destruct (run (handleGetMessages c (Sample.fetch "k1")) (Sample.clock Second) n) as [resp n'].
  cbn [fst snd] in *. destruct resp as [st b|]; [|discriminate Hok].
  destruct b; repeat case_match; try discriminate Hok.
  eexists _, n'. split; [exact Ht|]. split; [reflexivity|]. intros mail Hmail.
  destruct (enforced_fetch_needs_secret c (Sample.fetch "k1") [(n, Sample.clock Second 0%nat, n')] [m] Hc)
    as (_ & before & n1 & e1 & n1' & _ & Hx); [|exact Ht|].
  { apply Forall_singleton. apply post_keeps_inv, Sample.node_inv. }
  destruct (Hx mail Hmail) as (_ & _ & _ & Htag & Hopen). split; [exact Htag|exact Hopen].
Defined.

(** A poll that asks for no wait at all looks once. *)
Lemma long_poll_ends_witness :
  let r := Sample.http "" (λ _, "0") in
  let e := Sample.clock Second 0%nat in
  let n' := Node.with_attachments (Attachment.sweepLocked (H := list_runtime) (nd_attachments Sample.node) (e_now e)) Sample.node in
  let visits := [(Sample.node, e, Sample.node); (Sample.node, e, n'); (n', e, n')] in
  takes (handleGetAttachmentChunks (Sample.config false false) 0 r) visits (Reply 200 (BChunks [])) ∧
  ∃ k, Z.of_nat k * tick < tick.
Proof.
  intros r e n' visits.
  assert (takes (handleGetAttachmentChunks (Sample.config false false) 0 r) visits (Reply 200 (BChunks []))) as Ht
    by (split_and!; [reflexivity..|by vm_compute]).
  split; [exact Ht|].
  destruct (long_poll_ends (Sample.config false false) 0 r visits (Reply 200 (BChunks []))) as (_ & k & Hk & _).
  - by vm_compute.
  - intros gate g n1 e1 n1' polls Ha Heq k v Hv.
    destruct gate as [|v1 gate]; [|apply takes_admit in Ha as [(_ & _ & _ & ?)|(Hne & _)]; [done|by vm_compute in Hne]].
    injection Heq as <- <- <- <-. destruct k as [|k]; cbn in Hv; [injection Hv as <-; by vm_compute|].
    replace (k + S (k + 0) + 1)%nat with (S (S (2 * k))) in Hv by lia. done.
  - exact Ht.
  - exists k. exact Hk.
Defined.

(** An enforcing relay refuses an envelope with no tag because nobody could ever fetch it, but
    it looks at the tag before it is trimmed: a blank one passes, the post is accepted, and
    the message is stored untagged, so that no fetch of this relay returns it. *)
Lemma blank_tag_is_a_black_hole :
  let c := Sample.config true false in
  let '(resp, n) := Sample.posted c (Sample.envelope " " " ") in
  (match resp with Reply 202 (BPosted false _) => true | _ => false end = true) ∧
  (m_RecipientTag <$> messages (nd_store n) !! "m1") = Some "".
Proof. by vm_compute. Qed.
