(* ===== verification/MeshProps.v ===== *)
(** * The mesh syncer: what a pull does

    Against any peer, a pull asks for at most twenty pages and leaves the cursors of the other
    peers alone ([sync_contained]); against a relay that runs this code it catches up
    ([sync_catches_up]). *)

From Stdlib Require Import Strings.String.
From S2P Require Import Prelude Strconv GoDuration Model Config ConfigProps Peer Capability.
From S2P Require Import QueueStore QueueInv QueueSpec QueueSteps QueueProps QueueCursor.
From S2P Require Import Presence Admission Node Server Mesh NodeProps.

Open Scope Z_scope.

(** ** The request and the answer *)

Lemma FormatUint_empty n : 0 ≤ n < 2 ^ 64 → is_empty (FormatUint n) = false.
Proof. intros Hn. apply bool_decide_eq_false. by apply FormatUint_nonempty. Qed.

(** [bytes] is the length of a page as the peer's [encoding/json] writes it. *)
Section parsers.
Context `{!NetParsers} (bytes : SyncPayload → Z).

(** A peering url that names a host and sets no cursor of its own. *)
Definition plainPeer (peerURL : string) : Prop :=
  ∃ u, urlParse (TrimRightSlash peerURL) = Some u ∧ u_Host u ≠ "" ∧ u_Query u "since" = "".

(** What a peer reads from the query is what the puller wrote. *)
Lemma snapshotURL_read peerURL since :
  plainPeer peerURL → 0 ≤ since < 2 ^ 64 →
  ∃ query, snapshotURL peerURL since = inr query ∧
    ∀ h, parseSince (mkHttp h query) = Some since ∧ parseLimit (mkHttp h query) 500 = pageSize.
Proof.
  intros (u & Hu & Hh & Hq) Hs. unfold snapshotURL. rewrite Hu. unfold is_empty.
  rewrite bool_decide_eq_false_2 by done. eexists. split; [reflexivity|]. intros h. split.
  - unfold parseSince. simpl. destruct (Z.ltb_spec 0 since) as [Hlt|Hle].
    + simpl. rewrite FormatUint_empty by done. by apply ParseUint_FormatUint.
    + assert (since = 0) as -> by lia. simpl. rewrite Hq. done.
  - unfold parseLimit. simpl. rewrite andb_false_r. by vm_compute.
Qed.

(** The answer of a relay under [cp] that runs this code, as a puller under [c] reads it: a
    page longer than the puller's ceiling is cut off. *)
Definition served (c cp : Config) (n : Node) (envs : nat → Env) (r : Http) : NetAnswer :=
  match (run (handleMeshSnapshot cp r) envs n).1 with
  | Reply status (BSnapshot payload) =>
      NetReply status (if maxSnapshotBytes c <? bytes payload then PageTooLarge else Page payload)
  | Reply status _ => NetReply status PageMalformed
  | NoReply => NetFailed
  end.

(** The page such a relay answers a pull from that cursor with fits under the ceiling. *)
Definition pageFits (c cp : Config) (peerURL : string) (n : Node) (envs : nat → Env) (since : Z) : Prop :=
  ∀ query, snapshotURL peerURL since = inr query →
  match (run (handleMeshSnapshot cp (mkHttp (requestHeader c) query)) envs n).1 with
  | Reply _ (BSnapshot payload) => bytes payload ≤ maxSnapshotBytes c
  | _ => True
  end.

(** A page of it is the page of its queue. *)
Lemma fetch_served c cp peerURL since n envs :
  plainPeer peerURL → MeshEnabled c = true → c_MeshSecret cp = c_MeshSecret c → 0 ≤ since < 2 ^ 64 →
  pageFits c cp peerURL n envs since →
  ∃ payload, fetchSnapshot c (served c cp n envs) peerURL since = inr payload ∧
    let p := (SnapshotSince (H := e_rt (envs 0%nat)) (nd_store n) (e_now (envs 0%nat)) since pageSize).1 in
    y_Epoch payload = y_Epoch p ∧ y_NextSeq payload = y_NextSeq p ∧ y_More payload = y_More p ∧
    y_Messages payload = y_Messages p ∧ y_Acks payload = y_Acks p ∧ y_Purges payload = y_Purges p.
Proof.
  intros Hpeer Hm Hsec Hs Hfits. destruct (snapshotURL_read peerURL since Hpeer Hs) as (qry & Hq & Hread).
  specialize (Hfits qry Hq). revert Hfits.
  unfold fetchSnapshot. rewrite Hq. unfold served, handleMeshSnapshot, isTrustedPeer.
  assert (MeshEnabled cp = true) as -> by (unfold MeshEnabled in *; by rewrite Hsec).
  cbn [negb header query]. rewrite bool_decide_eq_true_2.
  2:{ unfold requestHeader. by rewrite bool_decide_eq_true_2 by done. }
  cbn [negb]. destruct (Hread (requestHeader c)) as [-> Hlim].
  cbn [run onStore onPresence mbind Prog_bind]. rewrite Hlim.
  destruct (SnapshotSince _ _ _ _) as [p s'] eqn:Hp. cbn [run].
  destruct (Presence.Snapshot _ _) as [pr s1]. cbn [run].
  destruct (Revocations _ _) as [rv s2]. cbn [run mret Prog_ret fst]. intros Hfits%Z.ltb_ge.
  rewrite Hfits. eexists. split; [reflexivity|]. done.
Qed.

(** ** Importing a page *)

(** The queue and the cursors are as they were, and the roster. *)
Definition SameQueue (n n' : Node) : Prop := nd_store n' = nd_store n ∧ nd_cursors n' = nd_cursors n.

#[local] Instance SameQueue_preorder : PreOrder SameQueue.
Proof. split; [done|]. intros n1 n2 n3 [Hs Hc] [Hs' Hc']. split; congruence. Qed.

Lemma same_onPresence {X} (f : Env → Presence.Store → X * Presence.Store) : Moves SameQueue (onPresence f).
Proof. split; [|done]. intros e n. by destruct (f e (nd_presence n)). Qed.

Lemma importPresence_same vs : Moves SameQueue (importPresence vs).
Proof.
  induction vs as [|v vs IH]; cbn [importPresence]; [done|].
  apply Moves_bind; [apply same_onPresence|done].
Qed.

Lemma importPage_run payload envs n :
  ∃ imported n', run (importPage payload) envs n = (imported, n') ∧
    nd_store n' = (ImportSnapshot (H := e_rt (envs 0%nat)) (nd_store n) (e_now (envs 0%nat)) payload).2 ∧
    nd_cursors n' = nd_cursors n.
Proof.
  unfold importPage. rewrite run_bind. cbn [run onStore].
  destruct (ImportSnapshot _ _ _) as [imported s'] eqn:Hi. simpl.
  set (rest := λ i, envs _). set (n1 := with_store s' n).
  assert (Moves SameQueue (_ ← importPresence (y_Presence payload);
    _ ← onPresence (λ e s, ((), ImportRevocations (H := e_rt e) s (e_now e) (y_PresenceRevocations payload)));
    mret imported)) as Hm.
  { apply Moves_bind; [apply importPresence_same|]. intros ?. apply Moves_bind; [apply same_onPresence|done]. }
  pose proof (Moves_run SameQueue _ rest n1 Hm) as [Hs Hc].
  destruct (run _ rest n1) as [x n'] eqn:Hr. exists x, n'. done.
Qed.
(** ** The loop against a relay that runs this code *)

Definition cursorAt (n : Node) (peerURL : string) : cursor := default zeroCursor (nd_cursors n !! peerURL).

Lemma run_cursorFor peerURL envs n : run (cursorFor peerURL) envs n = (cursorAt n peerURL, n).
Proof. unfold cursorFor, onCursors. cbn. by destruct n. Qed.

Lemma run_setCursor peerURL value envs n :
  run (setCursor peerURL value) envs n = ((), with_cursors (<[peerURL := value]> (nd_cursors n)) n).
Proof. done. Qed.

Lemma cursorAt_set n n1 peerURL value :
  nd_cursors n1 = <[peerURL := value]> (nd_cursors n) → cursorAt n1 peerURL = value.
Proof. intros Hc. unfold cursorAt. by rewrite Hc, lookup_insert_eq. Qed.

Definition importsOnly (tr : list (Op * QueueSteps.Response)) : Prop :=
  Forall (λ x, ∃ now p, x.1 = OImport now p) tr.

Definition offeredMessage (tr : list (Op * QueueSteps.Response)) (m : MessageEnvelope) : Prop :=
  Exists (λ x, ∃ now p, x.1 = OImport now p ∧ m ∈ y_Messages p) tr.

Definition offeredAck (tr : list (Op * QueueSteps.Response)) (a : AckRecord) : Prop :=
  Exists (λ x, ∃ now p, x.1 = OImport now p ∧ a ∈ y_Acks p) tr.

(** An import, and a run after it. *)
Lemma import_cons (rt : GoRuntime) s now payload tr s' :
  QueueSteps.steps (ImportSnapshot s now payload).2 tr s' →
  ∃ resp, QueueSteps.steps s ((OImport now payload, resp) :: tr) s'.
Proof.
  intros Hst. eexists. apply (QueueSteps.steps_cons rt). cbn [QueueSteps.exec].
  by destruct (ImportSnapshot s now payload).
Qed.

Lemma importsOnly_cons now payload resp tr : importsOnly tr → importsOnly ((OImport now payload, resp) :: tr).
Proof. constructor; eauto. Qed.

Section honest.
Context (c cp : Config) (peerURL E : string) (peer : nat → Node) (peerEnvs : nat → nat → Env).

(** The peer at its i-th answer: a queue that numbers its records, under one epoch. *)
Definition honestPeer : Prop :=
  ∀ i, QueueInv.Inv (nd_store (peer i)) ∧ numbered (2 ^ 64 - 1) (abs (nd_store (peer i))) ∧
       epoch (nd_store (peer i)) = E.

(** A record that is there, live and under its number, at every answer. *)
Definition staysMessage (m : MessageEnvelope) (k : Z) : Prop :=
  ∃ id, ∀ i, messages (nd_store (peer i)) !! id = Some m ∧ messageSeq (nd_store (peer i)) !! id = Some k ∧
             e_now (peerEnvs i 0%nat) < m_ExpiresAt m.

Definition staysAck (a : AckRecord) (k : Z) : Prop :=
  ∃ id, ∀ i, acks (nd_store (peer i)) !! id = Some a ∧ ackSeq (nd_store (peer i)) !! id = Some k ∧
             e_now (peerEnvs i 0%nat) < a_ExpiresAt a.

Definition peerNet (i : nat) : Http → NetAnswer := served c cp (peer i) (peerEnvs i).

Definition pagesFit : Prop :=
  ∀ i since, 0 ≤ since < 2 ^ 64 → pageFits c cp peerURL (peer i) (peerEnvs i) since.

(** What a page of it says is what its queue has. *)
Definition pageOf (i : nat) (p : SyncPayload) : Prop :=
  (∀ m, m ∈ y_Messages p → ∃ k, messages (nd_store (peer i)) !! k = Some m) ∧
  (∀ a, a ∈ y_Acks p → ∃ k, acks (nd_store (peer i)) !! k = Some a) ∧
  (∀ q, q ∈ y_Purges p → ∃ k, purges (nd_store (peer i)) !! k = Some q).

(** A run made of imports of its pages, at times that satisfy [T]. *)
Definition pagesOnly (T : Time → Prop) (tr : list (Op * QueueSteps.Response)) : Prop :=
  Forall (λ x, ∃ now p i, x.1 = OImport now p ∧ T now ∧ pageOf i p) tr.

Lemma pagesOnly_cons (T : Time → Prop) i now payload resp tr :
  T now → pageOf i payload → pagesOnly T tr → pagesOnly T ((OImport now payload, resp) :: tr).
Proof. constructor; [|done]. exists now, payload, i. done. Qed.

Lemma pagesOnly_imports T tr : pagesOnly T tr → importsOnly tr.
Proof. intros Htr. eapply Forall_impl; [exact Htr|]. intros [o resp] (now & p & _ & Ho & _). cbn in *. eauto. Qed.

Context (Hpeer : plainPeer peerURL) (Hmesh : MeshEnabled c = true)
        (Hsecret : c_MeshSecret cp = c_MeshSecret c) (Hhonest : honestPeer) (Hfits : pagesFit).

(** One page of it, from a cursor. *)
Lemma honest_page i since :
  0 ≤ since < 2 ^ 64 →
  ∃ payload, fetchSnapshot c (peerNet i) peerURL since = inr payload ∧
    pageOf i payload ∧ y_Epoch payload = E ∧ since ≤ y_NextSeq payload < 2 ^ 64 ∧
    (y_More payload = true → since + pageSize ≤ y_NextSeq payload) ∧
    (∀ m k, staysMessage m k → since < k → k ≤ y_NextSeq payload ∨ y_More payload = false →
            m ∈ y_Messages payload) ∧
    (∀ a k, staysAck a k → since < k → k ≤ y_NextSeq payload ∨ y_More payload = false →
            a ∈ y_Acks payload) ∧
    (y_More payload = false → (∀ m k, staysMessage m k → since < k → k ≤ y_NextSeq payload) ∧
                              (∀ a k, staysAck a k → since < k → k ≤ y_NextSeq payload)).
Proof.
  intros Hs. destruct (fetch_served c cp peerURL since (peer i) (peerEnvs i) Hpeer Hmesh Hsecret Hs (Hfits i since Hs))
    as (payload & Hf & Hp). exists payload. split; [exact Hf|]. cbv zeta in Hp.
  destruct (Hhonest i) as (HI & Hn & He).
  pose proof (page_exact (H := e_rt (peerEnvs i 0%nat)) _ (nd_store (peer i)) (e_now (peerEnvs i 0%nat))
    since pageSize HI Hn) as Hx.
  pose proof (λ q, page_purges (H := e_rt (peerEnvs i 0%nat)) (nd_store (peer i)) (e_now (peerEnvs i 0%nat))
    since pageSize q HI) as Hpur.
  destruct (SnapshotSince _ _ _ _) as [p s']. cbn [fst] in Hp, Hpur.
  destruct Hp as (-> & -> & -> & Hms & Hks & Hqs).
  destruct Hx as (Hm & Ha & _ & Hall & [Hlo Hhi] & -> & Hfull).
  split.
  { unfold pageOf. rewrite Hms, Hks, Hqs. split_and!; [| |done].
    - intros m (k & ? & ? & _)%Hm. by exists k.
    - intros a (k & ? & ? & _)%Ha. by exists k. }
  rewrite Hms, Hks.
  destruct Hn as ([_ Hseq] & _). change (R_seq (abs (nd_store (peer i)))) with (storeSeq (nd_store (peer i))) in Hseq.
  split; [done|]. split; [lia|]. split; [exact Hfull|].
  assert (∀ m k, staysMessage m k → since < k → k ≤ y_NextSeq p ∨ y_More p = false → m ∈ y_Messages p) as H1.
  { intros m k (id & Hid) Hk. destruct (Hid i) as (? & ? & ?). intros [Hle|Hmore]; [apply Hm; eauto 10|].
    destruct (Hall Hmore) as [Hx _]. by eapply Hx. }
  assert (∀ a k, staysAck a k → since < k → k ≤ y_NextSeq p ∨ y_More p = false → a ∈ y_Acks p) as H2.
  { intros a k (id & Hid) Hk. destruct (Hid i) as (? & ? & ?). intros [Hle|Hmore]; [apply Ha; eauto 10|].
    destruct (Hall Hmore) as [_ Hx]. by eapply Hx. }
  split; [exact H1|]. split; [exact H2|]. intros Hmore. destruct (Hhonest i) as (_ & (_ & _ & Hinj) & _).
  split.
  - intros m k Hst Hk. pose proof (H1 m k Hst Hk (or_intror Hmore)) as Hin.
    destruct Hst as (id & Hid). destruct (Hid i) as (Hid1 & Hid2 & _).
    apply Hm in Hin as (id' & k' & Hid1' & _ & Hid2' & Hk').
    assert (id' = id) as ->.
    { pose proof (QueueInv.inv_message_ids _ HI _ _ Hid1) as [<- _].
      by pose proof (QueueInv.inv_message_ids _ HI _ _ Hid1') as [<- _]. }
    assert (k' = k) as -> by congruence. lia.
  - intros a k Hst Hk. pose proof (H2 a k Hst Hk (or_intror Hmore)) as Hin.
    destruct Hst as (id & Hid). destruct (Hid i) as (Hid1 & Hid2 & _).
    apply Ha in Hin as (id' & k' & Hid1' & _ & Hid2' & Hk').
    assert (id' = id) as ->.
    { pose proof (QueueInv.inv_ack_ids _ HI _ _ Hid1) as [<- _].
      by pose proof (QueueInv.inv_ack_ids _ HI _ _ Hid1') as [<- _]. }
    assert (k' = k) as -> by congruence. lia.
Qed.

Lemma stays_numbered i k :
  (∃ m, staysMessage m k) ∨ (∃ a, staysAck a k) → k ≤ storeSeq (nd_store (peer i)).
Proof.
  destruct (Hhonest i) as (_ & (_ & Hr & _) & _).
  intros [(m & id & Hid)|(a & id & Hid)]; destruct (Hid i) as (_ & Hk & _).
  - by apply (Hr (false, id) k).
  - by apply (Hr (true, id) k).
Qed.

Lemma honest_loop (T : Time → Prop) pages id res envs n s :
  (∀ i, T (e_now (envs i))) →
  cu_seq (cursorAt n peerURL) = s → 0 ≤ s < 2 ^ 64 →
  cu_epoch (cursorAt n peerURL) = E ∨ s = 0 →
  (∀ i, storeSeq (nd_store (peer i)) ≤ s + pageSize * Z.of_nat pages) →
  ∃ res' n' tr, run (syncPages c peerNet peerURL pages id res) envs n = ((res', None), n') ∧
    QueueSteps.steps (nd_store n) tr (nd_store n') ∧ pagesOnly T tr ∧
    s ≤ cu_seq (cursorAt n' peerURL) ∧
    (∀ m k, staysMessage m k → s < k → offeredMessage tr m ∧ k ≤ cu_seq (cursorAt n' peerURL)) ∧
    (∀ a k, staysAck a k → s < k → offeredAck tr a ∧ k ≤ cu_seq (cursorAt n' peerURL)).
Proof.
  revert id res envs n s. induction pages as [|pages IH]; intros id res envs n s HT Hcur Hs Hepoch Hseq.
  { eexists res, _, []. split; [reflexivity|]. cbn [nd_store with_pool]. split; [constructor|].
    split; [by apply Forall_nil|]. unfold cursorAt in *. cbn [nd_cursors with_pool]. split; [lia|].
    specialize (Hseq 0%nat).
    split; intros x k Hst Hk; (assert (k ≤ storeSeq (nd_store (peer 0%nat))) by (apply stays_numbered; eauto); lia). }
  cbn [syncPages]. rewrite run_bind, run_cursorFor. cbv zeta.
  set (envs1 := λ i, envs _). assert (∀ i, T (e_now (envs1 i))) as HT1 by (intros; apply HT).
  clearbody envs1. rewrite Hcur.
  destruct (honest_page (pagesPerSync - S pages) s Hs)
    as (payload & -> & Hpage & He & Hns & Hfull & Hmsgs & Hacks & Hlast).
  rewrite He.
  assert (negb (bool_decide (E = cu_epoch (cursorAt n peerURL))) && negb (is_empty (cu_epoch (cursorAt n peerURL)))
          && negb (s =? 0) = false) as ->.
  { destruct Hepoch as [<-| ->]; [by rewrite bool_decide_eq_true_2|by rewrite andb_false_r]. }
  rewrite run_bind. destruct (importPage_run payload envs1 n) as (imported & n1 & -> & Hstore & Hc1).
  set (envs2 := λ i, envs1 _). assert (∀ i, T (e_now (envs2 i))) as HT2 by (intros; apply HT1).
  clearbody envs2. set (res1 := mkPeerSyncResult _ _ _ _ _ _). clearbody res1.
  rewrite (proj2 (Z.leb_le s (y_NextSeq payload))) by lia. rewrite run_bind, run_setCursor. cbv zeta.
  set (envs3 := λ i, envs2 _). assert (∀ i, T (e_now (envs3 i))) as HT3 by (intros; apply HT2).
  clearbody envs3. set (n2 := with_cursors _ n1).
  assert (cursorAt n2 peerURL = mkCursor E (y_NextSeq payload)) as Hcur2 by by apply cursorAt_set with n1.
  specialize (HT1 0%nat). set (now := e_now (envs1 0%nat)) in *.
  assert (∀ tr s', QueueSteps.steps (nd_store n2) tr s' →
    ∃ resp, QueueSteps.steps (nd_store n) ((OImport now payload, resp) :: tr) s') as Hcons.
  { intros tr s'. change (nd_store n2) with (nd_store n1). rewrite Hstore. apply import_cons. }
  destruct (y_More payload) eqn:Hmore; cbn [negb].
  - specialize (Hfull eq_refl). unfold pageSize in Hfull.
    rewrite (proj2 (Z.leb_gt (y_NextSeq payload) s)) by lia.
    destruct (IH (y_NodeID payload) res1 envs3 n2 (y_NextSeq payload))
      as (res' & n' & tr & Hrun & Hst & Himp & Hle & Hm & Ha); [done|by rewrite Hcur2|lia|by rewrite Hcur2; left| |].
    { intros i. specialize (Hseq i). unfold pageSize in *. lia. }
    destruct (Hcons tr _ Hst) as [resp Hst']. exists res', n', ((OImport now payload, resp) :: tr).
    split; [exact Hrun|]. split; [exact Hst'|]. split; [by eapply pagesOnly_cons|]. split; [lia|].
    split.
    + intros m k Hstay Hk. destruct (decide (k ≤ y_NextSeq payload)) as [Hle'|Hgt].
      * split; [|lia]. apply Exists_cons_hd. exists now, payload. split; [done|]. by eapply Hmsgs; eauto.
      * destruct (Hm m k Hstay ltac:(lia)) as [Ho ?]. split; [by apply Exists_cons_tl|done].
    + intros a k Hstay Hk. destruct (decide (k ≤ y_NextSeq payload)) as [Hle'|Hgt].
      * split; [|lia]. apply Exists_cons_hd. exists now, payload. split; [done|]. by eapply Hacks; eauto.
      * destruct (Ha a k Hstay ltac:(lia)) as [Ho ?]. split; [by apply Exists_cons_tl|done].
  - destruct (Hcons [] (nd_store n2) ltac:(constructor)) as [resp Hst'].
    eexists res1, _, [(OImport now payload, resp)]. split; [reflexivity|]. split; [exact Hst'|].
    split; [by eapply pagesOnly_cons; [..|by apply Forall_nil]|].
    change (cursorAt (with_pool _ n2) peerURL) with (cursorAt n2 peerURL). rewrite Hcur2. cbn [cu_seq].
    destruct (Hlast eq_refl) as [Hlm Hla]. split; [lia|]. split.
    + intros m k Hstay Hk. split; [|by eapply Hlm]. apply Exists_cons_hd. exists now, payload.
      split; [done|]. eapply Hmsgs; eauto.
    + intros a k Hstay Hk. split; [|by eapply Hla]. apply Exists_cons_hd. exists now, payload.
      split; [done|]. eapply Hacks; eauto.
Qed.

(** The peer has restarted since the cursor was kept: its queue has another epoch. *)
Definition restarted (old : cursor) : bool :=
  negb (bool_decide (E = cu_epoch old)) && negb (is_empty (cu_epoch old)) && negb (cu_seq old =? 0).

(** Where a pull begins to read, and how far twenty requests get: one of them is spent on
    noticing a restart. *)
Definition resumesAt (old : cursor) : Z := if restarted old then 0 else cu_seq old.
Definition reach (old : cursor) : Z := if restarted old then 9500 else 10000.

Lemma honest_restart pages id res envs n :
  restarted (cursorAt n peerURL) = true → 0 ≤ cu_seq (cursorAt n peerURL) < 2 ^ 64 →
  ∃ id' res' envs', (∀ i, ∃ j, envs' i = envs j) ∧
    run (syncPages c peerNet peerURL (S pages) id res) envs n =
    run (syncPages c peerNet peerURL pages id' res') envs'
      (with_cursors (<[peerURL := mkCursor E 0]> (nd_cursors n)) n).
Proof.
  intros Hre Hold. cbn [syncPages]. rewrite run_bind, run_cursorFor. cbv zeta.
  destruct (honest_page (pagesPerSync - S pages) _ Hold) as (payload & -> & _ & -> & _).
  unfold restarted in Hre. rewrite Hre, run_bind, run_setCursor. cbv zeta.
  eexists _, _, _. split; [|reflexivity]. intros i. eexists. reflexivity.
Qed.

Lemma honest_pull (T : Time → Prop) envs n :
  let old := cursorAt n peerURL in
  (∀ i, T (e_now (envs i))) → 0 ≤ cu_seq old < 2 ^ 64 →
  cu_epoch old = E ∨ cu_epoch old ≠ "" ∨ cu_seq old = 0 →
  (∀ i, storeSeq (nd_store (peer i)) ≤ resumesAt old + reach old) →
  ∃ res' n' tr, run (SyncPeer c peerNet peerURL) envs n = ((res', None), n') ∧
    QueueSteps.steps (nd_store n) tr (nd_store n') ∧ pagesOnly T tr ∧
    resumesAt old ≤ cu_seq (cursorAt n' peerURL) ∧
    (∀ m k, staysMessage m k → resumesAt old < k → offeredMessage tr m ∧ k ≤ cu_seq (cursorAt n' peerURL)) ∧
    (∀ a k, staysAck a k → resumesAt old < k → offeredAck tr a ∧ k ≤ cu_seq (cursorAt n' peerURL)).
Proof.
  intros old HT Hold Hepoch Hseq. unfold resumesAt, reach, SyncPeer in *. destruct (restarted old) eqn:Hre.
  - destruct (honest_restart 19 "" (mkPeerSyncResult peerURL 0 0 0 0 0) envs n Hre Hold)
      as (id & res & envs' & Henvs & Hrun).
    change pagesPerSync with 20%nat. rewrite Hrun. set (n1 := with_cursors _ n).
    assert (cursorAt n1 peerURL = mkCursor E 0) as Hcur by by apply cursorAt_set with n.
    apply (honest_loop T 19 id res envs' n1 0); [|by rewrite Hcur|done|by right|].
    + intros i. destruct (Henvs i) as [j ->]. apply HT.
    + intros i. specialize (Hseq i). unfold pageSize. lia.
  - apply (honest_loop T pagesPerSync "" _ envs n (cu_seq old) HT eq_refl Hold).
    + unfold restarted in Hre. fold old. unfold is_empty in Hre.
      destruct (decide (E = cu_epoch old)); [by left|]. rewrite bool_decide_eq_false_2 in Hre by done. right.
      destruct (decide (cu_epoch old = "")); [naive_solver|]. rewrite bool_decide_eq_false_2 in Hre by done.
      cbn in Hre. apply negb_false_iff, Z.eqb_eq in Hre. done.
    + intros i. specialize (Hseq i). unfold pageSize, pagesPerSync. lia.
Qed.
End honest.

(** A peer whose queue is a run of this code, few enough records ago for its numbers, is honest. *)
Definition runsHere (E : string) (peer : nat → Node) : Prop :=
  ∀ i, ∃ cfg e tr, MaxMessages cfg < 2 ^ 62 ∧
    QueueSteps.steps (QueueStore.NewStore cfg e) tr (nd_store (peer i)) ∧ run_inserts tr < 2 ^ 64 ∧
    epoch (nd_store (peer i)) = E.

Lemma runsHere_honest E peer : runsHere E peer → honestPeer E peer.
Proof.
  intros Hruns i. destruct (Hruns i) as (cfg & e & tr & Hm & Hst & Hins & He).
  split; [eapply steps_inv; [done|by apply NewStore_inv]|]. split; [|done].
  eapply numbered_mono; [|eapply numbered_steps; [done|by apply NewStore_inv| |apply numbered_new]]; lia.
Qed.

(** A pull catches up. When the peer runs this code under the same pool secret, has handed
    out at most ten thousand numbers past the cursor, or 9500 since it restarted, serves pages
    that fit under the puller's ceiling, and keeps serving and storing as it likes meanwhile,
    then one pull succeeds, does nothing to the
    local queue but imports, and every message and ack that was on the peer all along and lies
    past the old cursor, or anywhere in the queue of a peer that has restarted, has been
    offered for import and lies within the new cursor. *)
Theorem sync_catches_up c cp peerURL E peer peerEnvs envs n :
  plainPeer peerURL → MeshEnabled c = true → c_MeshSecret cp = c_MeshSecret c → runsHere E peer →
  pagesFit c cp peerURL peer peerEnvs →
  let old := cursorAt n peerURL in
  let from := resumesAt E old in
  0 ≤ cu_seq old < 2 ^ 64 → cu_epoch old = E ∨ cu_epoch old ≠ "" ∨ cu_seq old = 0 →
  (∀ i, storeSeq (nd_store (peer i)) ≤ from + reach E old) →
  let '((_, err), n') := run (SyncPeer c (peerNet c cp peer peerEnvs) peerURL) envs n in
  let new := cursorAt n' peerURL in
  err = None ∧ from ≤ cu_seq new ∧
  ∃ tr, QueueSteps.steps (nd_store n) tr (nd_store n') ∧ importsOnly tr ∧
    (∀ m k, staysMessage peer peerEnvs m k → from < k → offeredMessage tr m ∧ k ≤ cu_seq new) ∧
    (∀ a k, staysAck peer peerEnvs a k → from < k → offeredAck tr a ∧ k ≤ cu_seq new).
Proof.
  intros Hpeer Hmesh Hsec Hhonest%runsHere_honest Hfits old from Hold Hepoch Hseq.
  destruct (honest_pull c cp peerURL E peer peerEnvs Hpeer Hmesh Hsec Hhonest Hfits (λ _, True) envs n
    (λ _, I) Hold Hepoch Hseq) as (res' & n' & tr & Hrun & Hst & Himp & Hle & Hm & Ha).
  rewrite Hrun. split; [done|]. split; [exact Hle|]. exists tr. split; [exact Hst|].
  split; [by eapply pagesOnly_imports|]. done.
Qed.

(** A page past the ceiling stops a pull before anything is imported and leaves the node as it
    was, the cursor included: the next pull asks for the same page. *)
Lemma failed_page c net peerURL pages id res envs n err :
  fetchSnapshot c (net (pagesPerSync - S pages)%nat) peerURL (cu_seq (cursorAt n peerURL)) = inl err →
  run (syncPages c net peerURL (S pages) id res) envs n = ((res, Some err), n).
Proof. intros Hf. cbn [syncPages]. rewrite run_bind, run_cursorFor. by rewrite Hf. Qed.

Lemma oversized_page_stops c cp peerURL peer peerEnvs envs n query payload :
  snapshotURL peerURL (cu_seq (cursorAt n peerURL)) = inr query →
  (run (handleMeshSnapshot cp (mkHttp (requestHeader c) query)) (peerEnvs 0%nat) (peer 0%nat)).1
    = Reply 200 (BSnapshot payload) →
  maxSnapshotBytes c < bytes payload →
  run (SyncPeer c (peerNet c cp peer peerEnvs) peerURL) envs n =
    ((mkPeerSyncResult peerURL 0 0 0 0 0, Some (SnapshotTooLarge (maxSnapshotBytes c))), n).
Proof.
  intros Hq Hr Hlen. unfold SyncPeer. change pagesPerSync with (S 19). apply failed_page.
  change (pagesPerSync - S 19)%nat with 0%nat. unfold fetchSnapshot, peerNet, served. rewrite Hq, Hr.
  by rewrite (proj2 (Z.ltb_lt _ _) Hlen).
Qed.

(** ** Any peer *)

(** What a pull leaves alone. *)
Definition Contained (n n' : Node) : Prop :=
  nd_attachments n' = nd_attachments n ∧ nd_prekeys n' = nd_prekeys n ∧
  nd_admissions n' = nd_admissions n ∧ nd_sessions n' = nd_sessions n.

#[local] Instance Contained_preorder : PreOrder Contained.
Proof. split; [done|]. intros n1 n2 n3 (?&?&?&?) (?&?&?&?). split_and!; congruence. Qed.

Definition PresenceOnly (n n' : Node) : Prop :=
  ∃ s, n' = with_presence s n.

#[local] Instance PresenceOnly_preorder : PreOrder PresenceOnly.
Proof.
  split; [intros n; exists (nd_presence n); by destruct n|].
  intros n1 n2 n3 [s1 ->] [s2 ->]. by exists s2.
Qed.

Lemma only_onPresence {X} (f : Env → Presence.Store → X * Presence.Store) : Moves PresenceOnly (onPresence f).
Proof. split; [|done]. intros e n. destruct (f e (nd_presence n)) as [x s]. by exists s. Qed.

Lemma importPage_frame payload envs n :
  ∃ imported s, run (importPage payload) envs n =
    (imported, with_presence s (with_store (ImportSnapshot (H := e_rt (envs 0%nat)) (nd_store n)
                                  (e_now (envs 0%nat)) payload).2 n)).
Proof.
  unfold importPage. rewrite run_bind. cbn [run onStore].
  destruct (ImportSnapshot _ _ _) as [imported s'] eqn:Hi. simpl. set (rest := λ i, envs _).
  match goal with |- context [run ?p rest ?n1] => assert (Moves PresenceOnly p) as Hm end.
  { apply Moves_bind; [|intros ?; split; [intros e n0; by eexists|done]].
    induction (y_Presence payload) as [|v vs IH]; cbn [importPresence]; [done|].
    apply Moves_bind; [apply only_onPresence|done]. }
  pose proof (Moves_run PresenceOnly _ rest (with_store s' n) Hm) as [s Hs].
  destruct (run _ rest (with_store s' n)) as [x n'] eqn:Hr. simpl in Hs. subst n'. by exists x, s.
Qed.

Lemma any_loop c net peerURL pages id res envs n :
  let '((res', err), n') := run (syncPages c net peerURL pages id res) envs n in
  ps_Pages res ≤ ps_Pages res' ≤ ps_Pages res + Z.of_nat pages ∧
  (err = None → (0 < pages)%nat → ps_Pages res < ps_Pages res') ∧
  (∀ url, url ≠ peerURL → nd_cursors n' !! url = nd_cursors n !! url) ∧ Contained n n' ∧
  (match err with
   | None => ∃ id now, nd_pool n' = RecordSuccess (nd_pool n) peerURL id now
   | Some _ => nd_pool n' = nd_pool n
   end) ∧
  ∃ tr, QueueSteps.steps (nd_store n) tr (nd_store n') ∧ importsOnly tr ∧
    Z.of_nat (length tr) ≤ ps_Pages res' - ps_Pages res.
Proof.
  revert id res envs n. induction pages as [|pages IH]; intros id res envs n.
  { cbn. split; [lia|]. split; [lia|]. split; [done|]. split; [done|]. split; [eauto|].
    exists []. split; [constructor|]. split; [by apply Forall_nil|]. simpl. lia. }
  cbn [syncPages]. rewrite run_bind, run_cursorFor. cbv zeta. set (cur := cursorAt n peerURL).
  set (envs1 := λ i, envs _). clearbody envs1.
  destruct (fetchSnapshot _ _ _ _) as [err|payload].
  { cbn. split; [lia|]. split; [done|]. split; [done|]. split; [done|]. split; [done|].
    exists []. split; [constructor|]. split; [by apply Forall_nil|]. simpl. lia. }
  set (res1 := mkPeerSyncResult (ps_PeerURL res) (ps_Pages res + 1) _ _ _ _).
  destruct (_ && _ && _).
  { rewrite run_bind, run_setCursor. cbv zeta. set (envs2 := λ i, envs1 _). clearbody envs2.
    set (n1 := with_cursors _ n). specialize (IH (y_NodeID payload) res1 envs2 n1).
    destruct (run _ envs2 n1) as [[res' err] n'].
    destruct IH as (Hp & Hn & Hc & Hk & Hpool & tr & Hst & Himp & Hlen). cbn [ps_Pages res1] in *.
    split; [lia|]. split; [intros; lia|]. split; [|split; [done|split; [done|]]].
    - intros url Hne. rewrite (Hc url Hne). by apply lookup_insert_ne.
    - exists tr. split_and!; [done..|lia]. }
  rewrite run_bind. destruct (importPage_frame payload envs1 n) as (imported & s & ->).
  set (envs2 := λ i, envs1 _). clearbody envs2.
  set (res2 := mkPeerSyncResult (ps_PeerURL res1) (ps_Pages res1) _ _ _ _).
  set (now := e_now (envs1 0%nat)). set (rt := e_rt (envs1 0%nat)).
  set (n1 := with_presence s _). rewrite run_bind.
  assert (∃ n2, run (if cu_seq cur <=? y_NextSeq payload
      then setCursor peerURL (mkCursor (y_Epoch payload) (y_NextSeq payload)) else mret ()) envs2 n1 = ((), n2) ∧
    (∀ url, url ≠ peerURL → nd_cursors n2 !! url = nd_cursors n !! url) ∧ Contained n n2 ∧
    nd_pool n2 = nd_pool n ∧ nd_store n2 = nd_store n1) as (n2 & -> & Hc2 & Hk2 & Hp2 & Hs2).
  { destruct (_ <=? _); eexists; (split; [reflexivity|]); split_and!; try done.
    intros url Hne. by apply lookup_insert_ne. }
  set (envs3 := λ i, envs2 _). clearbody envs3.
  assert (∀ tr s', QueueSteps.steps (nd_store n2) tr s' →
    ∃ resp, QueueSteps.steps (nd_store n) ((OImport now payload, resp) :: tr) s') as Hcons.
  { intros tr s'. rewrite Hs2. apply (import_cons rt). }
  destruct (Hcons [] _ ltac:(constructor)) as [resp1 Hst1].
  assert (importsOnly [(OImport now payload, resp1)]) as Himp1 by by apply importsOnly_cons, Forall_nil.
  destruct (negb _).
  { cbn. rewrite Hp2. split; [lia|]. split; [lia|]. split; [done|]. split; [done|]. split; [eauto|].
    exists [(OImport now payload, resp1)]. split_and!; [done..|]. simpl. lia. }
  destruct (_ <=? _).
  { cbn. split; [lia|]. split; [done|]. split; [done|]. split; [done|]. split; [done|].
    exists [(OImport now payload, resp1)]. split_and!; [done..|].
    simpl. lia. }
  specialize (IH (y_NodeID payload) res2 envs3 n2). destruct (run _ envs3 n2) as [[res' err] n'].
  destruct IH as (Hp & Hn & Hc & Hk & Hpool & tr & Hst & Himp & Hlen). cbn [ps_Pages res2 res1] in *.
  rewrite Hp2 in Hpool. split; [lia|]. split; [intros; lia|].
  split; [|split; [by etrans|split; [done|]]].
  - intros url Hne. rewrite (Hc url Hne). by apply Hc2.
  - destruct (Hcons tr _ Hst) as [resp Hst']. exists ((OImport now payload, resp) :: tr).
    split_and!; [done|by apply importsOnly_cons|]. simpl. lia.
Qed.

(** C14: A pull is contained, whatever the peer answers. It asks for at most twenty pages
    and at least one if it succeeds; it does to the queue as many imports as there were pages,
    at most, and nothing else; the attachments, the prekeys, the credentials and the sessions are
    not touched, nor the cursor of another peer; and the pool learns of a success exactly
    when there was no error. *)
Theorem sync_contained c net peerURL envs n :
  let '((res, err), n') := run (SyncPeer c net peerURL) envs n in
  0 ≤ ps_Pages res ≤ 20 ∧ (err = None → 1 ≤ ps_Pages res) ∧
  (∀ url, url ≠ peerURL → nd_cursors n' !! url = nd_cursors n !! url) ∧ Contained n n' ∧
  (match err with
   | None => ∃ id now, nd_pool n' = RecordSuccess (nd_pool n) peerURL id now
   | Some _ => nd_pool n' = nd_pool n
   end) ∧
  ∃ tr, QueueSteps.steps (nd_store n) tr (nd_store n') ∧ importsOnly tr ∧
    Z.of_nat (length tr) ≤ ps_Pages res.
Proof.
  pose proof (any_loop c net peerURL pagesPerSync "" (mkPeerSyncResult peerURL 0 0 0 0 0) envs n) as Hl.
  unfold SyncPeer. destruct (run _ envs n) as [[res err] n']. cbn [ps_Pages] in Hl. unfold pagesPerSync in Hl.
  destruct Hl as (Hp & Hn & Hc & Hk & Hpool & tr & Hst & Himp & Hlen).
  split; [lia|]. split; [intros He; specialize (Hn He ltac:(lia)); lia|]. split; [done|]. split; [done|].
  split; [done|]. exists tr. split_and!; [done..|lia].
Qed.
End parsers.

(** ** An example: a fresh relay pulls two messages *)

#[local] Existing Instance demoParsers.

Module Sample.
Definition e0 : Env := mkEnv list_runtime (λ _, 2000) None [].
Definition url : string := "http://10.0.0.2:9000/".
Definition config : Config :=
  FromEnv (λ key, if bool_decide (key = "DEE_NODE_MESH_SECRET") then "pool" else "").
Definition ops : list Op := [QueueSteps.Sample.post 1000 "m1" "" ""; QueueSteps.Sample.post 1000 "m2" "" ""].
Definition nodeOf (s : QueueStore.Store) : Node :=
  mkNode s (NewPool "me" "http://me" [url] []) (Presence.NewStore 5000 (24 * Hour))
    (Attachment.NewRelay 0 0 0 0 0) (Prekey.NewStore 0 0) Admission.NewStore NewSessions ∅.
Definition peer : Node := nodeOf (QueueSteps.run QueueSteps.Sample.empty ops).2.
Definition puller : Node := nodeOf (QueueStore.NewStore QueueSteps.Sample.config "mine").
(** The pages of these few records are padded to four kilobytes. *)
Definition pageBytes (_ : SyncPayload) : Z := 4096.
Definition pulled : (PeerSyncResult * option SyncError) * Node :=
  run (SyncPeer config (peerNet pageBytes config config (λ _, peer) (λ _ _, e0)) url) (λ _, e0) puller.
End Sample.

Lemma sample_pages_fit peer : pagesFit Sample.pageBytes Sample.config Sample.config Sample.url peer (λ _ _, Sample.e0).
Proof. intros i since _ query _. by repeat case_match. Qed.

Lemma sync_catches_up_witness :
  (cu_seq (cursorAt Sample.pulled.2 Sample.url) = 4 ∧ ps_AcceptedMessages Sample.pulled.1.1 = 2 ∧
   cu_seq (cursorAt Sample.puller Sample.url) ≤ cu_seq (cursorAt Sample.pulled.2 Sample.url)).
Proof.
  split; [by vm_compute|]. split; [by vm_compute|].
  pose proof (sync_catches_up Sample.pageBytes Sample.config Sample.config Sample.url "epoch" (λ _, Sample.peer)
    (λ _ _, Sample.e0) (λ _, Sample.e0) Sample.puller) as Hx.
  unfold Sample.pulled. destruct (run _ _ Sample.puller) as [[res err] n']. apply Hx; clear Hx.
  - eexists. split; [by vm_compute|]. split; by vm_compute.
  - by vm_compute.
  - reflexivity.
  - intros _. exists QueueSteps.Sample.config, "epoch", (QueueSteps.run QueueSteps.Sample.empty Sample.ops).1.
    split; [by vm_compute|]. split; [apply run_steps|]. split; by vm_compute.
  - apply sample_pages_fit.
  - split; by vm_compute.
  - right; right. by vm_compute.
  - intros _. by vm_compute.
Defined.
