(* ===== verification/MeshDelivery.v ===== *)
(** * Delivery across the pool

    What is posted at one relay can be read at another after one pull: [MeshProps.v] shows that
    the pull offers it, and [QueueImport.v] that an offer is taken. And what was acknowledged at
    one is withdrawn at the other ([QueueWithdraw.v]). *)

From Stdlib Require Import Strings.String.
From S2P Require Import Prelude Strconv GoDuration Model Config ConfigProps Peer Capability.
From S2P Require Import QueueStore QueueInv QueueSpec QueueSteps QueueProps QueueCursor QueueImport QueueOwner QueueWithdraw.
From S2P Require Import Presence Admission Node Server Mesh NodeProps MeshProps.

Open Scope Z_scope.

(** A relay knows that a message is gone: its owner's tombstone, or a terminal ack of it. *)
Definition withdrawn (s : QueueStore.Store) (m : MessageEnvelope) : Prop :=
  (purgeHashOf m ≠ ""%string ∧ ∃ k q, purges s !! k = Some q ∧ (k = purgeHashOf m ∨ p_PurgeHash q = purgeHashOf m)) ∨
  (∃ k a, acks s !! k = Some a ∧ deletesQueuedMessage (a_Type a) = true ∧
     (a_MessageID a = TrimSpace (m_ID m) ∨ TrimSpace (a_MessageID a) = TrimSpace (m_ID m))).

(** A relay takes the message when it is offered at that time. *)
Definition acceptable (s : QueueStore.Store) (m : MessageEnvelope) (now : Time) : Prop :=
  ∃ m', checkEnvelope (cfg s) now (Add now (MaxTTL (cfg s))) (trimImportedEnvelope m) = inr m'.

(** A reader of the queue who may open the message's tag gets it while it lives, when the
    answer is not cut off at the limit. *)
Definition readable (s : QueueStore.Store) (m : MessageEnvelope) : Prop :=
  ∀ (rt : GoRuntime) now limit auth,
    now < m_ExpiresAt m → permits auth (m_RecipientTag m) = true →
    let out := (MessagesForRecipient s now (m_Recipient m) limit auth).1 in
    Z.of_nat (length out) < limitOr 100 limit → m ∈ out.

Lemma held_readable s id e m :
  QueueInv.Inv s → messages s !! id = Some m → sameMail e m → readable s m.
Proof.
  intros HI Hm (_ & _ & Hr & Hne & _) rt now limit auth Hlive Hperm.
  assert (TrimSpace (m_Recipient m) = m_Recipient m) as Ht by (rewrite Hr; apply TrimSpace_idemp).
  eapply read_all; [done|by rewrite Ht|done..].
Qed.

Section delivery.
Context (peer : nat → Node) (X : gset string) (m : MessageEnvelope) (id : string).
Context (HI : ∀ i, QueueInv.Inv (nd_store (peer i))) (Ht : ∀ i, trimmedIds (abs (nd_store (peer i)))).
Context (Hm : ∀ i, messages (nd_store (peer i)) !! id = Some m).
Context (HX : ∀ i, dom (messages (nd_store (peer i))) ⊆ X).
Context (Hw : ∀ i, ¬ withdrawn (nd_store (peer i)) m).

Lemma held_id : m_ID m = id ∧ TrimSpace id = id.
Proof.
  destruct (inv_message_ids _ (HI 0) _ _ (Hm 0%nat)) as [Hid _]. split; [done|].
  apply (Ht 0%nat). exists m. apply (Hm 0%nat).
Qed.

(** A page of such a peer does not withdraw the message either. *)
Lemma page_fits i p : pageOf peer i p → Fits X m p.
Proof.
  destruct held_id as [Hid Htrim]. intros (Hms & Hks & Hqs). split.
  - intros q (k & Hk)%Hqs Hne Heq. apply (Hw i). left. split; [done|]. exists k, q. auto.
  - intros e (k & Hk)%Hms. destruct (inv_message_ids _ (HI i) _ _ Hk) as [Hke _].
    assert (TrimSpace (m_ID e) = k) as -> by (rewrite Hke; apply (Ht i); exists e; exact Hk).
    split; [apply (HX i), elem_of_dom; by exists e|]. rewrite Hid, Htrim. intros ->.
    specialize (Hm i). congruence.
  - intros a (k & Hk)%Hks Heq. destruct (deletesQueuedMessage (a_Type a)) eqn:Hd; [|done].
    exfalso. apply (Hw i). right. exists k, a. auto.
Qed.

Lemma pages_fit T tr : pagesOnly peer T tr → Forall (fittingImport X m T) tr.
Proof.
  intros Htr. eapply Forall_impl; [exact Htr|]. intros x (now & p & i & Ho & HT & Hp).
  exists now, p. split_and!; [done..|]. by eapply page_fits.
Qed.
End delivery.

Lemma runsHere_trimmed E peer i : runsHere E peer → trimmedIds (abs (nd_store (peer i))).
Proof. intros Hruns. destruct (Hruns i) as (cfg & e & tr & Hm & Hst & _). by eapply reachable_trimmed. Qed.

(** What is in the queue already does not stand in the message's way. *)
Lemma local_clear s X m :
  dom (messages s) ⊆ X → ¬ withdrawn s m →
  (∀ m', messages s !! TrimSpace (m_ID m) = Some m' → sameMail m m') → Clear (cfg s) X m (abs s).
Proof.
  intros HX Hw Hsame. split; cbn; [done| | | |done].
  - intros i Hi. by apply HX, elem_of_dom.
  - intros Hne. destruct (purges s !! purgeHashOf m) as [q|] eqn:Hq; [|done].
    exfalso. apply Hw. left. split; [done|]. eauto.
  - intros k a Ha Hid. destruct (deletesQueuedMessage (a_Type a)) eqn:Hd; [|done].
    exfalso. apply Hw. right. eauto 10.
Qed.

Section parsers.
Context `{!NetParsers} (bytes : SyncPayload → Z).

(** C12: What is posted at one relay of a pool is delivered at the others. When a relay pulls
    from a peer that runs this code under the same pool secret and that has had the message all
    along, under a number past the cursor that the pull resumes at (zero if the peer has
    restarted); the peer has handed out at most ten thousand numbers past that cursor (9500 if
    it has restarted), which is what twenty pages hold, and its pages fit under the ceiling the
    relay sets for one; neither of the two knows the message to be withdrawn, the relay takes
    such a message at the times of the pull, and its queue has room for what the two hold
    together: then after the pull it holds the message, with the same sender, recipient, payload
    and tags, and a reader there who can open the tag reads it. A peer that has restarted is
    noticed and read from its beginning. *)
Theorem replicated_delivery c cp peerURL E peer peerEnvs envs n m k X :
  plainPeer peerURL → MeshEnabled c = true → c_MeshSecret cp = c_MeshSecret c → runsHere E peer →
  pagesFit bytes c cp peerURL peer peerEnvs →
  let old := cursorAt n peerURL in
  0 ≤ cu_seq old < 2 ^ 64 → cu_epoch old = E ∨ cu_epoch old ≠ ""%string ∨ cu_seq old = 0 →
  (∀ i, storeSeq (nd_store (peer i)) ≤ resumesAt E old + reach E old) →
  staysMessage peer peerEnvs m k → resumesAt E old < k →
  QueueInv.Inv (nd_store n) → (∀ i, acceptable (nd_store n) m (e_now (envs i))) →
  ¬ withdrawn (nd_store n) m → (∀ i, ¬ withdrawn (nd_store (peer i)) m) →
  (∀ m', messages (nd_store n) !! TrimSpace (m_ID m) = Some m' → sameMail m m') →
  dom (messages (nd_store n)) ⊆ X → (∀ i, dom (messages (nd_store (peer i))) ⊆ X) →
  Z.of_nat (size X) ≤ MaxMessages (cfg (nd_store n)) →
  let n' := (run (SyncPeer c (peerNet bytes c cp peer peerEnvs) peerURL) envs n).2 in
  ∃ m', messages (nd_store n') !! TrimSpace (m_ID m) = Some m' ∧ sameMail m m' ∧ readable (nd_store n') m'.
Proof.
  intros Hpeer Hmesh Hsec Hruns Hfits old Hold Hepoch Hseq Hstay Hk HIn Hacc Hwn Hwp Hsame HXn HXp Hsize n'.
  pose proof (runsHere_honest E peer Hruns) as Hhonest.
  assert (∀ i, trimmedIds (abs (nd_store (peer i)))) as Htrim by (intros; by eapply runsHere_trimmed).
  destruct (honest_pull bytes c cp peerURL E peer peerEnvs Hpeer Hmesh Hsec Hhonest Hfits
    (λ now, acceptable (nd_store n) m now) envs n Hacc Hold Hepoch Hseq)
    as (res' & n1 & tr & Hrun & Hst & Hpages & _ & Hoffer & _).
  destruct (Hoffer m k Hstay Hk) as [Hoff _]. destruct Hstay as (id & Hid).
  apply (pages_fit peer X m id (λ i, proj1 (Hhonest i)) Htrim (λ i, proj1 (Hid i)) HXp Hwp) in Hpages.
  destruct (imports_deliver (cfg (nd_store n)) X m Hsize _ _ _ _ (λ _ H, H) Hst HIn
    (local_clear _ _ _ HXn Hwn Hsame) Hpages) as [Hclear Hheld].
  unfold n'. rewrite Hrun. cbn [snd].
  destruct Hheld as [m' Hm']; [by right|]. exists m'. split; [exact Hm'|].
  pose proof (cl_mail _ _ _ _ Hclear m' Hm') as Hmail. split; [done|].
  eapply held_readable; [|exact Hm'|exact Hmail]. by eapply steps_inv.
Qed.

(** The sender of an ack who may open its tag gets it while it lives, when the answer is not
    cut off at the limit. *)
Definition ackReadable (s : QueueStore.Store) (a : AckRecord) : Prop :=
  ∀ (rt : GoRuntime) now limit auth,
    now < a_ExpiresAt a → permits auth (a_SenderTag a) = true →
    let out := (AcksForSender s now (a_Sender a) limit auth).1 in
    Z.of_nat (length out) < limitOr 100 limit → a ∈ out.

(** Once withdrawn, a message stays away through any further imports. *)
Lemma settled_stays s tr s' id k a :
  QueueSteps.steps s tr s' → QueueInv.Inv s → importsOnly tr → settled (abs s) id k a →
  messages s' !! id = None.
Proof.
  induction 1 as [s|rt s o tr s' _ IH]; intros HI Htr Hd; [apply Hd|].
  apply Forall_cons in Htr as [(now & p & Ho) Htr]. cbn in Ho. subst o.
  pose proof (abs_ImportSnapshot s now p HI) as Habs. pose proof (settled_Import _ now p _ _ _ Hd) as Hd'.
  rewrite Habs in Hd'. pose proof (exec_inv s (OImport now p) HI) as HI'. cbn [QueueSteps.exec] in *.
  destruct (ImportSnapshot s now p) as [res s1]. by apply IH.
Qed.

(** C13: What is acknowledged at one relay of a pool is withdrawn at the others. When a relay
    pulls from a peer that runs this code under the same pool secret and that has had a
    terminal ack all along, under a number past the cursor that the pull resumes at (zero if the
    peer has restarted); the peer has handed out at most ten thousand numbers past that cursor
    (9500 if it has restarted), which is what twenty pages hold, and its pages fit under the
    ceiling the relay sets for one; the relay takes such an ack at the times of the pull, holds
    no other of its id, and its caller lane has room for the acks that the two hold together:
    then after the pull the acknowledged message is gone from it; the ack is held, with the same
    ids, sender, recipient, type and tags, and its sender, given the right to its tag, reads it;
    and no imports of pages, from any peer and however many, bring the message back. *)
Theorem replicated_withdrawal c cp peerURL E peer peerEnvs envs n a k Y :
  plainPeer peerURL → MeshEnabled c = true → c_MeshSecret cp = c_MeshSecret c → runsHere E peer →
  pagesFit bytes c cp peerURL peer peerEnvs →
  let old := cursorAt n peerURL in
  0 ≤ cu_seq old < 2 ^ 64 → cu_epoch old = E ∨ cu_epoch old ≠ ""%string ∨ cu_seq old = 0 →
  (∀ i, storeSeq (nd_store (peer i)) ≤ resumesAt E old + reach E old) →
  staysAck peer peerEnvs a k → resumesAt E old < k → deletesQueuedMessage (a_Type a) = true →
  QueueInv.Inv (nd_store n) → (∀ i, takesAck (cfg (nd_store n)) a (e_now (envs i))) →
  acks (nd_store n) !! TrimSpace (a_ID a) = None →
  (∀ i j b, acks (nd_store (peer i)) !! j = Some b → fitsAck Y a b) →
  dom (acks (nd_store n)) ⊆ Y →
  Z.of_nat (size Y) ≤ MaxAcks (cfg (nd_store n)) - MaxMessages (cfg (nd_store n)) →
  let s := nd_store (run (SyncPeer c (peerNet bytes c cp peer peerEnvs) peerURL) envs n).2 in
  let id := TrimSpace (a_MessageID a) in
  messages s !! id = None ∧
  (∃ b, acks s !! TrimSpace (a_ID a) = Some b ∧ sameAck a b ∧ ackReadable s b) ∧
  ∀ tr s', QueueSteps.steps s tr s' → importsOnly tr → messages s' !! id = None.
Proof.
  intros Hpeer Hmesh Hsec Hruns Hfits old Hold Hepoch Hseq Hstay Hk Hterm HIn Htakes Hnew Hfit HY Hsize s id.
  pose proof (runsHere_honest E peer Hruns) as Hhonest.
  destruct (honest_pull bytes c cp peerURL E peer peerEnvs Hpeer Hmesh Hsec Hhonest Hfits
    (takesAck (cfg (nd_store n)) a) envs n Htakes Hold Hepoch Hseq)
    as (res' & n1 & tr & Hrun & Hst & Hpages & _ & _ & Hoffer).
  unfold s, id. clear s id. rewrite Hrun. cbn [snd].
  destruct (imports_withdraw (cfg (nd_store n)) Y a Hsize Hterm (takesAck (cfg (nd_store n)) a)
    (nd_store n) tr (nd_store n1)) as (b & Hset & Hsame); [done|exact Hst|done| | | |].
  - left. split; [done| |done]. intros j Hj. by apply HY, elem_of_dom.
  - eapply Forall_impl; [exact Hpages|]. intros x (now & p & i & Ho & HT & _ & Hks & _).
    exists now, p. split_and!; [done..|]. intros b (j & Hb)%Hks. by eapply Hfit.
  - right. by apply (Hoffer a k Hstay Hk).
  - pose proof Hset as (Hgone & Hheld & _). split; [exact Hgone|]. split.
    + exists b. split; [exact Hheld|]. split; [exact Hsame|].
      destruct Hsame as (_ & _ & Hs & _). intros rt now limit auth Hlive Hperm.
      assert (TrimSpace (a_Sender b) = a_Sender b) as Ht by (rewrite Hs; apply TrimSpace_idemp).
      eapply read_all_acks; [|exact Hheld|done|by rewrite Ht|done]. rewrite Ht, Hs.
      intros Hnil. destruct (Htakes 0%nat) as [Hinc _]. unfold ackIncomplete in Hinc.
      cbn [a_Sender trimImportedAck] in Hinc. rewrite Hnil, !orb_true_r in Hinc. done.
    + intros tr' s' Hst' Himp. eapply settled_stays; [exact Hst'| |exact Himp|exact Hset]. by eapply steps_inv.
Qed.
End parsers.

(** ** An example: the fresh relay of [MeshProps.v] holds what it pulled *)

#[local] Existing Instance demoParsers.

Module Sample.
Definition peerStore : QueueStore.Store := nd_store MeshProps.Sample.peer.
Definition m : MessageEnvelope :=
  match messages peerStore !! "m1"%string with
  | Some m => m
  | None => mkMessageEnvelope "" "" "" 0 0 "" "" "" "" ∅ "" ""
  end.
Definition k : Z := default 0 (messageSeq peerStore !! "m1"%string).
Definition ids : gset string := {["m1"; "m2"]}.

(** The recipient reads "m1" at the peer after the first pull; the relay pulls again. *)
Definition config2 : StoreConfig := mkStoreConfig 2 10 2 2 100 (72 * Hour) (24 * Hour).
Definition fresh (epoch : string) : QueueStore.Store := QueueStore.NewStore config2 epoch.
Definition acked : list Op :=
  MeshProps.Sample.ops ++
  [OAddAck 1500 (QueueSteps.Sample.ack "a1" "m1" AckRecipientRead 0) "node" QueueStore.zeroGrant TrustedAuth].
Definition peerBefore : Node := MeshProps.Sample.nodeOf (QueueSteps.run (fresh "epoch") MeshProps.Sample.ops).2.
Definition peerAfter : Node := MeshProps.Sample.nodeOf (QueueSteps.run (fresh "epoch") acked).2.
Definition pullFrom (peer puller : Node) : Node :=
  (run (SyncPeer MeshProps.Sample.config (peerNet MeshProps.Sample.pageBytes MeshProps.Sample.config MeshProps.Sample.config (λ _, peer) (λ _ _, MeshProps.Sample.e0))
     MeshProps.Sample.url) (λ _, MeshProps.Sample.e0) puller).2.
Definition puller : Node := pullFrom peerBefore (MeshProps.Sample.nodeOf (fresh "mine")).
Definition a : AckRecord := default zeroAckRecord (acks (nd_store peerAfter) !! "a1"%string).
Definition ackIDs : gset string := {["m1:node_received"; "m2:node_received"; "a1"]}.
End Sample.

Lemma sample_not_withdrawn : ¬ withdrawn Sample.peerStore Sample.m.
Proof.
  intros [(Hne & _)|(k & a & Ha & Hd & _)]; [by vm_compute in Hne|].
  assert (map_Forall (λ _ a, deletesQueuedMessage (a_Type a) = false) (acks Sample.peerStore)) as Hall.
  { apply (bool_decide_unpack _). by vm_compute. }
  specialize (Hall k a Ha). cbn in Hall. congruence.
Qed.

Lemma replicated_delivery_witness :
  let n' := MeshProps.Sample.pulled.2 in
  ∃ m', messages (nd_store n') !! TrimSpace (m_ID Sample.m) = Some m' ∧ sameMail Sample.m m' ∧
        readable (nd_store n') m'.
Proof.
  intros n'. unfold n', MeshProps.Sample.pulled. clear n'.
  pose proof (replicated_delivery MeshProps.Sample.pageBytes MeshProps.Sample.config MeshProps.Sample.config MeshProps.Sample.url "epoch"
    (λ _, MeshProps.Sample.peer) (λ _ _, MeshProps.Sample.e0) (λ _, MeshProps.Sample.e0) MeshProps.Sample.puller
    Sample.m Sample.k Sample.ids) as Hx.
  cbv zeta in Hx. destruct (run _ _ MeshProps.Sample.puller) as [res n1]. cbn [snd] in *.
  apply Hx; clear Hx.
  - eexists. split; [by vm_compute|]. split; by vm_compute.
  - by vm_compute.
  - reflexivity.
  - intros _. exists QueueSteps.Sample.config, "epoch"%string,
      (QueueSteps.run QueueSteps.Sample.empty MeshProps.Sample.ops).1.
    split; [by vm_compute|]. split; [exact (run_steps QueueSteps.Sample.empty MeshProps.Sample.ops)|].
    split; by vm_compute.
  - apply sample_pages_fit.
  - split; by vm_compute.
  - right; right. by vm_compute.
  - intros _. by vm_compute.
  - exists "m1"%string. intros _. split_and!; by vm_compute.
  - by vm_compute.
  - apply (NewStore_inv QueueSteps.Sample.config "mine"). by vm_compute.
  - intros _. eexists. by vm_compute.
  - intros [(Hne & _)|(k & a & Ha & _)]; [by vm_compute in Hne|by vm_compute in Ha].
  - intros _. change (nd_store MeshProps.Sample.peer) with Sample.peerStore. exact sample_not_withdrawn.
  - intros m' Hm'. by vm_compute in Hm'.
  - by apply (bool_decide_unpack _); vm_compute.
  - intros _. by apply (bool_decide_unpack _); vm_compute.
  - by vm_compute.
Defined.

Lemma pull_inv peer n : QueueInv.Inv (nd_store n) → QueueInv.Inv (nd_store (Sample.pullFrom peer n)).
Proof.
  intros HI. unfold Sample.pullFrom.
  destruct (Moves_run StoreRuns (SyncPeer MeshProps.Sample.config
    (peerNet MeshProps.Sample.pageBytes MeshProps.Sample.config MeshProps.Sample.config (λ _, peer) (λ _ _, MeshProps.Sample.e0)) MeshProps.Sample.url)
    (λ _, MeshProps.Sample.e0) n) as [[tr Hs] _ _ _ _ _].
  - apply moves_syncPages.
  - by eapply QueueSteps.steps_inv.
Qed.

Lemma replicated_withdrawal_witness :
  is_Some (messages (nd_store Sample.puller) !! "m1"%string) ∧
  messages (nd_store (Sample.pullFrom Sample.peerAfter Sample.puller)) !! "m1"%string = None.
Proof.
  split; [eexists; by vm_compute|].
  pose proof (replicated_withdrawal MeshProps.Sample.pageBytes MeshProps.Sample.config MeshProps.Sample.config MeshProps.Sample.url "epoch"
    (λ _, Sample.peerAfter) (λ _ _, MeshProps.Sample.e0) (λ _, MeshProps.Sample.e0) Sample.puller
    Sample.a 5 Sample.ackIDs) as Hx.
  cbv zeta in Hx. assert (TrimSpace (a_MessageID Sample.a) = "m1"%string) as Hid by by vm_compute.
  rewrite Hid in Hx. unfold Sample.pullFrom. eapply proj1, Hx; clear Hx Hid.
  - eexists. split; [by vm_compute|]. split; by vm_compute.
  - by vm_compute.
  - reflexivity.
  - intros _. exists Sample.config2, "epoch"%string, (QueueSteps.run (Sample.fresh "epoch") Sample.acked).1.
    split; [by vm_compute|].
    split; [unfold Sample.peerAfter, MeshProps.Sample.nodeOf; cbn [nd_store]; exact (run_steps (Sample.fresh "epoch") Sample.acked)|].
    split; by vm_compute.
  - apply sample_pages_fit.
  - split; by vm_compute.
  - left. by vm_compute.
  - intros _. by vm_compute.
  - exists "a1"%string. intros _. split_and!; by vm_compute.
  - by vm_compute.
  - by vm_compute.
  - apply pull_inv. apply (NewStore_inv Sample.config2 "mine"). by vm_compute.
  - intros _. split_and!; by vm_compute.
  - by vm_compute.
  - intros _ j b Hb.
    assert (map_Forall (λ _ b, TrimSpace (a_ID b) ∈ Sample.ackIDs ∧ (TrimSpace (a_ID b) = TrimSpace (a_ID Sample.a) → b = Sample.a))
      (acks (nd_store Sample.peerAfter))) as Hall by (apply (bool_decide_unpack _); by vm_compute).
    exact (Hall j b Hb).
  - by apply (bool_decide_unpack _); vm_compute.
  - by vm_compute.
Defined.
