(* ===== verification/Issue.v ===== *)
(** * Credential issuance ([internal/issue/issue.go], [owner_unix.go])

    The tool's half of admission: the credential file as a set in memory, the three edits of
    it, its rendering and its replacement on disk, and the tier presets. The text of JSON and
    Unicode case folding are parameters; what the system calls answer is an argument. *)

From Stdlib Require Import Strings.String.
From S2P Require Import Prelude Crypto GoDuration Code Admission Boot.

Open Scope Z_scope.

Inductive IssueError :=
  | NoFileGiven | NoDirectory | StatFailed | NotRegular | DoesNotLoad
  | RandFailed | ErrAlreadyAdmitted | ErrNoSuchCredential | NotAnExtension
  | PresetsUnreadable | NoTiers | UnnamedTier | TierTwice | ErrNoSuchTier
  | NotACode | NoCode
  | RenderFailed | WouldNotLoad | ReadBackDiffers (rendered readBack : nat)
  | WriteFailed.

#[export] Instance IssueError_eq_dec : EqDecision IssueError.
Proof. solve_decision. Defined.

(** ** The file in memory *)

Record File := mkFile {
  f_path : string;
  f_credentials : list Credential;
  f_mode : Z;
  f_existed : bool;
}.

Definition with_credentials (cs : list Credential) (f : File) : File :=
  mkFile (f_path f) cs (f_mode f) (f_existed f).

(** What [os.Stat] says of the path: nothing there (and whether its directory is), another
    error, or a file with its mode. *)
Inductive StatAnswer := NotExist (directory : bool) | StatError | Info (regular : bool) (mode : Z).

(** The mode 0600. *)
Definition ownerOnly : Z := 0x180.

Definition Count (f : File) : Z := Z.of_nat (length (f_credentials f)).

Definition find (f : File) (id : string) : option nat :=
  fst <$> list_find (λ c, cr_ID c = id) (f_credentials f).

(** [t.Truncate(d)] rounds down to a multiple of [d] since the zero time. *)
Definition Truncate (t : Time) (d : Duration) : Time := t - t mod d.

Definition with_NotAfter (t : Time) (c : Credential) : Credential :=
  let terms := cr_Terms c in
  mkCredential (cr_ID c)
    (mkTerms (t_Tier terms) t (t_QueueSlots terms) (t_RetentionWindow terms)
       (t_AttachmentBytes terms) (t_ConcurrentTransfers terms) (t_TransitBytesPerDay terms)
       (t_MaxPerPair terms)).

(** The window before and after, or the error. *)
Definition Renew (f : File) (id : string) (now : Time) (extend : Duration)
  : (IssueError + Time * Time) * File :=
  match find f id with
  | None => (inl ErrNoSuchCredential, f)
  | Some index =>
      if extend <=? 0 then (inl NotAnExtension, f) else
      let was := default 0 (t_NotAfter ∘ cr_Terms <$> f_credentials f !! index) in
      let from := if Before was now then now else was in
      let is_ := Truncate (Add from extend) Second in
      (inr (was, is_), with_credentials (alter (with_NotAfter is_) index (f_credentials f)) f)
  end.

Definition zeroCredential : Credential := mkCredential "" zeroTerms.

Definition Revoke (f : File) (id : string) : (IssueError + Credential) * File :=
  match find f id with
  | None => (inl ErrNoSuchCredential, f)
  | Some index =>
      (inr (default zeroCredential (f_credentials f !! index)),
       with_credentials (delete index (f_credentials f)) f)
  end.

Section keys.
Context (NewKeyFromSeed : list Z → list Z * list Z).

(** [raw] are the bytes [crypto/rand] gave, or its failure. *)
Definition Mint (f : File) (terms : Terms) (raw : option (list Z))
  : (IssueError + string * Credential) * File :=
  match raw with
  | None => (inl RandFailed, f)
  | Some raw =>
      let code := NewCode raw in
      let id := (KeyFromCode NewKeyFromSeed code).2 in
      match find f id with
      | Some _ => (inl ErrAlreadyAdmitted, f)
      | None =>
          let credential := mkCredential id terms in
          (inr (code, credential), with_credentials (f_credentials f ++ [credential]) f)
      end
  end.

Definition CredentialFromCode (code : string) : IssueError + string :=
  let normalized := NormalizeCode code in
  if is_empty normalized then inl NotACode
  else inr (KeyFromCode NewKeyFromSeed normalized).2.
End keys.

(** [ReadCode] on the first line of the input, if there is one. *)
Definition ReadCode (line : option string) : IssueError + string :=
  match line with None => inl NoCode | Some text => inr (TrimSpace text) end.

(** ** What is written for a credential

    The keys of one entry of the file, in the types that [encoding/json] writes by itself. A
    window is not one of them: [Duration] marshals itself, as the text of a JSON string, and
    the key is left out when the window is zero. A file can also have the key more than once. *)
Record Rendered := mkRendered {
  re_ID : string;
  re_Tier : string;
  re_NotAfter : Time;
  re_QueueSlots : Z;
  re_RetentionWindow : list string;
  re_AttachmentBytes : Z;
  re_ConcurrentTransfers : Z;
  re_TransitBytesPerDay : Z;
  re_MaxPerPair : Z;
}.

Definition render (c : Credential) : Rendered :=
  let t := cr_Terms c in
  mkRendered (cr_ID c) (t_Tier t) (t_NotAfter t) (t_QueueSlots t)
    (if t_RetentionWindow t =? 0 then [] else [durationString (t_RetentionWindow t)])
    (t_AttachmentBytes t) (t_ConcurrentTransfers t) (t_TransitBytesPerDay t) (t_MaxPerPair t).

(** Every text of a window is read, and the last one stands; one that is not a duration, or is
    negative, fails the whole file. *)
Definition readBack (e : Rendered) : option Credential :=
  windows ← mapM durationUnmarshal (re_RetentionWindow e);
  Some (mkCredential (re_ID e)
    (mkTerms (re_Tier e) (re_NotAfter e) (re_QueueSlots e) (default 0 (last windows))
       (re_AttachmentBytes e) (re_ConcurrentTransfers e) (re_TransitBytesPerDay e) (re_MaxPerPair e))).

(** The last instant but one day that a time is written for, in any zone: the year has four
    digits. *)
Definition lastStamp : Time := 3652058 * 24 * Hour.

(** An entry that JSON can say: its texts are UTF-8, its expiry has a year of four digits, and
    its numbers are those of a 64-bit machine. *)
Definition isInt64 (n : Z) : Prop := int64_min ≤ n ≤ int64_max.

Definition Plain (e : Rendered) : Prop :=
  Forall (λ text, validUTF8 (bytes_of_string text) = true) (re_ID e :: re_Tier e :: re_RetentionWindow e) ∧
  0 ≤ re_NotAfter e < lastStamp ∧
  Forall isInt64 [re_QueueSlots e; re_AttachmentBytes e; re_ConcurrentTransfers e;
                  re_TransitBytesPerDay e; re_MaxPerPair e].

(** [encoding/json] on a file of such entries. A [Document] is the bytes of a file;
    [emptyDocument] is what a file holds before anything is written; [MarshalIndent] is the
    text with the newline at its end, and fails only on a time with another year; [decodeFile]
    is the strict decoding that [ParseCredentials] starts with, trailing content refused. What
    was rendered is decoded again, an entry at a time, and an entry that JSON can say comes
    back as it was (another text has its bad bytes replaced). *)
Class Codec := {
  Document : Type;
  emptyDocument : Document;
  MarshalIndent : list Rendered → option Document;
  decodeFile : Document → option (list Rendered);
  MarshalIndent_decodes es body : MarshalIndent es = Some body →
    ∃ es', decodeFile body = Some es' ∧ Forall2 (λ e e', Plain e → e' = e) es es';
  MarshalIndent_renders es : Forall (λ e, 0 ≤ re_NotAfter e < lastStamp) es → is_Some (MarshalIndent es);
}.

(** ** Rendering and replacing the file *)

Section disk.
Context `{!GoRuntime, !Codec}.

(** The two sides of the file: what the tool renders and what the relay's reader decodes. *)
Definition renderCredentials (cs : list Credential) : option Document := MarshalIndent (render <$> cs).

Definition decodeCredentials (body : Document) : CredentialFile :=
  entries ← decodeFile body; mapM readBack entries.

Definition Open (path : string) (stat : StatAnswer) (body : option Document) : IssueError + File :=
  if is_empty (TrimSpace path) then inl NoFileGiven else
  match stat with
  | NotExist directory => if negb directory then inl NoDirectory else inr (mkFile path [] ownerOnly false)
  | StatError => inl StatFailed
  | Info regular mode =>
      if negb regular then inl NotRegular else
      match ReadFile (body ≫= decodeCredentials) with
      | None => inl DoesNotLoad
      | Some credentials => inr (mkFile path credentials mode true)
      end
  end.

(** Soonest expiry first. *)
Definition Credentials (f : File) : list Credential :=
  sort_slice (λ a b,
    let ta := t_NotAfter (cr_Terms a) in let tb := t_NotAfter (cr_Terms b) in
    if negb (ta =? tb) then Before ta tb else String.ltb (cr_ID a) (cr_ID b)) (f_credentials f).

Definition Marshal (f : File) : IssueError + Document :=
  let ordered := sort_slice (λ a b, String.ltb (cr_ID a) (cr_ID b)) (f_credentials f) in
  match renderCredentials ordered with
  | None => inl RenderFailed
  | Some body =>
      match ReadFile (decodeCredentials body) with
      | None => inl WouldNotLoad
      | Some parsed =>
          if negb (bool_decide (length parsed = length ordered))
          then inl (ReadBackDiffers (length ordered) (length parsed)) else inr body
      end
  end.

(** A file on disk, and the directory entries by path. *)
Record entry := mkEntry { en_mode : Z; en_owner : Z * Z; en_body : Document }.

(** What the system calls of a save answer: the name [os.CreateTemp] made up and the owner it
    created the file for, what is on disk when the write stops half way, and which calls
    succeed. *)
Record SaveCalls := mkSaveCalls {
  sc_temp : option string;
  sc_self : Z * Z;
  sc_half : Document;
  sc_chmod : bool; sc_chown : bool; sc_write : bool; sc_sync : bool; sc_close : bool;
  sc_rename : bool; sc_remove : bool;
}.

(** [adoptOwner]: the owner of the file that is replaced, where it can be given. *)
Definition adoptOwner (o : SaveCalls) (d : gmap string entry) (replacing : string) (temp : entry) : entry :=
  match d !! replacing with
  | None => temp
  | Some old => if sc_chown o then mkEntry (en_mode temp) (en_owner old) (en_body temp) else temp
  end.

(** The error if there is one, the file in memory, and every state the disk goes through, the
    last one last: a reader or a power cut may meet any of them. *)
Definition Save (o : SaveCalls) (f : File) (d : gmap string entry) : option IssueError * File * list (gmap string entry) :=
  match Marshal f with
  | inl err => (Some err, f, [d])
  | inr body =>
    match sc_temp o with
    | None => (Some WriteFailed, f, [d])
    | Some name =>
      let temp0 := mkEntry ownerOnly (sc_self o) emptyDocument in
      let d0 := <[name := temp0]> d in
      let failed ds dn :=
        (Some WriteFailed, f, ds ++ [dn; if sc_remove o then delete name dn else dn]) in
      if negb (sc_chmod o) then failed [d] d0 else
      let temp1 := mkEntry (f_mode f) (en_owner temp0) (en_body temp0) in
      let d1 := <[name := temp1]> d in
      let temp2 := if f_existed f then adoptOwner o d (f_path f) temp1 else temp1 in
      let d2 := <[name := temp2]> d in
      let half := <[name := mkEntry (en_mode temp2) (en_owner temp2) (sc_half o)]> d in
      if negb (sc_write o) then failed [d; d0; d1; d2] half else
      let temp3 := mkEntry (en_mode temp2) (en_owner temp2) body in
      let d3 := <[name := temp3]> d in
      if negb (sc_sync o) then failed [d; d0; d1; d2; half] d3 else
      if negb (sc_close o) then failed [d; d0; d1; d2; half] d3 else
      if negb (sc_rename o) then failed [d; d0; d1; d2; half] d3 else
      (None, mkFile (f_path f) (f_credentials f) (f_mode f) true,
       [d; d0; d1; d2; half; d3; <[f_path f := temp3]> (delete name d3)])
    end
  end.
End disk.

Abbreviation Disk := (gmap string entry).

(** ** Tier presets *)

Record Preset := mkPreset {
  pr_Tier : string;
  pr_QueueSlots : Z;
  pr_RetentionWindow : Duration;
  pr_AttachmentBytes : Z;
  pr_ConcurrentTransfers : Z;
  pr_TransitBytesPerDay : Z;
  pr_MaxPerPair : Z;
}.

(** The method [Terms] of a preset. *)
Definition presetTerms (p : Preset) (notAfter : Time) : Terms :=
  mkTerms (pr_Tier p) (Truncate notAfter Second) (pr_QueueSlots p) (pr_RetentionWindow p)
    (pr_AttachmentBytes p) (pr_ConcurrentTransfers p) (pr_TransitBytesPerDay p) (pr_MaxPerPair p).

Record Presets := mkPresets { ps_path : string; ps_tiers : list Preset }.

Fixpoint checkTiers (tiers : list Preset) (seen : gset string) : option IssueError :=
  match tiers with
  | [] => None
  | tier :: tiers =>
      if is_empty (TrimSpace (pr_Tier tier)) then Some UnnamedTier else
      if bool_decide (pr_Tier tier ∈ seen) then Some TierTwice else
      checkTiers tiers ({[pr_Tier tier]} ∪ seen)
  end.

(** [LoadPresets] on the decoded tiers, [None] for a file that cannot be read or decoded. *)
Definition LoadPresets (path : string) (file : option (list Preset)) : IssueError + Presets :=
  match file with
  | None => inl PresetsUnreadable
  | Some tiers =>
      if bool_decide (length tiers = 0%nat) then inl NoTiers else
      match checkTiers tiers ∅ with
      | Some err => inl err
      | None => inr (mkPresets path tiers)
      end
  end.

Definition Names (p : Presets) : list string := pr_Tier <$> ps_tiers p.

(** [strings.EqualFold] compares under Unicode case folding; on ASCII names that is the
    comparison of the names in lower case. *)
Definition asciiLower (s : string) : list Z :=
  (λ b, if (65 <=? b) && (b <=? 90) then b + 32 else b) <$> bytes_of_string s.

Definition isASCII (s : string) : bool := forallb (λ b, b <? 128) (bytes_of_string s).

Class Folding := {
  EqualFold : string → string → bool;
  EqualFold_ascii s t : isASCII s = true → isASCII t = true →
    EqualFold s t = bool_decide (asciiLower s = asciiLower t);
}.

(** The method [Lookup] of the presets. *)
Definition lookupTier `{!Folding} (p : Presets) (name : string) : IssueError + Preset :=
  match list_find (λ tier, EqualFold (pr_Tier tier) name = true) (ps_tiers p) with
  | Some (_, tier) => inr tier
  | None => inl ErrNoSuchTier
  end.
