(* ===== verification/IssueProps.v ===== *)
(** * Issuance: what the tool writes

    The file is replaced in one step and never by one the relay would refuse; the edits keep
    the file one the relay loads; and what a renewal does to a window. *)

From Stdlib Require Import Strings.String.
From S2P Require Import Prelude Crypto GoDuration Code Admission Boot Issue.

Open Scope Z_scope.

(** ** What the relay reads of a rendered file *)

(** Terms that the file can say exactly: a label in UTF-8, an expiry with a year of four
    digits, a window of whole seconds, 64-bit numbers. *)
Definition sayable (t : Terms) : Prop :=
  validUTF8 (bytes_of_string (t_Tier t)) = true ∧ 0 ≤ t_NotAfter t < lastStamp ∧
  (0 ≤ t_RetentionWindow t < 2 ^ 63 ∧ t_RetentionWindow t mod Second = 0) ∧
  Forall isInt64 [t_QueueSlots t; t_AttachmentBytes t; t_ConcurrentTransfers t;
                  t_TransitBytesPerDay t; t_MaxPerPair t].

Definition renderable (c : Credential) : Prop :=
  validUTF8 (bytes_of_string (cr_ID c)) = true ∧ sayable (cr_Terms c).

(** What an entry is read back as, when it can be said. *)
Definition kept (c c' : Credential) : Prop := renderable c → c' = c.

Lemma render_plain c : renderable c → Plain (render c).
Proof.
  intros (Hid & Htier & Hna & [Hw Hs] & Hint). split; [|done]. do 2 (constructor; [done|]).
  cbn. case_match; [done|].
  apply Forall_singleton, ascii_valid. eapply Forall_impl; [by apply durationString_ascii|]. cbn. lia.
Qed.

Lemma readBack_render c : renderable c → readBack (render c) = Some c.
Proof.
  intros (_ & _ & _ & [Hw Hs] & _). unfold readBack, render. cbn.
  destruct c as [id [tier na slots w bytes conc transit pair]]. cbn in *.
  destruct (Z.eqb_spec w 0) as [->|Hne]; [done|]. cbn. by rewrite window_roundtrip.
Qed.

(** A key of 32 bytes is named by an ASCII text. *)
Lemma decoded_ascii id pub :
  Base64.RawURLDecodeString id = Some pub → validUTF8 (bytes_of_string id) = true.
Proof.
  unfold Base64.RawURLDecodeString. intros (digits & Hd & _)%bind_Some. apply ascii_valid, Forall_forall.
  intros b Hb. destruct (decide (b ≠ 10 ∧ b ≠ 13)) as [Hin|Hout]; [|lia].
  assert (is_Some (Base64.value b)) as [v Hv].
  { pose proof (mk_is_Some _ _ Hd) as Hall%mapM_is_Some_1. rewrite Forall_forall in Hall.
    by apply Hall, list_elem_of_filter. }
  unfold Base64.value in Hv. repeat case_match; reflect_bools; try done; lia.
Qed.

Section reading.
Context `{!Codec}.

Lemma rendered_kept cs body cs' :
  renderCredentials cs = Some body → decodeCredentials body = Some cs' → Forall2 kept cs cs'.
Proof.
  intros (es & Hd & Hes)%MarshalIndent_decodes. unfold decodeCredentials. rewrite Hd. cbn.
  intros Hcs%mapM_Some. apply Forall2_fmap_l in Hes.
  eapply Forall2_trans; [|exact Hes|exact Hcs]. intros c e c' He Hc' Hc. cbn in *.
  rewrite (He (render_plain c Hc)), readBack_render in Hc' by done. by injection Hc'.
Qed.

Lemma rendered_whole cs :
  Forall renderable cs → ∃ body, renderCredentials cs = Some body ∧ decodeCredentials body = Some cs.
Proof.
  intros Hcs. destruct (MarshalIndent_renders (render <$> cs)) as [body Hbody].
  { apply Forall_fmap. eapply Forall_impl; [exact Hcs|]. intros c (_ & _ & Hna & _). exact Hna. }
  exists body. split; [exact Hbody|]. destruct (MarshalIndent_decodes _ _ Hbody) as (es & Hd & Hes).
  unfold decodeCredentials. rewrite Hd. cbn. apply mapM_Some. clear Hd Hbody. apply Forall2_fmap_l in Hes.
  revert es Hes. induction Hcs as [|c cs Hc _ IH]; intros es Hes.
  - apply Forall2_nil_inv_l in Hes as ->. constructor.
  - apply Forall2_cons_inv_l in Hes as (e & es' & He & Hes & ->). constructor; [|by apply IH].
    rewrite (He (render_plain c Hc)). by apply readBack_render.
Qed.
End reading.

Lemma ParseCredentials_perm `{!GoRuntime} cs cs' : ParseCredentials cs = inr cs' → cs' ≡ₚ cs.
Proof. unfold ParseCredentials. destruct (checkCredentials _ _ _); [done|]. intros [= <-]. apply sort_slice_perm. Qed.

Lemma Forall2_perm_r {A B} (P : A → B → Prop) l k k' :
  Forall2 P l k → k' ≡ₚ k → ∃ l', l' ≡ₚ l ∧ Forall2 P l' k'.
Proof.
  intros Hl Hk. revert l Hl. induction Hk as [|x k' k _ IH|x y k|k'' k' k _ IH1 _ IH2]; intros l Hl.
  - apply Forall2_nil_inv_r in Hl as ->. by exists [].
  - apply Forall2_cons_inv_r in Hl as (a & l0 & Ha & Hl & ->).
    destruct (IH l0 Hl) as (l' & Hp & Hf). exists (a :: l'). split; [by constructor|auto].
  - apply Forall2_cons_inv_r in Hl as (a & l0 & Ha & Hl & ->).
    apply Forall2_cons_inv_r in Hl as (b & l1 & Hb & Hl & ->).
    exists (b :: a :: l1). split; [by apply perm_swap|auto].
  - destruct (IH2 l Hl) as (l1 & Hp1 & Hf1). destruct (IH1 l1 Hf1) as (l2 & Hp2 & Hf2).
    exists l2. split; [by etrans|done].
Qed.

(** ** The replacement *)

Section save.
Context `{!GoRuntime, !Codec}.

(** A document that the relay's own reader loads whole: a credential for each one of the set,
    and the same credential where it can be said. *)
Definition loads (f : File) (body : Document) : Prop :=
  ∃ cs cs0, ReadFile (decodeCredentials body) = Some cs ∧ cs0 ≡ₚ f_credentials f ∧ Forall2 kept cs0 cs.

Lemma Marshal_loads f body : Marshal f = inr body → loads f body.
Proof.
  unfold Marshal. cbv zeta. set (ordered := sort_slice _ _).
  assert (ordered ≡ₚ f_credentials f) as Ho by apply sort_slice_perm.
  destruct (renderCredentials ordered) as [b|] eqn:Hb; [|done].
  destruct (ReadFile _) as [cs|] eqn:Hr; [|done]. destruct (negb _); [done|]. intros [= ->].
  unfold ReadFile in Hr. destruct (decodeCredentials body) as [cs1|] eqn:Hd; [|done].
  destruct (ParseCredentials cs1) as [|cs2] eqn:Hp; [done|]. injection Hr as ->.
  destruct (Forall2_perm_r kept ordered cs1 cs (rendered_kept _ _ _ Hb Hd) (ParseCredentials_perm _ _ Hp))
    as (cs0 & Hp0 & Hf). exists cs, cs0. unfold ReadFile. rewrite Hd, Hp. split_and!; [done|by etrans|done].
Qed.

Lemma adoptOwner_mode o d path e : en_mode (adoptOwner o d path e) = en_mode e.
Proof. unfold adoptOwner. by destruct (d !! path), (sc_chown o). Qed.

(** The path and everything but the temporary file are as they were. *)
Definition untouched (o : SaveCalls) (f : File) (d d' : Disk) : Prop :=
  d' !! f_path f = d !! f_path f ∧
  ∀ path, path ≠ f_path f → sc_temp o ≠ Some path → d' !! path = d !! path.

(** The path holds the new file, and nothing else changed. *)
Definition replaced (o : SaveCalls) (f : File) (d d' : Disk) : Prop :=
  ∃ e, en_mode e = f_mode f ∧ Marshal f = inr (en_body e) ∧ d' = <[f_path f := e]> d ∧
  ∀ old, f_existed f = true → d !! f_path f = Some old → sc_chown o = true → en_owner e = en_owner old.

Lemma untouched_refl o f d : untouched o f d d.
Proof. by split. Qed.

(** The ends of a save: an error before the rename, or the rename. *)
Definition SaveEnd (o : SaveCalls) (f : File) (d : Disk)
    (r : option IssueError * File * list Disk) : Prop :=
  let '(err, f', ds) := r in
  ∃ before d', ds = before ++ [d'] ∧ Forall (untouched o f d) before ∧
  match err with
  | Some _ => f' = f ∧ untouched o f d d' ∧ (sc_remove o = true → d' = d)
  | None => f' = mkFile (f_path f) (f_credentials f) (f_mode f) true ∧ replaced o f d d'
  end.

Section temp.
Context (o : SaveCalls) (f : File) (d : Disk) (name : string).
Context (Htemp : sc_temp o = Some name) (Hfresh : d !! name = None) (Hname : name ≠ f_path f).

Lemma untouched_temp e : untouched o f d (<[name := e]> d).
Proof.
  split; [by rewrite lookup_insert_ne|]. intros path _ Hp. apply lookup_insert_ne. congruence.
Qed.

Lemma failed_end ds e :
  Forall (untouched o f d) ds →
  let dn := <[name := e]> d in
  SaveEnd o f d (Some WriteFailed, f, ds ++ [dn; if sc_remove o then delete name dn else dn]).
Proof.
  intros Hds dn. unfold SaveEnd. exists (ds ++ [dn]). eexists. split; [by rewrite <-app_assoc|].
  split; [apply Forall_app; split; [done|]; apply Forall_singleton, untouched_temp|].
  split; [done|]. subst dn. destruct (sc_remove o); [|by split; [apply untouched_temp|]].
  rewrite delete_insert_id by done. split; [apply untouched_refl|done].
Qed.

Lemma renamed_end ds body e e' :
  Forall (untouched o f d) ds → Marshal f = inr body →
  e' = (if f_existed f then adoptOwner o d (f_path f) e else e) → en_mode e = f_mode f →
  let e3 := mkEntry (en_mode e') (en_owner e') body in
  SaveEnd o f d (None, mkFile (f_path f) (f_credentials f) (f_mode f) true,
    ds ++ [<[f_path f := e3]> (delete name (<[name := e3]> d))]).
Proof.
  intros Hds HM He' Hm e3. unfold SaveEnd. exists ds. eexists. split_and!; [done..|].
  exists e3. subst e3. cbn [en_mode en_owner en_body]. split_and!; [|done|by rewrite delete_insert_id|].
  - subst e'. destruct (f_existed f); [|done]. by rewrite adoptOwner_mode.
  - intros old Hex Hold Hch. subst e'. rewrite Hex. unfold adoptOwner. by rewrite Hold, Hch.
Qed.
End temp.

Lemma Save_end o f d :
  (∀ name, sc_temp o = Some name → d !! name = None ∧ name ≠ f_path f) → SaveEnd o f d (Save o f d).
Proof.
  intros Hfresh. pose proof (untouched_refl o f d) as Hd. unfold SaveEnd, Save.
  destruct (Marshal f) as [err|body] eqn:HM; [by exists [], d|].
  destruct (sc_temp o) as [name|] eqn:Ht; [|by exists [], d].
  destruct (Hfresh name eq_refl) as [Hn Hne].
  pose proof (untouched_temp o f d name Ht Hne) as Hu. cbv zeta. cbn [en_owner en_body].
  repeat (match goal with |- context [negb ?b] => destruct b end; cbn [negb];
          [|apply (failed_end o f d name Ht Hn Hne [_]) || apply (failed_end o f d name Ht Hn Hne [_; _; _; _])
            || apply (failed_end o f d name Ht Hn Hne [_; _; _; _; _]); rewrite !Forall_cons; split_and!; auto]).
  eapply (renamed_end o f d name Hn [_; _; _; _; _; _]); [rewrite !Forall_cons; split_and!; auto|done..].
Qed.

(** C29: The credential file is replaced in one step, and only by a file the relay loads.
    Whatever system call of a save fails, and wherever the process or the machine stops, the
    path holds the file that was there before or, complete, the new one, which has the mode of
    the old one and which the relay's own reader loads: a credential for each one of the set
    and no other, each with the id and all the terms it has in the set where the file can say
    them (text in UTF-8, an expiry before the year 10000, a window of whole seconds); no other
    file is touched. A save that reports an error has left the old file in place, and
    the directory as it was if the temporary file could be removed; a save that reports none
    has left the new file, with the old one's owner where it could be given, and no temporary
    file. *)
Theorem save_atomic o f d :
  (∀ name, sc_temp o = Some name → d !! name = None ∧ name ≠ f_path f) →
  let '(err, f', ds) := Save o f d in
  (∀ d', d' ∈ ds →
     (d' !! f_path f = d !! f_path f ∨
      ∃ e, d' !! f_path f = Some e ∧ en_mode e = f_mode f ∧ loads f (en_body e)) ∧
     ∀ path, path ≠ f_path f → sc_temp o ≠ Some path → d' !! path = d !! path) ∧
  ∃ d', last ds = Some d' ∧
  match err with
  | Some _ => f' = f ∧ untouched o f d d' ∧ (sc_remove o = true → d' = d)
  | None => f' = mkFile (f_path f) (f_credentials f) (f_mode f) true ∧ replaced o f d d'
  end.
Proof.
  intros Hfresh. pose proof (Save_end o f d Hfresh) as He.
  destruct (Save o f d) as [[err f'] ds]. destruct He as (before & d' & -> & Hb & Hlast).
  split; [|exists d'; split; [apply last_snoc|done]].
  intros x [Hx|Hx%list_elem_of_singleton]%elem_of_app; [|subst x].
  - rewrite Forall_forall in Hb. destruct (Hb x Hx) as [Hp Ho]. eauto.
  - destruct err as [err|]; [destruct Hlast as (_ & [Hp Ho] & _); eauto|].
    destruct Hlast as (_ & e & Hm & HM & -> & _). split.
    + right. exists e. rewrite lookup_insert_eq. eauto using Marshal_loads.
    + intros path Hp _. by apply lookup_insert_ne.
Qed.
End save.

(** ** The edits *)

(** What [ParseCredentials] asks of a set. *)
Definition goodSet (cs : list Credential) : Prop :=
  Forall (λ c, validateCredential c = None) cs ∧ NoDup (cr_ID <$> cs).

Lemma checkCredentials_good i cs seen :
  checkCredentials i cs seen = None ↔
  goodSet cs ∧ ∀ id, id ∈ cr_ID <$> cs → id ∉ seen.
Proof.
  unfold goodSet. revert i seen. induction cs as [|c cs IH]; intros i seen; cbn [checkCredentials fmap list_fmap].
  { split; [|done]. intros _. split_and!; [done|constructor|]. by intros id ?%not_elem_of_nil. }
  rewrite Forall_cons, NoDup_cons. destruct (validateCredential c) as [e|]; [naive_solver|].
  case_bool_decide as Hin.
  - split; [done|]. intros (_ & Hd). destruct (Hd (cr_ID c)); [by left|done].
  - rewrite IH. setoid_rewrite elem_of_cons. set_solver.
Qed.

Lemma goodSet_perm cs cs' : cs ≡ₚ cs' → goodSet cs → goodSet cs'.
Proof. unfold goodSet. by intros ->. Qed.

(** A key of 32 bytes by which every credential is found, and only once. *)
Definition keyed (cs : list Credential) : Prop :=
  Forall (λ c, ∃ pub, Base64.RawURLDecodeString (cr_ID c) = Some pub ∧ length pub = 32%nat) cs ∧
  NoDup (cr_ID <$> cs).

Lemma ParseCredentials_good `{!GoRuntime} cs :
  (goodSet cs → ∃ cs', ParseCredentials cs = inr cs' ∧ cs' ≡ₚ cs) ∧
  ∀ cs', ParseCredentials cs = inr cs' → goodSet cs'.
Proof.
  unfold ParseCredentials. pose proof (checkCredentials_good 0 cs ∅) as Hc. split.
  - intros Hg. rewrite (proj2 Hc) by set_solver. eexists. split; [done|apply sort_slice_perm].
  - intros cs'. destruct (checkCredentials 0 cs ∅); [done|]. intros [= <-].
    eapply goodSet_perm; [symmetry; apply sort_slice_perm|]. by apply Hc.
Qed.

(** Terms that the relay's check passes. *)
Definition grantable (t : Terms) : Prop :=
  t_NotAfter t ≠ 0 ∧ 0 ≤ t_QueueSlots t ∧ 0 ≤ t_AttachmentBytes t ∧ 0 ≤ t_ConcurrentTransfers t ∧
  0 ≤ t_TransitBytesPerDay t ∧ 0 ≤ t_MaxPerPair t.

Lemma validateCredential_good c :
  validateCredential c = None ↔
  (∃ pub, Base64.RawURLDecodeString (cr_ID c) = Some pub ∧ length pub = 32%nat) ∧ grantable (cr_Terms c).
Proof.
  unfold validateCredential, grantable, IsZero. destruct (Base64.RawURLDecodeString _) as [pub|]; [|naive_solver].
  case_bool_decide as Hl; cbn [negb]; [|naive_solver].
  destruct (Z.eqb_spec (t_NotAfter (cr_Terms c)) 0) as [Hz|Hz]; [naive_solver lia|].
  cbn [existsb]. rewrite orb_false_r.
  match goal with |- context [if ?b then _ else _] => destruct b eqn:Hb end; split; try done.
  - intros (_ & _ & H). rewrite !orb_true_iff, !Z.ltb_lt in Hb. lia.
  - intros _. rewrite !orb_false_iff, !Z.ltb_ge in Hb. split; [by eexists|]. lia.
Qed.

Lemma goodSet_keyed cs : goodSet cs ↔ keyed cs ∧ Forall (λ c, grantable (cr_Terms c)) cs.
Proof.
  unfold goodSet, keyed. setoid_rewrite validateCredential_good. rewrite Forall_and. tauto.
Qed.

Lemma find_None f id : find f id = None ↔ id ∉ cr_ID <$> f_credentials f.
Proof.
  unfold find. rewrite fmap_None, list_elem_of_fmap. split.
  - intros Hf%list_find_None. rewrite Forall_forall in Hf. naive_solver.
  - intros Hid. apply list_find_None, Forall_forall. naive_solver.
Qed.

Lemma find_Some f id i :
  find f id = Some i → ∃ c, f_credentials f !! i = Some c ∧ cr_ID c = id.
Proof.
  unfold find. intros ([j c] & (Hc & Hid & _)%list_find_Some & ->)%fmap_Some. eauto.
Qed.

Lemma renewed_later was now extend :
  Second ≤ now → 0 < extend → 0 < Truncate (Add (if Before was now then now else was) extend) Second.
Proof.
  unfold Truncate, Add, Before. intros Hn He. pose proof (Z.ltb_spec was now) as Hb.
  destruct (was <? now); unfold Second in *; Z.to_euclidean_division_equations; inversion Hb; lia.
Qed.

Section edits.
Context (NewKeyFromSeed : list Z → list Z * list Z).

(** One edit of the file, refused or not, and the terms it was to mint. The clock of a renewal
    is past the first second of the year 1. *)
Inductive edit (f : File) : list Terms → File → Prop :=
  | EditMint terms raw : edit f [terms] (Mint NewKeyFromSeed f terms raw).2
  | EditRenew id now extend : Second ≤ now → edit f [] (Renew f id now extend).2
  | EditRevoke id : edit f [] (Revoke f id).2.

Inductive edits : File → list Terms → File → Prop :=
  | edits_none f : edits f [] f
  | edits_more f minted f1 more f2 : edit f minted f1 → edits f1 more f2 → edits f (minted ++ more) f2.

(** [ed25519]: a public key is 32 bytes. *)
Context (Hkeys : ∀ seed, length (NewKeyFromSeed seed).2 = 32%nat ∧
                         Forall (λ b, 0 ≤ b < 256) (NewKeyFromSeed seed).2).

Lemma derived_id code :
  ∃ pub, Base64.RawURLDecodeString (KeyFromCode NewKeyFromSeed code).2 = Some pub ∧ length pub = 32%nat.
Proof.
  unfold KeyFromCode, CredentialID. set (seed := Sha256.Sum256 _). destruct (Hkeys seed) as [Hl Hb].
  destruct (NewKeyFromSeed seed) as [key pub]. simpl in *. exists pub. by rewrite RawURLDecode_encode.
Qed.

Lemma edit_keyed f minted f' : edit f minted f' → keyed (f_credentials f) → keyed (f_credentials f').
Proof.
  intros He [Hv Hd]. unfold keyed. destruct He as [terms raw|id now extend Hn|id].
  - destruct raw as [raw|]; [|done]. unfold Mint. cbv zeta. set (id := (KeyFromCode _ _).2).
    destruct (find f id) eqn:Hf; [done|]. cbn. rewrite Forall_app, Forall_singleton, fmap_app.
    split; [split; [done|apply derived_id]|].
    apply NoDup_app. split_and!; [done| |apply NoDup_singleton].
    apply find_None in Hf. cbn. set_solver.
  - unfold Renew. destruct (find f id) as [i|]; [|done]. destruct (Z.leb_spec extend 0); [done|]. cbn. split.
    + apply Forall_alter; [done|]. intros c _ Hc. exact Hc.
    + by rewrite (list_fmap_alter cr_ID _ (λ i, i)), list_alter_id by (done || by apply Forall_true).
  - unfold Revoke. destruct (find f id) as [i|]; [|done]. cbn. split.
    + rewrite Forall_forall in Hv |- *. intros c Hc. eapply Hv, elem_of_sublist; [exact Hc|apply sublist_delete].
    + rewrite list_fmap_delete. eapply sublist_NoDup; [exact Hd|apply sublist_delete].
Qed.

Lemma edit_grantable f minted f' :
  edit f minted f' → Forall grantable minted → Forall (λ c, grantable (cr_Terms c)) (f_credentials f) →
  Forall (λ c, grantable (cr_Terms c)) (f_credentials f').
Proof.
  intros He Hm Hv. destruct He as [terms raw|id now extend Hn|id].
  - rewrite Forall_singleton in Hm. destruct raw as [raw|]; [|done]. unfold Mint. cbv zeta.
    destruct (find f _); [done|]. cbn. by rewrite Forall_app, Forall_singleton.
  - unfold Renew. destruct (find f id) as [i|]; [|done]. destruct (Z.leb_spec extend 0); [done|]. cbn.
    set (t := Truncate _ _). apply Forall_alter; [done|]. intros c _ (_ & Hg). split; [|exact Hg].
    cbn. pose proof (renewed_later (default 0 (t_NotAfter ∘ cr_Terms <$> f_credentials f !! i)) now extend).
    subst t. lia.
  - unfold Revoke. destruct (find f id) as [i|]; [|done]. cbn.
    rewrite Forall_forall in Hv |- *. intros c Hc. eapply Hv, elem_of_sublist; [exact Hc|apply sublist_delete].
Qed.

Lemma edits_keyed f minted f' : edits f minted f' → keyed (f_credentials f) → keyed (f_credentials f').
Proof. induction 1; eauto using edit_keyed. Qed.

Lemma edits_grantable f minted f' :
  edits f minted f' → Forall grantable minted → Forall (λ c, grantable (cr_Terms c)) (f_credentials f) →
  Forall (λ c, grantable (cr_Terms c)) (f_credentials f').
Proof. induction 1; [done|]. intros [Hm Hm']%Forall_app Hv. eauto using edit_grantable. Qed.

Section written.
Context `{!GoRuntime, !Codec}.

Lemma Open_good path stat body f : Open path stat body = inr f → goodSet (f_credentials f).
Proof.
  unfold Open. destruct (is_empty _); [done|]. destruct stat as [dir| |regular mode]; [|done|].
  - destruct (negb dir); [done|]. intros [= <-]. by repeat constructor.
  - destruct (negb regular); [done|]. unfold ReadFile. destruct (body ≫= decodeCredentials); [|done].
    destruct (ParseCredentials _) as [|cs] eqn:Hp; [done|]. intros [= <-].
    by eapply ParseCredentials_good.
Qed.

(** Rendering a keyed set that can be said is refused exactly when the relay would refuse a
    term, and else the relay reads the set back. *)
Lemma keyed_file_loads f :
  keyed (f_credentials f) → Forall (λ c, sayable (cr_Terms c)) (f_credentials f) →
  (Forall (λ c, grantable (cr_Terms c)) (f_credentials f) →
     ∃ body cs, Marshal f = inr body ∧ ReadFile (decodeCredentials body) = Some cs ∧ cs ≡ₚ f_credentials f) ∧
  (¬ Forall (λ c, grantable (cr_Terms c)) (f_credentials f) → Marshal f = inl WouldNotLoad).
Proof.
  intros Hk Hs. unfold Marshal, ReadFile. cbv zeta. set (ordered := sort_slice _ _).
  assert (ordered ≡ₚ f_credentials f) as Ho by apply sort_slice_perm.
  destruct (rendered_whole ordered) as (body & -> & Hb).
  { rewrite Ho. destruct Hk as [Hk _]. eapply Forall_impl; [apply Forall_and; split; [exact Hk|exact Hs]|].
    intros c [(pub & Hpub & _) Hc]. split; [by eapply decoded_ascii|done]. }
  rewrite Hb. destruct (ParseCredentials_good ordered) as [Hgood Hback]. split; intros Hg.
  - destruct Hgood as (cs & Hp & Hc).
    { eapply goodSet_perm; [by symmetry|]. by apply goodSet_keyed. }
    exists body, cs. rewrite Hb, Hp. rewrite (Permutation_length Hc), bool_decide_eq_true_2 by done.
    split_and!; [done..|]. by etrans.
  - destruct (ParseCredentials ordered) as [|cs] eqn:Hp; [done|]. destruct Hg.
    apply goodSet_keyed. eapply goodSet_perm; [|by eapply Hback].
    rewrite <-Ho. by apply ParseCredentials_perm.
Qed.

(** C30: What the tool can be holding, and when it is a file the relay loads. Whatever file it
    opened and whatever mints, renewals and revocations it made, in any order and refused or
    not, the set has 32-byte keys and distinct ids; and if no mint asked for terms with a
    negative number or no expiry, every credential of the set has an expiry and no negative
    number. A set that the file can say (text in UTF-8, expiries before the year 10000, windows
    of whole seconds) is then rendered, and the relay's reader gets from the bytes exactly the
    credentials of the set; but a preset may have a negative number, its terms are minted into
    the set unchecked, and such a set is refused when it is rendered, as one that the relay
    would not load. *)
Theorem edited_file_loads path stat found f minted f' :
  Open path stat found = inr f → edits f minted f' →
  keyed (f_credentials f') ∧
  (Forall grantable minted → Forall (λ c, grantable (cr_Terms c)) (f_credentials f')) ∧
  (Forall (λ c, sayable (cr_Terms c)) (f_credentials f') →
   (Forall (λ c, grantable (cr_Terms c)) (f_credentials f') →
      ∃ body cs, Marshal f' = inr body ∧ ReadFile (decodeCredentials body) = Some cs ∧
                 cs ≡ₚ f_credentials f') ∧
   (¬ Forall (λ c, grantable (cr_Terms c)) (f_credentials f') → Marshal f' = inl WouldNotLoad)).
Proof.
  intros Hopen Hedits. apply Open_good, goodSet_keyed in Hopen as [Hk Hg].
  pose proof (edits_keyed _ _ _ Hedits Hk). split_and!; [done| |].
  - intros Hm. by eapply edits_grantable.
  - intros Hs. by apply keyed_file_loads.
Qed.
End written.
End edits.

(** ** Renewals and revocations *)

Lemma alter_by_id (g : Credential → Credential) cs i c :
  NoDup (cr_ID <$> cs) → cs !! i = Some c →
  alter g i cs = (λ x, if bool_decide (cr_ID x = cr_ID c) then g x else x) <$> cs.
Proof.
  revert i. induction cs as [|x cs IH]; intros i Hd Hi; [done|].
  cbn [fmap list_fmap] in Hd. apply NoDup_cons in Hd as [Hx Hd].
  destruct i as [|i]; cbn [fmap list_fmap].
  - injection Hi as ->. rewrite bool_decide_eq_true_2 by done. cbn. f_equal. symmetry.
    rewrite <-(list_fmap_id cs) at 2. apply list_fmap_ext. intros j y Hy. rewrite bool_decide_eq_false_2; [done|].
    intros Heq. apply Hx. rewrite <-Heq. by eapply list_elem_of_fmap_2, list_elem_of_lookup_2.
  - cbn. rewrite (IH i Hd Hi). rewrite bool_decide_eq_false_2; [done|].
    intros Heq. apply Hx. rewrite Heq. by eapply list_elem_of_fmap_2, list_elem_of_lookup_2.
Qed.

(** A renewal is refused, changing nothing, exactly when the file has no such credential or the
    extension is not positive. Otherwise it answers the window that was and the new one, which
    runs from the old end or from now, whichever is later, for the whole extension less what
    is cut to a whole second; it changes the expiry of that credential and nothing else. *)
Theorem renewal_exact f id now extend :
  NoDup (cr_ID <$> f_credentials f) →
  match Renew f id now extend with
  | (inl err, f') => f' = f ∧ (err = ErrNoSuchCredential ∧ id ∉ cr_ID <$> f_credentials f ∨
                               err = NotAnExtension ∧ id ∈ cr_ID <$> f_credentials f ∧ extend ≤ 0)
  | (inr (was, until), f') =>
      (∃ c, c ∈ f_credentials f ∧ cr_ID c = id ∧ was = t_NotAfter (cr_Terms c)) ∧ 0 < extend ∧
      Z.max was now + extend - Second < until ≤ Z.max was now + extend ∧ until mod Second = 0 ∧
      f_credentials f' = (λ c, if bool_decide (cr_ID c = id) then with_NotAfter until c else c)
                           <$> f_credentials f
  end.
Proof.
  intros Hd. unfold Renew. destruct (find f id) as [i|] eqn:Hf.
  2: { split; [done|]. left. split; [done|]. exact (proj1 (find_None f id) Hf). }
  destruct (find_Some f id i Hf) as (c & Hc & Hid).
  pose proof (list_elem_of_lookup_2 _ _ _ Hc) as Hin.
  destruct (Z.leb_spec extend 0).
  { split; [done|]. right. split_and!; [done| |done]. subst id. by apply list_elem_of_fmap_2. }
  rewrite Hc. cbn [fmap option_fmap option_map default]. cbv beta zeta.
  split; [by exists c|]. split; [done|]. split; [|split].
  - unfold Truncate, Add, Before, compose, Datatypes.id, Second. destruct (Z.ltb_spec (t_NotAfter (cr_Terms c)) now);
      Z.to_euclidean_division_equations; lia.
  - unfold Truncate. rewrite Zminus_mod_idemp_r, Z.sub_diag. done.
  - cbn [f_credentials with_credentials]. subst id. by rewrite (alter_by_id _ _ i c).
Qed.

(** A revocation takes exactly its credential out of the file. *)
Theorem revocation_exact f id :
  NoDup (cr_ID <$> f_credentials f) →
  match Revoke f id with
  | (inl err, f') => f' = f ∧ err = ErrNoSuchCredential ∧ id ∉ cr_ID <$> f_credentials f
  | (inr c, f') => cr_ID c = id ∧ c :: f_credentials f' ≡ₚ f_credentials f ∧
                   id ∉ cr_ID <$> f_credentials f'
  end.
Proof.
  intros Hd. unfold Revoke. destruct (find f id) as [i|] eqn:Hf; [|by pose proof (proj1 (find_None f id) Hf)].
  destruct (find_Some f id i Hf) as (c & Hc & Hid). rewrite Hc. cbn [default f_credentials with_credentials].
  assert (c :: delete i (f_credentials f) ≡ₚ f_credentials f) as Hp by (symmetry; by apply delete_Permutation).
  split_and!; [done..|]. rewrite <-Hp in Hd. cbn [fmap list_fmap] in Hd. subst id.
  by apply NoDup_cons in Hd as [? _].
Qed.

(** ** Tiers and windows *)

(** Presets are checked for the same name twice, and looked up without regard to case: a file
    with two tiers that differ only in case loads, and the second of them is never granted,
    not even by its exact name. *)
Lemma tier_shadowed `{!Folding} :
  let crew := mkPreset "Crew" 10 0 0 0 0 0 in
  let crew' := mkPreset "crew" 20 0 0 0 0 0 in
  LoadPresets "tiers.json" (Some [crew; crew']) = inr (mkPresets "tiers.json" [crew; crew']) ∧
  lookupTier (mkPresets "tiers.json" [crew; crew']) "crew" = inr crew.
Proof.
  split; [by vm_compute|]. unfold lookupTier. cbn [list_find ps_tiers].
  rewrite decide_True; [done|]. cbn [pr_Tier]. rewrite EqualFold_ascii by (by vm_compute). by vm_compute.
Qed.

(** ** Examples *)

(** A file whose bytes are its entries, and keys cut to their length. *)
Lemma plain_decodes (es body : list Rendered) :
  Some es = Some body → ∃ es', Some body = Some es' ∧ Forall2 (λ e e', Plain e → e' = e) es es'.
Proof. intros [= ->]. exists body. split; [done|]. induction body; by constructor. Qed.

Lemma plain_renders (es : list Rendered) :
  Forall (λ e, 0 ≤ re_NotAfter e < lastStamp) es → is_Some (Some es).
Proof. by eexists. Qed.

Definition plainCodec : Codec :=
  {| Document := list Rendered; emptyDocument := []; MarshalIndent := Some; decodeFile := Some;
     MarshalIndent_decodes := plain_decodes; MarshalIndent_renders := plain_renders |}.

Definition demoKeys (seed : list Z) : list Z * list Z :=
  let key := (λ b, b mod 256) <$> take 32 (seed ++ replicate 32 0) in (key, key).

Lemma demoKeys_pub seed :
  length (demoKeys seed).2 = 32%nat ∧ Forall (λ b, 0 ≤ b < 256) (demoKeys seed).2.
Proof.
  split; cbn [demoKeys snd].
  - rewrite length_fmap, length_take, length_app, length_replicate. lia.
  - apply Forall_fmap, Forall_true. intros b. apply Z.mod_pos_bound. lia.
Qed.

#[local] Existing Instances plainCodec list_runtime.

Module Sample.
Definition calls (rename : bool) : SaveCalls :=
  mkSaveCalls (Some ".credentials-1.json") (0, 0) [] true true true true true rename true.
Definition old : list Credential := [mkCredential (CredentialID (replicate 32 7)) (mkTerms "" (2 * 10 ^ 18) 0 0 0 0 0 0)].
Definition disk : gmap string (entry) :=
  {["/etc/relay.json" := mkEntry 0x1A4 (12, 12) (fmap (M := list) render old)]}.
Definition file : File := mkFile "/etc/relay.json" old 0x1A4 true.
Definition raw : list Z := [0xde; 0xad; 0xbe; 0xef; 1; 2; 3; 4; 5; 6; 7; 8; 9; 10; 11; 12].
Definition terms : Terms := mkTerms "crew" (3 * 10 ^ 18) 100 0 0 0 0 0.
Definition minted : File := (Mint demoKeys file terms (Some raw)).2.
End Sample.

(** A save whose rename fails: the directory is as it was. *)
Lemma save_atomic_witness :
  let '(err, f', ds) := Save (Sample.calls false) Sample.minted Sample.disk in
  err = Some WriteFailed ∧ last ds = Some Sample.disk.
Proof.
  pose proof (save_atomic (Sample.calls false) Sample.minted Sample.disk) as Hs.
  destruct (Save _ _ _) as [[err f'] ds] eqn:He.
  assert (err = Some WriteFailed) as ->.
  { transitivity (Save (Sample.calls false) Sample.minted Sample.disk).1.1;
      [by rewrite He|vm_compute; reflexivity]. }
  destruct Hs as (_ & d' & Hl & _ & _ & Hd).
  { intros name [= <-]. split; [vm_compute; reflexivity|]. vm_compute. discriminate. }
  split; [reflexivity|]. rewrite Hl, (Hd eq_refl). reflexivity.
Defined.

Lemma edited_file_loads_witness :
  edits demoKeys Sample.file [Sample.terms] Sample.minted ∧
  ∃ body cs, Marshal Sample.minted = inr body ∧
    ReadFile (decodeCredentials body) = Some cs ∧
    cs ≡ₚ f_credentials Sample.minted ∧ length cs = 2%nat.
Proof.
  assert (edits demoKeys Sample.file ([Sample.terms] ++ []) Sample.minted) as Hr.
  { eapply edits_more; [apply EditMint|apply edits_none]. }
  split; [exact Hr|].
  destruct (edited_file_loads demoKeys demoKeys_pub "/etc/relay.json"
    (Info true 0x1A4) (Some (fmap (M := list) render Sample.old : @Document plainCodec)) Sample.file [Sample.terms] Sample.minted)
    as (_ & Hg & Hs).
  - vm_compute. reflexivity.
  - exact Hr.
  - assert (grantable Sample.terms) as Ht by (vm_compute; split_and!; discriminate || (intros ?; discriminate)).
    destruct Hs as [Hs _].
    + let cs := eval vm_compute in (f_credentials Sample.minted) in
        assert (f_credentials Sample.minted = cs) as -> by (vm_compute; reflexivity).
      rewrite !Forall_cons. split_and!; [|..|by constructor];
        (split; [|split; [|split]]; [reflexivity|by vm_compute|by vm_compute|
          repeat (apply Forall_cons; split); [by vm_compute..|by constructor]]).
    + destruct Hs as (body & cs & HM & HR & Hc); [apply Hg, Forall_singleton, Ht|].
      exists body, cs. split_and!; [done..|]. by rewrite (Permutation_length Hc).
Defined.
