(* ===== verification/GoText.v ===== *)
(** * Formatting: what the texts use of [fmt], [time] and [strings]

    Integers, columns, floats to four digits, and times as RFC 3339. Every day has
    a date of the calendar, and the date counts back to the day ([civil_days]). *)

From Stdlib Require Import Strings.String Floats.SpecFloat.
From S2P Require Import Prelude Strconv Float64 GoDuration.

Open Scope Z_scope.

(** ** [fmt] *)

(** [%d] of an integer. *)
Definition Itoa (n : Z) : string := string_of_bytes (FormatInt n).

Definition newline : string := string_of_bytes [10].

Fixpoint Join (sep : string) (parts : list string) : string :=
  match parts with
  | [] => ""
  | [part] => part
  | part :: parts => part +:+ sep +:+ Join sep parts
  end.

(** The runes of a valid UTF-8 text: its bytes that do not continue one. *)
Definition runeCount (s : string) : nat :=
  length (filter (λ b, negb ((128 <=? b) && (b <? 192)) = true) (bytes_of_string s)).

(** [%-ns] *)
Definition padded (n : nat) (s : string) : string := s +:+ string_of_bytes (replicate (n - runeCount s) 32).

Definition fmtE (digits : list Z) (exponent : Z) : list Z :=
  take 1 digits ++ (if bool_decide (drop 1 digits = []) then [] else 46 :: drop 1 digits) ++ [101; 43] ++
  (if exponent <? 10 then [48] else []) ++ decimal 20 exponent [].

(** The digits with the point after the first [k], filled with zeros before it. *)
Definition fmtF (digits : list Z) (k : nat) : list Z :=
  take k (digits ++ replicate (k - length digits) 48) ++
  (if bool_decide (drop k digits = []) then [] else 46 :: drop k digits).

Fixpoint trimZeros (l : list Z) : list Z :=
  match l with
  | [] => []
  | b :: l => match trimZeros l with [] => if b =? 48 then [] else [b] | rest => b :: rest end
  end.

(** A quotient of positive integers, rounded half to even. *)
Definition roundEven (num den : Z) : Z :=
  let q := num / den in let r := num mod den in
  if (den <? 2 * r) || ((den =? 2 * r) && Z.odd q) then q + 1 else q.

(** [%.4g] of a float of at least 1: the value as a quotient, its four digits correctly
    rounded, and the decimal exponent form from ten thousand on. *)
Definition format4g (x : spec_float) : string :=
  match x with
  | S754_finite false m e =>
      let num := if 0 <=? e then Zpos m * 2 ^ e else Zpos m in
      let den := if 0 <=? e then 1 else 2 ^ (- e) in
      let k := Z.of_nat (length (decimal 20 (num / den) [])) in
      let n := if k <=? 4 then roundEven (num * 10 ^ (4 - k)) den else roundEven num (den * 10 ^ (k - 4)) in
      let carried := n =? 10000 in
      let k := if carried then k + 1 else k in
      let digits := trimZeros (decimal 20 (if carried then 1000 else n) []) in
      let nd := Z.of_nat (length digits) in
      let eprec := if (nd <? 4) && (k <=? nd) then nd else 4 in
      string_of_bytes (if eprec <=? k - 1 then fmtE digits (k - 1) else fmtF digits (Z.to_nat k))
  | _ => ""
  end.

(** ** [time] *)

(** The year, month and day of a day counted from the first of January of the year 1. *)
Definition civil (days : Z) : Z * Z * Z :=
  let z := days + 306 in
  let era := z / 146097 in
  let doe := z mod 146097 in
  let yoe := (doe - doe / 1460 + doe / 36524 - doe / 146096) / 365 in
  let doy := doe - (365 * yoe + yoe / 4 - yoe / 100) in
  let mp := (5 * doy + 2) / 153 in
  let d := doy - (153 * mp + 2) / 5 + 1 in
  let m := if mp <? 10 then mp + 3 else mp - 9 in
  (yoe + era * 400 + (if m <=? 2 then 1 else 0), m, d).

Definition zeroPadded (width : nat) (l : list Z) : list Z :=
  replicate (width - length l) 48 ++ l.

(** [t.UTC().Format(time.RFC3339)] of a time of the year 1 or later. *)
Definition RFC3339 (t : Time) : string :=
  let seconds := t / Second in
  let '(y, m, d) := civil (seconds / 86400) in
  let s := seconds mod 86400 in
  let num w n := zeroPadded w (decimal 20 n []) in
  string_of_bytes (num 4%nat y ++ [45] ++ num 2%nat m ++ [45] ++ num 2%nat d ++ [84] ++
    num 2%nat (s / 3600) ++ [58] ++ num 2%nat (s / 60 mod 60) ++ [58] ++ num 2%nat (s mod 60) ++ [90]).

(** [d.Hours()] *)
Definition Hours (d : Duration) : spec_float :=
  f_add (f_of_int (Z.quot d Hour)) (f_div (f_of_int (Z.rem d Hour)) (f_of_int (60 * 60 * 10 ^ 9))).

(** [d.Seconds()] *)
Definition Seconds (d : Duration) : spec_float :=
  f_add (f_of_int (Z.quot d Second)) (f_div (f_of_int (Z.rem d Second)) (f_of_int (10 ^ 9))).

(** ** Checks *)

Example format_times :
  RFC3339 <$> [0; 62135596800 * Second; 63082281600 * Second; 63844804800 * Second; 63934358399 * Second + 1]
  = ["0001-01-01T00:00:00Z"; "1970-01-01T00:00:00Z"; "2000-01-01T00:00:00Z"; "2024-02-29T12:00:00Z";
     "2026-12-31T23:59:59Z"]%string.
Proof. by vm_compute. Qed.

Example format_floats :
  (λ v, format4g (f_div (f_of_int v) (f_of_int (2 ^ 20)))) <$>
    [1048576; 1572864; 1234567; 104857600; 999950000; 10484711424; 10485235712; 2 ^ 63 - 1]
  = ["1"; "1.5"; "1.177"; "100"; "953.6"; "9999"; "1e+04"; "8.796e+12"]%string.
Proof. by vm_compute. Qed.

(** ** The calendar *)

(** The number of days from the first of January of the year 1 to a date: 365 for every
    year before, one for every leap year, and the days of the months before. *)
Definition leap (y : Z) : bool := ((y mod 4 =? 0) && negb (y mod 100 =? 0)) || (y mod 400 =? 0).

Definition monthDays (y m : Z) : Z :=
  if m =? 2 then (if leap y then 29 else 28) else
  if (m =? 4) || (m =? 6) || (m =? 9) || (m =? 11) then 30 else 31.

Definition daysBeforeYear (y : Z) : Z := let p := y - 1 in 365 * p + p / 4 - p / 100 + p / 400.

Definition daysBeforeMonth (y m : Z) : Z := zsum (monthDays y) (seqZ 1 (m - 1)).

Definition daysOf (date : Z * Z * Z) : Z :=
  let '(y, m, d) := date in daysBeforeYear y + daysBeforeMonth y m + (d - 1).

Definition validDate (date : Z * Z * Z) : Prop :=
  let '(y, m, d) := date in 1 ≤ m ≤ 12 ∧ 1 ≤ d ≤ monthDays y m.

Local Ltac zlia := Z.to_euclidean_division_equations; lia.

Lemma leap_period y k : leap (y + 400 * k) = leap y.
Proof.
  unfold leap. replace (y + 400 * k) with (y + k * 100 * 4) at 1 by lia. rewrite Z.mod_add by lia.
  replace (y + 400 * k) with (y + k * 4 * 100) at 1 by lia. rewrite Z.mod_add by lia.
  replace (y + 400 * k) with (y + k * 400) by lia. by rewrite Z.mod_add by lia.
Qed.

Lemma daysBeforeYear_succ y : daysBeforeYear (y + 1) = daysBeforeYear y + 365 + (if leap y then 1 else 0).
Proof.
  unfold daysBeforeYear, leap. cbv zeta. replace (y + 1 - 1) with y by lia.
  repeat case Z.eqb_spec; intros; cbn [andb orb negb]; zlia.
Qed.

Lemma daysBeforeYear_era y k : 0 ≤ y < 400 → daysBeforeYear (y + 400 * k + 1) = 365 * y + y / 4 - y / 100 + 146097 * k.
Proof. intros. unfold daysBeforeYear. cbv zeta. zlia. Qed.

(** The months counted from March, so that a leap day is the last of its year. *)
Lemma twelve_months (P : Z → Prop) : Forall P (seqZ 0 12) → ∀ mp, 0 ≤ mp < 12 → P mp.
Proof. rewrite Forall_forall. intros H mp Hmp. apply H, elem_of_seqZ. lia. Qed.

Lemma daysBeforeMonth_march y mp : 0 ≤ mp < 12 →
  daysBeforeMonth y (if mp <? 10 then mp + 3 else mp - 9) =
    if mp <? 10 then 59 + (if leap y then 1 else 0) + (153 * mp + 2) / 5 else 31 * (mp - 10).
Proof.
  revert mp. apply twelve_months. unfold daysBeforeMonth, monthDays.
  destruct (leap y); vm_compute; repeat constructor.
Qed.

Lemma monthDays_march y mp : 0 ≤ mp < 12 →
  monthDays y (if mp <? 10 then mp + 3 else mp - 9) =
    if mp =? 11 then 28 + (if leap y then 1 else 0) else (153 * (mp + 1) + 2) / 5 - (153 * mp + 2) / 5.
Proof.
  revert mp. apply twelve_months. unfold monthDays.
  destruct (leap y); vm_compute; repeat constructor.
Qed.

(** The year of a day of the period of four hundred years, and the day of that year. *)
Lemma year_of_era doe : 0 ≤ doe < 146097 →
  let y := (doe - doe / 1460 + doe / 36524 - doe / 146096) / 365 in
  0 ≤ y < 400 ∧ 0 ≤ doe - (365 * y + y / 4 - y / 100) < 365 + (if leap (y + 1) then 1 else 0).
Proof.
  intros H. destruct (decide (doe = 146096)) as [->|Hn]; [by vm_compute|].
  assert (∃ b, doe / 36524 = b ∧ 36524 * b ≤ doe < 36524 * b + 36524) as (b & Hb & Hdoe) by (eexists; split; [done|zlia]).
  assert (∃ a, doe / 1460 = a ∧ 1460 * a ≤ doe < 1460 * a + 1460) as (a & Ha & Hdoe') by (eexists; split; [done|zlia]).
  rewrite (Z.div_small doe 146096), Ha, Hb by lia. cbv zeta. clear Ha Hb.
  remember ((doe - a + b - 0) / 365) as y eqn:Hy.
  assert (365 * y ≤ doe - a + b < 365 * y + 365) as Hy' by (subst y; zlia). clear Hy.
  assert (b = 0 ∨ b = 1 ∨ b = 2 ∨ b = 3) as Hbs by lia.
  assert (y / 100 = b) as Hyb by (destruct_or! Hbs; subst b; zlia).
  split; [lia|]. rewrite Hyb.
  assert (∃ q, y / 4 = q ∧ 4 * q ≤ y < 4 * q + 4) as (q & -> & Hq) by (eexists; split; [done|zlia]).
  split; [lia|]. unfold leap. repeat case Z.eqb_spec; intros; cbn [andb orb negb]; zlia.
Qed.

(** Every day has a date, and the date is that day's. *)
Lemma civil_days day : validDate (civil day) ∧ daysOf (civil day) = day.
Proof.
  unfold civil. cbv zeta.
  pose proof (Z.mod_pos_bound (day + 306) 146097) as Hr. pose proof (Z.div_mod (day + 306) 146097) as Hday.
  set (era := (day + 306) / 146097) in *. set (doe := (day + 306) mod 146097) in *. clearbody era doe.
  destruct (year_of_era doe) as [Hy Hd]; [lia|].
  set (y := (doe - doe / 1460 + doe / 36524 - doe / 146096) / 365) in *. clearbody y.
  pose proof (daysBeforeYear_era y era Hy) as Hera. pose proof (daysBeforeYear_succ (y + 400 * era)) as Hstep.
  rewrite <-(leap_period (y + 1) era) in Hd. replace (y + 1 + 400 * era) with (y + 400 * era + 1) in Hd by lia.
  set (doy := doe - (365 * y + y / 4 - y / 100)) in *.
  assert (daysBeforeYear (y + 400 * era + 1) + doy - 306 = day) as Hsum by (subst doy; lia).
  clearbody doy. clear Hday Hera Hr Hy. rewrite (Z.mul_comm era).
  set (Y := y + 400 * era) in *. clearbody Y. clear y era doe.
  assert (∃ mp, (5 * doy + 2) / 153 = mp ∧ 153 * mp ≤ 5 * doy + 2 < 153 * mp + 153) as (mp & -> & Hmp)
    by (eexists; split; [done|zlia]).
  assert (0 ≤ mp < 12) as Hm by (destruct (leap (Y + 1)); lia). unfold validDate, daysOf.
  assert ((if mp <? 10 then mp + 3 else mp - 9) <=? 2 = negb (mp <? 10)) as -> by (destruct (Z.ltb_spec mp 10); lia).
  rewrite daysBeforeMonth_march, monthDays_march by done.
  destruct (Z.ltb_spec mp 10); cbn [negb]; rewrite ?Z.add_0_r; (split; [split; [lia|]|zlia]).
  all: destruct (Z.eqb_spec mp 11); [|zlia]; destruct (leap (Y + 1)); zlia.
Qed.
