(* ===== verification/Admit.v ===== *)
(** * The issuance command ([cmd/dee-admit/main.go], [session.go])

    The five subcommands over [Issue.v]: mint, renew, revoke and list edit or show the
    credential file, and session opens an admission session against a running relay. A command
    answers a value where the program prints; [AdmitText.v] has the texts around it. *)

From Stdlib Require Import Strings.String.
From S2P Require Import Prelude Crypto Strconv Code Config Admission Node Server Issue.

Open Scope Z_scope.

Inductive AdmitError :=
  | GaveBoth | NamesNoCredential | NoDays | TierNeedsPresets
  | NoRelay | NeedsTheCode
  | Failed (err : IssueError)
  | CallError | GateBusy | NoGate | Unexpected (status : Z) | NotANonce
  | WindowEnded | NotAdmittedThere | NoSessionToken.

#[export] Instance AdmitError_eq_dec : EqDecision AdmitError.
Proof. solve_decision. Defined.

(** ** Flags *)

Record flags := mkFlags {
  fl_file : string;
  fl_tiers : string;
  fl_tier : string;
  fl_days : Z;
  fl_code : string;
  fl_credential : string;
}.

(** The flags of a command line, [None] where one is not given. *)
Record Args := mkArgs {
  ar_file : option string;
  ar_tiers : option string;
  ar_tier : option string;
  ar_days : option Z;
  ar_code : option string;
  ar_credential : option string;
}.

(** [newFlags] and its [with] methods: the defaults are the environment's. *)
Definition newFlags (env : Environ) (a : Args) : flags :=
  mkFlags (default (env "DEE_NODE_ADMISSION_FILE"%string) (ar_file a))
    (default (env "DEE_ADMIT_TIERS"%string) (ar_tiers a)) (default ""%string (ar_tier a))
    (default 0 (ar_days a)) (default ""%string (ar_code a)) (default ""%string (ar_credential a)).

(** A duration is a 64-bit integer, and the product of days wraps. *)
Definition window (f : flags) : AdmitError + Duration :=
  if fl_days f <=? 0 then inl NoDays else inr (wrap_int64 (fl_days f * 24 * Hour)).

Section commands.
Context (NewKeyFromSeed : list Z → list Z * list Z) (Sign : list Z → list Z → list Z).

(** [line] is the first line of the standard input. *)
Definition subject (f : flags) (line : option string) : AdmitError + string :=
  let derive code := match CredentialFromCode NewKeyFromSeed code with
                     | inl err => inl (Failed err) | inr id => inr id end in
  if negb (is_empty (fl_credential f)) && negb (is_empty (fl_code f)) then inl GaveBoth else
  if negb (is_empty (fl_credential f)) then inr (fl_credential f) else
  if is_empty (fl_code f) then inl NamesNoCredential else
  if bool_decide (fl_code f = "-"%string) then
    match ReadCode line with inl err => inl (Failed err) | inr code => derive code end
  else derive (fl_code f).

(** ** The commands on the file *)

Section file.
Context `{!GoRuntime, !Codec, !Folding}.

(** What a run finds: the clock, the input, the presets and the credential file as they are
    read, the random bytes, and the answers of the calls of a save. *)
Record Host := mkHost {
  ho_now : Time;
  ho_line : option string;
  ho_presets : option (list Preset);
  ho_stat : StatAnswer;
  ho_body : option Document;
  ho_raw : option (list Z);
  ho_calls : SaveCalls;
}.

(** The terms [mint] grants. *)
Definition mintTerms (f : flags) (h : Host) (w : Duration) : AdmitError + Terms :=
  if negb (is_empty (fl_tier f)) then
    if is_empty (fl_tiers f) then inl TierNeedsPresets else
    match LoadPresets (fl_tiers f) (ho_presets h) with
    | inl err => inl (Failed err)
    | inr presets =>
        match lookupTier presets (fl_tier f) with
        | inl err => inl (Failed err)
        | inr preset => inr (presetTerms preset (Add (ho_now h) w))
        end
    end
  else inr (mkTerms "" (Truncate (Add (ho_now h) w) Second) 0 0 0 0 0 0).

(** A save that ends a command: the answer it is to print, or the error. *)
Definition saved {A} (h : Host) (file : File) (d : Disk) (answer : File → A)
  : (AdmitError + A) * list Disk :=
  match Save (ho_calls h) file d with
  | (Some err, _, ds) => (inl (Failed err), ds)
  | (None, file, ds) => (inr (answer file), ds)
  end.

(** The code, the credential, and how many credentials the file holds. *)
Definition mint (f : flags) (h : Host) (d : Disk) : (AdmitError + string * Credential * Z) * list Disk :=
  match window f with
  | inl err => (inl err, [d])
  | inr w =>
    match mintTerms f h w with
    | inl err => (inl err, [d])
    | inr terms =>
      match Open (fl_file f) (ho_stat h) (ho_body h) with
      | inl err => (inl (Failed err), [d])
      | inr file =>
        match Mint NewKeyFromSeed file terms (ho_raw h) with
        | (inl err, _) => (inl (Failed err), [d])
        | (inr (code, credential), file) =>
            saved h file d (λ file, (code, credential, Issue.Count file))
        end
      end
    end
  end.

(** The credential, its window before and after, whether it had lapsed, and the count. *)
Definition renew (f : flags) (h : Host) (d : Disk)
  : (AdmitError + string * Time * Time * bool * Z) * list Disk :=
  match subject f (ho_line h) with
  | inl err => (inl err, [d])
  | inr id =>
    match window f with
    | inl err => (inl err, [d])
    | inr w =>
      match Open (fl_file f) (ho_stat h) (ho_body h) with
      | inl err => (inl (Failed err), [d])
      | inr file =>
        match Renew file id (ho_now h) w with
        | (inl err, _) => (inl (Failed err), [d])
        | (inr (was, until), file) =>
            saved h file d (λ file, (id, was, until, Before was (ho_now h), Issue.Count file))
        end
      end
    end
  end.

(** The credential, what was revoked, and how many credentials are left. *)
Definition revoke (f : flags) (h : Host) (d : Disk)
  : (AdmitError + string * Credential * Z) * list Disk :=
  match subject f (ho_line h) with
  | inl err => (inl err, [d])
  | inr id =>
    match Open (fl_file f) (ho_stat h) (ho_body h) with
    | inl err => (inl (Failed err), [d])
    | inr file =>
      match Revoke file id with
      | (inl err, _) => (inl (Failed err), [d])
      | (inr revoked, file) => saved h file d (λ file, (id, revoked, Issue.Count file))
      end
    end
  end.

(** The rows of [list], soonest expiry first, and whether the file was there. *)
Definition list_ (f : flags) (h : Host) : AdmitError + list Credential * bool :=
  match Open (fl_file f) (ho_stat h) (ho_body h) with
  | inl err => inl (Failed err)
  | inr file => inr (Credentials file, f_existed file)
  end.
End file.

(** ** The session command *)

(** What a POST to the relay comes back with: nothing, where the call failed or took longer
    than the twenty seconds of [sessionTimeout], or a status and its body, [None] if the body
    is not JSON of the relay. *)
Inductive Answer := CallFailed | Answered (status : Z) (body : option Body).

(** [call] posts to a url, with the body of a redemption if there is one. *)
Context (call : string → option (string * string * string) → Prog Answer).

Definition failureCode (body : option Body) : string :=
  match body with Some (BError code) => code | _ => ""%string end.

Definition challenge (relay : string) : Prog (AdmitError + string) :=
  answer ← call (relay +:+ "/admission/challenge") None;
  mret match answer with
       | CallFailed => inl CallError
       | Answered status body =>
           if status =? 200 then
             match body with
             | Some (BChallenge nonce _) => if is_empty nonce then inl NotANonce else inr nonce
             | _ => inl NotANonce
             end
           else if status =? 429 then inl GateBusy
           else if status =? 404 then inl NoGate
           else inl (Unexpected status)
       end.

Definition signChallenge (key : list Z) (nonce credentialID : string) : string :=
  Base64.RawURLEncodeToString (Sign key (Transcript nonce credentialID)).

Definition redeem (relay credentialID nonce signature : string)
  : Prog (AdmitError + string * Z * Terms) :=
  answer ← call (relay +:+ "/admission/redeem") (Some (credentialID, nonce, signature));
  mret match answer with
       | CallFailed => inl CallError
       | Answered status body =>
           if negb (status =? 200) then
             let code := failureCode body in
             if bool_decide (code = "admission_expired"%string) then inl WindowEnded
             else if bool_decide (code = "admission_refused"%string) then inl NotAdmittedThere
             else if bool_decide (code = "admission_busy"%string) then inl GateBusy
             else inl (Unexpected status)
           else
             match body with
             | Some (BSession token expiresInSec terms) =>
                 if is_empty token then inl NoSessionToken else inr (token, expiresInSec, terms)
             | _ => inl NoSessionToken
             end
       end.

(** The token, its lifetime and the granted terms. *)
Definition session (f : flags) (relay : string) (line : option string)
  : Prog (AdmitError + string * Z * Terms) :=
  if is_empty relay then mret (inl NoRelay) else
  let relay := TrimRightSlash relay in
  if negb (is_empty (fl_credential f)) && is_empty (fl_code f) then mret (inl NeedsTheCode) else
  if is_empty (fl_code f) then mret (inl NamesNoCredential) else
  match (if bool_decide (fl_code f = "-"%string) then ReadCode line else inr (fl_code f)) with
  | inl err => mret (inl (Failed err))
  | inr code =>
      if is_empty (NormalizeCode code) then mret (inl (Failed NotACode)) else
      let '(key, credentialID) := KeyFromCode NewKeyFromSeed code in
      nonce ← challenge relay;
      match nonce with
      | inl err => mret (inl err)
      | inr nonce => redeem relay credentialID nonce (signChallenge key nonce credentialID)
      end
  end.
End commands.
