(* ===== verification/AdmitText.v ===== *)
(** * What the issuance command prints ([cmd/dee-admit/main.go], [session.go])

    The texts around the values of [Admit.v]: windows, terms, the answers of the commands on the
    file, and the explanations of a failed session. Strings that are padded come from JSON
    and are valid UTF-8. *)

From Stdlib Require Import Strings.String Floats.SpecFloat.
From S2P Require Import Prelude Crypto Strconv Float64 GoDuration GoText Config Admission Issue Admit.

Open Scope Z_scope.

(** ** Windows and terms *)

Definition plural (n : Z) : string := if n =? 1 then "" else "s".

(** A negative number of days, which an overflow of the sum can give, is below one too, so
    [f_trunc] need not tell it from zero. *)
Definition remaining (notAfter now : Time) : string :=
  if negb (After notAfter now) then "EXPIRED" else
  let days := f_trunc (f_div (Hours (wrap_int64 (Sub notAfter now + 12 * Hour))) (f_of_int 24)) in
  if days <? 1 then "under a day left" else Itoa days +:+ " day" +:+ plural days +:+ " left".

Definition field (name : string) (set : bool) (value : string) : string :=
  if negb set then name +:+ " box" else name +:+ " " +:+ value.

Definition humanBytes (value : Z) : string :=
  if 2 ^ 30 <=? value then format4g (f_div (f_of_int value) (f_of_int (2 ^ 30))) +:+ " GB" else
  if 2 ^ 20 <=? value then format4g (f_div (f_of_int value) (f_of_int (2 ^ 20))) +:+ " MB" else
  Itoa value +:+ " B".

Definition describe (terms : Terms) : string :=
  Join " · "
    [field "queueSlots" (negb (t_QueueSlots terms =? 0)) (Itoa (t_QueueSlots terms));
     field "retention" (negb (t_RetentionWindow terms =? 0)) (durationString (t_RetentionWindow terms));
     field "attachment" (negb (t_AttachmentBytes terms =? 0)) (humanBytes (t_AttachmentBytes terms));
     field "transfers" (negb (t_ConcurrentTransfers terms =? 0)) (Itoa (t_ConcurrentTransfers terms));
     field "transit" (negb (t_TransitBytesPerDay terms =? 0)) (humanBytes (t_TransitBytesPerDay terms) +:+ "/24h");
     field "perPair" (negb (t_MaxPerPair terms =? 0)) (Itoa (t_MaxPerPair terms))].

Example print_windows :
  (λ d, remaining (1000 * Hour + d) (1000 * Hour)) <$>
    [0; 11 * Hour; 12 * Hour; 36 * Hour - 1; 36 * Hour; 14 * 24 * Hour - Second; 106751 * 24 * Hour; int64_max]
  = ["EXPIRED"; "under a day left"; "1 day left"; "1 day left"; "2 days left"; "14 days left";
     "106751 days left"; "under a day left"]%string ∧
  humanBytes <$> [0; 1048575; 1048576; 1073741823; 1610612736; 2 ^ 40; 12345678901234; 2 ^ 63 - 1]
  = ["0 B"; "1048575 B"; "1 MB"; "1024 MB"; "1.5 GB"; "1024 GB"; "1.15e+04 GB"; "8.59e+09 GB"]%string.
Proof. by vm_compute. Qed.

(** ** The commands on the file *)

Definition line (parts : list string) : string := foldr (λ x y, x +:+ y) newline parts.

(** The text of some lines. *)
Definition text (lines : list string) : string := foldr (λ x y, x +:+ y) "" lines.

Definition credentialLines (credential : Credential) (now : Time) : list string :=
  let terms := cr_Terms credential in
  [line ["credential  "; cr_ID credential];
   if negb (is_empty (t_Tier terms)) then line ["tier        "; t_Tier terms]
   else line ["tier        (none) — this credential gates the relay and grants its box caps"];
   line ["notAfter    "; RFC3339 (t_NotAfter terms); " ("; remaining (t_NotAfter terms) now; ")"];
   line ["terms       "; describe terms]].

Definition unitName (env : Environ) : string :=
  let name := env "DEE_ADMIT_UNIT"%string in if negb (is_empty name) then name else "dee-relay".

(** [filepath.Base]: what follows the last slash, slashes at the end apart. *)
Fixpoint afterSlash (word l : list Z) : list Z :=
  match l with
  | [] => word
  | b :: l => if b =? 47 then afterSlash [] l else afterSlash (word ++ [b]) l
  end.

Definition Base (path : string) : string :=
  if is_empty path then "." else
  let base := afterSlash [] (bytes_of_string (TrimRightSlash path)) in
  if bool_decide (base = []) then "/" else string_of_bytes base.

Definition reloadHint (env : Environ) (path : string) : list string :=
  [line [newline; "next        systemctl kill -s HUP "; unitName env];
   line ["            The relay re-reads "; Base path; ". Do not restart it — the queues are"];
   line ["            RAM-only, so a restart drops every other circle's undelivered mail."]].

Definition fileLine (path : string) (count : Z) : string :=
  line ["file        "; path; " ("; Itoa count; " credential"; plural count; ")"].

Definition mintText (env : Environ) (path : string) (now : Time) (answer : string * Credential * Z) : string :=
  let '(code, credential, count) := answer in
  text ([line ["code        "; code];
         line ["            Give this to the steward. It is not stored anywhere and cannot be re-read."; newline]] ++
        credentialLines credential now ++ [fileLine path count] ++ reloadHint env path).

Definition renewText (env : Environ) (path : string) (now : Time) (answer : string * Time * Time * bool * Z) : string :=
  let '(id, was, until, lapsed, count) := answer in
  text ([line ["credential  "; id];
         line ["was         "; RFC3339 was; " ("; remaining was now; ")"];
         line ["notAfter    "; RFC3339 until; " ("; remaining until now; ")"]] ++
        (if lapsed then [line ["            The window had already ended, so the renewal runs from now."]] else []) ++
        [line ["code        unchanged — renewal never mints a new one, and no member re-provisions"];
         fileLine path count] ++ reloadHint env path).

Definition revokeText (env : Environ) (path : string) (answer : string * Credential * Z) : string :=
  let '(id, revoked, count) := answer in
  let tier := t_Tier (cr_Terms revoked) in
  text ([line ["revoked     "; id; if negb (is_empty tier) then "  (" +:+ tier +:+ ")" else ""]; fileLine path count] ++
        (if count =? 0 then
           [line [newline; "            This file now admits nobody. An enforcing relay REFUSES a reload"];
            line ["            that would empty its credential set, so the running relay keeps the"];
            line ["            set it has until it is restarted — which drops every queue on it."]]
         else reloadHint env path)).

Definition listRow (credential : Credential) (now : Time) : string * string * string * string :=
  let terms := cr_Terms credential in
  (cr_ID credential, if is_empty (t_Tier terms) then "—" else t_Tier terms, RFC3339 (t_NotAfter terms),
   remaining (t_NotAfter terms) now).

Definition printRow (row : string * string * string * string) : string :=
  let '(credential, tier, notAfter, window) := row in
  line [padded 44 credential; "  "; padded 10 tier; "  "; padded 20 notAfter; "  "; window].

Definition listText (path : string) (now : Time) (answer : list Credential * bool) : string :=
  let '(credentials, existed) := answer in
  let count := Z.of_nat (length credentials) in
  if count =? 0 then
    if negb existed then line [path; " does not exist yet — no credential has been minted into it."]
    else line [path; " admits nobody."]
  else
    text ([printRow ("CREDENTIAL", "TIER", "NOTAFTER", "")] ++
          ((λ credential, printRow (listRow credential now)) <$> credentials) ++
          [line [newline; Itoa count; " credential"; plural count; " in "; path]]).

(** [explainMissing], of an error of issuance: what is added to the one of a missing credential. *)
Definition explainMissing (err : IssueError) (text id : string) : string :=
  if bool_decide (err = Issue.ErrNoSuchCredential) then
    "this file admits no such credential" +:+ ": " +:+ id +:+
    ". Check the credential file is the one this relay reads, and that the code was typed as the customer has it"
  else text.

(** ** The session command *)

Definition explainBody (body : string) : string :=
  let text := bytes_of_string (Join " " (Fields body)) in
  let text := if 200 <? Z.of_nat (length text) then take 200 text ++ bytes_of_string "…" else text in
  if bool_decide (text = []) then "(no body)" else string_of_bytes text.

(** [explain]: the message of the relay's envelope, if the body is one, or the body itself. *)
Definition explain (message : option string) (body : string) : string :=
  match message with
  | Some message => if negb (is_empty message) then message else explainBody body
  | None => explainBody body
  end.

(** A value of the decoded terms: a text, or a number, which is a float that holds an integer. *)
Inductive JSONValue := JSONString (s : string) | JSONNumber (n : Z).

(** [%v] of one: the shortest digits of a whole float below 2^53 are its own, and from a million
    on they are in exponent form. *)
Definition printValue (v : JSONValue) : string :=
  match v with
  | JSONString s => s
  | JSONNumber n =>
      let digits := decimal 20 n [] in let exponent := Z.of_nat (length digits) - 1 in
      string_of_bytes (if exponent <? 6 then digits else fmtE (trimZeros digits) exponent)
  end.

(** The terms a relay sends ([termsJSON] of [httpapi/admission.go]), as they are decoded. *)
Definition termsJSON (terms : Terms) : gmap string JSONValue :=
  let out : gmap string JSONValue := {["notAfter" := JSONString (RFC3339 (t_NotAfter terms))]} in
  let out := if negb (is_empty (t_Tier terms)) then <["tier" := JSONString (t_Tier terms)]> out else out in
  let put key value (out : gmap string JSONValue) := if 0 <? value then <[key := JSONNumber value]> out else out in
  let out := put "queueSlots" (t_QueueSlots terms) out in
  let out := if 0 <? t_RetentionWindow terms
             then <["retentionWindowSec" := JSONNumber (f_trunc (Seconds (t_RetentionWindow terms)))]> out else out in
  let out := put "attachmentBytes" (t_AttachmentBytes terms) out in
  let out := put "concurrentTransfers" (t_ConcurrentTransfers terms) out in
  let out := put "transitBytesPerDay" (t_TransitBytesPerDay terms) out in
  put "maxPerPair" (t_MaxPerPair terms) out.

Definition describeGrantedTerms (terms : gmap string JSONValue) : string :=
  if bool_decide (terms = ∅) then "none returned" else
  let keys := ["tier"; "notAfter"; "queueSlots"; "retentionWindowSec"; "attachmentBytes";
               "concurrentTransfers"; "transitBytesPerDay"; "maxPerPair"] in
  let parts := omap (λ key, (λ value, key +:+ " " +:+ printValue value) <$> terms !! key) keys in
  if bool_decide (parts = []) then "none returned" else Join " · " parts.

(** What goes to the standard output, and to the standard error. *)
Definition sessionText (verbose : bool) (credentialID : string) (answer : string * Z * Terms) : string * string :=
  let '(token, expiresIn, terms) := answer in
  (line [token],
   text ([line ["credential  "; credentialID];
          line ["session     valid for "; Itoa expiresIn; "s — present it as X-Dee-Admission on every request"]] ++
         (if verbose then [line ["terms       "; describeGrantedTerms (termsJSON terms)]] else []))).

(** ** The program *)

Inductive Subcommand := SubMint | SubRenew | SubRevoke | SubList | SubSession.

(** The exit status of a command line, given what each subcommand comes to on the arguments
    after it: the usage text goes with the status 2, an error to the standard error with 1. *)
Definition main {E} (run : Subcommand → list string → option E) (args : list string) : Z :=
  let exit sub rest := match run sub rest with Some _ => 1 | None => 0 end in
  match args with
  | [] | [_] => 2
  | _ :: name :: rest =>
      if bool_decide (name = "mint"%string) then exit SubMint rest
      else if bool_decide (name = "renew"%string) then exit SubRenew rest
      else if bool_decide (name = "revoke"%string) then exit SubRevoke rest
      else if bool_decide (name = "list"%string) then exit SubList rest
      else if bool_decide (name = "session"%string) then exit SubSession rest
      else if bool_decide (name ∈ ["-h"; "--help"; "help"]%string) then 0
      else 2
  end.
