(* ===== verification/AdmitProps.v ===== *)
(** * From a minted code to an open gate

    The issuance command, the relay's reload and the admission exchange composed: a code that
    was minted opens a session once the relay has read the file again. *)

From Stdlib Require Import Strings.String.
From S2P Require Import Prelude Crypto Strconv Code CodeProps Config Admission AdmissionGate.
From S2P Require Import ConfigProps AdmissionProps Node Server Boot Issue IssueProps Admit.

Open Scope Z_scope.

(** ** What the relay reads after a mint *)

Lemma foldl_replaceOne_lookup st cs c :
  NoDup (cr_ID <$> cs) → c ∈ cs → (foldl replaceOne st cs).1.1 !! cr_ID c = Some c.
Proof.
  induction cs as [|x cs IH] using rev_ind; [by intros _ ?%not_elem_of_nil|].
  rewrite fmap_app, foldl_app. intros (Hd & Hx & _)%NoDup_app Hc. cbn [foldl].
  assert ((replaceOne (foldl replaceOne st cs) x).1.1 =
          <[cr_ID x := x]> (foldl replaceOne st cs).1.1) as ->.
  { unfold replaceOne at 1. destruct (foldl replaceOne st cs) as [[m ix] n]. by destruct (ix !! _). }
  apply elem_of_app in Hc as [Hc|Hc%list_elem_of_singleton]; [|subst x; by rewrite lookup_insert_eq].
  rewrite lookup_insert_ne; [by apply IH|]. intros Heq.
  apply (Hx (cr_ID c)); [by apply list_elem_of_fmap_2|]. rewrite <-Heq. set_solver.
Qed.

Lemma Replace_lookup s cs c :
  NoDup (cr_ID <$> cs) → c ∈ cs → credentials (Replace s cs) !! cr_ID c = Some c.
Proof.
  intros Hd Hc. pose proof (foldl_replaceOne_lookup (∅, index s, nextIndex s) cs c Hd Hc) as Hl.
  unfold Replace. by destruct (foldl _ _ _) as [[m ix] n].
Qed.

Section mint.
Context `{!GoRuntime, !Codec, !Folding} (NewKeyFromSeed : list Z → list Z * list Z).

(** The file at a path, as the relay's reader finds it. *)
Definition fileOn (d : gmap string entry) (path : string) : CredentialFile :=
  e ← d !! path; decodeCredentials (en_body e).

Lemma Open_path path stat body file : Open path stat body = inr file → f_path file = path ∧ path ≠ ""%string.
Proof.
  unfold Open. intros Ho. assert (path ≠ ""%string) as Hp by (by intros ->).
  destruct (is_empty _); [done|]. split; [|done].
  destruct stat as [dir| |regular mode]; [destruct (negb dir)|done|destruct (negb regular)]; try done.
  - by injection Ho as <-.
  - destruct (ReadFile _); [|done]. by injection Ho as <-.
Qed.

Lemma Marshal_keeps f c body :
  Marshal f = inr body → c ∈ f_credentials f → renderable c →
  ∃ cs, ReadFile (decodeCredentials body) = Some cs ∧ c ∈ cs ∧ NoDup (cr_ID <$> cs).
Proof.
  intros (cs & cs0 & Hr & Hp & Hf)%Marshal_loads Hc Hk. exists cs. split; [done|]. split.
  - rewrite <-Hp in Hc. apply list_elem_of_lookup in Hc as [i Hi].
    destruct (Forall2_lookup_l _ _ _ _ _ Hf Hi) as (c' & Hc' & Heq).
    rewrite (Heq Hk) in Hc'. by eapply list_elem_of_lookup_2.
  - unfold ReadFile in Hr. destruct (decodeCredentials body) as [cs1|]; [|done].
    destruct (ParseCredentials cs1) as [|cs2] eqn:Hq; [done|]. injection Hr as ->.
    by apply (ParseCredentials_good cs1) in Hq as [_ ?].
Qed.

Lemma minted_file f h d code credential count ds :
  mint NewKeyFromSeed f h d = (inr (code, credential, count), ds) →
  (∀ name, sc_temp (ho_calls h) = Some name → d !! name = None ∧ name ≠ fl_file f) →
  (∀ code, validUTF8 (bytes_of_string (KeyFromCode NewKeyFromSeed code).2) = true) →
  sayable (cr_Terms credential) →
  ∃ raw d' cs, ho_raw h = Some raw ∧ code = NewCode raw ∧
    cr_ID credential = (KeyFromCode NewKeyFromSeed code).2 ∧ fl_file f ≠ ""%string ∧
    last ds = Some d' ∧ ReadFile (fileOn d' (fl_file f)) = Some cs ∧ credential ∈ cs ∧
    NoDup (cr_ID <$> cs).
Proof.
  intros Hm Hfresh Hids Hsay. unfold mint in Hm. destruct (window f) as [|w]; [done|].
  destruct (mintTerms f h w) as [|terms]; [done|].
  destruct (Open _ _ _) as [|file] eqn:Ho; [done|]. destruct (Open_path _ _ _ _ Ho) as [Hpath Hne].
  unfold Mint in Hm. destruct (ho_raw h) as [raw|]; [|done]. cbv zeta in Hm.
  destruct (find file _); [done|]. unfold saved in Hm.
  set (c := mkCredential _ terms) in Hm. set (f1 := with_credentials _ file) in Hm.
  pose proof (Save_end (ho_calls h) f1 d) as He.
  destruct (Save (ho_calls h) f1 d) as [[[err|] f'] ds']; [done|]. injection Hm as <- <- _ <-.
  destruct He as (before & d' & -> & _ & _ & e & _ & HM & -> & _); [by subst f1; cbn; rewrite Hpath|].
  destruct (Marshal_keeps f1 c (en_body e) HM) as (cs & Hr & Hc & Hd); [subst f1; cbn; set_solver|by split; [apply Hids|]|].
  exists raw, (<[f_path f1 := e]> d), cs. split_and!; try done; [by rewrite last_snoc|].
  unfold fileOn. assert (f_path f1 = fl_file f) as -> by done. by rewrite lookup_insert_eq.
Qed.
End mint.

(** ** The exchange *)

Lemma Challenge_issues `{!GoRuntime} s now raw :
  Tables s → Z.of_nat (size (nonces s)) < maxNonces →
  let nonce := Base64.RawURLEncodeToString raw in
  ∃ s', Challenge s now (Some raw) = (inr (nonce, nonceTTL), s') ∧ Tables s' ∧
    nonces s' !! nonce = Some (Add now nonceTTL) ∧ sessions s' ⊆ sessions s.
Proof.
  intros Ht Hn nonce. unfold Challenge. cbv zeta.
  assert (Z.of_nat (size (nonces (sweepLocked s now))) < maxNonces) as Hs.
  { rewrite sweepLocked_nonces. pose proof (map_subseteq_size _ _ (keep_subseteq (λ _ expiry, After expiry now) (nonces s))). lia. }
  rewrite (proj2 (Z.leb_gt _ _)) by exact Hs. cbn [randomToken]. eexists. split_and!; [done|..].
  - apply Tables_nonces, sweepLocked_tables, Ht.
  - cbn [nonces]. apply lookup_insert_eq.
  - cbn [sessions]. rewrite sweepLocked_sessions. apply keep_subseteq.
Qed.

Lemma Open_gives `{!GoRuntime} s id now raw :
  Tables s → Z.of_nat (size (sessions s)) < maxSessions →
  let token := Base64.RawURLEncodeToString raw in
  sessions s !! token = None →
  ∃ s', Admission.Open s id now (Some raw) = (inr (token, sessionTTL), s') ∧
    sessions s' !! token = Some (mkSessionEntry id (Add now sessionTTL)).
Proof.
  intros Ht Hn token Hfree. unfold Admission.Open. cbv zeta. cbn [randomToken]. fold token.
  pose proof (sweepLocked_tables s now Ht) as Ht'.
  pose proof (keep_subseteq (λ _ e, After (se_expiresAt e) now) (sessions s)) as Hsub.
  rewrite <-sweepLocked_sessions in Hsub. set (s0 := sweepLocked s now) in *. clearbody s0.
  pose proof (map_subseteq_size _ _ Hsub) as Hsz. rewrite (proj2 (Z.leb_gt _ _)) by lia.
  match goal with |- context [dropOldest ?a ?b] => destruct (dropOldest_spec a b) as (n & -> & Hn') end.
  eexists. split; [done|]. cbn [sessions]. rewrite delete_tokens_lookup.
  rewrite decide_False; [apply lookup_insert_eq|].
  rewrite length_app in Hn'. cbn [length] in Hn'. assert (n ≤ length (tokensOf s0 id))%nat as Hle.
  { unfold maxSessionsPerCredential in Hn'. lia. }
  rewrite take_app_le by done. intros Hin. apply (subseteq_take n) in Hin.
  apply (tab_agree s0 Ht') in Hin. rewrite (lookup_weaken_None _ _ _ Hfree Hsub) in Hin. done.
Qed.

Section exchange.
Context `{!NetParsers} (NewKeyFromSeed : list Z → list Z * list Z).
Context (Sign : list Z → list Z → list Z) (ed25519Verify : list Z → list Z → list Z → bool).

(** [ed25519]: a public key is 32 bytes, a signature 64, and a signature verifies under the
    key it was made with. *)
Record signatureScheme : Prop := {
  sg_pub seed : length (NewKeyFromSeed seed).2 = 32%nat ∧
                Forall (λ b, 0 ≤ b < 256) (NewKeyFromSeed seed).2;
  sg_sig seed msg : let sig := Sign (NewKeyFromSeed seed).1 msg in
    length sig = 64%nat ∧ Forall (λ b, 0 ≤ b < 256) sig;
  sg_verifies seed msg :
    ed25519Verify (NewKeyFromSeed seed).2 msg (Sign (NewKeyFromSeed seed).1 msg) = true;
}.

(** A relay at a url, as the command calls it. *)
Definition answerOf (r : Response) : Answer :=
  match r with Reply status body => Answered status (Some body) | NoReply => CallFailed end.

Definition relayCall (c : Config) (startedAt : Time) (base url : string)
    (body : option (string * string * string)) : Prog Answer :=
  let rq := if bool_decide (url = base +:+ "/admission/challenge") then Some PostAdmissionChallenge
            else if bool_decide (url = base +:+ "/admission/redeem")
            then (λ value, PostAdmissionRedeem (inr value)) <$> body else None in
  match rq with
  | None => mret CallFailed
  | Some rq => r ← mux ed25519Verify c startedAt rq; mret (answerOf r)
  end.

Lemma KeyFromCode_eq code :
  ∃ seed, KeyFromCode NewKeyFromSeed code =
          ((NewKeyFromSeed seed).1, CredentialID (NewKeyFromSeed seed).2).
Proof. unfold KeyFromCode. set (seed := Sha256.Sum256 _). exists seed. by destruct (NewKeyFromSeed seed). Qed.

(** The proof the command makes is the proof the relay asks for. *)
Lemma own_proof_verifies code nonce :
  signatureScheme →
  let '(key, id) := KeyFromCode NewKeyFromSeed code in
  Base64.RawURLDecodeString (signChallenge Sign key nonce id) = Some (Sign key (Transcript nonce id)) ∧
  signChallenge Sign key nonce id ≠ ""%string ∧ id ≠ ""%string ∧
  Verify ed25519Verify id nonce (Sign key (Transcript nonce id)) = true.
Proof.
  intros Hs. destruct (KeyFromCode_eq code) as [seed ->].
  destruct (sg_pub Hs seed) as [Hl Hb]. set (id := CredentialID _). set (msg := Transcript nonce id).
  destruct (sg_sig Hs seed msg) as [Hsl Hsb]. unfold signChallenge. fold msg.
  pose proof (sg_verifies Hs seed msg) as Hv.
  split_and!; [by apply RawURLDecode_encode|..].
  - destruct (Sign _ msg) as [|b l]; [done|]. apply RawURLEncodeToString_nonempty.
  - subst id. unfold CredentialID. destruct (NewKeyFromSeed seed).2 as [|b l]; [done|].
    apply RawURLEncodeToString_nonempty.
  - unfold Verify. subst id. unfold CredentialID at 1. rewrite RawURLDecode_encode by done.
    fold msg. by rewrite !bool_decide_eq_true_2 by done.
Qed.

(** The exchange is not disturbed: the gate has room, its draws are new, and the clock moves
    on by less than the lifetime of what it hands out. *)
Record calm (n : Node) (cr : Credential) (nonce token : list Z) (envs : nat → Env) : Prop := {
  ca_tables : Tables (nd_sessions n);
  ca_nonces : Z.of_nat (size (nonces (nd_sessions n))) < maxNonces;
  ca_sessions : Z.of_nat (size (sessions (nd_sessions n))) < maxSessions;
  ca_draws : e_raw (envs 0%nat) = Some nonce ∧ e_raw (envs 3%nat) = Some token ∧ nonce ≠ [] ∧ token ≠ [];
  ca_new : sessions (nd_sessions n) !! Base64.RawURLEncodeToString token = None;
  ca_prompt : e_now (envs 1%nat) < e_now (envs 0%nat) + nonceTTL;
  ca_window : e_now (envs 2%nat) < t_NotAfter (cr_Terms cr);
}.

Lemma run_challenge c startedAt base n nonce envs s1 :
  let nonce64 := Base64.RawURLEncodeToString nonce in
  e_raw (envs 0%nat) = Some nonce → nonce ≠ [] →
  Challenge (H := e_rt (envs 0%nat)) (nd_sessions n) (e_now (envs 0%nat)) (Some nonce) =
    (inr (nonce64, nonceTTL), s1) →
  let p := challenge (relayCall c startedAt base) base in
  run p envs n = (inr nonce64, Node.with_sessions s1 n) ∧ calls p envs n = 1%nat.
Proof.
  intros nonce64 Hraw Hne Hch p. unfold p, challenge, relayCall.
  rewrite (bool_decide_eq_true_2 (_ = _)) by done.
  cbn [mux run calls mbind Prog_bind challengeHandler onSessions mret Prog_ret].
  rewrite Hraw, Hch. cbn. unfold is_empty. rewrite bool_decide_eq_false_2; [done|].
  unfold nonce64. destruct nonce; [done|]. apply RawURLEncodeToString_nonempty.
Qed.

Lemma run_redeemHandler n cr token envs id nonce sig64 sig expiry :
  let token64 := Base64.RawURLEncodeToString token in
  id ≠ ""%string → nonce ≠ ""%string → sig64 ≠ ""%string →
  Base64.RawURLDecodeString sig64 = Some sig → Verify ed25519Verify id nonce sig = true →
  Tables (nd_sessions n) → nonces (nd_sessions n) !! nonce = Some expiry → e_now (envs 0%nat) < expiry →
  credentials (nd_admissions n) !! id = Some cr → e_now (envs 1%nat) < t_NotAfter (cr_Terms cr) →
  Z.of_nat (size (sessions (nd_sessions n))) < maxSessions → sessions (nd_sessions n) !! token64 = None →
  e_raw (envs 2%nat) = Some token → token ≠ [] →
  ∃ s3, run (redeemHandler ed25519Verify (inr (id, nonce, sig64))) envs n =
          (Reply 200 (BSession token64 900 (cr_Terms cr)), Node.with_sessions s3 n) ∧
    sessions s3 !! token64 = Some (mkSessionEntry id (Add (e_now (envs 2%nat)) sessionTTL)).
Proof.
  intros token64 Hid Hnonce Hsig Hdec Hver Ht Hn Hlive Hcr Hwin Hsz Hnew Hraw Hne.
  unfold redeemHandler, is_empty. rewrite !bool_decide_eq_false_2 by done. cbn [orb]. rewrite Hdec.
  assert (∃ s2, VerifyProof ed25519Verify (nd_sessions n) id nonce sig (e_now (envs 0%nat)) = (None, s2) ∧
    Tables s2 ∧ sessions s2 = sessions (nd_sessions n)) as (s2 & HV & Ht2 & Hs2).
  { unfold VerifyProof, spendNonceLocked. rewrite Hn, Hver. unfold After.
    rewrite (proj2 (Z.ltb_lt _ _)) by done. eexists. split; [done|]. by split; [apply Tables_nonces|]. }
  assert (∃ g, Lookup (nd_admissions n) id (e_now (envs 1%nat)) = inr g ∧ ga_Terms g = cr_Terms cr)
    as (g & HL & Hg).
  { unfold Lookup. rewrite Hcr. unfold After. rewrite (proj2 (Z.ltb_lt _ _)) by done. by eexists. }
  destruct (Open_gives (H := e_rt (envs 2%nat)) s2 id (e_now (envs 2%nat)) token) as (s3 & HO & Hs3);
    [done|by rewrite Hs2..|].
  exists s3. split; [|done].
  cbn [run mbind Prog_bind onSessions]. rewrite HV. cbn [run mbind Prog_bind onAdmissions nd_admissions Node.with_sessions].
  rewrite HL. cbn [run mbind Prog_bind onSessions nd_sessions Node.with_sessions Node.with_admissions].
  rewrite Hraw, HO. cbn. rewrite Hg. done.
Qed.

Lemma run_redeem c startedAt base n cr token envs id nonce sig64 sig expiry :
  let token64 := Base64.RawURLEncodeToString token in
  id ≠ ""%string → nonce ≠ ""%string → sig64 ≠ ""%string →
  Base64.RawURLDecodeString sig64 = Some sig → Verify ed25519Verify id nonce sig = true →
  Tables (nd_sessions n) → nonces (nd_sessions n) !! nonce = Some expiry → e_now (envs 0%nat) < expiry →
  credentials (nd_admissions n) !! id = Some cr → e_now (envs 1%nat) < t_NotAfter (cr_Terms cr) →
  Z.of_nat (size (sessions (nd_sessions n))) < maxSessions → sessions (nd_sessions n) !! token64 = None →
  e_raw (envs 2%nat) = Some token → token ≠ [] →
  ∃ s3, run (redeem (relayCall c startedAt base) base id nonce sig64) envs n =
          (inr (token64, 900, cr_Terms cr), Node.with_sessions s3 n) ∧
    sessions s3 !! token64 = Some (mkSessionEntry id (Add (e_now (envs 2%nat)) sessionTTL)).
Proof.
  intros token64 Hid Hnonce Hsig Hdec Hver Ht Hn Hlive Hcr Hwin Hsz Hnew Hraw Hne.
  destruct (run_redeemHandler n cr token envs id nonce sig64 sig expiry) as (s3 & Hrun & Hs3); try done.
  exists s3. split; [|done].
  unfold redeem, relayCall. rewrite bool_decide_eq_false_2 by (by intros ?%(inj _)).
  rewrite bool_decide_eq_true_2 by done. cbn [fmap option_fmap option_map mux].
  rewrite !run_bind, Hrun. cbn. unfold is_empty. rewrite bool_decide_eq_false_2; [done|].
  unfold token64. destruct token; [done|]. apply RawURLEncodeToString_nonempty.
Qed.

Lemma session_opens c startedAt f relay line n cr nonce token envs :
  signatureScheme → relay ≠ ""%string →
  fl_code f ≠ "-"%string → NormalizeCode (fl_code f) ≠ ""%string →
  let id := (KeyFromCode NewKeyFromSeed (fl_code f)).2 in
  credentials (nd_admissions n) !! id = Some cr → calm n cr nonce token envs →
  let token64 := Base64.RawURLEncodeToString token in
  ∃ n', run (session NewKeyFromSeed Sign (relayCall c startedAt (TrimRightSlash relay)) f relay line) envs n
        = (inr (token64, 900, cr_Terms cr), n') ∧
    nd_admissions n' = nd_admissions n ∧
    sessions (nd_sessions n') !! token64 = Some (mkSessionEntry id (Add (e_now (envs 3%nat)) sessionTTL)).
Proof.
  intros Hs Hrelay Hdash Hnorm id Hcr [Ht Hn Hsz (Hr0 & Hr3 & Hne0 & Hne3) Hnew Hprompt Hwin] token64.
  assert (fl_code f ≠ ""%string) as Hcode by (intros Hc; by rewrite Hc in Hnorm).
  unfold session, is_empty. rewrite (bool_decide_eq_false_2 (relay = _)) by done.
  rewrite (bool_decide_eq_false_2 (fl_code f = _)), andb_false_r by done.
  rewrite (bool_decide_eq_false_2 (fl_code f = _)) by done.
  rewrite (bool_decide_eq_false_2 (NormalizeCode _ = _)) by done.
  unfold id in Hcr |- *. pose proof (own_proof_verifies (fl_code f)) as Hown. clear id.
  destruct (KeyFromCode NewKeyFromSeed (fl_code f)) as [key id]. cbn [snd] in Hcr |- *.
  destruct (Challenge_issues (H := e_rt (envs 0%nat)) (nd_sessions n) (e_now (envs 0%nat)) nonce Ht Hn)
    as (s1 & Hch & Ht1 & Hn1 & Hs1). set (nonce64 := Base64.RawURLEncodeToString nonce) in *.
  destruct (Hown nonce64 Hs) as (Hdec & Hsig & Hid & Hver).
  destruct (run_challenge c startedAt (TrimRightSlash relay) n nonce envs s1 Hr0 Hne0 Hch) as [Hrun Hcalls].
  rewrite run_bind, Hrun, Hcalls. fold nonce64.
  destruct (run_redeem c startedAt (TrimRightSlash relay) (Node.with_sessions s1 n) cr token
    (λ i, envs (1 + i)%nat) id nonce64 (signChallenge Sign key nonce64 id) (Sign key (Transcript nonce64 id))
    (Add (e_now (envs 0%nat)) nonceTTL)) as (s3 & Hred & Hs3); try done.
  - subst nonce64. destruct nonce; [done|]. apply RawURLEncodeToString_nonempty.
  - pose proof (map_subseteq_size _ _ Hs1). cbn. lia.
  - cbn. by eapply lookup_weaken_None.
  - exists (Node.with_sessions s3 (Node.with_sessions s1 n)). split; [exact Hred|]. split; [done|exact Hs3].
Qed.

Lemma run_reload `{!GoRuntime} c file envs n cs :
  c_AdmissionFile c ≠ ""%string → ReadFile file = Some cs →
  run (reload c file) envs n =
    ((), if c_RequireAdmission c && bool_decide (cs = []) then n
         else with_admissions (Replace (nd_admissions n) cs) n).
Proof.
  intros Hfile Hr. unfold reload, is_empty. rewrite bool_decide_eq_false_2, Hr by done.
  rewrite (bool_decide_ext (length cs = _) (cs = [])) by (by rewrite length_zero_iff_nil).
  by destruct (_ && _).
Qed.

Lemma run_admitCall c r envs n id cr expiry :
  header r admissionHeader ≠ ""%string →
  sessions (nd_sessions n) !! header r admissionHeader = Some (mkSessionEntry id expiry) →
  e_now (envs 0%nat) < expiry →
  credentials (nd_admissions n) !! id = Some cr → e_now (envs 1%nat) < t_NotAfter (cr_Terms cr) →
  ∃ g, (run (admitCall c r) envs n).1 = inr g ∧ ga_ID g = id ∧ ga_Terms g = cr_Terms cr.
Proof.
  intros Htok Hs He Hcr Hna.
  assert (Resolve (nd_sessions n) (header r admissionHeader) (e_now (envs 0%nat)) =
          (inr id, nd_sessions n)) as HR.
  { unfold Resolve, is_empty. rewrite bool_decide_eq_false_2, Hs by done. unfold After. cbn [se_expiresAt].
    by rewrite (proj2 (Z.ltb_lt _ _)). }
  unfold admitCall, is_empty. rewrite bool_decide_eq_false_2 by done.
  cbn [run mbind Prog_bind onSessions]. rewrite HR.
  cbn [run mbind Prog_bind onAdmissions nd_admissions Node.with_sessions].
  unfold Lookup. rewrite Hcr. unfold After. rewrite (proj2 (Z.ltb_lt _ _)) by done. by eexists.
Qed.

(** C9: A minted code opens the gate. When the command has minted a code into the file that
    the relay reads and the relay reads the file again, the holder of the code, however the
    code was transcribed, gets a session from the relay with one run of the session command,
    and a request that presents the token is admitted under the terms that were minted; it is
    enough that the file can say those terms (a label in UTF-8, an expiry before the year
    10000, a window of whole seconds), the window is still open, the gate has room, its random
    draws are new, the exchange takes less than the lifetimes of a challenge and a session, and
    every call is answered within the twenty seconds the command waits for it. *)
Theorem minted_code_opens_gate `{!GoRuntime, !Codec, !Folding} c startedAt f h d code credential count ds
    w f' relay line n nonce token (envs0 envs envs' : nat → Env) r :
  signatureScheme →
  mint NewKeyFromSeed f h d = (inr (code, credential, count), ds) →
  (∀ name, sc_temp (ho_calls h) = Some name → d !! name = None ∧ name ≠ fl_file f) →
  sayable (cr_Terms credential) →
  (∀ raw, ho_raw h = Some raw → Forall (λ b, 0 ≤ b < 256) raw ∧ length raw = CodeBytes) →
  Forall (λ b, 0 ≤ b < 256) w → transcribed (bytes_of_string code) w →
  fl_code f' = string_of_bytes w → c_AdmissionFile c = fl_file f → relay ≠ ""%string →
  let read := default ∅ (last ds) in
  let n1 := (run (reload c (fileOn read (fl_file f))) envs0 n).2 in
  calm n1 credential nonce token envs →
  header r admissionHeader = Base64.RawURLEncodeToString token →
  e_now (envs' 0%nat) < e_now (envs 3%nat) + sessionTTL →
  e_now (envs' 1%nat) < t_NotAfter (cr_Terms credential) →
  let '(answer, n2) := run (session NewKeyFromSeed Sign (relayCall c startedAt (TrimRightSlash relay))
                              f' relay line) envs n1 in
  answer = inr (Base64.RawURLEncodeToString token, 900, cr_Terms credential) ∧
  ∃ g, (run (admitCall c r) envs' n2).1 = inr g ∧ ga_ID g = cr_ID credential ∧
       ga_Terms g = cr_Terms credential.
Proof.
  intros Hs Hmint Hfresh Hsay Hraw Hw Htr Hcode Hfile Hrelay read n1 Hcalm Hhdr Hlive Hwin.
  destruct (minted_file NewKeyFromSeed f h d code credential count ds Hmint Hfresh)
    as (raw & d' & cs & Hr & -> & Hid & Hpath & Hlast & Hread & Hin & Hnd); [|done|].
  { intros code0. destruct (derived_id NewKeyFromSeed (sg_pub Hs) code0) as (pub & Hpub & _).
    by eapply decoded_ascii. }
  destruct (Hraw raw Hr) as [Hb Hl].
  pose proof (transcription_normal raw w Hb Hl Hw Htr) as Hnorm. rewrite <-Hcode in Hnorm.
  assert (KeyFromCode NewKeyFromSeed (fl_code f') = KeyFromCode NewKeyFromSeed (NewCode raw)) as Hkey.
  { unfold KeyFromCode. by rewrite <-Hnorm, NormalizeCode_idemp. }
  assert (n1 = with_admissions (Replace (nd_admissions n) cs) n) as Hn1.
  { unfold n1, read. rewrite Hlast. cbn [default]. rewrite (run_reload c _ _ _ cs) by (done || congruence).
    rewrite bool_decide_eq_false_2, andb_false_r; [done|]. intros ->. by apply not_elem_of_nil in Hin. }
  assert (credentials (nd_admissions n1) !! cr_ID credential = Some credential) as Hcr
    by (rewrite Hn1; by apply Replace_lookup).
  assert (NormalizeCode (fl_code f') ≠ ""%string) as Hne.
  { rewrite Hnorm. intros Hz. pose proof (NewCode_len raw Hb Hl) as H26. by rewrite Hz in H26. }
  rewrite Hid, <-Hkey in Hcr.
  destruct (session_opens c startedAt f' relay line n1 credential nonce token envs) as (n2 & -> & Ha & Hses);
    [done..| |done|exact Hcr|done|].
  { intros Hd. by rewrite Hd in Hne. }
  split; [done|]. rewrite Hid, <-Hkey.
  eapply run_admitCall; [|by rewrite Hhdr|done|by rewrite Ha|done].
  rewrite Hhdr. destruct (ca_draws _ _ _ _ _ Hcalm) as (_ & _ & _ & Htok).
  destruct token; [done|]. apply RawURLEncodeToString_nonempty.
Qed.
End exchange.

(** ** The window of a mint *)

(** The days asked for are the days granted, up to 106751 of them; one more and the product
    wraps, and the window ends before it begins. *)
Lemma window_exact f : 0 < fl_days f ≤ 106751 → window f = inr (fl_days f * 24 * Hour).
Proof.
  intros Hd. unfold window. rewrite (proj2 (Z.leb_gt _ _)) by lia. f_equal.
  unfold wrap_int64, Hour, Minute, Second. rewrite Z.mod_small by lia. lia.
Qed.

Lemma long_window_wraps f w : fl_days f = 106752 → window f = inr w → w < 0.
Proof. intros Hd. unfold window. rewrite Hd. cbn. intros [= <-]. done. Qed.

(** ** Examples *)

Definition demoSign (key msg : list Z) : list Z := Sha256.Sum256 (key ++ msg) ++ Sha256.Sum256 (msg ++ key).
Definition demoVerify (pub msg sig : list Z) : bool := bool_decide (sig = demoSign pub msg).

Lemma demo_scheme : signatureScheme demoKeys demoSign demoVerify.
Proof.
  split.
  - apply demoKeys_pub.
  - intros seed msg sig. subst sig. unfold demoSign.
    rewrite length_app, !Sum256_length, Forall_app. auto using Sum256_bytes.
  - intros seed msg. unfold demoVerify. by rewrite bool_decide_eq_true_2.
Qed.

(** Names compared as ASCII. *)
#[refine] Definition asciiFolding : Folding :=
  {| EqualFold s t := bool_decide (asciiLower s = asciiLower t) |}.
Proof. done. Defined.

#[local] Existing Instances plainCodec list_runtime asciiFolding demoParsers.

Module Sample.
Definition T0 : Time := 10 ^ 18.
Definition disk : gmap string entry := IssueProps.Sample.disk.
Definition host : Host :=
  mkHost T0 None None (Info true 0x1A4) (Some (fmap (M := list) render IssueProps.Sample.old : @Document plainCodec))
    (Some IssueProps.Sample.raw) (IssueProps.Sample.calls true).
Definition fl : flags := mkFlags "/etc/relay.json" "" "" 14 "" "".
Definition typed : list Z := bytes_of_string "VTPVXVR1081G81860W40J2GB1G".
Definition code : string := "VTPVXVR1081G81860W40J2GB1G".
Definition fl' : flags := mkFlags "" "" "" 0 code "".
Definition config : Config := FromEnv (λ key,
  if bool_decide (key = "DEE_NODE_REQUIRE_ADMISSION"%string) then "true"%string else
  if bool_decide (key = "DEE_NODE_ADMISSION_FILE"%string) then "/etc/relay.json"%string else ""%string).
Definition minted : (AdmitError + string * Credential * Z) * list (gmap string entry) :=
  mint demoKeys fl host disk.
Definition credential : Credential :=
  match minted.1 with inr (_, c, _) => c | inl _ => zeroCredential end.
Definition envs (i : nat) : Env :=
  mkEnv list_runtime (λ _, T0 + Z.of_nat i * Second) (Some (replicate 32 (Z.of_nat i))) [].
Definition token : list Z := replicate 32 3.
Definition http : Http :=
  mkHttp (λ key, if bool_decide (key = admissionHeader) then Base64.RawURLEncodeToString token else ""%string)
    (λ _, ""%string).
Definition node : Node := newNode config "epoch" [] Admission.NewStore.
End Sample.

(** A code minted for a fortnight, and the session it opens. *)
Lemma minted_code_opens_gate_witness :
  let n1 := (run (reload Sample.config (fileOn (default ∅ (last Sample.minted.2)) "/etc/relay.json"))
               Sample.envs Sample.node).2 in
  let '(answer, n2) :=
    run (session demoKeys demoSign (relayCall demoVerify Sample.config Sample.T0 (TrimRightSlash "https://relay/"))
           Sample.fl' "https://relay/" None) Sample.envs n1 in
  answer = inr (Base64.RawURLEncodeToString Sample.token, 900, cr_Terms Sample.credential).
Proof.
  intros n1.
  pose proof (minted_code_opens_gate demoKeys demoSign demoVerify Sample.config Sample.T0 Sample.fl Sample.host
    Sample.disk Sample.code Sample.credential 2 Sample.minted.2 Sample.typed Sample.fl' "https://relay/" None
    Sample.node (replicate 32 0) Sample.token Sample.envs Sample.envs Sample.envs Sample.http demo_scheme) as H.
  cbv zeta in H. change (fl_file Sample.fl) with "/etc/relay.json"%string in H. fold n1 in H.
  destruct (run (session _ _ _ _ _ _) Sample.envs n1) as [answer n2].
  apply H; clear H.
  - vm_compute. reflexivity.
  - intros name [= <-]. split; [vm_compute; reflexivity|discriminate].
  - let terms := eval vm_compute in (cr_Terms Sample.credential) in
      assert (cr_Terms Sample.credential = terms) as -> by (vm_compute; reflexivity).
    split; [reflexivity|split; [by vm_compute|split; [by vm_compute|]]].
    repeat (apply Forall_cons; split; [by vm_compute|]). apply Forall_nil. done.
  - intros raw [= <-]. split; [|reflexivity]. unfold IssueProps.Sample.raw. rewrite !Forall_cons. split_and!; try lia. apply Forall_nil. done.
  - apply bytes_of_string_range.
  - vm_compute. repeat apply tr_copy. apply tr_nil.
  - vm_compute. reflexivity.
  - vm_compute. reflexivity.
  - discriminate.
  - split.
    + change (Tables NewSessions). apply NewSessions_tables.
    + vm_compute. reflexivity.
    + vm_compute. reflexivity.
    + split_and!; [reflexivity..|discriminate|discriminate].
    + vm_compute. reflexivity.
    + vm_compute. reflexivity.
    + vm_compute. reflexivity.
  - vm_compute. reflexivity.
  - vm_compute. reflexivity.
  - vm_compute. reflexivity.
Defined.
