(* ===== verification/AdmitTextProps.v ===== *)
(** * What the printed texts are worth

    The listing says of a credential what the gate of a relay with that file would do
    ([list_agrees_with_gate]); an explanation is short; and a window that ends further off than
    a duration can say is printed as one that is about to end. *)

From Stdlib Require Import Strings.String Floats.SpecFloat.
From S2P Require Import Prelude Crypto Strconv Float64 GoDuration GoText Config ConfigProps Peer Admission Issue.
From S2P Require Import IssueProps Node Server Boot Admit AdmitText AdmitProps.

Open Scope Z_scope.

(** ** The windows *)

Lemma bytes_of_string_app s t : bytes_of_string (s +:+ t) = bytes_of_string s ++ bytes_of_string t.
Proof.
  unfold bytes_of_string. induction s as [|a s IH]; [done|].
  change (String a s +:+ t) with (String a (s +:+ t)). cbn [list_ascii_of_string fmap list_fmap app]. by rewrite <-IH.
Qed.

(** A text that ends in another. *)
Lemma app_ends s t b : last (bytes_of_string t) = Some b → last (bytes_of_string (s +:+ t)) = Some b.
Proof. intros Hb. by rewrite bytes_of_string_app, last_app, Hb. Qed.

Lemma remaining_expired notAfter now : remaining notAfter now = "EXPIRED"%string ↔ notAfter ≤ now.
Proof.
  unfold remaining, After. destruct (Z.ltb_spec now notAfter) as [Hlt|Hle]; cbn [negb]; [|by split].
  split; [|lia]. cbv zeta. destruct (_ <? 1); [done|]. intros Heq.
  apply (f_equal (λ s, last (bytes_of_string s))) in Heq. change (last (bytes_of_string "EXPIRED")) with (Some 68) in Heq.
  rewrite (app_ends _ _ 116) in Heq; [done|]. by do 2 apply app_ends.
Qed.

(** A window that ends further off than a duration reaches is printed as one of its last day. *)
Lemma far_window_reads_short notAfter now :
  now + int64_max ≤ notAfter → remaining notAfter now = "under a day left"%string.
Proof.
  intros Hfar. unfold remaining, After. assert (0 < int64_max) by by vm_compute.
  rewrite (proj2 (Z.ltb_lt now notAfter)) by lia. cbn [negb].
  assert (Sub notAfter now = int64_max) as ->; [|by vm_compute].
  unfold Sub. assert (int64_min < 0) by by vm_compute. lia.
Qed.

(** ** The explanations *)

Lemma explain_bounded body : (length (bytes_of_string (explainBody body)) ≤ 203)%nat.
Proof.
  unfold explainBody. set (l := bytes_of_string (Join _ _)). cbv zeta.
  assert (Forall (λ b, 0 ≤ b < 256) l) as Hl by apply bytes_of_string_range.
  case_bool_decide; [by apply Nat.leb_le; vm_compute|].
  destruct (Z.ltb_spec 200 (Z.of_nat (length l))) as [Hlt|Hle].
  - rewrite bytes_of_string_of_bytes.
    + rewrite length_app, length_take.
      assert (length (bytes_of_string "…") = 3%nat) as -> by by vm_compute. lia.
    + apply Forall_app. split; [by apply Forall_take|]. apply bytes_of_string_range.
  - rewrite bytes_of_string_of_bytes by done. lia.
Qed.

(** ** The listing *)

Lemma Replace_from s cs id cr :
  credentials (Replace s cs) !! id = Some cr → cr ∈ cs ∧ cr_ID cr = id.
Proof.
  unfold Replace.
  enough (∀ id cr, (foldl replaceOne (∅, index s, nextIndex s) cs).1.1 !! id = Some cr → cr ∈ cs ∧ cr_ID cr = id) as Hf
    by (intros Hl; apply Hf; by destruct (foldl _ _ _) as [[m ix] n]).
  apply (foldl_inv (λ st, ∀ id cr, st.1.1 !! id = Some cr → cr ∈ cs ∧ cr_ID cr = id)).
  - intros ??. cbn. by rewrite lookup_empty.
  - intros [[m ix] n] x Hx IH id' cr'. cbn. destruct (ix !! _); cbn;
      (intros [[<- <-]|[_ Hl]]%lookup_insert_Some; [done|by apply IH]).
Qed.

Section list.
Context `{!GoRuntime, !Codec, !Folding}.

(** C34: The listing says what the gate does. When the command lists an existing file and a
    relay reloads the same file, then at the same time a credential is printed as expired
    exactly when the relay refuses it as expired, it is admitted with the printed credential's
    terms exactly when it is not, and no credential that is not listed is admitted. The one
    exception is a file with no credential and a relay that enforces admission: the relay
    refuses that reload, and keeps the whole set it had. *)
Theorem list_agrees_with_gate c f h cs envs n now :
  list_ f h = inr (cs, true) → c_AdmissionFile c ≠ ""%string →
  let gate := nd_admissions (run (reload c (ho_body h ≫= decodeCredentials)) envs n).2 in
  if c_RequireAdmission c && bool_decide (cs = []) then gate = nd_admissions n else
  (∀ cr, cr ∈ cs → let '(id, _, _, window) := listRow cr now in
     (window = "EXPIRED"%string ↔ Lookup gate id now = inl ErrExpiredCredential) ∧
     (window ≠ "EXPIRED"%string ↔ ∃ g, Lookup gate id now = inr g ∧ ga_Terms g = cr_Terms cr)) ∧
  (∀ id g, Lookup gate id now = inr g → id ∈ cr_ID <$> cs).
Proof.
  intros Hlist Hfile gate. unfold list_ in Hlist.
  destruct (Open _ _ _) as [|file] eqn:Ho; [done|]. injection Hlist as <- Hex.
  unfold Open in Ho. destruct (is_empty _); [done|].
  destruct (ho_stat h) as [dir| |regular mode]; [destruct (negb dir); [done|]; injection Ho as <-; done|done|].
  destruct (negb regular); [done|]. destruct (ReadFile (ho_body h ≫= decodeCredentials)) as [cs'|] eqn:Hr; [|done].
  injection Ho as <-. unfold Credentials. cbn [f_credentials].
  assert (goodSet cs') as [_ Hnd].
  { unfold ReadFile in Hr. destruct (ho_body h ≫= decodeCredentials) as [entries|]; [|done].
    destruct (ParseCredentials entries) as [|x] eqn:Hp; [done|]. injection Hr as ->.
    by eapply ParseCredentials_good. }
  set (sorted := sort_slice _ cs'). assert (sorted ≡ₚ cs') as Hperm by apply sort_slice_perm.
  assert (bool_decide (sorted = []) = bool_decide (cs' = [])) as ->.
  { apply bool_decide_ext. split; intros Hz; rewrite Hz in Hperm; [by apply Permutation_nil|].
    by apply Permutation_nil. }
  unfold gate. rewrite (run_reload c _ _ _ cs') by done. destruct (_ && _); [done|].
  split.
  - intros cr Hcr. rewrite Hperm in Hcr. unfold listRow. cbn.
    pose proof (Replace_lookup (nd_admissions n) cs' cr Hnd Hcr) as Hl.
    rewrite remaining_expired. unfold Lookup. rewrite Hl. unfold After.
    destruct (Z.ltb_spec now (t_NotAfter (cr_Terms cr))) as [Hlt|Hle]; cbn [negb].
    + split; [split; [lia|done]|]. split; [eauto|lia].
    + split; [done|]. split; [lia|]. by intros (g & ? & _).
  - intros id g Hg. unfold Lookup in Hg. destruct (credentials _ !! id) as [cr|] eqn:Hl; [|done].
    apply Replace_from in Hl as [Hin <-]. rewrite Hperm. by apply list_elem_of_fmap_2.
Qed.
End list.

(** ** An example *)

#[local] Existing Instances plainCodec list_runtime asciiFolding demoParsers.

Module Sample.
Definition answer : AdmitError + list Credential * bool := list_ AdmitProps.Sample.fl AdmitProps.Sample.host.
Definition credentials : list Credential := match answer with inr (cs, _) => cs | inl _ => [] end.
Definition credential : Credential := default zeroCredential (head credentials).
End Sample.

Lemma list_agrees_with_gate_witness :
  let gate := nd_admissions (run (reload AdmitProps.Sample.config (ho_body AdmitProps.Sample.host ≫= decodeCredentials))
                               AdmitProps.Sample.envs AdmitProps.Sample.node).2 in
  list_ AdmitProps.Sample.fl AdmitProps.Sample.host = inr (Sample.credentials, true) ∧
  (remaining (t_NotAfter (cr_Terms Sample.credential)) AdmitProps.Sample.T0 = "EXPIRED"%string ↔
   Lookup gate (cr_ID Sample.credential) AdmitProps.Sample.T0 = inl ErrExpiredCredential).
Proof.
  intros gate. split; [by vm_compute|].
  pose proof (list_agrees_with_gate AdmitProps.Sample.config AdmitProps.Sample.fl AdmitProps.Sample.host
    Sample.credentials AdmitProps.Sample.envs AdmitProps.Sample.node AdmitProps.Sample.T0
    ltac:(by vm_compute) ltac:(by vm_compute)) as H.
  cbv zeta in H. fold gate in H.
  assert (c_RequireAdmission AdmitProps.Sample.config && bool_decide (Sample.credentials = []) = false) as Hne
    by (vm_compute; reflexivity).
  rewrite Hne in H. destruct H as [H _]. specialize (H Sample.credential).
  assert (Sample.credential ∈ Sample.credentials) as Hin by (apply (list_elem_of_lookup_2 _ 0%nat); by vm_compute).
  exact (proj1 (H Hin)).
Defined.
