(* ===== verification/ErrorLog.v ===== *)
(** * The server's own error log ([cmd/dee-relay/errorlog.go])

    Lines that [net/http] writes about failures name the client; the writer given to every
    server replaces the address. The regular expression is a value, matched the way [regexp]
    does: at the leftmost place, and there by the first alternative in the order in which a
    backtracking search tries them. All its classes are ASCII, so it is matched on bytes. *)

From Stdlib Require Import Strings.String.
From S2P Require Import Prelude Strconv.

Open Scope Z_scope.

(** ** Regular expressions *)

Inductive Regex :=
  | Eps
  | Byte (p : Z → bool)
  | Many (p : Z → bool)
  | Cat (r r' : Regex)
  | Or (r r' : Regex)
  | Boundary.

Definition isWord (b : Z) : bool :=
  isDigit b || ((65 <=? b) && (b <=? 90)) || ((97 <=? b) && (b <=? 122)) || (b =? 95).

(** Whether there is a word byte on a side of a place in the text. *)
Definition wordAt (o : option Z) : bool := match o with Some b => isWord b | None => false end.

Definition atBoundary (prev next : option Z) : bool := negb (Bool.eqb (wordAt prev) (wordAt next)).

(** One or more bytes, the longest run first. *)
Fixpoint many (p : Z → bool) (l : list Z) : list (option Z * list Z) :=
  match l with
  | [] => []
  | b :: l => if p b then many p l ++ [(Some b, l)] else []
  end.

(** The ends of the matches that start here, in the order they are tried: the byte before the
    end, and what is left. *)
Fixpoint matches (r : Regex) (prev : option Z) (l : list Z) : list (option Z * list Z) :=
  match r with
  | Eps => [(prev, l)]
  | Byte p => match l with b :: l => if p b then [(Some b, l)] else [] | [] => [] end
  | Many p => many p l
  | Cat r r' => '(prev, l) ← matches r prev l; matches r' prev l
  | Or r r' => matches r prev l ++ matches r' prev l
  | Boundary => if atBoundary prev (head l) then [(prev, l)] else []
  end.

Definition lit (b : Z) : Regex := Byte (λ c, c =? b).
Definition opt (r : Regex) : Regex := Or r Eps.

Fixpoint upTo (n : nat) (p : Z → bool) : Regex :=
  match n with O => Eps | S n => opt (Cat (Byte p) (upTo n p)) end.

(** From one byte to [n]. *)
Definition oneTo (n : nat) (p : Z → bool) : Regex := Cat (Byte p) (upTo (n - 1) p).

(** ** The addresses *)

Definition isHex (b : Z) : bool := isDigit b || ((97 <=? b) && (b <=? 102)) || ((65 <=? b) && (b <=? 70)).

(** [[0-9a-fA-F:.]] and [[0-9a-zA-Z._-]]. *)
Definition ipv6Byte (b : Z) : bool := isHex b || (b =? 58) || (b =? 46).
Definition zoneByte (b : Z) : bool := isWord b || (b =? 46) || (b =? 45).

(** [\[[0-9a-fA-F:.]+(?:%[0-9a-zA-Z._-]+)?\]:\d{1,5}] *)
Definition bracketed : Regex :=
  Cat (lit 91) (Cat (Many ipv6Byte) (Cat (opt (Cat (lit 37) (Many zoneByte)))
    (Cat (lit 93) (Cat (lit 58) (oneTo 5 isDigit))))).

Definition octet : Regex := oneTo 3 isDigit.

(** [(?:\d{1,3}\.){3}\d{1,3}(?::\d{1,5})?] *)
Definition dottedQuad : Regex :=
  Cat octet (Cat (lit 46) (Cat octet (Cat (lit 46) (Cat octet (Cat (lit 46) (Cat octet
    (opt (Cat (lit 58) (oneTo 5 isDigit))))))))).

Definition quad : Regex := Cat Boundary (Cat dottedQuad Boundary).

Definition remoteAddress : Regex := Or bracketed quad.

(** ** The writer *)

Definition redacted : list Z := bytes_of_string "redacted".

(** [ReplaceAllString]: the scan goes on after a match with the byte before it in the text.
    No match is empty, so the length of the text is enough fuel. *)
Fixpoint replaceAll (fuel : nat) (prev : option Z) (l : list Z) : list Z :=
  match fuel, l with
  | S fuel, b :: l' =>
      match matches remoteAddress prev l with
      | (prev', rest) :: _ => redacted ++ replaceAll fuel prev' rest
      | [] => b :: replaceAll fuel (Some b) l'
      end
  | _, _ => []
  end.

(** [strings.TrimRight(line, "\n")] *)
Fixpoint trimNewlines (l : list Z) : list Z :=
  match l with
  | [] => []
  | b :: l => match trimNewlines l with
              | [] => if b =? 10 then [] else [b]
              | rest => b :: rest
              end
  end.

(** The number of bytes taken, and the detail that is logged. *)
Definition Write (line : list Z) : Z * list Z :=
  let message := trimNewlines line in
  (Z.of_nat (length line), replaceAll (length message) None message).

Definition logged (line : string) : string := string_of_bytes (Write (bytes_of_string line)).2.

Example redact_lines :
  logged "http: panic serving 203.0.113.4:53422: boom" = "http: panic serving redacted: boom"%string ∧
  logged "http: TLS handshake error from [2001:db8::1%eth0]:443: EOF"
    = "http: TLS handshake error from redacted: EOF"%string ∧
  logged "v1.2.3.4 took 1.2.3.4:123456, 1.2.3.4.5" = "v1.2.3.4 took redacted:123456, redacted.5"%string.
Proof. by vm_compute. Qed.
