(* ===== verification/ErrorLogProps.v ===== *)
(** * What the error log keeps of a line

    The matcher is related to the language of the expression, and the scan to the places
    where an address stands: after a redaction no address is left. *)

From Stdlib Require Import Strings.String.
From S2P Require Import Prelude Strconv ErrorLog.

Open Scope Z_scope.

(** ** The language of an expression *)

(** An expression that does not look around itself. *)
Fixpoint plain (r : Regex) : bool :=
  match r with
  | Cat r r' | Or r r' => plain r && plain r'
  | Boundary => false
  | _ => true
  end.

Fixpoint lang (r : Regex) (x : list Z) : Prop :=
  match r with
  | Eps => x = []
  | Byte p => ∃ b, x = [b] ∧ p b = true
  | Many p => x ≠ [] ∧ Forall (λ b, p b = true) x
  | Cat r r' => ∃ x1 x2, x = x1 ++ x2 ∧ lang r x1 ∧ lang r' x2
  | Or r r' => lang r x ∨ lang r' x
  | Boundary => False
  end.

(** The byte before the end of [x], which stands after [prev]. *)
Definition endOf (prev : option Z) (x : list Z) : option Z :=
  match last x with Some b => Some b | None => prev end.

Lemma endOf_app prev x y : endOf (endOf prev x) y = endOf prev (x ++ y).
Proof. unfold endOf. rewrite last_app. by destruct (last y). Qed.

Lemma many_lang p l prev' l' prev :
  (prev', l') ∈ many p l ↔ ∃ x, l = x ++ l' ∧ lang (Many p) x ∧ prev' = endOf prev x.
Proof.
  revert prev. induction l as [|b l IH]; intros prev; cbn [many lang].
  { rewrite elem_of_nil. split; [done|]. intros ([|] & Hx & [Hne _] & _); done. }
  destruct (p b) eqn:Hb.
  - rewrite elem_of_app, list_elem_of_singleton, (IH (Some b)). split.
    + intros [(x & -> & [Hne Hx] & ->)|[= -> ->]].
      * exists (b :: x). split_and!; [done..|by constructor|]. exact (endOf_app prev [b] x).
      * exists [b]. by repeat split; [|constructor].
    + intros ([|c x] & Heq & [Hne Hx] & ->); [done|]. injection Heq as <- ->.
      apply Forall_cons in Hx as [_ Hx]. destruct x as [|c x]; [by right|left].
      exists (c :: x). split_and!; [done..|]. exact (eq_sym (endOf_app prev [b] (c :: x))).
  - rewrite elem_of_nil. split; [done|]. intros ([|c x] & Heq & [Hne Hx] & _); [done|].
    injection Heq as <- _. apply Forall_cons in Hx as [Hx _]. congruence.
Qed.

Lemma matches_lang r prev l prev' l' :
  plain r = true →
  (prev', l') ∈ matches r prev l ↔ ∃ x, l = x ++ l' ∧ lang r x ∧ prev' = endOf prev x.
Proof.
  revert prev l prev' l'. induction r as [|p|p|r IH r' IH'|r IH r' IH'|]; intros prev l prev' l' Hp; cbn [matches].
  - rewrite list_elem_of_singleton. split.
    + intros [= -> ->]. by exists [].
    + by intros (x & -> & -> & ->).
  - cbn [lang]. split.
    + destruct l as [|b l]; [by intros ?%not_elem_of_nil|]. destruct (p b) eqn:Hb; [|by intros ?%not_elem_of_nil].
      intros [= -> ->]%list_elem_of_singleton. exists [b]. eauto.
    + intros (x & -> & (b & -> & Hb) & ->). cbn. rewrite Hb. by left.
  - apply many_lang.
  - cbn [plain] in Hp. apply andb_true_iff in Hp as [Hr Hr']. rewrite list_elem_of_bind. cbn [lang]. split.
    + intros ([pm lm] & Hin' & Hin). apply IH in Hin as (x & -> & Hx & ->); [|done].
      apply IH' in Hin' as (y & -> & Hy & ->); [|done].
      exists (x ++ y). rewrite app_assoc, endOf_app. eauto 10.
    + intros (z & -> & (x & y & -> & Hx & Hy) & ->). exists (endOf prev x, y ++ l'). split.
      * apply IH'; [done|]. exists y. rewrite endOf_app. eauto.
      * apply IH; [done|]. exists x. rewrite app_assoc. eauto.
  - cbn [plain] in Hp. apply andb_true_iff in Hp as [Hr Hr']. cbn [lang].
    rewrite elem_of_app, IH, IH' by done. naive_solver.
  - done.
Qed.

(** ** Addresses in a text *)

(** A bracketed address starts here. *)
Definition bracketAt (l : list Z) : Prop := ∃ x l', l = x ++ l' ∧ lang bracketed x.

(** A dotted quad stands here, after [prev]. *)
Definition quadAt (prev : option Z) (l : list Z) : Prop :=
  ∃ x l', l = x ++ l' ∧ lang dottedQuad x ∧ atBoundary prev (head l) = true ∧
          atBoundary (endOf prev x) (head l') = true.

Lemma matches_Or r r' prev l : matches (Or r r') prev l = matches r prev l ++ matches r' prev l.
Proof. done. Qed.

Lemma matches_delimited r prev l :
  matches (Cat Boundary (Cat r Boundary)) prev l =
  if atBoundary prev (head l)
  then '(prev, l) ← matches r prev l; if atBoundary prev (head l) then [(prev, l)] else [] else [].
Proof. cbn. destruct (atBoundary prev (head l)); cbn; [|done]. by rewrite app_nil_r. Qed.

Lemma matches_remote prev l prev' l' :
  (prev', l') ∈ matches remoteAddress prev l →
  ∃ x, l = x ++ l' ∧ prev' = endOf prev x ∧ (lang bracketed x ∨ lang dottedQuad x).
Proof.
  unfold remoteAddress. rewrite matches_Or. intros [Hin|Hin]%elem_of_app.
  - apply (matches_lang bracketed) in Hin as (x & ? & ? & ?); [|done]. eauto.
  - unfold quad in Hin. rewrite matches_delimited in Hin.
    destruct (atBoundary prev (head l)); [|by apply not_elem_of_nil in Hin].
    apply list_elem_of_bind in Hin as ([pm lm] & Hin' & Hin).
    apply (matches_lang dottedQuad) in Hin as (x & -> & Hx & ->); [|done].
    destruct (atBoundary _ _); [|by apply not_elem_of_nil in Hin'].
    apply list_elem_of_singleton in Hin' as [= -> ->]. eauto.
Qed.

Lemma no_match_no_address prev l :
  matches remoteAddress prev l = [] → ¬ bracketAt l ∧ ¬ quadAt prev l.
Proof.
  unfold remoteAddress. rewrite matches_Or. intros [Hb Hq]%app_eq_nil. split.
  - intros (x & l' & -> & Hx). assert ((endOf prev x, l') ∈ matches bracketed prev (x ++ l')) as Hin.
    { apply matches_lang; [done|]. eauto. }
    rewrite Hb in Hin. by apply not_elem_of_nil in Hin.
  - intros (x & l' & -> & Hx & Hs & He). unfold quad in Hq. rewrite matches_delimited, Hs in Hq.
    assert ((endOf prev x, l') ∈ matches dottedQuad prev (x ++ l')) as Hin.
    { apply matches_lang; [done|]. eauto. }
    assert ((endOf prev x, l') ∈ []) as Hn; [|by apply not_elem_of_nil in Hn].
    rewrite <-Hq. apply list_elem_of_bind. exists (endOf prev x, l'). split; [|done].
    rewrite He. by left.
Qed.

(** What matches is an address that stands there. *)
Lemma match_address prev l : matches remoteAddress prev l ≠ [] → bracketAt l ∨ quadAt prev l.
Proof.
  unfold remoteAddress. rewrite matches_Or. intros Hm.
  destruct (matches bracketed prev l) as [|[prev' l'] ms] eqn:Hb.
  - right. unfold quad in Hm. rewrite matches_delimited in Hm.
    destruct (atBoundary prev (head l)) eqn:Hs; [|done]. cbn [app] in Hm.
    destruct (_ ≫= _) as [|[prev' l'] ms] eqn:Hq; [done|].
    assert ((prev', l') ∈ matches dottedQuad prev l ≫= λ '(prev, l), if atBoundary prev (head l) then [(prev, l)] else []) as Hin
      by (rewrite Hq; by left).
    apply list_elem_of_bind in Hin as ([pm lm] & Hin' & Hin).
    apply (matches_lang dottedQuad) in Hin as (x & -> & Hx & ->); [|done].
    destruct (atBoundary (endOf prev x) (head lm)) eqn:He; [|by apply not_elem_of_nil in Hin']. by exists x, lm.
  - left. assert ((prev', l') ∈ matches bracketed prev l) as Hin by (rewrite Hb; by left).
    apply (matches_lang bracketed) in Hin as (x & -> & Hx & _); [|done]. by exists x, l'.
Qed.

(** The newlines after a text do not take an address out of it. *)
Lemma address_before_newlines prev l k :
  bracketAt l ∨ quadAt prev l → bracketAt (l ++ replicate k 10) ∨ quadAt prev (l ++ replicate k 10).
Proof.
  assert (∀ l, wordAt (head (l ++ replicate k 10)) = wordAt (head l)) as Hw by (intros [|]; by destruct k).
  intros [(x & l' & -> & Hx)|(x & l' & -> & Hx & Hs & He)]; [left|right].
  - exists x, (l' ++ replicate k 10). by rewrite app_assoc.
  - exists x, (l' ++ replicate k 10). unfold atBoundary in *. rewrite !Hw. by rewrite app_assoc.
Qed.

(** ** The shape of an address *)

Lemma upTo_bytes n p x : lang (upTo n p) x → Forall (λ b, p b = true) x.
Proof.
  revert x. induction n as [|n IH]; intros x; cbn [upTo lang opt]; [by intros ->|].
  intros [(x1 & x2 & -> & (b & -> & Hb) & Hx)| ->]; [|done]. constructor; [done|]. by apply IH.
Qed.

Lemma oneTo_bytes n p x : lang (oneTo n p) x → Forall (λ b, p b = true) x ∧ x ≠ [].
Proof.
  cbn [oneTo lang]. intros (x1 & x2 & -> & (b & -> & Hb) & Hx%upTo_bytes). split; [|done]. cbn [app]. by apply Forall_cons.
Qed.

Lemma last_Forall {A} (P : A → Prop) (x : list A) b : Forall P x → last x = Some b → P b.
Proof.
  intros Hx Hb. rewrite Forall_forall in Hx. by apply Hx, last_Some_elem_of.
Qed.

(** A text that ends in a digit. *)
Definition endsInDigit (x : list Z) : Prop := ∃ b, last x = Some b ∧ isDigit b = true.

Lemma endsInDigit_app x y : endsInDigit y → endsInDigit (x ++ y).
Proof. intros (b & Hb & Hd). exists b. by rewrite last_app, Hb. Qed.

Lemma oneTo_ends n x : lang (oneTo n isDigit) x → endsInDigit x.
Proof.
  intros [Hx Hne]%oneTo_bytes. destruct (last x) as [b|] eqn:Hl; [|by apply last_None in Hl].
  exists b. split; [done|]. by apply (last_Forall _ _ _ Hx).
Qed.

Definition quadByte (b : Z) : bool := isDigit b || (b =? 46) || (b =? 58).

Lemma lit_bytes b x : lang (lit b) x → x = [b].
Proof. intros (c & -> & Hc). cbn in Hc. f_equal. lia. Qed.

Ltac open_lang H :=
  repeat match type of H with
  | lang (Cat _ _) _ => let x := fresh "x" in let y := fresh "y" in let Hx := fresh "Hx" in
      destruct H as (x & y & -> & Hx & H)
  end.

Lemma octet_bytes x : lang octet x → Forall (λ b, quadByte b = true) x.
Proof.
  intros [Hx _]%oneTo_bytes. eapply Forall_impl; [exact Hx|]. intros b Hb. cbn in Hb. unfold quadByte. by rewrite Hb.
Qed.

Lemma dottedQuad_shape x :
  lang dottedQuad x →
  Forall (λ b, quadByte b = true) x ∧ endsInDigit x ∧ ∃ b, head x = Some b ∧ isDigit b = true.
Proof.
  intros H. unfold dottedQuad in H. open_lang H.
  apply lit_bytes in Hx0 as ->, Hx2 as ->, Hx4 as ->.
  assert (Forall (λ b, quadByte b = true) y ∧ (y = [] ∨ endsInDigit y)) as [Hy He].
  { destruct H as [(z & w & -> & ->%lit_bytes & Hw)| ->]; [|split; [done|by left]].
    split; [|right; by apply endsInDigit_app, (oneTo_ends 5)].
    constructor; [done|]. apply oneTo_bytes in Hw as [Hw _]. eapply Forall_impl; [exact Hw|].
    intros b Hb. cbn in Hb. unfold quadByte. by rewrite Hb. }
  split_and!.
  - rewrite !Forall_app, !Forall_singleton. split_and!; auto using octet_bytes.
  - do 6 apply endsInDigit_app. destruct He as [->|He]; [|by apply endsInDigit_app].
    rewrite app_nil_r. by apply (oneTo_ends 3).
  - destruct Hx as (z & w & -> & (b & -> & Hb) & _). by exists b.
Qed.

Lemma bracketed_shape x :
  lang bracketed x →
  endsInDigit x ∧ head x = Some 91 ∧ (37 ∉ x → Forall (λ b, ipv6Byte b || (b =? 91) || (b =? 93) = true) x).
Proof.
  intros H. unfold bracketed in H. open_lang H.
  apply lit_bytes in Hx as ->, Hx2 as ->, Hx3 as ->. split_and!.
  - do 5 apply endsInDigit_app. by apply (oneTo_ends 5).
  - done.
  - intros Hno. destruct Hx1 as [(z & w & -> & ->%lit_bytes & _)| ->]; [set_solver|].
    destruct Hx0 as [_ Hx0]. apply oneTo_bytes in H as [H _].
    rewrite !Forall_app, !Forall_singleton. split_and!; try done.
    + eapply Forall_impl; [exact Hx0|]. intros b Hb. cbn in Hb. by rewrite Hb.
    + eapply Forall_impl; [exact H|]. intros b Hb. cbn in Hb. unfold ipv6Byte, isHex. by rewrite Hb.
Qed.

(** ** The scan *)

Inductive Redacted : option Z → list Z → list Z → Prop :=
  | RedactedEnd prev : Redacted prev [] []
  | RedactedAddress prev x rest out :
      lang bracketed x ∨ lang dottedQuad x → matches remoteAddress prev (x ++ rest) ≠ [] →
      Redacted (endOf prev x) rest out → Redacted prev (x ++ rest) (redacted ++ out)
  | RedactedByte prev b l out :
      matches remoteAddress prev (b :: l) = [] → Redacted (Some b) l out →
      Redacted prev (b :: l) (b :: out).

Lemma address_ends x : lang bracketed x ∨ lang dottedQuad x → endsInDigit x.
Proof. intros [Hx%bracketed_shape|Hx%dottedQuad_shape]; tauto. Qed.

Lemma replaceAll_redacted fuel prev l :
  (length l ≤ fuel)%nat → Redacted prev l (replaceAll fuel prev l).
Proof.
  revert prev l. induction fuel as [|fuel IH]; intros prev [|b l] Hl; cbn [length] in Hl; try constructor; [lia|].
  cbn [replaceAll]. destruct (matches remoteAddress prev (b :: l)) as [|[prev' rest] ms] eqn:Hm.
  - constructor; [done|]. apply IH. lia.
  - assert ((prev', rest) ∈ matches remoteAddress prev (b :: l)) as Hin by (rewrite Hm; by left).
    apply matches_remote in Hin as (x & Heq & -> & Hx). rewrite Heq. constructor; [done|by rewrite <-Heq, Hm|]. apply IH.
    destruct x as [|c x]; [destruct (address_ends [] Hx) as (? & ? & _); done|].
    injection Heq as <- ->. rewrite length_app in Hl. lia.
Qed.

(** The text and what is logged go together up to the next redaction or the end. *)
Lemma redacted_piece prev l out :
  Redacted prev l out →
  ∃ s t t', out = s ++ t ∧ l = s ++ t' ∧ (t = [] ∧ t' = [] ∨ ∃ u, t = redacted ++ u).
Proof.
  induction 1 as [prev|prev x rest out Hx _ _ _|prev b l out Hm _ IH].
  - exists [], [], []. eauto.
  - exists [], (redacted ++ out), (x ++ rest). eauto 10.
  - destruct IH as (s & t & t' & -> & -> & Ht). exists (b :: s), t, t'. done.
Qed.

Lemma digit_word b : isDigit b = true → isWord b = true.
Proof. unfold isWord. by intros ->. Qed.

Lemma endsInDigit_endOf prev x : endsInDigit x → wordAt (endOf prev x) = true.
Proof. intros (b & Hb & Hd). unfold endOf. rewrite Hb. by apply digit_word. Qed.

(** A text made of bytes of an address does not reach into a redaction. *)
Lemma prefix_before_redaction (P : Z → Prop) x l' s t u :
  Forall P x → ¬ P 114 → s ++ t = x ++ l' → t = redacted ++ u → ∃ s', s = x ++ s' ∧ l' = s' ++ t.
Proof.
  intros Hx Hr Heq ->. apply app_eq_app in Heq as (z & [[-> ->]|[-> Heq]]); [eauto|].
  destruct z as [|c z]; [exists []; by rewrite !app_nil_r|].
  injection Heq as <- _. apply Forall_app in Hx as [_ Hx%Forall_cons]. by destruct Hx.
Qed.

Lemma quad_survives prev prev' b s t t' :
  t = [] ∧ t' = [] ∨ (∃ u, t = redacted ++ u) → wordAt prev = wordAt prev' →
  quadAt prev (b :: s ++ t) → quadAt prev' (b :: s ++ t').
Proof.
  intros Ht Hprev (x & l' & Heq & Hx & Hs & He).
  destruct (dottedQuad_shape x Hx) as (Hb & Hend & c & Hhead & Hc).
  assert (∀ l'', wordAt (head l') = wordAt (head l'') → b :: s ++ t' = x ++ l'' → quadAt prev' (b :: s ++ t')) as Hdone.
  { intros l'' Hl'' Heq'. rewrite Heq'. exists x, l''. split_and!; [done..| |].
    - unfold atBoundary in *. rewrite <-Hprev. rewrite Heq in Hs. destruct x; [done|]. exact Hs.
    - unfold atBoundary in *. rewrite <-Hl''. by rewrite endsInDigit_endOf in He |- * by done. }
  destruct Ht as [[-> ->]|[u Ht]]; [by apply (Hdone l')|].
  change (b :: s ++ t) with ((b :: s) ++ t) in Heq.
  destruct (prefix_before_redaction (λ b, quadByte b = true) x l' (b :: s) t u) as (s' & Hs' & ->); [done..|].
  apply (Hdone (s' ++ t')).
  - destruct s' as [|c' s']; [|done]. exfalso. rewrite Ht in He. unfold atBoundary in He.
    by rewrite endsInDigit_endOf in He.
  - change (b :: s ++ t') with ((b :: s) ++ t'). by rewrite Hs', <-app_assoc.
Qed.

Lemma bracket_survives b s t t' :
  37 ∉ b :: s ++ t → t = [] ∧ t' = [] ∨ (∃ u, t = redacted ++ u) →
  bracketAt (b :: s ++ t) → bracketAt (b :: s ++ t').
Proof.
  intros Hno Ht (x & l' & Heq & Hx). destruct (bracketed_shape x Hx) as (_ & _ & Hb).
  destruct Ht as [[-> ->]|[u Ht]]; [by exists x, l'|].
  change (b :: s ++ t) with ((b :: s) ++ t) in Heq, Hno.
  destruct (prefix_before_redaction _ x l' (b :: s) t u (Hb ltac:(rewrite Heq in Hno; set_solver))) as (s' & Hs' & _);
    [done..|].
  exists x, (s' ++ t'). split; [|done]. change (b :: s ++ t') with ((b :: s) ++ t'). by rewrite Hs', <-app_assoc.
Qed.

(** No address starts at a letter of the word that replaces one. *)
Lemma word_no_address b l prev :
  b ∈ redacted → ¬ quadAt prev (b :: l) ∧ ¬ bracketAt (b :: l).
Proof.
  intros Hb. assert (isDigit b = false ∧ b ≠ 91) as [Hd Hn].
  { assert (Forall (λ b, isDigit b = false ∧ b ≠ 91) redacted) as Hall.
    { by repeat (apply Forall_cons; split; [by vm_compute|]). }
    rewrite Forall_forall in Hall. by apply Hall. }
  split.
  - intros (x & l' & Heq & (_ & _ & c & Hc & Hcd)%dottedQuad_shape & _).
    destruct x; [done|]. injection Heq as <- _. cbn in Hc. congruence.
  - intros (x & l' & Heq & (_ & Hc & _)%bracketed_shape). destruct x; [done|].
    injection Heq as <- _. cbn in Hc. congruence.
Qed.

(** Where an address would have to stand in what is logged. *)
Definition free (brackets : Prop) (prev : option Z) (out : list Z) : Prop :=
  ∀ pre suf, out = pre ++ suf → ¬ quadAt (endOf prev pre) suf ∧ (brackets → ¬ bracketAt suf).

Lemma free_nil brackets prev : free brackets prev [].
Proof.
  intros pre suf Heq. symmetry in Heq. apply app_eq_nil in Heq as [-> ->]. split.
  - intros (x & l' & Heq & (_ & _ & c & Hc & _)%dottedQuad_shape & _). by destruct x.
  - intros _ (x & l' & Heq & (_ & Hc & _)%bracketed_shape). by destruct x.
Qed.

Lemma free_cons brackets prev b out :
  ¬ quadAt prev (b :: out) → (brackets → ¬ bracketAt (b :: out)) → free brackets (Some b) out →
  free brackets prev (b :: out).
Proof.
  intros Hq Hb Hf [|c pre] suf Heq; cbn in Heq; [by subst suf|]. injection Heq as <- ->.
  change (endOf prev (b :: pre)) with (endOf prev ([b] ++ pre)). rewrite <-endOf_app. by apply Hf.
Qed.

Lemma free_word brackets prev w out :
  w ⊆ redacted → free brackets (endOf prev w) out → free brackets prev (w ++ out).
Proof.
  revert prev. induction w as [|b w IH]; intros prev Hw Hf; [done|].
  destruct (word_no_address b (w ++ out) prev) as [Hq Hb]; [set_solver|].
  apply free_cons; [done..|]. apply IH; [set_solver|].
  change (Some b) with (endOf prev [b]). by rewrite endOf_app.
Qed.

Lemma redacted_bytes prev l out b : Redacted prev l out → b ∈ out → b ∈ l ∨ b ∈ redacted.
Proof.
  induction 1 as [prev|prev x rest out Hx _ _ IH|prev c l out Hm _ IH]; [by left|..].
  - rewrite !elem_of_app. tauto.
  - rewrite !elem_of_cons. tauto.
Qed.

Lemma zone_not_redacted : 37 ∉ redacted.
Proof. by apply (bool_decide_eq_false (37 ∈ redacted)). Qed.

Lemma redacted_free prev prev' l out :
  Redacted prev l out → wordAt prev = wordAt prev' → free (37 ∉ l) prev' out.
Proof.
  intros H. revert prev'. induction H as [prev|prev x rest out Hx _ _ IH|prev b l out Hm Hr IH]; intros prev' Hp.
  - apply free_nil.
  - apply free_word; [done|]. intros pre suf Heq.
    destruct (IH (endOf prev' redacted)) with (pre := pre) (suf := suf) as [Hq Hb]; [|done|].
    + by rewrite (endsInDigit_endOf _ _ (address_ends x Hx)).
    + split; [done|]. intros Hno. apply Hb. intros Hin. by apply Hno, elem_of_app; right.
  - apply no_match_no_address in Hm as [Hmb Hmq].
    destruct (redacted_piece _ _ _ Hr) as (s & t & t' & -> & -> & Ht).
    apply free_cons.
    + intros Hq. apply Hmq. by eapply quad_survives.
    + intros Hno Hb. apply Hmb. eapply bracket_survives; [|exact Ht|exact Hb].
      intros [Hb'|Hin]%elem_of_cons; [by apply Hno, elem_of_cons; left|].
      apply (redacted_bytes _ _ _ _ Hr) in Hin as [Hin|Hin]; [by apply Hno, elem_of_cons; right|].
      by apply zone_not_redacted in Hin.
    + intros pre suf Heq. destruct (IH (Some b) eq_refl pre suf Heq) as [Hq Hb]. split; [done|].
      intros Hno. apply Hb. intros Hin. by apply Hno, elem_of_cons; right.
Qed.

(** A line in which nothing matches is scanned to its end without a replacement. *)
Lemma redacted_same prev l out :
  Redacted prev l out → (∀ pre suf, l = pre ++ suf → matches remoteAddress (endOf prev pre) suf = []) → out = l.
Proof.
  induction 1 as [prev|prev x rest out Hx Hm _ _|prev b l out Hm _ IH]; intros Hno; [done| |].
  - destruct Hm. by apply (Hno []).
  - f_equal. apply IH. intros pre suf ->. rewrite <-(Hno (b :: pre) suf eq_refl).
    change (endOf prev (b :: pre)) with (endOf prev ([b] ++ pre)). by rewrite <-endOf_app.
Qed.

(** ** What is logged *)

(** No address stands anywhere in a text: no dotted quad at word boundaries, no bracketed address. *)
Definition withoutQuads (l : list Z) : Prop := ∀ pre suf, l = pre ++ suf → ¬ quadAt (endOf None pre) suf.
Definition withoutBrackets (l : list Z) : Prop := ∀ pre suf, l = pre ++ suf → ¬ bracketAt suf.

(** An IPv4 address as [net.IP] writes it. *)
Definition ipv4 (a b c d : Z) : list Z :=
  bytes_of_string (FormatUint a) ++ [46] ++ bytes_of_string (FormatUint b) ++ [46] ++
  bytes_of_string (FormatUint c) ++ [46] ++ bytes_of_string (FormatUint d).

Definition isOctet (n : Z) : Prop := 0 ≤ n < 256.

Lemma upTo_intro n p x : Forall (λ b, p b = true) x → (length x ≤ n)%nat → lang (upTo n p) x.
Proof.
  revert x. induction n as [|n IH]; intros [|b x] Hx Hn; cbn [upTo lang opt length] in *; try done; [lia|by right|].
  apply Forall_cons in Hx as [Hb Hx]. left. exists [b], x. split_and!; [done|by exists b|]. apply IH; [done|lia].
Qed.

Lemma oneTo_intro n p x :
  Forall (λ b, p b = true) x → x ≠ [] → (length x ≤ n)%nat → lang (oneTo n p) x.
Proof.
  intros Hx Hne Hn. destruct x as [|b x]; [done|]. apply Forall_cons in Hx as [Hb Hx]. cbn [length] in Hn.
  exists [b], x. split_and!; [done|by exists b|]. apply upTo_intro; [done|lia].
Qed.

Lemma octet_text n : isOctet n → lang octet (bytes_of_string (FormatUint n)).
Proof.
  intros Hn. set (ok n := let x := bytes_of_string (FormatUint n) in
    forallb isDigit x && negb (bool_decide (x = [])) && (length x <=? 3)%nat).
  assert (forallb ok (seqZ 0 256) = true) as Hall by by vm_compute.
  rewrite forallb_forall in Hall. specialize (Hall n). unfold ok in Hall.
  assert (In n (seqZ 0 256)) as Hin by (apply list_elem_of_In, elem_of_seqZ; unfold isOctet in Hn; lia).
  apply Hall in Hin. rewrite !andb_true_iff, forallb_forall, negb_true_iff, bool_decide_eq_false, Nat.leb_le in Hin.
  destruct Hin as [[Hd Hne] Hl]. apply oneTo_intro; [|done..].
  apply Forall_forall. intros b Hb. by apply Hd, list_elem_of_In.
Qed.

Lemma ipv4_quad a b c d : isOctet a → isOctet b → isOctet c → isOctet d → lang dottedQuad (ipv4 a b c d).
Proof.
  intros Ha Hb Hc Hd. assert (lang (lit 46) [46]) as Hdot by by exists 46.
  unfold ipv4, dottedQuad. do 3 (eexists _, _; split; [reflexivity|split; [by apply octet_text|]];
    eexists _, _; split; [reflexivity|split; [exact Hdot|]]).
  eexists _, []. split; [by rewrite app_nil_r|]. split; [by apply octet_text|by right].
Qed.

(** A word that is an IPv4 address is a place where a dotted quad stands. *)
Lemma ipv4_at a b c d pre suf :
  isOctet a → isOctet b → isOctet c → isOctet d →
  wordAt (last pre) = false → wordAt (head suf) = false →
  quadAt (endOf None pre) (ipv4 a b c d ++ suf).
Proof.
  intros Ha Hb Hc Hd Hpre Hsuf. pose proof (ipv4_quad a b c d Ha Hb Hc Hd) as Hq.
  exists (ipv4 a b c d), suf. split_and!; [done..| |].
  - destruct (dottedQuad_shape _ Hq) as (_ & _ & x & Hx & Hdig). unfold atBoundary, endOf.
    assert (head (ipv4 a b c d ++ suf) = Some x) as -> by (destruct (ipv4 a b c d); [done|exact Hx]).
    cbn. rewrite (digit_word x Hdig). destruct (last pre); cbn in *; by rewrite ?Hpre.
  - destruct (dottedQuad_shape _ Hq) as (_ & He & _). unfold atBoundary.
    by rewrite (endsInDigit_endOf _ _ He), Hsuf.
Qed.

Lemma trimNewlines_prefix l : ∃ k, l = trimNewlines l ++ replicate k 10.
Proof.
  induction l as [|b l [k IH]]; cbn [trimNewlines]; [by exists 0%nat|].
  destruct (trimNewlines l) as [|c t]; [|exists k; cbn; by f_equal].
  destruct (b =? 10) eqn:Hb; [|exists k; cbn; by f_equal].
  exists (S k). cbn in *. f_equal; [lia|done].
Qed.

Lemma write_redacted line : Redacted None (trimNewlines line) (Write line).2.
Proof. by apply replaceAll_redacted. Qed.

(** C31: Whatever the server says about a failure, the writer takes the whole line, and in what
    it logs no IPv4 address stands as a word, nor any other dotted quad, with or without its
    port, nor a bracketed IPv6 address with its port when the line has no zone in it; the
    newlines at the end apart, a line with no address in it is logged as it is. *)
Theorem log_line_redacted (line : list Z) :
  (Write line).1 = Z.of_nat (length line) ∧
  (∀ a b c d pre suf, isOctet a → isOctet b → isOctet c → isOctet d →
     wordAt (last pre) = false → wordAt (head suf) = false →
     (Write line).2 ≠ pre ++ ipv4 a b c d ++ suf) ∧
  withoutQuads (Write line).2 ∧
  (37 ∉ line → withoutBrackets (Write line).2) ∧
  (withoutQuads line → withoutBrackets line → ∃ k, line = (Write line).2 ++ replicate k 10).
Proof.
  pose proof (redacted_free _ None _ _ (write_redacted line) eq_refl) as Hfree.
  destruct (trimNewlines_prefix line) as [k Hk]. split_and!.
  - done.
  - intros a b c d pre suf Ha Hb Hc Hd Hpre Hsuf Heq. destruct (Hfree pre (ipv4 a b c d ++ suf) Heq) as [Hq _].
    by apply Hq, ipv4_at.
  - intros pre suf Heq. by apply Hfree.
  - intros Hno pre suf Heq. apply (Hfree pre suf Heq).
    intros Hin. apply Hno. rewrite Hk. by apply elem_of_app; left.
  - intros Hq Hb. exists k. rewrite (redacted_same _ _ _ (write_redacted line)); [done|].
    intros pre suf Heq. destruct (matches _ _ _) eqn:Hm; [done|].
    destruct (address_before_newlines (endOf None pre) suf k) as [Ha|Ha].
    + apply match_address. by rewrite Hm.
    + by destruct (Hb pre (suf ++ replicate k 10)); [rewrite Hk, Heq, app_assoc|].
    + by destruct (Hq pre (suf ++ replicate k 10)); [rewrite Hk, Heq, app_assoc|].
Qed.

Example log_line_redacted_witness :
  (Write (bytes_of_string "http: panic serving [2001:db8::1]:443 via 203.0.113.4")).2 =
    bytes_of_string "http: panic serving redacted via redacted" ∧
  withoutBrackets (Write (bytes_of_string "http: panic serving [2001:db8::1]:443 via 203.0.113.4")).2.
Proof.
  split; [by vm_compute|].
  apply (log_line_redacted (bytes_of_string "http: panic serving [2001:db8::1]:443 via 203.0.113.4")).
  by apply (bool_decide_eq_false (37 ∈ bytes_of_string "http: panic serving [2001:db8::1]:443 via 203.0.113.4")).
Defined.
